(* ===== verification/_CoqProject ===== *)
-Q . S2P
Prelude.v
GoLang.v
Threads.v
Float.v
FloatBounds.v
Strconv.v
Gacha.v
GachaService.v
GachaRandom.v
GachaConcurrent.v
Ranking.v
Event.v
EventService.v
EventConcurrent.v
Idempotency.v
Auth.v
Http.v
RateLimit.v
RateSweeper.v
Config.v
Middleware.v
IdemConcurrent.v
AppError.v
Profile.v
Decode.v
Battle.v
BattleQueue.v
QueueApply.v
Endpoint.v
EventEndpoint.v
Room.v
Lifecycle.v
Bots.v
Observe.v
Prometheus.v
Aoi.v
Sql.v
SqlGacha.v
SqlEvent.v
SqlProfile.v
SqlBattle.v
SqlLocks.v
Redis.v
RedisBoard.v
RedisIdem.v
Bench.v
Report.v
Startup.v
Server.v
WellTyped.v
Stack.v
SqlServer.v
QueueServer.v
ServerThreads.v
ServerConcurrent.v
