(* ===== verification/Prelude.v ===== *)
(** * StageSync: verification library

    StageSync ([src/]) is the back end of a game: an HTTP server in Go with
    gacha rolls, time-limited events with scores and rewards, rankings, player
    profiles, a battle laboratory and a WebSocket room. This library translates
    it into executable definitions, layer by layer, with its in-memory, MySQL
    and Redis stores, and proves what each layer promises and what the layers
    promise together.

    ** How the parts fit together

    [cmd/server/main.go] loads its settings, opens the stores they ask for and
    listens. A request passes the router, a middleware chain (rate limit, then
    idempotency, then, for the gacha routes, authentication), a handler of
    [internal/endpoint] that decodes and validates it, a service of
    [internal/service] that applies the rules over a repository interface, and a
    repository of [internal/persistence] ([inmem], [mysql] or [redis]). Handlers
    translate the sentinel errors of [internal/domain] into [internal/apperror]
    errors and these into statuses. The event service also writes to the
    leaderboard that the ranking service reads.

    ** Files and what they model

    Shared:
    - [Prelude]: this header, 64-bit integer arithmetic with its wrap-around,
      and the lemmas and tactics the other files share.
    - [GoLang]: Go itself as far as the program uses it: error values with
      wrapping ([errors.Is], [errors.As], [fmt.Errorf]), calls that return a
      value, an error or a panic and change a state (the monad [M]), instants,
      slices, and the orders the language leaves open (ranging over a map,
      [sort.Slice]) as the class [GoRuntime].
    - [Threads]: calls as sequences of atomic steps, pools of calls that take
      turns, and the rule that proves an invariant of a pool call by call.
    - [Float]: binary64 numbers; [FloatBounds]: rounding and the bounds of
      computed numbers; [Strconv]: [strconv], [time.ParseDuration], and how numbers
      and durations are printed.
    - [Http]: requests, the response writer, handlers, and the functions of
      [strings] and [net] in use. [AppError]: [internal/apperror].

    Services with their in-memory stores:
    - [Gacha], [GachaService]: [internal/domain/gacha], [internal/service/gacha],
      [inmem/gacha_repo.go]. [WeightedPick], the built-in pool registry, rolling
      with the pity ceiling, history and counters. The theorems about the service
      are proved against [GachaLedger], which the in-memory and the MySQL
      repository both satisfy. [GachaConcurrent]: calls that interleave between
      their read and their write. [GachaRandom]: the generator, and the service as
      [NewService] builds it.
    - [Ranking]: [internal/domain/ranking], [internal/service/ranking],
      [inmem/leaderboard.go].
    - [Event], [EventService]: [internal/domain/event], [internal/service/event],
      [inmem/event_repo.go], with runs of calls of the service and the wiring of
      the leaderboard. [EventConcurrent]: scoring calls that interleave between
      their check, write, read and mirroring.
    - [Profile]: [internal/domain/profile], [internal/service/profile],
      [inmem/profile_repo.go].
    - [Battle], [BattleQueue]: [internal/domain/battle],
      [internal/service/battle], [inmem/battle_repo.go]. The naive applier is a
      function; the queued one is a transition system whose labels are the
      atomic actions of the calling goroutines and of the workers. [QueueApply]: one
      call of it from beginning to end.
    - [Idempotency], [Auth], [RateLimit], [Config]: [internal/idempotency],
      [internal/auth], [internal/ratelimit], [internal/config]. [RateSweeper]:
      the limiter with its sweeping goroutines.

    Endpoints:
    - [Middleware]: [internal/endpoint/idempotency.go], [auth.go],
      [ratelimit.go], and the two chains of [cmd/server/main.go].
      [IdemConcurrent]: requests that interleave inside the idempotency
      middleware.
    - [Decode]: reading of JSON bodies into structs, integer query parameters,
      [validate] tags.
    - [Endpoint], [EventEndpoint], [Lifecycle]: the handlers of
      [internal/endpoint] and [internal/lifecycle]. [Observe]: the access log, the
      request histogram and the gauges. [Prometheus]: the collectors, their
      registration and a scrape.
    - [Room]: [internal/room] and the handler of [internal/endpoint/ws.go].
    - [Aoi]: [internal/service/aoi], with the pool's buffers in a store of
      arrays.

    External stores:
    - [Sql]: tables, the statements the program sends with their meaning, the
      interface of the server ([DBTX], [MySQL] with [MySQLLaws]) and a
      reference server that satisfies it. [SqlGacha], [SqlEvent], [SqlProfile],
      [SqlBattle]: [internal/persistence/mysql] with its generated queries.
      [SqlLocks]: the transactions of [battle_repo.go] with their statements
      interleaved, over an interface with row locks ([LockingDB] with
      [LockingLaws]) and a reference server.
    - [Redis]: the commands in use ([Redis] with [RedisLaws]) and a reference
      server. [RedisBoard]: [redis/leaderboard.go]. [RedisIdem]:
      [internal/idempotency/redis.go].

    Programs:
    - [Bench]: the calls of [cmd/battlebench] and their summary; [Report]: what it
      prints.
    - [Bots]: [cmd/bots], the scenarios and the bots together with the room they
      move in.
    - [Startup]: [run] of [cmd/server/main.go] with [mysql.go] and [migrate.go]:
      opening, wiring, listening, draining, closing.
    - [Server]: routes, chains, handlers and services as one server, over the
      interface [Stores] that says where the handlers find what they work on;
      [Services] gives every service a store of its own. [WellTyped]: the types
      of what these stores hold. [SqlServer]: [Deployed], the server whose
      repositories share one MySQL database. [QueueServer]: the server
      with the queued battle applier. [Stack]: the access log, the metrics and the
      recoverer around the server.
    - [ServerThreads]: the services, handlers, middlewares and routes of the server, and
      the WebSocket route, as sequences of atomic steps. [ServerConcurrent]: the server
      while the steps of its goroutines interleave.

    Definitions carry the names of the source, prefixed by the type or package
    where two parts use the same name ([EventService_Create],
    [GachaRepo_GetPity], [SqlGachaRepo_GetPity], [event_ErrNotFound]).

    ** Conventions

    A repository, a store or a leaderboard is a record of its maps and lists; a
    method is a function to an outcome and the state it leaves. Methods that
    lock a mutex for their whole body are single steps; what a service or a
    middleware does between two of them may run concurrently ([ServerThreads], and the
    [...Concurrent] files for one component each). Readings of the clock
    are arguments, one for each reading and in their order, so that a property
    can say what happens when time passes between two of them. [int] and
    [int64] are integers with wrapping operations. Interfaces declared by the
    source are classes, with classes of laws where a client's theorems need them.

    Third-party code is a parameter: the random generator and the UUID source of
    the gacha service, signing and parsing of tokens ([JwtLibrary], with
    [JwtLaws]), the token bucket ([TokenBucket], with
    [TokenBucketLaws]), the validator ([Vldtr], with [VldtrLaws]),
    the parsing of times ([GoJson]), chi's middlewares ([ChiMiddleware], with
    [ChiLaws]), the router ([Router], with [RouterLaws]), the
    two database servers, the migration library and the listener ([World]), the
    Prometheus client ([PromClient], with [PromLaws]), the generator of the load
    generator ([Rand], with [RandLaws]) and the protobuf codec ([Proto], with
    [ProtoLaws]). Those with laws have a concrete instance that the witnesses
    compute with. The WebSocket library is used through what it hands to the
    program.

    A statement to MySQL or a command to Redis may be refused, or take effect and
    lose its reply; a Redis command may then be sent again by the client and take effect
    once more. Except in [SqlLocks], the statements of one call are not
    interleaved with those of other connections.

    ** What the theorems show

    - Gacha: the draw follows the weights exactly; every window of
      [PityThreshold] rolls has an SSR; counters agree with the history, also on
      MySQL with failures; there a call is all or nothing whatever fails
      ([SqlRoll_all_or_nothing]), in memory a failing one changes nothing; under any interleaving
      without overlapping calls for one player and pool the same holds, and
      [overlap_loses_an_update] shows that it fails with one.
    - Events and ranking: the ledger theorems relate repository, leaderboard and
      accepted deltas over all runs, in memory and on MySQL; ended events are
      frozen; scoring calls that interleave lose no score ([late_score] shows one
      that counts after the end); each operation has its full case analysis; rank, top and
      neighbourhood refer to the one ranking of the event, whatever the map order
      and the sort; Redis gives the answers of the in-memory leaderboard on the same
      scores, and [redis_incrs_refine] says what scores increments leave there when
      commands fail or are sent again ([retried_score_doubled]).
    - Battle: the queue has one writer per player, is linearizable and in
      order, ends with every call answered, and computes what the naive applier
      computes; the server answers the same with either, but for the name of the
      implementation in the answers ([queue_server_is_naive]); on MySQL every answered hit counts once, and hits that interleave
      statement by statement lose no update and, once a player has a row, do not
      deadlock ([first_hits_wait] shows that two first hits can). The benchmark's report
      and its consistency check mean what they say.
    - Idempotency, tokens, rate limit: the store refines a log; at most once;
      the first entry is kept, also in Redis; transparency; the gate and the token
      round trip; isolation of identities; sweeping is invisible; and that a
      replay needs no token, which is how the chain is ordered. Under any
      interleaving every request looked up after the first response is stored
      replays it; [overlapping_duplicates] shows what happens before.
    - Endpoints: complete answer tables for posting scores, posting rolls and
      the neighbourhood of a player, from the request to the stored state;
      error responses.
    - Room: under every interleaving of connections, whichever players they move, a
      player is in the room exactly when the latest event that touched it is a move,
      and where that move put it; these are the connected players that have moved when
      each connection has a player of its own. [reconnect_removes] shows what two
      connections of one player do; [ws_loop_leaves] says what a
      connection that moves several leaves behind, [ws_reads_deadline] what the
      deadline of the request does to one. The bots stay within the boxes of
      their scenarios and the room follows them frame by frame.
    - Area of interest: the pooled filter computes what the naive one computes,
      under every interleaving and nesting of calls that share the pool.
    - Log and metrics: every request is logged and observed once, with the
      status the client gets, and otherwise untouched; a scrape shows these counts
      and the gauges.
    - Configuration: bounds of what is loaded, malformed values, round trip of
      durations.
    - The whole: [server_refines_services], [stack_serves] and [server_invariant]
      for requests from the outermost middleware to the stores, [server_well_typed] for the types of what is
      stored, [sql_server_invariant] for the server on one database that fails,
      from one start to the next; [run_spec] and [run_releases] for a run of the
      program. Under any interleaving of requests and connections,
      with the sweeper of the limiter and with draining, [concurrent_server]: points and ranked scores differ by exactly what score requests
      under way still owe, and a player in the room was moved by an open connection or left
      behind by one that moved another player last;
      [concurrent_accounts]: the stores hold what the requests asked for, each once;
      [requests_end]: every request is answered. [steps_refine_server] is the lemma that ties the steps
      to the functions of the other files: two translations of the same code agree.

    ** Bounds and fuel

    Recursion is structural on the data except the trimming of white space and
    the parser of durations, whose fuel is the length of the string (each round
    removes a character). The queue's termination measure [weight] bounds the
    steps that are left without new calls and is the fuel of [settle],
    [hits_weight] the statements of interleaved hits. [QueueCapacity] is the source's 64.
    Runs, histories, callers and events are arbitrary lists; where a counter of
    the source could wrap, the theorem says below which bound it does not.

    ** Not modelled

    Statements of several connections that interleave, outside [SqlLocks]:
    [ServerConcurrent] is about the in-memory stores. The routes
    of the profiler, and chi's [Timeout]: what it does to a context is a reading of the
    request, the deadline of a connection. Generated protobuf code, the text
    format of Prometheus, the WebSocket handshake, log lines other than the access
    log and the reading of command-line flags are left out: they do
    not take part in the answers. *)

From Stdlib Require Export ZArith Lia Ascii.
From stdpp Require Export base option fin_maps gmap strings sorting list.

(** ** Scopes and notation *)

Declare Scope go_scope.
Delimit Scope go_scope with go.
#[global] Open Scope Z_scope.

(** ** Fixed-width integers

    Go's [int] (64 bits on the supported platforms) and [int64] wrap around in
    two's complement. *)
Definition int64_half : Z := 2 ^ 63.
Definition int64_wrap (z : Z) : Z := (z + int64_half) `mod` (2 * int64_half) - int64_half.
Definition in_int64 (z : Z) : Prop := - int64_half <= z < int64_half.

(** Addition and subtraction of Go integers. *)
Definition int_add (a b : Z) : Z := int64_wrap (a + b).
Definition int_sub (a b : Z) : Z := int64_wrap (a - b).

Infix "[+]" := int_add (at level 50, left associativity) : go_scope.
Infix "[-]" := int_sub (at level 50, left associativity) : go_scope.
#[global] Open Scope go_scope.

Lemma int64_wrap_small z : in_int64 z → int64_wrap z = z.
Proof.
  unfold in_int64, int64_wrap, int64_half; intros H.
  rewrite Z.mod_small; lia.
Qed.

Lemma int64_wrap_range z : in_int64 (int64_wrap z).
Proof.
  unfold in_int64, int64_wrap, int64_half.
  pose proof (Z.mod_pos_bound (z + 2 ^ 63) (2 * 2 ^ 63)). lia.
Qed.

Lemma int64_wrap_add_l a b : int64_wrap (int64_wrap a + b) = int64_wrap (a + b).
Proof.
  unfold int64_wrap.
  replace ((a + int64_half) `mod` (2 * int64_half) - int64_half + b + int64_half)
    with ((a + int64_half) `mod` (2 * int64_half) + b) by lia.
  rewrite Z.add_mod_idemp_l by (unfold int64_half; lia).
  do 2 f_equal. lia.
Qed.

Lemma int_add_small a b : in_int64 (a + b) → a [+] b = a + b.
Proof. apply int64_wrap_small. Qed.

Lemma int_sub_small a b : in_int64 (a - b) → a [-] b = a - b.
Proof. apply int64_wrap_small. Qed.

Lemma int_add_range a b : in_int64 (a [+] b).
Proof. apply int64_wrap_range. Qed.

Lemma int_add_comm a b : a [+] b = b [+] a.
Proof. unfold int_add. f_equal. lia. Qed.

Lemma int_add_assoc a b c : a [+] (b [+] c) = (a [+] b) [+] c.
Proof.
  unfold int_add.
  rewrite int64_wrap_add_l, (Z.add_comm a), int64_wrap_add_l.
  f_equal. lia.
Qed.

Create HintDb go.
#[export] Hint Resolve int64_wrap_range int_add_range : go.

(** Solves an in-range side condition of the wrap-around lemmas. *)
Ltac int_range := unfold in_int64, int64_half in *; lia.

(** ** Tactics *)

(** Case analysis on every boolean comparison and match of the goal. *)
Ltac case_all :=
  repeat first [ case_match | case_decide | case_bool_decide ]; simplify_eq/=.

(** Case analysis on the conditions an equation between results branches on. *)
Ltac destruct_result H :=
  repeat (case_match; simplify_eq/=); try discriminate H.

(** ** Booleans *)

Lemma Zltb_spec0 a b : (a <? b) = bool_decide (a < b).
Proof. case_bool_decide; lia. Qed.

(** ** Lists *)

(** [last_or d l] is the Go expression [l[len(l)-1]] with [d] on the empty list. *)
Definition last_or {A} (d : A) (l : list A) : A := default d (last l).

Section list_facts.
Context {A : Type}.
Implicit Types (l : list A).

(** Number of elements satisfying a decidable predicate. *)
Definition count (P : A → Prop) `{∀ x, Decision (P x)} l : nat := length (filter P l).

Lemma count_app (P : A → Prop) `{∀ x, Decision (P x)} l1 l2 :
  count P (l1 ++ l2) = (count P l1 + count P l2)%nat.
Proof. unfold count. by rewrite filter_app, length_app. Qed.

Lemma count_cons (P : A → Prop) `{∀ x, Decision (P x)} x l :
  count P (x :: l) = ((if decide (P x) then 1 else 0) + count P l)%nat.
Proof. unfold count. rewrite filter_cons. by case_decide. Qed.

Lemma count_fmap {B} (f : B → A) (P : A → Prop) `{∀ x, Decision (P x)} (l : list B) :
  count P (f <$> l) = length (filter (λ x, P (f x)) l).
Proof.
  unfold count. induction l as [|x l IH]; [done|]. rewrite fmap_cons, !filter_cons.
  case_decide; simpl; by rewrite IH.
Qed.

#[export] Instance count_perm (P : A → Prop) `{∀ x, Decision (P x)} :
  Proper ((≡ₚ) ==> (=)) (count P).
Proof. intros l l' Hp. unfold count. by rewrite Hp. Qed.

Lemma count_all (P : A → Prop) `{∀ x, Decision (P x)} l :
  Forall P l → count P l = length l.
Proof.
  unfold count. induction 1 as [|x l Hx _ IH]; [done|].
  rewrite filter_cons_True by done. simpl. by rewrite IH.
Qed.

Lemma count_none (P : A → Prop) `{∀ x, Decision (P x)} l :
  Forall (λ x, ¬ P x) l → count P l = 0%nat.
Proof.
  unfold count. induction 1 as [|x l Hx _ IH]; [done|].
  by rewrite filter_cons_False.
Qed.

Lemma count_ext (P Q : A → Prop) `{∀ x, Decision (P x)} `{∀ x, Decision (Q x)} l :
  Forall (λ x, P x ↔ Q x) l → count P l = count Q l.
Proof.
  unfold count. induction 1 as [|x l Hx _ IH]; [done|].
  destruct (decide (P x)).
  - rewrite !filter_cons_True by tauto. simpl. by rewrite IH.
  - by rewrite !filter_cons_False by tauto.
Qed.

Lemma filter_all_true (P : A → Prop) `{∀ x, Decision (P x)} l :
  Forall P l → filter P l = l.
Proof.
  induction 1 as [|x l Hx _ IH]; [done|].
  rewrite filter_cons_True by done. by rewrite IH.
Qed.

Lemma filter_all_false (P : A → Prop) `{∀ x, Decision (P x)} l :
  Forall (λ x, ¬ P x) l → filter P l = [].
Proof.
  induction 1 as [|x l Hx _ IH]; [done|]. by rewrite filter_cons_False.
Qed.

Lemma Forall_filter_keep (P Q : A → Prop) `{∀ x, Decision (P x)} l :
  Forall Q l → Forall Q (filter P l).
Proof. rewrite !Forall_forall. intros HQ x [_ Hx]%list_elem_of_filter. auto. Qed.

Lemma StronglySorted_impl (R1 R2 : A → A → Prop) l :
  (∀ x y, R1 x y → R2 x y) → StronglySorted R1 l → StronglySorted R2 l.
Proof.
  intros HR. induction 1 as [|x l _ IH Hx]; constructor; [done|].
  by eapply Forall_impl; [exact Hx|apply HR].
Qed.

Lemma filter_reverse (P : A → Prop) `{∀ x, Decision (P x)} l :
  filter P (reverse l) = reverse (filter P l).
Proof.
  induction l as [|x l IH]; [done|].
  rewrite reverse_cons, filter_app, IH.
  destruct (decide (P x)).
  - by rewrite !filter_cons_True, reverse_cons by done.
  - by rewrite !filter_cons_False, app_nil_r by done.
Qed.
End list_facts.

(** ** Strings *)

Section string_facts.
Local Open Scope string_scope.

Lemma string_app_cons (c : ascii) (s t : string) : String c s +:+ t = String c (s +:+ t).
Proof. reflexivity. Qed.

Lemma string_app_nil_l (s : string) : "" +:+ s = s.
Proof. reflexivity. Qed.

Lemma string_app_nil_r (s : string) : s +:+ "" = s.
Proof. induction s as [|c s IH]; [done|]. by rewrite string_app_cons, IH. Qed.

Lemma string_app_assoc (s t u : string) : s +:+ (t +:+ u) = (s +:+ t) +:+ u.
Proof. induction s as [|c s IH]; [done|]. by rewrite !string_app_cons, IH. Qed.

Lemma string_app_length (s t : string) :
  String.length (s +:+ t) = (String.length s + String.length t)%nat.
Proof.
  induction s as [|c s IH]; [done|]. rewrite string_app_cons. simpl. by rewrite IH.
Qed.

(** [has_char c s]: the byte [c] occurs in [s]. *)
Fixpoint has_char (c : ascii) (s : string) : bool :=
  match s with
  | "" => false
  | String d s' => bool_decide (c = d) || has_char c s'
  end.

(** A key [s ++ c ++ t] is read back uniquely when [c] does not occur in the
    first component. *)
Lemma string_sep_inj (c : ascii) (s1 s2 t1 t2 : string) :
  has_char c s1 = false → has_char c s2 = false →
  s1 +:+ String c t1 = s2 +:+ String c t2 → s1 = s2 ∧ t1 = t2.
Proof.
  revert s2. induction s1 as [|d s1 IH]; intros [|e s2];
    rewrite ?string_app_cons, ?string_app_nil_l; cbn [has_char];
    rewrite ?orb_false_iff, ?bool_decide_eq_false.
  - intros _ _ [= ->]. done.
  - intros _ [? _] [= ? _]. congruence.
  - intros [? _] _ [= ? _]. congruence.
  - intros [_ H1] [_ H2] [= -> Heq]. by destruct (IH _ H1 H2 Heq) as [-> ->].
Qed.

Lemma has_char_app (c : ascii) (s t : string) :
  has_char c (s +:+ t) = has_char c s || has_char c t.
Proof.
  induction s as [|d s IH]; [done|].
  rewrite string_app_cons. cbn [has_char]. by rewrite IH, orb_assoc.
Qed.

Lemma has_char_sep (c : ascii) (s t : string) : has_char c (s +:+ String c t) = true.
Proof.
  rewrite has_char_app. cbn [has_char]. by rewrite bool_decide_eq_true_2, orb_true_r.
Qed.

(** The same when it does not occur in the last component. *)
Lemma string_sep_inj_r (c : ascii) (s1 t1 s2 t2 : string) :
  has_char c t1 = false → has_char c t2 = false →
  s1 +:+ String c t1 = s2 +:+ String c t2 → s1 = s2 ∧ t1 = t2.
Proof.
  intros H1 H2. revert s2. induction s1 as [|d s1 IH]; intros [|e s2] Heq;
    rewrite ?string_app_cons, ?string_app_nil_l in Heq.
  - by injection Heq.
  - injection Heq as _ Heq. by rewrite Heq, has_char_sep in H1.
  - injection Heq as _ Heq. by rewrite <- Heq, has_char_sep in H2.
  - injection Heq as -> Heq. by destruct (IH _ Heq) as [-> ->].
Qed.

(** Two strings with a common suffix are equal when the wholes are. *)
Lemma string_app_inj_r (s1 s2 t : string) : s1 +:+ t = s2 +:+ t → s1 = s2.
Proof.
  revert s2. induction s1 as [|c s1 IH]; intros [|d s2] H; [done|..].
  - apply (f_equal String.length) in H. rewrite !string_app_length in H. simpl in H. lia.
  - apply (f_equal String.length) in H. rewrite !string_app_length in H. simpl in H. lia.
  - rewrite !string_app_cons in H. injection H as -> H. by rewrite (IH _ H).
Qed.
End string_facts.
