(* ===== verification/GoLang.v ===== *)
(** * The parts of Go the program rests on

    Error values and their chains ([errors.New], [fmt.Errorf] with a wrapping
    verb, [errors.Is]), the outcome of a call (a value, an error, a panic) with
    the state it leaves behind, instants and durations, slices, and the two
    places where the language leaves an order open: [range] over a map and
    [sort.Slice]. *)

From S2P Require Export Prelude.

(** ** Error values *)

(** The fields of [apperror.FieldError] and [apperror.Error]; the second is
    parametric in the type of its [cause] so that error chains can contain it. *)
Record FieldError := { Field : string; Tag : string; FieldMessage : string }.

Record AppErrorOf (E : Type) := {
  Code : string;
  Message : string;
  Fields : list FieldError;
  cause : option E }.
Arguments Code {E} _.
Arguments Message {E} _.
Arguments Fields {E} _.
Arguments cause {E} _.
Arguments Build_AppErrorOf {E} _ _ _ _.
Scheme All for option.
Scheme All for AppErrorOf.

(** A non-nil Go [error].
    - [ErrorsNew id msg]: the value of a package-level [errors.New(msg)]
      variable; [id] is the variable and stands for the pointer's identity;
    - [ErrWrap msg e]: [fmt.Errorf] whose format has one [%w] for [e], with the
      formatted text [msg];
    - [ErrMySQL n msg]: a [*mysql.MySQLError];
    - [ErrApp a]: a [*apperror.Error]. *)
Inductive error :=
  | ErrorsNew (id msg : string)
  | ErrWrap (msg : string) (e : error)
  | ErrMySQL (number : Z) (msg : string)
  | ErrApp (a : AppErrorOf error).

#[export] Instance FieldError_eq_dec : EqDecision FieldError.
Proof. solve_decision. Defined.

Definition error_eq_dec : ∀ x y : error, {x = y} + {x ≠ y}.
Proof.
  fix IH 1. intros [i m|m e|n m|[c m f [k|]]] [i' m'|m' e'|n' m'|[c' m' f' [k'|]]];
    try (right; discriminate).
  - destruct (decide (i = i')), (decide (m = m')); first [left; congruence|right; congruence].
  - destruct (decide (m = m')), (IH e e'); first [left; congruence|right; congruence].
  - destruct (decide (n = n')), (decide (m = m')); first [left; congruence|right; congruence].
  - destruct (decide (c = c')), (decide (m = m')), (decide (f = f')), (IH k k');
      first [left; congruence|right; congruence].
  - destruct (decide (c = c')), (decide (m = m')), (decide (f = f'));
      first [left; congruence|right; congruence].
Defined.

#[export] Instance error_dec : EqDecision error := error_eq_dec.

(** [err.Error()]. *)
Fixpoint error_string (e : error) : string :=
  match e with
  | ErrorsNew _ msg => msg
  | ErrWrap msg _ => msg
  | ErrMySQL _ msg => msg
  | ErrApp (Build_AppErrorOf c m _ None) => c +:+ ": " +:+ m
  | ErrApp (Build_AppErrorOf c m _ (Some k)) =>
      c +:+ ": " +:+ m +:+ " (cause: " +:+ error_string k +:+ ")"
  end.

(** [fmt.Errorf("prefix: %w", e)]. *)
Definition Errorf_w (prefix : string) (e : error) : error :=
  ErrWrap (prefix +:+ ": " +:+ error_string e) e.

(** [errors.Is(err, target)]: some error of the chain is [target]. *)
Fixpoint errors_Is (err target : error) : bool :=
  bool_decide (err = target) ||
  match err with
  | ErrWrap _ e => errors_Is e target
  | ErrApp (Build_AppErrorOf _ _ _ (Some k)) => errors_Is k target
  | _ => false
  end.

(** [errors.As(err, &appErr)] with [appErr] of type [*apperror.Error]. *)
Fixpoint errors_As_App (err : error) : option (AppErrorOf error) :=
  match err with
  | ErrApp a => Some a
  | ErrWrap _ e => errors_As_App e
  | _ => None
  end.

(** [errors.As(err, &mysqlErr)] with [mysqlErr] of type [*mysql.MySQLError]. *)
Fixpoint errors_As_MySQL (err : error) : option Z :=
  match err with
  | ErrMySQL n _ => Some n
  | ErrWrap _ e => errors_As_MySQL e
  | ErrApp (Build_AppErrorOf _ _ _ (Some k)) => errors_As_MySQL k
  | _ => None
  end.

Lemma errors_Is_refl e : errors_Is e e = true.
Proof. destruct e; cbn [errors_Is]; by rewrite bool_decide_eq_true_2. Qed.

Lemma errors_Is_wrap msg e target :
  errors_Is e target = true → errors_Is (ErrWrap msg e) target = true.
Proof. cbn [errors_Is]. intros ->. apply orb_true_r. Qed.

(** Wrapping a sentinel with [fmt.Errorf] is transparent to [errors.Is]. *)
Lemma errors_Is_Errorf_w prefix e id msg :
  errors_Is (Errorf_w prefix e) (ErrorsNew id msg) = errors_Is e (ErrorsNew id msg).
Proof. unfold Errorf_w. cbn [errors_Is]. by rewrite bool_decide_eq_false_2. Qed.

Create Rewrite HintDb go.
#[export] Hint Rewrite errors_Is_refl errors_Is_Errorf_w : go.

(** ** Outcomes and state *)

(** How a call ends. *)
Inductive result (A : Type) :=
  | Ok (a : A)
  | Err (e : error)
  | Panic (why : string).
Arguments Ok {A} _.
Arguments Err {A} _.
Arguments Panic {A} _.

(** A call that returns [(A, error)] and may change the state [S]. What it
    wrote before it failed stays written. *)
Definition M (S A : Type) : Type := S → result A * S.

#[export] Instance M_ret {S} : MRet (M S) := λ A a s, (Ok a, s).
#[export] Instance M_bind {S} : MBind (M S) := λ A B f m s,
  match m s with
  | (Ok a, s') => f a s'
  | (Err e, s') => (Err e, s')
  | (Panic w, s') => (Panic w, s')
  end.

(** [return zero, err]. *)
Definition fail {S A} (e : error) : M S A := λ s, (Err e, s).
(** [panic(w)]. *)
Definition panic {S A} (w : string) : M S A := λ s, (Panic w, s).
(** Lifts a call that does not touch the state. *)
Definition lift {S A} (r : result A) : M S A := λ s, (r, s).

(** [if err != nil { return zero, fmt.Errorf("prefix: %w", err) }]. *)
Definition wrapErr {S A} (prefix : string) (m : M S A) : M S A := λ s,
  match m s with
  | (Err e, s') => (Err (Errorf_w prefix e), s')
  | r => r
  end.

(** Running a call on one component of a pair of states. *)
Definition on_fst {S T A} (m : M S A) : M (S * T) A := λ '(s, t),
  let '(r, s') := m s in (r, (s', t)).
Definition on_snd {S T A} (m : M T A) : M (S * T) A := λ '(s, t),
  let '(r, t') := m t in (r, (s, t')).

Section monad_laws.
Context {S : Type}.

Lemma M_bind_ret_l {A B} (a : A) (f : A → M S B) s : (mret a ≫= f) s = f a s.
Proof. done. Qed.

Lemma M_bind_eq {A B} (m : M S A) (f : A → M S B) s :
  (m ≫= f) s =
  match m s with
  | (Ok a, s') => f a s'
  | (Err e, s') => (Err e, s')
  | (Panic w, s') => (Panic w, s')
  end.
Proof. done. Qed.

Lemma M_bind_Ok {A B} (m : M S A) (f : A → M S B) a s s' :
  m s = (Ok a, s') → (m ≫= f) s = f a s'.
Proof. unfold mbind, M_bind. by intros ->. Qed.

Lemma M_bind_Err {A B} (m : M S A) (f : A → M S B) e s s' :
  m s = (Err e, s') → (m ≫= f) s = (Err e, s').
Proof. unfold mbind, M_bind. by intros ->. Qed.

Lemma M_bind_Ok_inv {A B} (m : M S A) (f : A → M S B) b s s' :
  (m ≫= f) s = (Ok b, s') → ∃ a s1, m s = (Ok a, s1) ∧ f a s1 = (Ok b, s').
Proof. unfold mbind, M_bind. destruct (m s) as [[a|e|w] s1]; naive_solver. Qed.

Lemma wrapErr_Ok_inv {A} prefix (m : M S A) a s s' :
  wrapErr prefix m s = (Ok a, s') → m s = (Ok a, s').
Proof. unfold wrapErr. destruct (m s) as [[?|?|?] ?]; naive_solver. Qed.

Lemma wrapErr_Ok {A} prefix (m : M S A) a s s' :
  m s = (Ok a, s') → wrapErr prefix m s = (Ok a, s').
Proof. unfold wrapErr. by intros ->. Qed.

Lemma wrapErr_Err {A} prefix (m : M S A) e s s' :
  m s = (Err e, s') → wrapErr prefix m s = (Err (Errorf_w prefix e), s').
Proof. unfold wrapErr. by intros ->. Qed.
Lemma wrapErr_lift {A} prefix (r : result A) (s : S) :
  wrapErr prefix (lift r) s =
  (match r with Err e => Err (Errorf_w prefix e) | _ => r end, s).
Proof. unfold wrapErr, lift. by destruct r. Qed.
End monad_laws.

(** *** What a call leaves alone *)

(** [g] of the state is the same after the call, whatever its outcome. *)
Definition fixes {S X A} (g : S → X) (m : M S A) : Prop := ∀ s, g (m s).2 = g s.

Section fixes.
Context {S X : Type} (g : S → X).

Lemma fixes_ret {A} (a : A) : fixes g (mret a).
Proof. done. Qed.

Lemma fixes_fail {A} e : fixes g (fail (A:=A) e).
Proof. done. Qed.

Lemma fixes_lift {A} (r : result A) : fixes g (lift r).
Proof. done. Qed.

Lemma fixes_bind {A B} (m : M S A) (f : A → M S B) : fixes g m → (∀ a, fixes g (f a)) → fixes g (m ≫= f).
Proof.
  intros Hm Hf s. rewrite M_bind_eq. specialize (Hm s).
  destruct (m s) as [[a|e|w] s1]; simpl in *; [|done..]. by rewrite (Hf a s1).
Qed.

Lemma fixes_wrapErr {A} prefix (m : M S A) : fixes g m → fixes g (wrapErr prefix m).
Proof. intros Hm s. specialize (Hm s). unfold wrapErr. by destruct (m s) as [[]]. Qed.

Lemma fixes_on_fst {T A} (m : M S A) : fixes g m → fixes (λ w : S * T, g w.1) (on_fst m).
Proof. intros Hm [s t]. specialize (Hm s). simpl. by destruct (m s). Qed.

Lemma fixes_on_snd {T A} (m : M T A) : fixes (λ w : S * T, g w.1) (on_snd m).
Proof. intros [s t]. simpl. by destruct (m t). Qed.
End fixes.
#[export] Hint Resolve fixes_ret fixes_fail fixes_lift fixes_bind fixes_wrapErr fixes_on_fst fixes_on_snd : go.

(** The outcome of a call is a value. *)
Definition is_Ok {A} (r : result A) : bool :=
  match r with Ok _ => true | _ => false end.

(** The outcome of a call is not a panic. *)
Definition no_panic {A} (r : result A) : Prop :=
  match r with Panic _ => False | _ => True end.

(** ** Instants and durations

    An instant is a number of nanoseconds since a fixed origin, a [Duration] a
    number of nanoseconds. *)
Abbreviation time := Z (only parsing).

Definition Before (t u : time) : bool := t <? u.
Definition After (t u : time) : bool := u <? t.
Definition Equal (t u : time) : bool := t =? u.

Definition Second : Z := 1000000000.
Definition Minute : Z := 60 * Second.

(** ** Slices *)

(** [l[lo:hi]]; out of range panics. (Go bounds [hi] by the capacity, which is
    at least the length: this definition panics at least as often.) *)
Definition slice_range {A} (l : list A) (lo hi : Z) : result (list A) :=
  if (0 <=? lo) && (lo <=? hi) && (hi <=? Z.of_nat (length l))
  then Ok (take (Z.to_nat (hi - lo)) (drop (Z.to_nat lo) l))
  else Panic "slice bounds out of range".

Lemma slice_range_ok {A} (l : list A) lo hi :
  0 <= lo → lo <= hi → hi <= Z.of_nat (length l) →
  slice_range l lo hi = Ok (take (Z.to_nat (hi - lo)) (drop (Z.to_nat lo) l)).
Proof.
  intros. unfold slice_range.
  by rewrite (proj2 (Z.leb_le _ _)), (proj2 (Z.leb_le _ _)), (proj2 (Z.leb_le _ _)) by lia.
Qed.

(** ** Strings *)

(** ASCII lower case. *)
Definition to_lower (c : ascii) : ascii :=
  let n := nat_of_ascii c in
  if (65 <=? n)%nat && (n <=? 90)%nat then ascii_of_nat (n + 32) else c.
Fixpoint string_lower (s : string) : string :=
  match s with
  | "" => ""
  | String c s' => String (to_lower c) (string_lower s')
  end.

(** ** Orders the language leaves open *)

(** [less] is a strict weak order, what [sort.Slice] asks of its argument. *)
Definition strict_weak {A} (less : A → A → bool) : Prop :=
  (∀ x y, less x y = true → less y x = false) ∧
  (∀ x y z, less y x = false → less z y = false → less z x = false).

(** [range] visits the entries of a map in some order; [sort.Slice] returns
    some sorted permutation (it is not stable). *)
Class GoRuntime := {
  map_range : ∀ {V : Type}, gmap string V → list (string * V);
  map_range_perm : ∀ {V} (m : gmap string V), map_range m ≡ₚ map_to_list m;
  sort_slice : ∀ {A : Type}, (A → A → bool) → list A → list A;
  sort_slice_perm : ∀ {A} (less : A → A → bool) l, sort_slice less l ≡ₚ l;
  sort_slice_sorted : ∀ {A} (less : A → A → bool) l,
    strict_weak less → StronglySorted (λ x y, less y x = false) (sort_slice less l) }.

Section reference_sort.
Context {A : Type} (less : A → A → bool).

Definition not_after (x y : A) : Prop := less y x = false.

#[local] Instance not_after_dec x y : Decision (not_after x y) := decide (less y x = false).

Definition ref_sort (l : list A) : list A := merge_sort not_after l.

Lemma ref_sort_perm l : ref_sort l ≡ₚ l.
Proof. apply merge_sort_Permutation. Qed.

Lemma ref_sort_sorted l : strict_weak less → StronglySorted not_after (ref_sort l).
Proof.
  intros [Hasym Htrans].
  assert (Transitive not_after) by (intros x y z; apply Htrans).
  assert (Total not_after).
  { intros x y. unfold not_after. destruct (less y x) eqn:E; [right|by left].
    by apply Hasym. }
  apply StronglySorted_merge_sort; apply _.
Qed.
End reference_sort.

(** One runtime: maps in the order of their representation, merge sort. *)
#[export] Instance reference_runtime : GoRuntime := {|
  map_range V m := map_to_list m;
  map_range_perm V m := reflexivity _;
  sort_slice A less l := ref_sort less l;
  sort_slice_perm A less l := ref_sort_perm less l;
  sort_slice_sorted A less l H := ref_sort_sorted less l H |}.

(** ** Faults

    What a reference server does to a call: nothing unusual, it is refused, it
    takes effect but the reply is lost. *)
Inductive fault := NoFault | Refused | LostReply.
