(* ===== verification/Threads.v ===== *)
(** * Calls as sequences of atomic steps

    The server runs every request in a goroutine of its own. A store is a type with a
    lock that each of its methods holds from beginning to end, so a call is a sequence of
    atomic steps, one for each method it calls, and the steps of different calls
    interleave in any way. A [prog] is such a call: what it does next is computed
    from what its steps returned, the state is only seen inside a step. This file
    has the calls, what a call does when no other runs, pools of calls that take
    turns, and the rule by which an invariant of a pool is proved call by call. *)

From S2P Require Import GoLang.

(** ** Calls *)

Inductive prog (W A : Type) : Type :=
  | Done (a : A)
  | Step {X : Type} (act : W → X * W) (k : X → prog W A).
Arguments Done {W A} _.
Arguments Step {W A X} _ _.

Fixpoint and_then {W A B} (t : prog W A) (f : A → prog W B) : prog W B :=
  match t with
  | Done a => f a
  | Step act k => Step act (λ x, and_then (k x) f)
  end.

(** The call when no other runs: its steps one after the other. *)
Fixpoint run_alone {W A} (t : prog W A) (w : W) : A * W :=
  match t with
  | Done a => (a, w)
  | Step act k => let '(x, w') := act w in run_alone (k x) w'
  end.

Definition finished {W A} (t : prog W A) : bool :=
  match t with Done _ => true | Step _ _ => false end.

(** A call that returns [(A, error)]. *)
Definition P (W A : Type) : Type := prog W (result A).

#[export] Instance P_ret {W} : MRet (P W) := λ A a, Done (Ok a).
#[export] Instance P_bind {W} : MBind (P W) := λ A B f t,
  and_then t (λ r, match r with
                   | Ok a => f a
                   | Err e => Done (Err e)
                   | Panic w => Done (Panic w)
                   end).

Definition p_fail {W A} (e : error) : P W A := Done (Err e).
Definition p_lift {W A} (r : result A) : P W A := Done r.

(** One method of a store. *)
Definition atomic {W A} (m : M W A) : P W A := Step m Done.

Definition p_wrapErr {W A} (prefix : string) (t : P W A) : P W A :=
  and_then t (λ r, Done match r with
                        | Err e => Err (Errorf_w prefix e)
                        | _ => r
                        end).

(** ** Parts of the state *)

Record lens (W S : Type) := { view : W → S; update : S → W → W }.
Arguments view {W S} _ _.
Arguments update {W S} _ _ _.

Class LensLaws {W S} (l : lens W S) : Prop := {
  update_view : ∀ w, update l (view l w) w = w;
  view_update : ∀ s w, view l (update l s w) = s;
  update_update : ∀ s s' w, update l s' (update l s w) = update l s' w }.

Definition fst_lens {S T} : lens (S * T) S := {| view := fst; update s w := (s, w.2) |}.
Definition snd_lens {S T} : lens (S * T) T := {| view := snd; update t w := (w.1, t) |}.

#[export] Instance fst_lens_laws {S T} : LensLaws (@fst_lens S T).
Proof. split; by try intros []. Qed.
#[export] Instance snd_lens_laws {S T} : LensLaws (@snd_lens S T).
Proof. split; by try intros []. Qed.

(** A step on a part of the state, and a call all of whose steps are. *)
Definition part_act {W S X} (l : lens W S) (act : S → X * S) (w : W) : X * W :=
  let '(x, s) := act (view l w) in (x, update l s w).

Fixpoint on_part {W S A} (l : lens W S) (t : prog S A) : prog W A :=
  match t with
  | Done a => Done a
  | Step act k => Step (part_act l act) (λ x, on_part l (k x))
  end.

(** ** What a call does alone *)

Section alone.
Context {W : Type}.

Lemma run_alone_and_then {A B} (t : prog W A) (f : A → prog W B) w :
  run_alone (and_then t f) w = let '(a, w') := run_alone t w in run_alone (f a) w'.
Proof.
  revert w. induction t as [a|X act k IH]; intros w; simpl; [done|].
  destruct (act w) as [x w']. apply IH.
Qed.

Lemma run_alone_on_part {S A} (l : lens W S) `{!LensLaws l} (t : prog S A) w :
  run_alone (on_part l t) w = let '(a, s) := run_alone t (view l w) in (a, update l s w).
Proof.
  revert w. induction t as [a|X act k IH]; intros w; simpl; [by rewrite update_view|].
  unfold part_act. destruct (act (view l w)) as [x s]. rewrite IH, view_update.
  destruct (run_alone (k x) s) as [a s']. by rewrite update_update.
Qed.

(** The call alone is a given function of the state. *)
Definition behaves {A} (t : prog W A) (m : W → A * W) : Prop := ∀ w, run_alone t w = m w.

Lemma behaves_ret {A} (a : A) : behaves (mret (M:=P W) a) (mret (M:=M W) a).
Proof. done. Qed.

Lemma behaves_fail {A} e : behaves (p_fail (A:=A) e) (fail e).
Proof. done. Qed.

Lemma behaves_lift {A} (r : result A) : behaves (p_lift r) (lift r).
Proof. done. Qed.

Lemma behaves_atomic {A} (m : M W A) : behaves (atomic m) m.
Proof. intros w. unfold atomic. simpl. by destruct (m w). Qed.

Lemma behaves_bind {A B} (t : P W A) (m : M W A) (f : A → P W B) (g : A → M W B) :
  behaves t m → (∀ a, behaves (f a) (g a)) → behaves (t ≫= f) (m ≫= g).
Proof.
  intros Ht Hf w. unfold mbind at 1, P_bind. rewrite run_alone_and_then, Ht, M_bind_eq.
  destruct (m w) as [[a|e|x] w']; [apply Hf|done..].
Qed.

Lemma behaves_wrapErr {A} prefix (t : P W A) (m : M W A) :
  behaves t m → behaves (p_wrapErr prefix t) (wrapErr prefix m).
Proof.
  intros Ht w. unfold p_wrapErr. rewrite run_alone_and_then, Ht. unfold wrapErr.
  by destruct (m w) as [[a|e|x] w'].
Qed.

Lemma behaves_if {A} (b : bool) (t t' : prog W A) m m' :
  behaves t m → behaves t' m' → behaves (if b then t else t') (if b then m else m').
Proof. by destruct b. Qed.
End alone.

Lemma behaves_fst {S T A} (t : P S A) (m : M S A) :
  behaves t m → behaves (on_part (fst_lens (T:=T)) t) (on_fst m).
Proof. intros Ht [s u]. rewrite run_alone_on_part by apply _. simpl. rewrite Ht. by destruct (m s). Qed.

Lemma behaves_snd {S T A} (t : P T A) (m : M T A) :
  behaves t m → behaves (on_part (snd_lens (S:=S)) t) (on_snd m).
Proof. intros Ht [s u]. rewrite run_alone_on_part by apply _. simpl. rewrite Ht. by destruct (m u). Qed.

Create HintDb threads.
#[export] Hint Resolve behaves_ret behaves_fail behaves_lift behaves_atomic behaves_bind behaves_wrapErr
  behaves_if behaves_fst behaves_snd : threads.

(** ** Calls that take turns *)

(** The calls that have been started, each with what it was started for. *)
Record pool (Q W A : Type) := { pl_state : W; pl_calls : list (Q * prog W A) }.
Arguments pl_state {Q W A} _.
Arguments pl_calls {Q W A} _.
Arguments Build_pool {Q W A} _ _.

Inductive pool_event (Q : Type) :=
  | Arrives (q : Q)
  | Turn (i : nat).
Arguments Arrives {Q} _.
Arguments Turn {Q} _.

Section pools.
Context {Q W A : Type} (start : Q → prog W A).

(** A call starts, or one takes its next step. *)
Definition pool_fire (e : pool_event Q) (c : pool Q W A) : option (pool Q W A) :=
  match e with
  | Arrives q => Some {| pl_state := pl_state c; pl_calls := pl_calls c ++ [(q, start q)] |}
  | Turn i =>
      match pl_calls c !! i with
      | Some (q, Step act k) =>
          let '(x, w) := act (pl_state c) in
          Some {| pl_state := w; pl_calls := <[i := (q, k x)]> (pl_calls c) |}
      | _ => None
      end
  end.

Fixpoint pool_run (es : list (pool_event Q)) (c : pool Q W A) : option (pool Q W A) :=
  match es with
  | [] => Some c
  | e :: es' => c' ← pool_fire e c; pool_run es' c'
  end.

(** No call is under way. *)
Definition quiet (c : pool Q W A) : bool := forallb (λ qt, finished qt.2) (pl_calls c).

(** *** One call after the other *)

Lemma pool_run_app es es' c :
  pool_run (es ++ es') c = c' ← pool_run es c; pool_run es' c'.
Proof.
  revert c. induction es as [|e es IH]; intros c; [done|]. simpl.
  destruct (pool_fire e c) as [c1|]; [apply IH|done].
Qed.

(** A call that takes all turns runs as it runs alone. *)
Lemma turns_alone (t : prog W A) w i q l :
  l !! i = Some (q, t) →
  ∃ n, pool_run (repeat (Turn i) n) {| pl_state := w; pl_calls := l |} =
    let '(a, w') := run_alone t w in
    Some {| pl_state := w'; pl_calls := <[i := (q, Done a)]> l |}.
Proof.
  revert w l. induction t as [a|X act k IH]; intros w l Hi.
  { exists 0%nat. simpl. by rewrite list_insert_id. }
  assert (i < length l)%nat as Hlt by (by eapply lookup_lt_Some).
  destruct (act w) as [x w1] eqn:Hact.
  destruct (IH x w1 (<[i := (q, k x)]> l)) as [n Hn].
  { by apply list_lookup_insert_eq. }
  exists (Datatypes.S n). simpl. rewrite Hi, Hact. cbn [mbind option_bind]. rewrite Hn.
  destruct (run_alone (k x) w1) as [a w']. by rewrite list_insert_insert_eq.
Qed.

Definition turn_of (e : pool_event Q) : option Q := match e with Arrives q => Some q | Turn _ => None end.

(** A pool has the calls that arrived, in their order. *)
Lemma pool_run_calls es c c' :
  pool_run es c = Some c' → (pl_calls c').*1 = (pl_calls c).*1 ++ omap turn_of es.
Proof.
  revert c. induction es as [|e es IH]; intros c; simpl; [by intros [= ->]; rewrite app_nil_r|].
  destruct (pool_fire e c) as [c1|] eqn:Hfire; [|done]. intros ->%IH. destruct e as [q|i]; cbn in *.
  - injection Hfire as <-. cbn. by rewrite fmap_app, <- app_assoc.
  - destruct (pl_calls c !! i) as [[q [a|X act k]]|] eqn:Hi; try done.
    destruct (act (pl_state c)) as [x w]. injection Hfire as <-. cbn. f_equal.
    rewrite list_fmap_insert. cbn. apply list_insert_id. by rewrite list_lookup_fmap, Hi.
Qed.

(** Calls that each end before the next one starts. *)
Fixpoint run_in_order (qs : list Q) (w : W) : list A * W :=
  match qs with
  | [] => ([], w)
  | q :: qs' =>
      let '(a, w1) := run_alone (start q) w in
      let '(out, w2) := run_in_order qs' w1 in (a :: out, w2)
  end.

Lemma in_order_is_a_schedule qs w l :
  ∃ es, omap turn_of es = qs ∧
    pool_run es {| pl_state := w; pl_calls := l |} =
    let '(out, w') := run_in_order qs w in
    Some {| pl_state := w'; pl_calls := l ++ zip qs (Done <$> out) |}.
Proof.
  revert w l. induction qs as [|q qs IH]; intros w l; cbn [run_in_order].
  { exists []. split; [done|]. simpl. by rewrite app_nil_r. }
  destruct (turns_alone (start q) w (length l) q (l ++ [(q, start q)])) as [n Hn].
  { by rewrite lookup_app_r, Nat.sub_diag by done. }
  destruct (run_alone (start q) w) as [a w1].
  destruct (IH w1 (l ++ [(q, Done a)])) as (es & Hes & Hrun).
  exists (Arrives q :: repeat (Turn (length l)) n ++ es). split.
  - simpl. f_equal. rewrite omap_app, Hes.
    assert (omap turn_of (repeat (Turn (length l)) n) = []) as -> by (clear; induction n as [|n IH]; [done|exact IH]). done.
  - cbn [pool_run pool_fire mbind option_bind pl_state pl_calls].
    rewrite pool_run_app. replace (length l) with (length l + 0)%nat in Hn at 2 by lia.
    rewrite insert_app_r in Hn. simpl in Hn. rewrite Hn. cbn [mbind option_bind]. rewrite Hrun.
    destruct (run_in_order qs w1) as [out w2]. do 2 f_equal. by rewrite <- app_assoc.
Qed.

(** *** Every call ends *)

Definition takes_turn (c' c : pool Q W A) : Prop := ∃ i, pool_fire (Turn i) c = Some c'.

Definition next_of (t' t : prog W A) : Prop :=
  match t with Done _ => False | Step _ k => ∃ x, t' = k x end.

Lemma next_of_wf : well_founded next_of.
Proof. intros t. induction t as [a|X act k IH]; constructor; [done|]. intros t' [x ->]. apply IH. Qed.

(** One element of a list is replaced by what comes next. *)
Definition some_next (ts' ts : list (Q * prog W A)) : Prop :=
  ∃ i q t t', ts !! i = Some (q, t) ∧ next_of t' t ∧ ts' = <[i := (q, t')]> ts.

Lemma some_next_wf : well_founded some_next.
Proof.
  intros ts. induction ts as [|[q t] ts IHts].
  { constructor. intros ts' (i & q & t & t' & Hi & _). by rewrite lookup_nil in Hi. }
  revert ts IHts. induction (next_of_wf t) as [t _ IHt]. intros ts IHts.
  induction IHts as [ts Hts IHts]. constructor. intros ts' (i & q' & u & u' & Hi & Hu & ->).
  destruct i as [|i]; simpl in *.
  - injection Hi as -> ->. apply IHt; [done|by constructor].
  - apply IHts. by exists i, q', u, u'.
Qed.

Lemma takes_turn_wf : well_founded takes_turn.
Proof.
  intros [w ts]. revert w. induction (some_next_wf ts) as [ts _ IH]. intros w. constructor.
  intros c' [i Hfire]. simpl in Hfire. destruct (ts !! i) as [[q [a|X act k]]|] eqn:Hi; [done| |done].
  destruct (act w) as [x w']. injection Hfire as <-. apply IH.
  exists i, q, (Step act k), (k x). split; [done|]. split; [by exists x|done].
Qed.

Lemma turn_free c i q t :
  pl_calls c !! i = Some (q, t) → is_Some (pool_fire (Turn i) c) ↔ finished t = false.
Proof.
  intros Hi. simpl. rewrite Hi. destruct t as [a|X act k]; simpl; [by split; [intros []|]|].
  split; [done|]. intros _. destruct (act (pl_state c)). by eexists.
Qed.
End pools.

(** ** Invariants of pools *)

Section rule.
Context {W D : Type}.

(** An invariant relates the state to what the calls under way still owe;
    [grows] is how the state may change between two steps of a call. *)
Class Shared (Inv : W → list D → Prop) (grows : W → W → Prop) : Prop := {
  grows_preorder :: PreOrder grows;
  Inv_perm : ∀ w d d', d ≡ₚ d' → Inv w d → Inv w d' }.

Context (Inv : W → list D → Prop) (grows : W → W → Prop).

(** The call keeps the invariant at every step, whatever other calls have done to the
    state in between and owe themselves; [d] is what it owes, always something that
    it may; at the end [post] holds. *)
Fixpoint keeps {A} (own : list D → Prop) (t : prog W A) (d : list D) (w : W)
    (post : A → list D → W → Prop) : Prop :=
  match t with
  | Done a => post a d w
  | Step act k => ∀ w1 rest, grows w w1 → Inv w1 (d ++ rest) →
      let '(x, w2) := act w1 in
      ∃ d', own d' ∧ grows w1 w2 ∧ Inv w2 (d' ++ rest) ∧ keeps own (k x) d' w2 post
  end.

(** A condition that no other call can falsify. *)
Definition stable {A} (post : A → list D → W → Prop) : Prop :=
  ∀ a d w w', grows w w' → post a d w → post a d w'.

Context `{!Shared Inv grows}.

Lemma keeps_grows {A} own (t : prog W A) d w w' post :
  stable post → grows w w' → keeps own t d w post → keeps own t d w' post.
Proof.
  intros Hpost Hg. destruct t as [a|X act k]; simpl; [by apply Hpost|].
  intros Hk w1 rest Hg1 Hinv. apply Hk; [by etrans|done].
Qed.

Lemma keeps_impl {A} own (t : prog W A) d w (post post' : A → list D → W → Prop) :
  (∀ a d w, post a d w → post' a d w) → keeps own t d w post → keeps own t d w post'.
Proof.
  intros Hpost. revert d w. induction t as [a|X act k IH]; intros d w; simpl; [by apply Hpost|].
  intros Hk w1 rest Hg Hinv. specialize (Hk w1 rest Hg Hinv). destruct (act w1) as [x w2].
  destruct Hk as (d' & ? & ? & ? & Hk). exists d'. split_and!; try done. by apply IH.
Qed.

Lemma keeps_and_then {A B} own (t : prog W A) (f : A → prog W B) d w post post' :
  keeps own t d w post → (∀ a d w, post a d w → keeps own (f a) d w post') →
  keeps own (and_then t f) d w post'.
Proof.
  intros Ht Hf. revert d w Ht. induction t as [a|X act k IH]; intros d w Ht; simpl in *; [by apply Hf|].
  intros w1 rest Hg Hinv. specialize (Ht w1 rest Hg Hinv). destruct (act w1) as [x w2].
  destruct Ht as (d' & ? & ? & ? & Ht). exists d'. split_and!; try done. by apply IH.
Qed.

(** A step that leaves what is owed as it is. *)
Lemma keeps_step {A X} own (act : W → X * W) (k : X → prog W A) d w post :
  own d →
  (∀ w1 rest, grows w w1 → Inv w1 (d ++ rest) →
     grows w1 (act w1).2 ∧ Inv (act w1).2 (d ++ rest) ∧ keeps own (k (act w1).1) d (act w1).2 post) →
  keeps own (Step act k) d w post.
Proof.
  intros Hd Hact w1 rest Hg Hinv. destruct (Hact w1 rest Hg Hinv) as (? & ? & ?).
  destruct (act w1) as [x w2]. by exists d.
Qed.

(** A step that reads. *)
Lemma keeps_read {A X} own (f : W → X) (k : X → prog W A) d w post :
  own d → (∀ w1 rest, grows w w1 → Inv w1 (d ++ rest) → keeps own (k (f w1)) d w1 post) →
  keeps own (Step (λ w, (f w, w)) k) d w post.
Proof. intros Hd Hk. apply keeps_step; [done|]. intros w1 rest Hg Hinv. split; [done|]. split; [done|by eapply Hk]. Qed.

(** *** Pools *)

Section pools.
Context {Q A : Type} (start : Q → prog W A) (own : Q → list D → Prop) (final : Q → A → list D → Prop).

(** At its end the call has returned [a] and is left with [d]. *)
Definition ends (q : Q) (a : A) (d : list D) (w : W) : Prop := final q a d.

(** The calls between two steps, each with what it owes. *)
Definition pool_inv (c : pool Q W A) (owed : list (list D)) : Prop :=
  Inv (pl_state c) (concat owed) ∧
  Forall2 (λ qt d, own qt.1 d ∧ keeps (own qt.1) qt.2 d (pl_state c) (ends qt.1)) (pl_calls c) owed.

Lemma concat_at (owed : list (list D)) i d d' :
  owed !! i = Some d →
  ∃ rest, concat owed ≡ₚ d ++ rest ∧ concat (<[i := d']> owed) ≡ₚ d' ++ rest.
Proof.
  intros Hi. exists (concat (take i owed) ++ concat (drop (S i) owed)). split.
  - rewrite <- (take_drop_middle owed i d Hi) at 1. rewrite concat_app. simpl. solve_Permutation.
  - rewrite insert_take_drop by (by eapply lookup_lt_Some). rewrite concat_app. simpl. solve_Permutation.
Qed.

Lemma pool_inv_turn c owed i c' :
  pool_fire start (Turn i) c = Some c' → pool_inv c owed → ∃ owed', pool_inv c' owed'.
Proof.
  intros Hfire [Hinv Hcalls]. simpl in Hfire.
  destruct (pl_calls c !! i) as [[q [a|X act k]]|] eqn:Hi; [done| |done].
  destruct (Forall2_lookup_l _ _ _ _ _ Hcalls Hi) as (d & Hd & Hown & Hk). cbn [fst snd] in Hown, Hk.
  assert (∀ d', ∃ rest, concat owed ≡ₚ d ++ rest ∧ concat (<[i := d']> owed) ≡ₚ d' ++ rest) as Hat.
  { intros d'. by apply concat_at. }
  destruct (Hat d) as (rest & Hrest & _).
  specialize (Hk (pl_state c) rest (reflexivity _) (Inv_perm _ _ _ Hrest Hinv)).
  destruct (act (pl_state c)) as [x w2]. injection Hfire as <-.
  destruct Hk as (d' & Hown' & Hg & Hinv' & Hk). exists (<[i := d']> owed). split; cbn [pl_state pl_calls].
  - destruct (Hat d') as (rest' & Hrest' & Hd'). apply (Inv_perm _ (d' ++ rest)); [|done].
    rewrite Hd'. apply Permutation_app_head, (Permutation_app_inv_l d). by rewrite <- Hrest, <- Hrest'.
  - apply Forall2_insert; [|done]. eapply Forall2_impl; [exact Hcalls|]. intros [q' t'] d'' [Hown'' Hk''].
    split; [done|]. eapply keeps_grows; [by intros ????|exact Hg|exact Hk''].
Qed.

(** What every call keeps on its own holds in every interleaving. *)
Lemma pool_inv_run (good : Q → Prop) es c c' owed :
  (∀ q w, good q → own q [] ∧ keeps (own q) (start q) [] w (ends q)) →
  Forall (λ e, match e with Arrives q => good q | Turn _ => True end) es →
  pool_run start es c = Some c' → pool_inv c owed → ∃ owed', pool_inv c' owed'.
Proof.
  intros Hstart Hes. revert c owed. induction Hes as [|e es He _ IH]; intros c owed Hrun Hinv; simpl in Hrun.
  { injection Hrun as <-. by eexists. }
  destruct (pool_fire start e c) as [c1|] eqn:Hfire; [|done]. destruct e as [q|i].
  - injection Hfire as <-. apply (IH _ (owed ++ [[]]) Hrun). destruct Hinv as [Hinv Hcalls]. split.
    + simpl. by rewrite concat_app, app_nil_r.
    + apply Forall2_app; [done|]. constructor; [by apply Hstart|constructor].
  - destruct (pool_inv_turn _ _ _ _ Hfire Hinv) as [owed1 Hinv1]. by eapply IH.
Qed.

(** What calls have, under way or finished. *)
Definition accounts (qt : Q * prog W A) (d : list D) : Prop :=
  own qt.1 d ∧ ∀ a, qt.2 = Done a → final qt.1 a d.

Lemma pool_inv_accounts c owed : pool_inv c owed → Forall2 accounts (pl_calls c) owed.
Proof.
  intros [_ Hcalls]. eapply Forall2_impl; [exact Hcalls|]. intros [q t] d [Hown Hk]. split; [done|].
  intros a E. cbn in E, Hk. subst t. exact Hk.
Qed.

Lemma accounts_quiet (settled : list D → Prop) c owed :
  (∀ q a d, final q a d → settled d) → Forall2 accounts (pl_calls c) owed → quiet c = true →
  Forall settled owed.
Proof.
  intros Hsettled Hacc. unfold quiet. induction Hacc as [|[q t] d ts owed [_ Hfin] _ IH]; [constructor|].
  simpl. rewrite andb_true_iff. intros [Ht Hq]. constructor; [|by apply IH].
  destruct t as [a|]; [|done]. exact (Hsettled _ _ _ (Hfin a eq_refl)).
Qed.
End pools.
End rule.

(** *** Calls on a part of the state *)

(** The invariant of the whole asks of a part what [InvS] says, and a call that may
    owe [own] and keeps that keeps the whole. *)
Class PartOf {W S D} (l : lens W S) (Inv : W → list D → Prop) (grows : W → W → Prop)
    (InvS : S → list D → Prop) (growsS : S → S → Prop) (own : list D → Prop) : Prop := {
  part_laws :: LensLaws l;
  part_grows : ∀ w w', grows w w' → growsS (view l w) (view l w');
  part_inv : ∀ w d, Inv w d → InvS (view l w) d;
  part_update : ∀ w s d d' rest, own d → own d' → Inv w (d ++ rest) → growsS (view l w) s →
    InvS s (d' ++ rest) → Inv (update l s w) (d' ++ rest) ∧ grows w (update l s w) }.

Lemma keeps_on_part {W S D A} (l : lens W S) (Inv : W → list D → Prop) grows InvS growsS own
    `{!PartOf l Inv grows InvS growsS own} (t : prog S A) d w
    (post : A → list D → S → Prop) (post' : A → list D → W → Prop) :
  own d → (∀ a d w, own d → post a d (view l w) → post' a d w) →
  keeps InvS growsS own t d (view l w) post → keeps Inv grows own (on_part l t) d w post'.
Proof.
  intros Hd Hpost. revert d w Hd. induction t as [a|X act k IH]; intros d w Hd Hk; simpl in *; [by apply Hpost|].
  intros w1 rest Hg Hinv. specialize (Hk (view l w1) rest (part_grows _ _ Hg) (part_inv _ _ Hinv)).
  unfold part_act. destruct (act (view l w1)) as [x s2]. destruct Hk as (d' & Hd' & Hg' & Hinv' & Hk).
  destruct (part_update w1 s2 d d' rest Hd Hd' Hinv Hg' Hinv') as [Hi Hgr].
  exists d'. split_and!; try done. apply IH; [done|]. by rewrite view_update.
Qed.

(** What may be owed may be more. *)
Lemma keeps_own {W D A} (Inv : W → list D → Prop) grows (own own' : list D → Prop) (t : prog W A) d w post :
  (∀ d, own d → own' d) → keeps Inv grows own t d w post → keeps Inv grows own' t d w post.
Proof.
  intros Hown. revert d w. induction t as [a|X act k IH]; intros d w; simpl; [done|].
  intros Hk w1 rest Hg Hinv. specialize (Hk w1 rest Hg Hinv). destruct (act w1) as [x w2].
  destruct Hk as (d' & ? & ? & ? & Hk). exists d'. split_and!; auto.
Qed.

(** What is owed at the end is something that may be owed. *)
Lemma keeps_owned {W D A} (Inv : W → list D → Prop) grows (own : list D → Prop) (t : prog W A) d w post :
  own d → keeps Inv grows own t d w post → keeps Inv grows own t d w (λ a d w, post a d w ∧ own d).
Proof.
  revert d w. induction t as [a|X act k IH]; intros d w Hd; simpl; [done|].
  intros Hk w1 rest Hg Hinv. specialize (Hk w1 rest Hg Hinv). destruct (act w1) as [x w2].
  destruct Hk as (d' & ? & ? & ? & Hk). exists d'. split_and!; auto.
Qed.

(** *** Calls that only read *)

Fixpoint reads_only {W A} (t : prog W A) : Prop :=
  match t with
  | Done _ => True
  | Step act k => (∀ w, (act w).2 = w) ∧ ∀ x, reads_only (k x)
  end.

Section reads_only.
Context {W : Type}.

Lemma reads_only_done {A} (a : A) : reads_only (Done (W:=W) a).
Proof. done. Qed.

Lemma reads_only_ret {A} (a : A) : reads_only (mret (M:=P W) a).
Proof. done. Qed.

Lemma reads_only_atomic {A} (m : M W A) : (∀ w, (m w).2 = w) → reads_only (atomic m).
Proof. by split. Qed.

Lemma reads_only_and_then {A B} (t : prog W A) (f : A → prog W B) :
  reads_only t → (∀ a, reads_only (f a)) → reads_only (and_then t f).
Proof.
  intros Ht Hf. induction t as [a|X act k IH]; simpl in *; [apply Hf|]. destruct Ht as [Hact Hk].
  split; [done|]. intros x. by apply IH.
Qed.

Lemma reads_only_bind {A B} (t : P W A) (f : A → P W B) :
  reads_only t → (∀ a, reads_only (f a)) → reads_only (t ≫= f).
Proof. intros Ht Hf. apply reads_only_and_then; [done|]. by intros []. Qed.

Lemma reads_only_wrapErr {A} prefix (t : P W A) : reads_only t → reads_only (p_wrapErr prefix t).
Proof. intros Ht. by apply reads_only_and_then. Qed.

Lemma reads_only_on_part {S A} (l : lens W S) `{!LensLaws l} (t : prog S A) :
  reads_only t → reads_only (on_part l t).
Proof.
  induction t as [a|X act k IH]; simpl; [done|]. intros [Hact Hk]. split; [|intros x; by apply IH].
  intros w. unfold part_act. specialize (Hact (view l w)). destruct (act (view l w)) as [x s].
  simpl in *. subst s. apply update_view.
Qed.

Lemma reads_only_if {A} (b : bool) (t t' : prog W A) :
  reads_only t → reads_only t' → reads_only (if b then t else t').
Proof. by destruct b. Qed.

Lemma keeps_reads {D A} (Inv : W → list D → Prop) grows `{!Shared Inv grows} own (t : prog W A) d w post :
  own d → (∀ a w, post a d w) → reads_only t → keeps Inv grows own t d w post.
Proof.
  intros Hd Hpost. revert w. induction t as [a|X act k IH]; intros w; simpl; [done|].
  intros [Hact Hk] w1 rest Hg Hinv. specialize (Hact w1). destruct (act w1) as [x w2]. simpl in Hact. subst w2.
  exists d. split_and!; [done|done|done|]. by apply IH.
Qed.
End reads_only.
#[export] Hint Resolve reads_only_done reads_only_ret reads_only_atomic reads_only_and_then reads_only_bind
  reads_only_wrapErr reads_only_on_part reads_only_if fst_lens_laws snd_lens_laws : threads.

(** *** State that the invariant does not speak of *)

Section beside.
Context {X W D : Type} (Inv : W → list D → Prop) (grows : W → W → Prop) `{!Shared Inv grows}.

Definition beside (w : X * W) (d : list D) : Prop := Inv w.2 d.
Definition beside_grows (w w' : X * W) : Prop := grows w.2 w'.2.

#[export] Instance beside_shared : Shared beside beside_grows.
Proof.
  split.
  - split; [by intros ?; unfold beside_grows|]. intros w1 w2 w3. unfold beside_grows. by etrans.
  - intros w d d' Hd Hw. exact (Inv_perm (grows:=grows) _ _ _ Hd Hw).
Qed.

#[export] Instance beside_part own : PartOf snd_lens beside beside_grows Inv grows own.
Proof. split; try done. apply _. Qed.

Lemma keeps_beside {A Y} own (act : X → Y * X) (k : Y → prog (X * W) A) d w post :
  own d → (∀ y w, keeps beside beside_grows own (k y) d w post) →
  keeps beside beside_grows own (Step (part_act fst_lens act) k) d w post.
Proof.
  intros Hd Hk w1 rest Hg Hinv. unfold part_act. destruct (act (view fst_lens w1)) as [y x].
  exists d. split_and!; [done| |done|apply Hk]. unfold beside_grows. simpl. reflexivity.
Qed.

Lemma keeps_beside_first {A Y} own (t : prog X Y) (k : Y → prog (X * W) A) d w post :
  own d → (∀ y w, keeps beside beside_grows own (k y) d w post) →
  keeps beside beside_grows own (and_then (on_part fst_lens t) k) d w post.
Proof.
  intros Hd Hk. revert w. induction t as [y|Z act k' IH]; intros w; [apply Hk|].
  apply keeps_beside; [done|]. intros z w'. apply IH.
Qed.
End beside.
