(* ===== verification/Float.v ===== *)
(** * Floating-point numbers

    [float64]: IEEE 754 binary64, one rounding per operation (the language
    would allow a fused multiply-add; amd64 compilers use none), with the
    conversions from and to integers. *)

From Stdlib Require Export Floats.SpecFloat.
From S2P Require Import GoLang.

Abbreviation float64 := spec_float (only parsing).

#[export] Instance float_eq_dec : EqDecision spec_float.
Proof. solve_decision. Defined.

Definition f_sub (a b : float64) : float64 := SFsub 53 1024 a b.
Definition f_add (a b : float64) : float64 := SFadd 53 1024 a b.
Definition f_mul (a b : float64) : float64 := SFmul 53 1024 a b.
Definition f_div (a b : float64) : float64 := SFdiv 53 1024 a b.
Definition f_le (a b : float64) : bool := SFleb a b.
Definition f_lt (a b : float64) : bool := SFltb a b.

Definition f_zero : float64 := S754_zero false.

(** [float64(z)]: rounded to nearest, ties to even. *)
Definition f_of_Z (z : Z) : float64 := binary_normalize 53 1024 z 0 false.

(** [d.Seconds()]. *)
Definition Duration_Seconds (d : Z) : float64 :=
  f_add (f_of_Z (Z.quot d Second)) (f_div (f_of_Z (Z.rem d Second)) (f_of_Z 1000000000)).

(** The integer part, zero for what has none. *)
Definition f_trunc (f : float64) : Z :=
  match f with
  | S754_finite s m e =>
      let a := if 0 <=? e then Z.shiftl (Zpos m) e else Z.shiftr (Zpos m) (- e) in
      if s then - a else a
  | _ => 0
  end.

(** The float nearest to [(-1)^neg * num / den]: the quotient is computed to 64
    bits or more beyond the precision with a sticky bit below, then rounded. *)
Definition f_of_ratio (neg : bool) (num den : Z) : float64 :=
  let k := Z.max 0 (Z.log2 den - Z.log2 num + 128) in
  let n := Z.shiftl num k in
  let m := 2 * (n / den) + (if n `mod` den =? 0 then 0 else 1) in
  binary_normalize 53 1024 (if neg then - m else m) (- k - 1) neg.

Example f_of_ratio_tenth :
  f_of_ratio false 1 10 = f_div (f_of_Z 1) (f_of_Z 10) ∧
  f_of_ratio true 7 2 = f_sub f_zero (f_div (f_of_Z 7) (f_of_Z 2)) ∧
  f_of_ratio false (10 ^ 309) 1 = S754_infinity false ∧
  f_of_ratio true 1 (10 ^ 400) = S754_zero true ∧
  f_trunc (f_of_ratio true 7 2) = -3.
Proof. by vm_compute. Qed.

(** ** Integers below [2^53] are exact

    Conversion, addition and comparison of integers of less than 54 bits lose
    nothing. *)

Definition f_exact (z : Z) : Prop := Z.abs z < 2 ^ 53.

#[export] Instance f_exact_dec z : Decision (f_exact z) := decide (Z.abs z < 2 ^ 53).

Section exact.
Implicit Types (p m : positive) (s : bool).

(** The number of bits. *)
Definition bits (p : positive) : Z := Zpos (digits2_pos p).

Lemma bits_log2 p : bits p = Z.log2 (Zpos p) + 1.
Proof.
  unfold bits. induction p as [p IH|p IH|]; [..|done]; cbn [digits2_pos]; rewrite Pos2Z.inj_succ, IH.
  - rewrite Pos2Z.inj_xI, Z.log2_succ_double by lia. lia.
  - rewrite Pos2Z.inj_xO, Z.log2_double by lia. lia.
Qed.

Lemma bits_pos p : 1 <= bits p.
Proof. rewrite bits_log2. pose proof (Z.log2_nonneg (Zpos p)). lia. Qed.

Lemma bits_mul_pow2 p m n : 0 <= n → Zpos m = Zpos p * 2 ^ n → bits m = bits p + n.
Proof. intros Hn Hm. rewrite !bits_log2, Hm, Z.log2_mul_pow2 by lia. lia. Qed.

Lemma bits_exact p : Zpos p < 2 ^ 53 ↔ bits p <= 53.
Proof. rewrite bits_log2, (Z.log2_lt_pow2 _ 53) by lia. lia. Qed.

Lemma iter_xO p d : Zpos (Pos.iter xO p d) = Zpos p * 2 ^ Zpos d.
Proof.
  induction d as [|d IH] using Pos.peano_ind; [rewrite Z.pow_1_r; simpl; lia|].
  rewrite Pos.iter_succ, Pos2Z.inj_xO, IH, Pos2Z.inj_succ, Z.pow_succ_r by lia. lia.
Qed.

Lemma shl_align_exact m e e' :
  e' <= e → shl_align m e e' = (fst (shl_align m e e'), e') ∧
  Zpos (fst (shl_align m e e')) = Zpos m * 2 ^ (e - e').
Proof.
  intros He. unfold shl_align. destruct (e' - e) as [|d|d] eqn:Hd; simpl; [|lia|].
  - replace (e - e') with 0 by lia. rewrite Z.pow_0_r. split; [f_equal|]; lia.
  - rewrite iter_xO. split; [done|]. do 2 f_equal. lia.
Qed.

Lemma shl_align_id m e e' : e <= e' → shl_align m e e' = (m, e).
Proof. intros He. unfold shl_align. destruct (e' - e) as [|d|d] eqn:Hd; done || lia. Qed.

(** Shifting out zeros is exact. *)
Lemma iter_shr_1 n m :
  SpecFloat.iter_pos shr_1 n (Build_shr_record (Zpos m * 2 ^ Zpos n) false false) =
  Build_shr_record (Zpos m) false false.
Proof.
  assert (∀ m', shr_1 (Build_shr_record (Zpos m' * 2) false false) = Build_shr_record (Zpos m') false false) as H1.
  { intros m'. by rewrite Z.mul_comm. }
  revert m. induction n as [n IH|n IH|]; intros m; cbn [SpecFloat.iter_pos].
  - assert (∃ m', Zpos m' = Zpos m * 2 ^ Zpos n ∧
      Zpos m * 2 ^ Zpos n~1 = Zpos m' * 2 ^ Zpos n * 2) as (m' & E1 & E2).
    { exists (Z.to_pos (Zpos m * 2 ^ Zpos n)). rewrite Z2Pos.id by lia. split; [done|].
      rewrite (Pos2Z.inj_xI n), Z.pow_add_r, (Z.mul_comm 2 (Zpos n)), Z.pow_mul_r by lia. lia. }
    assert (∃ m'', Zpos m'' = Zpos m' * 2 ^ Zpos n) as [m'' E3].
    { exists (Z.to_pos (Zpos m' * 2 ^ Zpos n)). rewrite Z2Pos.id by lia. done. }
    rewrite E2, <- E3, H1, E3, IH, E1. apply IH.
  - assert (∃ m', Zpos m' = Zpos m * 2 ^ Zpos n ∧ Zpos m * 2 ^ Zpos n~0 = Zpos m' * 2 ^ Zpos n)
      as (m' & E1 & E2).
    { exists (Z.to_pos (Zpos m * 2 ^ Zpos n)). rewrite Z2Pos.id by lia. split; [done|].
      rewrite (Pos2Z.inj_xO n), (Z.mul_comm 2 (Zpos n)), Z.pow_mul_r by lia. lia. }
    rewrite E2, IH, E1. apply IH.
  - apply H1.
Qed.

Lemma shr_fexp_exact m e k :
  bits m + e = k → 1 <= k <= 53 → e <= k - 53 → (∃ p, Zpos m = Zpos p * 2 ^ (k - 53 - e)) →
  ∃ p, Zpos m = Zpos p * 2 ^ (k - 53 - e) ∧
  shr_fexp 53 1024 (Zpos m) e loc_Exact = (Build_shr_record (Zpos p) false false, k - 53).
Proof.
  intros Hm Hk He [p Hp]. exists p. split; [done|]. unfold shr_fexp. cbn [Zdigits2].
  fold (bits m). rewrite Hm. unfold fexp, emin. rewrite Z.max_l by lia.
  destruct (k - 53 - e) as [|n|n] eqn:Hn; [| |lia]; unfold shr; cbn [shr_record_of_loc].
  - rewrite Hp, Z.pow_0_r, Z.mul_1_r. f_equal. lia.
  - rewrite Hp, iter_shr_1. f_equal. lia.
Qed.

(** Rounding an exact value gives its canonical form. *)
Lemma binary_round_exact s p m e :
  Zpos p < 2 ^ 53 → e <= 0 → Zpos m = Zpos p * 2 ^ (- e) →
  ∃ c, Zpos c = Zpos p * 2 ^ (53 - bits p) ∧
    binary_round 53 1024 s m e = S754_finite s c (bits p - 53).
Proof.
  intros Hp He Hm. apply bits_exact in Hp. pose proof (bits_pos p) as Hp1. set (k := bits p) in *.
  assert (bits m = k - e) as Hbm by (rewrite (bits_mul_pow2 p m (- e)) by done || lia; lia).
  assert (∃ mz ez, shl_align m e (fexp 53 1024 (bits m + e)) = (mz, ez) ∧
    Zpos mz = Zpos p * 2 ^ (- ez) ∧ ez <= k - 53) as (mz & ez & Halign & Hmz & Hez).
  { replace (bits m + e) with k by lia. unfold fexp, emin. rewrite Z.max_l by lia.
    destruct (Z.le_gt_cases (k - 53) e).
    - destruct (shl_align_exact m e (k - 53)) as [Heq Hv]; [done|]. do 2 eexists. split; [exact Heq|].
      rewrite Hv, Hm, <- Z.mul_assoc, <- Z.pow_add_r by lia. split; [do 2 f_equal|]; lia.
    - rewrite shl_align_id by lia. exists m, e. split_and!; [done|done|lia]. }
  assert (bits mz = k - ez) as Hbz by (rewrite (bits_mul_pow2 p mz (- ez)) by done || lia; lia).
  destruct (shr_fexp_exact mz ez k) as (c & Hc & Hshr); [lia|lia|lia| |].
  { exists (Z.to_pos (Zpos p * 2 ^ (53 - k))). rewrite Z2Pos.id by lia.
    rewrite Hmz, <- Z.mul_assoc, <- Z.pow_add_r by lia. do 2 f_equal. lia. }
  assert (Zpos c = Zpos p * 2 ^ (53 - k)) as Hcp.
  { apply (Z.mul_reg_r _ _ (2 ^ (k - 53 - ez))); [lia|].
    rewrite <- Hc, Hmz, <- Z.mul_assoc, <- Z.pow_add_r by lia. do 2 f_equal. lia. }
  exists c. split; [done|]. unfold binary_round. fold (bits m). rewrite Halign.
  unfold binary_round_aux. rewrite Hshr. cbn [shr_m loc_of_shr_record round_nearest_even].
  assert (bits c = 53) as Hbc by (rewrite (bits_mul_pow2 p c (53 - k)) by done || lia; lia).
  destruct (shr_fexp_exact c (k - 53) k) as (c' & Hc' & ->); [lia|lia|lia|exists c; rewrite Z.sub_diag; lia|].
  rewrite Z.sub_diag, Z.pow_0_r, Z.mul_1_r in Hc'. injection Hc' as <-. cbn [shr_m].
  by rewrite (proj2 (Z.leb_le _ _)) by lia.
Qed.

Lemma normalize_exact z e :
  f_exact z → e <= 0 → binary_normalize 53 1024 (z * 2 ^ (- e)) e false = f_of_Z z.
Proof.
  unfold f_exact, f_of_Z. intros Hz He.
  assert (∀ s p, Zpos p < 2 ^ 53 →
    binary_round 53 1024 s (Z.to_pos (Zpos p * 2 ^ (- e))) e = binary_round 53 1024 s p 0) as Hround.
  { intros s p Hp.
    destruct (binary_round_exact s p (Z.to_pos (Zpos p * 2 ^ (- e))) e) as (c & Hc & ->);
      [done|done|by rewrite Z2Pos.id by lia|].
    destruct (binary_round_exact s p p 0) as (c' & Hc' & ->); [done|done|by rewrite Z.mul_1_r|].
    rewrite <- Hc in Hc'. by injection Hc' as ->. }
  assert (∀ p, Zpos p * 2 ^ (- e) = Zpos (Z.to_pos (Zpos p * 2 ^ (- e)))) as Hpos
    by (intros p; rewrite Z2Pos.id; lia).
  destruct z as [|p|p]; [done|..].
  - rewrite Hpos. apply Hround. lia.
  - replace (Zneg p * 2 ^ (- e)) with (- (Zpos p * 2 ^ (- e))) by lia. rewrite Hpos.
    apply Hround. lia.
Qed.

(** The canonical form of an exact integer. *)
Lemma f_of_Z_shape p :
  Zpos p < 2 ^ 53 →
  ∃ c, Zpos c = Zpos p * 2 ^ (53 - bits p) ∧
    f_of_Z (Zpos p) = S754_finite false c (bits p - 53) ∧
    f_of_Z (Zneg p) = S754_finite true c (bits p - 53).
Proof.
  intros Hp. destruct (binary_round_exact false p p 0) as (c & Hc & E); [done|done|by rewrite Z.mul_1_r|].
  destruct (binary_round_exact true p p 0) as (c' & Hc' & E'); [done|done|by rewrite Z.mul_1_r|].
  exists c. split_and!; [done|exact E|]. rewrite <- Hc in Hc'. injection Hc' as ->. exact E'.
Qed.

Lemma f_trunc_of_Z z : f_exact z → f_trunc (f_of_Z z) = z.
Proof.
  unfold f_exact. intros Hz.
  assert (∀ p, Zpos p < 2 ^ 53 → f_trunc (f_of_Z (Zpos p)) = Zpos p ∧ f_trunc (f_of_Z (Zneg p)) = Zneg p) as Hp.
  { intros p Hp. destruct (f_of_Z_shape p Hp) as (c & Hc & -> & ->). apply bits_exact in Hp.
    assert ((if 0 <=? bits p - 53 then Z.shiftl (Zpos c) (bits p - 53)
             else Z.shiftr (Zpos c) (- (bits p - 53))) = Zpos p) as E.
    { rewrite Hc. destruct (Z.leb_spec 0 (bits p - 53)).
      - replace (bits p) with 53 by lia. by rewrite Z.sub_diag, Z.pow_0_r, Z.mul_1_r.
      - rewrite Z.shiftr_div_pow2 by lia. replace (- (bits p - 53)) with (53 - bits p) by lia.
        rewrite Z.div_mul; lia. }
    unfold f_trunc. rewrite E. by split. }
  destruct z as [|p|p]; [done|apply Hp; lia|apply Hp; lia].
Qed.

Lemma f_add_of_Z a b :
  f_exact a → f_exact b → f_exact (a + b) → f_add (f_of_Z a) (f_of_Z b) = f_of_Z (a + b).
Proof.
  unfold f_exact. intros Ha Hb Hab.
  assert (∀ z, z ≠ 0 → Z.abs z < 2 ^ 53 → ∃ s c e, f_of_Z z = S754_finite s c e ∧ e <= 0 ∧
    ∀ ez, ez <= e → cond_Zopp s (Zpos (fst (shl_align c e ez))) = z * 2 ^ (- ez)) as Hshape.
  { intros z Hz Hex. assert (∃ p, Z.abs z = Zpos p) as [p Hp] by (exists (Z.to_pos (Z.abs z)); lia).
    destruct (f_of_Z_shape p) as (c & Hc & E1 & E2); [lia|].
    assert (bits p <= 53) as Hbits by (apply bits_exact; lia).
    assert (∀ ez, ez <= bits p - 53 → Zpos (fst (shl_align c (bits p - 53) ez)) = Z.abs z * 2 ^ (- ez)) as Hal.
    { intros ez Hez. rewrite (proj2 (shl_align_exact c _ _ Hez)), Hc, Hp, <- Z.mul_assoc, <- Z.pow_add_r by lia.
      do 2 f_equal. lia. }
    destruct z as [|q|q]; [done|..]; injection Hp as ->; do 3 eexists;
      (split; [first [exact E1 | exact E2]|]); (split; [lia|]); intros ez Hez; cbn [cond_Zopp];
      rewrite Hal by done; lia. }
  destruct (decide (a = 0)) as [->|Ha0].
  { rewrite Z.add_0_l. destruct (decide (b = 0)) as [->|Hb0]; [done|].
    by destruct (Hshape b Hb0 Hb) as (s & c & e & -> & _). }
  destruct (decide (b = 0)) as [->|Hb0].
  { rewrite Z.add_0_r. by destruct (Hshape a Ha0 Ha) as (s & c & e & -> & _). }
  destruct (Hshape a Ha0 Ha) as (sa & ca & ea & -> & Hea & Hla).
  destruct (Hshape b Hb0 Hb) as (sb & cb & eb & -> & Heb & Hlb).
  unfold f_add, SFadd. rewrite Hla, Hlb, <- Z.mul_add_distr_r by lia. apply normalize_exact; [done|lia].
Qed.

Lemma f_compare_of_Z a b :
  f_exact a → f_exact b → SFcompare (f_of_Z a) (f_of_Z b) = Some (a ?= b).
Proof.
  unfold f_exact. intros Ha Hb.
  assert (∀ p q, Zpos p < 2 ^ 53 → Zpos q < 2 ^ 53 → ∃ c d,
    f_of_Z (Zpos p) = S754_finite false c (bits p - 53) ∧ f_of_Z (Zneg p) = S754_finite true c (bits p - 53) ∧
    f_of_Z (Zpos q) = S754_finite false d (bits q - 53) ∧ f_of_Z (Zneg q) = S754_finite true d (bits q - 53) ∧
    match bits p - 53 ?= bits q - 53 with Eq => Pos.compare_cont Eq c d | r => r end = (Zpos p ?= Zpos q)) as Hcmp.
  { intros p q Hp Hq. destruct (f_of_Z_shape p Hp) as (c & Hc & E1 & E2).
    destruct (f_of_Z_shape q Hq) as (d & Hd & E3 & E4). exists c, d. split_and!; [done..|].
    rewrite !bits_log2 in *. destruct (Z.compare_spec (Z.log2 (Zpos p) + 1 - 53) (Z.log2 (Zpos q) + 1 - 53)) as [E|E|E].
    - change (Pos.compare_cont Eq c d) with (Zpos c ?= Zpos d). rewrite Hc, Hd.
      replace (Z.log2 (Zpos q)) with (Z.log2 (Zpos p)) by lia.
      rewrite <- Zmult_compare_compat_r; [done|].
      assert (Z.log2 (Zpos p) < 53) by (apply Z.log2_lt_pow2; lia). lia.
    - symmetry. apply Z.compare_lt_iff, Z.log2_lt_cancel. lia.
    - symmetry. apply Z.compare_gt_iff, Z.log2_lt_cancel. lia. }
  assert (∀ p, Zpos p < 2 ^ 53 → ∃ c e, f_of_Z (Zpos p) = S754_finite false c e ∧
    f_of_Z (Zneg p) = S754_finite true c e) as Hone.
  { intros p Hp. destruct (f_of_Z_shape p Hp) as (c & _ & E1 & E2). eauto. }
  destruct a as [|p|p], b as [|q|q];
    try (destruct (Hcmp p q) as (c & d & E1 & E2 & E3 & E4 & E); [lia|lia|]);
    try (destruct (Hone p) as (c0 & e0 & F1 & F2); [lia|]);
    try (destruct (Hone q) as (d0 & g0 & F3 & F4); [lia|]);
    rewrite ?E1, ?E2, ?E3, ?E4, ?F1, ?F2, ?F3, ?F4; try done; cbn [SFcompare]; f_equal.
  - rewrite <- E. by destruct (bits p - 53 ?= bits q - 53).
  - change (Zneg p ?= Zneg q) with (CompOpp (Zpos p ?= Zpos q)). rewrite <- E.
    by destruct (bits p - 53 ?= bits q - 53).
Qed.

Lemma f_lt_of_Z a b : f_exact a → f_exact b → f_lt (f_of_Z a) (f_of_Z b) = (a <? b).
Proof. intros Ha Hb. unfold f_lt, SFltb, Z.ltb. by rewrite f_compare_of_Z by done. Qed.
End exact.
