(* ===== verification/FloatBounds.v ===== *)
(** * Bounds of rounded results

    A product, a sum or a difference of binary64 numbers stays between the
    integers the exact result lies between: rounding does not cross a number
    that is representable. Also [math.Round]. *)

From S2P Require Import GoLang Float.
#[local] Open Scope Z_scope.

(** [math.Round]: to the nearest integer, halves away from zero; the sign of zero
    is kept. *)
Definition f_round (x : float64) : float64 :=
  match x with
  | S754_finite s m e =>
      let a := if 0 <=? e then Z.shiftl (Zpos m) e
               else Z.shiftr (Zpos m + Z.shiftl 1 (- e - 1)) (- e) in
      if a =? 0 then S754_zero s else f_of_Z (if s then - a else a)
  | _ => x
  end.

Example f_round_halves :
  map f_round [f_of_ratio false 5 2; f_of_ratio true 5 2; f_of_ratio true 2 5; f_of_Z 7] =
  [f_of_Z 3; f_of_Z (-3); S754_zero true; f_of_Z 7].
Proof. vm_compute. reflexivity. Qed.

(** A finite number in its canonical form, of magnitude below [2^53], whose value
    lies between two integers. *)
Definition between (lo hi : Z) (x : float64) : Prop :=
  match x with
  | S754_zero _ => lo <= 0 <= hi
  | S754_finite s c k =>
      k = fexp 53 1024 (bits c + k) ∧ k <= 0 ∧
      lo * 2 ^ (- k) <= cond_Zopp s (Zpos c) <= hi * 2 ^ (- k)
  | _ => False
  end.

Section rounding.
Implicit Types (m c p : positive) (s : bool).

(** ** Shifting right *)

Lemma shr_1_spec z r s :
  0 <= z →
  shr_1 (Build_shr_record z r s) = Build_shr_record (z / 2) (Z.odd z) (r || s).
Proof.
  intros Hz. rewrite <- Z.div2_div. by destruct z as [|[p|p|]|p].
Qed.

(** The quotient is kept, and nothing is lost exactly when it is exact. *)
Definition shifted (n z : Z) (mrs : shr_record) : Prop :=
  shr_m mrs = z / 2 ^ n ∧ (loc_of_shr_record mrs = loc_Exact ↔ z = shr_m mrs * 2 ^ n).

Lemma shifted_0 z : shifted 0 z (Build_shr_record z false false).
Proof. split; cbn [shr_m]; [by rewrite Z.div_1_r|]. by rewrite Z.mul_1_r. Qed.

Lemma shifted_1 n z mrs : 0 <= n → 0 <= z → shifted n z mrs → shifted (n + 1) z (shr_1 mrs).
Proof.
  intros Hn Hz [Hm Hex]. destruct mrs as [q r s]. cbn [shr_m] in *.
  assert (0 <= q) as Hq by (rewrite Hm; apply Z.div_pos; lia).
  pose proof (Z.div_mod q 2 ltac:(lia)) as Hdm. rewrite Zmod_odd in Hdm.
  rewrite shr_1_spec by done. split; cbn [shr_m loc_of_shr_record].
  - by rewrite Hm, Z.pow_add_r, Z.div_div by lia.
  - rewrite Z.pow_add_r, Z.pow_1_r by lia. split.
    + intros Hl. destruct (Z.odd q); [by destruct r, s|].
      rewrite (proj1 Hex) at 1 by (by destruct r, s). lia.
    + intros E. assert (q = q / 2 * 2) as Hev.
      { rewrite Hm at 1. rewrite E. rewrite (Z.mul_comm (2 ^ n)), Z.mul_assoc, Z.div_mul by lia. done. }
      destruct (Z.odd q); [lia|]. assert (z = q * 2 ^ n) as Hz' by lia.
      apply Hex in Hz'. by destruct r, s.
Qed.

Lemma iter_shr_shifted n k z mrs :
  0 <= k → 0 <= z → shifted k z mrs → shifted (k + Zpos n) z (SpecFloat.iter_pos shr_1 n mrs).
Proof.
  revert k mrs. induction n as [n IH|n IH|]; intros k mrs Hk Hz H; cbn [SpecFloat.iter_pos].
  - replace (k + Zpos n~1) with (k + 1 + Zpos n + Zpos n) by lia.
    apply IH; [lia|done|]. apply IH; [lia|done|]. by apply shifted_1.
  - replace (k + Zpos n~0) with (k + Zpos n + Zpos n) by lia. apply IH; [lia|done|]. by apply IH.
  - by apply shifted_1.
Qed.

Lemma shr_fexp_spec z e :
  0 <= z → e <= fexp 53 1024 (Zdigits2 z + e) →
  ∃ mrs, shr_fexp 53 1024 z e loc_Exact = (mrs, fexp 53 1024 (Zdigits2 z + e)) ∧
    shifted (fexp 53 1024 (Zdigits2 z + e) - e) z mrs.
Proof.
  intros Hz He. unfold shr_fexp. set (e' := fexp _ _ _) in *. cbn [shr_record_of_loc].
  destruct (e' - e) as [|n|n] eqn:Hn; [| |lia]; cbn [shr].
  - eexists. split; [f_equal; lia|]. apply shifted_0.
  - eexists. split; [f_equal; lia|]. apply (iter_shr_shifted n 0); [lia|done|]. apply shifted_0.
Qed.

(** Rounding stays below what the exact value is below. *)
Lemma round_below z n mrs b :
  shifted n z mrs → 0 <= n → z <= b * 2 ^ n →
  z / 2 ^ n <= round_nearest_even (shr_m mrs) (loc_of_shr_record mrs) <= Z.min b (z / 2 ^ n + 1).
Proof.
  intros [Hm Hex] Hn Hb. rewrite <- Hm.
  assert (shr_m mrs <= b) as Hle by (rewrite Hm; apply Z.div_le_upper_bound; lia).
  assert (loc_of_shr_record mrs ≠ loc_Exact → shr_m mrs < b) as Hlt.
  { intros Hne. destruct (decide (shr_m mrs = b)) as [E|]; [|lia]. destruct Hne. apply Hex.
    pose proof (Z.mul_div_le z (2 ^ n) ltac:(lia)). rewrite <- Hm in *. lia. }
  destruct (loc_of_shr_record mrs) as [|cmp]; cbn [round_nearest_even]; [lia|].
  specialize (Hlt ltac:(discriminate)). destruct cmp; [destruct (Z.even _)|..]; lia.
Qed.

(** ** One rounding *)

Lemma fexp_eq x : fexp 53 1024 x = Z.max (x - 53) (-1074).
Proof. done. Qed.

Lemma bits_pow2 p n : 0 <= n → Zpos p <= 2 ^ n → bits p <= n + 1 ∧ (bits p = n + 1 → Zpos p = 2 ^ n).
Proof.
  intros Hn Hp. rewrite bits_log2.
  assert (Z.log2 (Zpos p) <= n) by (rewrite <- (Z.log2_pow2 n) by done; by apply Z.log2_le_mono).
  split; [lia|]. intros Heq. pose proof (Z.log2_spec (Zpos p) ltac:(lia)) as [Hlo _].
  replace (Z.log2 (Zpos p)) with n in Hlo by lia. lia.
Qed.

Lemma bits_lower p n : 0 <= n → 2 ^ n <= Zpos p → n + 1 <= bits p.
Proof.
  intros Hn Hp. rewrite bits_log2.
  assert (n <= Z.log2 (Zpos p)) by (rewrite <- (Z.log2_pow2 n) by done; by apply Z.log2_le_mono). lia.
Qed.

Lemma bits_spec p : 2 ^ (bits p - 1) <= Zpos p < 2 ^ bits p.
Proof.
  rewrite bits_log2, Z.add_simpl_r. exact (Z.log2_spec (Zpos p) ltac:(lia)).
Qed.

(** The exponents of a number below [b]. *)
Lemma exponent_bound m e b :
  e <= 0 → b < 2 ^ 53 → Zpos m <= b * 2 ^ (- e) → bits m + e <= 53.
Proof.
  intros He Hb Hm. assert (Zpos m <= 2 ^ (53 - e)) as Hm'.
  { replace (53 - e) with (53 + - e) by lia. rewrite Z.pow_add_r by lia.
    assert (0 < 2 ^ (- e)) by lia. nia. }
  destruct (bits_pow2 m (53 - e) ltac:(lia) Hm') as [H1 H2].
  assert (Zpos m ≠ 2 ^ (53 - e)); [|lia]. intros E. rewrite E in Hm.
  replace (53 - e) with (53 + - e) in Hm by lia. rewrite Z.pow_add_r in Hm by lia.
  assert (0 < 2 ^ (- e)) by lia. nia.
Qed.

(** A mantissa that fits is left alone, [2 ^ 53] is halved. *)
Lemma shr_fexp_small p e :
  -1074 <= e → bits p <= 53 →
  shr_fexp 53 1024 (Zpos p) e loc_Exact = (Build_shr_record (Zpos p) false false, e).
Proof.
  intros He Hp. unfold shr_fexp. cbn [Zdigits2 shr_record_of_loc]. fold (bits p).
  rewrite fexp_eq. unfold shr. by destruct (Z.max (bits p + e - 53) (-1074) - e) eqn:?; [..|lia|].
Qed.

Lemma shr_fexp_carry e :
  -1074 <= e →
  shr_fexp 53 1024 (2 ^ 53) e loc_Exact = (Build_shr_record (2 ^ 52) false false, e + 1).
Proof.
  intros He. unfold shr_fexp. rewrite fexp_eq. change (Zdigits2 (2 ^ 53)) with 54.
  by replace (Z.max (54 + e - 53) (-1074) - e) with 1 by lia.
Qed.

Lemma between_finite s c k b :
  k = fexp 53 1024 (bits c + k) → k <= 0 → Zpos c <= b * 2 ^ (- k) → 0 <= b →
  between (if s then - b else 0) (if s then 0 else b) (S754_finite s c k).
Proof. intros Hc Hk Hb Hb0. split; [done|]. split; [done|]. destruct s; cbn [cond_Zopp]; nia. Qed.

(** The mantissa before the second normalisation. *)
Lemma rounded_mantissa m e e' r :
  e' = Z.max (bits m + e - 53) (-1074) → e <= e' →
  Zpos m / 2 ^ (e' - e) <= r <= Zpos m / 2 ^ (e' - e) + 1 →
  0 <= r <= 2 ^ 53 ∧ (-1074 < e' → 2 ^ 52 <= r).
Proof.
  intros He' Hle Hr. pose proof (bits_spec m) as [Hlo Hhi]. pose proof (bits_pos m).
  assert (0 <= Zpos m / 2 ^ (e' - e)) by (apply Z.div_pos; lia).
  assert (Zpos m / 2 ^ (e' - e) < 2 ^ 53) as Hq.
  { apply Z.div_lt_upper_bound; [lia|]. rewrite <- Z.pow_add_r by lia.
    eapply Z.lt_le_trans; [exact Hhi|]. apply Z.pow_le_mono_r; lia. }
  split; [lia|]. intros Hn. assert (2 ^ 52 <= Zpos m / 2 ^ (e' - e)); [|lia].
  apply Z.div_le_lower_bound; [lia|]. rewrite <- Z.pow_add_r by lia.
  by replace (e' - e + 52) with (bits m - 1) by lia.
Qed.

Lemma round_aux_between s m e b :
  b < 2 ^ 53 → e <= 0 → e <= fexp 53 1024 (bits m + e) → Zpos m <= b * 2 ^ (- e) →
  between (if s then - b else 0) (if s then 0 else b) (binary_round_aux 53 1024 s (Zpos m) e loc_Exact).
Proof.
  intros Hb He Hfe Hm. pose proof (exponent_bound m e b He Hb Hm) as Hexp.
  assert (0 <= b) as Hb0 by (assert (0 < 2 ^ (- e)) by lia; nia).
  unfold binary_round_aux.
  destruct (shr_fexp_spec (Zpos m) e) as (mrs & -> & Hsh); [done|done|].
  cbn [Zdigits2] in *. fold (bits m) in *. rewrite fexp_eq in *.
  remember (Z.max (bits m + e - 53) (-1074)) as e' eqn:He'.
  assert (Zpos m <= b * 2 ^ (- e') * 2 ^ (e' - e)) as Hm'.
  { rewrite <- Z.mul_assoc, <- Z.pow_add_r by lia. by replace (- e' + (e' - e)) with (- e) by lia. }
  pose proof (round_below _ _ _ _ Hsh ltac:(lia) Hm') as Hr.
  set (r := round_nearest_even _ _) in *.
  destruct (rounded_mantissa m e e' r He' Hfe ltac:(lia)) as [Hr53 Hr52].
  destruct r as [|p|p]; [| |lia].
  - unfold shr_fexp. cbn [Zdigits2 shr_record_of_loc]. rewrite fexp_eq. unfold shr.
    destruct (Z.max (0 + e' - 53) (-1074) - e') eqn:?; [|lia|]; cbn [shr_m]; destruct s; simpl; lia.
  - destruct (bits_pow2 p 53 ltac:(lia) ltac:(lia)) as [Hp54 Hp].
    destruct (decide (bits p = 54)) as [E|E].
    + rewrite (Hp E) in *. rewrite shr_fexp_carry by lia. cbn [shr_m].
      assert (e' < 0).
      { destruct (decide (e' = 0)) as [->|]; [|lia]. rewrite Z.mul_1_r in *. lia. }
      change (2 ^ 52) with (Zpos 4503599627370496). rewrite (proj2 (Z.leb_le _ _)) by lia.
      apply between_finite; [by rewrite fexp_eq; change (bits 4503599627370496) with 53; lia|lia| |done].
      replace (- e') with (- (e' + 1) + 1) in Hr by lia. rewrite Z.pow_add_r in Hr by lia. lia.
    + rewrite shr_fexp_small by lia. cbn [shr_m]. rewrite (proj2 (Z.leb_le _ _)) by lia.
      apply between_finite; [|lia|lia|done]. rewrite fexp_eq.
      destruct (decide (e' = -1074)); [lia|].
      pose proof (bits_lower p 52 ltac:(lia) (Hr52 ltac:(lia))). lia.
Qed.

Lemma between_mono lo hi lo' hi' x : between lo hi x → lo' <= lo → hi <= hi' → between lo' hi' x.
Proof.
  destruct x as [s| | |s c k]; simpl; [lia|done|done|]. intros (Hc & Hk & H) Hl Hh.
  split; [done|]. split; [done|]. assert (0 < 2 ^ (- k)) by lia. nia.
Qed.

Lemma normalize_between lo hi z e :
  e <= 0 → - 2 ^ 53 < lo <= 0 → 0 <= hi < 2 ^ 53 → lo * 2 ^ (- e) <= z <= hi * 2 ^ (- e) →
  between lo hi (binary_normalize 53 1024 z e false).
Proof.
  intros He Hlo Hhi Hz.
  assert (∀ s m b, b < 2 ^ 53 → Zpos m <= b * 2 ^ (- e) →
    between (if s then - b else 0) (if s then 0 else b) (binary_round 53 1024 s m e)) as Hround.
  { intros s m b Hb Hm. pose proof (exponent_bound m e b He Hb Hm) as Hexp.
    unfold binary_round. fold (bits m). set (e' := fexp 53 1024 (bits m + e)).
    assert (e' = Z.max (bits m + e - 53) (-1074)) as He' by apply fexp_eq.
    destruct (Z.le_gt_cases e' e) as [Hle|Hgt].
    - destruct (shl_align_exact m e e' Hle) as [-> Hv]. set (mz := fst _) in *.
      assert (bits mz = bits m + (e - e')) as Hbz by (apply bits_mul_pow2; [lia|done]).
      apply round_aux_between; [done|lia| |].
      + rewrite fexp_eq, Hbz. lia.
      + rewrite Hv. replace (- e') with (- e + (e - e')) by lia. rewrite Z.pow_add_r by lia.
        rewrite Z.mul_assoc. apply Z.mul_le_mono_nonneg_r; lia.
    - rewrite shl_align_id by lia. apply round_aux_between; [done|done|unfold e' in *; lia|done]. }
  destruct z as [|p|p]; simpl.
  - lia.
  - apply (between_mono 0 hi); [apply (Hround false); lia|lia|lia].
  - apply (between_mono lo 0); [|lia|lia]. replace lo with (- - lo) by lia. apply (Hround true); lia.
Qed.

(** ** The operations *)

Lemma canonical_bits c k : k = fexp 53 1024 (bits c + k) → bits c <= 53 ∧ (bits c = 53 ∨ k = -1074) ∧ -1074 <= k.
Proof. rewrite fexp_eq. lia. Qed.

Lemma f_mul_between a b x y :
  0 <= a → 0 <= b → a * b < 2 ^ 53 → between 0 a x → between 0 b y → between 0 (a * b) (f_mul x y).
Proof.
  intros Ha Hb Hab. assert (0 <= a * b) as Hab0 by nia.
  destruct x as [s| | |s c k], y as [s'| | |s' c' k']; simpl; try done.
  intros (Hc & Hk & H) (Hc' & Hk' & H').
  destruct s; [simpl in H; lia|]. destruct s'; [simpl in H'; lia|]. cbn [cond_Zopp xorb] in *.
  destruct (canonical_bits c k Hc) as (_ & Hd & _), (canonical_bits c' k' Hc') as (_ & Hd' & _).
  apply (round_aux_between false); [done|lia| |].
  - rewrite fexp_eq. pose proof (bits_pos c). pose proof (bits_pos c').
    assert (bits c + bits c' - 1 <= bits (c * c')) as Hprod.
    { replace (bits c + bits c' - 1) with ((bits c - 1) + (bits c' - 1) + 1) by lia.
      apply bits_lower; [lia|]. rewrite Z.pow_add_r, Pos2Z.inj_mul by lia.
      pose proof (bits_spec c). pose proof (bits_spec c'). apply Z.mul_le_mono_nonneg; lia. }
    lia.
  - replace (- (k + k')) with (- k + - k') by lia. rewrite Z.pow_add_r, Pos2Z.inj_mul by lia.
    replace (a * b * (2 ^ (- k) * 2 ^ (- k'))) with ((a * 2 ^ (- k)) * (b * 2 ^ (- k'))) by lia.
    apply Z.mul_le_mono_nonneg; lia.
Qed.

(** A number at a smaller exponent. *)
Lemma aligned lo hi s c k ez :
  between lo hi (S754_finite s c k) → ez <= k →
  lo * 2 ^ (- ez) <= cond_Zopp s (Zpos (fst (shl_align c k ez))) <= hi * 2 ^ (- ez).
Proof.
  intros (_ & Hk & H) Hez. destruct (shl_align_exact c k ez Hez) as [_ Hv].
  replace (- ez) with (- k + (k - ez)) by lia. rewrite Z.pow_add_r by lia. rewrite !Z.mul_assoc.
  replace (cond_Zopp s (Zpos (fst (shl_align c k ez)))) with (cond_Zopp s (Zpos c) * 2 ^ (k - ez))
    by (destruct s; cbn [cond_Zopp]; lia).
  split; apply Z.mul_le_mono_nonneg_r; lia.
Qed.

Lemma between_opp lo hi s c k : between lo hi (S754_finite s c k) → between (- hi) (- lo) (S754_finite (negb s) c k).
Proof.
  intros (Hc & Hk & H). split; [done|]. split; [done|]. destruct s; cbn [cond_Zopp negb] in *; lia.
Qed.

Lemma f_sub_between lo hi lo' hi' x y :
  between lo hi x → between lo' hi' y → - 2 ^ 53 < lo - hi' <= 0 → 0 <= hi - lo' < 2 ^ 53 →
  between (lo - hi') (hi - lo') (f_sub x y).
Proof.
  intros Hx Hy Hl Hh. unfold f_sub, SFsub.
  destruct x as [s| | |s c k], y as [s'| | |s' c' k']; try done.
  - destruct s, s'; simpl; lia.
  - simpl in Hx. apply (between_mono (- hi') (- lo')); [by apply between_opp|lia|lia].
  - simpl in Hy. eapply between_mono; [exact Hx|lia|lia].
  - pose proof Hx as (_ & Hk & _). pose proof Hy as (_ & Hk' & _). apply normalize_between; [lia|lia|lia|].
    pose proof (aligned _ _ _ _ _ (Z.min k k') Hx ltac:(lia)).
    pose proof (aligned _ _ _ _ _ (Z.min k k') Hy ltac:(lia)). lia.
Qed.

Lemma between_of_Z z : f_exact z → between z z (f_of_Z z).
Proof.
  unfold f_exact. intros Hz.
  assert (∀ p d, Zpos p < 2 ^ 53 → Zpos d = Zpos p * 2 ^ (53 - bits p) →
    bits p - 53 = fexp 53 1024 (bits d + (bits p - 53)) ∧ bits p - 53 <= 0 ∧
    Zpos d = Zpos p * 2 ^ (- (bits p - 53))) as Hp.
  { intros p d Hp Hd. apply bits_exact in Hp. pose proof (bits_pos p).
    rewrite fexp_eq, (bits_mul_pow2 p d (53 - bits p)) by done || lia.
    split_and!; [lia|lia|]. rewrite Hd. do 2 f_equal. lia. }
  destruct z as [|p|p]; [simpl; lia|..]; destruct (f_of_Z_shape p) as (d & Hd & E1 & E2); [lia| |lia|];
    rewrite ?E1, ?E2; destruct (Hp p d) as (Hc & Hk & Hv); [lia|done| |lia|done|];
    (split; [done|split; [done|]]); cbn [cond_Zopp]; lia.
Qed.

(** ** Comparison *)

Lemma magnitude_le c k p d :
  k = fexp 53 1024 (bits c + k) → k <= 0 → Zpos c <= Zpos p * 2 ^ (- k) →
  Zpos p < 2 ^ 53 → Zpos d = Zpos p * 2 ^ (53 - bits p) →
  match k ?= bits p - 53 with Eq => Pos.compare_cont Eq c d | r => r end ≠ Gt.
Proof.
  intros Hc Hk Hle Hp Hd. destruct (canonical_bits c k Hc) as (_ & Hbits & _).
  pose proof (bits_pos p). apply bits_exact in Hp.
  destruct (Z.compare_spec k (bits p - 53)) as [->|?|Hgt]; [|done|].
  - change (Pos.compare_cont Eq c d) with (Zpos c ?= Zpos d). rewrite Hd.
    replace (- (bits p - 53)) with (53 - bits p) in Hle by lia. by apply Z.compare_le_iff.
  - exfalso. destruct Hbits as [Hbits|]; [|lia]. pose proof (bits_spec c) as [Hlo _]. rewrite Hbits in Hlo.
    pose proof (bits_spec p) as [_ Hhi].
    assert (Zpos p * 2 ^ (- k) < 2 ^ (53 - 1)); [|lia].
    eapply Z.lt_le_trans; [apply Z.mul_lt_mono_pos_r; [lia|exact Hhi]|].
    rewrite <- Z.pow_add_r by lia. apply Z.pow_le_mono_r; lia.
Qed.

(** Numbers between two integers compare with them as they should. *)
Lemma between_le lo hi x :
  between lo hi x → - 2 ^ 53 < lo <= 0 → 0 <= hi < 2 ^ 53 →
  f_le (f_of_Z lo) x = true ∧ f_le x (f_of_Z hi) = true.
Proof.
  intros Hx Hlo Hhi. unfold f_le, SFleb.
  destruct x as [s| | |s c k]; try done.
  - split.
    + destruct lo as [| |p]; [done|lia|]. by destruct (f_of_Z_shape p) as (? & _ & _ & ->); [lia|].
    + destruct hi as [|p|]; [done| |lia]. by destruct (f_of_Z_shape p) as (? & _ & -> & _); [lia|].
  - destruct Hx as (Hc & Hk & H). assert (0 < 2 ^ (- k)) by lia. destruct s; cbn [cond_Zopp] in H.
    + destruct lo as [| |p]; [nia|lia|]. split.
      * destruct (f_of_Z_shape p) as (d & Hd & _ & ->); [lia|]. cbn [SFcompare].
        pose proof (magnitude_le c k p d Hc Hk ltac:(lia) ltac:(lia) Hd) as Hm. rewrite Z.compare_antisym.
        destruct (k ?= bits p - 53); simpl in *; try done.
        rewrite Pos.compare_cont_antisym in *. simpl. by destruct (Pos.compare_cont Eq c d).
      * destruct hi as [|q|]; [done| |lia]. by destruct (f_of_Z_shape q) as (? & _ & -> & _); [lia|].
    + destruct hi as [|p|]; [nia| |lia]. split.
      * destruct lo as [| |q]; [done|lia|]. by destruct (f_of_Z_shape q) as (? & _ & _ & ->); [lia|].
      * destruct (f_of_Z_shape p) as (d & Hd & -> & _); [lia|]. cbn [SFcompare].
        pose proof (magnitude_le c k p d Hc Hk ltac:(lia) ltac:(lia) Hd) as Hm.
        by destruct (k ?= bits p - 53); [destruct (Pos.compare_cont Eq c d)|..].
Qed.
End rounding.

(** ** Rounding to an integer *)

(** The result is an integer in the same bounds; adding it to an integer is
    exact. *)
Lemma f_round_integer lo hi x :
  between lo hi x → - 2 ^ 52 < lo <= 0 → 0 <= hi < 2 ^ 52 →
  ∃ z, lo <= z <= hi ∧ ∀ c, Z.abs c < 2 ^ 52 → f_add (f_of_Z c) (f_round x) = f_of_Z (c + z).
Proof.
  intros Hx Hlo Hhi.
  assert (∀ c s, Z.abs c < 2 ^ 52 → f_add (f_of_Z c) (S754_zero s) = f_of_Z c) as Hzero.
  { intros c s Hc. destruct c as [|p|p]; [by destruct s|..];
      by destruct (f_of_Z_shape p) as (? & _ & E1 & E2); [lia|]; rewrite ?E1, ?E2. }
  destruct x as [s| | |s c k]; try done.
  { exists 0. split; [done|]. intros c Hc. cbn [f_round]. by rewrite Hzero, Z.add_0_r. }
  destruct Hx as (_ & Hk & H). cbn [f_round].
  set (a := if 0 <=? k then _ else _).
  assert (0 <= a ∧ lo <= (if s then - a else a) <= hi) as [Ha Hb].
  { unfold a. destruct (Z.leb_spec 0 k).
    - replace k with 0 in * by lia. rewrite Z.shiftl_0_r. destruct s; cbn [cond_Zopp] in H; lia.
    - rewrite Z.shiftr_div_pow2, Z.shiftl_1_l by lia.
      assert (2 ^ (- k) = 2 * 2 ^ (- k - 1)) as E.
      { rewrite <- Z.pow_succ_r by lia. f_equal. lia. }
      assert (0 < 2 ^ (- k - 1)) by lia.
      assert (∀ b, Zpos c <= b * 2 ^ (- k) → 0 <= (Zpos c + 2 ^ (- k - 1)) / 2 ^ (- k) <= b) as Hq.
      { intros b Hb. split; [apply Z.div_pos; lia|].
        apply Z.lt_succ_r, Z.div_lt_upper_bound; [lia|]. rewrite E in *. lia. }
      destruct s; cbn [cond_Zopp] in H; [specialize (Hq (- lo))|specialize (Hq hi)]; lia. }
  exists (if s then - a else a). split; [done|]. intros z Hz.
  destruct (Z.eqb_spec a 0) as [->|]; [rewrite Hzero by done; by destruct s; rewrite Z.add_0_r|].
  apply f_add_of_Z; unfold f_exact; destruct s; lia.
Qed.

(** What the comparisons with [0] and [1] say. *)
Lemma below_unit c k q :
  f_lt (S754_finite false c k) (S754_finite false q (-52)) = true → k < -52 ∨ k = -52 ∧ Zpos c < Zpos q.
Proof.
  unfold f_lt, SFltb. cbn [SFcompare]. destruct (Z.compare_spec k (-52)) as [->|?|?]; [|lia|done].
  intros H. right. split; [done|]. destruct (Pos.compare_cont Eq c q) eqn:E; [done| |done].
  exact (proj1 (Pos.compare_lt_iff c q) E).
Qed.

Lemma between_unit x :
  valid_binary 53 1024 x = true → f_le f_zero x = true → f_lt x (f_of_Z 1) = true → between 0 1 x.
Proof.
  intros Hv H0 H1. destruct (f_of_Z_shape 1) as (q & Hq & E & _); [lia|]. rewrite E in H1. clear E.
  destruct x as [s|s| |s c k]; [done|by destruct s|done|]. destruct s; [done|].
  unfold valid_binary, bounded, canonical_mantissa in Hv. apply andb_prop in Hv as [Hc%Z.eqb_eq _].
  fold (bits c) in Hc. symmetry in Hc. destruct (canonical_bits c k Hc) as (Hb & Hd & _).
  pose proof (bits_spec c) as [Hlo Hhi]. change (bits 1) with 1 in *.
  assert (k <= -53) as Hk.
  { destruct (below_unit c k q H1) as [?|[-> Hlt]]; [lia|]. destruct Hd as [Hd|]; [|lia].
    rewrite Hd in Hlo. rewrite Hq in Hlt. lia. }
  split; [done|]. split; [lia|]. cbn [cond_Zopp]. split; [lia|]. rewrite Z.mul_1_l.
  apply Z.lt_le_incl, (Z.lt_le_trans _ (2 ^ bits c)); [done|]. apply Z.pow_le_mono_r; lia.
Qed.
