(* ===== verification/Strconv.v ===== *)
(** * Numbers and durations as text

    The parts of [strconv] and [time] the program reads its settings and its
    query parameters with: [strconv.Atoi] and [strconv.Itoa], [strconv.ParseFloat] with 64 bits,
    [time.ParseDuration]. Errors are [None]: the program only tests for them. *)

From S2P Require Import GoLang Float.
From stdpp Require Import pretty.
#[local] Open Scope Z_scope.

(** ** Integers *)

(** [strconv.Itoa]. *)
Definition Itoa (n : Z) : string := pretty n.

Definition digit_of (c : ascii) : option Z :=
  let n := nat_of_ascii c in
  if (48 <=? n)%nat && (n <=? 57)%nat then Some (Z.of_nat n - 48) else None.

Fixpoint digits (s : string) (acc : Z) : option Z :=
  match s with
  | "" => Some acc
  | String c s' => d ← digit_of c; digits s' (acc * 10 + d)
  end.

Definition digits1 (s : string) : option Z :=
  match s with "" => None | _ => digits s 0 end.

(** [strconv.Atoi]. *)
Definition Atoi (s : string) : option Z :=
  z ← (match s with
       | String "-" s' => Z.opp <$> digits1 s'
       | String "+" s' => digits1 s'
       | _ => digits1 s
       end);
  if (- int64_half <=? z) && (z <? int64_half) then Some z else None.

Example Atoi_ok : Atoi "-17" = Some (-17) ∧ Atoi "12x" = None ∧ Atoi "" = None ∧
  Atoi "9223372036854775808" = None.
Proof. by vm_compute. Qed.

(** ** Floating-point numbers *)

(** [special]: infinities and the NaN, in any case. *)
Definition ParseFloat_special (s : string) : option float64 :=
  let '(signed, neg, body) :=
    match s with
    | String "+" s' => (true, false, s')
    | String "-" s' => (true, true, s')
    | _ => (false, false, s)
    end in
  let body := string_lower body in
  if bool_decide (body = "inf" ∨ body = "infinity") then Some (S754_infinity neg)
  else if negb signed && bool_decide (body = "nan") then Some S754_nan
  else None.

(** A digit of the mantissa in the base. *)
Definition digit_in (hex : bool) (c : ascii) : option Z :=
  match digit_of c with
  | Some d => Some d
  | None =>
      let n := nat_of_ascii (to_lower c) in
      if hex && ((97 <=? n)%nat && (n <=? 102)%nat) then Some (Z.of_nat n - 87) else None
  end.

(** The loop over the mantissa: the value of the digits, the number of digits
    after the point, whether digits, a point and underscores were seen, and
    the rest of the text. *)
Record mantissa := {
  mt_value : Z; mt_frac : Z; mt_digits : bool; mt_dot : bool; mt_under : bool; mt_rest : string }.

Fixpoint read_mantissa (hex : bool) (s : string) (v frac : Z) (sawdigits sawdot under : bool)
    : mantissa :=
  let stop := {| mt_value := v; mt_frac := frac; mt_digits := sawdigits; mt_dot := sawdot;
                 mt_under := under; mt_rest := s |} in
  match s with
  | "" => stop
  | String c s' =>
      if bool_decide (c = "_"%char) then read_mantissa hex s' v frac sawdigits sawdot true
      else if bool_decide (c = "."%char) then
        if sawdot then stop else read_mantissa hex s' v frac sawdigits true under
      else
        match digit_in hex c with
        | Some d =>
            read_mantissa hex s' (v * (if hex then 16 else 10) + d)
              (if sawdot then frac + 1 else frac) true sawdot under
        | None => stop
        end
  end.

(** The digits of an exponent, no longer accumulated from [10000] on. *)
Fixpoint read_exponent (s : string) (e : Z) (under : bool) : Z * bool * string :=
  match s with
  | "" => (e, under, s)
  | String c s' =>
      if bool_decide (c = "_"%char) then read_exponent s' e true
      else
        match digit_of c with
        | Some d => read_exponent s' (if e <? 10000 then e * 10 + d else e) under
        | None => (e, under, s)
        end
  end.

(** [underscoreOK]: an underscore stands between digits, or between a base
    prefix and a digit. [saw] is ["^"] at the beginning, ["0"] after a digit or
    the prefix, ["_"] after an underscore, ["!"] otherwise. *)
Fixpoint underscore_scan (hex : bool) (s : string) (saw : ascii) : bool :=
  match s with
  | "" => negb (bool_decide (saw = "_"%char))
  | String c s' =>
      match digit_in hex c with
      | Some _ => underscore_scan hex s' "0"
      | None =>
          if bool_decide (c = "_"%char)
          then bool_decide (saw = "0"%char) && underscore_scan hex s' "_"
          else negb (bool_decide (saw = "_"%char)) && underscore_scan hex s' "!"
      end
  end.

Definition drop_sign (s : string) : bool * string :=
  match s with
  | String "+" s' => (false, s')
  | String "-" s' => (true, s')
  | _ => (false, s)
  end.

Definition underscoreOK (s : string) : bool :=
  let s := (drop_sign s).2 in
  match s with
  | String "0" (String c s') =>
      let c := to_lower c in
      if bool_decide (c = "b"%char ∨ c = "o"%char ∨ c = "x"%char)
      then underscore_scan (bool_decide (c = "x"%char)) s' "0"
      else underscore_scan false s "^"
  | _ => underscore_scan false s "^"
  end.

(** An exponent after its letter: a sign and at least one digit. *)
Definition signed_exponent (s : string) : option (Z * bool * string) :=
  let '(eneg, s') := drop_sign s in
  match s' with
  | String c _ =>
      _ ← digit_of c;
      let '(e, under, rest) := read_exponent s' 0 false in
      Some (if eneg then - e else e, under, rest)
  | "" => None
  end.

(** [strconv.ParseFloat(s, 64)]: the nearest float; an error when the text is
    no number or the number rounds to an infinity. *)
Definition ParseFloat (s : string) : option float64 :=
  match ParseFloat_special s with
  | Some f => Some f
  | None =>
      let '(neg, body) := drop_sign s in
      let '(hex, body) :=
        match body with
        | String "0" (String c (String d r)) =>
            if bool_decide (to_lower c = "x"%char) then (true, String d r) else (false, body)
        | _ => (false, body)
        end in
      let m := read_mantissa hex body 0 0 false false false in
      if negb (mt_digits m) then None
      else
        '(e, eunder, rest) ←
          (match mt_rest m with
           | String c r =>
               if bool_decide (to_lower c = (if hex then "p" else "e")%char) then signed_exponent r
               else if hex then None else Some (0, false, mt_rest m)
           | "" => if hex then None else Some (0, false, "")
           end);
        if (mt_under m || eunder) && negb (underscoreOK s) then None
        else if negb (bool_decide (rest = "")) then None
        else
          let base := if hex then 2 else 10 in
          let e := e - (if hex then 4 * mt_frac m else mt_frac m) in
          let f :=
            if mt_value m =? 0 then S754_zero neg
            else if 0 <=? e then f_of_ratio neg (mt_value m * base ^ e) 1
            else f_of_ratio neg (mt_value m) (base ^ (- e)) in
          match f with S754_infinity _ => None | _ => Some f end
  end.

Example ParseFloat_ok :
  ParseFloat "10" = Some (f_of_Z 10) ∧
  ParseFloat "0.5" = Some (f_div (f_of_Z 1) (f_of_Z 2)) ∧
  ParseFloat "-1e-1" = Some (f_of_ratio true 1 10) ∧
  ParseFloat "1_0.5_0" = Some (f_of_ratio false 21 2) ∧
  ParseFloat "0x1.8p1" = Some (f_of_Z 3) ∧
  ParseFloat ".5e+1" = Some (f_of_Z 5) ∧
  ParseFloat "NaN" = Some S754_nan ∧
  ParseFloat "-Infinity" = Some (S754_infinity true) ∧
  ParseFloat "1e-400" = Some (S754_zero false).
Proof. by vm_compute. Qed.

Example ParseFloat_bad :
  Forall (λ s, ParseFloat s = None)
    [""; "-"; "."; "1e"; "1e+"; "0x"; "0x1"; "0xp1"; "1__0"; "_1"; "1_"; "1._5"; "1e400"; "+nan"; "1 ";
     "1.2.3"; "10rps"].
Proof. by repeat constructor. Qed.

(** ** Durations *)

Definition two63 : Z := 2 ^ 63.
Definition uint64_wrap (z : Z) : Z := z `mod` (2 ^ 64).

(** [leadingInt]: the digits at the front, [None] past [2^63]. *)
Fixpoint leadingInt (s : string) (x : Z) : option (Z * string) :=
  match s with
  | String c s' =>
      match digit_of c with
      | Some d =>
          if two63 / 10 <? x then None
          else
            let x := x * 10 + d in
            if two63 <? x then None else leadingInt s' x
      | None => Some (x, s)
      end
  | "" => Some (x, s)
  end.

(** [leadingFraction]: the digits after the point and the power of ten they are
    divided by; digits that would overflow are dropped. *)
Fixpoint leadingFraction (s : string) (x : Z) (scale : float64) (overflow : bool)
    : Z * float64 * string :=
  match s with
  | String c s' =>
      match digit_of c with
      | Some d =>
          if overflow then leadingFraction s' x scale true
          else if (two63 - 1) / 10 <? x then leadingFraction s' x scale true
          else
            let y := x * 10 + d in
            if two63 <? y then leadingFraction s' x scale true
            else leadingFraction s' y (f_mul scale (f_of_Z 10)) false
      | None => (x, scale, s)
      end
  | "" => (x, scale, s)
  end.

(** The text up to the next digit or point. *)
Fixpoint span_unit (s : string) : string * string :=
  match s with
  | String c s' =>
      if bool_decide (c = "."%char) || bool_decide (is_Some (digit_of c)) then ("", s)
      else let '(u, r) := span_unit s' in (String c u, r)
  | "" => ("", "")
  end.

(** [unitMap]; the microsecond with either of the two mu characters. *)
Definition micro_sign (c d : nat) : string := String (ascii_of_nat c) (String (ascii_of_nat d) "s").

Definition unitMap (u : string) : option Z :=
  if bool_decide (u = "ns") then Some 1
  else if bool_decide (u = "us" ∨ u = micro_sign 0xC2 0xB5 ∨ u = micro_sign 0xCE 0xBC) then Some 1000
  else if bool_decide (u = "ms") then Some 1000000
  else if bool_decide (u = "s") then Some Second
  else if bool_decide (u = "m") then Some Minute
  else if bool_decide (u = "h") then Some (60 * Minute)
  else None.

(** One group of the loop, a number with a unit: its value in nanoseconds and
    the rest of the text. *)
Definition duration_group (s : string) : option (Z * string) :=
  '(v, s1) ← leadingInt s 0;
  let pre := negb (bool_decide (s1 = s)) in
  let '(f, scale, s2, post) :=
    match s1 with
    | String "." s' =>
        let '(f, scale, s'') := leadingFraction s' 0 (f_of_Z 1) false in
        (f, scale, s'', negb (bool_decide (s'' = s')))
    | _ => (0, f_of_Z 1, s1, false)
    end in
  if negb (pre || post) then None
  else
    let '(u, rest) := span_unit s2 in
    unit ← unitMap u;
    if two63 / unit <? v then None
    else
      let v := v * unit in
      let w :=
        if 0 <? f then uint64_wrap (v + f_trunc (f_mul (f_of_Z f) (f_div (f_of_Z unit) scale)))
        else v in
      if two63 <? w then None else Some (w, rest).

(** The loop over the groups. Every group takes a byte at least. *)
Fixpoint duration_loop (fuel : nat) (s : string) (d : Z) : option Z :=
  match fuel, s with
  | _, "" => Some d
  | O, _ => None
  | S fuel', _ =>
      '(v, rest) ← duration_group s;
      let d := uint64_wrap (d + v) in
      if two63 <? d then None else duration_loop fuel' rest d
  end.

(** [time.ParseDuration]. *)
Definition ParseDuration (s : string) : option Z :=
  let '(neg, s) := drop_sign s in
  if bool_decide (s = "0") then Some 0
  else if bool_decide (s = "") then None
  else
    d ← duration_loop (String.length s) s 0;
    if neg then Some (int64_wrap (- d))
    else if two63 - 1 <? d then None else Some d.

Example ParseDuration_ok :
  ParseDuration "15s" = Some (15 * Second) ∧
  ParseDuration "500ms" = Some 500000000 ∧
  ParseDuration "1h1.5m" = Some (3690 * Second) ∧
  ParseDuration "-.5s" = Some (-500000000) ∧
  ParseDuration "0" = Some 0 ∧
  ParseDuration (String.append "3" (micro_sign 0xC2 0xB5)) = Some 3000 ∧
  ParseDuration "-9223372036854775808ns" = Some (- 2 ^ 63) ∧
  ParseDuration "9223372036854775808ns9223372036854775808ns" = Some 0.
Proof. by vm_compute. Qed.

Example ParseDuration_bad :
  Forall (λ s, ParseDuration s = None)
    [""; "3"; "-"; "s"; "."; ".s"; "1d"; "1 s"; "9223372036854775808ns"; "3000000h"; "--1s"].
Proof. by repeat constructor. Qed.

(** ** Facts *)

Lemma Atoi_range s n : Atoi s = Some n → in_int64 n.
Proof.
  unfold Atoi. intros (z & _ & H)%bind_Some. case_match eqn:E; [|done].
  injection H as ->. apply andb_true_iff in E as [?%Z.leb_le ?%Z.ltb_lt]. int_range.
Qed.

Lemma duration_loop_range fuel s d n :
  0 <= d <= two63 → duration_loop fuel s d = Some n → 0 <= n <= two63.
Proof.
  revert s d. induction fuel as [|fuel IH]; intros s d Hd; destruct s as [|c s];
    cbn [duration_loop]; try by intros [= <-].
  intros ([v rest] & _ & H)%bind_Some. case_match eqn:E; [done|].
  eapply IH, H. apply Z.ltb_ge in E. split; [|done].
  unfold uint64_wrap. apply Z.mod_pos_bound. lia.
Qed.

Lemma ParseDuration_range s n : ParseDuration s = Some n → in_int64 n.
Proof.
  unfold ParseDuration. destruct (drop_sign s) as [neg t].
  case_bool_decide; [intros [= <-]; int_range|]. case_bool_decide; [done|].
  intros (d & Hd%duration_loop_range & Hr)%bind_Some; [|unfold two63; lia].
  destruct neg; [injection Hr as <-; apply int64_wrap_range|].
  case_match eqn:E; [done|]. injection Hr as <-. apply Z.ltb_ge in E. unfold two63 in *. int_range.
Qed.

(** ** Reading back what was written

    The decimal text of a number reads as that number, alone or before a unit. *)

Lemma digit_of_pretty (d : N) : (d < 10)%N → digit_of (pretty_N_char d) = Some (Z.of_N d).
Proof.
  intros Hd. assert (d ∈ (N.of_nat <$> seq 0 10)) as Hin.
  { apply list_elem_of_fmap. exists (N.to_nat d). split; [lia|]. apply elem_of_seq. lia. }
  by repeat (apply elem_of_cons in Hin as [->|Hin]; [reflexivity|]); apply not_elem_of_nil in Hin.
Qed.

(** What reads digits into an accumulator reads the digits of [x] as [x]. *)
Lemma pretty_N_go_read {R} (P : Z → Prop) (read : string → Z → R) :
  (∀ (d : N) s x, (d < 10)%N → P (x * 10 + Z.of_N d) →
     read (String (pretty_N_char d) s) x = read s (x * 10 + Z.of_N d)) →
  (∀ x, P x → P (x / 10)) →
  ∀ (x : N) s, P (Z.of_N x) → read (pretty_N_go x s) 0 = read s (Z.of_N x).
Proof.
  intros Hstep Hdiv x. induction (N.lt_wf_0 x) as [x _ IH]. intros s Hx.
  destruct (decide (x = 0%N)) as [->|Hne]; [done|].
  rewrite pretty_N_go_step by lia.
  assert (Z.of_N x = Z.of_N (x / 10) * 10 + Z.of_N (x `mod` 10)) as E.
  { rewrite (N.div_mod' x 10) at 1. lia. }
  rewrite IH, Hstep, <- E; [done|apply N.mod_lt; lia|by rewrite <- E|apply N.div_lt; lia|].
  rewrite N2Z.inj_div. by apply Hdiv.
Qed.

Lemma digits_pretty_go (x : N) s : digits (pretty_N_go x s) 0 = digits s (Z.of_N x).
Proof.
  apply (pretty_N_go_read (λ _, True)); [|done..].
  intros d t y Hd _. cbn [digits]. by rewrite digit_of_pretty.
Qed.

Lemma leadingInt_pretty_go (x : N) s :
  Z.of_N x <= two63 → leadingInt (pretty_N_go x s) 0 = leadingInt s (Z.of_N x).
Proof.
  intros Hx. apply (pretty_N_go_read (λ y, 0 <= y <= two63)); [| |lia].
  - intros d t y Hd Hy. cbn [leadingInt]. rewrite digit_of_pretty by done.
    rewrite (proj2 (Z.ltb_ge _ _)), (proj2 (Z.ltb_ge _ _)); [done|lia|].
    apply Z.div_le_lower_bound; lia.
  - intros y Hy. split; [apply Z.div_pos; lia|].
    transitivity y; [|lia]. apply Z.div_le_upper_bound; lia.
Qed.

(** The text of a number: digits, at least one. *)
Lemma pretty_shape (n : Z) :
  0 <= n → ∃ c s, pretty n = String c s ∧ is_Some (digit_of c) ∧
    ∀ t, pretty n +:+ t = (if n =? 0 then String "0" t else pretty_N_go (Z.to_N n) t).
Proof.
  intros Hn. destruct n as [|p|p]; [|clear Hn|lia].
  { exists "0"%char, "". split_and!; [done|by eexists|done]. }
  change (pretty (Zpos p)) with (pretty_N_go (Npos p) "").
  change (Z.to_N (Zpos p)) with (Npos p).
  assert (∀ (x : N) s t, pretty_N_go x s +:+ t = pretty_N_go x (s +:+ t)) as Happ.
  { intros x. induction (N.lt_wf_0 x) as [x _ IH]. intros s t.
    destruct (decide (x = 0%N)) as [->|Hne]; [done|]. rewrite (pretty_N_go_step x s), (pretty_N_go_step x (s +:+ t)) by lia.
    rewrite IH by (apply N.div_lt; lia). by rewrite string_app_cons. }
  assert (∀ (x : N) c s, is_Some (digit_of c) →
    ∃ c' s', pretty_N_go x (String c s) = String c' s' ∧ is_Some (digit_of c')) as Hc.
  { intros x. induction (N.lt_wf_0 x) as [x _ IH]. intros c s Hc.
    destruct (decide (x = 0%N)) as [->|Hne]; [by exists c, s|]. rewrite pretty_N_go_step by lia.
    apply IH; [apply N.div_lt; lia|]. rewrite digit_of_pretty by (apply N.mod_lt; lia). by eexists. }
  destruct (Hc (Npos p / 10)%N (pretty_N_char (Npos p `mod` 10)) "") as (c & s & E & Hd).
  { rewrite digit_of_pretty by (apply N.mod_lt; lia). by eexists. }
  exists c, s. split_and!; [by rewrite pretty_N_go_step by lia|done|].
  intros t. rewrite Happ. by rewrite string_app_nil_l.
Qed.

Lemma sign_of_digit c s :
  is_Some (digit_of c) → drop_sign (String c s) = (false, String c s).
Proof. intros [d Hd]. by destruct c as [[] [] [] [] [] [] [] []]. Qed.

Lemma Atoi_pretty n : 0 <= n < int64_half → Atoi (pretty n) = Some n.
Proof.
  intros Hn. destruct (pretty_shape n) as (c & s & E & [d Hd] & Hp); [lia|].
  assert (digits (pretty n) 0 = Some n) as Hdig.
  { rewrite <- (string_app_nil_r (pretty n)), Hp. destruct (Z.eqb_spec n 0) as [->|]; [done|].
    rewrite digits_pretty_go. simpl. f_equal. lia. }
  rewrite E in Hdig |- *.
  assert (Atoi (String c s) =
    z ← digits (String c s) 0;
    if (- int64_half <=? z) && (z <? int64_half) then Some z else None) as ->.
  { by destruct c as [[] [] [] [] [] [] [] []]. }
  rewrite Hdig. simpl.
  by rewrite (proj2 (Z.leb_le _ _)), (proj2 (Z.ltb_lt _ _)) by (unfold int64_half in *; lia).
Qed.

Lemma unitMap_inv u unit :
  unitMap u = Some unit →
  0 < unit ∧ ∃ c r, u = String c r ∧ digit_of c = None ∧ c ≠ "."%char ∧ span_unit u = (u, "").
Proof.
  unfold unitMap. repeat case_bool_decide; intros [= <-]; destruct_or?; subst;
    (split; [by vm_compute|]); do 2 eexists; by vm_compute.
Qed.

Lemma duration_group_unit n u unit :
  unitMap u = Some unit → 0 <= n → n * unit < two63 →
  duration_group (pretty n +:+ u) = Some (n * unit, "").
Proof.
  intros Hu Hn Hmax. destruct (unitMap_inv _ _ Hu) as (Hpos & c & r & Hcu & Hc & Hdot & Hspan).
  destruct (pretty_shape n Hn) as (c' & s & E & Hd & Hp).
  assert (leadingInt (pretty n +:+ u) 0 = Some (n, u)) as Hlead.
  { rewrite Hp. destruct (Z.eqb_spec n 0) as [->|].
    - subst u. cbn [leadingInt digit_of]. simpl. by rewrite Hc.
    - rewrite leadingInt_pretty_go by nia. subst u. cbn [leadingInt]. rewrite Hc. do 2 f_equal. lia. }
  unfold duration_group. rewrite Hlead. simpl.
  rewrite (bool_decide_eq_false_2 (u = _)); last first.
  { intros Heq%(f_equal String.length). rewrite E, string_app_cons in Heq.
    simpl in Heq. rewrite string_app_length in Heq. lia. }
  assert (∀ A (x : string → A) (y : A), match u with String "." s' => x s' | _ => y end = y) as Hnodot.
  { intros A x y. subst u. by destruct c as [[] [] [] [] [] [] [] []]. }
  rewrite Hnodot. simpl. rewrite Hspan, Hu. simpl.
  rewrite (proj2 (Z.ltb_ge _ _)) by (apply Z.div_le_lower_bound; lia).
  by rewrite (proj2 (Z.ltb_ge _ _)) by lia.
Qed.

Lemma ParseDuration_unit n u unit :
  unitMap u = Some unit → 0 <= n → n * unit < two63 → ParseDuration (pretty n +:+ u) = Some (n * unit).
Proof.
  intros Hu Hn Hmax. pose proof (duration_group_unit n u unit Hu Hn Hmax) as Hg.
  destruct (unitMap_inv _ _ Hu) as (Hpos & c & r & Hcu & _).
  destruct (pretty_shape n Hn) as (c' & s & E & Hd & _).
  rewrite E, string_app_cons in Hg |- *. unfold ParseDuration.
  rewrite sign_of_digit by done. cbn beta iota.
  rewrite bool_decide_eq_false_2, bool_decide_eq_false_2; [|done|].
  - cbn [String.length duration_loop]. rewrite Hg. simpl. unfold uint64_wrap. rewrite Z.mod_small by (unfold two63 in *; nia).
    rewrite (proj2 (Z.ltb_ge _ _)) by lia.
    destruct (String.length (s +:+ u)); simpl; by rewrite (proj2 (Z.ltb_ge _ _)) by lia.
  - intros [= _ Heq]. apply (f_equal String.length) in Heq. rewrite Hcu, string_app_length in Heq.
    simpl in Heq. lia.
Qed.

Lemma Atoi_unit n u unit : unitMap u = Some unit → 0 <= n → Atoi (pretty n +:+ u) = None.
Proof.
  intros Hu Hn. destruct (unitMap_inv _ _ Hu) as (_ & c & r & Hcu & Hc & _).
  destruct (pretty_shape n Hn) as (c' & s & E & [d Hd] & _).
  rewrite E, string_app_cons.
  assert (∀ t acc, digits (t +:+ u) acc = None) as Hdig.
  { intros t. induction t as [|e t IH]; intros acc.
    - rewrite Hcu. simpl. by rewrite Hc.
    - rewrite string_app_cons. simpl. destruct (digit_of e); [apply IH|done]. }
  assert (digits (String c' (s +:+ u)) 0 = None) as Hnone.
  { rewrite <- string_app_cons. apply Hdig. }
  assert (∀ b, Atoi (String c' b) =
    z ← digits (String c' b) 0;
    if (- int64_half <=? z) && (z <? int64_half) then Some z else None) as ->.
  { intros b. by destruct c' as [[] [] [] [] [] [] [] []]. }
  by rewrite Hnone.
Qed.

(** ** The loop over groups ends *)

Lemma leadingInt_length s x v r :
  leadingInt s x = Some (v, r) → (String.length r <= String.length s)%nat.
Proof.
  revert x. induction s as [|c s IH]; intros x; cbn [leadingInt]; [by intros [= _ <-]|].
  repeat case_match; intros E; simplify_eq; try done. apply IH in E. simpl. lia.
Qed.

Lemma leadingFraction_length s x scale o f scale' r :
  leadingFraction s x scale o = (f, scale', r) → (String.length r <= String.length s)%nat.
Proof.
  revert x scale o. induction s as [|c s IH]; intros x scale o; cbn [leadingFraction];
    [by intros [= _ _ <-]|].
  repeat case_match; intros E; simplify_eq; try done; apply IH in E; simpl; lia.
Qed.

Lemma span_unit_length s u r :
  span_unit s = (u, r) → (String.length u + String.length r = String.length s)%nat.
Proof.
  revert u r. induction s as [|c s IH]; intros u r; cbn [span_unit]; [by intros [= <- <-]|].
  case_match; [by intros [= <- <-]|]. destruct (span_unit s) as [u' r'].
  intros [= <- <-]. simpl. by rewrite (IH u' r').
Qed.

Lemma duration_group_length s v rest :
  duration_group s = Some (v, rest) → (String.length rest < String.length s)%nat.
Proof.
  unfold duration_group. intros ([v1 s1] & Hlead%leadingInt_length & Hg)%bind_Some.
  destruct (match s1 with String "." _ => _ | _ => _ end) as [[[f scale] s2] post] eqn:Hfrac.
  assert (String.length s2 <= String.length s1)%nat as H2.
  { clear Hg. repeat case_match; simplify_eq/=; try lia.
    match goal with E : leadingFraction _ _ _ _ = _ |- _ => apply leadingFraction_length in E end. lia. }
  clear Hfrac. case_match; [done|]. destruct (span_unit s2) as [u r] eqn:Hspan.
  apply span_unit_length in Hspan. apply bind_Some in Hg as (unit & Hunit & Hg).
  destruct (unitMap_inv _ _ Hunit) as (_ & c & r' & -> & _).
  repeat case_match; simplify_eq/=; lia.
Qed.

(** More fuel than bytes changes nothing: [None] is always the code's error. *)
Lemma duration_loop_fuel fuel1 fuel2 s d :
  (String.length s <= fuel1)%nat → (String.length s <= fuel2)%nat →
  duration_loop fuel1 s d = duration_loop fuel2 s d.
Proof.
  revert fuel2 s d. induction fuel1 as [|fuel1 IH]; intros [|fuel2] [|c s] d H1 H2;
    simpl in H1, H2; try done; try lia.
  cbn [duration_loop]. destruct (duration_group (String c s)) as [[v rest]|] eqn:Hg; [|done].
  apply duration_group_length in Hg. simpl in Hg |- *. case_match; [done|]. apply IH; lia.
Qed.

(** ** Numbers and durations, printed *)

(** [z / d] to the nearest integer, ties to even, for [z >= 0] and [d > 0]. *)
Definition div_even (z d : Z) : Z :=
  let q := z / d in
  let r := z `mod` d in
  if (d <? 2 * r) || ((2 * r =? d) && Z.odd q) then q + 1 else q.

(** Zeros in front, to [width] characters. *)
Definition pad_left (c : ascii) (width : nat) (s : string) : string :=
  String.concat "" (repeat (String c "") (width - String.length s)) +:+ s.

(** [%.{prec}f]: the exact value, rounded to the nearest decimal. *)
Definition Sprintf_f (prec : nat) (x : float64) : string :=
  match x with
  | S754_nan => "NaN"
  | S754_infinity s => if s then "-Inf" else "+Inf"
  | S754_zero s =>
      (if s then "-0" else "0") +:+ (if (prec =? 0)%nat then "" else "." +:+ pad_left "0" prec "")
  | S754_finite s m e =>
      let p := 10 ^ Z.of_nat prec in
      let q := if 0 <=? e then Zpos m * 2 ^ e * p else div_even (Zpos m * p) (2 ^ (- e)) in
      (if s then "-" else "") +:+ pretty (q / p) +:+
        (if (prec =? 0)%nat then "" else "." +:+ pad_left "0" prec (pretty (q `mod` p)))
  end.

(** The fraction [v / 10^prec] without trailing zeros, a point before it if there is
    one, and the integer part ([fmtFrac]). *)
Fixpoint fmtFrac (prec : nat) (v : Z) (print : bool) (acc : string) : string * Z :=
  match prec with
  | O => (if print then "." +:+ acc else acc, v)
  | Datatypes.S prec' =>
      let digit := v `mod` 10 in
      let print := print || negb (digit =? 0) in
      fmtFrac prec' (v / 10) print (if print then pretty digit +:+ acc else acc)
  end.

(** [Duration.String], for the durations above the least one. *)
Definition Duration_String (d : Z) : string :=
  let u := Z.abs d in
  let sign := if d <? 0 then "-" else "" in
  let small prec unit := let '(frac, v) := fmtFrac prec u false "" in sign +:+ pretty v +:+ frac +:+ unit in
  if u =? 0 then "0s"
  else if u <? 1000 then small 0%nat "ns"
  else if u <? 1000000 then small 3%nat (micro_sign 0xC2 0xB5)
  else if u <? Second then small 6%nat "ms"
  else
    let '(frac, v) := fmtFrac 9 u false "" in
    let secs := pretty (v `mod` 60) +:+ frac +:+ "s" in
    let m := v / 60 in
    if m =? 0 then sign +:+ secs
    else
      let mins := pretty (m `mod` 60) +:+ "m" +:+ secs in
      let h := m / 60 in
      if h =? 0 then sign +:+ mins else sign +:+ pretty h +:+ "h" +:+ mins.

Example printed :
  Sprintf_f 1 (f_of_ratio false 200 3) = "66.7" ∧ Sprintf_f 2 (f_of_Z 100) = "100.00" ∧
  Sprintf_f 1 (f_of_ratio false 1 4) = "0.2" ∧ Sprintf_f 1 S754_nan = "NaN" ∧ Sprintf_f 1 f_zero = "0.0" ∧
  Duration_String 1500000 = "1.5ms" ∧ Duration_String 0 = "0s" ∧ Duration_String 999 = "999ns" ∧
  Duration_String (90 * Second + 20000000) = "1m30.02s" ∧ Duration_String (- 3600 * Second) = "-1h0m0s" ∧
  ParseDuration (Duration_String 1234567890123) = Some 1234567890123.
Proof. vm_compute. done. Qed.
