(* ===== verification/Gacha.v ===== *)
(** * Gacha domain: cards, pools, the weighted draw, the static registry

    Models [internal/domain/gacha] and [internal/service/gacha/pool_data.go].
    The random generator is a state [G] with a function [IntN n g] that returns
    a draw and the next state: [math/rand/v2]'s [Rand.IntN] behind the service's
    mutex. *)

From S2P Require Import GoLang.

(** ** Data *)

(** [type Rarity string]. *)
Definition Rarity : Type := string.
Definition RarityR : Rarity := "R".
Definition RaritySR : Rarity := "SR".
Definition RaritySSR : Rarity := "SSR".

#[export] Instance Rarity_eq_dec : EqDecision Rarity := String.eq_dec.

Definition Rarity_IsValid (r : Rarity) : bool :=
  bool_decide (r = RarityR) || bool_decide (r = RaritySR) || bool_decide (r = RaritySSR).

Record Card := {
  Card_ID : string;
  Card_Name : string;
  Card_Rarity : Rarity;
  Card_Weight : Z }.

(** [Card{}]. *)
Definition zeroCard : Card :=
  {| Card_ID := ""; Card_Name := ""; Card_Rarity := ""; Card_Weight := 0 |}.

Record Pool := {
  Pool_ID : string;
  Pool_Name : string;
  PityThreshold : Z;
  Cards : list Card }.

Record Roll := {
  Roll_ID : string;
  Roll_PlayerID : string;
  Roll_PoolID : string;
  Roll_CardID : string;
  Roll_Rarity : Rarity;
  Roll_IsPity : bool;
  Roll_PulledAt : time }.

#[export] Instance Card_eq_dec : EqDecision Card.
Proof. solve_decision. Defined.
#[export] Instance Roll_eq_dec : EqDecision Roll.
Proof. solve_decision. Defined.

Definition gacha_ErrPoolNotFound : error :=
  ErrorsNew "gacha.ErrPoolNotFound" "gacha pool not found".
Definition gacha_ErrInvalidCount : error :=
  ErrorsNew "gacha.ErrInvalidCount" "invalid roll count (must be 1..10)".
Definition gacha_ErrEmptyPool : error :=
  ErrorsNew "gacha.ErrEmptyPool" "gacha pool has no cards".

(** ** The weighted draw *)

(** [type RandIntN func(n int) int], with the generator's state made explicit. *)
Definition RandIntN (G : Type) : Type := Z → G → Z * G.

(** [total := 0; for _, c := range cards { total += c.Weight }]. *)
Definition total_weight (cards : list Card) : Z :=
  foldl (λ total c, total [+] Card_Weight c) 0 cards.

(** The selecting loop: the first card at which the accumulated weight exceeds
    [pick]. *)
Fixpoint pick_loop (pick acc : Z) (cards : list Card) : option Card :=
  match cards with
  | [] => None
  | c :: cards' =>
      let acc' := acc [+] Card_Weight c in
      if pick <? acc' then Some c else pick_loop pick acc' cards'
  end.

Definition WeightedPick {G} (rngInt : RandIntN G) (cards : list Card) (g : G) : Card * G :=
  match cards with
  | [] => (zeroCard, g)
  | _ =>
      let total := total_weight cards in
      if total <=? 0 then (zeroCard, g)
      else
        let '(pick, g') := rngInt total g in
        (default (last_or zeroCard cards) (pick_loop pick 0 cards), g')
  end.

Definition FilterByRarity (cards : list Card) (rarity : Rarity) : list Card :=
  foldl (λ out c, if bool_decide (Card_Rarity c = rarity) then out ++ [c] else out) [] cards.

(** ** The static pool registry *)

Definition DemoPoolID : string := "demo".

Definition demo_pool : Pool := {|
  Pool_ID := DemoPoolID;
  Pool_Name := "Demo Pool";
  PityThreshold := 80;
  Cards := [
    {| Card_ID := "c_miku_ssr"; Card_Name := "Miku SSR"; Card_Rarity := RaritySSR; Card_Weight := 10 |};
    {| Card_ID := "c_rin_ssr"; Card_Name := "Rin SSR"; Card_Rarity := RaritySSR; Card_Weight := 10 |};
    {| Card_ID := "c_len_ssr"; Card_Name := "Len SSR"; Card_Rarity := RaritySSR; Card_Weight := 10 |};
    {| Card_ID := "c_miku_sr"; Card_Name := "Miku SR"; Card_Rarity := RaritySR; Card_Weight := 50 |};
    {| Card_ID := "c_rin_sr"; Card_Name := "Rin SR"; Card_Rarity := RaritySR; Card_Weight := 50 |};
    {| Card_ID := "c_len_sr"; Card_Name := "Len SR"; Card_Rarity := RaritySR; Card_Weight := 70 |};
    {| Card_ID := "c_basic_a"; Card_Name := "Basic A"; Card_Rarity := RarityR; Card_Weight := 300 |};
    {| Card_ID := "c_basic_b"; Card_Name := "Basic B"; Card_Rarity := RarityR; Card_Weight := 300 |};
    {| Card_ID := "c_basic_c"; Card_Name := "Basic C"; Card_Rarity := RarityR; Card_Weight := 200 |} ] |}.

(** [type StaticPoolRegistry struct { pools map[string]*domain.Pool }]. *)
Record StaticPoolRegistry := { pools : gmap string Pool }.

Definition NewStaticPoolRegistry : StaticPoolRegistry :=
  {| pools := {[ DemoPoolID := demo_pool ]} |}.

Definition StaticPoolRegistry_GetPool (r : StaticPoolRegistry) (poolID : string) : result Pool :=
  match pools r !! poolID with
  | None => Err gacha_ErrPoolNotFound
  | Some p => Ok p
  end.

(** ** Facts on weights *)

(** The sum of the weights, in unbounded integers. *)
Fixpoint weight_sum (cards : list Card) : Z :=
  match cards with
  | [] => 0
  | c :: cards' => Card_Weight c + weight_sum cards'
  end.

(** The weight a card has in a list: the sum over its occurrences. *)
Fixpoint weight_of (x : Card) (cards : list Card) : Z :=
  match cards with
  | [] => 0
  | c :: cards' => (if decide (c = x) then Card_Weight c else 0) + weight_of x cards'
  end.

(** No negative weight, and a total that fits the machine integer. *)
Definition weights_ok (cards : list Card) : Prop :=
  Forall (λ c, 0 <= Card_Weight c) cards ∧ weight_sum cards < int64_half.

(** A pool that can be drawn from, SSR cards included. *)
Definition pool_ok (p : Pool) : Prop :=
  weights_ok (Cards p) ∧
  0 < weight_sum (filter (λ c, Card_Rarity c = RaritySSR) (Cards p)) ∧
  0 < PityThreshold p < int64_half.

(** [rng.IntN n] draws from [0..n-1]: the contract of [math/rand/v2]. *)
Definition IntN_in_range {G} (IntN : RandIntN G) : Prop :=
  ∀ n g, 0 < n → 0 <= (IntN n g).1 < n.

Section weights.
Implicit Types (cards : list Card).

Lemma weight_sum_nonneg cards :
  Forall (λ c, 0 <= Card_Weight c) cards → 0 <= weight_sum cards.
Proof. induction 1; simpl; lia. Qed.

Lemma weight_sum_filter_le (P : Card → Prop) `{∀ c, Decision (P c)} cards :
  Forall (λ c, 0 <= Card_Weight c) cards →
  weight_sum (filter P cards) <= weight_sum cards.
Proof.
  induction 1 as [|c cards Hc _ IH]; [done|].
  destruct (decide (P c)).
  - rewrite filter_cons_True by done. simpl. lia.
  - rewrite filter_cons_False by done. simpl. lia.
Qed.

Lemma weights_ok_filter (P : Card → Prop) `{∀ c, Decision (P c)} cards :
  weights_ok cards → weights_ok (filter P cards).
Proof.
  intros [Hpos Hsum]. split.
  - by apply Forall_filter_keep.
  - pose proof (weight_sum_filter_le P cards Hpos). lia.
Qed.

Lemma total_weight_from cards acc :
  0 <= acc → Forall (λ c, 0 <= Card_Weight c) cards → acc + weight_sum cards < int64_half →
  foldl (λ total c, total [+] Card_Weight c) acc cards = acc + weight_sum cards.
Proof.
  intros Hacc Hpos. revert acc Hacc.
  induction Hpos as [|c cards Hc Hpos IH]; intros acc Hacc Hsum; simpl in *; [lia|].
  pose proof (weight_sum_nonneg _ Hpos).
  rewrite int_add_small by int_range. rewrite IH by lia. lia.
Qed.

Lemma total_weight_exact cards : weights_ok cards → total_weight cards = weight_sum cards.
Proof. intros [Hpos Hsum]. unfold total_weight.
  rewrite total_weight_from by (done || lia). lia. Qed.

(** A draw inside the accumulated range selects a card of positive weight. *)
Lemma pick_loop_found pick acc cards :
  0 <= acc → Forall (λ c, 0 <= Card_Weight c) cards → acc + weight_sum cards < int64_half →
  acc <= pick < acc + weight_sum cards →
  ∃ c, pick_loop pick acc cards = Some c ∧ c ∈ cards ∧ 0 < Card_Weight c.
Proof.
  intros Hacc Hpos. revert acc Hacc.
  induction Hpos as [|c cards Hc Hpos IH]; intros acc Hacc Hsum Hpick; simpl in *; [lia|].
  pose proof (weight_sum_nonneg _ Hpos).
  rewrite int_add_small by int_range.
  destruct (Z.ltb_spec pick (acc + Card_Weight c)).
  - exists c. split; [done|]. split; [by left|lia].
  - destruct (IH (acc + Card_Weight c)) as (d & ? & ? & ?); [lia..|].
    exists d. split; [done|]. split; [by right|done].
Qed.

(** The draws that select [x] are as many as the weight of [x]. *)
Lemma pick_loop_count x acc cards :
  0 <= acc → Forall (λ c, 0 <= Card_Weight c) cards → acc + weight_sum cards < int64_half →
  Z.of_nat (count (λ r, pick_loop r acc cards = Some x) (seqZ acc (weight_sum cards)))
  = weight_of x cards.
Proof.
  intros Hacc Hpos. revert acc Hacc.
  induction Hpos as [|c cards Hc Hpos IH]; intros acc Hacc Hsum; simpl in *; [done|].
  pose proof (weight_sum_nonneg _ Hpos).
  rewrite seqZ_app by done. rewrite count_app, Nat2Z.inj_add.
  rewrite int_add_small by int_range.
  f_equal.
  - destruct (decide (c = x)) as [->|Hne].
    + rewrite count_all; [by rewrite length_seqZ; lia|].
      apply Forall_forall. intros r [??]%elem_of_seqZ.
      by rewrite (proj2 (Z.ltb_lt _ _)) by lia.
    + rewrite count_none; [done|].
      apply Forall_forall. intros r [??]%elem_of_seqZ.
      rewrite (proj2 (Z.ltb_lt _ _)) by lia. congruence.
  - rewrite <- (IH (acc + Card_Weight c)) by lia. f_equal. apply count_ext.
    apply Forall_forall. intros r [??]%elem_of_seqZ.
    by rewrite (proj2 (Z.ltb_ge _ _)) by lia.
Qed.

Lemma FilterByRarity_filter cards rarity :
  FilterByRarity cards rarity = filter (λ c, Card_Rarity c = rarity) cards.
Proof.
  unfold FilterByRarity.
  enough (H : ∀ out, foldl (λ out c, if bool_decide (Card_Rarity c = rarity)
      then out ++ [c] else out) out cards
    = out ++ filter (λ c, Card_Rarity c = rarity) cards) by apply (H []).
  induction cards as [|c cards IH]; intros out; simpl; [by rewrite app_nil_r|].
  case_bool_decide; rewrite IH.
  - by rewrite filter_cons_True, <- app_assoc by done.
  - by rewrite filter_cons_False by done.
Qed.
End weights.

Section weighted_pick.
Context {G : Type} (IntN : RandIntN G).

Lemma WeightedPick_unfold cards g :
  weights_ok cards → 0 < weight_sum cards →
  WeightedPick IntN cards g =
    (default (last_or zeroCard cards) (pick_loop (IntN (weight_sum cards) g).1 0 cards),
     (IntN (weight_sum cards) g).2).
Proof.
  intros Hok Hpos. destruct cards as [|c cards]; [simpl in Hpos; lia|].
  unfold WeightedPick. rewrite total_weight_exact by done.
  rewrite (proj2 (Z.leb_gt _ _)) by done. by destruct (IntN _ g).
Qed.

(** The draw always yields a card of the list, of positive weight. *)
Lemma WeightedPick_in cards g :
  IntN_in_range IntN → weights_ok cards → 0 < weight_sum cards →
  (WeightedPick IntN cards g).1 ∈ cards ∧ 0 < Card_Weight (WeightedPick IntN cards g).1.
Proof.
  intros Hrng Hok Hpos. rewrite WeightedPick_unfold by done. simpl.
  destruct (pick_loop_found (IntN (weight_sum cards) g).1 0 cards) as (c & -> & ? & ?).
  - lia.
  - apply Hok.
  - destruct Hok. lia.
  - specialize (Hrng (weight_sum cards) g Hpos). lia.
  - done.
Qed.
End weighted_pick.

(** A generator whose next draw is [r]. *)
Definition draw (r : Z) : RandIntN unit := λ _ _, (r, tt).

(** C23. Over the equally likely draws [0 .. total-1] of the generator, the
    number that make [WeightedPick] return a card is exactly the weight of that
    card in the list: a card is drawn with probability weight / total, and the
    final safety net of the loop is never what decides. *)
Theorem WeightedPick_distribution cards x :
  weights_ok cards → 0 < weight_sum cards →
  Z.of_nat (count (λ r, (WeightedPick (draw r) cards tt).1 = x) (seqZ 0 (weight_sum cards)))
  = weight_of x cards.
Proof.
  intros Hok Hpos. rewrite <- (pick_loop_count x 0 cards) by (destruct Hok; done || lia).
  f_equal. apply count_ext, Forall_forall. intros r [??]%elem_of_seqZ.
  rewrite WeightedPick_unfold by done. simpl.
  destruct (pick_loop_found r 0 cards) as (c & -> & _ & _);
    [by destruct Hok|by destruct Hok|by destruct Hok|lia|].
  simpl. naive_solver.
Qed.

Lemma WeightedPick_distribution_witness :
  Z.of_nat (count (λ r, (WeightedPick (draw r) (Cards demo_pool) tt).1 =
      {| Card_ID := "c_len_sr"; Card_Name := "Len SR"; Card_Rarity := RaritySR; Card_Weight := 70 |})
    (seqZ 0 (weight_sum (Cards demo_pool)))) = 70.
Proof.
  apply (WeightedPick_distribution (Cards demo_pool)
    {| Card_ID := "c_len_sr"; Card_Name := "Len SR"; Card_Rarity := RaritySR; Card_Weight := 70 |}).
  - split; [|reflexivity]. repeat constructor; simpl; lia.
  - reflexivity.
Defined.

(** Weight of a rarity in a list of cards. *)
Definition rarity_weight (rarity : Rarity) (cards : list Card) : Z :=
  weight_sum (FilterByRarity cards rarity).

(** Every pool the static registry serves can be drawn from (no negative or
    overflowing weight, an SSR card to grant), has an identifier without the
    key separator, and its odds are 3% SSR, 17% SR and 80% R with a ceiling of
    80 rolls, as the registry's comment announces. *)
Theorem StaticPoolRegistry_sound poolID pool :
  StaticPoolRegistry_GetPool NewStaticPoolRegistry poolID = Ok pool →
  pool_ok pool ∧ poolID = Pool_ID pool ∧ has_char "/" poolID = false ∧
  weight_sum (Cards pool) = 1000 ∧ rarity_weight RaritySSR (Cards pool) = 30 ∧
  rarity_weight RaritySR (Cards pool) = 170 ∧ rarity_weight RarityR (Cards pool) = 800 ∧
  PityThreshold pool = 80 ∧ Forall (λ c, Rarity_IsValid (Card_Rarity c) = true) (Cards pool).
Proof.
  unfold StaticPoolRegistry_GetPool, NewStaticPoolRegistry. simpl.
  destruct (decide (poolID = DemoPoolID)) as [->|Hne].
  - rewrite lookup_singleton_eq. intros [= <-].
    repeat split; repeat constructor; simpl; lia.
  - by rewrite lookup_singleton_ne.
Qed.

Lemma StaticPoolRegistry_sound_witness :
  StaticPoolRegistry_GetPool NewStaticPoolRegistry "demo" = Ok demo_pool ∧ pool_ok demo_pool.
Proof.
  assert (H : StaticPoolRegistry_GetPool NewStaticPoolRegistry "demo" = Ok demo_pool)
    by reflexivity.
  split; [exact H|]. exact (proj1 (StaticPoolRegistry_sound "demo" demo_pool H)).
Defined.
