(* ===== verification/GachaService.v ===== *)
(** * Gacha service: rolling with a pity ceiling, and its repository

    Models [internal/service/gacha/service.go] against the repository interface
    it declares ([GachaRepository], with the laws its comments promise) and the
    in-memory implementation [internal/persistence/inmem/gacha_repo.go], which
    is shown to satisfy the laws. *)

From S2P Require Import GoLang Gacha.

(** ** The repository interface *)

Class GachaRepository (S : Type) := {
  GetPity : string → string → M S Z;
  InsertRollsAndUpdatePity : list Roll → string → string → Z → M S unit;
  ListRollsByPlayer : string → Z → M S (list Roll) }.

(** The most recent [limit] rolls of a player, newest first. *)
Definition latest_rolls (playerID : string) (limit : Z) (rolls : list Roll) : list Roll :=
  take (Z.to_nat limit) (reverse (filter (λ r, Roll_PlayerID r = playerID) rolls)).

(** *** What an implementation promises

    A ledger is a repository described by the history [rolls_of] and the counters
    [pity_of] it stores. Two identifiers mean the same player or pool when
    [canon] agrees on them; [stored] is what a roll reads as once it is written;
    counters below [counter_max] can be held. *)
Class GachaStore (S : Type) := {
  rolls_of : S → list Roll;
  pity_of : S → string → string → Z;
  canon : string → string;
  stored : Roll → Roll;
  counter_max : Z }.

Section ledger.
Context {S : Type} `{!GachaStore S}.

(** The store reads as before. *)
Definition unchanged (s s' : S) : Prop :=
  rolls_of s' = rolls_of s ∧ ∀ p q, pity_of s' p q = pity_of s p q.

(** The rolls are appended and the one counter is set. Counters of pools without
    the separator in their identifier are independent. *)
Definition inserted (rolls : list Roll) (p q : string) (n : Z) (s s' : S) : Prop :=
  rolls_of s' = rolls_of s ++ (stored <$> rolls) ∧ pity_of s' p q = n ∧
  ∀ p' q', has_char "/" q = false → has_char "/" q' = false →
    (canon p', canon q') ≠ (canon p, canon q) → pity_of s' p' q' = pity_of s p' q'.

#[export] Instance unchanged_refl : Reflexive unchanged.
Proof. by split. Qed.

#[export] Instance unchanged_trans : Transitive unchanged.
Proof. intros s1 s2 s3 [E1 P1] [E2 P2]. split; [congruence|]. intros p q. by rewrite P2. Qed.

Lemma unchanged_inserted rolls p q n s s1 s' :
  unchanged s s1 → inserted rolls p q n s1 s' → inserted rolls p q n s s'.
Proof.
  intros [E P] (E' & Hn & Hf). split_and!; [by rewrite E', E|done|].
  intros p' q' ???. by rewrite Hf, P.
Qed.
End ledger.

(** Reads do not write; a successful write is made as a whole, a failed one as a
    whole or not at all. *)
Class GachaLedger (S : Type) `{!GachaRepository S, !GachaStore S} := {
  stored_same : ∀ r : Roll,
    Roll_PlayerID (stored r) = Roll_PlayerID r ∧ Roll_PoolID (stored r) = Roll_PoolID r ∧
    Roll_CardID (stored r) = Roll_CardID r ∧ Roll_Rarity (stored r) = Roll_Rarity r ∧
    Roll_IsPity (stored r) = Roll_IsPity r;
  pity_canon : ∀ (s : S) p q p' q',
    canon p = canon p' → canon q = canon q' → pity_of s p q = pity_of s p' q';
  GetPity_reads : ∀ p q s, unchanged s (GetPity p q s).2;
  GetPity_value : ∀ p q s v s', GetPity p q s = (Ok v, s') → v = pity_of s p q;
  ListRollsByPlayer_reads : ∀ p n s, unchanged s (ListRollsByPlayer p n s).2;
  Insert_ok : ∀ rolls p q n s s',
    0 <= n < counter_max →
    InsertRollsAndUpdatePity rolls p q n s = (Ok tt, s') → inserted rolls p q n s s';
  Insert_err : ∀ rolls p q n s s' r,
    0 <= n < counter_max →
    InsertRollsAndUpdatePity rolls p q n s = (r, s') → r ≠ Ok tt →
    unchanged s s' ∨ inserted rolls p q n s s' }.

(** What the in-memory repository promises beyond that: identifiers are compared
    byte by byte, rolls read back as they were and in the order they were
    written. *)
Class GachaRepositoryLaws (S : Type) `{!GachaRepository S, !GachaStore S} := {
  gacha_ledger :: GachaLedger S;
  canon_id : ∀ p, canon p = p;
  stored_id : ∀ r, stored r = r;
  GetPity_state : ∀ p q s, (GetPity p q s).2 = s;
  ListRollsByPlayer_state : ∀ p n s, (ListRollsByPlayer p n s).2 = s;
  ListRollsByPlayer_value : ∀ p n s l s',
    0 <= n → ListRollsByPlayer p n s = (Ok l, s') → l = latest_rolls p n (rolls_of s) }.

(** ** The in-memory repository *)

Record GachaRepo := { gr_rolls : list Roll; gr_pity : gmap string Z }.

Definition NewGachaRepo : GachaRepo := {| gr_rolls := []; gr_pity := ∅ |}.

Definition pityKey (playerID poolID : string) : string := playerID +:+ "/" +:+ poolID.

Definition GachaRepo_GetPity (playerID poolID : string) : M GachaRepo Z := λ r,
  (Ok (default 0 (gr_pity r !! pityKey playerID poolID)), r).

Definition GachaRepo_InsertRollsAndUpdatePity
    (rolls : list Roll) (playerID poolID : string) (newCounter : Z) : M GachaRepo unit := λ r,
  (Ok tt, {| gr_rolls := gr_rolls r ++ rolls;
             gr_pity := <[pityKey playerID poolID := newCounter]> (gr_pity r) |}).

(** The backwards loop [for i := len(rolls)-1; i >= 0 && len(out) < limit; i--]
    over the rolls listed from the last. *)
Fixpoint list_rolls_loop (playerID : string) (limit : Z) (rest out : list Roll) : list Roll :=
  match rest with
  | [] => out
  | r :: rest' =>
      if Z.of_nat (length out) <? limit
      then list_rolls_loop playerID limit rest'
             (if bool_decide (Roll_PlayerID r = playerID) then out ++ [r] else out)
      else out
  end.

(** [make([]*domain.Roll, 0, limit)] panics on a negative capacity. *)
Definition GachaRepo_ListRollsByPlayer (playerID : string) (limit : Z) : M GachaRepo (list Roll) :=
  λ r,
    if limit <? 0 then (Panic "makeslice: cap out of range", r)
    else (Ok (list_rolls_loop playerID limit (reverse (gr_rolls r)) []), r).

#[export] Instance inmem_GachaRepository : GachaRepository GachaRepo := {|
  GetPity := GachaRepo_GetPity;
  InsertRollsAndUpdatePity := GachaRepo_InsertRollsAndUpdatePity;
  ListRollsByPlayer := GachaRepo_ListRollsByPlayer |}.

Lemma pityKey_inj p q p' q' :
  has_char "/" q = false → has_char "/" q' = false →
  pityKey p q = pityKey p' q' → p = p' ∧ q = q'.
Proof. apply string_sep_inj_r. Qed.

Lemma list_rolls_loop_spec playerID limit rest out :
  Z.of_nat (length out) <= limit →
  list_rolls_loop playerID limit rest out =
  take (Z.to_nat limit) (out ++ filter (λ r, Roll_PlayerID r = playerID) rest).
Proof.
  revert out. induction rest as [|r rest IH]; intros out Hlen; cbn [list_rolls_loop].
  - rewrite app_nil_r, take_ge; [done|lia].
  - destruct (Z.ltb_spec (Z.of_nat (length out)) limit).
    + case_bool_decide.
      * rewrite IH by (rewrite length_app; simpl; lia).
        by rewrite filter_cons_True, <- app_assoc by done.
      * rewrite IH by lia. by rewrite filter_cons_False by done.
    + rewrite take_app_le, take_ge by lia. done.
Qed.

#[export] Instance inmem_GachaStore : GachaStore GachaRepo := {|
  rolls_of := gr_rolls;
  pity_of s p q := default 0 (gr_pity s !! pityKey p q);
  canon p := p;
  stored r := r;
  counter_max := int64_half |}.

Lemma ListRollsByPlayer_inmem p n (s : GachaRepo) : (GachaRepo_ListRollsByPlayer p n s).2 = s.
Proof. unfold GachaRepo_ListRollsByPlayer. by destruct (n <? 0). Qed.

#[export] Program Instance inmem_GachaLedger : GachaLedger GachaRepo.
Next Obligation. done. Qed.
Next Obligation. intros s p q p' q' Hp Hq. simpl in *. by subst. Qed.
Next Obligation. done. Qed.
Next Obligation. intros p q s v s' [= <- <-]. done. Qed.
Next Obligation. intros p n s. simpl. by rewrite ListRollsByPlayer_inmem. Qed.
Next Obligation.
  intros rolls p q n s s' _ [= <-]. unfold inserted. simpl. rewrite list_fmap_id.
  split_and!; [done|by rewrite lookup_insert_eq|].
  intros p' q' Hq Hq' Hne. rewrite lookup_insert_ne; [done|]. intros [-> ->]%pityKey_inj; done.
Qed.
Next Obligation. intros rolls p q n s s' r _ [= <- <-] Hne. done. Qed.

#[export] Program Instance inmem_GachaRepositoryLaws : GachaRepositoryLaws GachaRepo.
Next Obligation. done. Qed.
Next Obligation. done. Qed.
Next Obligation. done. Qed.
Next Obligation. intros p n s. apply ListRollsByPlayer_inmem. Qed.
Next Obligation.
  intros p n s l s' Hn. simpl. unfold GachaRepo_ListRollsByPlayer.
  rewrite (proj2 (Z.ltb_ge _ _)) by done. intros [= <- <-].
  rewrite list_rolls_loop_spec by (simpl; lia).
  unfold latest_rolls. by rewrite app_nil_l, filter_reverse.
Qed.

(** ** The service *)

Section service.
Context {S : Type} `{!GachaRepository S}.
(** The generator's state and the identifier source's state. *)
Context {G U : Type}.
Context (IntN : RandIntN G) (NewV7 : M U string) (GetPool : string → result Pool).

(** What a service instance owns: repository, generator, identifier source. *)
Abbreviation world := (S * (G * U))%type.

(** One iteration of the rolling loop up to the card: the card, whether it was
    granted by the ceiling, and the counter after it. *)
Definition roll_card (pool : Pool) (pity : Z) (g : G) : Card * bool * Z * G :=
  let pity := pity [+] 1 in
  if (0 <? PityThreshold pool) && (PityThreshold pool <=? pity) then
    let ssrCards := FilterByRarity (Cards pool) RaritySSR in
    if bool_decide (ssrCards = []) then
      let '(card, g') := WeightedPick IntN (Cards pool) g in (card, false, 0, g')
    else
      let '(card, g') := WeightedPick IntN ssrCards g in (card, true, 0, g')
  else
    let '(card, g') := WeightedPick IntN (Cards pool) g in
    (card, false, if bool_decide (Card_Rarity card = RaritySSR) then 0 else pity, g').

(** The loop [for i := 0; i < count; i++], [n] iterations to go. *)
Fixpoint roll_loop (n : nat) (pool : Pool) (playerID poolID : string) (now : time)
    (pity : Z) (rolls : list Roll) : M (G * U) (list Roll * Z) :=
  match n with
  | O => mret (rolls, pity)
  | Datatypes.S n' => λ '(g, u),
      let '(card, isPity, pity', g') := roll_card pool pity g in
      match wrapErr "uuid.NewV7" NewV7 u with
      | (Ok id, u') =>
          roll_loop n' pool playerID poolID now pity'
            (rolls ++ [{| Roll_ID := id; Roll_PlayerID := playerID; Roll_PoolID := poolID;
                          Roll_CardID := Card_ID card; Roll_Rarity := Card_Rarity card;
                          Roll_IsPity := isPity; Roll_PulledAt := now |}]) (g', u')
      | (Err e, u') => (Err e, (g', u'))
      | (Panic w, u') => (Panic w, (g', u'))
      end
  end.

(** [Service.Roll]; [now] is the reading of [s.now()] the call makes. *)
Definition GachaService_Roll (now : time) (playerID poolID : string) (count : Z)
    : M world (list Roll) :=
  if (count <? 1) || (10 <? count) then fail gacha_ErrInvalidCount
  else
    pool ← wrapErr "pools.GetPool" (lift (GetPool poolID));
    if bool_decide (Cards pool = []) then fail gacha_ErrEmptyPool
    else
      pity ← on_fst (wrapErr "repo.GetPity" (GetPity playerID poolID));
      '(rolls, pity') ← on_snd (roll_loop (Z.to_nat count) pool playerID poolID now pity []);
      _ ← on_fst (wrapErr "repo.InsertRollsAndUpdatePity"
                    (InsertRollsAndUpdatePity rolls playerID poolID pity'));
      mret rolls.

(** [Service.ListHistory]. *)
Definition GachaService_ListHistory (playerID : string) (limit : Z) : M world (list Roll) :=
  let limit := if limit <? 1 then 10 else limit in
  let limit := if 100 <? limit then 100 else limit in
  on_fst (wrapErr "repo.ListRollsByPlayer" (ListRollsByPlayer playerID limit)).

(** [Service.GetPity]. *)
Definition GachaService_GetPity (playerID poolID : string) : M world Z :=
  on_fst (wrapErr "repo.GetPity" (GetPity playerID poolID)).
End service.

(** ** Specification: histories and the pity ceiling *)

(** A player's rolls on a pool, oldest first, for identifiers compared up to
    [canon]. *)
Definition history (canon : string → string) (playerID poolID : string) (rolls : list Roll)
    : list Roll :=
  filter (λ r, canon (Roll_PlayerID r) = canon playerID ∧ canon (Roll_PoolID r) = canon poolID) rolls.

(** Number of rolls since the last SSR. *)
Definition drought (h : list Roll) : Z :=
  foldl (λ n r, if decide (Roll_Rarity r = RaritySSR) then 0 else n + 1) 0 h.

(** Every roll of the history is flagged as a ceiling roll exactly when it is
    the [thr]-th since the last SSR, and no roll leaves a drought of [thr]. *)
Definition ceiling_ok (thr : Z) (h : list Roll) : Prop :=
  ∀ h1 r h2, h = h1 ++ r :: h2 →
    (Roll_IsPity r = true ↔ drought h1 + 1 = thr) ∧ drought (h1 ++ [r]) < thr.

Section histories.
Implicit Types (h : list Roll).

Lemma history_app canon p q l1 l2 :
  history canon p q (l1 ++ l2) = history canon p q l1 ++ history canon p q l2.
Proof. apply filter_app. Qed.

Lemma history_own canon p q l :
  Forall (λ r, Roll_PlayerID r = p ∧ Roll_PoolID r = q) l → history canon p q l = l.
Proof. intros Hl. apply filter_all_true, (Forall_impl _ _ _ Hl). by intros r [-> ->]. Qed.

Lemma history_other canon p q p' q' l :
  (canon p', canon q') ≠ (canon p, canon q) →
  Forall (λ r, Roll_PlayerID r = p ∧ Roll_PoolID r = q) l → history canon p' q' l = [].
Proof.
  intros Hne Hl. apply filter_all_false. apply (Forall_impl _ _ _ Hl).
  intros r [-> ->] [E1 E2]. apply Hne. by rewrite E1, E2.
Qed.

Lemma drought_snoc h r :
  drought (h ++ [r]) = if decide (Roll_Rarity r = RaritySSR) then 0 else drought h + 1.
Proof. unfold drought. by rewrite foldl_app. Qed.

Lemma drought_nonneg h : 0 <= drought h.
Proof.
  induction h as [|r h IH] using rev_ind; [done|].
  rewrite drought_snoc. case_decide; lia.
Qed.

Lemma drought_window h w :
  Forall (λ r, Roll_Rarity r ≠ RaritySSR) w → Z.of_nat (length w) <= drought (h ++ w).
Proof.
  induction w as [|r w IH] using rev_ind; intros Hw; simpl; [apply drought_nonneg|].
  apply Forall_app in Hw as [Hw [Hr _]%Forall_cons].
  rewrite app_assoc, drought_snoc, decide_False, length_app by done.
  specialize (IH Hw). simpl. lia.
Qed.

Lemma ceiling_ok_nil thr : ceiling_ok thr [].
Proof. intros h1 r h2 H. by apply app_cons_not_nil in H. Qed.

Lemma ceiling_ok_snoc thr h r :
  ceiling_ok thr h → (Roll_IsPity r = true ↔ drought h + 1 = thr) →
  drought (h ++ [r]) < thr → ceiling_ok thr (h ++ [r]).
Proof.
  intros Hh Hflag Hlt h1 r' h2 Heq.
  destruct h2 as [|r2 h2 _] using rev_ind.
  - by apply app_inj_tail in Heq as [-> ->].
  - rewrite app_comm_cons, app_assoc in Heq.
    apply app_inj_tail in Heq as [-> _]. by apply (Hh h1 r' h2).
Qed.

Lemma ceiling_ok_window thr h l1 w l2 :
  ceiling_ok thr h → h = l1 ++ w ++ l2 → 0 < thr → Z.of_nat (length w) = thr →
  ∃ r, r ∈ w ∧ Roll_Rarity r = RaritySSR.
Proof.
  intros Hok Heq Hthr Hlen.
  destruct (decide (Exists (λ r, Roll_Rarity r = RaritySSR) w)) as [?%Exists_exists|Hno];
    [naive_solver|exfalso].
  rewrite <- Forall_Exists_neg in Hno.
  destruct w as [|r w _] using rev_ind; [simpl in Hlen; lia|].
  pose proof (drought_window l1 _ Hno) as Hd.
  destruct (Hok (l1 ++ w) r l2) as [_ Hlt]; [by rewrite Heq, <- !app_assoc|].
  rewrite <- app_assoc in Hlt. lia.
Qed.
End histories.

(** What a successful call records for a player, a pool and an instant. *)
Definition recorded (pool : Pool) (p q : string) (now : time) (r : Roll) : Prop :=
  (Roll_PlayerID r = p ∧ Roll_PoolID r = q) ∧ Roll_PulledAt r = now ∧
  ∃ c, c ∈ Cards pool ∧ 0 < Card_Weight c ∧
       Roll_CardID r = Card_ID c ∧ Roll_Rarity r = Card_Rarity c.

Section rolling.
Context {G U : Type} (IntN : RandIntN G) (NewV7 : M U string).
Context (HIntN : IntN_in_range IntN).
Implicit Types (pool : Pool).

Lemma roll_card_spec pool pity g :
  pool_ok pool → 0 <= pity < PityThreshold pool →
  ∃ card isPity g',
    roll_card IntN pool pity g =
      (card, isPity, if decide (Card_Rarity card = RaritySSR) then 0 else pity + 1, g') ∧
    card ∈ Cards pool ∧ 0 < Card_Weight card ∧
    (isPity = true ↔ pity + 1 = PityThreshold pool) ∧
    (isPity = true → Card_Rarity card = RaritySSR).
Proof.
  intros (Hw & Hssr & Hthr) Hpity. unfold roll_card.
  rewrite int_add_small by int_range.
  rewrite (proj2 (Z.ltb_lt _ _)) by lia. simpl.
  assert (0 < weight_sum (Cards pool)) as Hpos.
  { destruct Hw as [Hf _].
    pose proof (weight_sum_filter_le (λ c, Card_Rarity c = RaritySSR) _ Hf). lia. }
  destruct (Z.leb_spec (PityThreshold pool) (pity + 1)).
  - rewrite FilterByRarity_filter. rewrite bool_decide_eq_false_2.
    2:{ intros Hnil. rewrite Hnil in Hssr. simpl in Hssr. lia. }
    pose proof (WeightedPick_in IntN _ g HIntN (weights_ok_filter _ _ Hw) Hssr) as [Hin Hp].
    destruct (WeightedPick _ _ g) as [card g']. simpl in *.
    apply list_elem_of_filter in Hin as [Hr Hin].
    exists card, true, g'. rewrite decide_True by done. split_and!; try done; lia.
  - pose proof (WeightedPick_in IntN _ g HIntN Hw Hpos) as [Hin Hp].
    destruct (WeightedPick _ _ g) as [card g']. simpl in *.
    exists card, false, g'. split_and!; try done; [|split; [done|lia]].
    do 2 f_equal. case_decide; [by rewrite bool_decide_eq_true_2|by rewrite bool_decide_eq_false_2].
Qed.

(** [f] is what the rolls read as once they are written. *)
Lemma roll_loop_spec (f : Roll → Roll) n pool p q now h rolls gu rolls' pity' gu' :
  (∀ r, Roll_Rarity (f r) = Roll_Rarity r ∧ Roll_IsPity (f r) = Roll_IsPity r) →
  pool_ok pool → ceiling_ok (PityThreshold pool) h → drought h < PityThreshold pool →
  roll_loop IntN NewV7 n pool p q now (drought h) rolls gu = (Ok (rolls', pity'), gu') →
  ∃ new, rolls' = rolls ++ new ∧ length new = n ∧
    Forall (recorded pool p q now) new ∧ pity' = drought (h ++ (f <$> new)) ∧
    ceiling_ok (PityThreshold pool) (h ++ (f <$> new)) ∧
    drought (h ++ (f <$> new)) < PityThreshold pool.
Proof.
  intros Hf Hpool. revert h rolls gu.
  induction n as [|n IH]; intros h rolls [g u] Hok Hlt Hrun; simpl in Hrun.
  { injection Hrun as <- <- <-. exists []. simpl. rewrite !app_nil_r.
    split_and!; first [done|constructor]. }
  destruct (roll_card_spec pool (drought h) g Hpool) as
    (card & isPity & g1 & Hcard & Hin & Hpos & Hflag & Hssr); [pose proof (drought_nonneg h); lia|].
  rewrite Hcard in Hrun.
  destruct (wrapErr _ NewV7 u) as [[id|e|w] u']; [|done|done].
  set (r := {| Roll_ID := id; Roll_PlayerID := p; Roll_PoolID := q;
               Roll_CardID := Card_ID card; Roll_Rarity := Card_Rarity card;
               Roll_IsPity := isPity; Roll_PulledAt := now |}) in Hrun.
  destruct (Hf r) as [Hrar Hpit].
  assert (Hd : drought (h ++ [f r])
    = if decide (Card_Rarity card = RaritySSR) then 0 else drought h + 1)
    by (by rewrite drought_snoc, Hrar).
  assert (Hlt' : drought (h ++ [f r]) < PityThreshold pool).
  { rewrite Hd. case_decide; [destruct Hpool as (_ & _ & ?); lia|].
    destruct (decide (drought h + 1 = PityThreshold pool)) as [He|]; [|lia].
    apply Hflag, Hssr in He. done. }
  rewrite <- Hd in Hrun.
  destruct (IH (h ++ [f r]) (rolls ++ [r]) (g1, u')) as
    (new & -> & <- & Hall & -> & Hok' & Hlt''); [|done|done|].
  { apply ceiling_ok_snoc; [done|by rewrite Hpit|done]. }
  exists (r :: new). simpl. rewrite <- !app_assoc in *. split_and!; try done.
  constructor; [|done]. split_and!; try done. by exists card.
Qed.
End rolling.

(** ** Correctness of the service against the repository's laws *)

Section correctness.
Context {S : Type} `{!GachaRepository S, !GachaStore S, !GachaLedger S}.
Context {G U : Type}.
Context (IntN : RandIntN G) (NewV7 : M U string) (GetPool : string → result Pool).
Implicit Types (w : S * (G * U)).

#[local] Abbreviation Roll_call := (GachaService_Roll IntN NewV7 GetPool).
#[local] Abbreviation hist s p q := (history canon p q (rolls_of s)).

Lemma on_fst_GetPity_inv p q s (gu : G * U) r w' :
  on_fst (wrapErr "repo.GetPity" (GetPity p q)) (s, gu) = (r, w') →
  w'.2 = gu ∧ unchanged s w'.1 ∧ ∀ v, r = Ok v → v = pity_of s p q.
Proof.
  simpl. unfold wrapErr.
  pose proof (GetPity_reads p q s) as Hs. pose proof (GetPity_value p q s) as Hv.
  destruct (GetPity p q s) as [[v|e|x] s'] eqn:E; simpl in *; intros [= <- <-]; split_and!; try done.
  intros ? [= <-]. by eapply Hv.
Qed.

(** How far a call gets: it stops before the write, or it writes what the loop
    produced from the stored counter. *)
Lemma Roll_cases now p q n s gu r s' gu' :
  Roll_call now p q n (s, gu) = (r, (s', gu')) →
  (unchanged s s' ∧ ∀ l, r ≠ Ok l) ∨
  (1 <= n <= 10 ∧ ∃ pool rolls pity' s1 r0,
    GetPool q = Ok pool ∧
    roll_loop IntN NewV7 (Z.to_nat n) pool p q now (pity_of s p q) [] gu = (Ok (rolls, pity'), gu') ∧
    unchanged s s1 ∧ InsertRollsAndUpdatePity rolls p q pity' s1 = (r0, s') ∧
    r = match r0 with
        | Ok _ => Ok rolls
        | Err e => Err (Errorf_w "repo.InsertRollsAndUpdatePity" e)
        | Panic x => Panic x
        end).
Proof.
  unfold GachaService_Roll. intros HR.
  destruct ((n <? 1) || (10 <? n)) eqn:Hn; [left; by injection HR as <- <- <-|].
  apply orb_false_iff in Hn as [?%Z.ltb_ge ?%Z.ltb_ge].
  rewrite M_bind_eq in HR. unfold wrapErr, lift in HR.
  destruct (GetPool q) as [pool|e|x] eqn:Hpool; [|left; by injection HR as <- <- <-..].
  case_bool_decide; [left; by injection HR as <- <- <-|].
  rewrite M_bind_eq in HR.
  destruct (on_fst _ (s, gu)) as [r1 [s1 gu1]] eqn:Hget.
  apply on_fst_GetPity_inv in Hget as (Hgu & Hs & Hv). simpl in Hgu, Hs. subst gu1.
  destruct r1 as [pity|e|x]; [|left; by injection HR as <- <- <-..].
  rewrite M_bind_eq in HR. simpl in HR. rewrite (Hv pity) in HR by done.
  destruct (roll_loop _ _ _ _ _ _ _ _ _ _) as [r2 gu2] eqn:Hloop.
  destruct r2 as [[l pity']|e|x]; [|left; by injection HR as <- <- <-..].
  rewrite M_bind_eq in HR. simpl in HR. unfold wrapErr in HR.
  destruct (InsertRollsAndUpdatePity l p q pity' s1) as [r3 s3] eqn:Hins.
  right. split; [lia|]. exists pool, l, pity', s1, r3.
  destruct r3 as [[]|e|x]; injection HR as <- <- <-; by rewrite Hins.
Qed.

(** Instances of the service that start empty and serve any sequence of
    calls, successful or not. *)
Inductive gacha_reachable : S * (G * U) → Prop :=
  | gacha_init s gu :
      rolls_of s = [] → (∀ p q, pity_of s p q = 0) → gacha_reachable (s, gu)
  | gacha_roll now p q n w :
      gacha_reachable w → gacha_reachable (Roll_call now p q n w).2
  | gacha_list p limit w :
      gacha_reachable w → gacha_reachable (GachaService_ListHistory p limit w).2
  | gacha_get p q w :
      gacha_reachable w → gacha_reachable (GachaService_GetPity p q w).2.

(** The registry only serves pools that can be drawn from and whose counters can
    be held, under identifiers without the key separator that the repository
    tells apart. *)
Definition registry_ok : Prop :=
  (∀ q pool, GetPool q = Ok pool →
     pool_ok pool ∧ has_char "/" q = false ∧ PityThreshold pool <= counter_max) ∧
  ∀ q q' pool pool', GetPool q = Ok pool → GetPool q' = Ok pool' → canon q = canon q' → q = q'.

(** For every player and pool: the stored counter is the drought of the
    history, which respects the ceiling. *)
Definition pity_inv (s : S) : Prop :=
  ∀ p q pool, GetPool q = Ok pool →
    pity_of s p q = drought (hist s p q) ∧ ceiling_ok (PityThreshold pool) (hist s p q) ∧
    drought (hist s p q) < PityThreshold pool.

Lemma ListHistory_reads p limit s gu :
  unchanged s (GachaService_ListHistory p limit (s, gu : G * U)).2.1.
Proof.
  unfold GachaService_ListHistory. simpl. unfold wrapErr.
  pose proof (ListRollsByPlayer_reads p
    (if 100 <? (if limit <? 1 then 10 else limit) then 100
     else if limit <? 1 then 10 else limit) s) as Hs.
  by destruct (ListRollsByPlayer _ _ s) as [[?|?|?] s'].
Qed.

Lemma pity_inv_empty s :
  registry_ok → rolls_of s = [] → (∀ p q, pity_of s p q = 0) → pity_inv s.
Proof.
  intros [Hreg _] Hr Hp p q pool Hq. rewrite Hr, Hp. destruct (Hreg q pool Hq) as [(_ & _ & ?) _].
  change (history canon p q []) with (@nil Roll). change (drought []) with 0.
  split_and!; [done|apply ceiling_ok_nil|lia].
Qed.

Lemma pity_inv_unchanged s s' : unchanged s s' → pity_inv s → pity_inv s'.
Proof. intros [Hr Hp] Hinv p q pool Hq. rewrite Hr, Hp. by apply Hinv. Qed.

(** Rolls and a counter that continue the history of a player on a pool. *)
Definition continues (pool : Pool) (p q : string) (rolls : list Roll) (pity' : Z) (s : S) : Prop :=
  Forall (λ r, Roll_PlayerID r = p ∧ Roll_PoolID r = q) (stored <$> rolls) ∧
  0 <= pity' < counter_max ∧
  let h := hist s p q ++ (stored <$> rolls) in
  pity' = drought h ∧ ceiling_ok (PityThreshold pool) h ∧ drought h < PityThreshold pool.

(** What the loop produces from a stored counter. *)
Lemma loop_continues now p q n s gu gu' pool rolls pity' :
  IntN_in_range IntN → registry_ok → pity_inv s → GetPool q = Ok pool →
  roll_loop IntN NewV7 n pool p q now (pity_of s p q) [] gu = (Ok (rolls, pity'), gu') →
  length rolls = n ∧ Forall (recorded pool p q now) rolls ∧ continues pool p q rolls pity' s.
Proof.
  intros HIntN [Hreg _] Hinv Hpool Hloop.
  destruct (Hreg q pool Hpool) as (Hok & _ & Hmax).
  destruct (Hinv p q pool Hpool) as (Hpity & Hceil & Hlt). rewrite Hpity in Hloop.
  apply (roll_loop_spec IntN NewV7 HIntN stored) in Hloop
    as (new & -> & Hlen & Hall & -> & Hceil' & Hlt'); [|intros r; apply stored_same|done..].
  rewrite app_nil_l in *. pose proof (drought_nonneg (hist s p q ++ (stored <$> new))).
  do 2 (split; [done|]). unfold continues. cbn zeta. split; [|split; [lia|by split_and!]].
  apply Forall_fmap, (Forall_impl _ _ _ Hall). intros r [[<- <-] _]. split; apply stored_same.
Qed.

(** Once they are written, the invariant holds again. *)
Lemma continues_inserted p q s s' pool rolls pity' :
  registry_ok → pity_inv s → GetPool q = Ok pool → continues pool p q rolls pity' s →
  inserted rolls p q pity' s s' → pity_inv s'.
Proof.
  intros [Hreg Hinj] Hinv Hpool (Hown & _ & Hpity & Hceil & Hlt) (Hrolls & Hset & Hframe) p' q' pool' Hpool'.
  destruct (Hreg q pool Hpool) as (_ & Hq & _). rewrite Hrolls, history_app.
  destruct (decide ((canon p', canon q') = (canon p, canon q))) as [[= Hp' Hq']|Hne].
  - assert (q' = q) as -> by (by eapply Hinj). rewrite Hpool in Hpool'. injection Hpool' as <-.
    rewrite (pity_canon s' p' q p q), Hset by done.
    assert (∀ l, history canon p' q l = history canon p q l) as E.
    { intros l. unfold history. by rewrite Hp'. }
    by rewrite !E, (history_own canon p q (stored <$> rolls)).
  - rewrite (history_other canon p q p' q' (stored <$> rolls)), app_nil_r by done.
    destruct (Hreg q' pool' Hpool') as (_ & Hq' & _).
    rewrite (Hframe p' q') by done. by apply Hinv.
Qed.

(** What is written for another player or pool does not matter. *)
Lemma continues_other p q s s' pool rolls pity' p' q' rolls' n :
  Forall (λ r, Roll_PlayerID r = p' ∧ Roll_PoolID r = q') (stored <$> rolls') →
  (canon p, canon q) ≠ (canon p', canon q') → inserted rolls' p' q' n s s' →
  continues pool p q rolls pity' s → continues pool p q rolls pity' s'.
Proof.
  intros Hown Hne (Hrolls & _ & _). unfold continues.
  by rewrite Hrolls, history_app, (history_other canon p' q' p q (stored <$> rolls')), app_nil_r.
Qed.

Lemma continues_unchanged p q s s' pool rolls pity' :
  unchanged s s' → continues pool p q rolls pity' s → continues pool p q rolls pity' s'.
Proof. intros [Hr _]. unfold continues. by rewrite Hr. Qed.

Lemma loop_inserted now p q n s gu gu' pool rolls pity' :
  IntN_in_range IntN → registry_ok → pity_inv s → GetPool q = Ok pool →
  roll_loop IntN NewV7 n pool p q now (pity_of s p q) [] gu = (Ok (rolls, pity'), gu') →
  length rolls = n ∧ Forall (recorded pool p q now) rolls ∧ 0 <= pity' < counter_max ∧
  ∀ s', inserted rolls p q pity' s s' → pity_inv s'.
Proof.
  intros HIntN Hreg Hinv Hpool Hloop.
  destruct (loop_continues _ _ _ _ _ _ _ _ _ _ HIntN Hreg Hinv Hpool Hloop) as (Hlen & Hall & Hc).
  split_and!; [done|done|apply Hc..|]. intros s'. by apply (continues_inserted p q s s' pool).
Qed.

(** A call keeps the invariant, whatever its outcome. *)
Lemma pity_inv_roll now p q n s gu r s' gu' :
  IntN_in_range IntN → registry_ok → pity_inv s →
  Roll_call now p q n (s, gu) = (r, (s', gu')) →
  pity_inv s' ∧
  ∀ rolls, r = Ok rolls → 1 <= n <= 10 ∧ Z.of_nat (length rolls) = n ∧
    rolls_of s' = rolls_of s ++ (stored <$> rolls) ∧
    ∃ pool, GetPool q = Ok pool ∧ Forall (recorded pool p q now) rolls.
Proof.
  intros HIntN Hreg Hinv [[Hs Hr]|(Hn & pool & rolls & pity' & s1 & r0 & Hpool & Hloop & Hs & Hins & Hr)]%Roll_cases.
  { split; [by eapply pity_inv_unchanged|]. intros rolls ->. by destruct (Hr rolls). }
  destruct (loop_inserted _ _ _ _ _ _ _ _ _ _ HIntN Hreg Hinv Hpool Hloop)
    as (Hlen & Hall & Hmax & Hkeep).
  destruct r0 as [[]|e|x].
  1: { apply Insert_ok in Hins; [|done]. apply (unchanged_inserted _ _ _ _ _ _ _ Hs) in Hins.
    split; [by apply Hkeep|]. intros rolls' Heq. rewrite Hr in Heq. injection Heq as <-.
    split_and!; [lia..|by destruct Hins|by exists pool]. }
  all: split; [|by intros rolls' ->].
  all: apply Insert_err in Hins as [Hun|Hins]; [| |done|done].
  1, 3: by eapply pity_inv_unchanged, Hinv; etrans.
  all: by eapply Hkeep, unchanged_inserted.
Qed.

(** A call changes nothing, or it has written all its rolls and the counter; then it succeeds,
    unless the write fails. *)
Lemma Roll_splits now p q n s gu r s' gu' :
  IntN_in_range IntN → registry_ok → pity_inv s →
  Roll_call now p q n (s, gu) = (r, (s', gu')) →
  (unchanged s s' ∧ ∀ rolls, r ≠ Ok rolls) ∨
  ∃ pool rolls pity', 1 <= n <= 10 ∧ GetPool q = Ok pool ∧ Z.of_nat (length rolls) = n ∧
    Forall (recorded pool p q now) rolls ∧ inserted rolls p q pity' s s' ∧ 0 <= pity' < counter_max ∧
    (r = Ok rolls ∨ ∃ r0 s1, InsertRollsAndUpdatePity rolls p q pity' s1 = (r0, s') ∧
       match r0 with
       | Ok _ => False
       | Err e => r = Err (Errorf_w "repo.InsertRollsAndUpdatePity" e)
       | Panic x => r = Panic x
       end).
Proof.
  intros HIntN Hreg Hinv [?|(Hn & pool & rolls & pity' & s1 & r0 & Hpool & Hloop & Hs & Hins & Hr)]%Roll_cases; [by left|].
  destruct (loop_inserted _ _ _ _ _ _ _ _ _ _ HIntN Hreg Hinv Hpool Hloop) as (Hlen & Hall & Hmax & _).
  assert (r0 = Ok tt ∨ r0 ≠ Ok tt) as [->|Hne] by (destruct r0 as [[]|e|x]; [by left|by right..]).
  - apply Insert_ok in Hins; [|done]. right. exists pool, rolls, pity'.
    split_and!; [lia|lia|done|lia|done|by eapply unchanged_inserted|lia|lia|by left].
  - pose proof Hins as [Hun|Hun]%Insert_err; [left|right|done|done].
    + split; [by etrans|]. destruct r0 as [[]|e|x]; by subst.
    + exists pool, rolls, pity'. split_and!; [lia|lia|done|lia|done|by eapply unchanged_inserted|lia|lia|]. right.
      exists r0, s1. by destruct r0 as [[]|e|x].
Qed.

Lemma reachable_pity_inv w :
  IntN_in_range IntN → registry_ok → gacha_reachable w → pity_inv w.1.
Proof.
  intros HIntN Hreg. induction 1 as [s gu Hr Hp|now p q n w _ IH|p l w _ IH|p q w _ IH].
  - by apply pity_inv_empty.
  - destruct w as [s gu].
    destruct (Roll_call now p q n (s, gu)) as [r [s' gu']] eqn:E. simpl in *.
    by apply pity_inv_roll in E as [? _].
  - destruct w as [s gu]. eapply pity_inv_unchanged; [apply ListHistory_reads|done].
  - destruct w as [s gu].
    destruct (GachaService_GetPity p q (s, gu)) as [r w'] eqn:E.
    apply on_fst_GetPity_inv in E as (_ & Hs & _). by eapply pity_inv_unchanged.
Qed.

(** C1. The ceiling guarantee. Whatever the calls, players and pools served so
    far, among any [PityThreshold] consecutive rolls of a player on a pool
    (across calls) there is an SSR. It holds over every repository that is a
    ledger, the in-memory and the MySQL one, also when writes fail or are
    reported as failed. *)
Theorem Roll_pity_guarantee w q pool p before window after :
  IntN_in_range IntN → registry_ok → gacha_reachable w → GetPool q = Ok pool →
  history canon p q (rolls_of w.1) = before ++ window ++ after →
  Z.of_nat (length window) = PityThreshold pool →
  ∃ r, r ∈ window ∧ Roll_Rarity r = RaritySSR.
Proof.
  intros HIntN Hreg Hreach Hpool Heq Hlen.
  destruct (reachable_pity_inv w HIntN Hreg Hreach p q pool Hpool) as (_ & Hok & _).
  eapply ceiling_ok_window; [done|done| |done].
  destruct Hreg as [Hreg _]. destruct (Hreg q pool Hpool) as [(_ & _ & ?) _]. lia.
Qed.

(** The persisted counter refines its specification, the number of rolls
    since the last SSR of the history; [GetPity] returns it and writes nothing,
    it stays below the threshold, and a roll is flagged as a ceiling roll exactly
    when it is the [PityThreshold]-th since the last SSR. *)
Theorem GetPity_refines_history w q pool p pity w' :
  IntN_in_range IntN → registry_ok → gacha_reachable w → GetPool q = Ok pool →
  GachaService_GetPity p q w = (Ok pity, w') →
  let h := history canon p q (rolls_of w.1) in
  unchanged w.1 w'.1 ∧ w'.2 = w.2 ∧ pity = drought h ∧ 0 <= pity < PityThreshold pool ∧
  ∀ h1 r h2, h = h1 ++ r :: h2 → (Roll_IsPity r = true ↔ drought h1 + 1 = PityThreshold pool).
Proof.
  intros HIntN Hreg Hreach Hpool HGet. destruct w as [s gu]. simpl.
  apply on_fst_GetPity_inv in HGet as (Hgu & Hs & Hv).
  destruct (reachable_pity_inv _ HIntN Hreg Hreach p q pool Hpool) as (Hp & Hok & Hlt).
  simpl in *. rewrite (Hv pity) by done. rewrite Hp.
  pose proof (drought_nonneg (history canon p q (rolls_of s))).
  split_and!; [apply Hs..|done|done|done|done|]. intros h1 r h2 Heq. by apply (Hok h1 r h2).
Qed.

(** A successful call appends to the history exactly [count] rolls, all of
    the player and pool asked for, all stamped with the one clock reading of the
    call, each carrying the identifier and rarity of a card of the pool with a
    positive weight; it returns those rolls. *)
Theorem Roll_success w now p q n rolls w' :
  IntN_in_range IntN → registry_ok → gacha_reachable w →
  GachaService_Roll IntN NewV7 GetPool now p q n w = (Ok rolls, w') →
  1 <= n <= 10 ∧ Z.of_nat (length rolls) = n ∧
  rolls_of w'.1 = rolls_of w.1 ++ (stored <$> rolls) ∧
  ∃ pool, GetPool q = Ok pool ∧ Forall (recorded pool p q now) rolls.
Proof.
  intros HIntN Hreg Hreach HRoll. destruct w as [s gu], w' as [s' gu'].
  pose proof (reachable_pity_inv _ HIntN Hreg Hreach) as Hinv. simpl in *.
  apply pity_inv_roll in HRoll as [_ HRoll]; [|done..]. by apply HRoll.
Qed.
End correctness.

(** ** What the stronger laws add *)

Section atomic_correctness.
Context {S : Type} `{!GachaRepository S, !GachaStore S, !GachaRepositoryLaws S}.
Context {G U : Type}.
Context (IntN : RandIntN G) (NewV7 : M U string) (GetPool : string → result Pool).
Implicit Types (w : S * (G * U)).

Lemma GetPity_call_state p q s gu :
  (GachaService_GetPity p q (s, gu : G * U)).2 = (s, gu).
Proof.
  unfold GachaService_GetPity. simpl. unfold wrapErr. pose proof (GetPity_state p q s) as Hs.
  by destruct (GetPity p q s) as [[v|e|x] s']; simpl in *; subst s'.
Qed.

Lemma ListHistory_state p limit s gu :
  (GachaService_ListHistory p limit (s, gu : G * U)).2 = (s, gu).
Proof.
  unfold GachaService_ListHistory. simpl. unfold wrapErr.
  pose proof (ListRollsByPlayer_state p
    (if 100 <? (if limit <? 1 then 10 else limit) then 100
     else if limit <? 1 then 10 else limit) s) as Hs.
  by destruct (ListRollsByPlayer _ _ s) as [[?|?|?] s']; simpl in *; subst s'.
Qed.

(** The history call returns the most recent rolls of the player, newest
    first, and of the limit asked for applies the bounds: below 1 it is 10,
    above 100 it is 100. *)
Theorem ListHistory_spec w p limit l w' :
  GachaService_ListHistory p limit w = (Ok l, w') →
  w' = w ∧
  l = latest_rolls p (if limit <? 1 then 10 else Z.min limit 100) (rolls_of w.1) ∧
  (length l ≤ 100)%nat.
Proof.
  destruct w as [s gu]. intros HL.
  pose proof (ListHistory_state p limit s gu) as Hs. rewrite HL in Hs. simpl in Hs.
  split; [done|]. unfold GachaService_ListHistory in HL. simpl in HL.
  set (n := if limit <? 1 then 10 else Z.min limit 100).
  replace (if 100 <? (if limit <? 1 then 10 else limit) then 100
           else if limit <? 1 then 10 else limit) with n in HL
    by (unfold n; destruct (Z.ltb_spec limit 1); [done|];
        destruct (Z.ltb_spec 100 limit); lia).
  destruct (wrapErr _ _ s) as [r s1] eqn:Hw. injection HL as -> <-.
  apply wrapErr_Ok_inv in Hw.
  assert (1 <= n <= 100) by (unfold n; destruct (Z.ltb_spec limit 1); lia).
  apply ListRollsByPlayer_value in Hw as ->; [|lia].
  split; [done|]. unfold latest_rolls. rewrite length_take. lia.
Qed.
End atomic_correctness.

(** ** The in-memory service *)

Section inmem_service.
Context {G U : Type}.
Context (IntN : RandIntN G) (NewV7 : M U string) (GetPool : string → result Pool).

(** In memory the write does not fail: a call that returns an error or panics leaves the
    history and every counter as they were. *)
Lemma Roll_failure_inmem w now p q n r (w' : GachaRepo * (G * U)) :
  GachaService_Roll IntN NewV7 GetPool now p q n w = (r, w') → (∀ rolls, r ≠ Ok rolls) →
  rolls_of w'.1 = rolls_of w.1 ∧ ∀ p' q', pity_of w'.1 p' q' = pity_of w.1 p' q'.
Proof.
  destruct w as [s gu], w' as [s' gu'].
  intros [[Hs _]|(_ & pool & rolls & pity' & s1 & r0 & _ & _ & Hs & [= <- _] & Hr)]%Roll_cases Hne; [done|].
  by destruct (Hne rolls).
Qed.

Lemma roll_loop_total n pool p q now pity rolls gu :
  (∀ u, ∃ id u', NewV7 u = (Ok id, u')) →
  ∃ new pity' gu',
    roll_loop IntN NewV7 n pool p q now pity rolls gu = (Ok (rolls ++ new, pity'), gu') ∧
    length new = n ∧ Forall (λ x, Roll_PlayerID x = p ∧ Roll_PoolID x = q) new.
Proof.
  intros Hid. revert pity rolls gu.
  induction n as [|n IH]; intros pity rolls [g u]; simpl.
  { exists [], pity, (g, u). by rewrite app_nil_r. }
  destruct (roll_card IntN pool pity g) as [[[card isPity] pity'] g'].
  destruct (Hid u) as (id & u' & E). rewrite (wrapErr_Ok _ _ _ _ _ E).
  destruct (IH pity' (rolls ++ [{| Roll_ID := id; Roll_PlayerID := p; Roll_PoolID := q;
    Roll_CardID := Card_ID card; Roll_Rarity := Card_Rarity card; Roll_IsPity := isPity;
    Roll_PulledAt := now |}]) (g', u')) as (new & pity2 & gu2 & Hrun & Hlen & Hall).
  eexists (_ :: new), pity2, gu2. rewrite Hrun, <- app_assoc. simpl.
  split_and!; [done|by rewrite Hlen|by constructor].
Qed.

(** The outcome of a call and the state it leaves. *)
Lemma Roll_run now p q n (r : GachaRepo) (gu : G * U) :
  (∀ u, ∃ id u', NewV7 u = (Ok id, u')) →
  ∃ res gu', GachaService_Roll IntN NewV7 GetPool now p q n (r, gu) =
    (res, (match res with
           | Ok rolls => {| gr_rolls := gr_rolls r ++ rolls;
                            gr_pity := gr_pity (GachaService_Roll IntN NewV7 GetPool now p q n
                                                  (r, gu)).2.1 |}
           | _ => r
           end, gu')) ∧
    if decide (1 <= n <= 10) then
      match GetPool q with
      | Err e => res = Err (Errorf_w "pools.GetPool" e)
      | Panic x => res = Panic x
      | Ok pool =>
          if decide (Cards pool = []) then res = Err gacha_ErrEmptyPool
          else ∃ rolls, res = Ok rolls ∧ Z.of_nat (length rolls) = n ∧
                 Forall (λ x, Roll_PlayerID x = p ∧ Roll_PoolID x = q) rolls
      end
    else res = Err gacha_ErrInvalidCount.
Proof.
  intros Hid. unfold GachaService_Roll. case_decide as Hn.
  2:{ replace ((n <? 1) || (10 <? n)) with true by lia. by exists (Err gacha_ErrInvalidCount), gu. }
  replace ((n <? 1) || (10 <? n)) with false by lia.
  rewrite M_bind_eq, wrapErr_lift.
  destruct (GetPool q) as [pool|e|x]; [|by exists (Err (Errorf_w "pools.GetPool" e)), gu|by exists (Panic x), gu].
  destruct (decide (Cards pool = [])) as [Hnil|Hnil].
  { rewrite bool_decide_eq_true_2 by done. by exists (Err gacha_ErrEmptyPool), gu. }
  rewrite bool_decide_eq_false_2 by done.
  rewrite M_bind_eq. simpl. rewrite M_bind_eq. simpl.
  destruct (roll_loop_total (Z.to_nat n) pool p q now
    (default 0 (gr_pity r !! pityKey p q)) [] gu Hid) as (l & pity' & gu' & -> & Hlen & Hall).
  exists (Ok l), gu'. split; [done|]. exists l. rewrite Hlen. split_and!; [done|lia|done].
Qed.

(** With the in-memory repository and an identifier source that does not
    fail, the outcome of a call is decided by its guards, in the code's order:
    the count, the registry's answer (passed on in a wrapping that [errors.Is]
    sees through), the emptiness of the pool; otherwise the call succeeds. *)
Theorem Roll_outcome now p q n (r : GachaRepo) (gu : G * U) :
  (∀ u, ∃ id u', NewV7 u = (Ok id, u')) →
  let out := (GachaService_Roll IntN NewV7 GetPool now p q n (r, gu)).1 in
  if decide (1 <= n <= 10) then
    match GetPool q with
    | Err e => out = Err (Errorf_w "pools.GetPool" e)
    | Panic x => out = Panic x
    | Ok pool =>
        if decide (Cards pool = []) then out = Err gacha_ErrEmptyPool
        else ∃ rolls, out = Ok rolls
    end
  else out = Err gacha_ErrInvalidCount.
Proof.
  intros Hid. destruct (Roll_run now p q n r gu Hid) as (res & gu' & -> & Hres). simpl.
  destruct (decide _); [|done]. destruct (GetPool q); try done. destruct (decide _); [done|].
  destruct Hres as (rolls & -> & _). by exists rolls.
Qed.
End inmem_service.

(** ** Concrete instances *)

(** A small congruential generator and a counter as identifier source. *)
Definition lcg : RandIntN Z := λ n g, (g `mod` n, (g * 1103515245 + 12345) `mod` 2147483648).
Definition fixed_ids : M Z string := λ u, (Ok "0195", u + 1).
Definition demo_registry : string → result Pool :=
  StaticPoolRegistry_GetPool NewStaticPoolRegistry.
Definition demo_start : GachaRepo * (Z * Z) := (NewGachaRepo, (42, 0)).

(** The service after [k] ten-rolls of a player on the demo pool. *)
Fixpoint demo_rolled (k : nat) : GachaRepo * (Z * Z) :=
  match k with
  | O => demo_start
  | S k' => (GachaService_Roll lcg fixed_ids demo_registry 7 "p1" "demo" 10 (demo_rolled k')).2
  end.

Lemma lcg_in_range : IntN_in_range lcg.
Proof. intros n g Hn. simpl. apply Z.mod_pos_bound. lia. Qed.

Lemma demo_pool_ok : pool_ok demo_pool.
Proof.
  split_and!; [split; [repeat constructor; simpl; lia|reflexivity]|reflexivity|..];
    unfold demo_pool, int64_half; simpl; lia.
Qed.

Lemma demo_registry_pool q pool : demo_registry q = Ok pool → q = DemoPoolID ∧ pool = demo_pool.
Proof.
  unfold demo_registry, StaticPoolRegistry_GetPool, NewStaticPoolRegistry. simpl.
  destruct (decide (q = DemoPoolID)) as [->|].
  - rewrite lookup_singleton_eq. by intros [= <-].
  - by rewrite lookup_singleton_ne.
Qed.

Lemma demo_registry_ok {T} `{!GachaStore T} : 80 <= counter_max → registry_ok demo_registry.
Proof.
  intros Hmax. split.
  - intros q pool [-> ->]%demo_registry_pool. split; [apply demo_pool_ok|done].
  - by intros q q' pool pool' [-> ->]%demo_registry_pool [-> ->]%demo_registry_pool _.
Qed.

Lemma demo_registry_inmem : registry_ok demo_registry.
Proof. apply demo_registry_ok. by vm_compute. Qed.

Lemma demo_rolled_reachable k : gacha_reachable lcg fixed_ids demo_registry (demo_rolled k).
Proof. induction k as [|k IH]; [by constructor|by apply gacha_roll]. Qed.

Lemma Roll_pity_guarantee_witness :
  ∃ r, r ∈ history canon "p1" "demo" (rolls_of (demo_rolled 8).1) ∧ Roll_Rarity r = RaritySSR.
Proof.
  apply (Roll_pity_guarantee lcg fixed_ids demo_registry (demo_rolled 8) "demo" demo_pool "p1"
    [] (history canon "p1" "demo" (rolls_of (demo_rolled 8).1)) []).
  - exact lcg_in_range.
  - exact demo_registry_inmem.
  - exact (demo_rolled_reachable 8).
  - reflexivity.
  - simpl. by rewrite app_nil_r.
  - vm_compute. reflexivity.
Defined.

Lemma GetPity_refines_history_witness :
  match GachaService_GetPity "p1" "demo" (demo_rolled 1) with
  | (Ok pity, _) => 0 <= pity < 80
  | _ => False
  end.
Proof.
  assert (Hok : is_Ok (GachaService_GetPity "p1" "demo" (demo_rolled 1)).1 = true)
    by (vm_compute; reflexivity).
  destruct (GachaService_GetPity "p1" "demo" (demo_rolled 1)) as [[pity|e|x] w'] eqn:E;
    [|discriminate Hok..].
  exact (proj1 (proj2 (proj2 (proj2 (GetPity_refines_history lcg fixed_ids demo_registry (demo_rolled 1)
    "demo" demo_pool "p1" pity w' lcg_in_range demo_registry_inmem (demo_rolled_reachable 1)
    eq_refl E))))).
Defined.

Lemma Roll_success_witness :
  match GachaService_Roll lcg fixed_ids demo_registry 7 "p1" "demo" 3 demo_start with
  | (Ok rolls, _) => Z.of_nat (length rolls) = 3
  | _ => False
  end.
Proof.
  assert (Hok : is_Ok (GachaService_Roll lcg fixed_ids demo_registry 7 "p1" "demo" 3
    demo_start).1 = true) by (vm_compute; reflexivity).
  destruct (GachaService_Roll lcg fixed_ids demo_registry 7 "p1" "demo" 3 demo_start)
    as [[rolls|e|x] w'] eqn:E; [|discriminate Hok..].
  exact (proj1 (proj2 (Roll_success lcg fixed_ids demo_registry demo_start 7 "p1" "demo" 3 rolls w'
    lcg_in_range demo_registry_inmem (demo_rolled_reachable 0) E))).
Defined.

Example Roll_failure_leaves :
  rolls_of (GachaService_Roll lcg fixed_ids demo_registry 7 "p1" "demo" 11 (demo_rolled 1)).2.1
  = rolls_of (demo_rolled 1).1.
Proof.
  exact (proj1 (Roll_failure_inmem lcg fixed_ids demo_registry (demo_rolled 1) 7 "p1" "demo" 11
    (Err gacha_ErrInvalidCount) (demo_rolled 1) eq_refl (λ rolls H, ltac:(discriminate H)))).
Qed.

Lemma ListHistory_spec_witness :
  match GachaService_ListHistory "p1" 0 (demo_rolled 2) with
  | (Ok l, _) => (length l ≤ 100)%nat
  | _ => False
  end.
Proof.
  assert (Hok : is_Ok (GachaService_ListHistory "p1" 0 (demo_rolled 2)).1 = true)
    by (vm_compute; reflexivity).
  destruct (GachaService_ListHistory "p1" 0 (demo_rolled 2)) as [[l|e|x] w'] eqn:E;
    [|discriminate Hok..].
  exact (proj2 (proj2 (ListHistory_spec (demo_rolled 2) "p1" 0 l w' E))).
Defined.

Lemma Roll_outcome_witness :
  (GachaService_Roll lcg fixed_ids demo_registry 7 "p1" "demo" 11 demo_start).1
  = Err gacha_ErrInvalidCount.
Proof.
  exact (Roll_outcome lcg fixed_ids demo_registry 7 "p1" "demo" 11 NewGachaRepo (42, 0)
    (λ u, ex_intro _ "0195" (ex_intro _ (u + 1) eq_refl))).
Defined.
