(* ===== verification/GachaRandom.v ===== *)
(** * Random numbers, and the gacha service as it is built

    The generator [math/rand/v2] is an interface with its documented laws. Models
    [NewService] of [internal/service/gacha/service.go] with its options and
    [pick]. *)

From S2P Require Import GoLang Float Strconv Gacha GachaService.
#[local] Open Scope Z_scope.

(** [rand.New(rand.NewPCG(seed1, seed2))] and the methods in use. *)
Class Rand (G : Type) := {
  NewPCG : Z → Z → G;
  Float64 : G → float64 * G;
  rand_IntN : RandIntN G }.

(** "Float64 returns, as a float64, a pseudo-random number in the half-open
    interval [0.0,1.0)", and [IntN] one in [[0,n)]. *)
Class RandLaws (G : Type) `{!Rand G} := {
  Float64_valid : ∀ g, valid_binary 53 1024 (Float64 g).1 = true;
  Float64_range : ∀ g, f_le f_zero (Float64 g).1 = true ∧ f_lt (Float64 g).1 (f_of_Z 1) = true;
  rand_IntN_range : IntN_in_range rand_IntN }.

(** ** The service *)

Section service.
(** [C] is the type of clocks, [time_Now] the real one. *)
Context {G C : Type} `{!Rand G} (time_Now : C).

(** The generator is its state at the start. The repository is the state the
    methods work on. *)
Record Service := { svc_pools : string → result Pool; svc_rng : G; svc_now : C }.

Definition Option : Type := Service → Service.

Definition WithRand (r : G) : Option := λ s,
  {| svc_pools := svc_pools s; svc_rng := r; svc_now := svc_now s |}.

Definition WithNow (fn : C) : Option := λ s,
  {| svc_pools := svc_pools s; svc_rng := svc_rng s; svc_now := fn |}.

(** [nano] is the reading of the clock that seeds the default generator. *)
Definition GachaService_NewService (nano : Z) (pools : string → result Pool) (opts : list Option) : Service :=
  let defaultRng := NewPCG (uint64_wrap nano) 0xDEADBEEF in
  foldl (λ s o, o s) {| svc_pools := pools; svc_rng := defaultRng; svc_now := time_Now |} opts.

(** A draw holds the lock of the generator for its whole body. *)
Definition pick : RandIntN G := rand_IntN.

(** The generator is the one of the last [WithRand], the default one without; the
    pools are the given ones. *)
Lemma NewService_WithRand nano pools (gs : list G) :
  GachaService_NewService nano pools (WithRand <$> gs) =
  {| svc_pools := pools; svc_rng := default (NewPCG (uint64_wrap nano) 0xDEADBEEF) (last gs);
     svc_now := time_Now |}.
Proof.
  unfold GachaService_NewService. generalize (NewPCG (uint64_wrap nano) 0xDEADBEEF).
  induction gs as [|g gs IH]; intros g0; [done|]. etrans; [apply (IH g)|]. rewrite last_cons. by destruct (last gs).
Qed.

(** What the theorems about rolling ask of the generator. *)
Lemma pick_in_range `{!RandLaws G} : IntN_in_range pick.
Proof. exact rand_IntN_range. Qed.
End service.
