(* ===== verification/GachaConcurrent.v ===== *)
(** * Concurrent rolls

    Requests are served concurrently, and a roll reads the counter and writes it
    back in two calls of the repository ([Service.Roll] of
    [internal/service/gacha/service.go]). A call is split at its write; calls
    interleave in any way, each with the draws of any generator state (the draws
    of others may come in between). The counter stays right as long as no two
    calls for one player and pool overlap, and only then. *)

From S2P Require Import GoLang Gacha GachaService.
#[local] Open Scope Z_scope.

Section split.
Context {S : Type} `{!GachaRepository S}.
Context {G U : Type}.
Context (IntN : RandIntN G) (NewV7 : M U string) (GetPool : string → result Pool).

(** [Roll] up to its write: the rolls and the new counter. *)
Definition Roll_draw (now : time) (playerID poolID : string) (count : Z)
    : M (S * (G * U)) (list Roll * Z) :=
  if (count <? 1) || (10 <? count) then fail gacha_ErrInvalidCount
  else
    pool ← wrapErr "pools.GetPool" (lift (GetPool poolID));
    if bool_decide (Cards pool = []) then fail gacha_ErrEmptyPool
    else
      pity ← on_fst (wrapErr "repo.GetPity" (GetPity playerID poolID));
      on_snd (roll_loop IntN NewV7 (Z.to_nat count) pool playerID poolID now pity []).

(** The write, and the answer. *)
Definition Roll_write (playerID poolID : string) (rolls : list Roll) (pity : Z) : M S (list Roll) :=
  wrapErr "repo.InsertRollsAndUpdatePity" (InsertRollsAndUpdatePity rolls playerID poolID pity);;
  mret rolls.

Lemma Roll_split now p q n w :
  GachaService_Roll IntN NewV7 GetPool now p q n w =
  ('(rolls, pity) ← Roll_draw now p q n; on_fst (Roll_write p q rolls pity)) w.
Proof.
  unfold GachaService_Roll, Roll_draw. rewrite M_bind_eq.
  destruct ((n <? 1) || (10 <? n)); [done|]. rewrite !M_bind_eq. unfold wrapErr, lift.
  destruct (GetPool q) as [pool|e|x]; [|done..]. case_bool_decide; [done|]. rewrite !M_bind_eq.
  destruct (on_fst _ w) as [[pity|e|x] w1]; [|done..]. rewrite M_bind_eq.
  destruct (on_snd _ w1) as [[[rolls pity']|e|x] [s2 gu2]]; [|done..].
  rewrite M_bind_eq. unfold on_fst, Roll_write. rewrite M_bind_eq. unfold wrapErr.
  by destruct (InsertRollsAndUpdatePity rolls p q pity' s2) as [[[]|e|x] s3].
Qed.

(** ** Interleavings *)

(** A call between its draw and its write. *)
Record pending := { pd_player : string; pd_pool : string; pd_rolls : list Roll; pd_pity : Z }.

Record conc := { cc_store : S; cc_pending : gmap nat pending }.

(** What happens next: a call starts and goes up to its write, or one writes. *)
Inductive conc_event :=
  | CDraw (g : nat) (now : time) (p q : string) (n : Z) (gu : G * U)
  | CWrite (g : nat).

Definition conc_fire (e : conc_event) (c : conc) : option conc :=
  match e with
  | CDraw g now p q n gu =>
      match cc_pending c !! g with
      | Some _ => None
      | None =>
          match Roll_draw now p q n (cc_store c, gu) with
          | (Ok (rolls, pity), (s', _)) =>
              Some {| cc_store := s';
                      cc_pending := <[g := {| pd_player := p; pd_pool := q; pd_rolls := rolls; pd_pity := pity |}]>
                                      (cc_pending c) |}
          | (_, (s', _)) => Some {| cc_store := s'; cc_pending := cc_pending c |}
          end
      end
  | CWrite g =>
      pd ← cc_pending c !! g;
      Some {| cc_store := (Roll_write (pd_player pd) (pd_pool pd) (pd_rolls pd) (pd_pity pd) (cc_store c)).2;
              cc_pending := delete g (cc_pending c) |}
  end.

Fixpoint conc_run (es : list conc_event) (c : conc) : option conc :=
  match es with
  | [] => Some c
  | e :: es' => c' ← conc_fire e c; conc_run es' c'
  end.

(** No call for the player and the pool is between its draw and its write when
    another one starts. *)
Definition exclusive (same : string → string) (e : conc_event) (c : conc) : bool :=
  match e with
  | CDraw _ _ p q _ _ =>
      bool_decide (map_Forall (λ _ pd, (same (pd_player pd), same (pd_pool pd)) ≠ (same p, same q))
                     (cc_pending c))
  | CWrite _ => true
  end.

Fixpoint no_overlap (same : string → string) (es : list conc_event) (c : conc) : bool :=
  match es with
  | [] => true
  | e :: es' =>
      exclusive same e c &&
      match conc_fire e c with Some c' => no_overlap same es' c' | None => true end
  end.
End split.
Arguments conc : clear implicits.
Arguments conc_event : clear implicits.

Section correctness.
Context {S : Type} `{!GachaRepository S, !GachaStore S, !GachaLedger S}.
Context {G U : Type}.
Context (IntN : RandIntN G) (NewV7 : M U string) (GetPool : string → result Pool).
Hypothesis in_range : IntN_in_range IntN.
Hypothesis registry : registry_ok (S:=S) GetPool.

#[local] Abbreviation hist s p q := (history canon p q (rolls_of s)).
#[local] Abbreviation key pd := (canon (pd_player pd), canon (pd_pool pd)).

(** The pending write continues the stored history. *)
Definition ready (s : S) (pd : pending) : Prop :=
  ∃ pool, GetPool (pd_pool pd) = Ok pool ∧
    continues pool (pd_player pd) (pd_pool pd) (pd_rolls pd) (pd_pity pd) s.

Definition conc_inv (c : conc S) : Prop :=
  pity_inv GetPool (cc_store c) ∧ map_Forall (λ _ pd, ready (cc_store c) pd) (cc_pending c) ∧
  ∀ g g' pd pd', cc_pending c !! g = Some pd → cc_pending c !! g' = Some pd' → key pd = key pd' → g = g'.

(** The draw reads only. *)
Lemma Roll_draw_spec now p q n s gu r s' gu' :
  pity_inv GetPool s → Roll_draw IntN NewV7 GetPool now p q n (s, gu) = (r, (s', gu')) →
  unchanged s s' ∧ ∀ rolls pity, r = Ok (rolls, pity) →
    ready s {| pd_player := p; pd_pool := q; pd_rolls := rolls; pd_pity := pity |}.
Proof.
  intros Hinv. unfold Roll_draw. destruct ((n <? 1) || (10 <? n)); [by intros [= <- <- <-]|].
  rewrite M_bind_eq. unfold wrapErr at 1, lift.
  destruct (GetPool q) as [pool|e|x] eqn:Hpool; [|by intros [= <- <- <-]..].
  case_bool_decide; [by intros [= <- <- <-]|]. rewrite M_bind_eq.
  destruct (on_fst _ (s, gu)) as [r1 [s1 gu1]] eqn:Hget.
  apply on_fst_GetPity_inv in Hget as (Hgu & Hs & Hv). simpl in Hgu, Hs. subst gu1.
  destruct r1 as [pity|e|x]; [|by intros [= <- <- <-]..]. rewrite (Hv pity) by done. simpl.
  destruct (roll_loop _ _ _ _ _ _ _ _ _ gu) as [r2 gu2] eqn:Hloop. intros [= <- <- <-].
  split; [done|]. intros rolls pity' ->.
  destruct (loop_continues _ _ _ _ _ _ _ _ _ _ _ _ _ in_range registry Hinv Hpool Hloop) as (_ & _ & Hc).
  by exists pool.
Qed.

Lemma Roll_write_spec p q rolls pity s :
  0 <= pity < counter_max →
  unchanged s (Roll_write p q rolls pity s).2 ∨ inserted rolls p q pity s (Roll_write p q rolls pity s).2.
Proof.
  intros Hp. unfold Roll_write. rewrite M_bind_eq. unfold wrapErr.
  destruct (InsertRollsAndUpdatePity rolls p q pity s) as [[[]|e|x] s'] eqn:E; simpl.
  - right. by eapply Insert_ok.
  - by eapply Insert_err.
  - by eapply Insert_err.
Qed.

Lemma conc_inv_fire e c c' :
  exclusive canon e c = true → conc_fire IntN NewV7 GetPool e c = Some c' → conc_inv c → conc_inv c'.
Proof.
  intros Hex Hf (Hinv & Hready & Hkeys). destruct e as [g now p q n gu|g]; simpl in Hf, Hex.
  - apply bool_decide_eq_true in Hex. destruct (cc_pending c !! g) eqn:Hg; [done|].
    destruct (Roll_draw _ _ _ now p q n (cc_store c, gu)) as [r [s' gu']] eqn:E.
    apply (Roll_draw_spec _ _ _ _ _ _ _ _ _ Hinv) in E as [Hs Hr].
    assert (map_Forall (λ _ pd, ready s' pd) (cc_pending c)) as Hready'.
    { intros h pd Hpd. destruct (Hready h pd Hpd) as (pool & ? & ?). exists pool. split; [done|].
      by eapply continues_unchanged. }
    destruct r as [[rolls pity]|e|x]; injection Hf as <-;
      (split; [by eapply pity_inv_unchanged|]); [|done..].
    destruct (Hr rolls pity eq_refl) as (pool & Hpool & Hc). split.
    + apply map_Forall_insert_2; [|done]. exists pool. split; [done|]. by eapply continues_unchanged.
    + intros g1 g2 pd1 pd2. cbn [cc_pending]. rewrite !lookup_insert_Some.
      intros [[<- <-]|[? H1]] [[<- <-]|[? H2]] Hk; [done| | |by eapply Hkeys].
      * by destruct (Hex g2 pd2 H2).
      * by destruct (Hex g1 pd1 H1).
  - destruct (cc_pending c !! g) as [pd|] eqn:Hg; [|done]. injection Hf as <-. cbn [cc_store cc_pending].
    destruct (Hready g pd Hg) as (pool & Hpool & Hc). pose proof Hc as (Hown & Hmax & _).
    set (s' := (Roll_write _ _ _ _ _).2).
    assert (pity_inv GetPool s' ∧ ∀ h pd', h ≠ g → cc_pending c !! h = Some pd' → ready s' pd') as [Hp Hr].
    { destruct (Roll_write_spec (pd_player pd) (pd_pool pd) (pd_rolls pd) (pd_pity pd) (cc_store c) Hmax)
        as [Hs|Hs]; fold s' in Hs.
      - split; [by eapply pity_inv_unchanged|]. intros h pd' _ Hpd'.
        destruct (Hready h pd' Hpd') as (pool' & ? & ?). exists pool'. split; [done|].
        by eapply continues_unchanged.
      - split; [by eapply continues_inserted|]. intros h pd' Hne Hpd'.
        destruct (Hready h pd' Hpd') as (pool' & ? & ?). exists pool'. split; [done|].
        eapply continues_other; [exact Hown| |exact Hs|done].
        intros Hk. apply Hne. by eapply Hkeys. }
    split; [done|]. split.
    + intros h pd'. cbn [cc_pending]. rewrite lookup_delete_Some. intros [? Hpd']. by apply (Hr h).
    + intros g1 g2 pd1 pd2. cbn [cc_pending]. rewrite !lookup_delete_Some. intros [_ H1] [_ H2]. by apply Hkeys.
Qed.

(** C16. Concurrent rolls. From an empty ledger, in every interleaving of any number of
    calls in which no two calls for one player and pool overlap, at every moment
    each stored counter is the number of rolls since the last SSR, every ceiling
    has been granted exactly when it was due, and no player is without an SSR for
    as many rolls as the ceiling, whatever writes fail. *)
Theorem concurrent_rolls (es : list (conc_event G U)) (s : S) (c : conc S)
    (Hempty : rolls_of s = [] ∧ ∀ p q, pity_of s p q = 0)
    (Hrun : conc_run IntN NewV7 GetPool es {| cc_store := s; cc_pending := ∅ |} = Some c)
    (Hex : no_overlap IntN NewV7 GetPool canon es {| cc_store := s; cc_pending := ∅ |} = true) :
  ∀ p q pool, GetPool q = Ok pool →
    pity_of (cc_store c) p q = drought (hist (cc_store c) p q) ∧
    ceiling_ok (PityThreshold pool) (hist (cc_store c) p q) ∧
    drought (hist (cc_store c) p q) < PityThreshold pool.
Proof.
  assert (conc_inv {| cc_store := s; cc_pending := ∅ |}) as Hinv.
  { destruct Hempty as [Hr Hp]. split; [|split; [apply map_Forall_empty|done]].
    by apply pity_inv_empty. }
  assert (conc_inv c) as (Hp & _ & _); [|exact Hp].
  revert Hinv Hrun Hex. generalize (Build_conc s ∅) as c0.
  induction es as [|e es IH]; intros c0 Hinv Hrun Hex; [by injection Hrun as <-|].
  cbn [conc_run no_overlap] in *. apply andb_prop in Hex as [He Hes].
  destruct (conc_fire _ _ _ e c0) as [c1|] eqn:E; [|done]. simpl in Hrun.
  apply (IH c1); [by eapply conc_inv_fire|done|done].
Qed.
End correctness.

(** ** A run, and what an overlap does *)

(** Two players whose calls interleave. *)
Definition demo_interleaving : list (conc_event Z Z) :=
  [ CDraw 0 7 "p1" "demo" 3 (42, 0); CDraw 1 7 "p2" "demo" 10 (43, 3); CWrite 1;
    CDraw 2 8 "p2" "demo" 1 (44, 13); CWrite 0; CDraw 1 8 "p1" "demo" 4 (45, 14); CWrite 1; CWrite 2 ].

Definition demo_conc_start : conc GachaRepo := {| cc_store := NewGachaRepo; cc_pending := ∅ |}.

Definition demo_conc_end : conc GachaRepo :=
  default demo_conc_start (conc_run lcg fixed_ids demo_registry demo_interleaving demo_conc_start).

Lemma concurrent_rolls_witness :
  length (rolls_of (cc_store demo_conc_end)) = 18%nat ∧
  drought (history canon "p1" "demo" (rolls_of (cc_store demo_conc_end))) < 80.
Proof.
  assert (Hrun : is_Some (conc_run lcg fixed_ids demo_registry demo_interleaving demo_conc_start))
    by (vm_compute; by eexists).
  split; [vm_compute; reflexivity|]. unfold demo_conc_end.
  destruct (conc_run _ _ _ _ _) as [c|] eqn:E in Hrun |- *; [|by destruct Hrun].
  exact (proj2 (proj2 (concurrent_rolls lcg fixed_ids demo_registry lcg_in_range demo_registry_inmem
    demo_interleaving NewGachaRepo c (conj eq_refl (λ p q, eq_refl)) E
    ltac:(vm_compute; reflexivity) "p1" "demo" demo_pool eq_refl))).
Defined.

(** A generator without luck. *)
Definition unlucky : RandIntN unit := λ n g, (n - 1, g).

(** One player: seven calls for ten cards, one for eight, and then two calls for
    one card that overlap. *)
Definition overlapping : list (conc_event unit Z) :=
  mjoin (replicate 7 [CDraw 0 7 "p1" "demo" 10 ((), 0); CWrite 0]) ++
  [ CDraw 0 7 "p1" "demo" 8 ((), 0); CWrite 0;
    CDraw 0 8 "p1" "demo" 1 ((), 0); CDraw 1 8 "p1" "demo" 1 ((), 0); CWrite 0; CWrite 1 ].

(** Both overlapping calls read 78 and write 79: the player has rolled 80 times
    without an SSR, with a ceiling of 80, and the counter has lost one. *)
Example overlap_loses_an_update :
  (λ c, (pity_of (cc_store c) "p1" "demo",
         drought (history canon "p1" "demo" (rolls_of (cc_store c))),
         no_overlap unlucky fixed_ids demo_registry canon overlapping demo_conc_start))
    <$> conc_run unlucky fixed_ids demo_registry overlapping demo_conc_start
  = Some (79, 80, false).
Proof. vm_compute. reflexivity. Qed.
