(* ===== verification/Ranking.v ===== *)
(** * Rankings: the in-memory leaderboard and the ranking service

    Models [internal/domain/ranking], [internal/service/ranking/service.go]
    against the [RankingStore] interface it declares, and the in-memory store
    [internal/persistence/inmem/leaderboard.go]. *)

From S2P Require Import GoLang.

(** ** Data and policy *)

Record Entry := { Entry_PlayerID : string; Score : Z; EntryRank : Z }.

#[export] Instance Entry_eq_dec : EqDecision Entry.
Proof. solve_decision. Defined.

Definition MaxTopN : Z := 100.
Definition DefaultTopN : Z := 10.
Definition MaxAroundRadius : Z := 25.
Definition DefaultAroundRadius : Z := 5.

Definition ranking_ErrPlayerNotRanked : error :=
  ErrorsNew "ranking.ErrPlayerNotRanked" "player not in ranking".
Definition ranking_ErrInvalidLimit : error :=
  ErrorsNew "ranking.ErrInvalidLimit" "invalid limit".

(** The store the service requires; the event service uses [IncrBy] only. *)
Class RankingStore (S : Type) := {
  IncrBy : string → string → Z → M S Z;
  Top : string → Z → M S (list Entry);
  Rank : string → string → M S Entry;
  Around : string → string → Z → M S (list Entry) }.

(** ** The in-memory leaderboard *)

(** [scores map[string]map[string]int64]: event, player, score. *)
Record Leaderboard := { scores : gmap string (gmap string Z) }.

Definition NewLeaderboard : Leaderboard := {| scores := ∅ |}.

Definition Leaderboard_IncrBy (eventID playerID : string) (delta : Z) : M Leaderboard Z := λ l,
  let inner := default ∅ (scores l !! eventID) in
  let total := default 0 (inner !! playerID) [+] delta in
  (Ok total, {| scores := <[eventID := <[playerID := total]> inner]> (scores l) |}).

(** The comparison given to [sort.Slice]: higher score first, ties by player
    identifier in decreasing byte order. *)
Definition entry_less (a b : Entry) : bool :=
  if Score a =? Score b then String.ltb (Entry_PlayerID b) (Entry_PlayerID a)
  else Score b <? Score a.

(** [for i := range entries { entries[i].Rank = i + 1 }]. *)
Definition assign_ranks (entries : list Entry) : list Entry :=
  imap (λ i e, {| Entry_PlayerID := Entry_PlayerID e; Score := Score e;
                  EntryRank := Z.of_nat i + 1 |}) entries.

Section leaderboard.
Context `{!GoRuntime}.

Definition sortedLocked (l : Leaderboard) (eventID : string) : list Entry :=
  match scores l !! eventID with
  | None => []
  | Some inner =>
      assign_ranks (sort_slice entry_less
        ((λ '(p, s), {| Entry_PlayerID := p; Score := s; EntryRank := 0 |})
           <$> map_range inner))
  end.

Definition Leaderboard_Top (eventID : string) (n : Z) : M Leaderboard (list Entry) := λ l,
  let sorted := sortedLocked l eventID in
  let n := if Z.of_nat (length sorted) <? n then Z.of_nat (length sorted) else n in
  (slice_range sorted 0 n, l).

(** The first entry of the player in a list. *)
Fixpoint find_entry (playerID : string) (entries : list Entry) : option Entry :=
  match entries with
  | [] => None
  | e :: entries' =>
      if bool_decide (Entry_PlayerID e = playerID) then Some e
      else find_entry playerID entries'
  end.

Definition Leaderboard_Rank (eventID playerID : string) : M Leaderboard Entry := λ l,
  (match find_entry playerID (sortedLocked l eventID) with
   | Some e => Ok e
   | None => Err ranking_ErrPlayerNotRanked
   end, l).

(** The loop that sets [idx], -1 when the player is absent. *)
Fixpoint index_loop (playerID : string) (i : Z) (entries : list Entry) : Z :=
  match entries with
  | [] => -1
  | e :: entries' =>
      if bool_decide (Entry_PlayerID e = playerID) then i
      else index_loop playerID (i + 1) entries'
  end.

Definition Leaderboard_Around (eventID playerID : string) (radius : Z)
    : M Leaderboard (list Entry) := λ l,
  let sorted := sortedLocked l eventID in
  let idx := index_loop playerID 0 sorted in
  if idx <? 0 then (Err ranking_ErrPlayerNotRanked, l)
  else
    let start := idx [-] radius in
    let start := if start <? 0 then 0 else start in
    let stop := (idx [+] radius) [+] 1 in
    let stop := if Z.of_nat (length sorted) <? stop then Z.of_nat (length sorted) else stop in
    (slice_range sorted start stop, l).

#[export] Instance inmem_RankingStore : RankingStore Leaderboard := {|
  IncrBy := Leaderboard_IncrBy;
  Top := Leaderboard_Top;
  Rank := Leaderboard_Rank;
  Around := Leaderboard_Around |}.
End leaderboard.

(** ** The service *)

Section service.
Context {S : Type} `{!RankingStore S}.

Definition RankingService_Top (eventID : string) (n : Z) : M S (list Entry) :=
  let n := if n <=? 0 then DefaultTopN else n in
  if MaxTopN <? n then fail ranking_ErrInvalidLimit
  else wrapErr "store.Top" (Top eventID n).

(** The store's "not ranked" is passed on unwrapped, anything else wrapped. *)
Definition pass_NotRanked {A} (prefix : string) (m : M S A) : M S A := λ s,
  match m s with
  | (Err e, s') =>
      if errors_Is e ranking_ErrPlayerNotRanked then (Err e, s')
      else (Err (Errorf_w prefix e), s')
  | r => r
  end.

Definition RankingService_Around (eventID playerID : string) (radius : Z) : M S (list Entry) :=
  let radius := if radius <? 0 then DefaultAroundRadius else radius in
  if MaxAroundRadius <? radius then fail ranking_ErrInvalidLimit
  else pass_NotRanked "store.Around" (Around eventID playerID radius).

Definition RankingService_Rank (eventID playerID : string) : M S Entry :=
  pass_NotRanked "store.Rank" (Rank eventID playerID).
End service.

(** ** Specification *)

(** The scores of an event. *)
Definition event_scores (l : Leaderboard) (eventID : string) : gmap string Z :=
  default ∅ (scores l !! eventID).

(** A player with its score is ahead of another: higher score, or the same
    score and the greater identifier. *)
Definition ahead (a b : string * Z) : Prop :=
  b.2 < a.2 ∨ (b.2 = a.2 ∧ String.ltb b.1 a.1 = true).

#[export] Instance ahead_dec a b : Decision (ahead a b) := _.

Definition entry_pair (e : Entry) : string * Z := (Entry_PlayerID e, Score e).

(** The ranking of an event: its entries from first to last. *)
Definition is_ranking (m : gmap string Z) (entries : list Entry) : Prop :=
  entry_pair <$> entries ≡ₚ map_to_list m ∧
  StronglySorted ahead (entry_pair <$> entries) ∧
  ∀ i e, entries !! i = Some e → EntryRank e = Z.of_nat i + 1.

Section order.
Lemma string_ltb_leb s t : String.ltb s t = negb (String.leb t s).
Proof.
  unfold String.ltb, String.leb. rewrite (String.compare_antisym s t).
  by destruct (t ?= s)%string.
Qed.

Lemma string_leb_le s t : String.leb s t = true ↔ String.le s t.
Proof. unfold String.le. by rewrite Is_true_true. Qed.

Lemma string_ltb_irrefl s : String.ltb s s = false.
Proof. by rewrite string_ltb_leb, negb_false_iff, string_leb_le. Qed.

Lemma entry_less_ahead a b : entry_less a b = true ↔ ahead (entry_pair a) (entry_pair b).
Proof.
  unfold entry_less, ahead, entry_pair. simpl.
  destruct (Z.eqb_spec (Score a) (Score b)) as [Heq|Hne].
  - rewrite Heq. split; [by right|intros [?|[_ ?]]; [lia|done]].
  - rewrite Z.ltb_lt. split; [by left|intros [?|[? _]]; [done|congruence]].
Qed.

(** [not_after a b]: [b] does not go before [a]. *)
Lemma entry_not_less a b :
  entry_less b a = false ↔
  Score b < Score a ∨ (Score a = Score b ∧ String.le (Entry_PlayerID b) (Entry_PlayerID a)).
Proof.
  unfold entry_less. destruct (Z.eqb_spec (Score b) (Score a)) as [Heq|Hne].
  - rewrite string_ltb_leb, negb_false_iff, string_leb_le.
    split; [intros; right; done|intros [?|[_ ?]]; [lia|done]].
  - rewrite Z.ltb_ge. split; [left; lia|lia].
Qed.

Lemma entry_less_weak : strict_weak entry_less.
Proof.
  split.
  - intros x y. rewrite entry_less_ahead. intros [H|[H1 H2]]; apply entry_not_less; simpl in *.
    + by left.
    + right. split; [done|]. rewrite string_ltb_leb in H2.
      apply negb_true_iff in H2. destruct (String.le_total (Entry_PlayerID y) (Entry_PlayerID x))
        as [?|Hle]; [done|]. apply string_leb_le in Hle. congruence.
  - intros x y z. rewrite !entry_not_less.
    intros [?|[? ?]] [?|[? ?]]; [left; lia..|right].
    split; [lia|]. by etrans.
Qed.
End order.

Section rankings.
Implicit Types (m : gmap string Z) (es : list Entry).

Lemma ahead_irrefl a : ¬ ahead a a.
Proof. intros [H|[_ H]]; [by apply Z.lt_irrefl in H|]. by rewrite string_ltb_irrefl in H. Qed.

Lemma ahead_asym a b : ahead a b → ¬ ahead b a.
Proof.
  intros [?|[He H1]] [?|[He' H2]]; [lia..|].
  rewrite string_ltb_leb, negb_true_iff in H1, H2.
  destruct (String.le_total a.1 b.1) as [H|H]; apply string_leb_le in H; congruence.
Qed.

Lemma not_less_ahead a b :
  entry_less b a = false → Entry_PlayerID a ≠ Entry_PlayerID b →
  ahead (entry_pair a) (entry_pair b).
Proof.
  rewrite entry_not_less. intros [?|[? Hle]] Hne; [by left|right].
  split; [done|]. simpl. rewrite string_ltb_leb, negb_true_iff.
  apply not_true_iff_false. rewrite string_leb_le. intros Hle'.
  by apply Hne, (anti_symm String.le).
Qed.

Lemma StronglySorted_strict es :
  StronglySorted (λ a b, entry_less b a = false) es → NoDup (Entry_PlayerID <$> es) →
  StronglySorted ahead (entry_pair <$> es).
Proof.
  induction 1 as [|e es Hes IH He]; rewrite ?fmap_cons; [constructor|].
  intros [Hnot Hnd]%NoDup_cons. constructor; [by apply IH|].
  apply Forall_fmap, Forall_forall. intros x Hx. rewrite Forall_forall in He.
  apply not_less_ahead; [by apply He|]. intros Heq. apply Hnot. rewrite Heq.
  by apply list_elem_of_fmap_2.
Qed.

Lemma assign_ranks_pairs es : entry_pair <$> assign_ranks es = entry_pair <$> es.
Proof.
  unfold assign_ranks. rewrite fmap_imap.
  rewrite <- (imap_const entry_pair es). by apply imap_ext.
Qed.

Lemma assign_ranks_rank es i e :
  assign_ranks es !! i = Some e → EntryRank e = Z.of_nat i + 1.
Proof.
  unfold assign_ranks. rewrite list_lookup_imap.
  destruct (es !! i); [|done]. by intros [= <-].
Qed.

Lemma sortedLocked_is_ranking `{!GoRuntime} l eventID :
  is_ranking (event_scores l eventID) (sortedLocked l eventID).
Proof.
  unfold sortedLocked, event_scores.
  destruct (scores l !! eventID) as [inner|]; simpl.
  2:{ split_and!; [by rewrite map_to_list_empty|constructor|done]. }
  set (mk := λ '(p, s), {| Entry_PlayerID := p; Score := s; EntryRank := 0 |}).
  set (raw := mk <$> map_range inner).
  assert (Hraw : entry_pair <$> raw = map_range inner).
  { unfold raw. rewrite <- list_fmap_compose.
    rewrite <- (list_fmap_id (map_range inner)) at 2.
    apply list_fmap_ext. by intros ? []. }
  pose proof (sort_slice_perm entry_less raw) as Hperm.
  assert (Hpairs : entry_pair <$> sort_slice entry_less raw ≡ₚ map_to_list inner).
  { rewrite Hperm, Hraw. apply map_range_perm. }
  split_and!; [by rewrite assign_ranks_pairs| |apply assign_ranks_rank].
  rewrite assign_ranks_pairs. apply StronglySorted_strict.
  - apply sort_slice_sorted, entry_less_weak.
  - assert (Entry_PlayerID <$> sort_slice entry_less raw
      = fst <$> (entry_pair <$> sort_slice entry_less raw)) as ->
      by by rewrite <- list_fmap_compose.
    rewrite Hpairs. apply NoDup_fst_map_to_list.
Qed.

(** An event has one ranking. *)
Lemma is_ranking_unique m es1 es2 : is_ranking m es1 → is_ranking m es2 → es1 = es2.
Proof.
  intros (Hp1 & Hs1 & Hr1) (Hp2 & Hs2 & Hr2).
  assert (Heq : entry_pair <$> es1 = entry_pair <$> es2).
  { apply (StronglySorted_unique_strong ahead); [|done|done|by rewrite Hp1, Hp2].
    intros x1 x2 _ _ H1 H2. by destruct (ahead_asym _ _ H1). }
  apply list_eq. intros i.
  pose proof (f_equal (λ l, l !! i) Heq) as Hi. simpl in Hi.
  rewrite !list_lookup_fmap in Hi.
  destruct (es1 !! i) as [e1|] eqn:E1, (es2 !! i) as [e2|] eqn:E2; try done.
  apply Hr1 in E1. apply Hr2 in E2. simpl in Hi.
  destruct e1, e2. unfold entry_pair in Hi. simpl in *. naive_solver.
Qed.

Lemma is_ranking_elem m es e :
  is_ranking m es → e ∈ es → m !! Entry_PlayerID e = Some (Score e).
Proof.
  intros (Hp & _ & _) He. apply elem_of_map_to_list. rewrite <- Hp.
  by apply (list_elem_of_fmap_2 entry_pair).
Qed.

Lemma is_ranking_find m es p s :
  is_ranking m es → m !! p = Some s →
  ∃ i e, es !! i = Some e ∧ Entry_PlayerID e = p ∧ Score e = s.
Proof.
  intros (Hp & _ & _) Hm. apply elem_of_map_to_list in Hm. rewrite <- Hp in Hm.
  apply list_elem_of_fmap in Hm as ([p' s' k] & [= -> ->] & [i Hi]%list_elem_of_lookup).
  by eexists i, _.
Qed.

Lemma is_ranking_inj m es i j e e' :
  is_ranking m es → es !! i = Some e → es !! j = Some e' →
  Entry_PlayerID e = Entry_PlayerID e' → i = j.
Proof.
  intros (Hp & _ & _) Hi Hj Heq.
  assert (NoDup (fst <$> (entry_pair <$> es))) as Hnd
    by (rewrite Hp; apply NoDup_fst_map_to_list).
  rewrite <- list_fmap_compose in Hnd.
  eapply (proj1 (NoDup_alt _) Hnd); rewrite list_lookup_fmap.
  - by rewrite Hi.
  - rewrite Hj. simpl. by rewrite Heq.
Qed.

(** The position in a strictly sorted list counts those ahead. *)
Lemma StronglySorted_count l i x :
  StronglySorted ahead l → l !! i = Some x → count (λ y, ahead y x) l = i.
Proof.
  intros Hs Hi. pose proof (take_drop_middle _ _ _ Hi) as Heq.
  rewrite <- Heq in Hs |- *.
  apply StronglySorted_app in Hs as (Hb & _ & Ha).
  apply StronglySorted_cons in Ha as [Ha _]. rewrite count_app.
  rewrite count_all, count_none.
  - rewrite length_take. apply lookup_lt_Some in Hi. lia.
  - constructor; [apply ahead_irrefl|]. apply (Forall_impl _ _ _ Ha).
    intros y. apply ahead_asym.
  - apply Forall_forall. intros y Hy. apply Hb; [done|by left].
Qed.

Lemma is_ranking_rank m es i e :
  is_ranking m es → es !! i = Some e →
  EntryRank e = Z.of_nat i + 1 ∧
  count (λ kv, ahead kv (entry_pair e)) (map_to_list m) = i.
Proof.
  intros (Hp & Hs & Hr) Hi. split; [by apply Hr|].
  rewrite <- (StronglySorted_count _ i (entry_pair e) Hs).
  - unfold count. by rewrite <- Hp.
  - by rewrite list_lookup_fmap, Hi.
Qed.

Lemma find_entry_Some p es e :
  find_entry p es = Some e → e ∈ es ∧ Entry_PlayerID e = p.
Proof.
  induction es as [|e' es IH]; simpl; [done|]. case_bool_decide as Hp.
  - intros [= ->]. split; [by left|done].
  - intros [? ?]%IH. split; [by right|done].
Qed.

Lemma find_entry_None p es : find_entry p es = None → p ∉ Entry_PlayerID <$> es.
Proof.
  induction es as [|e' es IH]; simpl; [by intros _ ?%elem_of_nil|].
  case_bool_decide; [done|]. intros Hn%IH. rewrite elem_of_cons. intros [->|?]; done.
Qed.

Lemma index_loop_spec p k es :
  0 <= k →
  (index_loop p k es = -1 ∧ p ∉ Entry_PlayerID <$> es) ∨
  ∃ i e, index_loop p k es = k + Z.of_nat i ∧ es !! i = Some e ∧ Entry_PlayerID e = p.
Proof.
  revert k. induction es as [|e es IH]; intros k Hk; simpl.
  - left. split; [done|by intros ?%elem_of_nil].
  - case_bool_decide as Hp.
    + right. exists 0%nat, e. split_and!; [lia|done|done].
    + destruct (IH (k + 1)) as [[-> ?]|(i & e' & -> & ? & ?)]; [lia|left|right].
      * split; [done|]. rewrite elem_of_cons. intros [->|?]; done.
      * exists (S i), e'. split_and!; [lia|done|done].
Qed.
End rankings.

(** The entries ranked within [r] of rank [k] are a segment of the ranking. *)
Lemma filter_rank_segment k r es off :
  0 <= r →
  (∀ i e, es !! i = Some e → EntryRank e = off + Z.of_nat i + 1) →
  filter (λ e, k - r <= EntryRank e <= k + r) es =
  take (Z.to_nat (k + r - off) - Z.to_nat (k - r - 1 - off))
    (drop (Z.to_nat (k - r - 1 - off)) es).
Proof.
  intros Hr. revert off. induction es as [|e es IH]; intros off Hrank.
  { by rewrite drop_nil, take_nil. }
  assert (He : EntryRank e = off + 1) by (rewrite (Hrank 0%nat e); [lia|done]).
  specialize (IH (off + 1)). assert (Hes : ∀ i e0, es !! i = Some e0 →
    EntryRank e0 = off + 1 + Z.of_nat i + 1).
  { intros i e0 Hi. rewrite (Hrank (S i) e0); [lia|done]. }
  specialize (IH Hes).
  destruct (decide (k - r - 1 - off <= 0)) as [Hlo|Hlo].
  - replace (Z.to_nat (k - r - 1 - off)) with 0%nat by lia.
    replace (Z.to_nat (k - r - 1 - (off + 1))) with 0%nat in IH by lia.
    rewrite drop_0, Nat.sub_0_r in IH |- *.
    destruct (decide (0 < k + r - off)).
    + replace (Z.to_nat (k + r - off)) with (S (Z.to_nat (k + r - (off + 1)))) by lia.
      rewrite filter_cons_True by lia. simpl. by rewrite IH.
    + replace (Z.to_nat (k + r - off)) with 0%nat by lia.
      replace (Z.to_nat (k + r - (off + 1))) with 0%nat in IH by lia.
      rewrite filter_cons_False by lia. by rewrite IH.
  - rewrite filter_cons_False by lia. rewrite IH.
    replace (Z.to_nat (k - r - 1 - off)) with (S (Z.to_nat (k - r - 1 - (off + 1)))) by lia.
    simpl. f_equal. lia.
Qed.

(** ** Properties *)

Section properties.
Context `{!GoRuntime}.

(** C9. Top-N. For every runtime (map iteration order, unstable sort), the
    service answers the first entries of the one ranking of the event: [n]
    of them, 10 when [n] is not positive, all of them when there are fewer;
    above 100 it refuses. It never panics and never changes the store. *)
Theorem RankingService_Top_spec (l : Leaderboard) (eventID : string) (n : Z) :
  ∃ es, is_ranking (event_scores l eventID) es ∧
    (∀ es', is_ranking (event_scores l eventID) es' → es' = es) ∧
    RankingService_Top eventID n l =
      (if MaxTopN <? n then Err ranking_ErrInvalidLimit
       else Ok (take (Z.to_nat (if n <=? 0 then DefaultTopN else n)) es), l).
Proof.
  pose proof (sortedLocked_is_ranking l eventID) as Hes.
  exists (sortedLocked l eventID). split_and!; [done| |].
  { intros es' Hes'. by eapply is_ranking_unique. }
  unfold RankingService_Top, Top, inmem_RankingStore, Leaderboard_Top, wrapErr.
  assert (Hn : (MaxTopN <? (if n <=? 0 then DefaultTopN else n)) = (MaxTopN <? n))
    by (unfold MaxTopN, DefaultTopN; destruct (Z.leb_spec n 0); lia).
  rewrite Hn. destruct (MaxTopN <? n); [done|].
  assert (0 <= if n <=? 0 then DefaultTopN else n)
    by (unfold DefaultTopN; destruct (Z.leb_spec n 0); lia).
  generalize dependent (if n <=? 0 then DefaultTopN else n). intros k _ Hk.
  destruct (Z.ltb_spec (Z.of_nat (length (sortedLocked l eventID))) k).
  - rewrite slice_range_ok, drop_0 by lia. rewrite !take_ge by lia. done.
  - rewrite slice_range_ok, drop_0, Z.sub_0_r by lia. done.
Qed.

(** [Rank] in terms of the sorted entries. *)
Lemma Rank_run (l : Leaderboard) (eventID playerID : string) :
  RankingService_Rank eventID playerID l =
  (match find_entry playerID (sortedLocked l eventID) with
   | Some e => Ok e
   | None => Err ranking_ErrPlayerNotRanked
   end, l).
Proof.
  unfold RankingService_Rank, pass_NotRanked, Rank, inmem_RankingStore, Leaderboard_Rank.
  destruct (find_entry playerID (sortedLocked l eventID)); [done|by autorewrite with go].
Qed.

(** Rank. A player with a score gets its score and one more than the
    number of players ahead of it; any other player gets exactly
    [ErrPlayerNotRanked], unwrapped. *)
Theorem RankingService_Rank_spec (l : Leaderboard) (eventID playerID : string) :
  RankingService_Rank eventID playerID l =
    (match event_scores l eventID !! playerID with
     | Some s =>
         Ok {| Entry_PlayerID := playerID; Score := s;
               EntryRank := 1 + Z.of_nat (count (λ kv, ahead kv (playerID, s))
                              (map_to_list (event_scores l eventID))) |}
     | None => Err ranking_ErrPlayerNotRanked
     end, l).
Proof.
  pose proof (sortedLocked_is_ranking l eventID) as Hes.
  rewrite Rank_run. destruct (find_entry playerID (sortedLocked l eventID)) as [e|] eqn:Hf.
  - apply find_entry_Some in Hf as [He <-].
    rewrite (is_ranking_elem _ _ _ Hes He).
    apply list_elem_of_lookup in He as [i Hi].
    destruct (is_ranking_rank _ _ _ _ Hes Hi) as [Hr Hc].
    unfold entry_pair in Hc. rewrite Hc. destruct e; simpl in *. do 3 f_equal. lia.
  - destruct (event_scores l eventID !! playerID) as [s|] eqn:Hs; [|done].
    apply find_entry_None in Hf.
    destruct (is_ranking_find _ _ _ _ Hes Hs) as (i & e & Hi & <- & _).
    destruct Hf. apply list_elem_of_fmap_2. by eapply list_elem_of_lookup_2.
Qed.

(** [Around] in terms of the sorted entries. *)
Lemma Around_run (l : Leaderboard) (eventID playerID : string) (radius : Z) :
  Z.of_nat (size (event_scores l eventID)) < int64_half - MaxAroundRadius →
  let r := if radius <? 0 then DefaultAroundRadius else radius in
  RankingService_Around eventID playerID radius l =
    (if MaxAroundRadius <? radius then Err ranking_ErrInvalidLimit
     else match find_entry playerID (sortedLocked l eventID) with
          | None => Err ranking_ErrPlayerNotRanked
          | Some me =>
              Ok (filter (λ e, EntryRank me - r <= EntryRank e <= EntryRank me + r)
                    (sortedLocked l eventID))
          end, l).
Proof.
  intros Hsize r. pose proof (sortedLocked_is_ranking l eventID) as Hes.
  unfold RankingService_Around, Around, inmem_RankingStore, Leaderboard_Around, pass_NotRanked.
  fold r. assert (Hr : (MaxAroundRadius <? r) = (MaxAroundRadius <? radius))
    by (unfold r, MaxAroundRadius, DefaultAroundRadius; destruct (Z.ltb_spec radius 0); lia).
  rewrite Hr. destruct (Z.ltb_spec MaxAroundRadius radius) as [|Hmax]; [done|].
  assert (0 <= r <= MaxAroundRadius)
    by (unfold r, MaxAroundRadius, DefaultAroundRadius in *; destruct (Z.ltb_spec radius 0); lia).
  clearbody r. set (es := sortedLocked l eventID) in *.
  assert (Hlen : Z.of_nat (length es) < int64_half - MaxAroundRadius).
  { destruct Hes as (Hp & _). apply Permutation_length in Hp.
    rewrite length_fmap, length_map_to_list in Hp. by rewrite Hp. }
  destruct (index_loop_spec playerID 0 es) as [[-> Hnot]|(i & e & -> & Hi & <-)]; [done|..].
  { destruct (find_entry playerID es) as [e|] eqn:Hf; [|by autorewrite with go].
    apply find_entry_Some in Hf as [He <-]. destruct Hnot. by apply list_elem_of_fmap_2. }
  destruct (find_entry (Entry_PlayerID e) es) as [e'|] eqn:Hf.
  2:{ apply find_entry_None in Hf. destruct Hf. apply list_elem_of_fmap_2.
      by eapply list_elem_of_lookup_2. }
  apply find_entry_Some in Hf as [[j Hj]%list_elem_of_lookup Heq].
  assert (j = i) as -> by by eapply is_ranking_inj. simplify_eq.
  destruct Hes as (_ & _ & Hrank). rewrite (Hrank _ _ Hi).
  rewrite (filter_rank_segment _ r es 0) by first [lia|intros i' e' Hi'; rewrite (Hrank _ _ Hi'); lia].
  apply lookup_lt_Some in Hi. unfold MaxAroundRadius in *.
  rewrite !int_add_small, int_sub_small by (rewrite ?int_add_small; int_range).
  destruct (Z.ltb_spec (0 + Z.of_nat i) 0); [lia|].
  set (lo := if 0 + Z.of_nat i - r <? 0 then 0 else 0 + Z.of_nat i - r).
  assert (lo = Z.max 0 (Z.of_nat i - r)) as ->
    by (unfold lo; destruct (Z.ltb_spec (0 + Z.of_nat i - r) 0); lia).
  destruct (Z.ltb_spec (Z.of_nat (length es)) (0 + Z.of_nat i + r + 1)).
  - rewrite slice_range_ok by lia. f_equal. f_equal.
    replace (Z.to_nat (Z.of_nat i + 1 - r - 1 - 0)) with (Z.to_nat (Z.max 0 (Z.of_nat i - r))) by lia.
    rewrite !take_ge; [done|rewrite length_drop; lia..].
  - rewrite slice_range_ok by lia. do 3 f_equal; [lia|f_equal; lia].
Qed.

(** C24. Around. With a radius of at most 25 (negative means 5) a ranked
    player gets exactly the entries of the ranking whose rank differs from
    its own by at most the radius, in order; a larger radius and an unranked
    player get their errors. No index arithmetic overflows and no slice
    bound is out of range, for any event that fits a Go slice. *)
Theorem RankingService_Around_spec (l : Leaderboard) (eventID playerID : string) (radius : Z)
    (Hsize : Z.of_nat (size (event_scores l eventID)) < int64_half - MaxAroundRadius) :
  let r := if radius <? 0 then DefaultAroundRadius else radius in
  ∃ es, is_ranking (event_scores l eventID) es ∧
    RankingService_Around eventID playerID radius l =
      (if MaxAroundRadius <? radius then Err ranking_ErrInvalidLimit
       else match find_entry playerID es with
            | None => Err ranking_ErrPlayerNotRanked
            | Some me =>
                Ok (filter (λ e, EntryRank me - r <= EntryRank e <= EntryRank me + r) es)
            end, l).
Proof.
  intros r. exists (sortedLocked l eventID). split; [apply sortedLocked_is_ranking|].
  by apply Around_run.
Qed.
End properties.

(** A small event: a and c tie, b leads. *)
Definition demo_board : Leaderboard :=
  {| scores := {["ev" := {["a" := 10; "b" := 30; "c" := 10; "d" := 5]}]} |}.

Example demo_board_around :
  RankingService_Around "ev" "c" 1 demo_board =
  (Ok [ {| Entry_PlayerID := "b"; Score := 30; EntryRank := 1 |};
        {| Entry_PlayerID := "c"; Score := 10; EntryRank := 2 |};
        {| Entry_PlayerID := "a"; Score := 10; EntryRank := 3 |} ], demo_board).
Proof. vm_compute. reflexivity. Qed.

Lemma RankingService_Around_witness :
  ∃ es, is_ranking (event_scores demo_board "ev") es ∧
    RankingService_Around "ev" "c" 1 demo_board =
      (match find_entry "c" es with
       | None => Err ranking_ErrPlayerNotRanked
       | Some me => Ok (filter (λ e, EntryRank me - 1 <= EntryRank e <= EntryRank me + 1) es)
       end, demo_board).
Proof. exact (RankingService_Around_spec demo_board "ev" "c" 1 (eq_refl : _ = Lt)). Defined.

(** ** Increments *)

(** A sequence of increments: event, player, delta. *)
Fixpoint apply_incrs (ops : list (string * string * Z)) (l : Leaderboard) : Leaderboard :=
  match ops with
  | [] => l
  | (ev, p, d) :: ops' => apply_incrs ops' (Leaderboard_IncrBy ev p d l).2
  end.

Lemma apply_incrs_app ops1 ops2 l :
  apply_incrs (ops1 ++ ops2) l = apply_incrs ops2 (apply_incrs ops1 l).
Proof. revert l. induction ops1 as [|[[? ?] ?] ops1 IH]; intros l; [done|apply IH]. Qed.

(** What the increments of a sequence add to the score of a player. *)
Definition delta_of (eventID playerID : string) (ops : list (string * string * Z)) : Z :=
  foldr (λ '(ev, p, d) acc, if decide (ev = eventID ∧ p = playerID) then d + acc else acc) 0 ops.

Section increments.
Implicit Types (l : Leaderboard).

Lemma IncrBy_score ev p d l ev' p' :
  event_scores (Leaderboard_IncrBy ev p d l).2 ev' !! p' =
  if decide (ev = ev' ∧ p = p') then Some (default 0 (event_scores l ev' !! p') [+] d)
  else event_scores l ev' !! p'.
Proof.
  unfold event_scores, Leaderboard_IncrBy. simpl.
  destruct (decide (ev = ev')) as [->|].
  - rewrite lookup_insert_eq. simpl. destruct (decide (p = p')) as [->|].
    + rewrite lookup_insert_eq. by rewrite decide_True.
    + rewrite lookup_insert_ne by done. rewrite decide_False by tauto. done.
  - rewrite lookup_insert_ne by done. by rewrite decide_False by tauto.
Qed.

Lemma IncrBy_comm ev1 p1 d1 ev2 p2 d2 l :
  (Leaderboard_IncrBy ev1 p1 d1 (Leaderboard_IncrBy ev2 p2 d2 l).2).2 =
  (Leaderboard_IncrBy ev2 p2 d2 (Leaderboard_IncrBy ev1 p1 d1 l).2).2.
Proof.
  unfold Leaderboard_IncrBy. simpl. f_equal.
  destruct (decide (ev1 = ev2)) as [->|].
  - rewrite !lookup_insert_eq, !insert_insert_eq. simpl. f_equal.
    destruct (decide (p1 = p2)) as [->|].
    + rewrite !lookup_insert_eq, !insert_insert_eq. simpl. f_equal.
      rewrite <- !int_add_assoc. f_equal. apply int_add_comm.
    + rewrite !lookup_insert_ne by done. by apply insert_insert_ne.
  - rewrite !lookup_insert_ne by done. by apply insert_insert_ne.
Qed.

Lemma delta_of_none ev p ops :
  ¬ Exists (λ '(ev', p', _), ev' = ev ∧ p' = p) ops → delta_of ev p ops = 0.
Proof.
  induction ops as [|[[e q] d] ops IH]; [done|]. simpl. rewrite Exists_cons. intros Hno.
  rewrite decide_False by tauto. apply IH. tauto.
Qed.

Lemma delta_of_app ev p a b : delta_of ev p (a ++ b) = delta_of ev p a + delta_of ev p b.
Proof.
  induction a as [|[[ev' p'] d] a IH]; [done|]. unfold delta_of in *. simpl. rewrite IH.
  case_decide; lia.
Qed.

Lemma delta_of_perm ev p a b : a ≡ₚ b → delta_of ev p a = delta_of ev p b.
Proof.
  unfold delta_of. induction 1 as [|[[? ?] ?] a b _ IH|[[? ?] ?] [[? ?] ?] a|a b d _ IH1 _ IH2]; simpl;
    [done|by rewrite IH|by repeat case_decide; lia|congruence].
Qed.

Lemma apply_incrs_score ev p ops l :
  event_scores (apply_incrs ops l) ev !! p =
  if decide (Exists (λ '(ev', p', _), ev' = ev ∧ p' = p) ops)
  then Some (int64_wrap (default 0 (event_scores l ev !! p) + delta_of ev p ops))
  else event_scores l ev !! p.
Proof.
  revert l. induction ops as [|[[ev' p'] d] ops IH]; intros l; [done|]; cbn [apply_incrs].
  assert (Hd : delta_of ev p ((ev', p', d) :: ops) =
    if decide (ev' = ev ∧ p' = p) then d + delta_of ev p ops else delta_of ev p ops) by done.
  rewrite Hd. clear Hd.
  rewrite IH, IncrBy_score. set (E := Exists _ (_ :: ops)).
  destruct (decide (ev' = ev ∧ p' = p)) as [Heq|Hne].
  - destruct (decide E) as [_|Hno]; [|by destruct Hno; left]. simpl.
    destruct (decide (Exists _ ops)) as [|Hno].
    + unfold int_add. rewrite int64_wrap_add_l. do 2 f_equal. lia.
    + unfold int_add. by rewrite (delta_of_none ev p ops Hno), Z.add_0_r.
  - destruct (decide E) as [HE|HE].
    + destruct (decide (Exists _ ops)) as [|Hno]; [done|].
      apply Exists_cons in HE as [?|?]; done.
    + destruct (decide (Exists _ ops)) as [|Hno]; [|done].
      destruct HE. by right.
Qed.

(** The board's score is the sum of its increments. *)
Lemma board_score ev p ops :
  default 0 (event_scores (apply_incrs ops NewLeaderboard) ev !! p) = int64_wrap (delta_of ev p ops).
Proof.
  rewrite apply_incrs_score. unfold event_scores, NewLeaderboard. cbn [scores].
  rewrite lookup_empty. cbn. rewrite lookup_empty. cbn.
  case_decide as Hex; [done|]. by rewrite delta_of_none.
Qed.

(** Increments. Applying the increments of a batch in any order leaves
    the same leaderboard, and the score of a player some increment names is
    its old score (0 if it had none) plus all its deltas in 64-bit
    arithmetic; the other scores do not change. *)
Theorem IncrBy_order_independent (ops ops' : list (string * string * Z)) (l : Leaderboard)
    (Hperm : ops ≡ₚ ops') :
  apply_incrs ops l = apply_incrs ops' l ∧
  ∀ ev p, event_scores (apply_incrs ops l) ev !! p =
    if decide (Exists (λ '(ev', p', _), ev' = ev ∧ p' = p) ops)
    then Some (int64_wrap (default 0 (event_scores l ev !! p) + delta_of ev p ops))
    else event_scores l ev !! p.
Proof.
  split; [|intros; apply apply_incrs_score]. revert l.
  induction Hperm as [|[[ev p] d] o o' _ IH|[[ev p] d] [[ev' p'] d'] o|o o' o'' _ IH1 _ IH2];
    intros b; cbn [apply_incrs]; [done|apply IH|by rewrite IncrBy_comm|by rewrite IH1].
Qed.
End increments.

Lemma IncrBy_order_independent_witness :
  apply_incrs [("ev", "d", 7); ("ev", "a", -4); ("ev", "d", 1)] demo_board =
    apply_incrs [("ev", "d", 1); ("ev", "d", 7); ("ev", "a", -4)] demo_board ∧
  event_scores (apply_incrs [("ev", "d", 7); ("ev", "a", -4); ("ev", "d", 1)] demo_board) "ev"
    !! "d" = Some 13.
Proof.
  assert (Hp : [("ev", "d", 7); ("ev", "a", -4); ("ev", "d", 1)] ≡ₚ
               [("ev", "d", 1); ("ev", "d", 7); ("ev", "a", -4)]).
  { apply (Permutation_app_comm [("ev", "d", 7); ("ev", "a", -4)] [("ev", "d", 1)]). }
  destruct (IncrBy_order_independent _ _ demo_board Hp) as [Heq Hs].
  split; [exact Heq|]. rewrite Hs. vm_compute. reflexivity.
Defined.
