(* ===== verification/Event.v ===== *)
(** * Events: the domain and the in-memory repository

    Models [internal/domain/event] (an event's window and status, reward
    tiers), the repository interface the event service declares
    ([EventRepository]) and the in-memory implementation
    [internal/persistence/inmem/event_repo.go]. *)

From S2P Require Import GoLang.

(** ** Domain *)

Inductive Status := StatusUpcoming | StatusOngoing | StatusEnded.

#[export] Instance Status_eq_dec : EqDecision Status.
Proof. solve_decision. Defined.

Record Event := {
  Event_ID : string;
  Event_Name : string;
  StartAt : time;
  EndAt : time;
  Event_CreatedAt : time }.

(** [StatusAt]: the switch tries [now.Before(StartAt)] first. *)
Definition StatusAt (e : Event) (now : time) : Status :=
  if Before now (StartAt e) then StatusUpcoming
  else if After now (EndAt e) then StatusEnded
  else StatusOngoing.

(** The zero [time.Time]: the origin instants are counted from. *)
Definition zero_time : time := 0.

Record EventScore := {
  Score_EventID : string;
  Score_PlayerID : string;
  Points : Z;
  UpdatedAt : time }.

Record RewardTier := {
  Tier_EventID : string;
  Tier_No : Z;
  MinPoints : Z;
  RewardName : string }.

Fixpoint EligibleRewards (tiers : list RewardTier) (points : Z) : list RewardTier :=
  match tiers with
  | [] => []
  | t :: tiers' =>
      if MinPoints t <=? points then t :: EligibleRewards tiers' points
      else EligibleRewards tiers' points
  end.

Definition event_ErrNotFound : error := ErrorsNew "event.ErrNotFound" "event not found".
Definition event_ErrAlreadyExists : error :=
  ErrorsNew "event.ErrAlreadyExists" "event already exists".
Definition event_ErrInvalidWindow : error :=
  ErrorsNew "event.ErrInvalidWindow" "event time window is invalid (start must be before end)".
Definition event_ErrNotOngoing : error :=
  ErrorsNew "event.ErrNotOngoing" "event is not ongoing — cannot accumulate points".
Definition event_ErrInvalidDelta : error :=
  ErrorsNew "event.ErrInvalidDelta" "invalid score delta".

(** ** The repository interface *)

(** [AddScore] reads the clock of the repository: its last argument. *)
Class EventRepository (S : Type) := {
  CreateEvent : Event → M S unit;
  GetEvent : string → M S Event;
  ListCurrentEvents : time → M S (list Event);
  AddScore : string → string → Z → time → M S unit;
  GetScore : string → string → M S EventScore;
  ListRewardTiers : string → M S (list RewardTier);
  InsertRewardTier : RewardTier → M S unit }.

(** ** The in-memory repository *)

Record EventRepo := {
  er_events : gmap string Event;
  er_scores : gmap string EventScore;
  er_rewards : gmap string (list RewardTier) }.

Definition NewEventRepo : EventRepo :=
  {| er_events := ∅; er_scores := ∅; er_rewards := ∅ |}.

Definition scoreKey (eventID playerID : string) : string := eventID +:+ "/" +:+ playerID.

Definition EventRepo_CreateEvent (e : Event) : M EventRepo unit := λ r,
  match er_events r !! Event_ID e with
  | Some _ => (Err event_ErrAlreadyExists, r)
  | None =>
      (Ok tt, {| er_events := <[Event_ID e := e]> (er_events r);
                 er_scores := er_scores r; er_rewards := er_rewards r |})
  end.

Definition EventRepo_GetEvent (id : string) : M EventRepo Event := λ r,
  (match er_events r !! id with
   | Some e => Ok e
   | None => Err event_ErrNotFound
   end, r).

Definition EventRepo_AddScore (eventID playerID : string) (delta : Z) (now : time)
    : M EventRepo unit := λ r,
  let k := scoreKey eventID playerID in
  let sc :=
    match er_scores r !! k with
    | Some sc =>
        {| Score_EventID := Score_EventID sc; Score_PlayerID := Score_PlayerID sc;
           Points := Points sc [+] delta; UpdatedAt := now |}
    | None =>
        {| Score_EventID := eventID; Score_PlayerID := playerID;
           Points := delta; UpdatedAt := now |}
    end in
  (Ok tt, {| er_events := er_events r; er_scores := <[k := sc]> (er_scores r);
             er_rewards := er_rewards r |}).

Definition EventRepo_GetScore (eventID playerID : string) : M EventRepo EventScore := λ r,
  (Ok (match er_scores r !! scoreKey eventID playerID with
       | Some sc => sc
       | None => {| Score_EventID := eventID; Score_PlayerID := playerID;
                    Points := 0; UpdatedAt := zero_time |}
       end), r).

Definition EventRepo_InsertRewardTier (t : RewardTier) : M EventRepo unit := λ r,
  (Ok tt, {| er_events := er_events r; er_scores := er_scores r;
             er_rewards := <[Tier_EventID t := default [] (er_rewards r !! Tier_EventID t) ++ [t]]>
                             (er_rewards r) |}).

(** The condition of the loop of [ListCurrentEvents]. *)
Definition is_current (now : time) (e : Event) : bool :=
  (Before (StartAt e) now || Equal (StartAt e) now) &&
  (After (EndAt e) now || Equal (EndAt e) now).

Section ordered_reads.
Context `{!GoRuntime}.

Definition EventRepo_ListCurrentEvents (now : time) : M EventRepo (list Event) := λ r,
  (Ok (sort_slice (λ a b, Before (EndAt a) (EndAt b))
         (filter (λ e, is_current now e = true) (snd <$> map_range (er_events r)))), r).

Definition EventRepo_ListRewardTiers (eventID : string) : M EventRepo (list RewardTier) := λ r,
  (Ok (sort_slice (λ a b, Tier_No a <? Tier_No b)
         (default [] (er_rewards r !! eventID))), r).

#[export] Instance inmem_EventRepository : EventRepository EventRepo := {|
  CreateEvent := EventRepo_CreateEvent;
  GetEvent := EventRepo_GetEvent;
  ListCurrentEvents := EventRepo_ListCurrentEvents;
  AddScore := EventRepo_AddScore;
  GetScore := EventRepo_GetScore;
  ListRewardTiers := EventRepo_ListRewardTiers;
  InsertRewardTier := EventRepo_InsertRewardTier |}.
End ordered_reads.

(** ** Facts *)

Section facts.
Lemma key_less_weak {A} (f : A → Z) : strict_weak (λ a b, f a <? f b).
Proof. split; intros; lia. Qed.

Lemma EndAt_less_weak : strict_weak (λ a b, Before (EndAt a) (EndAt b)).
Proof. apply (key_less_weak EndAt). Qed.

Lemma StatusAt_ongoing e now :
  StatusAt e now = StatusOngoing ↔ StartAt e <= now <= EndAt e.
Proof.
  unfold StatusAt, Before, After.
  destruct (Z.ltb_spec now (StartAt e)), (Z.ltb_spec (EndAt e) now);
    split; intros; try done; lia.
Qed.

Lemma StatusAt_ended e now :
  StatusAt e now = StatusEnded ↔ StartAt e <= now ∧ EndAt e < now.
Proof.
  unfold StatusAt, Before, After.
  destruct (Z.ltb_spec now (StartAt e)), (Z.ltb_spec (EndAt e) now);
    split; intros; try done; lia.
Qed.

(** The repository's notion of "current" is the domain's. *)
Lemma is_current_ongoing now e : is_current now e = true ↔ StatusAt e now = StatusOngoing.
Proof.
  rewrite StatusAt_ongoing. unfold is_current, Before, After, Equal.
  rewrite andb_true_iff, !orb_true_iff. lia.
Qed.

Lemma EligibleRewards_filter tiers points :
  EligibleRewards tiers points = filter (λ t, MinPoints t <= points) tiers.
Proof.
  induction tiers as [|t tiers IH]; [done|]. simpl.
  destruct (Z.leb_spec (MinPoints t) points).
  - rewrite filter_cons_True by done. by rewrite IH.
  - rewrite filter_cons_False by lia. done.
Qed.

Lemma scoreKey_inj e p e' p' :
  has_char "/" e = false → has_char "/" e' = false →
  scoreKey e p = scoreKey e' p' → e = e' ∧ p = p'.
Proof. unfold scoreKey. apply string_sep_inj. Qed.
End facts.
