(* ===== verification/EventService.v ===== *)
(** * Event service: windows, scores, rewards

    Models [internal/service/event/service.go] over any repository and any
    leaderboard. A call that reads the service's clock takes the instants it
    reads as its last arguments, in the order of the reads. *)

From S2P Require Import GoLang Ranking Event.

(** ** The service *)

Definition maxScoreDelta : Z := 1000000.

Record CreateInput := {
  In_ID : string;
  In_Name : string;
  In_StartAt : time;
  In_EndAt : time;
  In_Rewards : list RewardTier }.

Record RewardsView := {
  View_Status : Status;
  View_Points : Z;
  View_Tiers : list RewardTier;
  View_Eligible : list RewardTier;
  View_Claimable : bool }.

(** [LeaderboardWriter]: the [IncrBy] of a leaderboard with state [L]. *)
Definition LeaderboardWriter (L : Type) : Type := string → string → Z → M L Z.

Section service.
Context {S L : Type} `{!EventRepository S}.

(** The field [leaderboard] may be nil. *)
Record EventService := { leaderboard : option (LeaderboardWriter L) }.

Definition WithLeaderboard (lb : LeaderboardWriter L) (s : EventService) : EventService :=
  {| leaderboard := Some lb |}.

Definition NewEventService (opts : list (EventService → EventService)) : EventService :=
  foldl (λ s o, o s) {| leaderboard := None |} opts.

(** [t.EventID = in.ID], on a copy of the tier. *)
Definition tier_for (id : string) (t : RewardTier) : RewardTier :=
  {| Tier_EventID := id; Tier_No := Tier_No t; MinPoints := MinPoints t;
     RewardName := RewardName t |}.

Fixpoint insert_tiers (id : string) (tiers : list RewardTier) : M S unit :=
  match tiers with
  | [] => mret tt
  | t :: tiers' =>
      wrapErr "repo.InsertRewardTier" (InsertRewardTier (tier_for id t));;
      insert_tiers id tiers'
  end.

Definition EventService_Create (inp : CreateInput) (now : time) : M S Event :=
  if negb (Before (In_StartAt inp) (In_EndAt inp)) then fail event_ErrInvalidWindow
  else
    let e := {| Event_ID := In_ID inp; Event_Name := In_Name inp;
                StartAt := In_StartAt inp; EndAt := In_EndAt inp;
                Event_CreatedAt := now |} in
    wrapErr "repo.CreateEvent" (CreateEvent e);;
    insert_tiers (In_ID inp) (In_Rewards inp);;
    mret e.

Definition EventService_Get (id : string) (now : time) : M S (Event * Status) :=
  e ← wrapErr "repo.GetEvent" (GetEvent id);
  mret (e, StatusAt e now).

Definition EventService_ListCurrent (now : time) : M S (list Event) :=
  wrapErr "repo.ListCurrentEvents" (ListCurrentEvents now).

(** The mirroring of an accepted score: an error is logged and dropped. *)
Definition mirror (svc : EventService) (eventID playerID : string) (delta : Z) : M L unit := λ l,
  match leaderboard svc with
  | None => (Ok tt, l)
  | Some incrBy =>
      match incrBy eventID playerID delta l with
      | (Panic w, l') => (Panic w, l')
      | (_, l') => (Ok tt, l')
      end
  end.

(** [now] is the service's reading, [now'] the repository's. *)
Definition EventService_AddScore (svc : EventService) (eventID playerID : string) (delta : Z)
    (now now' : time) : M (S * L) EventScore :=
  if (delta <=? 0) || (maxScoreDelta <? delta) then fail event_ErrInvalidDelta
  else
    e ← on_fst (wrapErr "repo.GetEvent" (GetEvent eventID));
    if bool_decide (StatusAt e now ≠ StatusOngoing) then fail event_ErrNotOngoing
    else
      on_fst (wrapErr "repo.AddScore" (AddScore eventID playerID delta now'));;
      sc ← on_fst (wrapErr "repo.GetScore" (GetScore eventID playerID));
      on_snd (mirror svc eventID playerID delta);;
      mret sc.

Definition EventService_GetScore (eventID playerID : string) : M S EventScore :=
  wrapErr "repo.GetEvent" (GetEvent eventID);;
  wrapErr "repo.GetScore" (GetScore eventID playerID).

(** [now1] is read for [Status], [now2] for [Claimable]. *)
Definition EventService_GetRewards (eventID playerID : string) (now1 now2 : time)
    : M S RewardsView :=
  e ← wrapErr "repo.GetEvent" (GetEvent eventID);
  tiers ← wrapErr "repo.ListRewardTiers" (ListRewardTiers eventID);
  sc ← wrapErr "repo.GetScore" (GetScore eventID playerID);
  mret {| View_Status := StatusAt e now1;
          View_Points := Points sc;
          View_Tiers := tiers;
          View_Eligible := EligibleRewards tiers (Points sc);
          View_Claimable := bool_decide (StatusAt e now2 = StatusEnded) |}.
End service.
Arguments EventService _ : clear implicits.

(** ** The service on the in-memory repository *)

(** Points of a player in an event, 0 when nothing is recorded. *)
Definition points_of (r : EventRepo) (eventID playerID : string) : Z :=
  match er_scores r !! scoreKey eventID playerID with
  | Some sc => Points sc
  | None => 0
  end.

(** The tiers recorded for an event. *)
Definition tiers_of (r : EventRepo) (eventID : string) : list RewardTier :=
  default [] (er_rewards r !! eventID).

(** The event [Create] registers. *)
Definition event_of (inp : CreateInput) (now : time) : Event :=
  {| Event_ID := In_ID inp; Event_Name := In_Name inp; StartAt := In_StartAt inp;
     EndAt := In_EndAt inp; Event_CreatedAt := now |}.

Definition delta_ok (delta : Z) : Prop := 0 < delta <= maxScoreDelta.

Section inmem.
Context `{!GoRuntime} {L : Type}.
Implicit Types (svc : EventService L) (r : EventRepo) (l : L).

Lemma GetEvent_run id r :
  wrapErr "repo.GetEvent" (GetEvent id) r =
  (match er_events r !! id with
   | Some e => Ok e
   | None => Err (Errorf_w "repo.GetEvent" event_ErrNotFound)
   end, r).
Proof. unfold wrapErr, GetEvent. simpl. unfold EventRepo_GetEvent. by destruct (_ !! _). Qed.

Lemma CreateEvent_run e r :
  wrapErr "repo.CreateEvent" (CreateEvent e) r =
  match er_events r !! Event_ID e with
  | Some _ => (Err (Errorf_w "repo.CreateEvent" event_ErrAlreadyExists), r)
  | None => (Ok tt, {| er_events := <[Event_ID e := e]> (er_events r);
                       er_scores := er_scores r; er_rewards := er_rewards r |})
  end.
Proof.
  unfold wrapErr, CreateEvent. simpl. unfold EventRepo_CreateEvent. by destruct (_ !! _).
Qed.

Lemma insert_tiers_inmem id tiers r :
  ∃ r', insert_tiers id tiers r = (Ok tt, r') ∧
    er_events r' = er_events r ∧ er_scores r' = er_scores r ∧
    tiers_of r' id = tiers_of r id ++ (tier_for id <$> tiers) ∧
    ∀ id', id' ≠ id → tiers_of r' id' = tiers_of r id'.
Proof.
  revert r. induction tiers as [|t tiers IH]; intros r; cbn [insert_tiers].
  { exists r. split_and!; try done. by rewrite fmap_nil, app_nil_r. }
  rewrite M_bind_eq. unfold wrapErr, InsertRewardTier, inmem_EventRepository,
    EventRepo_InsertRewardTier.
  match goal with |- context [insert_tiers id tiers ?r1] => destruct (IH r1) as
    (r' & Hrun & He & Hs & Ht & Hf) end.
  exists r'. split_and!; [done|by rewrite He|by rewrite Hs| |].
  - rewrite Ht. unfold tiers_of. simpl. rewrite lookup_insert_eq. simpl.
    by rewrite <- app_assoc.
  - intros id' Hne. rewrite Hf by done. unfold tiers_of. simpl.
    by rewrite lookup_insert_ne.
Qed.

Lemma Create_run (inp : CreateInput) (now : time) (r : EventRepo) :
  if decide (In_StartAt inp < In_EndAt inp) then
    match er_events r !! In_ID inp with
    | Some _ => EventService_Create inp now r =
        (Err (Errorf_w "repo.CreateEvent" event_ErrAlreadyExists), r)
    | None => ∃ r', EventService_Create inp now r = (Ok (event_of inp now), r') ∧
        er_events r' = <[In_ID inp := event_of inp now]> (er_events r) ∧
        er_scores r' = er_scores r ∧
        tiers_of r' (In_ID inp) =
          tiers_of r (In_ID inp) ++ (tier_for (In_ID inp) <$> In_Rewards inp) ∧
        (∀ id, id ≠ In_ID inp → tiers_of r' id = tiers_of r id)
    end
  else EventService_Create inp now r = (Err event_ErrInvalidWindow, r).
Proof.
  unfold EventService_Create, Before.
  destruct (decide (In_StartAt inp < In_EndAt inp)) as [Hlt|Hge].
  2:{ by rewrite (proj2 (Z.ltb_ge _ _)) by lia. }
  rewrite (proj2 (Z.ltb_lt _ _) Hlt). cbn [negb]. fold (event_of inp now).
  rewrite M_bind_eq, CreateEvent_run. cbn [Event_ID event_of].
  destruct (er_events r !! In_ID inp); [done|].
  rewrite M_bind_eq.
  match goal with |- context [insert_tiers _ _ ?r1] =>
    destruct (insert_tiers_inmem (In_ID inp) (In_Rewards inp) r1) as
      (r' & Hrun & He & Hs & Ht & Hf) end.
  exists r'. by rewrite Hrun.
Qed.

(** Create keeps every stored event and every score. *)
Lemma Create_frame inp now r :
  let r' := (EventService_Create inp now r).2 in
  er_scores r' = er_scores r ∧
  ∀ id e, er_events r !! id = Some e → er_events r' !! id = Some e.
Proof.
  pose proof (Create_run inp now r) as Hrun.
  destruct (decide _); [|by rewrite Hrun].
  destruct (er_events r !! In_ID inp) eqn:Hr; [by rewrite Hrun|].
  destruct Hrun as (r' & -> & He & Hs & _). split; [done|]. intros id e Hid. simpl.
  rewrite He, lookup_insert_ne; congruence.
Qed.

Lemma Create_duplicate inp now r e :
  er_events r !! In_ID inp = Some e →
  is_Ok (EventService_Create inp now r).1 = false ∧ (EventService_Create inp now r).2 = r.
Proof.
  intros He. pose proof (Create_run inp now r) as Hrun. rewrite He in Hrun.
  destruct (decide _); by rewrite Hrun.
Qed.

(** Creating an event. A window that does not start before it ends and
    an identifier in use are refused, the latter with the sentinel reachable
    by [errors.Is], and nothing changes. Otherwise the event is returned as
    stored, all its tiers are appended under its identifier, no other event,
    tier or score changes, and a second creation under the identifier is
    refused. *)
Theorem EventService_Create_spec (inp : CreateInput) (now : time) (r : EventRepo) :
  let '(res, r') := EventService_Create inp now r in
  if decide (In_StartAt inp < In_EndAt inp) then
    match er_events r !! In_ID inp with
    | Some _ =>
        ∃ e, res = Err e ∧ errors_Is e event_ErrAlreadyExists = true ∧ r' = r
    | None =>
        res = Ok (event_of inp now) ∧
        er_events r' = <[In_ID inp := event_of inp now]> (er_events r) ∧
        er_scores r' = er_scores r ∧
        tiers_of r' (In_ID inp) =
          tiers_of r (In_ID inp) ++ (tier_for (In_ID inp) <$> In_Rewards inp) ∧
        (∀ id, id ≠ In_ID inp → tiers_of r' id = tiers_of r id) ∧
        ∀ inp' now', In_ID inp' = In_ID inp →
          is_Ok (EventService_Create inp' now' r').1 = false ∧
          (EventService_Create inp' now' r').2 = r'
    end
  else res = Err event_ErrInvalidWindow ∧ r' = r.
Proof.
  pose proof (Create_run inp now r) as Hrun.
  destruct (decide (In_StartAt inp < In_EndAt inp)); [|by rewrite Hrun].
  destruct (er_events r !! In_ID inp).
  { rewrite Hrun. eexists. split_and!; [done|by autorewrite with go|done]. }
  destruct Hrun as (r' & -> & He & Hs & Ht & Hf). split_and!; try done.
  intros inp' now' Hid. eapply Create_duplicate. by rewrite He, Hid, lookup_insert_eq.
Qed.

Lemma points_of_AddScore ev p d now r ev' p' :
  delta_ok d → has_char "/" ev = false → has_char "/" ev' = false →
  points_of (EventRepo_AddScore ev p d now r).2 ev' p' =
  if decide (ev = ev' ∧ p = p') then points_of r ev' p' [+] d else points_of r ev' p'.
Proof.
  intros Hd Hev Hev'. unfold points_of, EventRepo_AddScore. cbn [snd er_scores].
  destruct (decide (ev = ev' ∧ p = p')) as [[-> ->]|Hne].
  - rewrite lookup_insert_eq. destruct (er_scores r !! _); [done|]. cbn [Points].
    unfold delta_ok, maxScoreDelta in Hd. rewrite int_add_small; [lia|int_range].
  - rewrite lookup_insert_ne; [done|]. intros Heq. apply Hne.
    by apply scoreKey_inj.
Qed.

(** The four outcomes of [AddScore], by the guards of the code. *)
Lemma AddScore_run svc ev p d now now' r l :
  EventService_AddScore svc ev p d now now' (r, l) =
  if decide (delta_ok d) then
    match er_events r !! ev with
    | None => (Err (Errorf_w "repo.GetEvent" event_ErrNotFound), (r, l))
    | Some e =>
        if decide (StatusAt e now = StatusOngoing) then
          let r' := (EventRepo_AddScore ev p d now' r).2 in
          let '(res, l') := mirror svc ev p d l in
          (match res with
           | Ok _ => (EventRepo_GetScore ev p r').1
           | Err err => Err err
           | Panic w => Panic w
           end, (r', l'))
        else (Err event_ErrNotOngoing, (r, l))
    end
  else (Err event_ErrInvalidDelta, (r, l)).
Proof.
  unfold EventService_AddScore.
  destruct (decide (delta_ok d)) as [Hd|Hd]; unfold delta_ok in Hd.
  2:{ replace ((d <=? 0) || (maxScoreDelta <? d)) with true; [done|].
      symmetry. rewrite orb_true_iff. lia. }
  replace ((d <=? 0) || (maxScoreDelta <? d)) with false
    by (symmetry; rewrite orb_false_iff; lia).
  rewrite M_bind_eq. unfold on_fst at 1. rewrite GetEvent_run.
  destruct (er_events r !! ev) as [e|]; [|done].
  destruct (decide (StatusAt e now = StatusOngoing)) as [Hs|Hs].
  2:{ by rewrite bool_decide_eq_true_2. }
  rewrite bool_decide_eq_false_2 by tauto.
  rewrite M_bind_eq. unfold on_fst, on_snd, wrapErr, mbind, M_bind. simpl.
  by destruct (mirror svc ev p d l) as [[[]| |] l'].
Qed.

Lemma mirror_not_Err svc ev p d l e : (mirror svc ev p d l).1 ≠ Err e.
Proof.
  unfold mirror. destruct (leaderboard svc) as [f|]; [|done].
  by destruct (f ev p d l) as [[]].
Qed.

(** Adding a score. For any leaderboard, also one that fails: a delta
    outside 1..1000000, an unknown event and an event outside its window (both
    ends included) are refused and nothing at all is written. Otherwise the
    player's points grow by exactly the delta (in 64-bit arithmetic), no
    other player's or event's points change, the leaderboard is called once
    with the same delta, and the caller gets the new points even when the
    leaderboard returned an error. *)
Theorem EventService_AddScore_spec (svc : EventService L) (ev p : string) (d : Z)
    (now now' : time) (r : EventRepo) (l : L) (Hev : has_char "/" ev = false) :
  let '(res, (r', l')) := EventService_AddScore svc ev p d now now' (r, l) in
  if decide (delta_ok d) then
    match er_events r !! ev with
    | None =>
        ∃ e, res = Err e ∧ errors_Is e event_ErrNotFound = true ∧ r' = r ∧ l' = l
    | Some e =>
        if decide (StartAt e <= now <= EndAt e) then
          (∀ ev' p', has_char "/" ev' = false → points_of r' ev' p' =
             if decide (ev = ev' ∧ p = p') then points_of r ev p [+] d else points_of r ev' p') ∧
          er_events r' = er_events r ∧ er_rewards r' = er_rewards r ∧
          l' = (mirror svc ev p d l).2 ∧
          (no_panic res → ∃ sc, res = Ok sc ∧ Points sc = points_of r' ev p ∧ UpdatedAt sc = now') ∧
          (no_panic res ↔ no_panic (mirror svc ev p d l).1)
        else res = Err event_ErrNotOngoing ∧ r' = r ∧ l' = l
    end
  else res = Err event_ErrInvalidDelta ∧ r' = r ∧ l' = l.
Proof.
  rewrite AddScore_run. destruct (decide (delta_ok d)) as [Hd|]; [|done].
  destruct (er_events r !! ev) as [e|]; [|eexists; split_and!; try done; by autorewrite with go].
  rewrite (decide_ext _ (StartAt e <= now <= EndAt e)) by apply StatusAt_ongoing.
  destruct (decide (StartAt e <= now <= EndAt e)); [|done].
  destruct (mirror svc ev p d l) as [res l'] eqn:Hm. cbn zeta.
  split_and!; try done.
  - intros ev' p' Hev'. rewrite points_of_AddScore by done.
    by destruct (decide (ev = ev' ∧ p = p')) as [[-> ->]|].
  - intros Hp. destruct res as [u|err|w]; [|exfalso; by eapply (mirror_not_Err svc ev p d l); rewrite Hm|done].
    eexists. split; [done|]. unfold points_of. cbn. rewrite lookup_insert_eq.
    by destruct (er_scores r !! scoreKey ev p).
  - by destruct res.
Qed.

(** Current events. The list holds exactly the stored events whose
    status at the instant of the call is ONGOING, each once, by increasing
    end; the store is not changed. *)
Theorem EventService_ListCurrent_spec (now : time) (r : EventRepo) :
  ∃ es, EventService_ListCurrent now r = (Ok es, r) ∧
    es ≡ₚ filter (λ e, StatusAt e now = StatusOngoing) (snd <$> map_to_list (er_events r)) ∧
    StronglySorted (λ a b, EndAt a <= EndAt b) es.
Proof.
  eexists. split; [done|]. split.
  - rewrite sort_slice_perm.
    rewrite (list_filter_iff _ (λ e, StatusAt e now = StatusOngoing)).
    + by rewrite (map_range_perm (er_events r)).
    + intros e. apply is_current_ongoing.
  - eapply StronglySorted_impl; [|eapply sort_slice_sorted, EndAt_less_weak].
    intros a b. unfold Before. lia.
Qed.

(** Rewards. For a known event the view has the recorded points (0 for
    a player without any), all tiers of the event by increasing number, the
    tiers whose threshold the points reach, in that order, and the status at
    the first clock reading; it is claimable exactly when the event has
    ended at the second reading, so an ENDED view is always claimable when
    the clock does not run backwards. An unknown event is refused. *)
Theorem EventService_GetRewards_spec (ev p : string) (now1 now2 : time) (r : EventRepo) :
  match er_events r !! ev with
  | None => ∃ e, EventService_GetRewards ev p now1 now2 r = (Err e, r) ∧
      errors_Is e event_ErrNotFound = true
  | Some e => ∃ v, EventService_GetRewards ev p now1 now2 r = (Ok v, r) ∧
      View_Points v = points_of r ev p ∧
      View_Tiers v ≡ₚ tiers_of r ev ∧
      StronglySorted (λ a b, Tier_No a <= Tier_No b) (View_Tiers v) ∧
      View_Eligible v = filter (λ t, MinPoints t <= points_of r ev p) (View_Tiers v) ∧
      View_Status v = StatusAt e now1 ∧
      (View_Claimable v = true ↔ StartAt e <= now2 ∧ EndAt e < now2) ∧
      (now1 <= now2 → View_Status v = StatusEnded → View_Claimable v = true)
  end.
Proof.
  unfold EventService_GetRewards. rewrite M_bind_eq, GetEvent_run.
  destruct (er_events r !! ev) as [e|]; [|eexists; split; [done|by autorewrite with go]].
  eexists. split; [done|].
  cbn [View_Points View_Tiers View_Eligible View_Status View_Claimable].
  assert (Hp : Points match er_scores r !! scoreKey ev p with
     | Some sc => sc
     | None => {| Score_EventID := ev; Score_PlayerID := p; Points := 0;
                  UpdatedAt := zero_time |}
     end = points_of r ev p)
    by (unfold points_of; by destruct (er_scores r !! scoreKey ev p)).
  rewrite EligibleRewards_filter, bool_decide_eq_true, Hp.
  split_and!; try done.
  - apply sort_slice_perm.
  - eapply StronglySorted_impl; [|eapply sort_slice_sorted, (key_less_weak Tier_No)].
    intros a b. cbv beta. lia.
  - apply StatusAt_ended.
  - intros Hle. rewrite !StatusAt_ended. lia.
Qed.
End inmem.

(** ** Runs of the service *)

Inductive event_op :=
  | OpCreate (inp : CreateInput) (now : time)
  | OpGet (id : string) (now : time)
  | OpListCurrent (now : time)
  | OpAddScore (ev p : string) (delta : Z) (now now' : time)
  | OpGetScore (ev p : string)
  | OpGetRewards (ev p : string) (now1 now2 : time).

(** The event identifier a score is recorded under has no separator. *)
Definition op_clean (o : event_op) : Prop :=
  match o with
  | OpAddScore ev _ _ _ _ => has_char "/" ev = false
  | _ => True
  end.

(** Every clock reading of an operation that decides on a window. *)
Definition op_after (t : time) (o : event_op) : Prop :=
  match o with
  | OpAddScore _ _ _ now _ => t < now
  | _ => True
  end.

Section running.
Context {S L : Type} `{!EventRepository S}.
Implicit Types (svc : EventService L).

(** One call: the scores it accepted and the state it leaves. *)
Definition exec svc (o : event_op) (w : S * L)
    : list (string * string * Z) * (S * L) :=
  match o with
  | OpCreate inp now => ([], (on_fst (EventService_Create inp now) w).2)
  | OpGet id now => ([], (on_fst (EventService_Get id now) w).2)
  | OpListCurrent now => ([], (on_fst (EventService_ListCurrent now) w).2)
  | OpAddScore ev p d now now' =>
      let '(res, w') := EventService_AddScore svc ev p d now now' w in
      (if is_Ok res then [(ev, p, d)] else [], w')
  | OpGetScore ev p => ([], (on_fst (EventService_GetScore ev p) w).2)
  | OpGetRewards ev p now1 now2 => ([], (on_fst (EventService_GetRewards ev p now1 now2) w).2)
  end.

Fixpoint exec_all svc (ops : list event_op) (w : S * L)
    : list (string * string * Z) * (S * L) :=
  match ops with
  | [] => ([], w)
  | o :: ops' =>
      let '(acc, w') := exec svc o w in
      let '(accs, w'') := exec_all svc ops' w' in
      (acc ++ accs, w'')
  end.

End running.

Section runs.
Context `{!GoRuntime} {L : Type}.
Implicit Types (svc : EventService L) (r : EventRepo) (l : L).

(** What a call other than an accepted score leaves in place. *)
Lemma exec_quiet svc o r l :
  match o with OpAddScore _ _ _ _ _ => False | _ => True end →
  exec svc o (r, l) = ([], ((exec svc o (r, l)).2.1, l)) ∧
  er_scores (exec svc o (r, l)).2.1 = er_scores r ∧
  ∀ id e, er_events r !! id = Some e → er_events (exec svc o (r, l)).2.1 !! id = Some e.
Proof.
  destruct o as [inp now|id now|now|? ? ? ? ?|ev p|ev p n1 n2]; intros Ho; try done; simpl.
  - destruct (Create_frame inp now r) as [Hs He].
    by destruct (EventService_Create inp now r) as [res r'].
  - unfold EventService_Get. rewrite M_bind_eq, GetEvent_run. by destruct (er_events r !! id).
  - unfold EventService_GetScore. rewrite M_bind_eq, GetEvent_run. by destruct (er_events r !! ev).
  - unfold EventService_GetRewards. rewrite M_bind_eq, GetEvent_run.
    by destruct (er_events r !! ev).
Qed.

Lemma frozen_step svc o r l ev e :
  er_events r !! ev = Some e → has_char "/" ev = false → op_clean o → op_after (EndAt e) o →
  ∃ acc r1 l1, exec svc o (r, l) = (acc, (r1, l1)) ∧
    Forall (λ '(ev', _, _), ev' ≠ ev) acc ∧
    (∀ p, points_of r1 ev p = points_of r ev p) ∧ er_events r1 !! ev = Some e.
Proof.
  intros Hstored Hev Ho Ht. pose proof (exec_quiet svc o r l) as Hquiet.
  destruct o as [| | |ev' p' d' n n'| |];
    try (destruct (Hquiet I) as (Hq & Hs & He); do 3 eexists;
         split; [exact Hq|]; split_and!; [done| |by apply He];
         intros q; unfold points_of; by rewrite Hs).
  cbn [exec]. rewrite AddScore_run.
  destruct (decide (delta_ok d')); [|do 3 eexists; by split_and!].
  destruct (er_events r !! ev') as [e'|] eqn:He'; [|do 3 eexists; by split_and!].
  destruct (decide (StatusAt e' n = StatusOngoing)) as [Hon|]; [|do 3 eexists; by split_and!].
  apply StatusAt_ongoing in Hon.
  assert (ev' ≠ ev) by (intros ->; simplify_eq; simpl in Ht; lia).
  destruct (mirror svc ev' p' d' l) as [res l1]. do 3 eexists. split; [done|].
  split_and!; [by destruct res; constructor| |done].
  intros p. rewrite points_of_AddScore by done. rewrite decide_False; [done|tauto].
Qed.

(** C30. A closed event stays closed. Once the clock has passed the end of a
    stored event, no sequence of calls of the service, with whatever later
    readings and whatever leaderboard, accepts a score for it, changes the
    points of any player in it, or removes or alters the event. *)
Theorem ended_event_frozen (svc : EventService L) (ops : list event_op) (r : EventRepo) (l : L)
    (ev : string) (e : Event)
    (Hstored : er_events r !! ev = Some e)
    (Hev : has_char "/" ev = false)
    (Hclean : Forall op_clean ops)
    (Hafter : Forall (op_after (EndAt e)) ops) :
  let '(accs, (r', _)) := exec_all svc ops (r, l) in
  Forall (λ '(ev', _, _), ev' ≠ ev) accs ∧
  (∀ p, points_of r' ev p = points_of r ev p) ∧
  er_events r' !! ev = Some e.
Proof.
  revert r l Hstored Hclean Hafter.
  induction ops as [|o ops IH]; intros r l Hstored Hclean Hafter; [done|].
  apply Forall_cons in Hclean as [Ho Hclean], Hafter as [Ht Hafter]. cbn [exec_all].
  destruct (frozen_step svc o r l ev e Hstored Hev Ho Ht)
    as (acc & r1 & l1 & -> & Hacc & Hpts & Hev1).
  specialize (IH r1 l1 Hev1 Hclean Hafter).
  destruct (exec_all svc ops (r1, l1)) as [accs [r2 l2]].
  destruct IH as (Haccs & Hpts' & He). split_and!; [by apply Forall_app| |done].
  intros p. by rewrite Hpts', Hpts.
Qed.
End runs.

(** ** The service with the in-memory leaderboard *)

Section ledger.
Context `{!GoRuntime}.

(** The wiring of the server: the event service writes to the leaderboard
    the ranking service reads. *)
Definition wired : EventService Leaderboard :=
  NewEventService [WithLeaderboard (IncrBy : LeaderboardWriter Leaderboard)].

(** Points and leaderboard scores agree. *)
Definition in_step (r : EventRepo) (l : Leaderboard) : Prop :=
  ∀ ev p, has_char "/" ev = false →
    points_of r ev p = default 0 (event_scores l ev !! p).

(** An accepted score on the wired service. *)
Lemma AddScore_wired ev p d now now' r l e :
  delta_ok d → er_events r !! ev = Some e → StartAt e <= now <= EndAt e →
  ∃ sc, EventService_AddScore wired ev p d now now' (r, l) =
      (Ok sc, ((EventRepo_AddScore ev p d now' r).2, (Leaderboard_IncrBy ev p d l).2)) ∧
    Points sc = points_of (EventRepo_AddScore ev p d now' r).2 ev p ∧ UpdatedAt sc = now'.
Proof.
  intros Hd He Hs. rewrite AddScore_run, decide_True, He by done.
  rewrite decide_True by by apply StatusAt_ongoing. simpl.
  unfold points_of. simpl. rewrite lookup_insert_eq. eexists. split; [done|].
  by destruct (er_scores r !! scoreKey ev p).
Qed.

Lemma exec_wired o r l :
  op_clean o → in_step r l →
  ∃ acc r1, exec wired o (r, l) = (acc, (r1, apply_incrs acc l)) ∧
    in_step r1 (apply_incrs acc l) ∧ Forall (λ '(_, _, d), delta_ok d) acc.
Proof.
  intros Ho Hin. pose proof (exec_quiet wired o r l) as Hquiet.
  destruct o as [| | |ev p d n n'| |];
    try (destruct (Hquiet I) as (Hq & Hs & He); do 2 eexists;
         split; [exact Hq|]; split; [|done];
         intros ev' p'; unfold points_of; rewrite Hs; apply Hin).
  cbn [exec]. rewrite AddScore_run.
  destruct (decide (delta_ok d)); [|by exists [], r].
  destruct (er_events r !! ev) as [e'|]; [|by exists [], r].
  destruct (decide (StatusAt e' n = StatusOngoing)) as [Hon|]; [|by exists [], r].
  exists [(ev, p, d)]. eexists. split; [done|]. split; [|by constructor].
  intros ev' p' Hev'. rewrite points_of_AddScore by done.
  cbn [apply_incrs]. rewrite IncrBy_score.
  destruct (decide (ev = ev' ∧ p = p')); [|by apply Hin].
  cbn [default]. by rewrite (Hin ev' p' Hev').
Qed.

Lemma exec_all_wired ops r l :
  Forall op_clean ops → in_step r l →
  ∃ accs r', exec_all wired ops (r, l) = (accs, (r', apply_incrs accs l)) ∧
    in_step r' (apply_incrs accs l) ∧ Forall (λ '(_, _, d), delta_ok d) accs.
Proof.
  revert r l. induction ops as [|o ops IH]; intros r l Hclean Hin.
  { by exists [], r. }
  apply Forall_cons in Hclean as [Ho Hclean]. cbn [exec_all].
  destruct (exec_wired o r l Ho Hin) as (acc & r1 & -> & Hin1 & Hok).
  destruct (IH r1 _ Hclean Hin1) as (accs & r2 & -> & Hin2 & Hoks).
  exists (acc ++ accs), r2. rewrite apply_incrs_app.
  split_and!; [done|done|by apply Forall_app].
Qed.

(** C6. The ledger. Start the event service and its leaderboard empty and
    run any sequence of calls that score in events without a separator in their
    identifiers.
    Then every accepted delta lies in 1..1000000, the leaderboard is exactly
    the accepted deltas applied in order, and for every player of every
    event the repository's points, the score the leaderboard ranks and the
    64-bit sum of that player's accepted deltas are the same number. *)
Theorem event_ledger (ops : list event_op) (Hclean : Forall op_clean ops) :
  ∃ accs r, exec_all wired ops (NewEventRepo, NewLeaderboard) =
      (accs, (r, apply_incrs accs NewLeaderboard)) ∧
    Forall (λ '(_, _, d), 0 < d <= maxScoreDelta) accs ∧
    ∀ ev p, has_char "/" ev = false →
      points_of r ev p = int64_wrap (delta_of ev p accs) ∧
      default 0 (event_scores (apply_incrs accs NewLeaderboard) ev !! p) = points_of r ev p.
Proof.
  destruct (exec_all_wired ops NewEventRepo NewLeaderboard Hclean) as (accs & r & -> & Hin & Hok).
  { intros ev p _. unfold points_of, event_scores. cbn. by rewrite !lookup_empty. }
  exists accs, r. split_and!; [done|done|]. intros ev p Hev.
  rewrite (Hin ev p Hev). split; [apply board_score|done].
Qed.
End ledger.

(** ** A repository that fails half-way *)

Section partial_create.
Context {S : Type} `{!EventRepository S}.

Lemma insert_tiers_app id pre post (s s' : S) :
  insert_tiers id pre s = (Ok tt, s') →
  insert_tiers id (pre ++ post) s = insert_tiers id post s'.
Proof.
  revert s. induction pre as [|t pre IH]; intros s; cbn [insert_tiers app].
  { unfold mret, M_ret. by intros [= ->]. }
  intros ([] & s1 & H1 & H2)%M_bind_Ok_inv. rewrite (M_bind_Ok _ _ _ _ _ H1). by apply IH.
Qed.

(** Creation is not atomic. The service registers the event and its
    tiers by separate repository calls: when the repository, whatever it is,
    refuses one of the tiers, the caller gets that error and the event with
    the tiers before it stays registered. *)
Theorem EventService_Create_partial (inp : CreateInput) (now : time) (s s1 s2 s3 : S)
    (pre post : list RewardTier) (t : RewardTier) (e : error)
    (Hwindow : In_StartAt inp < In_EndAt inp)
    (Hrewards : In_Rewards inp = pre ++ t :: post)
    (Hcreate : CreateEvent (event_of inp now) s = (Ok tt, s1))
    (Hpre : insert_tiers (In_ID inp) pre s1 = (Ok tt, s2))
    (Hfail : InsertRewardTier (tier_for (In_ID inp) t) s2 = (Err e, s3)) :
  EventService_Create inp now s = (Err (Errorf_w "repo.InsertRewardTier" e), s3).
Proof.
  unfold EventService_Create, Before. rewrite (proj2 (Z.ltb_lt _ _) Hwindow). cbn [negb].
  fold (event_of inp now).
  rewrite (M_bind_Ok _ _ _ _ _ (wrapErr_Ok _ _ _ _ _ Hcreate)), Hrewards.
  apply M_bind_Err. rewrite (insert_tiers_app _ _ _ _ _ Hpre). cbn [insert_tiers].
  apply M_bind_Err. by apply wrapErr_Err.
Qed.
End partial_create.

(** ** Concrete runs *)

(** The in-memory repository with a unique tier number per event. *)
Definition unique_EventRepository : EventRepository EventRepo := {|
  CreateEvent := EventRepo_CreateEvent;
  GetEvent := EventRepo_GetEvent;
  ListCurrentEvents := EventRepo_ListCurrentEvents;
  AddScore := EventRepo_AddScore;
  GetScore := EventRepo_GetScore;
  ListRewardTiers := EventRepo_ListRewardTiers;
  InsertRewardTier := λ t r,
    if bool_decide (Exists (λ t', Tier_No t' = Tier_No t) (tiers_of r (Tier_EventID t)))
    then (Err (ErrMySQL 1062 "Duplicate entry"), r) else EventRepo_InsertRewardTier t r |}.

Definition tier_of (n min : Z) : RewardTier :=
  {| Tier_EventID := ""; Tier_No := n; MinPoints := min; RewardName := "reward" |}.

Definition demo_event (tiers : list RewardTier) : CreateInput :=
  {| In_ID := "ev"; In_Name := "Festival"; In_StartAt := 10; In_EndAt := 20;
     In_Rewards := tiers |}.

Lemma EventService_Create_partial_witness :
  let r := (@EventService_Create EventRepo unique_EventRepository
              (demo_event [tier_of 1 0; tier_of 1 5]) 3 NewEventRepo) in
  is_Ok r.1 = false ∧ is_Some (er_events r.2 !! "ev") ∧ tiers_of r.2 "ev" = [tier_for "ev" (tier_of 1 0)].
Proof.
  set (inp := demo_event [tier_of 1 0; tier_of 1 5]).
  destruct (@CreateEvent _ unique_EventRepository (event_of inp 3) NewEventRepo) as [r1 s1] eqn:E1.
  destruct (@insert_tiers _ unique_EventRepository "ev" [tier_of 1 0] s1) as [r2 s2] eqn:E2.
  vm_compute in E1. injection E1 as <- <-. vm_compute in E2. injection E2 as <- <-.
  rewrite (@EventService_Create_partial _ unique_EventRepository inp 3 NewEventRepo _ _ _
    [tier_of 1 0] [] (tier_of 1 5) _ eq_refl eq_refl eq_refl eq_refl eq_refl).
  split; [reflexivity|]. split; [|vm_compute; reflexivity].
  eexists. vm_compute. reflexivity.
Defined.

(** The event is open from 10 to 20; the score at 21 comes too late. *)
Definition demo_ops : list event_op :=
  [OpCreate (demo_event [tier_of 2 50; tier_of 1 5]) 3;
   OpAddScore "ev" "alice" 30 10 10; OpAddScore "ev" "bob" 7 15 15;
   OpAddScore "ev" "alice" 1000001 16 16; OpAddScore "ev" "alice" 25 20 20;
   OpAddScore "ev" "bob" 500 21 21; OpGetRewards "ev" "alice" 22 22].

Example demo_accepted :
  (exec_all wired demo_ops (NewEventRepo, NewLeaderboard)).1 =
  [("ev", "alice", 30); ("ev", "bob", 7); ("ev", "alice", 25)].
Proof. vm_compute. reflexivity. Qed.

Lemma event_ledger_witness :
  Forall op_clean demo_ops ∧
  ∃ accs r, exec_all wired demo_ops (NewEventRepo, NewLeaderboard) =
    (accs, (r, apply_incrs accs NewLeaderboard)) ∧ points_of r "ev" "alice" = 55.
Proof.
  assert (Hclean : Forall op_clean demo_ops) by (repeat constructor).
  split; [exact Hclean|].
  destruct (event_ledger demo_ops Hclean) as (accs & r & Hrun & _ & Hpts).
  exists accs, r. split; [exact Hrun|].
  destruct (Hpts "ev" "alice" eq_refl) as [-> _].
  assert (accs = (exec_all wired demo_ops (NewEventRepo, NewLeaderboard)).1) as ->
    by (rewrite Hrun; reflexivity).
  vm_compute. reflexivity.
Defined.

Definition demo_state : EventRepo * Leaderboard :=
  (exec_all wired demo_ops (NewEventRepo, NewLeaderboard)).2.

Lemma EventService_AddScore_witness :
  (EventService_AddScore wired "ev" "bob" 5 12 12 demo_state).2 =
    (EventService_AddScore wired "ev" "bob" 5 12 12 (demo_state.1, demo_state.2)).2 ∧
  points_of (EventService_AddScore wired "ev" "bob" 5 12 12 (demo_state.1, demo_state.2)).2.1
    "ev" "bob" = 12.
Proof.
  split; [vm_compute; reflexivity|].
  pose proof (EventService_AddScore_spec wired "ev" "bob" 5 12 12 demo_state.1 demo_state.2 eq_refl)
    as Hspec.
  destruct (EventService_AddScore wired "ev" "bob" 5 12 12 (demo_state.1, demo_state.2))
    as [res [r' l']]. cbn [snd fst].
  destruct (decide (delta_ok 5)) as [_|Hno]; [|destruct Hno; split; vm_compute; congruence].
  destruct (er_events demo_state.1 !! "ev") as [e|] eqn:He; [|vm_compute in He; discriminate He].
  vm_compute in He. injection He as <-. cbn [StartAt EndAt] in Hspec.
  destruct (decide (10 <= 12 <= 20)) as [_|Hno]; [|lia].
  destruct Hspec as [Hpts _]. rewrite (Hpts "ev" "bob" eq_refl).
  destruct (decide ("ev" = "ev" ∧ "bob" = "bob")) as [_|Hno]; [|destruct Hno; done].
  vm_compute. reflexivity.
Defined.

Lemma ended_event_frozen_witness :
  points_of (exec_all wired [OpAddScore "ev" "bob" 9 30 30; OpCreate (demo_event []) 31]
    (demo_state.1, demo_state.2)).2.1 "ev" "bob" = 7.
Proof.
  assert (He : er_events demo_state.1 !! "ev" = Some (event_of (demo_event []) 3))
    by (vm_compute; reflexivity).
  pose proof (ended_event_frozen wired [OpAddScore "ev" "bob" 9 30 30; OpCreate (demo_event []) 31]
    demo_state.1 demo_state.2 "ev" _ He eq_refl) as Hspec.
  destruct (exec_all wired _ _) as [accs [r' l']]. cbn [snd fst].
  destruct Hspec as (_ & Hpts & _).
  - repeat constructor.
  - repeat constructor.
  - rewrite (Hpts "bob"). vm_compute. reflexivity.
Defined.
