(* ===== verification/EventConcurrent.v ===== *)
(** * Concurrent scores

    Requests that post scores are served concurrently: [Service.AddScore] of
    [internal/service/event/service.go] calls the repository three times and then
    the leaderboard, and calls interleave between any two of these. Here a call is
    a state machine with one transition for each of its calls below (each of which
    holds the lock of its store), and the other operations of the service run at any moment
    between them. *)

From S2P Require Import GoLang Ranking Event EventService.
#[local] Open Scope Z_scope.

(** ** One call, step by step *)

(** What the call does next: look up the event, write the score, read it back,
    mirror it. *)
Inductive score_pc :=
  | SCheck
  | SWrite
  | SRead
  | SMirror (sc : EventScore)
  | SDone (r : result EventScore).

Record score_call := { sl_event : string; sl_player : string; sl_delta : Z; sl_pc : score_pc }.

Definition at_score_pc (c : score_call) (pc : score_pc) : score_call :=
  {| sl_event := sl_event c; sl_player := sl_player c; sl_delta := sl_delta c; sl_pc := pc |}.

(** Some deltas are refused at once. *)
Definition new_score (ev p : string) (d : Z) : score_call := {|
  sl_event := ev; sl_player := p; sl_delta := d;
  sl_pc := if (d <=? 0) || (maxScoreDelta <? d) then SDone (Err event_ErrInvalidDelta) else SCheck |}.

(** What follows a call below: its value, or the end with its error. *)
Definition next_pc {A} (r : result A) (k : A → score_pc) : score_pc :=
  match r with
  | Ok a => k a
  | Err e => SDone (Err e)
  | Panic w => SDone (Panic w)
  end.

Section steps.
Context {S L : Type} `{!EventRepository S} (svc : EventService L).

(** [now] is the reading of the clock by the step, if it reads it. *)
Definition score_step (now : time) (c : score_call) (w : S * L) : option (score_pc * (S * L)) :=
  let ev := sl_event c in
  let p := sl_player c in
  match sl_pc c with
  | SCheck =>
      let '(r, w') := on_fst (wrapErr "repo.GetEvent" (GetEvent ev)) w in
      Some (next_pc r (λ e, if bool_decide (StatusAt e now ≠ StatusOngoing)
                            then SDone (Err event_ErrNotOngoing) else SWrite), w')
  | SWrite =>
      let '(r, w') := on_fst (wrapErr "repo.AddScore" (AddScore ev p (sl_delta c) now)) w in
      Some (next_pc r (λ _, SRead), w')
  | SRead =>
      let '(r, w') := on_fst (wrapErr "repo.GetScore" (GetScore ev p)) w in
      Some (next_pc r SMirror, w')
  | SMirror sc =>
      let '(r, w') := on_snd (mirror svc ev p (sl_delta c)) w in
      Some (next_pc r (λ _, SDone (Ok sc)), w')
  | SDone _ => None
  end.

(** A call alone, a reading of the clock for each step. *)
Fixpoint score_alone (clk : list time) (c : score_call) (w : S * L) : score_call * (S * L) :=
  match clk with
  | [] => (c, w)
  | now :: clk' =>
      match score_step now c w with
      | Some (pc, w') => score_alone clk' (at_score_pc c pc) w'
      | None => (c, w)
      end
  end.

(** Without interleaving the steps are the service's method. *)
Lemma score_alone_AddScore ev p d now now' t3 t4 w :
  let '(r, w') := EventService_AddScore svc ev p d now now' w in
  score_alone [now; now'; t3; t4] (new_score ev p d) w = (at_score_pc (new_score ev p d) (SDone r), w').
Proof.
  unfold EventService_AddScore, new_score.
  destruct ((d <=? 0) || (maxScoreDelta <? d)); [done|].
  rewrite M_bind_eq. cbn [score_alone score_step sl_pc sl_event sl_player sl_delta].
  destruct (on_fst (wrapErr "repo.GetEvent" _) w) as [[e|er|x] w1]; [|done..]. cbn [next_pc].
  destruct (bool_decide (StatusAt e now ≠ StatusOngoing)); [done|].
  rewrite M_bind_eq. cbn [score_step at_score_pc sl_pc sl_event sl_player sl_delta].
  destruct (on_fst (wrapErr "repo.AddScore" _) w1) as [[u|er|x] w2]; [|done..]. cbn [next_pc].
  rewrite M_bind_eq. cbn [score_step at_score_pc sl_pc sl_event sl_player sl_delta].
  destruct (on_fst (wrapErr "repo.GetScore" _) w2) as [[sc|er|x] w3]; [|done..]. cbn [next_pc].
  rewrite M_bind_eq. cbn [score_step at_score_pc sl_pc sl_event sl_player sl_delta].
  by destruct (on_snd (mirror svc ev p d) w3) as [[u'|er|x] w4].
Qed.
End steps.

(** ** Calls that interleave *)

Record scores_sys := { ss_repo : EventRepo; ss_board : Leaderboard; ss_calls : list score_call }.

(** A call starts, a call takes its next step, another operation of the service
    runs. *)
Inductive scores_event :=
  | EScore (ev p : string) (d : Z)
  | EStep (i : nat) (now : time)
  | EOther (o : event_op).

Definition is_score (o : event_op) : bool :=
  match o with OpAddScore _ _ _ _ _ => true | _ => false end.

Section system.
Context `{!GoRuntime}.

Definition scores_fire (e : scores_event) (c : scores_sys) : option scores_sys :=
  match e with
  | EScore ev p d =>
      Some {| ss_repo := ss_repo c; ss_board := ss_board c; ss_calls := ss_calls c ++ [new_score ev p d] |}
  | EStep i now =>
      call ← ss_calls c !! i;
      '(pc, (r, l)) ← score_step wired now call (ss_repo c, ss_board c);
      Some {| ss_repo := r; ss_board := l; ss_calls := <[i := at_score_pc call pc]> (ss_calls c) |}
  | EOther o =>
      if is_score o then None
      else
        let '(_, (r, l)) := exec wired o (ss_repo c, ss_board c) in
        Some {| ss_repo := r; ss_board := l; ss_calls := ss_calls c |}
  end.

Fixpoint scores_run (es : list scores_event) (c : scores_sys) : option scores_sys :=
  match es with
  | [] => Some c
  | e :: es' => c' ← scores_fire e c; scores_run es' c'
  end.

Definition scores_start : scores_sys :=
  {| ss_repo := NewEventRepo; ss_board := NewLeaderboard; ss_calls := [] |}.
End system.

(** Events are named without a separator. *)
Definition clean_score (e : scores_event) : Prop :=
  match e with EScore ev _ _ => has_char "/" ev = false | _ => True end.

(** ** Where the calls stand *)

(** The increments of some calls. *)
Definition triple_of (l : list score_call) (i : nat) : list (string * string * Z) :=
  match l !! i with Some c => [(sl_event c, sl_player c, sl_delta c)] | None => [] end.

Definition triples (l : list score_call) (ns : list nat) : list (string * string * Z) := ns ≫= triple_of l.

(** A call has written, has been mirrored. *)
Definition has_written (c : score_call) : bool :=
  match sl_pc c with SRead | SMirror _ | SDone (Ok _) => true | _ => false end.
Definition has_mirrored (c : score_call) : bool :=
  match sl_pc c with SDone (Ok _) => true | _ => false end.

Definition is_done (c : score_call) : bool := match sl_pc c with SDone _ => true | _ => false end.

(** The answer of call [i] is what the writes up to some moment after its own add
    up to. *)
Definition reads_prefix (l : list score_call) (written : list nat) (i : nat) (c : score_call) (sc : EventScore)
    : Prop :=
  ∃ w1 w2, written = w1 ++ w2 ∧ i ∈ w1 ∧
    Points sc = int64_wrap (delta_of (sl_event c) (sl_player c) (triples l w1)).

Definition call_ok (l : list score_call) (written mirrored : list nat) (i : nat) (c : score_call) : Prop :=
  has_char "/" (sl_event c) = false ∧
  (i ∈ written ↔ has_written c = true) ∧ (i ∈ mirrored ↔ has_mirrored c = true) ∧
  match sl_pc c with
  | SCheck | SWrite | SRead => delta_ok (sl_delta c)
  | SMirror sc | SDone (Ok sc) => delta_ok (sl_delta c) ∧ reads_prefix l written i c sc
  | SDone (Err _) => True
  | SDone (Panic _) => False
  end.

Definition scores_inv (written mirrored : list nat) (c : scores_sys) : Prop :=
  NoDup written ∧ NoDup mirrored ∧
  Forall (λ i, (i < length (ss_calls c))%nat) (written ++ mirrored) ∧
  (∀ ev p, has_char "/" ev = false →
     points_of (ss_repo c) ev p = int64_wrap (delta_of ev p (triples (ss_calls c) written))) ∧
  ss_board c = apply_incrs (triples (ss_calls c) mirrored) NewLeaderboard ∧
  ∀ i call, ss_calls c !! i = Some call → call_ok (ss_calls c) written mirrored i call.

Section proofs.
Context `{!GoRuntime}.
Implicit Types (l : list score_call).

Lemma NoDup_snoc (ns : list nat) i : NoDup ns → i ∉ ns → NoDup (ns ++ [i]).
Proof.
  intros Hns Hi. apply NoDup_app. split; [done|]. split; [|apply NoDup_singleton].
  intros x Hx Hxi%list_elem_of_singleton. by subst.
Qed.

Lemma triples_app l a b : triples l (a ++ b) = triples l a ++ triples l b.
Proof. apply bind_app. Qed.

Lemma triples_same l l' ns :
  (∀ i, i ∈ ns → triple_of l' i = triple_of l i) → triples l' ns = triples l ns.
Proof.
  induction ns as [|i ns IH]; intros Hs; [done|].
  change (triple_of l' i ++ triples l' ns = triple_of l i ++ triples l ns).
  rewrite IH by (intros; apply Hs; set_solver). by rewrite Hs by left.
Qed.

Lemma triple_of_snoc l c i : (i < length l)%nat → triple_of (l ++ [c]) i = triple_of l i.
Proof. intros Hi. unfold triple_of. by rewrite lookup_app_l. Qed.

Lemma triple_of_pc l i call pc j :
  l !! i = Some call → triple_of (<[i := at_score_pc call pc]> l) j = triple_of l j.
Proof.
  intros Hi. unfold triple_of. destruct (decide (i = j)) as [<-|Hne].
  - rewrite list_lookup_insert_eq by (by eapply lookup_lt_Some). by rewrite Hi.
  - by rewrite list_lookup_insert_ne.
Qed.

Lemma reads_prefix_grow l l' written more i c sc :
  (∀ j, j ∈ written → triple_of l' j = triple_of l j) →
  reads_prefix l written i c sc → reads_prefix l' (written ++ more) i c sc.
Proof.
  intros Hsame (w1 & w2 & -> & Hi & Hp). exists w1, (w2 ++ more).
  split; [by rewrite <- app_assoc|]. split; [done|].
  rewrite Hp. do 2 f_equal. symmetry. apply triples_same. intros j Hj. apply Hsame. set_solver.
Qed.

(** Another call's step leaves a call where it stands. *)
Lemma call_ok_other l l' written mirrored w' m' i j c :
  j ≠ i → (∀ k, k ∈ written → triple_of l' k = triple_of l k) →
  (w' = [] ∨ w' = [i]) → (m' = [] ∨ m' = [i]) →
  call_ok l written mirrored j c → call_ok l' (written ++ w') (mirrored ++ m') j c.
Proof.
  intros Hne Hsame Hw Hm (Hclean & Hwr & Hmr & Hpc).
  assert (j ∉ w') by (destruct Hw as [->| ->]; set_solver).
  assert (j ∉ m') by (destruct Hm as [->| ->]; set_solver).
  split; [done|]. split; [set_solver|]. split; [set_solver|].
  destruct (sl_pc c) as [| | |sc|[sc|e|x]]; try done;
    (destruct Hpc as [Hd Hr]; split; [done|by eapply reads_prefix_grow]).
Qed.

(** The step of call [i], which may write or mirror. *)
Lemma scores_inv_step written mirrored (c : scores_sys) i call pc r b w' m' :
  scores_inv written mirrored c → ss_calls c !! i = Some call →
  (w' = [] ∨ w' = [i] ∧ i ∉ written) → (m' = [] ∨ m' = [i] ∧ i ∉ mirrored) →
  (∀ ev p, has_char "/" ev = false → points_of r ev p =
     int64_wrap (delta_of ev p (triples (ss_calls c) (written ++ w')))) →
  b = apply_incrs (triples (ss_calls c) (mirrored ++ m')) NewLeaderboard →
  (call_ok (ss_calls c) written mirrored i call →
   call_ok (ss_calls c) (written ++ w') (mirrored ++ m') i (at_score_pc call pc)) →
  scores_inv (written ++ w') (mirrored ++ m')
    {| ss_repo := r; ss_board := b; ss_calls := <[i := at_score_pc call pc]> (ss_calls c) |}.
Proof.
  intros (Hn1 & Hn2 & Hlt & Hpts & Hboard & Hcalls) Hi Hw Hm Hr Hb Hok.
  assert (i < length (ss_calls c))%nat as Hil by (by eapply lookup_lt_Some).
  assert (∀ ns, triples (<[i := at_score_pc call pc]> (ss_calls c)) ns = triples (ss_calls c) ns) as Htr.
  { intros ns. apply triples_same. intros j _. by apply triple_of_pc. }
  split; [|split; [|split; [|split; [|split]]]]; cbn [ss_repo ss_board ss_calls].
  - destruct Hw as [->|[-> Hni]]; [by rewrite app_nil_r|]. by apply NoDup_snoc.
  - destruct Hm as [->|[-> Hni]]; [by rewrite app_nil_r|]. by apply NoDup_snoc.
  - rewrite length_insert. rewrite !Forall_app in *. destruct Hlt.
    destruct Hw as [->|[-> _]], Hm as [->|[-> _]]; repeat split; try done; by constructor.
  - intros ev p Hev. rewrite Htr. by apply Hr.
  - by rewrite Htr.
  - intros j cj Hj. destruct (decide (j = i)) as [->|Hne].
    + rewrite list_lookup_insert_eq in Hj by done. injection Hj as <-.
      destruct (Hok (Hcalls i call Hi)) as (H1 & H2 & H3 & H4). split; [done|]. split; [done|]. split; [done|].
      destruct (sl_pc (at_score_pc call pc)) as [| | |sc|[sc|e|x]]; try done;
        (destruct H4 as [Hd (w1 & w2 & Hww & Hiw & Hp)]; split; [done|]; exists w1, w2; by rewrite Htr).
    + rewrite list_lookup_insert_ne in Hj by done.
      eapply call_ok_other; [done| | | |by apply Hcalls]; [intros; by apply triple_of_pc|tauto|tauto].
Qed.

Lemma scores_inv_start_call written mirrored c ev p d :
  has_char "/" ev = false → scores_inv written mirrored c →
  scores_inv written mirrored
    {| ss_repo := ss_repo c; ss_board := ss_board c; ss_calls := ss_calls c ++ [new_score ev p d] |}.
Proof.
  intros Hev (Hn1 & Hn2 & Hlt & Hpts & Hboard & Hcalls). set (l := ss_calls c) in *.
  assert (∀ j, j ∈ written ∨ j ∈ mirrored → triple_of (l ++ [new_score ev p d]) j = triple_of l j) as Hsame.
  { intros j Hj. apply triple_of_snoc. rewrite Forall_forall in Hlt. apply Hlt. set_solver. }
  split; [done|]. split; [done|]. split; [|split; [|split]]; cbn [ss_repo ss_board ss_calls].
  - rewrite length_app. eapply Forall_impl; [exact Hlt|]. intros j. simpl. lia.
  - intros ev' p' Hev'. rewrite (triples_same l) by (intros; apply Hsame; tauto). by apply Hpts.
  - rewrite (triples_same l) by (intros; apply Hsame; tauto). done.
  - intros j cj Hj. apply lookup_app_Some in Hj as [Hj|[Hlen Hj]].
    + rewrite <- (app_nil_r written), <- (app_nil_r mirrored).
      apply (call_ok_other l _ _ _ [] [] (length l)); [|intros; apply Hsame; tauto|by left|by left|by apply Hcalls].
      apply lookup_lt_Some in Hj. lia.
    + apply list_lookup_singleton_Some in Hj as [Hj <-]. rewrite Forall_forall in Hlt.
      assert ((j ∉ written) ∧ (j ∉ mirrored)) as [H1 H2].
      { split; intros Hin; [assert (j < length l)%nat by (apply Hlt; set_solver)|
          assert (j < length l)%nat by (apply Hlt; set_solver)]; lia. }
      unfold call_ok, new_score, has_written, has_mirrored.
      destruct ((d <=? 0) || (maxScoreDelta <? d)) eqn:Hd; cbn [sl_pc sl_event sl_delta].
      * split; [done|]. split; [by split|]. by split.
      * split; [done|]. split; [by split|]. split; [by split|]. unfold delta_ok. apply orb_false_iff in Hd. lia.
Qed.

Lemma points_of_read ev p r sc :
  (EventRepo_GetScore ev p r).1 = Ok sc → Points sc = points_of r ev p.
Proof. unfold EventRepo_GetScore, points_of. intros [= <-]. by destruct (er_scores r !! _). Qed.

(** A step of a call. *)
Lemma scores_inv_step_of written mirrored i now c c' :
  scores_fire (EStep i now) c = Some c' → scores_inv written mirrored c →
  ∃ w' m', scores_inv (written ++ w') (mirrored ++ m') c'.
Proof.
  intros Hfire Hinv. pose proof Hinv as (_ & _ & _ & Hpts & Hboard & Hcalls). cbn [scores_fire] in Hfire.
  destruct (ss_calls c !! i) as [call|] eqn:Hi; [|done]. cbn [mbind option_bind] in Hfire.
  pose proof (Hcalls i call Hi) as (Hev & Hwr & Hmr & Hok).
  unfold score_step in Hfire. destruct (sl_pc call) as [| | |sc|r] eqn:Hpc; [..|done].
  - (* the check *)
    unfold on_fst in Hfire. rewrite GetEvent_run in Hfire. cbn [mbind option_bind] in Hfire.
    injection Hfire as <-. exists [], [].
    apply scores_inv_step; [done|done|by left|by left|by rewrite app_nil_r|by rewrite app_nil_r|].
    intros _. rewrite !app_nil_r. unfold call_ok, has_written, has_mirrored in *. rewrite Hpc in *.
    destruct (er_events (ss_repo c) !! sl_event call) as [e|]; cbn [next_pc at_score_pc sl_pc sl_event sl_delta];
      [case_bool_decide|]; cbn; by rewrite ?Hwr, ?Hmr.
  - (* the write *)
    cbn in Hfire. injection Hfire as <-. exists [i], [].
    assert (i ∉ written) as Hni by (unfold has_written in Hwr; rewrite Hpc in Hwr; naive_solver).
    apply scores_inv_step; [done|done|by right|by left| |by rewrite app_nil_r|].
    + intros ev p Hevp. rewrite triples_app, delta_of_app.
      pose proof (points_of_AddScore (sl_event call) (sl_player call) (sl_delta call) now (ss_repo c) ev p
        Hok Hev Hevp) as Hadd. cbn in Hadd. rewrite Hadd.
      assert (triples (ss_calls c) [i] = [(sl_event call, sl_player call, sl_delta call)]) as ->
        by (cbn; unfold triple_of; by rewrite Hi).
      unfold delta_of at 2. simpl. rewrite Hpts by done. unfold int_add.
      case_decide; by rewrite ?int64_wrap_add_l, ?Z.add_0_r.
    + intros _. rewrite app_nil_r. unfold call_ok, has_written, has_mirrored in *. rewrite Hpc in *.
      cbn. split; [done|]. split; [set_solver|]. by split.
  - (* the read *)
    cbn in Hfire. injection Hfire as <-. exists [], [].
    apply scores_inv_step; [done|done|by left|by left|by rewrite app_nil_r|by rewrite app_nil_r|].
    intros _. rewrite !app_nil_r. unfold call_ok, has_written, has_mirrored in *. rewrite Hpc in *.
    cbn. split; [done|]. split; [done|]. split; [done|]. split; [done|].
    exists written, []. split; [by rewrite app_nil_r|]. split; [by apply Hwr|].
    rewrite <- Hpts by done. unfold points_of. by destruct (er_scores (ss_repo c) !! _).
  - (* the mirror *)
    cbn in Hfire. injection Hfire as <-. exists [], [i].
    assert (i ∉ mirrored) as Hni by (unfold has_mirrored in Hmr; rewrite Hpc in Hmr; naive_solver).
    apply scores_inv_step; [done|done|by left|by right|by rewrite app_nil_r| |].
    + rewrite triples_app, apply_incrs_app, <- Hboard.
      assert (triples (ss_calls c) [i] = [(sl_event call, sl_player call, sl_delta call)]) as ->
        by (cbn; unfold triple_of; by rewrite Hi).
      done.
    + intros _. rewrite app_nil_r. unfold call_ok, has_written, has_mirrored in *. rewrite Hpc in *.
      cbn. split; [done|]. split; [done|]. split; [set_solver|done].
Qed.

Lemma scores_inv_fire written mirrored e c c' :
  clean_score e → scores_fire e c = Some c' → scores_inv written mirrored c →
  ∃ w' m', scores_inv (written ++ w') (mirrored ++ m') c'.
Proof.
  intros Hclean Hfire Hinv. pose proof Hinv as (_ & _ & _ & Hpts & Hboard & Hcalls).
  destruct e as [ev p d|i now|o]; cbn [scores_fire] in Hfire.
  { injection Hfire as <-. exists [], []. rewrite !app_nil_r. by apply scores_inv_start_call. }
  2:{ destruct (is_score o) eqn:Ho; [done|]. exists [], []. rewrite !app_nil_r.
    destruct (exec_quiet wired o (ss_repo c) (ss_board c)) as (Hq & Hs & _); [by destruct o|].
    rewrite Hq in Hfire. injection Hfire as <-. destruct Hinv as (H1 & H2 & H3 & _ & _ & H6).
    split; [done|]. split; [done|]. split; [done|]. split; [|by split].
    intros ev p Hev. cbn [ss_repo]. unfold points_of. rewrite Hs. by apply Hpts. }
  by eapply scores_inv_step_of.
Qed.

Lemma scores_inv_run es written mirrored c c' :
  Forall clean_score es → scores_run es c = Some c' → scores_inv written mirrored c →
  ∃ written' mirrored', scores_inv written' mirrored' c'.
Proof.
  revert written mirrored c. induction es as [|e es IH]; intros written mirrored c Hes; simpl.
  { intros [= <-]. by eauto. }
  apply Forall_cons in Hes as [He Hes]. destruct (scores_fire e c) as [c1|] eqn:E; [|done].
  intros Hrun Hinv. destruct (scores_inv_fire _ _ _ _ _ He E Hinv) as (w' & m' & Hinv').
  by eapply IH.
Qed.

Lemma scores_inv_init : scores_inv [] [] scores_start.
Proof.
  split; [constructor|]. split; [constructor|]. split; [constructor|]. split; [|split; [done|done]].
  intros ev p _. unfold points_of. cbn. by rewrite lookup_empty.
Qed.

Lemma triples_perm l a b : a ≡ₚ b → triples l a ≡ₚ triples l b.
Proof. intros Hp. unfold triples. by rewrite Hp. Qed.

(** C17. No score is lost, however calls overlap. Start with an empty store and let
    calls that post scores, and any other operations of the service, run in any
    interleaving: there is an order [written] of the calls that passed their write,
    each once, such that at every moment every player's points are the 64-bit sum of the
    deltas of these calls, while the leaderboard is exactly the increments of those that
    have been answered; an answer gives the points after some prefix of the writes
    that contains the call's own, never fewer; a refused call has written nothing; and
    whenever no call is under way the repository and the leaderboard agree. *)
Theorem concurrent_scores (es : list scores_event) (c : scores_sys)
    (Hclean : Forall clean_score es) (Hrun : scores_run es scores_start = Some c) :
  ∃ written mirrored, NoDup written ∧ NoDup mirrored ∧
    (∀ i call, ss_calls c !! i = Some call →
      (i ∈ written ↔ has_written call = true) ∧ (i ∈ mirrored ↔ has_mirrored call = true)) ∧
    (∀ ev p, has_char "/" ev = false →
      points_of (ss_repo c) ev p = int64_wrap (delta_of ev p (triples (ss_calls c) written))) ∧
    ss_board c = apply_incrs (triples (ss_calls c) mirrored) NewLeaderboard ∧
    (∀ i call sc, ss_calls c !! i = Some call → sl_pc call = SDone (Ok sc) →
      0 < sl_delta call <= maxScoreDelta ∧ reads_prefix (ss_calls c) written i call sc) ∧
    (forallb is_done (ss_calls c) = true → ∀ ev p, has_char "/" ev = false →
      default 0 (event_scores (ss_board c) ev !! p) = points_of (ss_repo c) ev p).
Proof.
  destruct (scores_inv_run es [] [] scores_start c Hclean Hrun scores_inv_init)
    as (written & mirrored & Hn1 & Hn2 & Hlt & Hpts & Hboard & Hcalls).
  exists written, mirrored. split; [done|]. split; [done|]. split; [|split; [done|split; [done|split]]].
  - intros i call Hi. destruct (Hcalls i call Hi) as (_ & Hw & Hm & _). by split.
  - intros i call sc Hi Hpc. destruct (Hcalls i call Hi) as (_ & _ & _ & Hok). by rewrite Hpc in Hok.
  - intros Hdone ev p Hev. rewrite Hboard, board_score, Hpts by done. f_equal.
    apply delta_of_perm, triples_perm, NoDup_Permutation; [done|done|]. intros i.
    rewrite forallb_forall in Hdone. rewrite Forall_forall in Hlt.
    assert (∀ call, ss_calls c !! i = Some call → has_written call = has_mirrored call) as Heq.
    { intros call Hi. specialize (Hdone call). rewrite <- list_elem_of_In in Hdone.
      specialize (Hdone (list_elem_of_lookup_2 _ _ _ Hi)).
      unfold is_done, has_written, has_mirrored in *. by destruct (sl_pc call) as [| | |sc|[sc|e|x]]. }
    split; intros Hin; (assert (i < length (ss_calls c))%nat as Hil by (apply Hlt; set_solver));
      apply lookup_lt_is_Some_2 in Hil as [call Hi]; destruct (Hcalls i call Hi) as (_ & Hw & Hm & _);
      specialize (Heq call Hi); [apply Hw; rewrite Heq; by apply Hm|apply Hm; rewrite <- Heq; by apply Hw].
Qed.
End proofs.

(** ** Runs *)

Definition demo_scores_prefix : list scores_event :=
  [EOther (OpCreate {| In_ID := "e1"; In_Name := "cup"; In_StartAt := 10; In_EndAt := 100; In_Rewards := [] |} 0);
   EScore "e1" "miku" 70; EScore "e1" "miku" 5; EScore "e1" "rin" (-3);
   EStep 0 20; EStep 1 21; EStep 1 22; EStep 0 23; EStep 0 24; EStep 0 25].

Definition demo_scores : list scores_event := demo_scores_prefix ++ [EStep 1 26; EStep 1 27].

Definition scores_summary (es : list scores_event) : option (Z * Z * list (option Z)) :=
  c ← scores_run es scores_start;
  Some (points_of (ss_repo c) "e1" "miku", default 0 (event_scores (ss_board c) "e1" !! "miku"),
        (λ call, match sl_pc call with SDone (Ok sc) => Some (Points sc) | _ => None end) <$> ss_calls c).

(** Both writes come before both reads, so both answers are 75; between them the leaderboard
    lags behind. *)
Example demo_scores_summary :
  (scores_summary demo_scores_prefix, scores_summary demo_scores) =
  (Some (75, 70, [Some 75; None; None]), Some (75, 75, [Some 75; Some 75; None])).
Proof. vm_compute. reflexivity. Qed.

Lemma concurrent_scores_witness :
  match scores_run demo_scores scores_start with
  | Some c => default 0 (event_scores (ss_board c) "e1" !! "miku") = points_of (ss_repo c) "e1" "miku" ∧
      points_of (ss_repo c) "e1" "miku" = 75
  | None => False
  end.
Proof.
  assert (Hclean : Forall clean_score demo_scores) by (repeat constructor).
  assert (Hfacts : (c ← scores_run demo_scores scores_start;
    Some (forallb is_done (ss_calls c), points_of (ss_repo c) "e1" "miku")) = Some (true, 75))
    by (vm_compute; reflexivity).
  destruct (scores_run demo_scores scores_start) as [c|] eqn:Hrun; [|discriminate Hfacts].
  injection Hfacts as Hdone Hpts.
  destruct (concurrent_scores demo_scores c Hclean Hrun) as (w & m & _ & _ & _ & _ & _ & _ & Hagree).
  split; [exact (Hagree Hdone "e1" "miku" eq_refl)|exact Hpts].
Defined.

(** The window is checked before the write: a call that was checked in time scores after
    the end of the event, when its rewards can already be claimed. *)
Example late_score :
  let before := [EOther (OpCreate {| In_ID := "e1"; In_Name := "cup"; In_StartAt := 10; In_EndAt := 100;
                                     In_Rewards := [] |} 0);
                 EScore "e1" "miku" 70; EStep 0 99] in
  match scores_run before scores_start, scores_run (before ++ [EStep 0 101]) scores_start with
  | Some c, Some c' =>
      (points_of (ss_repo c) "e1" "miku", View_Claimable <$> (match (EventService_GetRewards "e1" "miku" 101 101 (ss_repo c)).1 with Ok v => Some v | _ => None end),
       points_of (ss_repo c') "e1" "miku")
  | _, _ => (0, None, 0)
  end = (0, Some true, 70).
Proof. vm_compute. reflexivity. Qed.
