(* ===== verification/Idempotency.v ===== *)
(** * Idempotency store: responses remembered by key

    Models [internal/idempotency/idempotency.go] (the entry and the [Store]
    interface with its documented meaning) and the in-memory implementation
    [internal/idempotency/inmem.go]. An operation takes the instants it reads
    from the store's clock as its last arguments, in order. *)

From S2P Require Import GoLang.

(** ** The interface *)

(** [B] is the type of bodies. *)
Record IdemEntry (B : Type) := { IdemStatus : Z; IdemBody : B }.
Arguments IdemStatus {B} _.
Arguments IdemBody {B} _.
Arguments Build_IdemEntry {B} _ _.

Class IdemStore (B S : Type) := {
  Idem_Get : string → time → M S (option (IdemEntry B));
  Idem_Set : string → IdemEntry B → time → time → M S unit }.

(** What the comments of the interface promise, in terms of what the store
    shows at an instant: [Get] shows it, [Set] writes only under a key that
    shows nothing and never touches another key, and until an entry expires it
    is shown unchanged. *)
Class IdemStoreLaws (B S : Type) `{!IdemStore B S} := {
  shown : S → time → string → option (IdemEntry B);
  idem_ttl : S → Z;
  Get_shown : ∀ k t s e s', Idem_Get k t s = (Ok e, s') → e = shown s t k;
  shown_expired : ∀ s t t' k, t <= t' → shown s t k = None → shown s t' k = None;
  Get_frame : ∀ k t s k' t', t <= t' →
    shown (Idem_Get k t s).2 t' k' = shown s t' k' ∧ idem_ttl (Idem_Get k t s).2 = idem_ttl s;
  Set_fresh : ∀ k e t1 t2 t s s',
    Idem_Set k e t1 t2 s = (Ok tt, s') → shown s t1 k = None → t1 <= t2 →
    t2 <= t <= t2 + idem_ttl s → shown s' t k = Some e;
  Set_keeps : ∀ k e t1 t2 t0 t s, t1 < t0 → t2 <= t0 → is_Some (shown s t0 k) → t2 <= t →
    shown (Idem_Set k e t1 t2 s).2 t k = shown s t k;
  Set_frame : ∀ k e t1 t2 t s k', k' ≠ k → t2 <= t →
    shown (Idem_Set k e t1 t2 s).2 t k' = shown s t k';
  Set_ttl : ∀ k e t1 t2 s, idem_ttl (Idem_Set k e t1 t2 s).2 = idem_ttl s }.

(** A store that answers every call from an instant on. *)
Class IdemUp (B S : Type) `{!IdemStore B S} := {
  idem_up : S → time → Prop;
  idem_up_later : ∀ s t t', t <= t' → idem_up s t → idem_up s t';
  Get_up : ∀ k t s, idem_up s t →
    is_Ok (Idem_Get k t s).1 = true ∧ idem_up (Idem_Get k t s).2 t;
  Set_up : ∀ k e t1 t2 s, idem_up s t2 →
    is_Ok (Idem_Set k e t1 t2 s).1 = true ∧ idem_up (Idem_Set k e t1 t2 s).2 t2 }.

(** ** The in-memory store *)

Record inmemEntry (B : Type) := { im_entry : IdemEntry B; expiresAt : time }.
Arguments im_entry {B} _.
Arguments expiresAt {B} _.
Arguments Build_inmemEntry {B} _ _.

Record InmemStore (B : Type) := { im_entries : gmap string (inmemEntry B); im_ttl : Z }.
Arguments im_entries {B} _.
Arguments im_ttl {B} _.
Arguments Build_InmemStore {B} _ _.

Definition NewInmemStore {B} (ttl : Z) : InmemStore B :=
  let ttl := if ttl <=? 0 then 5 * Minute else ttl in
  {| im_entries := ∅; im_ttl := ttl |}.

Definition InmemStore_Get {B} (key : string) (now : time)
    : M (InmemStore B) (option (IdemEntry B)) := λ s,
  match im_entries s !! key with
  | None => (Ok None, s)
  | Some e =>
      if After now (expiresAt e) then
        (Ok None, {| im_entries := delete key (im_entries s); im_ttl := im_ttl s |})
      else (Ok (Some (im_entry e)), s)
  end.

(** [now1] is read only when the key is present. *)
Definition InmemStore_Set {B} (key : string) (entry : IdemEntry B) (now1 now2 : time)
    : M (InmemStore B) unit := λ s,
  let present :=
    match im_entries s !! key with
    | Some e => Before now1 (expiresAt e)
    | None => false
    end in
  if present then (Ok tt, s)
  else
    (Ok tt, {| im_entries := <[key := {| im_entry := entry; expiresAt := now2 + im_ttl s |}]>
                               (im_entries s);
               im_ttl := im_ttl s |}).

Definition InmemStore_Sweep {B} (now : time) : M (InmemStore B) Z := λ s,
  let dead := filter (λ kv, After now (expiresAt kv.2) = true) (im_entries s) in
  (Ok (Z.of_nat (size dead)),
   {| im_entries := filter (λ kv, After now (expiresAt kv.2) ≠ true) (im_entries s);
      im_ttl := im_ttl s |}).

#[export] Instance inmem_IdemStore {B} : IdemStore B (InmemStore B) := {|
  Idem_Get := InmemStore_Get;
  Idem_Set := InmemStore_Set |}.

(** ** The store shows its unexpired entries *)

Definition inmem_shown {B} (s : InmemStore B) (t : time) (k : string) : option (IdemEntry B) :=
  e ← im_entries s !! k; if t <=? expiresAt e then Some (im_entry e) else None.

Section inmem.
Context {B : Type}.
Implicit Types (s : InmemStore B) (k : string) (t : time).

Lemma inmem_Get_eq k t s : (InmemStore_Get k t s).1 = Ok (inmem_shown s t k).
Proof.
  unfold InmemStore_Get, inmem_shown, After. destruct (im_entries s !! k) as [e|]; [|done]. simpl.
  by destruct (Z.ltb_spec (expiresAt e) t), (Z.leb_spec t (expiresAt e)); try lia.
Qed.

Lemma inmem_Get_frame k t s k' t' :
  t <= t' → inmem_shown (InmemStore_Get k t s).2 t' k' = inmem_shown s t' k'.
Proof.
  intros Ht. unfold InmemStore_Get, After. destruct (im_entries s !! k) as [e|] eqn:He; [|done].
  destruct (Z.ltb_spec (expiresAt e) t); [|done]. unfold inmem_shown. simpl.
  destruct (decide (k = k')) as [<-|]; [|by rewrite lookup_delete_ne].
  rewrite lookup_delete_eq, He. simpl. by destruct (Z.leb_spec t' (expiresAt e)); [lia|].
Qed.

#[export, program] Instance inmem_IdemStoreLaws : IdemStoreLaws B (InmemStore B) := {|
  shown := inmem_shown;
  idem_ttl := im_ttl |}.
Next Obligation.
  intros k t s e s' Hget. pose proof (inmem_Get_eq k t s) as Heq.
  unfold Idem_Get, inmem_IdemStore in Hget. rewrite Hget in Heq. by injection Heq.
Qed.
Next Obligation.
  intros s t t' k Ht. unfold inmem_shown. destruct (im_entries s !! k) as [e|]; [|done]. simpl.
  destruct (Z.leb_spec t (expiresAt e)), (Z.leb_spec t' (expiresAt e)); done || lia.
Qed.
Next Obligation.
  intros k t s k' t' Ht. split; [by apply inmem_Get_frame|]. simpl.
  unfold InmemStore_Get. by repeat case_match.
Qed.
Next Obligation.
  intros k e t1 t2 t s s' Hset Hnone _ Ht. revert Hset Hnone. simpl. unfold InmemStore_Set, inmem_shown.
  destruct (im_entries s !! k) as [e0|]; simpl; unfold Before.
  - destruct (Z.leb_spec t1 (expiresAt e0)); [done|].
    destruct (Z.ltb_spec t1 (expiresAt e0)); [lia|].
    intros [= <-] _. simpl. rewrite lookup_insert_eq. simpl.
    by destruct (Z.leb_spec t (t2 + im_ttl s)); [|lia].
  - intros [= <-] _. simpl. rewrite lookup_insert_eq. simpl.
    by destruct (Z.leb_spec t (t2 + im_ttl s)); [|lia].
Qed.
Next Obligation.
  intros k e t1 t2 t0 t s Ht _ Hsome _. revert Hsome. simpl. unfold InmemStore_Set, inmem_shown, Before.
  destruct (im_entries s !! k) as [e0|] eqn:He; simpl; [|by intros []].
  destruct (Z.leb_spec t0 (expiresAt e0)); [|by intros []]. intros _.
  destruct (Z.ltb_spec t1 (expiresAt e0)); simpl; [|lia]. by rewrite He.
Qed.
Next Obligation.
  intros k e t1 t2 t s k' Hne _. simpl. unfold InmemStore_Set, inmem_shown.
  destruct (im_entries s !! k) as [e0|]; simpl; [destruct (Before t1 (expiresAt e0)); [done|]|];
    simpl; by rewrite lookup_insert_ne.
Qed.
Next Obligation.
  intros k e t1 t2 s. simpl. unfold InmemStore_Set. by repeat case_match.
Qed.

#[export, program] Instance inmem_IdemUp : IdemUp B (InmemStore B) := {| idem_up _ _ := True |}.
Next Obligation. done. Qed.
Next Obligation. intros k t s _. simpl. unfold InmemStore_Get. by repeat case_match. Qed.
Next Obligation. intros k e t1 t2 s _. simpl. unfold InmemStore_Set. by repeat case_match. Qed.
End inmem.

(** ** Runs *)

(** A call of the store, with its clock readings. *)
Inductive idem_op (B : Type) :=
  | IGet (key : string) (now : time)
  | ISet (key : string) (entry : IdemEntry B) (now1 now2 : time)
  | ISweep (now : time).
Arguments IGet {B} _ _.
Arguments ISet {B} _ _ _ _.
Arguments ISweep {B} _.

(** The readings of a run never go back. *)
Fixpoint clock_ok {B} (t : time) (ops : list (idem_op B)) : Prop :=
  match ops with
  | [] => True
  | IGet _ now :: ops' => t <= now ∧ clock_ok now ops'
  | ISet _ _ now1 now2 :: ops' => t <= now1 ∧ now1 <= now2 ∧ clock_ok now2 ops'
  | ISweep now :: ops' => t <= now ∧ clock_ok now ops'
  end.

(** The answers the in-memory store gives to the [Get]s of a run. *)
Fixpoint answers {B} (ops : list (idem_op B)) (s : InmemStore B)
    : list (result (option (IdemEntry B))) :=
  match ops with
  | [] => []
  | IGet k now :: ops' => (InmemStore_Get k now s).1 :: answers ops' (InmemStore_Get k now s).2
  | ISet k e now1 now2 :: ops' => answers ops' (InmemStore_Set k e now1 now2 s).2
  | ISweep now :: ops' => answers ops' (InmemStore_Sweep now s).2
  end.

(** The reference: a log of [Set]s, newest first, from which nothing is ever
    deleted. A [Set] counts unless one that counts holds the key until after
    its reading. *)
Fixpoint remembered {B} (ttl : Z) (log : list (string * IdemEntry B * time * time)) (k : string)
    : option (IdemEntry B * time) :=
  match log with
  | [] => None
  | (k', e, now1, now2) :: log' =>
      let prev := remembered ttl log' k in
      if decide (k' = k) then
        match prev with
        | Some (_, deadline) => if now1 <? deadline then prev else Some (e, now2 + ttl)
        | None => Some (e, now2 + ttl)
        end
      else prev
  end.

Definition log_shown {B} (ttl : Z) (log : list (string * IdemEntry B * time * time))
    (t : time) (k : string) : option (IdemEntry B) :=
  '(e, deadline) ← remembered ttl log k; if t <=? deadline then Some e else None.

Fixpoint log_answers {B} (ttl : Z) (ops : list (idem_op B))
    (log : list (string * IdemEntry B * time * time)) : list (result (option (IdemEntry B))) :=
  match ops with
  | [] => []
  | IGet k now :: ops' => Ok (log_shown ttl log now k) :: log_answers ttl ops' log
  | ISet k e now1 now2 :: ops' => log_answers ttl ops' ((k, e, now1, now2) :: log)
  | ISweep _ :: ops' => log_answers ttl ops' log
  end.

(** ** The period of an entry, for every store *)

(** The answers a store gives to the [Get]s of a run, with their keys; sweeping
    is not part of the interface. *)
Fixpoint store_answers {B S : Type} `{!IdemStore B S} (ops : list (idem_op B)) (s : S)
    : list (string * result (option (IdemEntry B))) :=
  match ops with
  | [] => []
  | IGet k now :: ops' => (k, (Idem_Get k now s).1) :: store_answers ops' (Idem_Get k now s).2
  | ISet k e now1 now2 :: ops' => store_answers ops' (Idem_Set k e now1 now2 s).2
  | ISweep _ :: ops' => store_answers ops' s
  end.

(** The last reading of a run that starts at [t]. *)
Fixpoint clock_end {B} (t : time) (ops : list (idem_op B)) : time :=
  match ops with
  | [] => t
  | IGet _ now :: ops' | ISet _ _ _ now :: ops' | ISweep now :: ops' => clock_end now ops'
  end.

(** An entry, or a failure of the store, but nothing else. *)
Definition answered_with {B} (e : IdemEntry B) (res : result (option (IdemEntry B))) : Prop :=
  match res with Ok o => o = Some e | _ => True end.

Lemma clock_end_le {B} t (ops : list (idem_op B)) : clock_ok t ops → t <= clock_end t ops.
Proof.
  revert t. induction ops as [|[k now|k e now1 now2|now] ops IH]; intros t; cbn; [lia|..];
    intros Hc; [destruct Hc as [? Hc]|destruct Hc as (? & ? & Hc)|destruct Hc as [? Hc]];
    specialize (IH _ Hc); lia.
Qed.

Lemma shown_answers {B S : Type} `{!IdemStore B S, !IdemStoreLaws B S} k e ops t until (s : S) :
  (∀ t', t <= t' <= until → shown s t' k = Some e) → clock_ok t ops → clock_end t ops < until →
  Forall (λ '(k', res), k' = k → answered_with e res) (store_answers ops s).
Proof.
  revert t s. induction ops as [|[k' now|k' e' now1 now2|now] ops IH]; intros t s Hs Hc Hend;
    cbn [clock_ok clock_end store_answers] in *; [constructor|..].
  - destruct Hc as [Ht Hc]. pose proof (clock_end_le _ _ Hc). constructor.
    + intros ->. destruct (Idem_Get k now s) as [[o|?|?] s'] eqn:Hg; [|done..].
      apply Get_shown in Hg as ->. simpl. apply Hs. lia.
    + apply (IH now); [|done..]. intros t' Ht'.
      destruct (Get_frame k' now s k t') as [-> _]; [lia|]. apply Hs. lia.
  - destruct Hc as (Ht & Ht' & Hc). pose proof (clock_end_le _ _ Hc).
    apply (IH now2); [|done..]. intros t' Hin. destruct (decide (k' = k)) as [->|Hne].
    + rewrite (Set_keeps k e' now1 now2 until) by (rewrite ?Hs; eauto; lia). apply Hs. lia.
    + rewrite Set_frame by (done || lia). apply Hs. lia.
  - destruct Hc as [Ht Hc]. apply (IH now); [|done..]. intros t' Hin. apply Hs. lia.
Qed.

Section runs.
Context {B : Type}.
Implicit Types (s : InmemStore B) (k : string) (t : time).

(** From [t] on, the store shows what the log does. *)
Definition tracks t s (ttl : Z) (log : list (string * IdemEntry B * time * time)) : Prop :=
  im_ttl s = ttl ∧ ∀ t' k, t <= t' → inmem_shown s t' k = log_shown ttl log t' k.

Lemma tracks_mono t t' s ttl log : t <= t' → tracks t s ttl log → tracks t' s ttl log.
Proof. intros Ht [Httl H]. split; [done|]. intros t'' k Hk. apply H. lia. Qed.

(** A key blocks a [Set] exactly when it is still shown one instant later. *)
Lemma Set_shown k e now1 now2 s t' k' :
  inmem_shown (InmemStore_Set k e now1 now2 s).2 t' k' =
  if decide (k = k' ∧ inmem_shown s (now1 + 1) k = None) then
    if t' <=? now2 + im_ttl s then Some e else None
  else inmem_shown s t' k'.
Proof.
  unfold InmemStore_Set, inmem_shown, Before.
  destruct (im_entries s !! k) as [e0|] eqn:He; simpl.
  - destruct (Z.ltb_spec now1 (expiresAt e0)), (Z.leb_spec (now1 + 1) (expiresAt e0)); try lia; simpl.
    + rewrite decide_False; [done|intros [_ ?]; done].
    + destruct (decide (k = k')) as [<-|].
      * rewrite decide_True by done. by rewrite lookup_insert_eq.
      * rewrite decide_False by tauto. by rewrite lookup_insert_ne.
  - destruct (decide (k = k')) as [<-|].
    + rewrite decide_True by done. by rewrite lookup_insert_eq.
    + rewrite decide_False by tauto. by rewrite lookup_insert_ne.
Qed.

Lemma log_shown_set k (e : IdemEntry B) now1 now2 ttl log t' k' :
  log_shown ttl ((k, e, now1, now2) :: log) t' k' =
  if decide (k = k' ∧ log_shown ttl log (now1 + 1) k = None) then
    if t' <=? now2 + ttl then Some e else None
  else log_shown ttl log t' k'.
Proof.
  unfold log_shown. cbn [remembered]. destruct (decide (k = k')) as [<-|].
  - destruct (remembered ttl log k) as [[e0 d]|]; simpl; [|by rewrite decide_True].
    destruct (Z.ltb_spec now1 d), (Z.leb_spec (now1 + 1) d); try lia; simpl.
    + rewrite decide_False; [done|intros [_ ?]; done].
    + by rewrite decide_True.
  - by rewrite decide_False by tauto.
Qed.

Lemma Sweep_shown now s t' k :
  now <= t' → inmem_shown (InmemStore_Sweep now s).2 t' k = inmem_shown s t' k.
Proof.
  intros Ht. unfold inmem_shown, InmemStore_Sweep, After. cbn [snd im_entries].
  destruct (im_entries s !! k) as [e|] eqn:He.
  2:{ by rewrite map_lookup_filter_None_2 by by left. }
  destruct (Z.ltb_spec (expiresAt e) now) as [Hlt|Hge].
  - rewrite map_lookup_filter_None_2.
    + simpl. by destruct (Z.leb_spec t' (expiresAt e)); [lia|].
    + right. intros x Hx. simplify_eq/=. rewrite (proj2 (Z.ltb_lt _ _) Hlt). tauto.
  - rewrite (map_lookup_filter_Some_2 _ _ k e); [done..|]. simpl.
    by rewrite (proj2 (Z.ltb_ge _ _) Hge).
Qed.

Lemma answers_tracks t ops s ttl log :
  clock_ok t ops → tracks t s ttl log → answers ops s = log_answers ttl ops log.
Proof.
  revert t s log. induction ops as [|[k now|k e now1 now2|now] ops IH];
    intros t s log; cbn [clock_ok answers log_answers]; [done|..].
  - intros [Ht Hok] Htr. apply (tracks_mono _ now) in Htr as [Httl Htr]; [|done].
    rewrite inmem_Get_eq, Htr by done. f_equal. apply (IH now); [done|].
    split; [unfold InmemStore_Get; by repeat case_match|].
    intros t' k' Ht'. by rewrite inmem_Get_frame, Htr.
  - intros (Ht & Ht12 & Hok) [Httl Htr]. apply (IH now2); [done|].
    split; [unfold InmemStore_Set; by repeat case_match|].
    intros t' k' Ht'. rewrite Set_shown, log_shown_set, !Htr, Httl by lia. done.
  - intros [Ht Hok] Htr. apply (tracks_mono _ now) in Htr as [Httl Htr]; [|done].
    apply (IH now); [done|]. split; [done|]. intros t' k Ht'. by rewrite Sweep_shown, Htr.
Qed.

(** C26. Lazy deletion and sweeping are invisible. In any run of the in-memory
    store whose clock does not go back, with calls to [Sweep] anywhere, every
    [Get] answers what a log of all [Set]s that deletes nothing answers: the
    entry of the first [Set] of its period under that key, for the whole of its
    time to live, and nothing afterwards. *)
Theorem InmemStore_refines_log (ops : list (idem_op B)) (ttl : Z) (t : time)
    (Hclock : clock_ok t ops) :
  answers ops (NewInmemStore ttl) =
  log_answers (if ttl <=? 0 then 5 * Minute else ttl) ops [].
Proof.
  apply (answers_tracks t); [done|]. split; [done|].
  intros t' k _. unfold inmem_shown, NewInmemStore. simpl. by rewrite lookup_empty.
Qed.
End runs.

Definition demo_run : list (idem_op string) :=
  let e s := {| IdemStatus := 200; IdemBody := s |} in
  [ISet "k" (e "first") 0 0; ISet "k" (e "second") 5 5; IGet "k" 10; ISweep 11; IGet "k" 12;
   ISet "k" (e "third") 12 12; ISweep 30; IGet "k" 30].

Example demo_run_answers :
  answers demo_run (NewInmemStore 10) =
  [Ok (Some {| IdemStatus := 200; IdemBody := "first" |}); Ok None; Ok None].
Proof. vm_compute. reflexivity. Qed.

Lemma InmemStore_refines_log_witness :
  clock_ok 0 demo_run ∧ answers demo_run (NewInmemStore 10) = log_answers 10 demo_run [].
Proof.
  assert (Hclock : clock_ok 0 demo_run) by (cbn; lia).
  split; [exact Hclock|]. exact (InmemStore_refines_log demo_run 10 0 Hclock).
Defined.
