(* ===== verification/Auth.v ===== *)
(** * Authentication: issuing and validating tokens

    Models [internal/auth/auth.go]. Signing, parsing and the numeric dates of
    the [golang-jwt] library are an interface ([JwtLibrary]); what its
    documentation promises is [JwtLaws]. A call that reads a clock takes the
    instant as an argument. *)

From S2P Require Import GoLang.

(** ** Claims *)

(** [Claims], with the registered claims the program sets. *)
Record Claims := {
  PlayerID : string;
  Claims_Issuer : string;
  Subject : string;
  IssuedAt : time;
  ExpiresAt : time;
  NotBefore : time }.

#[export] Instance Claims_eq_dec : EqDecision Claims.
Proof. solve_decision. Defined.

(** ** The token library *)

(** [ParseWithClaims secret iss now token]: the parser restricted to HS256,
    with an expected issuer and a time function, applied with the key
    [secret]; an [Ok] token is valid. *)
Class JwtLibrary := {
  NewNumericDate : time → time;
  SignedString : string → Claims → result string;
  ParseWithClaims : string → string → time → string → result Claims }.

(** Numeric dates have second precision; a token signed with the key and
    within its dates parses back to its claims when the issuer is the expected
    one; past its expiry or before its start, or for another issuer, it is
    rejected. *)
Class JwtLaws `{!JwtLibrary} := {
  NewNumericDate_trunc : ∀ t, t - Second < NewNumericDate t <= t;
  parse_signed : ∀ secret c token iss now,
    SignedString secret c = Ok token →
    iss = Claims_Issuer c → NotBefore c <= now < ExpiresAt c →
    ParseWithClaims secret iss now token = Ok c;
  parse_rejects : ∀ secret c token iss now,
    SignedString secret c = Ok token → iss ≠ "" →
    iss ≠ Claims_Issuer c ∨ now < NotBefore c ∨ ExpiresAt c <= now →
    ∃ e, ParseWithClaims secret iss now token = Err e }.

(** ** Issuer *)

Record Issuer := { is_secret : string; is_ttl : Z; is_issuer : string }.

Definition WithIssuer (name : string) (i : Issuer) : Issuer :=
  {| is_secret := is_secret i; is_ttl := is_ttl i; is_issuer := name |}.

Definition auth_ErrEmptySecret : error :=
  ErrorsNew "auth.NewIssuer.1" "auth: secret must not be empty".
Definition auth_ErrBadTTL : error := ErrorsNew "auth.NewIssuer.2" "auth: ttl must be > 0".
Definition auth_ErrEmptyPlayer : error :=
  ErrorsNew "auth.Issue.1" "auth: playerID must not be empty".

Definition NewIssuer (secret : string) (ttl : Z) (opts : list (Issuer → Issuer)) : result Issuer :=
  if bool_decide (secret = "") then Err auth_ErrEmptySecret
  else if ttl <=? 0 then Err auth_ErrBadTTL
  else Ok (foldl (λ i o, o i)
             {| is_secret := secret; is_ttl := ttl; is_issuer := "stagesync" |} opts).

(** ** Validator *)

Record Validator := { va_secret : string; va_issuer : string }.

Definition WithValidatorIssuer (name : string) (v : Validator) : Validator :=
  {| va_secret := va_secret v; va_issuer := name |}.

(** An empty secret gives no validator. *)
Definition NewValidator (secret : string) (opts : list (Validator → Validator))
    : option Validator :=
  if bool_decide (secret = "") then None
  else Some (foldl (λ v o, o v) {| va_secret := secret; va_issuer := "stagesync" |} opts).

Definition ErrInvalidToken : error := ErrorsNew "auth.ErrInvalidToken" "auth: invalid token".

(** [fmt.Errorf("%w: %v", ErrInvalidToken, detail)]. *)
Definition invalid_token (detail : string) : error :=
  ErrWrap ("auth: invalid token: " +:+ detail) ErrInvalidToken.

Section operations.
Context `{!JwtLibrary}.

Definition Issuer_Issue (i : Issuer) (playerID : string) (now : time) : result (string * time) :=
  if bool_decide (playerID = "") then Err auth_ErrEmptyPlayer
  else
    let exp := now + is_ttl i in
    let claims := {|
      PlayerID := playerID; Claims_Issuer := is_issuer i; Subject := playerID;
      IssuedAt := NewNumericDate now; ExpiresAt := NewNumericDate exp;
      NotBefore := NewNumericDate now |} in
    match SignedString (is_secret i) claims with
    | Ok signed => Ok (signed, exp)
    | Err e => Err (Errorf_w "sign token" e)
    | Panic w => Panic w
    end.

Definition Validator_Validate (v : Validator) (tokenString : string) (now : time)
    : result Claims :=
  if bool_decide (tokenString = "") then Err ErrInvalidToken
  else
    match ParseWithClaims (va_secret v) (va_issuer v) now tokenString with
    | Err e => Err (invalid_token (error_string e))
    | Panic w => Panic w
    | Ok claims =>
        if bool_decide (PlayerID claims = "") then Err (invalid_token "empty player_id")
        else Ok claims
    end.
End operations.

(** ** Wiring *)

(** [buildAuth] of [cmd/server/main.go]: an empty secret disables both. *)
Definition buildAuth (secret : string) (ttl : Z) : result (option Issuer * option Validator) :=
  if bool_decide (secret = "") then Ok (None, None)
  else
    match NewIssuer secret ttl [] with
    | Ok issuer => Ok (Some issuer, NewValidator secret [])
    | Err e => Err (Errorf_w "new issuer" e)
    | Panic w => Panic w
    end.

(** ** Properties *)

Section properties.
Context `{!JwtLibrary, !JwtLaws}.

(** What the two halves of [buildAuth] share. *)
Lemma buildAuth_inv secret ttl i v :
  buildAuth secret ttl = Ok (Some i, Some v) →
  i = {| is_secret := secret; is_ttl := ttl; is_issuer := "stagesync" |} ∧
  v = {| va_secret := secret; va_issuer := "stagesync" |}.
Proof.
  unfold buildAuth, NewIssuer, NewValidator. repeat case_match; intros; simplify_eq/=; done.
Qed.

(** The claims of an issued token. *)
Lemma Issue_inv i player now token exp :
  Issuer_Issue i player now = Ok (token, exp) →
  player ≠ "" ∧ exp = now + is_ttl i ∧
  ∃ c, SignedString (is_secret i) c = Ok token ∧ PlayerID c = player ∧ Subject c = player ∧
    Claims_Issuer c = is_issuer i ∧ now - Second < NotBefore c <= now ∧
    exp - Second < ExpiresAt c <= exp.
Proof.
  unfold Issuer_Issue. case_bool_decide as Hplayer; [done|].
  set (c := Build_Claims _ _ _ _ _ _). destruct (SignedString (is_secret i) c) as [tk|e|w] eqn:Hsign;
    [|done|done]. intros [= -> <-]. split_and!; [done|done|].
  exists c. split_and!; try done; simpl; apply NewNumericDate_trunc.
Qed.

(** The token is accepted within its dates. *)
Lemma Issue_Validate_ok secret ttl i v player token now exp t :
  buildAuth secret ttl = Ok (Some i, Some v) → Issuer_Issue i player now = Ok (token, exp) →
  token ≠ "" → now <= t <= exp - Second →
  ∃ c, Validator_Validate v token t = Ok c ∧ PlayerID c = player ∧ Subject c = player.
Proof.
  intros [-> ->]%buildAuth_inv (Hplayer & -> & c & Hsign & Hp & Hs & Hiss & Hn & He)%Issue_inv Htok Ht.
  simpl in *. exists c. unfold Validator_Validate. rewrite bool_decide_eq_false_2 by done. simpl.
  rewrite (parse_signed _ _ _ _ _ Hsign) by (try done; lia).
  by rewrite bool_decide_eq_false_2 by congruence.
Qed.

Lemma Validate_player v token now c : Validator_Validate v token now = Ok c → PlayerID c ≠ "".
Proof.
  unfold Validator_Validate. case_bool_decide; [done|].
  destruct (ParseWithClaims _ _ _ _); try done. case_bool_decide; [done|]. by intros [= <-].
Qed.

Lemma Validate_rejects secret iss c token t :
  SignedString secret c = Ok token → token ≠ "" → iss ≠ "" →
  iss ≠ Claims_Issuer c ∨ ExpiresAt c <= t →
  ∃ e, Validator_Validate {| va_secret := secret; va_issuer := iss |} token t = Err e ∧
    errors_Is e ErrInvalidToken = true.
Proof.
  intros Hsign Htok Hiss Hbad.
  destruct (parse_rejects secret c token iss t Hsign Hiss) as [e He]; [tauto|].
  eexists. unfold Validator_Validate. rewrite bool_decide_eq_false_2 by done. simpl. by rewrite He.
Qed.

(** C37. Tokens round-trip. With the issuer and the validator the server builds
    from one secret, a token issued at [now] for a player is accepted from then
    on for the whole time to live but its last second at most, and the validated
    claims name that player; from its expiry on, and by a validator expecting
    another issuer, it is rejected with [ErrInvalidToken]; no token is issued
    for the empty player. *)
Theorem Issue_Validate_roundtrip (secret : string) (ttl : Z) (i : Issuer) (v : Validator)
    (player token : string) (now exp : time)
    (Hbuild : buildAuth secret ttl = Ok (Some i, Some v))
    (Hissue : Issuer_Issue i player now = Ok (token, exp))
    (Htoken : token ≠ "") :
  player ≠ "" ∧ exp = now + ttl ∧
  (∀ t, now <= t <= exp - Second →
     ∃ c, Validator_Validate v token t = Ok c ∧ PlayerID c = player ∧ Subject c = player) ∧
  (∀ t, exp <= t → ∃ e, Validator_Validate v token t = Err e ∧
     errors_Is e ErrInvalidToken = true) ∧
  (∀ t name, name ≠ "" → name ≠ "stagesync" →
     ∃ e, Validator_Validate (WithValidatorIssuer name v) token t = Err e ∧
       errors_Is e ErrInvalidToken = true).
Proof.
  pose proof (Issue_inv _ _ _ _ _ Hissue) as (Hplayer & Hexp & c & Hsign & _ & _ & Hiss & _ & He).
  pose proof (buildAuth_inv _ _ _ _ Hbuild) as [Hi Hv]. rewrite Hi in *. simpl in *.
  split_and!; [done|done| | |].
  - intros t Ht. by eapply Issue_Validate_ok.
  - intros t Ht. rewrite Hv. eapply Validate_rejects; [done..|right; lia].
  - intros t name Hname Hne. rewrite Hv. eapply (Validate_rejects secret name); [done..|left; congruence].
Qed.
End properties.

(** ** A token library

    Tokens are the bits of the encoded key and claims. *)

Fixpoint bits (p : positive) : string :=
  match p with
  | xH => "1"
  | xO p' => String "0" (bits p')
  | xI p' => String "1" (bits p')
  end.

Fixpoint unbits (s : string) : positive :=
  match s with
  | String _ "" => xH
  | String "0" s' => xO (unbits s')
  | String _ s' => xI (unbits s')
  | "" => xH
  end.

Lemma bits_nonempty p : ∃ c s, bits p = String c s.
Proof. destruct p; simpl; eauto. Qed.

Lemma unbits_bits p : unbits (bits p) = p.
Proof.
  induction p as [p IH|p IH|]; [| |done]; simpl;
    destruct (bits_nonempty p) as (c & s & Hb); rewrite Hb in *; by rewrite IH.
Qed.

Definition claims_tuple (c : Claims) : string * (string * (string * (Z * (Z * Z)))) :=
  (PlayerID c, (Claims_Issuer c, (Subject c, (IssuedAt c, (ExpiresAt c, NotBefore c))))).

Definition tuple_claims (x : string * (string * (string * (Z * (Z * Z))))) : Claims :=
  let '(p, (i, (s, (a, (e, n))))) := x in Build_Claims p i s a e n.

Definition toy_sign (secret : string) (c : Claims) : string :=
  bits (encode (secret, claims_tuple c)).

Definition toy_parse (secret iss : string) (now : time) (token : string) : result Claims :=
  match decode (unbits token) : option (string * (string * (string * (string * (Z * (Z * Z)))))) with
  | Some (k, x) =>
      let c := tuple_claims x in
      if decide (k = secret ∧ (iss = "" ∨ iss = Claims_Issuer c) ∧ NotBefore c <= now < ExpiresAt c)
      then Ok c else Err (ErrorsNew "jwt" "token is invalid")
  | None => Err (ErrorsNew "jwt" "token is malformed")
  end.

Definition toy_jwt : JwtLibrary := {|
  NewNumericDate t := t / Second * Second;
  SignedString secret c := Ok (toy_sign secret c);
  ParseWithClaims := toy_parse |}.

Lemma toy_parse_sign secret iss now c :
  toy_parse secret iss now (toy_sign secret c) =
  if decide (secret = secret ∧ (iss = "" ∨ iss = Claims_Issuer c) ∧ NotBefore c <= now < ExpiresAt c)
  then Ok c else Err (ErrorsNew "jwt" "token is invalid").
Proof. unfold toy_parse, toy_sign. rewrite unbits_bits, decode_encode. by destruct c. Qed.

Definition toy_jwt_laws : @JwtLaws toy_jwt.
Proof.
  split; simpl.
  - intros t. unfold Second. pose proof (Z.div_mod t 1000000000).
    pose proof (Z.mod_pos_bound t 1000000000). lia.
  - intros secret c token iss now [= <-] -> Ht. rewrite toy_parse_sign. by rewrite decide_True by auto.
  - intros secret c token iss now [= <-] Hiss Hbad. rewrite toy_parse_sign.
    rewrite decide_False; [by eexists|]. intros (_ & [?|?] & ?); [done|].
    destruct Hbad as [?|[?|?]]; [done|lia..].
Qed.

Lemma Issue_Validate_roundtrip_witness :
  ∃ token, @Issuer_Issue toy_jwt {| is_secret := "s3cret"; is_ttl := 60 * Second; is_issuer := "stagesync" |}
             "alice" (5 * Second) = Ok (token, 65 * Second) ∧
    ∃ c, @Validator_Validate toy_jwt {| va_secret := "s3cret"; va_issuer := "stagesync" |} token
           (60 * Second) = Ok c ∧ PlayerID c = "alice".
Proof.
  set (i := {| is_secret := "s3cret"; is_ttl := 60 * Second; is_issuer := "stagesync" |}).
  set (v := {| va_secret := "s3cret"; va_issuer := "stagesync" |}).
  destruct (@Issuer_Issue toy_jwt i "alice" (5 * Second)) as [[token exp]|e|w] eqn:Hissue;
    [|discriminate Hissue..].
  assert (Hne : token ≠ "").
  { revert Hissue. unfold Issuer_Issue. simpl. intros [= <- _]. unfold toy_sign.
    destruct (bits_nonempty (encode ("s3cret", claims_tuple (Build_Claims "alice" "stagesync" "alice"
      (5 * Second / Second * Second) (65 * Second / Second * Second)
      (5 * Second / Second * Second))))) as (c & s & Hb).
    intros Hempty. change (bits (encode ("s3cret", claims_tuple (Build_Claims "alice" "stagesync" "alice"
      (5 * Second / Second * Second) (65 * Second / Second * Second)
      (5 * Second / Second * Second)))) = "") in Hempty. congruence. }
  destruct (@Issue_Validate_roundtrip toy_jwt toy_jwt_laws "s3cret" (60 * Second) i v "alice" token
    (5 * Second) exp eq_refl Hissue Hne) as (_ & -> & Hok & _).
  exists token. split; [reflexivity|].
  destruct (Hok (60 * Second)) as (c & Hv & Hp & _); [unfold Second; lia|].
  exists c. split; [exact Hv|exact Hp].
Defined.
