(* ===== verification/Http.v ===== *)
(** * HTTP: requests, handlers and the response writer

    The parts of [net/http] and [strings] the endpoint package relies on. A
    handler is a function from a request and the program's state to the
    commands it gives its [http.ResponseWriter], how it ends, and the state it
    leaves. *)

From S2P Require Import GoLang Auth.

(** ** Requests *)

(** JSON values; the body of a response is the sequence of values encoded to
    it. [JNum] is a number written as an integer, [JFrac] any other number;
    [JTime] is a [time.Time] being encoded. *)
Scheme All for list.
Scheme All for prod.
Inductive json :=
  | JNull
  | JBool (b : bool)
  | JNum (z : Z)
  | JFrac (literal : string)
  | JString (s : string)
  | JTime (t : time)
  | JArr (l : list json)
  | JObj (fields : list (string * json)).

Abbreviation body := (list json) (only parsing).

(** [log/slog]: the levels, a logger with the level of its handler and the attributes it
    was given by [With], and what of the lines handed to it at a level is written. *)
Definition LevelDebug : Z := -4.
Definition LevelInfo : Z := 0.
Definition LevelWarn : Z := 4.
Definition LevelError : Z := 8.

Record Logger := { lg_level : Z; lg_attrs : list (string * string) }.

Definition Logger_With (l : Logger) (attrs : list (string * string)) : Logger :=
  {| lg_level := lg_level l; lg_attrs := lg_attrs l ++ attrs |}.

Definition Logger_Enabled (l : Logger) (level : Z) : bool := lg_level l <=? level.

Definition written {A} (l : Logger) (level : Z) (lines : list A) : list A :=
  if Logger_Enabled l level then lines else [].

Lemma written_nil {A} l level : written l level ([] : list A) = [].
Proof. unfold written. by destruct (Logger_Enabled l level). Qed.

Lemma written_app {A} l level (lines1 lines2 : list A) :
  written l level (lines1 ++ lines2) = written l level lines1 ++ written l level lines2.
Proof. unfold written. by destruct (Logger_Enabled l level). Qed.

(** A request as handlers see it: [URLParams] are the path parameters the
    router found, [Query] the first value of each query parameter, [ReqBody] the
    first JSON value of the body or the error of reading it; [ctx_claims] and
    [ctx_logger] are the values the auth middleware and the request logger put
    into its context. Header names are canonical. *)
Record Request := {
  Method : string;
  URL_Path : string;
  URLParams : gmap string string;
  Query : gmap string string;
  ReqHeader : gmap string string;
  RemoteAddr : string;
  ReqBody : result json;
  ctx_claims : option Claims;
  ctx_logger : option Logger }.

Definition URLParam (r : Request) (name : string) : string := default "" (URLParams r !! name).
Definition Query_Get (r : Request) (name : string) : string := default "" (Query r !! name).
Definition Header_Get (r : Request) (name : string) : string := default "" (ReqHeader r !! name).

(** [InjectClaims], [ClaimsFrom], [PlayerIDFrom] of [internal/auth]. *)
Definition InjectClaims (r : Request) (c : Claims) : Request :=
  {| Method := Method r; URL_Path := URL_Path r; URLParams := URLParams r;
     Query := Query r; ReqHeader := ReqHeader r;
     RemoteAddr := RemoteAddr r; ReqBody := ReqBody r; ctx_claims := Some c; ctx_logger := ctx_logger r |}.

Definition ClaimsFrom (r : Request) : option Claims := ctx_claims r.

Definition PlayerIDFrom (r : Request) : option string :=
  match ClaimsFrom r with
  | None => None
  | Some c => Some (PlayerID c)
  end.

(** ** Responses *)

(** What a handler asks of its writer: [w.Header().Set], [w.WriteHeader],
    [w.Write]. *)
Inductive wcmd :=
  | HeaderSet (name value : string)
  | WriteHeader (code : Z)
  | Write (b : body).

(** The server's writer: the live header map; the status and the headers
    already sent; the body. *)
Record writer := {
  w_header : gmap string string;
  w_sent : option (Z * gmap string string);
  w_body : body }.

(** Statuses without a body. *)
Definition bodyAllowed (status : Z) : bool :=
  negb (((100 <=? status) && (status <=? 199)) || (status =? 204) || (status =? 304)).

(** [WriteHeader]: the first final status counts and freezes the headers;
    informational statuses do not. *)
Definition w_WriteHeader (w : writer) (code : Z) : writer :=
  match w_sent w with
  | Some _ => w
  | None =>
      if (100 <=? code) && (code <=? 199) && negb (code =? 101) then w
      else {| w_header := w_header w; w_sent := Some (code, w_header w); w_body := w_body w |}
  end.

Definition w_step (w : writer) (c : wcmd) : writer :=
  match c with
  | HeaderSet name value =>
      {| w_header := <[name := value]> (w_header w); w_sent := w_sent w; w_body := w_body w |}
  | WriteHeader code => w_WriteHeader w code
  | Write b =>
      let w := match w_sent w with None => w_WriteHeader w 200 | Some _ => w end in
      match w_sent w with
      | Some (status, _) =>
          if bodyAllowed status
          then {| w_header := w_header w; w_sent := w_sent w; w_body := w_body w ++ b |}
          else w
      | None => w
      end
  end.

Definition w_init : writer := {| w_header := ∅; w_sent := None; w_body := [] |}.

Record Response := { RespStatus : Z; RespHeader : gmap string string; RespBody : body }.

(** The response the client gets: 200 when the handler sent nothing. *)
Definition response_of (w : writer) : Response :=
  let '(status, h) := default (200, w_header w) (w_sent w) in
  {| RespStatus := status; RespHeader := h; RespBody := w_body w |}.

Definition render (cmds : list wcmd) : Response := response_of (foldl w_step w_init cmds).

(** ** Handlers *)

(** The commands, whether the handler panicked, and the state. *)
Definition Handler (S : Type) : Type := Request → S → list wcmd * option string * S.

(** The response to a request when the handler does not panic. *)
Definition serve {S} (h : Handler S) (r : Request) (s : S) : option Response * S :=
  match h r s with
  | (cmds, None, s') => (Some (render cmds), s')
  | (_, Some _, s') => (None, s')
  end.

(** [json.NewEncoder(w).Encode(v)]. *)
Definition Encode (v : json) : list wcmd := [Write [v]].

(** [writeJSON] of [internal/endpoint/response.go]. *)
Definition writeJSON (v : json) : list wcmd :=
  HeaderSet "Content-Type" "application/json" :: Encode v.

(** ** Strings *)

(** [strings.HasPrefix] with the rest of the string. *)
Fixpoint strip_prefix (p s : string) : option string :=
  match p, s with
  | "", _ => Some s
  | String a p', String b s' => if bool_decide (a = b) then strip_prefix p' s' else None
  | _, "" => None
  end.

Fixpoint string_rev_onto (s acc : string) : string :=
  match s with
  | "" => acc
  | String c s' => string_rev_onto s' (String c acc)
  end.
Definition string_rev (s : string) : string := string_rev_onto s "".

Definition bytes (l : list nat) : string :=
  foldr (λ n s, String (ascii_of_nat n) s) "" l.

(** The UTF-8 encodings of the Unicode white space characters. *)
Definition white_space : list string :=
  bytes <$> [[9]; [10]; [11]; [12]; [13]; [32]; [0xC2; 0x85]; [0xC2; 0xA0]; [0xE1; 0x9A; 0x80];
   [0xE2; 0x80; 0x80]; [0xE2; 0x80; 0x81]; [0xE2; 0x80; 0x82]; [0xE2; 0x80; 0x83];
   [0xE2; 0x80; 0x84]; [0xE2; 0x80; 0x85]; [0xE2; 0x80; 0x86]; [0xE2; 0x80; 0x87];
   [0xE2; 0x80; 0x88]; [0xE2; 0x80; 0x89]; [0xE2; 0x80; 0x8A]; [0xE2; 0x80; 0xA8];
   [0xE2; 0x80; 0xA9]; [0xE2; 0x80; 0xAF]; [0xE2; 0x81; 0x9F]; [0xE3; 0x80; 0x80]]%nat.

Definition strip_any (ps : list string) (s : string) : option string :=
  head (omap (λ p, strip_prefix p s) ps).

(** Strips prefixes from the list while there is one; [fuel] is the length. *)
Fixpoint trim_left (fuel : nat) (ps : list string) (s : string) : string :=
  match fuel with
  | O => s
  | S fuel' => match strip_any ps s with Some s' => trim_left fuel' ps s' | None => s end
  end.

(** [strings.TrimSpace]. *)
Definition TrimSpace (s : string) : string :=
  let s := trim_left (String.length s) white_space s in
  string_rev (trim_left (String.length s) (string_rev <$> white_space) (string_rev s)).

(** [strings.EqualFold] against an ASCII prefix without the letters k and s,
    whose folding classes leave ASCII. *)
Definition EqualFold (s t : string) : bool := bool_decide (string_lower s = string_lower t).

(** [strings.Index] of a one-byte string. *)
Fixpoint index_byte (c : ascii) (s : string) : option nat :=
  match s with
  | "" => None
  | String d s' => if bool_decide (c = d) then Some 0%nat else S <$> index_byte c s'
  end.
Fixpoint last_index_byte (c : ascii) (s : string) : option nat :=
  match s with
  | "" => None
  | String d s' =>
      match last_index_byte c s' with
      | Some i => Some (S i)
      | None => if bool_decide (c = d) then Some 0%nat else None
      end
  end.

(** [s[:n]] and [s[n:]]. *)
Definition string_take (n : nat) (s : string) : string := String.substring 0 n s.
Definition string_drop (n : nat) (s : string) : string := String.substring n (String.length s - n) s.

(** The host of [net.SplitHostPort], [None] for its errors. *)
Definition SplitHost (hostport : string) : option string :=
  match last_index_byte ":" hostport with
  | None => None
  | Some i =>
      match hostport with
      | String "[" _ =>
          match index_byte "]" hostport with
          | None => None
          | Some e =>
              if bool_decide (S e = i) then
                if has_char "[" (string_drop 1 hostport) || has_char "]" (string_drop (S e) hostport)
                then None else Some (string_drop 1 (string_take e hostport))
              else None
          end
      | _ =>
          let host := string_take i hostport in
          if has_char ":" host || has_char "[" hostport || has_char "]" hostport then None
          else Some host
      end
  end.

Example SplitHost_v4 : SplitHost "10.0.0.7:8080" = Some "10.0.0.7".
Proof. reflexivity. Qed.
Example SplitHost_v6 : SplitHost "[::1]:80" = Some "::1".
Proof. reflexivity. Qed.
Example SplitHost_bad : SplitHost "::1" = None.
Proof. reflexivity. Qed.
Example TrimSpace_ex : TrimSpace "  a b " = "a b".
Proof. reflexivity. Qed.
