(* ===== verification/RateLimit.v ===== *)
(** * Rate limiter: one token bucket per identity

    Models [internal/ratelimit/ratelimit.go]. The token bucket itself is
    [golang.org/x/time/rate]: an interface here. *)

From S2P Require Import GoLang Float.

(** ** The token bucket *)

(** [rate.NewLimiter] and [Allow] at an instant; the rate is a [float64]. *)
Class TokenBucket (B : Type) := {
  NewLimiter : float64 → Z → B;
  Bucket_Allow : B → time → bool * B }.

(** ** The limiter *)

Record bucket (B : Type) := { bk_l : B; lastSeen : time }.
Arguments bk_l {B} _.
Arguments lastSeen {B} _.
Arguments Build_bucket {B} _ _.

Record Limiter (B : Type) := {
  buckets : gmap string (bucket B);
  rps : float64;
  burst : Z;
  idleTTL : Z }.
Arguments buckets {B} _.
Arguments rps {B} _.
Arguments burst {B} _.
Arguments idleTTL {B} _.
Arguments Build_Limiter {B} _ _ _ _.

Definition WithIdleTTL {B} (d : Z) (l : Limiter B) : Limiter B :=
  {| buckets := buckets l; rps := rps l; burst := burst l; idleTTL := d |}.

Definition Limiter_New {B} (rps : float64) (burst : Z) (opts : list (Limiter B → Limiter B))
    : Limiter B :=
  let burst := if burst <=? 0 then 1 else burst in
  foldl (λ l o, o l)
    {| buckets := ∅; rps := rps; burst := burst; idleTTL := 10 * Minute |} opts.

(** [rps <= 0]; false for a NaN. *)
Definition unlimited {B} (l : Limiter B) : bool := f_le (rps l) f_zero.

Section operations.
Context {B : Type} `{!TokenBucket B}.

(** [now] is the limiter's reading, [now'] the bucket's. *)
Definition Limiter_Allow (identity : string) (now now' : time) (l : Limiter B) : bool * Limiter B :=
  if unlimited l then (true, l)
  else
    let b := default (NewLimiter (rps l) (burst l)) (bk_l <$> buckets l !! identity) in
    let '(ok, b') := Bucket_Allow b now' in
    (ok, {| buckets := <[identity := {| bk_l := b'; lastSeen := now |}]> (buckets l);
            rps := rps l; burst := burst l; idleTTL := idleTTL l |}).

Definition Limiter_Sweep (now : time) (l : Limiter B) : Z * Limiter B :=
  let cutoff := now - idleTTL l in
  let idle := filter (λ kv, Before (lastSeen kv.2) cutoff = true) (buckets l) in
  (Z.of_nat (size idle),
   {| buckets := filter (λ kv, Before (lastSeen kv.2) cutoff ≠ true) (buckets l);
      rps := rps l; burst := burst l; idleTTL := idleTTL l |}).

Definition Limiter_Size (l : Limiter B) : Z := Z.of_nat (size (buckets l)).

(** ** Runs *)

Inductive limiter_op :=
  | LAllow (identity : string) (now now' : time)
  | LSweep (now : time).

Fixpoint limiter_run (ops : list limiter_op) (l : Limiter B) : list (string * bool) * Limiter B :=
  match ops with
  | [] => ([], l)
  | LAllow i now now' :: ops' =>
      let '(ok, l') := Limiter_Allow i now now' l in
      let '(oks, l'') := limiter_run ops' l' in ((i, ok) :: oks, l'')
  | LSweep now :: ops' => limiter_run ops' (Limiter_Sweep now l).2
  end.

(** The decisions about one identity. *)
Definition about (i : string) (oks : list (string * bool)) : list (string * bool) :=
  filter (λ '(j, _), j = i) oks.

(** The run an identity would have had alone: its calls and the sweeps. *)
Definition concerns (i : string) (o : limiter_op) : bool :=
  match o with LAllow j _ _ => bool_decide (j = i) | LSweep _ => true end.

Definition alone (i : string) (ops : list limiter_op) : list limiter_op :=
  filter (λ o, concerns i o = true) ops.

(** ** Facts *)

Lemma Sweep_lookup now l i :
  buckets (Limiter_Sweep now l).2 !! i =
  (b ← buckets l !! i; if lastSeen b <? now - idleTTL l then None else Some b).
Proof.
  unfold Limiter_Sweep, Before. cbn [snd buckets].
  destruct (buckets l !! i) as [b|] eqn:Hb; cbn [mbind option_bind].
  2:{ by rewrite map_lookup_filter_None_2 by by left. }
  destruct (Z.ltb_spec (lastSeen b) (now - idleTTL l)) as [Hlt|Hge].
  - apply map_lookup_filter_None_2. right. intros x Hx. simplify_eq/=.
    rewrite (proj2 (Z.ltb_lt _ _) Hlt). tauto.
  - apply map_lookup_filter_Some_2; [done|]. simpl. by rewrite (proj2 (Z.ltb_ge _ _) Hge).
Qed.

(** Two limiters with one configuration that agree on the bucket of [i]. *)
Definition agree_on (i : string) (l l' : Limiter B) : Prop :=
  buckets l !! i = buckets l' !! i ∧ rps l = rps l' ∧ burst l = burst l' ∧ idleTTL l = idleTTL l'.

Lemma Allow_agree i now now' l l' :
  agree_on i l l' →
  (Limiter_Allow i now now' l).1 = (Limiter_Allow i now now' l').1 ∧
  agree_on i (Limiter_Allow i now now' l).2 (Limiter_Allow i now now' l').2.
Proof.
  intros (Hb & Hr & Hu & Hi). unfold Limiter_Allow, unlimited. rewrite Hr, Hb, Hu.
  destruct (f_le _ _); [done|]. destruct (Bucket_Allow _ _) as [ok b']. simpl.
  split; [done|]. split_and!; try done. simpl. by rewrite !lookup_insert_eq.
Qed.

Lemma Allow_other i j now now' l : j ≠ i → agree_on i l (Limiter_Allow j now now' l).2.
Proof.
  intros Hne. unfold Limiter_Allow. destruct (unlimited l); [done|].
  destruct (Bucket_Allow _ _) as [ok b']. split_and!; try done. simpl. by rewrite lookup_insert_ne.
Qed.

Lemma Sweep_agree i now l l' :
  agree_on i l l' → agree_on i (Limiter_Sweep now l).2 (Limiter_Sweep now l').2.
Proof.
  intros (Hb & Hr & Hu & Hi). split_and!; try done. by rewrite !Sweep_lookup, Hb, Hi.
Qed.

Lemma limiter_run_agree i ops l l' :
  agree_on i l l' →
  about i (limiter_run ops l).1 = about i (limiter_run (alone i ops) l').1 ∧
  agree_on i (limiter_run ops l).2 (limiter_run (alone i ops) l').2.
Proof.
  revert l l'. induction ops as [|[j now now'|now] ops IH]; intros l l' Hag; [done|..].
  - unfold alone. destruct (decide (j = i)) as [->|Hne].
    + rewrite filter_cons_True by (by apply bool_decide_eq_true_2). fold (alone i ops).
      cbn [limiter_run].
      destruct (Allow_agree i now now' l l' Hag) as [Hok Hag'].
      destruct (Limiter_Allow i now now' l) as [ok l1], (Limiter_Allow i now now' l') as [ok' l1'].
      simpl in *. subst ok'. destruct (IH l1 l1' Hag') as [IH1 IH2].
      destruct (limiter_run ops l1), (limiter_run (alone i ops) l1'). simpl in *.
      unfold about in *. rewrite !filter_cons_True by done. by rewrite IH1.
    + rewrite filter_cons_False by (simpl; by rewrite bool_decide_eq_true). fold (alone i ops).
      cbn [limiter_run].
      pose proof (Allow_other i j now now' l Hne) as Hj.
      destruct (Limiter_Allow j now now' l) as [ok l1]. simpl in Hj.
      assert (Hag' : agree_on i l1 l').
      { destruct Hag as (? & ? & ? & ?), Hj as (? & ? & ? & ?). split_and!; congruence. }
      destruct (IH l1 l' Hag') as [IH1 IH2]. destruct (limiter_run ops l1). simpl in *.
      unfold about in *. by rewrite filter_cons_False by done.
  - unfold alone. rewrite filter_cons_True by done. fold (alone i ops). cbn [limiter_run].
    by apply IH, Sweep_agree.
Qed.

(** Isolation. Whatever the other identities do, and whenever the sweeper
    runs, the decisions about an identity are those of a limiter that serves
    only that identity; and with a rate of zero or less everything is allowed. *)
Theorem Limiter_isolation (i : string) (ops : list limiter_op) (l : Limiter B) :
  about i (limiter_run ops l).1 = about i (limiter_run (alone i ops) l).1 ∧
  (unlimited l = true → Forall (λ ok, ok.2 = true) (limiter_run ops l).1).
Proof.
  split; [by apply limiter_run_agree|].
  revert l. induction ops as [|[j now now'|now] ops IH]; intros l Hu; [by constructor|..];
    cbn [limiter_run].
  - unfold Limiter_Allow. rewrite Hu. specialize (IH l Hu).
    destruct (limiter_run ops l). by constructor.
  - by apply IH.
Qed.

(** Sweeping. A sweep removes exactly the buckets not used for longer than
    the idle time, keeps the others untouched, and reports how many it
    removed; so an identity seen within the idle time keeps its spent tokens. *)
Theorem Limiter_Sweep_spec (now : time) (l : Limiter B) :
  let '(removed, l') := Limiter_Sweep now l in
  (∀ i b, buckets l' !! i = Some b ↔ buckets l !! i = Some b ∧ now - idleTTL l <= lastSeen b) ∧
  Limiter_Size l = Limiter_Size l' + removed ∧
  (∀ i now1 now2, (∃ b, buckets l !! i = Some b ∧ now - idleTTL l <= lastSeen b) →
     (Limiter_Allow i now1 now2 l').1 = (Limiter_Allow i now1 now2 l).1).
Proof.
  destruct (Limiter_Sweep now l) as [removed l'] eqn:Hs.
  assert (Hl : ∀ i, buckets l' !! i =
    (b ← buckets l !! i; if lastSeen b <? now - idleTTL l then None else Some b)).
  { intros i. rewrite <- Sweep_lookup. by rewrite Hs. }
  split_and!.
  - intros i b. rewrite Hl. destruct (buckets l !! i) as [b0|]; simpl; [|naive_solver].
    destruct (Z.ltb_spec (lastSeen b0) (now - idleTTL l)).
    + split; [done|]. intros [[= ->] ?]. lia.
    + split; [intros [= ->]; done|by intros [[= ->] _]].
  - unfold Limiter_Sweep in Hs. injection Hs as <- <-. unfold Limiter_Size. cbn [buckets].
    rewrite <- Nat2Z.inj_add. f_equal.
    rewrite <- (map_filter_union_complement
      (λ kv, Before (lastSeen kv.2) (now - idleTTL l) = true) (buckets l)) at 1.
    rewrite map_size_disj_union by apply map_disjoint_filter_complement.
    apply Nat.add_comm.
  - intros i now1 now2 (b & Hb & Hseen).
    apply Allow_agree. unfold Limiter_Sweep in Hs. injection Hs as <- <-.
    split_and!; try done. rewrite Hl, Hb. simpl.
    by rewrite (proj2 (Z.ltb_ge _ _) Hseen).
Qed.
End operations.
