(* ===== verification/RateSweeper.v ===== *)
(** * The sweeper of the rate limiter

    [StartSweeper] and [Stop] of [internal/ratelimit/ratelimit.go]: goroutines
    that sweep on the ticks of a ticker until a channel is closed. They take their
    steps at any moment between the calls of [Allow]. Dropping a bucket is
    harmless as long as the idle time is enough to fill any bucket: then nobody
    can tell whether the sweeper runs. *)

From S2P Require Import GoLang Float RateLimit.
#[local] Open Scope Z_scope.

(** ** What a token bucket promises *)

Section bucket.
Context {B : Type} `{!TokenBucket B}.

(** The answers of a bucket at the instants of a list. *)
Fixpoint answers_at (b : B) (ts : list time) : list bool :=
  match ts with
  | [] => []
  | t :: ts' => let '(ok, b') := Bucket_Allow b t in ok :: answers_at b' ts'
  end.

Fixpoint sorted_from (t : time) (ts : list time) : Prop :=
  match ts with
  | [] => True
  | t' :: ts' => t <= t' ∧ sorted_from t' ts'
  end.

(** Nobody can tell the buckets apart from [t] on. *)
Definition alike (t : time) (b b' : B) : Prop := ∀ ts, sorted_from t ts → answers_at b ts = answers_at b' ts.

(** A bucket of a limiter, last asked at an instant. A limiter whose rate is not
    positive lets everything pass and has no buckets. *)
Inductive asked (r : float64) (n : Z) : time → B → Prop :=
  | asked_first t : f_le r f_zero = false → asked r n t (Bucket_Allow (NewLimiter r n) t).2
  | asked_again t t' b : asked r n t b → t <= t' → asked r n t' (Bucket_Allow b t').2.
End bucket.

(** The documentation of [rate.Limiter]: a bucket is full at first and refilled at its
    rate, up to its size; so one with a positive rate that nobody asks is as good as new
    after a time. *)
Class TokenBucketLaws (B : Type) `{!TokenBucket B} := {
  refill_time : float64 → Z → Z;
  refilled : ∀ r n t t' (b : B), asked r n t b → t + refill_time r n <= t' →
    alike t' b (NewLimiter r n) }.

(** ** The limiter with its sweepers *)

(** A goroutine in the loop of [StartSweeper]: its ticker and when it next ticks. *)
Record sweeper := { sw_interval : Z; sw_next : time }.

Record limiter_sys (B : Type) := {
  ls_limiter : Limiter B; ls_sweepers : list (option sweeper); ls_stopped : bool }.
Arguments ls_limiter {B} _.
Arguments ls_sweepers {B} _.
Arguments ls_stopped {B} _.
Arguments Build_limiter_sys {B} _ _ _.

Inductive sys_event :=
  | VAllow (identity : string) (now now' : time)
  | VStart (interval : Z) (now : time)
  | VStop
  | VTick (g : nat) (now now' : time)
  | VExit (g : nat).

Section system.
Context {B : Type} `{!TokenBucket B}.
Implicit Types (s : limiter_sys B) (l : Limiter B).

Definition with_limiter l s : limiter_sys B :=
  {| ls_limiter := l; ls_sweepers := ls_sweepers s; ls_stopped := ls_stopped s |}.

Definition with_sweepers sws s : limiter_sys B :=
  {| ls_limiter := ls_limiter s; ls_sweepers := sws; ls_stopped := ls_stopped s |}.

(** [time.NewTicker] panics, in the new goroutine, unless the interval is positive. *)
Definition StartSweeper (interval : Z) (now : time) : M (limiter_sys B) unit := λ s,
  if interval <=? 0 then (Panic "non-positive interval for NewTicker", s)
  else (Ok tt, with_sweepers (ls_sweepers s ++ [Some {| sw_interval := interval; sw_next := now + interval |}]) s).

(** [close(l.stopSweep)]. *)
Definition Stop : M (limiter_sys B) unit := λ s,
  if ls_stopped s then (Panic "close of closed channel", s)
  else (Ok tt, {| ls_limiter := ls_limiter s; ls_sweepers := ls_sweepers s; ls_stopped := true |}).

(** The loop takes a tick that is due at [now]: ticks that were due since then are
    dropped. The sweep reads the clock itself. *)
Definition sweeper_tick (g : nat) (now now' : time) s : option (limiter_sys B) :=
  match ls_sweepers s !! g with
  | Some (Some sw) =>
      if sw_next sw <=? now then
        let next := now + sw_interval sw - (now - sw_next sw) `mod` sw_interval sw in
        Some {| ls_limiter := (Limiter_Sweep now' (ls_limiter s)).2;
                ls_sweepers := <[g := Some {| sw_interval := sw_interval sw; sw_next := next |}]> (ls_sweepers s);
                ls_stopped := ls_stopped s |}
      else None
  | _ => None
  end.

(** The loop takes the closed channel; when a tick is due too it may take either. *)
Definition sweeper_exit (g : nat) s : option (limiter_sys B) :=
  match ls_sweepers s !! g with
  | Some (Some _) => if ls_stopped s then Some (with_sweepers (<[g := None]> (ls_sweepers s)) s) else None
  | _ => None
  end.

(** A panic ends the program. *)
Definition sys_fire (e : sys_event) s : option (list (string * bool) * limiter_sys B) :=
  match e with
  | VAllow i now now' =>
      let '(ok, l') := Limiter_Allow i now now' (ls_limiter s) in Some ([(i, ok)], with_limiter l' s)
  | VStart interval now =>
      match StartSweeper interval now s with (Ok _, s') => Some ([], s') | _ => None end
  | VStop => match Stop s with (Ok _, s') => Some ([], s') | _ => None end
  | VTick g now now' => pair [] <$> sweeper_tick g now now' s
  | VExit g => pair [] <$> sweeper_exit g s
  end.

Fixpoint sys_run (es : list sys_event) s : option (list (string * bool) * limiter_sys B) :=
  match es with
  | [] => Some ([], s)
  | e :: es' => '(oks, s1) ← sys_fire e s; '(oks', s2) ← sys_run es' s1; Some (oks ++ oks', s2)
  end.

(** The calls of the limiter in a run, with or without the sweeps. *)
Definition ops_of (es : list sys_event) : list limiter_op :=
  omap (λ e, match e with
             | VAllow i now now' => Some (LAllow i now now')
             | VTick _ _ now' => Some (LSweep now')
             | _ => None
             end) es.

Definition is_allow (o : limiter_op) : bool := match o with LAllow _ _ _ => true | LSweep _ => false end.

Definition allows_of (ops : list limiter_op) : list limiter_op := filter (λ o, is_allow o = true) ops.

(** The readings of a run do not go back, and the bucket's reading of a call is at
    most [gap] after the limiter's. *)
Fixpoint ops_clock (gap : Z) (t : time) (ops : list limiter_op) : Prop :=
  match ops with
  | [] => True
  | LAllow _ now now' :: ops' => t <= now <= now' ∧ now' <= now + gap ∧ ops_clock gap now' ops'
  | LSweep now :: ops' => t <= now ∧ ops_clock gap now ops'
  end.
End system.


(** ** Facts *)

Section facts.
Context {B : Type} `{!TokenBucket B, !TokenBucketLaws B}.
Implicit Types (s : limiter_sys B) (l : Limiter B) (b : B).

Lemma alike_refl t b : alike t b b.
Proof. done. Qed.

Lemma alike_sym t b b' : alike t b b' → alike t b' b.
Proof. intros H ts Hts. symmetry. by apply H. Qed.

Lemma alike_trans t b1 b2 b3 : alike t b1 b2 → alike t b2 b3 → alike t b1 b3.
Proof. intros H1 H2 ts Hts. by rewrite H1, H2. Qed.

Lemma sorted_later t t' ts : t <= t' → sorted_from t' ts → sorted_from t ts.
Proof. destruct ts; simpl; [done|]. intros Ht [? ?]. split; [lia|done]. Qed.

Lemma alike_later t t' b b' : t <= t' → alike t b b' → alike t' b b'.
Proof. intros Ht H ts Hts. by eapply H, sorted_later. Qed.

Lemma alike_Allow t t' b b' :
  alike t b b' → t <= t' →
  (Bucket_Allow b t').1 = (Bucket_Allow b' t').1 ∧ alike t' (Bucket_Allow b t').2 (Bucket_Allow b' t').2.
Proof.
  intros H Ht. split.
  - specialize (H [t'] (conj Ht I)). simpl in H.
    destruct (Bucket_Allow b t'), (Bucket_Allow b' t'). by injection H.
  - intros ts Hts. specialize (H (t' :: ts) (conj Ht Hts)). simpl in H.
    destruct (Bucket_Allow b t'), (Bucket_Allow b' t'). by injection H.
Qed.

(** With sweeps ([l]) and without ([l']): what one bucket may be beside the other. *)
Definition beside (gap : Z) (r : float64) (n : Z) (t : time) (ob ob' : option (bucket B)) : Prop :=
  match ob, ob' with
  | Some b, Some b' =>
      alike t (bk_l b) (bk_l b') ∧ ∃ u, asked r n u (bk_l b) ∧ u <= lastSeen b + gap ∧ u <= t
  | None, Some b' => alike t (NewLimiter r n) (bk_l b')
  | None, None => True
  | Some _, None => False
  end.

Definition beside_all (gap : Z) (t : time) l l' : Prop :=
  rps l = rps l' ∧ burst l = burst l' ∧ idleTTL l = idleTTL l' ∧
  ∀ i, beside gap (rps l) (burst l) t (buckets l !! i) (buckets l' !! i).

Lemma beside_later gap r n t t' ob ob' : t <= t' → beside gap r n t ob ob' → beside gap r n t' ob ob'.
Proof.
  intros Ht. destruct ob as [b|], ob' as [b'|]; simpl; [|done|by eapply alike_later|done].
  intros (Ha & u & Hu & Hl & Hut). split; [by eapply alike_later|]. exists u. split_and!; [done..|lia].
Qed.

Lemma beside_Allow gap t l l' i now now' :
  beside_all gap t l l' → t <= now <= now' → now' <= now + gap →
  (Limiter_Allow i now now' l).1 = (Limiter_Allow i now now' l').1 ∧
  beside_all gap now' (Limiter_Allow i now now' l).2 (Limiter_Allow i now now' l').2.
Proof.
  intros (Hr & Hn & Hi & Hb) Ht Hg. unfold Limiter_Allow, unlimited. rewrite <- Hr, <- Hn, <- Hi.
  destruct (f_le (rps l) f_zero) eqn:Hrps.
  { split; [done|]. split_and!; try done. intros j. apply (beside_later _ _ _ t); [lia|done]. }
  set (b := default _ (bk_l <$> buckets l !! i)). set (b' := default _ (bk_l <$> buckets l' !! i)).
  assert (alike t b b' ∧ asked (rps l) (burst l) now' (Bucket_Allow b now').2) as [Ha Hasked].
  { subst b b'. specialize (Hb i).
    destruct (buckets l !! i) as [x|], (buckets l' !! i) as [x'|]; cbn in Hb |- *; [|done| |].
    - destruct Hb as (Ha & u & Hu & _ & Hut). split; [done|]. eapply asked_again; [done|lia].
    - split; [done|by apply asked_first].
    - split; [apply alike_refl|by apply asked_first]. }
  destruct (alike_Allow t now' b b' Ha) as [Hok Ha']; [lia|].
  destruct (Bucket_Allow b now') as [ok b1], (Bucket_Allow b' now') as [ok' b1']. cbn [fst snd] in *.
  split; [done|]. split_and!; try done. cbn [buckets rps burst]. intros j.
  destruct (decide (i = j)) as [<-|Hne].
  - rewrite !lookup_insert_eq. cbn. split; [done|]. exists now'. split; [done|]. lia.
  - rewrite !lookup_insert_ne by done. apply (beside_later _ _ _ t); [lia|done].
Qed.

Lemma beside_Sweep gap t l l' now :
  refill_time (rps l) (burst l) + gap <= idleTTL l →
  beside_all gap t l l' → t <= now → beside_all gap now (Limiter_Sweep now l).2 l'.
Proof.
  intros Hidle (Hr & Hn & Hi & Hb) Ht. split_and!; try done. intros i. rewrite Sweep_lookup.
  cbn [Limiter_Sweep snd rps burst]. specialize (Hb i).
  apply (beside_later _ _ _ t now) in Hb; [|done].
  destruct (buckets l !! i) as [x|]; cbn [mbind option_bind]; [|done].
  destruct (Z.ltb_spec (lastSeen x) (now - idleTTL l)); [|done].
  destruct (buckets l' !! i) as [x'|]; [|done]. destruct Hb as (Ha & u & Hu & Hl & _).
  apply (alike_trans _ _ (bk_l x)); [|done]. apply alike_sym. apply (refilled _ _ u); [done|lia].
Qed.

Lemma limiter_run_beside gap ops t l l' :
  refill_time (rps l) (burst l) + gap <= idleTTL l → ops_clock gap t ops → beside_all gap t l l' →
  (limiter_run ops l).1 = (limiter_run (allows_of ops) l').1.
Proof.
  revert t l l'. induction ops as [|[i now now'|now] ops IH]; intros t l l' Hidle Hc Hb; [done|..];
    cbn [ops_clock] in Hc; unfold allows_of.
  - rewrite filter_cons_True by done. fold (allows_of ops). cbn [limiter_run].
    destruct Hc as (Ht & Hg & Hc). destruct (beside_Allow gap t l l' i now now' Hb Ht Hg) as [Hok Hb'].
    assert (rps (Limiter_Allow i now now' l).2 = rps l ∧ burst (Limiter_Allow i now now' l).2 = burst l ∧
      idleTTL (Limiter_Allow i now now' l).2 = idleTTL l) as (E1 & E2 & E3).
    { unfold Limiter_Allow. destruct (unlimited l); [done|]. by destruct (Bucket_Allow _ _). }
    destruct (Limiter_Allow i now now' l) as [ok l1], (Limiter_Allow i now now' l') as [ok' l1'].
    cbn [fst snd] in *. subst ok'.
    specialize (IH now' l1 l1'). rewrite E1, E2, E3 in IH. specialize (IH Hidle Hc Hb').
    destruct (limiter_run ops l1), (limiter_run (allows_of ops) l1'). cbn [fst] in *. by rewrite IH.
  - rewrite filter_cons_False by done. fold (allows_of ops). cbn [limiter_run].
    destruct Hc as [Ht Hc]. apply (IH now); [done|done|]. by eapply beside_Sweep.
Qed.

Lemma sys_run_limiter es s oks s' :
  sys_run es s = Some (oks, s') → limiter_run (ops_of es) (ls_limiter s) = (oks, ls_limiter s').
Proof.
  revert s oks. induction es as [|e es IH]; intros s oks; [by intros [= <- <-]|].
  cbn [sys_run]. intros ([oks1 s1] & Hf & ([oks2 s2] & Hrun & [= <- <-])%bind_Some)%bind_Some.
  apply IH in Hrun. unfold ops_of in *. destruct e as [i now now'|interval now| |g now now'|g];
    cbn [sys_fire omap list_omap] in *.
  - cbn [limiter_run]. destruct (Limiter_Allow i now now' (ls_limiter s)) as [ok l'].
    injection Hf as <- <-. cbn [ls_limiter with_limiter] in Hrun. by rewrite Hrun.
  - unfold StartSweeper in Hf. destruct (interval <=? 0); [done|]. by injection Hf as <- <-.
  - unfold Stop in Hf. destruct (ls_stopped s); [done|]. by injection Hf as <- <-.
  - cbn [limiter_run]. apply fmap_Some in Hf as (s0 & Hf & [= -> ->]). unfold sweeper_tick in Hf.
    destruct (ls_sweepers s !! g) as [[sw|]|]; [|done..]. case_match; [|done]. by injection Hf as <-.
  - apply fmap_Some in Hf as (s0 & Hf & [= -> ->]). unfold sweeper_exit in Hf.
    destruct (ls_sweepers s !! g) as [[sw|]|]; [|done..]. destruct (ls_stopped s); [|done]. by injection Hf as <-.
Qed.

(** C31. Sweeping is invisible. However many sweepers are started and stopped, at
    whatever intervals and moments they sweep: as long as the idle time is long
    enough to fill a bucket, every identity is allowed exactly what it would be
    allowed by a limiter that drops nothing; and after a sweep the limiter only
    holds buckets that were used within the idle time. *)
Theorem sweepers_invisible (es : list sys_event) (l : Limiter B) (gap : Z) (t : time)
    (oks : list (string * bool)) (s : limiter_sys B)
    (Hnew : buckets l = ∅)
    (Hrun : sys_run es {| ls_limiter := l; ls_sweepers := []; ls_stopped := false |} = Some (oks, s))
    (Hclock : ops_clock gap t (ops_of es))
    (Hidle : refill_time (rps l) (burst l) + gap <= idleTTL l) :
  oks = (limiter_run (allows_of (ops_of es)) l).1 ∧
  ∀ g now now' s', sweeper_tick g now now' s = Some s' →
    map_Forall (λ _ (b : bucket B), now' - idleTTL (ls_limiter s) <= lastSeen b) (buckets (ls_limiter s')).
Proof.
  split.
  - apply sys_run_limiter in Hrun. cbn [ls_limiter] in Hrun.
    rewrite <- (limiter_run_beside gap (ops_of es) t l l) by (done || split_and!; try done;
      intros i; by rewrite Hnew, lookup_empty).
    by rewrite Hrun.
  - intros g now now' s' Ht i b Hb. unfold sweeper_tick in Ht.
    destruct (ls_sweepers s !! g) as [[sw|]|]; [|done..]. case_match; [|done].
    apply (f_equal (λ x, ls_limiter <$> x)) in Ht. cbn [fmap option_fmap option_map ls_limiter] in Ht.
    assert (ls_limiter s' = (Limiter_Sweep now' (ls_limiter s)).2) as E by congruence.
    rewrite E, Sweep_lookup in Hb.
    apply bind_Some in Hb as (b0 & _ & Hb). destruct (Z.ltb_spec (lastSeen b0) (now' - idleTTL (ls_limiter s))); [done|].
    by injection Hb as ->.
Qed.
End facts.

(** ** A reference bucket, and runs *)

(** One token per second: the size, and the instant from which the bucket is full. *)
Definition second_deficit (full : option time) (t : time) : Z :=
  match full with None => 0 | Some f => Z.max 0 (f - t) end.

Definition second_bucket : TokenBucket (Z * option time) := {|
  NewLimiter _ n := (n, None);
  Bucket_Allow b t :=
    let d := second_deficit b.2 t in
    if d + Second <=? b.1 * Second then (true, (b.1, Some (t + d + Second))) else (false, b) |}.

Section reference.
#[local] Existing Instance second_bucket.

Lemma second_alike n full full' t :
  (∀ t', t <= t' → second_deficit full t' = second_deficit full' t') → alike t (n, full) (n, full').
Proof.
  intros Hd ts. revert t full full' Hd. induction ts as [|t' ts IH]; intros t full full' Hd; [done|].
  intros [Ht Hts]. cbn [answers_at Bucket_Allow second_bucket fst snd]. rewrite (Hd t' Ht).
  destruct (_ <=? _); f_equal; apply (IH t'); try done. intros t'' Ht'. apply Hd. lia.
Qed.

Lemma second_asked r n t b :
  asked r n t b → b.1 = n ∧ second_deficit b.2 t <= Z.max 0 (n * Second).
Proof.
  assert (0 < Second) as Hs by (by vm_compute).
  assert (∀ b t0 t', b.1 = n → second_deficit b.2 t0 <= Z.max 0 (n * Second) → t0 <= t' →
    (Bucket_Allow b t').2.1 = n ∧ second_deficit (Bucket_Allow b t').2.2 t' <= Z.max 0 (n * Second)) as Hstep.
  { intros b' t0 t' Hn Hd Ht. cbn [Bucket_Allow second_bucket].
    assert (second_deficit b'.2 t' <= second_deficit b'.2 t0) by (destruct b'.2; simpl; lia).
    assert (0 <= second_deficit b'.2 t') by (destruct b'.2; simpl; lia).
    rewrite Hn. destruct (Z.leb_spec (second_deficit b'.2 t' + Second) (n * Second)); cbn [fst snd second_deficit];
      split; lia. }
  induction 1 as [t|t t' b Hb [IH1 IH2] Ht].
  - apply (Hstep (n, None) t); [done|cbn; lia|lia].
  - by apply (Hstep b t).
Qed.

#[export, program] Instance second_bucket_laws : TokenBucketLaws (Z * option time) :=
  {| refill_time _ n := Z.max 0 (n * Second) |}.
Next Obligation.
  intros r n t t' b Hb Ht. apply second_asked in Hb as [Hn Hd]. destruct b as [m full]. simpl in *. subst m.
  apply second_alike. intros t'' Ht''. destruct full as [f|]; simpl in *; [lia|done].
Qed.

(** Two tokens; a sweeper every minute and an idle time of ten. *)
Definition demo_sys_events : list sys_event :=
  [VStart Minute 0; VAllow "p" 1 1; VAllow "p" 2 2; VAllow "p" 3 3; VTick 0 Minute Minute;
   VAllow "p" (2 * Minute) (2 * Minute); VTick 0 (13 * Minute) (13 * Minute); VStop;
   VAllow "p" (14 * Minute) (14 * Minute); VExit 0].

Definition demo_limiter : Limiter (Z * option time) := Limiter_New (f_of_Z 1) 2 [].

Definition demo_sys : list (string * bool) * limiter_sys (Z * option time) :=
  default ([], {| ls_limiter := demo_limiter; ls_sweepers := []; ls_stopped := false |})
    (sys_run demo_sys_events {| ls_limiter := demo_limiter; ls_sweepers := []; ls_stopped := false |}).

Lemma sweepers_invisible_witness :
  demo_sys.1.*2 = [true; true; false; true; true] ∧
  demo_sys.1 = (limiter_run (allows_of (ops_of demo_sys_events)) demo_limiter).1.
Proof.
  split; [vm_compute; reflexivity|].
  assert (Hrun : sys_run demo_sys_events {| ls_limiter := demo_limiter; ls_sweepers := []; ls_stopped := false |}
    = Some (demo_sys.1, demo_sys.2)) by (vm_compute; reflexivity).
  exact (proj1 (sweepers_invisible demo_sys_events demo_limiter 0 0 demo_sys.1 demo_sys.2 eq_refl Hrun
    ltac:(vm_compute; repeat split; discriminate) ltac:(vm_compute; discriminate))).
Defined.

(** With a size that takes longer to fill than the idle time, a sweep hands out
    tokens early: of 1200 tokens all are spent, and after eleven minutes, when 660
    are due, a swept bucket has 1200. *)
Definition spender (t : time) (n : nat) : list limiter_op := replicate n (LAllow "p" t t).

Definition allowed_by (ops : list limiter_op) (l : Limiter (Z * option time)) : nat :=
  count (λ x, x.2 = true) (limiter_run ops l).1.

Example early_tokens :
  let l := Limiter_New (f_of_Z 1) 1200 [] in
  allowed_by (spender 0 1200 ++ LSweep (11 * Minute) :: spender (11 * Minute) 1200) l = 2400%nat ∧
  allowed_by (spender 0 1200 ++ spender (11 * Minute) 1200) l = 1860%nat.
Proof. vm_compute. done. Qed.

(** A second [Stop] panics, and so does an interval that is not positive. *)
Example sweeper_panics :
  (Stop (Stop {| ls_limiter := demo_limiter; ls_sweepers := []; ls_stopped := false |}).2).1 =
    Panic "close of closed channel" ∧
  (StartSweeper 0 5 {| ls_limiter := demo_limiter; ls_sweepers := []; ls_stopped := false |}).1 =
    Panic "non-positive interval for NewTicker".
Proof. done. Qed.
End reference.
