(* ===== verification/Config.v ===== *)
(** * Configuration

    Models [internal/config/config.go]: the settings the server reads from its
    environment at start, their defaults and their validation. The environment
    is a function from names to texts, empty for a variable that is not set, as
    [os.Getenv] presents it. *)

From S2P Require Import GoLang Float Strconv Auth RateLimit.
From stdpp Require Import pretty.
#[local] Open Scope Z_scope.

(** The texts [fmt] gives to a quoted string and to the shortest form of a float; no
    theorem looks into them. *)
Class GoFmt := {
  fmt_q : string → string;
  fmt_float : float64 → string }.

Record Config := {
  Listen : string;
  LogLevel : string;
  ShutdownTimeout : Z;
  RequestTimeout : Z;
  MySQLDSN : string;
  RedisAddr : string;
  AuthSecret : string;
  AuthTokenTTL : Z;
  RateLimitRPS : float64;
  RateLimitBurst : Z;
  IdempotencyTTL : Z;
  BattleImpl : string }.

(** ** Reading variables *)

Section reading.
Variable Getenv : string → string.

Definition getEnv (key def : string) : string :=
  let v := Getenv key in
  if bool_decide (v = "") then def else v.

(** Whole seconds, or Go's notation. The product is one of [int64]. *)
Definition getDurationEnv (key : string) (def : Z) : Z :=
  let raw := Getenv key in
  if bool_decide (raw = "") then def
  else
    match Atoi raw with
    | Some n => int64_wrap (n * Second)
    | None =>
        match ParseDuration raw with
        | Some d => d
        | None => def
        end
    end.

Definition getIntEnv (key : string) (def : Z) : Z :=
  let raw := Getenv key in
  if bool_decide (raw = "") then def
  else
    match Atoi raw with
    | Some n => n
    | None => def
    end.

Definition getFloatEnv (key : string) (def : float64) : float64 :=
  let raw := Getenv key in
  if bool_decide (raw = "") then def
  else
    match ParseFloat raw with
    | Some f => f
    | None => def
    end.
End reading.

(** ** Validation *)

Definition config_error (key : string) (msg : string) : error :=
  ErrorsNew ("config.validate." +:+ key) msg.

Section loading.
Context `{!GoFmt}.

Definition validate (c : Config) : result unit :=
  if negb (bool_decide (LogLevel c ∈ ["debug"; "info"; "warn"; "error"])) then
    Err (config_error "LOG_LEVEL" ("invalid LOG_LEVEL " +:+ fmt_q (LogLevel c) +:+ " (want debug|info|warn|error)"))
  else if ShutdownTimeout c <=? 0 then
    Err (config_error "SHUTDOWN_TIMEOUT" ("SHUTDOWN_TIMEOUT must be > 0, got " +:+ Duration_String (ShutdownTimeout c)))
  else if RequestTimeout c <=? 0 then
    Err (config_error "REQUEST_TIMEOUT" ("REQUEST_TIMEOUT must be > 0, got " +:+ Duration_String (RequestTimeout c)))
  else if AuthTokenTTL c <=? 0 then
    Err (config_error "AUTH_TOKEN_TTL" ("AUTH_TOKEN_TTL must be > 0, got " +:+ Duration_String (AuthTokenTTL c)))
  else if f_lt (RateLimitRPS c) f_zero then
    Err (config_error "RATE_LIMIT_RPS" ("RATE_LIMIT_RPS must be >= 0, got " +:+ fmt_float (RateLimitRPS c)))
  else if RateLimitBurst c <=? 0 then
    Err (config_error "RATE_LIMIT_BURST" ("RATE_LIMIT_BURST must be > 0, got " +:+ pretty (RateLimitBurst c)))
  else if IdempotencyTTL c <=? 0 then
    Err (config_error "IDEMPOTENCY_TTL" ("IDEMPOTENCY_TTL must be > 0, got " +:+ Duration_String (IdempotencyTTL c)))
  else Ok tt.

(** ** Loading *)

(** What [Load] reads, before it validates. *)
Definition load_env (Getenv : string → string) : Config := {|
  Listen := getEnv Getenv "LISTEN_ADDR" ":5050";
  LogLevel := getEnv Getenv "LOG_LEVEL" "info";
  ShutdownTimeout := getDurationEnv Getenv "SHUTDOWN_TIMEOUT" (15 * Second);
  RequestTimeout := getDurationEnv Getenv "REQUEST_TIMEOUT" (30 * Second);
  MySQLDSN := Getenv "MYSQL_DSN";
  RedisAddr := Getenv "REDIS_ADDR";
  AuthSecret := Getenv "AUTH_SECRET";
  AuthTokenTTL := getDurationEnv Getenv "AUTH_TOKEN_TTL" (15 * Minute);
  RateLimitRPS := getFloatEnv Getenv "RATE_LIMIT_RPS" (f_of_Z 10);
  RateLimitBurst := getIntEnv Getenv "RATE_LIMIT_BURST" 20;
  IdempotencyTTL := getDurationEnv Getenv "IDEMPOTENCY_TTL" (5 * Minute);
  BattleImpl := getEnv Getenv "BATTLE_IMPL" "naive" |}.

Definition Load (Getenv : string → string) : result Config :=
  let cfg := load_env Getenv in
  match validate cfg with
  | Ok _ => Ok cfg
  | Err e => Err e
  | Panic w => Panic w
  end.
End loading.

(** ** Well-formed settings *)

(** What [validate] asks, as one predicate. *)
Definition valid (c : Config) : Prop :=
  LogLevel c ∈ ["debug"; "info"; "warn"; "error"] ∧
  0 < ShutdownTimeout c ∧ 0 < RequestTimeout c ∧ 0 < AuthTokenTTL c ∧
  f_lt (RateLimitRPS c) f_zero = false ∧ 0 < RateLimitBurst c ∧ 0 < IdempotencyTTL c.

#[export] Instance valid_dec c : Decision (valid c).
Proof. unfold valid. apply _. Defined.

Section properties.
Context `{!GoFmt}.

Lemma validate_spec c : if decide (valid c) then validate c = Ok tt else ∃ e, validate c = Err e.
Proof.
  unfold validate. case_decide as Hv.
  - destruct Hv as (H1 & H2 & H3 & H4 & H5 & H6 & H7).
    rewrite bool_decide_eq_true_2, H5 by done. cbn [negb].
    by rewrite !(proj2 (Z.leb_gt _ _)).
  - unfold valid in Hv.
    repeat (case_match; [by eexists|]). exfalso. apply Hv.
    rewrite negb_false_iff, bool_decide_eq_true in *. split_and!; try done; lia.
Qed.

Lemma getDurationEnv_range Getenv key def :
  in_int64 def → in_int64 (getDurationEnv Getenv key def).
Proof.
  intros Hdef. unfold getDurationEnv. case_bool_decide; [done|].
  destruct (Atoi _); [apply int64_wrap_range|].
  destruct (ParseDuration _) eqn:E; [by eapply ParseDuration_range|done].
Qed.

Lemma getIntEnv_range Getenv key def : in_int64 def → in_int64 (getIntEnv Getenv key def).
Proof.
  intros Hdef. unfold getIntEnv. case_bool_decide; [done|].
  destruct (Atoi _) eqn:E; [by eapply Atoi_range|done].
Qed.

Lemma Load_inv Getenv cfg : Load Getenv = Ok cfg → cfg = load_env Getenv ∧ valid cfg.
Proof.
  unfold Load. pose proof (validate_spec (load_env Getenv)) as Hv.
  case_decide; [rewrite Hv|destruct Hv as [e ->]]; [|done]. by intros [= <-].
Qed.

(** A variable whose text is no value of its kind counts as one that is not
    set. *)
Definition no_duration (raw : string) : Prop :=
  raw = "" ∨ (Atoi raw = None ∧ ParseDuration raw = None).

Lemma getDurationEnv_default Getenv key def :
  no_duration (Getenv key) → getDurationEnv Getenv key def = def.
Proof.
  unfold getDurationEnv. intros [->|[-> ->]]; [done|]. by case_bool_decide.
Qed.

Lemma getIntEnv_default Getenv key def :
  Getenv key = "" ∨ Atoi (Getenv key) = None → getIntEnv Getenv key def = def.
Proof. unfold getIntEnv. intros [->| ->]; [done|]. by case_bool_decide. Qed.

Lemma getFloatEnv_default Getenv key def :
  Getenv key = "" ∨ ParseFloat (Getenv key) = None → getFloatEnv Getenv key def = def.
Proof. unfold getFloatEnv. intros [->| ->]; [done|]. by case_bool_decide. Qed.

Lemma getEnv_nonempty Getenv key def : def ≠ "" → getEnv Getenv key def ≠ "".
Proof. unfold getEnv. by case_bool_decide. Qed.

(** What a loaded configuration guarantees to the parts built from it.
    Every duration is positive and within [int64], so is the burst size; the log
    level is one of the four, the rate is not below zero, the address and the
    battle implementation are not empty. The parts then are built without an
    error: [buildAuth] gives an issuer and a validator exactly when there is a
    secret, and the limiter keeps the rate and the burst size as configured. *)
Theorem Load_bounds (Getenv : string → string) (cfg : Config) (Hload : Load Getenv = Ok cfg) :
  Forall (λ d, 0 < d < int64_half)
    [ShutdownTimeout cfg; RequestTimeout cfg; AuthTokenTTL cfg; IdempotencyTTL cfg; RateLimitBurst cfg] ∧
  LogLevel cfg ∈ ["debug"; "info"; "warn"; "error"] ∧
  f_lt (RateLimitRPS cfg) f_zero = false ∧
  Listen cfg ≠ "" ∧ BattleImpl cfg ≠ "" ∧
  buildAuth (AuthSecret cfg) (AuthTokenTTL cfg) =
    Ok (if bool_decide (AuthSecret cfg = "") then (None, None)
        else (Some {| is_secret := AuthSecret cfg; is_ttl := AuthTokenTTL cfg; is_issuer := "stagesync" |},
              Some {| va_secret := AuthSecret cfg; va_issuer := "stagesync" |})) ∧
  (∀ B, rps (Limiter_New (B:=B) (RateLimitRPS cfg) (RateLimitBurst cfg) []) = RateLimitRPS cfg ∧
        burst (Limiter_New (B:=B) (RateLimitRPS cfg) (RateLimitBurst cfg) []) = RateLimitBurst cfg).
Proof.
  apply Load_inv in Hload as [Hcfg (Hlevel & H1 & H2 & H3 & H4 & H5 & H6)].
  assert (∀ key def, in_int64 def → getDurationEnv Getenv key def < int64_half) as Hd.
  { intros key def Hdef. apply (getDurationEnv_range Getenv key def Hdef). }
  assert (getIntEnv Getenv "RATE_LIMIT_BURST" 20 < int64_half) as Hi.
  { apply getIntEnv_range. by vm_compute. }
  split_and!; try done.
  - subst cfg. repeat constructor; try done; try apply Hd; by vm_compute.
  - subst cfg. by apply getEnv_nonempty.
  - subst cfg. by apply getEnv_nonempty.
  - unfold buildAuth, NewIssuer, NewValidator. case_bool_decide; [done|].
    by rewrite (proj2 (Z.leb_gt _ _)) by done.
  - intros B. unfold Limiter_New. by rewrite (proj2 (Z.leb_gt _ _)) by done.
Qed.

(** Malformed numbers and durations never stop the server: with a log level
    that is unset or one of the four, [Load] succeeds whenever every other
    variable that is read as a value is unset or is no text of its kind, and each
    of them then has its default. *)
Theorem Load_malformed (Getenv : string → string)
    (Hlevel : Getenv "LOG_LEVEL" ∈ [""; "debug"; "info"; "warn"; "error"])
    (Hdur : Forall (λ key, no_duration (Getenv key))
              ["SHUTDOWN_TIMEOUT"; "REQUEST_TIMEOUT"; "AUTH_TOKEN_TTL"; "IDEMPOTENCY_TTL"])
    (Hrps : Getenv "RATE_LIMIT_RPS" = "" ∨ ParseFloat (Getenv "RATE_LIMIT_RPS") = None)
    (Hburst : Getenv "RATE_LIMIT_BURST" = "" ∨ Atoi (Getenv "RATE_LIMIT_BURST") = None) :
  Load Getenv = Ok {|
    Listen := getEnv Getenv "LISTEN_ADDR" ":5050"; LogLevel := getEnv Getenv "LOG_LEVEL" "info";
    ShutdownTimeout := 15 * Second; RequestTimeout := 30 * Second;
    MySQLDSN := Getenv "MYSQL_DSN"; RedisAddr := Getenv "REDIS_ADDR";
    AuthSecret := Getenv "AUTH_SECRET"; AuthTokenTTL := 15 * Minute;
    RateLimitRPS := f_of_Z 10; RateLimitBurst := 20; IdempotencyTTL := 5 * Minute;
    BattleImpl := getEnv Getenv "BATTLE_IMPL" "naive" |}.
Proof.
  rewrite !Forall_cons in Hdur. destruct Hdur as (H1 & H2 & H3 & H4 & _).
  pose proof (validate_spec (load_env Getenv)) as Hv. unfold Load.
  assert (load_env Getenv = {|
    Listen := getEnv Getenv "LISTEN_ADDR" ":5050"; LogLevel := getEnv Getenv "LOG_LEVEL" "info";
    ShutdownTimeout := 15 * Second; RequestTimeout := 30 * Second;
    MySQLDSN := Getenv "MYSQL_DSN"; RedisAddr := Getenv "REDIS_ADDR";
    AuthSecret := Getenv "AUTH_SECRET"; AuthTokenTTL := 15 * Minute;
    RateLimitRPS := f_of_Z 10; RateLimitBurst := 20; IdempotencyTTL := 5 * Minute;
    BattleImpl := getEnv Getenv "BATTLE_IMPL" "naive" |}) as Henv.
  { unfold load_env.
    by rewrite !getDurationEnv_default, getIntEnv_default, getFloatEnv_default. }
  rewrite decide_True in Hv; [by rewrite Hv, Henv|].
  rewrite Henv. split_and!; try by vm_compute. simpl. unfold getEnv.
  case_bool_decide as Hempty; [set_solver|].
  apply elem_of_cons in Hlevel as [?|?]; [done|done].
Qed.

(** Durations in the environment read as they are meant: a number [n] as [n]
    seconds, a number before one of Go's units as that many units, as long as the
    duration fits [int64] nanoseconds. *)
Theorem getDurationEnv_roundtrip (Getenv : string → string) (key : string) (def n : Z) (Hn : 0 <= n) :
  (Getenv key = pretty n → n * Second < int64_half → getDurationEnv Getenv key def = n * Second) ∧
  (∀ u unit, Getenv key = pretty n +:+ u → unitMap u = Some unit → n * unit < int64_half →
     getDurationEnv Getenv key def = n * unit).
Proof.
  unfold getDurationEnv. destruct (pretty_shape n Hn) as (c & s & E & _).
  assert (∀ u, pretty n +:+ u ≠ "") as Hne by (intros u; by rewrite E).
  split.
  - intros -> Hmax. rewrite bool_decide_eq_false_2 by (by rewrite E).
    rewrite Atoi_pretty by (unfold Second in *; lia).
    apply int64_wrap_small. unfold Second in *. int_range.
  - intros u unit -> Hu Hmax. rewrite bool_decide_eq_false_2 by done.
    by rewrite (Atoi_unit n u unit), (ParseDuration_unit n u unit).
Qed.
End properties.

(** ** Concrete environments *)

(** An environment from its settings. *)
Definition env_of (vars : list (string * string)) (key : string) : string :=
  default "" ((list_to_map vars : gmap string string) !! key).

#[local] Instance no_fmt : GoFmt :=
  {| fmt_q s := s; fmt_float _ := "_" |}.

Definition env1 : string → string :=
  env_of [("AUTH_SECRET", "k"); ("AUTH_TOKEN_TTL", "90"); ("RATE_LIMIT_RPS", "2.5"); ("LOG_LEVEL", "debug")].

Lemma Load_bounds_witness : ∃ cfg, Load env1 = Ok cfg ∧ 0 < AuthTokenTTL cfg < int64_half.
Proof.
  eexists. split; [by vm_compute|].
  pose proof (Load_bounds env1 _ eq_refl) as [Hd _].
  rewrite !Forall_cons in Hd. apply Hd.
Defined.

Lemma Load_malformed_witness :
  is_Ok (Load (env_of [("SHUTDOWN_TIMEOUT", "soon"); ("RATE_LIMIT_BURST", "1e3"); ("RATE_LIMIT_RPS", "ten")])) = true.
Proof.
  rewrite (Load_malformed
    (env_of [("SHUTDOWN_TIMEOUT", "soon"); ("RATE_LIMIT_BURST", "1e3"); ("RATE_LIMIT_RPS", "ten")]));
    [reflexivity|..].
  - apply list_elem_of_here.
  - repeat constructor; (by left) || (right; by vm_compute).
  - right. by vm_compute.
  - right. by vm_compute.
Defined.

Lemma getDurationEnv_roundtrip_witness :
  getDurationEnv (env_of [("REQUEST_TIMEOUT", "90")]) "REQUEST_TIMEOUT" 1 = 90 * Second ∧
  getDurationEnv (env_of [("REQUEST_TIMEOUT", "500ms")]) "REQUEST_TIMEOUT" 1 = 500 * 1000000.
Proof.
  split.
  - apply (getDurationEnv_roundtrip _ "REQUEST_TIMEOUT" 1 90); by vm_compute.
  - apply (proj2 (getDurationEnv_roundtrip (env_of [("REQUEST_TIMEOUT", "500ms")]) "REQUEST_TIMEOUT" 1 500
      ltac:(lia)) "ms"); by vm_compute.
Defined.

(** A count of seconds that overflows wraps: this shutdown timeout, over five
    centuries, is accepted as 0.29 seconds. *)
Example Load_wraps :
  ∃ cfg, Load (env_of [("SHUTDOWN_TIMEOUT", "18446744074")]) = Ok cfg ∧ ShutdownTimeout cfg = 290448384.
Proof. eexists. split; by vm_compute. Qed.

(** A rate that is no number passes validation, and does not turn the limiter
    off. *)
Example Load_accepts_NaN :
  ∃ cfg, Load (env_of [("RATE_LIMIT_RPS", "NaN")]) = Ok cfg ∧ RateLimitRPS cfg = S754_nan ∧
    ∀ B, unlimited (Limiter_New (B:=B) (RateLimitRPS cfg) (RateLimitBurst cfg) []) = false.
Proof. eexists. split; [by vm_compute|]. by split. Qed.
