(* ===== verification/Middleware.v ===== *)
(** * Middlewares: idempotency, authentication, rate limiting, and their chain

    Models [internal/endpoint/idempotency.go], the [RequireAuth] part of
    [internal/endpoint/auth.go], [internal/endpoint/ratelimit.go] and the order
    in which [cmd/server/main.go] nests them. A middleware takes the clock
    readings of one request as arguments and adds its own state to the state
    of the handler it wraps. *)

From S2P Require Import GoLang Auth Http Idempotency RateLimit.

(** ** The recording writer *)

Record recordedWriter := { rec_status : Z; rec_body : body; rec_wrote : bool }.

Definition rec_init : recordedWriter :=
  {| rec_status := 200; rec_body := []; rec_wrote := false |}.

(** One command of the handler: what is recorded and what is passed on. *)
Definition rec_WriteHeader (w : recordedWriter) (code : Z) : recordedWriter * list wcmd :=
  if rec_wrote w then (w, [])
  else ({| rec_status := code; rec_body := rec_body w; rec_wrote := true |}, [WriteHeader code]).

Definition rec_step (w : recordedWriter) (c : wcmd) : recordedWriter * list wcmd :=
  match c with
  | HeaderSet _ _ => (w, [c])
  | WriteHeader code => rec_WriteHeader w code
  | Write b =>
      let '(w, out) := if rec_wrote w then (w, []) else rec_WriteHeader w 200 in
      ({| rec_status := rec_status w; rec_body := rec_body w ++ b; rec_wrote := rec_wrote w |},
       out ++ [Write b])
  end.

Fixpoint rec_run (w : recordedWriter) (cmds : list wcmd) : recordedWriter * list wcmd :=
  match cmds with
  | [] => (w, [])
  | c :: cmds' =>
      let '(w1, out) := rec_step w c in
      let '(w2, outs) := rec_run w1 cmds' in (w2, out ++ outs)
  end.

(** ** Idempotency *)

(** [player, ok := auth.PlayerIDFrom(ctx); ok && player != ""]. *)
Definition auth_player (r : Request) : option string :=
  match PlayerIDFrom r with
  | Some player => if bool_decide (player ≠ "") then Some player else None
  | None => None
  end.

Definition scopedIdempotencyKey (r : Request) (key : string) : string :=
  match auth_player r with
  | Some player => player +:+ ":" +:+ key
  | None => "anon:" +:+ key
  end.

(** The condition for a request to pass through. *)
Definition idem_skips (r : Request) : bool :=
  bool_decide (Header_Get r "Idempotency-Key" = "") ||
  bool_decide (Method r = "GET") || bool_decide (Method r = "HEAD").

Definition replay_cmds (e : IdemEntry body) : list wcmd :=
  [HeaderSet "Idempotency-Replayed" "true"; WriteHeader (IdemStatus e); Write (IdemBody e)].

(** The clock readings of the store during one request. *)
Record idem_clock := { at_get : time; at_set1 : time; at_set2 : time }.

Section idempotency.
Context {I S : Type} `{!IdemStore body I}.

(** After a miss or a failed lookup: run the handler, record, store. A panic
    of the handler skips the store; a failing store is logged. *)
Definition idem_record (clk : idem_clock) (scoped : string) (next : Handler S) : Handler (I * S) :=
  λ r '(i, s),
    let '(cmds, why, s') := next r s in
    let '(w, out) := rec_run rec_init cmds in
    match why with
    | Some p => (out, Some p, (i, s'))
    | None =>
        let e := {| IdemStatus := rec_status w; IdemBody := rec_body w |} in
        match Idem_Set scoped e (at_set1 clk) (at_set2 clk) i with
        | (Panic p, i') => (out, Some p, (i', s'))
        | (_, i') => (out, None, (i', s'))
        end
    end.

(** [enabled] is false for a nil store. *)
Definition Idempotency (enabled : bool) (clk : idem_clock) (next : Handler S) : Handler (I * S) :=
  λ r '(i, s),
    if negb enabled || idem_skips r then
      let '(cmds, why, s') := next r s in (cmds, why, (i, s'))
    else
      let scoped := scopedIdempotencyKey r (Header_Get r "Idempotency-Key") in
      match Idem_Get scoped (at_get clk) i with
      | (Panic p, i') => ([], Some p, (i', s))
      | (Ok (Some entry), i') => (replay_cmds entry, None, (i', s))
      | (_, i') => idem_record clk scoped next r (i', s)
      end.
End idempotency.

(** ** Authentication *)

(** [h[:len(prefix)]] is compared with "bearer ". *)
Definition bearerTokenFrom (r : Request) : option string :=
  let h := Header_Get r "Authorization" in
  let prefix := "bearer " in
  let n := String.length prefix in
  if bool_decide (h = "") then None
  else if (String.length h <? n)%nat || negb (EqualFold (string_take n h) prefix) then None
  else
    let token := TrimSpace (string_drop n h) in
    if bool_decide (token = "") then None else Some token.

Definition writeUnauthorized (msg : string) : list wcmd :=
  [HeaderSet "WWW-Authenticate" (bytes [66; 101; 97; 114; 101; 114; 32; 114; 101; 97; 108; 109; 61; 34]%nat
     +:+ "stagesync" +:+ bytes [34]%nat);
   HeaderSet "Content-Type" "application/json; charset=utf-8";
   WriteHeader 401] ++
  Encode (JObj [("code", JString "UNAUTHORIZED"); ("message", JString msg)]).

Section require_auth.
Context {S : Type} `{!JwtLibrary}.

Definition RequireAuth (validator : option Validator) (now : time) (next : Handler S) : Handler S :=
  λ r s,
    match validator with
    | None => next r s
    | Some v =>
        match bearerTokenFrom r with
        | None => (writeUnauthorized "missing or malformed Authorization header", None, s)
        | Some token =>
            match Validator_Validate v token now with
            | Panic p => ([], Some p, s)
            | Err _ => (writeUnauthorized "invalid or expired token", None, s)
            | Ok claims => next (InjectClaims r claims) s
            end
        end
    end.
End require_auth.

(** ** Rate limiting *)

Definition identityOf (r : Request) : string :=
  match auth_player r with
  | Some player => "player:" +:+ player
  | None =>
      let xff := Header_Get r "X-Forwarded-For" in
      let xri := Header_Get r "X-Real-Ip" in
      if bool_decide (xff ≠ "") then
        match index_byte "," xff with
        | Some (Datatypes.S i) => "ip:" +:+ TrimSpace (string_take (Datatypes.S i) xff)
        | _ => "ip:" +:+ TrimSpace xff
        end
      else if bool_decide (xri ≠ "") then "ip:" +:+ xri
      else "ip:" +:+ default (RemoteAddr r) (SplitHost (RemoteAddr r))
  end.

Definition too_many_requests : list wcmd :=
  [HeaderSet "Retry-After" "1";
   HeaderSet "Content-Type" "application/json; charset=utf-8";
   WriteHeader 429] ++
  Encode (JObj [("code", JString "RATE_LIMITED");
                ("message", JString "too many requests — retry later")]).

Section rate_limit.
Context {B S : Type} `{!TokenBucket B}.

(** [None] is a nil limiter. *)
Definition RateLimit (now now' : time) (next : Handler S) : Handler (option (Limiter B) * S) :=
  λ r '(ol, s),
    match ol with
    | None => let '(cmds, why, s') := next r s in (cmds, why, (None, s'))
    | Some l =>
        let '(ok, l') := Limiter_Allow (identityOf r) now now' l in
        if ok then let '(cmds, why, s') := next r s in (cmds, why, (Some l', s'))
        else (too_many_requests, None, (Some l', s))
    end.
End rate_limit.

(** ** The chains of the server

    [RateLimit], then [Idempotency], then, for the gacha routes only,
    [RequireAuth]. *)

Record request_clock := {
  at_limit : time; at_bucket : time; at_idem : idem_clock; at_auth : time }.

Section chains.
Context {B I S : Type} `{!TokenBucket B, !IdemStore body I, !JwtLibrary}.

Definition public_chain (clk : request_clock) (next : Handler S)
    : Handler (option (Limiter B) * (I * S)) :=
  RateLimit (at_limit clk) (at_bucket clk) (Idempotency true (at_idem clk) next).

Definition protected_chain (validator : option Validator) (clk : request_clock) (next : Handler S)
    : Handler (option (Limiter B) * (I * S)) :=
  RateLimit (at_limit clk) (at_bucket clk)
    (Idempotency true (at_idem clk) (RequireAuth validator (at_auth clk) next)).
End chains.

(** ** Recording is transparent *)

(** The handler sends final statuses only. *)
Definition final_cmd (c : wcmd) : Prop :=
  match c with WriteHeader code => 200 <= code | _ => True end.

Section recording.
Implicit Types (cmds : list wcmd) (w : writer) (rw : recordedWriter).

(** The recorder knows what the writer behind it has sent. *)
Definition records rw w : Prop :=
  if rec_wrote rw then
    200 <= rec_status rw ∧ (∃ h, w_sent w = Some (rec_status rw, h)) ∧
    w_body w = (if bodyAllowed (rec_status rw) then rec_body rw else [])
  else rec_status rw = 200 ∧ rec_body rw = [] ∧ w_sent w = None ∧ w_body w = [].

Lemma WriteHeader_final w code :
  200 <= code → w_sent w = None →
  w_WriteHeader w code =
  {| w_header := w_header w; w_sent := Some (code, w_header w); w_body := w_body w |}.
Proof.
  intros Hc Hs. unfold w_WriteHeader. rewrite Hs.
  replace ((100 <=? code) && (code <=? 199) && negb (code =? 101)) with false; [done|].
  symmetry. apply andb_false_iff. left. apply andb_false_iff. right. lia.
Qed.

Lemma rec_step_spec rw w c :
  final_cmd c → records rw w →
  foldl w_step w (rec_step rw c).2 = w_step w c ∧ records (rec_step rw c).1 (w_step w c).
Proof.
  unfold records. intros Hc Hrec. destruct c as [name value|code|b]; cbn [rec_step].
  - split; [done|]. simpl. exact Hrec.
  - unfold rec_WriteHeader. destruct (rec_wrote rw) eqn:Hw; simpl.
    + destruct Hrec as (Hst & [h Hs] & Hb). unfold w_WriteHeader. rewrite Hs, Hw. eauto.
    + destruct Hrec as (Hst & Hrb & Hs & Hb). split; [done|]. rewrite WriteHeader_final by done.
      simpl. split_and!; [done|by eexists|]. rewrite Hb, Hrb. by destruct (bodyAllowed code).
  - unfold rec_WriteHeader. destruct (rec_wrote rw) eqn:Hw; simpl; rewrite ?Hw.
    + destruct Hrec as (Hst & [h Hs] & Hb). rewrite !Hs. split; [done|].
      destruct (bodyAllowed (rec_status rw)) eqn:Ha; simpl; rewrite ?Hs, ?Ha; split_and!;
        rewrite ?Hb; eauto.
    + destruct Hrec as (Hst & Hrb & Hs & Hb). rewrite Hs, WriteHeader_final by done. simpl.
      split; [done|]. split_and!; [done|by eexists|]. by rewrite Hb, Hrb.
Qed.

Lemma rec_run_spec rw w cmds :
  Forall final_cmd cmds → records rw w →
  foldl w_step w (rec_run rw cmds).2 = foldl w_step w cmds ∧
  records (rec_run rw cmds).1 (foldl w_step w cmds).
Proof.
  intros Hf. revert rw w. induction Hf as [|c cmds Hc _ IH]; intros rw w Hrec; [done|].
  cbn [rec_run]. destruct (rec_step_spec rw w c Hc Hrec) as [Hstep Hrec1].
  destruct (rec_step rw c) as [rw1 out]. simpl in *.
  destruct (IH rw1 (w_step w c) Hrec1) as [Hrun Hrec2].
  destruct (rec_run rw1 cmds) as [rw2 outs]. simpl in *.
  by rewrite foldl_app, Hstep.
Qed.

Lemma records_response rw w :
  records rw w → RespStatus (response_of w) = rec_status rw ∧
  RespBody (response_of w) = (if bodyAllowed (rec_status rw) then rec_body rw else []).
Proof.
  unfold records, response_of. destruct (rec_wrote rw).
  - intros (_ & [h Hs] & Hb). rewrite Hs. simpl. done.
  - intros (Hst & Hrb & Hs & Hb). rewrite Hs, Hst, Hrb, Hb. simpl. done.
Qed.

Lemma rec_run_transparent cmds :
  Forall final_cmd cmds →
  let '(rw, out) := rec_run rec_init cmds in
  render out = render cmds ∧ RespStatus (render cmds) = rec_status rw ∧
  RespBody (render cmds) = (if bodyAllowed (rec_status rw) then rec_body rw else []) ∧
  200 <= rec_status rw.
Proof.
  intros Hf. destruct (rec_run_spec rec_init w_init cmds Hf) as [Hrun Hrec]; [done|].
  destruct (rec_run rec_init cmds) as [rw out]. simpl in *. unfold render. rewrite Hrun.
  destruct (records_response rw _ Hrec) as [-> ->]. split_and!; try done.
  unfold records in Hrec. destruct (rec_wrote rw); destruct Hrec; lia.
Qed.

Lemma render_replay e :
  200 <= IdemStatus e →
  render (replay_cmds e) =
  {| RespStatus := IdemStatus e; RespHeader := {["Idempotency-Replayed" := "true"]};
     RespBody := if bodyAllowed (IdemStatus e) then IdemBody e else [] |}.
Proof.
  intros He. unfold render, replay_cmds. cbn [foldl w_step].
  rewrite WriteHeader_final by done. simpl. by destruct (bodyAllowed (IdemStatus e)).
Qed.
End recording.

(** ** Properties *)

(** The requests the idempotency middleware handles under one key. *)
Definition under_key (k : string) (r : Request) : Prop :=
  idem_skips r = false ∧ scopedIdempotencyKey r (Header_Get r "Idempotency-Key") = k.

Section properties.
Context {I S : Type} `{!IdemStore body I}.
Implicit Types (next : Handler S) (r : Request).

(** Requests served one after the other. *)
Fixpoint idem_serve_all next (reqs : list (idem_clock * Request)) (w : I * S)
    : list (option Response) * (I * S) :=
  match reqs with
  | [] => ([], w)
  | (clk, r) :: reqs' =>
      let '(resp, w1) := serve (Idempotency true clk next) r w in
      let '(resps, w2) := idem_serve_all next reqs' w1 in (resp :: resps, w2)
  end.

(** What a repeated request is answered, given the first answer. *)
Definition replayed (resp : Response) : Response :=
  {| RespStatus := RespStatus resp;
     RespHeader := {["Idempotency-Replayed" := "true"]};
     RespBody := RespBody resp |}.

(** The lookups of the repeated requests, in order, from [t] to [until]. *)
Fixpoint lookups_within (t until : time) (reqs : list (idem_clock * Request)) : Prop :=
  match reqs with
  | [] => True
  | (clk, _) :: reqs' => t <= at_get clk <= until ∧ lookups_within (at_get clk) until reqs'
  end.

Context `{!IdemStoreLaws body I, !IdemUp body I}.

Lemma idem_hit next clk k r (i : I) s e :
  under_key k r → idem_up i (at_get clk) → shown i (at_get clk) k = Some e → 200 <= IdemStatus e →
  serve (Idempotency true clk next) r (i, s) =
  (Some {| RespStatus := IdemStatus e; RespHeader := {["Idempotency-Replayed" := "true"]};
           RespBody := if bodyAllowed (IdemStatus e) then IdemBody e else [] |},
   ((Idem_Get k (at_get clk) i).2, s)).
Proof.
  intros [Hskip Hk] Hup Hshown He. unfold serve, Idempotency. rewrite Hskip. simpl. rewrite Hk.
  destruct (Get_up k (at_get clk) i Hup) as [Htot Hup1].
  destruct (Idem_Get k (at_get clk) i) as [[o|?|?] i'] eqn:Hget; [|done..].
  apply Get_shown in Hget as ->. rewrite Hshown. by rewrite render_replay.
Qed.

Lemma idem_miss next clk k r (i : I) s cmds s1 :
  under_key k r → idem_up i (at_get clk) → shown i (at_get clk) k = None → at_get clk <= at_set1 clk <= at_set2 clk →
  next r s = (cmds, None, s1) → Forall final_cmd cmds →
  ∃ i' e, serve (Idempotency true clk next) r (i, s) = (Some (render cmds), (i', s1)) ∧
    (∀ t, at_set2 clk <= t <= at_set2 clk + idem_ttl i → shown i' t k = Some e) ∧
    idem_ttl i' = idem_ttl i ∧ idem_up i' (at_set2 clk) ∧ 200 <= IdemStatus e ∧ RespStatus (render cmds) = IdemStatus e ∧
    RespBody (render cmds) = (if bodyAllowed (IdemStatus e) then IdemBody e else []).
Proof.
  intros [Hskip Hk] Hup Hnone [Hclk Hclk2] Hnext Hfinal. unfold serve, Idempotency. rewrite Hskip. simpl.
  rewrite Hk. destruct (Get_up k (at_get clk) i Hup) as [Htot Hup1].
  destruct (Idem_Get k (at_get clk) i) as [[o|?|?] i1] eqn:Hget; [|done..].
  pose proof (Get_shown _ _ _ _ _ Hget) as ->. rewrite Hnone.
  unfold idem_record. rewrite Hnext.
  pose proof (rec_run_transparent cmds Hfinal) as Hrec.
  destruct (rec_run rec_init cmds) as [rw out]. destruct Hrec as (Hr & Hst & Hb & Hge).
  set (e := {| IdemStatus := rec_status rw; IdemBody := rec_body rw |}).
  destruct (Set_up k e (at_set1 clk) (at_set2 clk) i1) as [Htot' Hup2].
  { apply (idem_up_later _ (at_get clk)); [lia|exact Hup1]. }
  destruct (Idem_Set k e (at_set1 clk) (at_set2 clk) i1) as [[[]|?|?] i2] eqn:Hset; [|done..].
  destruct (Get_frame k (at_get clk) i k (at_set1 clk) Hclk) as [Hf Httl].
  rewrite Hget in Hf, Httl. simpl in Hf, Httl.
  exists i2, e. rewrite Hr. split; [done|]. split.
  - intros t Ht. eapply Set_fresh; [exact Hset| |exact Hclk2|by rewrite Httl].
    rewrite Hf. by eapply shown_expired.
  - pose proof (Set_ttl k e (at_set1 clk) (at_set2 clk) i1) as Ht. rewrite Hset in Ht. simpl in Ht.
    rewrite Ht. done.
Qed.

Lemma idem_all_hits next k reqs (i : I) s e t until :
  idem_up i t → (∀ t', t <= t' <= until → shown i t' k = Some e) → 200 <= IdemStatus e →
  Forall (λ '(_, r), under_key k r) reqs → lookups_within t until reqs →
  ∃ i', idem_serve_all next reqs (i, s) =
    (replicate (length reqs)
       (Some {| RespStatus := IdemStatus e; RespHeader := {["Idempotency-Replayed" := "true"]};
                RespBody := if bodyAllowed (IdemStatus e) then IdemBody e else [] |}), (i', s)).
Proof.
  intros Hup Hshown He Hkeys. revert i t Hup Hshown.
  induction Hkeys as [|[clk r] reqs Hr _ IH]; intros i t Hup Hshown Hin.
  { by exists i. }
  destruct Hin as [Ht Hin]. cbn [idem_serve_all]. destruct Ht as [Ht1 Ht2].
  apply (idem_up_later _ _ _ Ht1) in Hup.
  rewrite (idem_hit next clk k r i s e Hr) by (try done; by apply Hshown).
  destruct (IH (Idem_Get k (at_get clk) i).2 (at_get clk)) as [i' Hrun]; [by apply Get_up| |done|].
  - intros t' Ht'. destruct (Get_frame k (at_get clk) i k t') as [-> _]; [lia|].
    apply Hshown. lia.
  - exists i'. by rewrite Hrun.
Qed.

(** C12. At most once. With a store that keeps its contract and answers: when the first of
    a sequence of write requests under one scoped key finds no entry and its
    handler finishes, then for the whole time to live all the later ones, from
    whichever client, are answered with the status and body of the first
    response and the replay header, and the handler's state stays what the
    first execution left: the handler ran exactly once. *)
Theorem Idempotency_at_most_once (next : Handler S) (k : string) (clk : idem_clock) (r : Request)
    (reqs : list (idem_clock * Request)) (i : I) (s s1 : S) (cmds : list wcmd)
    (Hkey : under_key k r) (Hkeys : Forall (λ '(_, r'), under_key k r') reqs)
    (Hup : idem_up i (at_get clk)) (Hmiss : shown i (at_get clk) k = None)
    (Hclock : at_get clk <= at_set1 clk <= at_set2 clk)
    (Hwithin : lookups_within (at_set2 clk) (at_set2 clk + idem_ttl i) reqs)
    (Hnext : next r s = (cmds, None, s1)) (Hfinal : Forall final_cmd cmds) :
  ∃ i', idem_serve_all next ((clk, r) :: reqs) (i, s) =
    (Some (render cmds) :: replicate (length reqs) (Some (replayed (render cmds))), (i', s1)).
Proof.
  destruct (idem_miss next clk k r i s cmds s1 Hkey Hup Hmiss Hclock Hnext Hfinal)
    as (i1 & e & Hfirst & Hshown & Httl & Hup1 & Hge & Hst & Hb).
  destruct (idem_all_hits next k reqs i1 s1 e (at_set2 clk) (at_set2 clk + idem_ttl i))
    as [i2 Hrest]; [done..|].
  exists i2. cbn [idem_serve_all]. rewrite Hfirst, Hrest. unfold replayed. by rewrite Hst, Hb.
Qed.

End properties.

Section transparency.
Context {I S : Type} `{!IdemStore body I}.

(** Transparency. Unless the store answers with an entry, the client gets
    exactly the response the handler would have given without the middleware,
    and the handler leaves the same state; this covers a nil store, reads,
    requests without the header, misses, and stores that fail to read or to
    write. *)
Theorem Idempotency_transparent (next : Handler S) (enabled : bool) (clk : idem_clock)
    (r : Request) (i : I) (s s1 : S) (cmds : list wcmd)
    (Hnext : next r s = (cmds, None, s1)) (Hfinal : Forall final_cmd cmds)
    (Hget : ∀ k t i, no_panic (Idem_Get k t i).1)
    (Hset : ∀ k e t1 t2 i, no_panic (Idem_Set k e t1 t2 i).1)
    (Hnohit : enabled = false ∨ idem_skips r = true ∨
       ∀ e, (Idem_Get (scopedIdempotencyKey r (Header_Get r "Idempotency-Key")) (at_get clk) i).1
              ≠ Ok (Some e)) :
  (serve (Idempotency enabled clk next) r (i, s)).1 = Some (render cmds) ∧
  (serve (Idempotency enabled clk next) r (i, s)).2.2 = s1.
Proof.
  unfold serve, Idempotency.
  destruct (negb enabled || idem_skips r) eqn:Hskip; [by rewrite Hnext|].
  apply orb_false_iff in Hskip as [He%negb_false_iff Hs].
  destruct Hnohit as [?|[?|Hnohit]]; [congruence..|].
  assert (Hrecord : ∀ i1,
    let '(out, why, (_, s')) := idem_record clk
      (scopedIdempotencyKey r (Header_Get r "Idempotency-Key")) next r (i1, s) in
    render out = render cmds ∧ why = None ∧ s' = s1).
  { intros i1. unfold idem_record. rewrite Hnext.
    pose proof (rec_run_transparent cmds Hfinal) as Hrec.
    destruct (rec_run rec_init cmds) as [rw out]. destruct Hrec as (Hr & _).
    match goal with |- context [Idem_Set ?k ?e ?t1 ?t2 i1] =>
      pose proof (Hset k e t1 t2 i1); destruct (Idem_Set k e t1 t2 i1) as [[?|?|?] i2] end;
      done. }
  pose proof (Hget (scopedIdempotencyKey r (Header_Get r "Idempotency-Key")) (at_get clk) i) as Hg.
  destruct (Idem_Get _ _ i) as [[[e|]|?|?] i1]; [by destruct (Hnohit e)|..|done];
    specialize (Hrecord i1);
    destruct (idem_record _ _ next r (i1, s)) as [[out why] [i2 s2]];
    destruct Hrecord as (-> & -> & ->); done.
Qed.
End transparency.

Section gate.
Context `{!JwtLibrary} {S : Type}.
Implicit Types (next : Handler S) (r : Request).

Lemma unauthorized_response msg :
  RespStatus (render (writeUnauthorized msg)) = 401 ∧
  RespHeader (render (writeUnauthorized msg)) !! "Content-Type" =
    Some "application/json; charset=utf-8" ∧
  is_Some (RespHeader (render (writeUnauthorized msg)) !! "WWW-Authenticate").
Proof. split_and!; [done..|by eexists]. Qed.

(** C27. The gate. With a validator, the wrapped handler runs only on a request
    with a bearer token that validates, and then sees the token's player, who
    is never empty; every other request gets 401 with its challenge header,
    and the state is not touched. Without a validator every request passes. *)
Theorem RequireAuth_gate (ov : option Validator) (now : time) (next : Handler S) (r : Request) (s : S)
    (Hpanic : ∀ v token, no_panic (Validator_Validate v token now)) :
  match ov with
  | None => RequireAuth ov now next r s = next r s
  | Some v =>
      (∃ token c, bearerTokenFrom r = Some token ∧ Validator_Validate v token now = Ok c ∧
         RequireAuth ov now next r s = next (InjectClaims r c) s ∧
         auth_player (InjectClaims r c) = Some (PlayerID c)) ∨
      ((∀ token c, bearerTokenFrom r = Some token → Validator_Validate v token now ≠ Ok c) ∧
       ∃ resp, serve (RequireAuth ov now next) r s = (Some resp, s) ∧ RespStatus resp = 401 ∧
         is_Some (RespHeader resp !! "WWW-Authenticate"))
  end.
Proof.
  destruct ov as [v|]; [|done]. unfold serve, RequireAuth.
  destruct (bearerTokenFrom r) as [token|].
  2:{ right. split; [done|]. eexists. split; [done|].
      pose proof (unauthorized_response "missing or malformed Authorization header"). tauto. }
  specialize (Hpanic v token). destruct (Validator_Validate v token now) as [c|e|w] eqn:Hv; [left|right|done].
  - exists token, c. split_and!; try done. apply Validate_player in Hv.
    unfold auth_player. simpl. by rewrite bool_decide_eq_true_2.
  - split; [intros ? ? [= <-]; congruence|]. eexists. split; [done|].
    pose proof (unauthorized_response "invalid or expired token"). tauto.
Qed.

#[local] Abbreviation scheme7 a b c d e f :=
  (String a (String b (String c (String d (String e (String f " "%string)))))).

(** A header whose scheme is "Bearer" in any case gives its trimmed token. *)
Lemma bearerTokenFrom_scheme r scheme token :
  string_lower scheme = "bearer" → Header_Get r "Authorization" = scheme +:+ " " +:+ token →
  TrimSpace token ≠ "" → bearerTokenFrom r = Some (TrimSpace token).
Proof.
  intros Hs Hh Ht. unfold bearerTokenFrom. rewrite Hh.
  do 6 (destruct scheme as [|? scheme]; [discriminate Hs|]).
  destruct scheme as [|? scheme]; [|discriminate Hs].
  rewrite !string_app_cons, !string_app_nil_l in *. rewrite bool_decide_eq_false_2 by done.
  change (String.length "bearer ") with 7%nat.
  match goal with |- context [string_take 7 ?h] =>
    assert (Hlen : (String.length h <? 7)%nat = false) by (apply Nat.ltb_ge; simpl; lia);
    assert (Htake : EqualFold (string_take 7 h) "bearer " = true);
    [|assert (Hdrop : string_drop 7 h = token)] end.
  - unfold EqualFold, string_take. apply bool_decide_eq_true_2.
    replace (String.substring 0 7 _) with (scheme7 a a0 a1 a2 a3 a4)
      by (simpl; by destruct token).
    cbn [string_lower] in *. injection Hs as Ha Hb Hc Hd He Hf.
    by rewrite Ha, Hb, Hc, Hd, He, Hf.
  - unfold string_drop. simpl. rewrite Nat.sub_0_r. clear.
    induction token as [|c t IH]; simpl; [done|]. by rewrite IH.
  - rewrite Hlen, Htake, Hdrop. cbn [orb negb]. by rewrite bool_decide_eq_false_2.
Qed.

(** From login to handler. A request that carries the token the server
    issued to a player, under the scheme Bearer in any letter case, reaches the
    protected handler with that player as its identity, at any instant from
    issuing up to one second before expiry. *)
Theorem issued_token_is_admitted (secret scheme player token : string) (ttl : Z) (i : Issuer)
    (v : Validator) (now exp t : time) (next : Handler S) (r : Request) (s : S) `{!JwtLaws}
    (Hbuild : buildAuth secret ttl = Ok (Some i, Some v))
    (Hissue : Issuer_Issue i player now = Ok (token, exp))
    (Hclean : token ≠ "" ∧ TrimSpace token = token)
    (Hscheme : string_lower scheme = "bearer")
    (Hheader : Header_Get r "Authorization" = scheme +:+ " " +:+ token)
    (Ht : now <= t <= exp - Second) :
  ∃ c, RequireAuth (Some v) t next r s = next (InjectClaims r c) s ∧
    PlayerIDFrom (InjectClaims r c) = Some player.
Proof.
  destruct Hclean as [Hne Htrim].
  destruct (Issue_Validate_ok _ _ _ _ _ _ _ _ _ Hbuild Hissue Hne Ht) as (c & Hv & Hp & _).
  exists c. split; [|by rewrite <- Hp]. unfold RequireAuth.
  rewrite (bearerTokenFrom_scheme r scheme token Hscheme Hheader) by congruence.
  by rewrite Htrim, Hv.
Qed.
End gate.

Section chain_properties.
Context {B I S : Type} `{!TokenBucket B, !IdemStore body I, !IdemStoreLaws body I, !IdemUp body I}.
Context `{!JwtLibrary}.

(** A replay needs no token. In the chain of the gacha routes the
    idempotency middleware runs before authentication, so no player is in the
    context when the key is scoped: once an authenticated request has been
    answered, any request with the same [Idempotency-Key] and no [Authorization]
    header at all gets the same status and body until the entry expires. *)
Theorem replay_needs_no_token (v : Validator) (next : Handler S) (key : string)
    (clk1 clk2 : request_clock) (r1 r2 : Request) (token : string) (c : Claims)
    (i : I) (s s1 : S) (cmds : list wcmd)
    (Hpost : Method r1 = "POST" ∧ Method r2 = "POST")
    (Hkey : key ≠ "" ∧ Header_Get r1 "Idempotency-Key" = key ∧ Header_Get r2 "Idempotency-Key" = key)
    (Hctx : ctx_claims r1 = None ∧ ctx_claims r2 = None)
    (Htoken : bearerTokenFrom r1 = Some token)
    (Hvalid : Validator_Validate v token (at_auth clk1) = Ok c)
    (Hnone : bearerTokenFrom r2 = None)
    (Hup : idem_up i (at_get (at_idem clk1)))
    (Hmiss : shown i (at_get (at_idem clk1)) ("anon:" +:+ key) = None)
    (Hclock : at_get (at_idem clk1) <= at_set1 (at_idem clk1) <= at_set2 (at_idem clk1))
    (Hlive : at_set2 (at_idem clk1) <= at_get (at_idem clk2) <= at_set2 (at_idem clk1) + idem_ttl i)
    (Hnext : next (InjectClaims r1 c) s = (cmds, None, s1)) (Hfinal : Forall final_cmd cmds) :
  let chain clk := protected_chain (B := B) (Some v) clk next in
  let '(resp1, w1) := serve (chain clk1) r1 (None, (i, s)) in
  resp1 = Some (render cmds) ∧
  (serve (chain clk2) r2 w1).1 = Some (replayed (render cmds)) ∧
  (serve (chain clk2) r2 w1).2.2.2 = s1.
Proof.
  destruct Hpost as [Hp1 Hp2], Hkey as (Hk & Hk1 & Hk2), Hctx as [Hc1 Hc2].
  assert (Hunder : ∀ r, Method r = "POST" → Header_Get r "Idempotency-Key" = key →
    ctx_claims r = None → under_key ("anon:" +:+ key) r).
  { intros r Hp Hr Hc. unfold under_key, idem_skips, scopedIdempotencyKey, auth_player, PlayerIDFrom,
      ClaimsFrom. rewrite Hp, Hr, Hc. by rewrite bool_decide_eq_false_2. }
  cbn zeta. unfold protected_chain.
  assert (Hlimit : ∀ n n' (h : Handler (I * S)) r w,
    serve (RateLimit (B := B) n n' h) r (None, w) =
    ((serve h r w).1, (None, (serve h r w).2))).
  { intros. unfold serve, RateLimit. by destruct (h r w) as [[? []] ?]. }
  assert (Hauth : RequireAuth (Some v) (at_auth clk1) next r1 s = (cmds, None, s1))
    by (unfold RequireAuth; by rewrite Htoken, Hvalid).
  rewrite Hlimit.
  destruct (idem_miss _ (at_idem clk1) _ r1 i s cmds s1 (Hunder r1 Hp1 Hk1 Hc1) Hup Hmiss Hclock Hauth Hfinal)
    as (i1 & e & -> & Hshown & _ & Hup1 & Hge & Hst & Hb).
  split; [done|]. simpl. rewrite Hlimit.
  rewrite (idem_hit _ (at_idem clk2) ("anon:" +:+ key) r2 i1 s1 e)
    by (try done; auto; apply (idem_up_later _ _ _ (proj1 Hlive) Hup1)).
  unfold replayed. by rewrite Hst, Hb.
Qed.

(** Over the limit. When the identity of a request has no token left, the
    chain answers 429 with its retry header, and neither the idempotency store
    nor the handler's state changes; otherwise the limiter only spends the
    token. *)
Theorem RateLimit_gate (l : Limiter B) (clk : request_clock) (next : Handler S) (r : Request)
    (i : I) (s : S) :
  let '(ok, l') := Limiter_Allow (identityOf r) (at_limit clk) (at_bucket clk) l in
  if ok then
    serve (public_chain clk next) r (Some l, (i, s)) =
      ((serve (Idempotency true (at_idem clk) next) r (i, s)).1,
       (Some l', (serve (Idempotency true (at_idem clk) next) r (i, s)).2))
  else
    ∃ resp, serve (public_chain clk next) r (Some l, (i, s)) = (Some resp, (Some l', (i, s))) ∧
      RespStatus resp = 429 ∧ RespHeader resp !! "Retry-After" = Some "1".
Proof.
  unfold serve, public_chain, RateLimit.
  destruct (Limiter_Allow _ _ _ l) as [[] l'].
  - by destruct (Idempotency true (at_idem clk) next r (i, s)) as [[? []] ?].
  - eexists. by split_and!.
Qed.
End chain_properties.

(** ** Concrete requests *)

(** A handler that counts its executions and answers the count. *)
Definition counting : Handler Z := λ _ n,
  (WriteHeader 201 :: writeJSON (JNum (n + 1)), None, n + 1).

Definition post (headers : gmap string string) : Request := {|
  Method := "POST"; URL_Path := "/api/gacha/roll"; URLParams := ∅; Query := ∅; ReqHeader := headers;
  RemoteAddr := "10.0.0.7:5000"; ReqBody := Ok JNull; ctx_claims := None; ctx_logger := None |}.

Definition clk_at (t : time) : idem_clock := {| at_get := t; at_set1 := t; at_set2 := t |}.

Definition demo_store : InmemStore body := NewInmemStore 100.

Definition keyed : Request := post {["Idempotency-Key" := "k1"]}.

Lemma Idempotency_at_most_once_witness :
  ∃ i', idem_serve_all counting [(clk_at 0, keyed); (clk_at 40, keyed); (clk_at 90, keyed)]
          (demo_store, 7) =
    (Some (render (counting keyed 7).1.1)
       :: replicate 2 (Some (replayed (render (counting keyed 7).1.1))), (i', 8)).
Proof.
  apply (Idempotency_at_most_once counting "anon:k1" (clk_at 0) keyed
    [(clk_at 40, keyed); (clk_at 90, keyed)] demo_store 7 8 (counting keyed 7).1.1).
  - split; vm_compute; reflexivity.
  - repeat constructor; vm_compute; reflexivity.
  - exact I.
  - vm_compute. reflexivity.
  - simpl. lia.
  - vm_compute. repeat split; discriminate.
  - reflexivity.
  - constructor; [simpl; lia|repeat constructor].
Defined.

Lemma Idempotency_transparent_witness :
  (serve (Idempotency true (clk_at 0) counting) keyed (demo_store, 7)).1 =
  Some (render (counting keyed 7).1.1).
Proof.
  apply (Idempotency_transparent counting true (clk_at 0) keyed demo_store 7 8).
  - reflexivity.
  - constructor; [simpl; lia|repeat constructor].
  - intros k t i. simpl. unfold InmemStore_Get. by repeat case_match.
  - intros k e t1 t2 i. simpl. unfold InmemStore_Set. by repeat case_match.
  - right. right. intros e. vm_compute. discriminate.
Defined.

Definition demo_validator : Validator := {| va_secret := "s"; va_issuer := "stagesync" |}.
Definition demo_issuer : Issuer :=
  {| is_secret := "s"; is_ttl := 60 * Second; is_issuer := "stagesync" |}.
Definition demo_claims : Claims := Build_Claims "p" "stagesync" "p" 0 (60 * Second) 0.
Definition demo_token : string := toy_sign "s" demo_claims.

Definition with_token : Request :=
  post {["Idempotency-Key" := "k1"; "Authorization" := "BEARER " +:+ demo_token]}.

Lemma RequireAuth_gate_witness :
  serve (@RequireAuth Z toy_jwt (Some demo_validator) 5 counting) keyed 7 =
    (Some (render (writeUnauthorized "missing or malformed Authorization header")), 7).
Proof.
  assert (Hp : ∀ v token, no_panic (@Validator_Validate toy_jwt v token 5)).
  { intros v token. unfold Validator_Validate. simpl. unfold toy_parse.
    repeat case_match; simplify_eq; exact I. }
  destruct (@RequireAuth_gate toy_jwt Z (Some demo_validator) 5 counting keyed 7 Hp)
    as [(token & c & Hb & _)|(_ & resp & Hs & _)].
  - vm_compute in Hb. discriminate Hb.
  - reflexivity.
Defined.

Lemma issued_token_is_admitted_witness :
  ∃ c, @RequireAuth Z toy_jwt (Some demo_validator) (30 * Second) counting with_token 7 =
      counting (InjectClaims with_token c) 7 ∧
    PlayerIDFrom (InjectClaims with_token c) = Some "p".
Proof.
  apply (@issued_token_is_admitted toy_jwt Z "s" "BEARER" "p" demo_token (60 * Second)
    demo_issuer demo_validator 0 (60 * Second) (30 * Second) counting with_token 7 toy_jwt_laws).
  - reflexivity.
  - vm_compute. reflexivity.
  - split; vm_compute; [discriminate|reflexivity].
  - reflexivity.
  - vm_compute. reflexivity.
  - vm_compute. split; discriminate.
Defined.

(** A bucket that never empties. *)
Definition open_bucket : TokenBucket unit :=
  {| NewLimiter _ _ := tt; Bucket_Allow _ _ := (true, tt) |}.

Definition at_time (t : time) : request_clock :=
  {| at_limit := t; at_bucket := t; at_idem := clk_at t; at_auth := t |}.

Lemma replay_needs_no_token_witness :
  let chain clk := @protected_chain unit (InmemStore body) Z open_bucket _ toy_jwt
                     (Some demo_validator) clk counting in
  (serve (chain (at_time 40)) keyed (serve (chain (at_time 5)) with_token (None, (demo_store, 7))).2).1
  = Some (replayed (render (counting with_token 7).1.1)).
Proof.
  pose proof (@replay_needs_no_token unit (InmemStore body) Z open_bucket _ _ _ toy_jwt
    demo_validator counting "k1" (at_time 5) (at_time 40) with_token keyed demo_token demo_claims
    demo_store 7 8 (counting with_token 7).1.1) as Hspec.
  cbv beta zeta in Hspec |- *.
  match goal with |- context [serve ?h with_token ?w] =>
    destruct (serve h with_token w) as [resp1 w1] end.
  cbn [snd]. apply Hspec.
  - split; reflexivity.
  - split; [discriminate|]. split; vm_compute; reflexivity.
  - split; reflexivity.
  - vm_compute. reflexivity.
  - vm_compute. reflexivity.
  - vm_compute. reflexivity.
  - exact I.
  - vm_compute. reflexivity.
  - simpl. lia.
  - vm_compute. split; discriminate.
  - reflexivity.
  - constructor; [simpl; lia|repeat constructor].
Defined.
