(* ===== verification/IdemConcurrent.v ===== *)
(** * Concurrent requests under one idempotency key

    [Idempotency] of [internal/endpoint/idempotency.go] looks the key up, runs the
    handler and stores its response: three accesses to state that other requests
    share, with nothing held in between. Here requests interleave in any way at
    these three points, over any store that keeps its contract. *)

From S2P Require Import GoLang Auth Http Idempotency RateLimit Middleware.
#[local] Open Scope Z_scope.

(** ** The three parts of the middleware *)

Inductive looked :=
  | LookPass
  | LookReplay (e : IdemEntry body)
  | LookMiss (scoped : string)
  | LookPanic (p : string).

Section parts.
Context {I S : Type} `{!IdemStore body I}.

(** Up to the lookup. *)
Definition idem_lookup (now : time) (r : Request) (i : I) : looked * I :=
  if idem_skips r then (LookPass, i)
  else
    let scoped := scopedIdempotencyKey r (Header_Get r "Idempotency-Key") in
    match Idem_Get scoped now i with
    | (Panic p, i') => (LookPanic p, i')
    | (Ok (Some entry), i') => (LookReplay entry, i')
    | (_, i') => (LookMiss scoped, i')
    end.

(** The handler behind the recorder: what is sent, whether it panicked, and what
    was recorded. *)
Definition idem_handle (next : Handler S) (r : Request) (s : S)
    : list wcmd * option string * IdemEntry body * S :=
  let '(cmds, why, s') := next r s in
  let '(w, out) := rec_run rec_init cmds in
  (out, why, {| IdemStatus := rec_status w; IdemBody := rec_body w |}, s').

(** The response is stored, best effort. *)
Definition idem_keep (scoped : string) (e : IdemEntry body) (now1 now2 : time) (i : I)
    : option string * I :=
  match Idem_Set scoped e now1 now2 i with
  | (Panic p, i') => (Some p, i')
  | (_, i') => (None, i')
  end.

Lemma Idempotency_split clk (next : Handler S) r i s :
  Idempotency true clk next r (i, s) =
  match idem_lookup (at_get clk) r i with
  | (LookPass, i1) => let '(cmds, why, s1) := next r s in (cmds, why, (i1, s1))
  | (LookReplay e, i1) => (replay_cmds e, None, (i1, s))
  | (LookPanic p, i1) => ([], Some p, (i1, s))
  | (LookMiss scoped, i1) =>
      let '(out, why, e, s1) := idem_handle next r s in
      match why with
      | Some p => (out, Some p, (i1, s1))
      | None => let '(why, i2) := idem_keep scoped e (at_set1 clk) (at_set2 clk) i1 in
                (out, why, (i2, s1))
      end
  end.
Proof.
  unfold Idempotency, idem_lookup. cbn [negb orb]. destruct (idem_skips r); [done|].
  assert (∀ k i', idem_record clk k next r (i', s) =
    let '(out, why, e, s1) := idem_handle next r s in
    match why with
    | Some p => (out, Some p, (i', s1))
    | None => let '(why, i2) := idem_keep k e (at_set1 clk) (at_set2 clk) i' in (out, why, (i2, s1))
    end) as Hrec.
  { intros k i'. unfold idem_record, idem_handle, idem_keep. destruct (next r s) as [[cmds why] s1].
    destruct (rec_run rec_init cmds). destruct why; [done|].
    by destruct (Idem_Set _ _ _ _ i') as [[] ?]. }
  by destruct (Idem_Get _ _ i) as [[[]|?|?] i'].
Qed.
End parts.

(** ** Interleavings *)

(** Where a request is: before its handler, before its store, or answered. *)
Inductive task :=
  | TRun (r : Request) (scoped : option string)
  | TKeep (scoped : string) (e : IdemEntry body) (out : list wcmd)
  | TDone (out : list wcmd) (why : option string) (replay : bool).

Inductive idem_event (S : Type) :=
  | ELook (now : time) (r : Request)
  | ERun (g : nat) (next : Handler S)
  | EKeep (g : nat) (now1 now2 : time).
Arguments ELook {S} _ _.
Arguments ERun {S} _ _.
Arguments EKeep {S} _ _ _.

(** The store, the handlers' state, and the requests in the order of their
    lookups. *)
Record idem_conc (I S : Type) := { ic_store : I; ic_state : S; ic_tasks : list task }.
Arguments ic_store {I S} _.
Arguments ic_state {I S} _.
Arguments ic_tasks {I S} _.
Arguments Build_idem_conc {I S} _ _ _.

Section interleaving.
Context {I S : Type} `{!IdemStore body I}.
Implicit Types (c : idem_conc I S) (ev : idem_event S) (es : list (idem_event S)).

Definition set_task (g : nat) (t : task) (i : I) (s : S) c : idem_conc I S :=
  {| ic_store := i; ic_state := s; ic_tasks := <[g := t]> (ic_tasks c) |}.

(** What a request is after its lookup. *)
Definition looked_task (r : Request) (l : looked) : task :=
  match l with
  | LookPass => TRun r None
  | LookReplay e => TDone (replay_cmds e) None true
  | LookMiss scoped => TRun r (Some scoped)
  | LookPanic p => TDone [] (Some p) false
  end.

Definition idem_fire ev c : option (idem_conc I S) :=
  match ev with
  | ELook now r =>
      let '(l, i') := idem_lookup now r (ic_store c) in
      Some {| ic_store := i'; ic_state := ic_state c; ic_tasks := ic_tasks c ++ [looked_task r l] |}
  | ERun g next =>
      match ic_tasks c !! g with
      | Some (TRun r None) =>
          let '(cmds, why, s') := next r (ic_state c) in
          Some (set_task g (TDone cmds why false) (ic_store c) s' c)
      | Some (TRun r (Some scoped)) =>
          let '(out, why, e, s') := idem_handle next r (ic_state c) in
          let t := match why with Some p => TDone out (Some p) false | None => TKeep scoped e out end in
          Some (set_task g t (ic_store c) s' c)
      | _ => None
      end
  | EKeep g now1 now2 =>
      match ic_tasks c !! g with
      | Some (TKeep scoped e out) =>
          let '(why, i') := idem_keep scoped e now1 now2 (ic_store c) in
          Some (set_task g (TDone out why false) i' (ic_state c) c)
      | _ => None
      end
  end.

Fixpoint idem_fire_all es c : option (idem_conc I S) :=
  match es with
  | [] => Some c
  | ev :: es' => c' ← idem_fire ev c; idem_fire_all es' c'
  end.

(** A request on its own goes through the three parts in order. *)
Definition start_conc (i : I) (s : S) : idem_conc I S :=
  {| ic_store := i; ic_state := s; ic_tasks := [] |}.

(** ** What is observed of a key *)

#[export] Instance under_key_dec k r : Decision (under_key k r).
Proof. unfold under_key. apply _. Defined.

(** The answer of the lookup of a request under [k]. *)
Definition looks_at (k : string) ev c : list (option (IdemEntry body)) :=
  match ev with
  | ELook now r =>
      if decide (under_key k r) then
        match (idem_lookup now r (ic_store c)).1 with
        | LookReplay e => [Some e]
        | _ => [None]
        end
      else []
  | _ => []
  end.

Fixpoint lookups (k : string) es c : list (option (IdemEntry body)) :=
  match es with
  | [] => []
  | ev :: es' => looks_at k ev c ++ match idem_fire ev c with Some c' => lookups k es' c' | None => [] end
  end.

Definition keeps_under (k : string) ev c : bool :=
  match ev with
  | EKeep g _ _ =>
      match ic_tasks c !! g with
      | Some (TKeep scoped _ _) => bool_decide (scoped = k)
      | _ => false
      end
  | _ => false
  end.

(** No response is stored under [k]. *)
Fixpoint keeps_nothing (k : string) es c : bool :=
  match es with
  | [] => true
  | ev :: es' =>
      negb (keeps_under k ev c) &&
      match idem_fire ev c with Some c' => keeps_nothing k es' c' | None => true end
  end.

Definition waits_under (k : string) (t : task) : Prop :=
  match t with TRun _ (Some scoped) => scoped = k | _ => False end.

#[export] Instance waits_under_dec k t : Decision (waits_under k t).
Proof. destruct t as [r [scoped|]| |]; simpl; apply _. Defined.

(** How often a handler is run under [k]. *)
Definition runs_at (k : string) ev c : nat :=
  match ev with
  | ERun g _ =>
      match ic_tasks c !! g with
      | Some t => if decide (waits_under k t) then 1 else 0
      | None => 0
      end
  | _ => 0
  end.

Fixpoint runs_under (k : string) es c : nat :=
  match es with
  | [] => 0
  | ev :: es' => runs_at k ev c + match idem_fire ev c with Some c' => runs_under k es' c' | None => 0 end
  end.

(** The readings of the clock never go back. *)
Definition event_clock (t : time) ev : Prop :=
  match ev with
  | ELook now _ => t <= now
  | ERun _ _ => True
  | EKeep _ now1 now2 => t <= now1 <= now2
  end.

Definition event_end (t : time) ev : time :=
  match ev with ELook now _ => now | ERun _ _ => t | EKeep _ _ now2 => now2 end.

Fixpoint events_clock (t : time) es : Prop :=
  match es with
  | [] => True
  | ev :: es' => event_clock t ev ∧ events_clock (event_end t ev) es'
  end.

Definition events_end (t : time) es : time := foldl event_end t es.
End interleaving.

(** ** Facts *)

Section facts.
Context {I S : Type} `{!IdemStore body I, !IdemStoreLaws body I, !IdemUp body I}.
Implicit Types (c : idem_conc I S) (ev : idem_event S) (es : list (idem_event S)).

Lemma idem_lookup_state now r (i : I) t k :
  idem_up i now → now <= t →
  let i' := (idem_lookup now r i).2 in
  idem_up i' now ∧ idem_ttl i' = idem_ttl i ∧ shown i' t k = shown i t k.
Proof.
  intros Hup Ht. unfold idem_lookup. destruct (idem_skips r); [done|].
  set (scoped := scopedIdempotencyKey _ _).
  destruct (Get_up scoped now i Hup) as [_ Hup'].
  destruct (Get_frame scoped now i k t Ht) as [Hs Httl].
  by destruct (Idem_Get scoped now i) as [[[]|?|?] i'].
Qed.

Lemma idem_lookup_answer now r (i : I) k :
  idem_up i now → under_key k r →
  (idem_lookup now r i).1 = match shown i now k with Some e => LookReplay e | None => LookMiss k end.
Proof.
  intros Hup [Hskip Hk]. unfold idem_lookup. rewrite Hskip, Hk.
  destruct (Get_up k now i Hup) as [Hok _].
  destruct (Idem_Get k now i) as [[o|?|?] i'] eqn:E; [|done..].
  apply Get_shown in E as ->. by destruct (shown i now k).
Qed.

Lemma idem_keep_state scoped e now1 now2 (i : I) :
  idem_up i now2 →
  (idem_keep scoped e now1 now2 i).2 = (Idem_Set scoped e now1 now2 i).2 ∧
  Idem_Set scoped e now1 now2 i = (Ok tt, (Idem_Set scoped e now1 now2 i).2).
Proof.
  intros Hup. destruct (Set_up scoped e now1 now2 i Hup) as [Hok _]. unfold idem_keep.
  by destruct (Idem_Set scoped e now1 now2 i) as [[[]|?|?] i'].
Qed.

(** A step that stores nothing under [k] leaves what the store shows under it. *)
Lemma idem_fire_frame ev c c' t k :
  idem_fire ev c = Some c' → event_clock t ev → idem_up (ic_store c) t →
  t <= event_end t ev ∧ idem_up (ic_store c') (event_end t ev) ∧
  idem_ttl (ic_store c') = idem_ttl (ic_store c) ∧
  (keeps_under k ev c = false → ∀ t', event_end t ev <= t' →
     shown (ic_store c') t' k = shown (ic_store c) t' k).
Proof.
  destruct ev as [now r|g next|g now1 now2]; cbn [idem_fire event_clock event_end keeps_under]; intros Hf Hc Hup.
  - apply (idem_up_later _ _ _ Hc) in Hup. split; [done|].
    destruct (idem_lookup now r (ic_store c)) as [l i'] eqn:E. injection Hf as <-. cbn [ic_store].
    change i' with (l, i').2. rewrite <- E.
    destruct (idem_lookup_state now r (ic_store c) now k Hup) as (Hup' & Httl & _); [lia|].
    split; [done|]. split; [done|]. intros _ t' Ht'. by apply idem_lookup_state.
  - split; [lia|]. destruct (ic_tasks c !! g) as [[r [scoped|]| |]|]; [| |done..].
    + destruct (idem_handle next r (ic_state c)) as [[[out why] e] s']. injection Hf as <-. done.
    + destruct (next r (ic_state c)) as [[cmds why] s']. injection Hf as <-. done.
  - destruct Hc as [H1 H2]. apply (idem_up_later _ _ now2) in Hup; [|lia]. split; [lia|].
    destruct (ic_tasks c !! g) as [[|scoped e out|]|]; [done| |done..].
    destruct (idem_keep_state scoped e now1 now2 (ic_store c) Hup) as [Hi _].
    destruct (idem_keep scoped e now1 now2 (ic_store c)) as [why i'].
    injection Hf as <-. cbn [ic_store set_task snd] in *. subst i'. split; [by apply Set_up|].
    split; [apply Set_ttl|]. intros Hk%bool_decide_eq_false t' Ht'. by apply Set_frame.
Qed.

Lemma events_end_le t es : events_clock t es → t <= events_end t es.
Proof.
  revert t. induction es as [|ev es IH]; intros t; [cbn; lia|]. cbn [events_clock]. intros [Hc Hes].
  unfold events_end. cbn [foldl]. specialize (IH _ Hes). unfold events_end in IH.
  destruct ev; cbn [event_clock event_end] in *; lia.
Qed.

Lemma looks_at_shown k ev c t o :
  event_clock t ev → idem_up (ic_store c) t → o ∈ looks_at k ev c →
  o = shown (ic_store c) (event_end t ev) k.
Proof.
  destruct ev as [now r| |]; cbn [event_clock looks_at event_end];
    [|by intros _ _ ?%elem_of_nil..]. intros Hc Hup. case_decide as Hk; [|by intros ?%elem_of_nil].
  rewrite (idem_lookup_answer now r _ k) by (try done; by eapply idem_up_later).
  by destruct (shown _ _ k); intros ->%list_elem_of_singleton.
Qed.

(** As long as nothing is stored under [k], every lookup misses. *)
Lemma lookups_miss k es c c' t :
  idem_fire_all es c = Some c' → events_clock t es → idem_up (ic_store c) t →
  shown (ic_store c) t k = None → keeps_nothing k es c = true →
  Forall (λ o, o = None) (lookups k es c) ∧ idem_up (ic_store c') (events_end t es) ∧
  idem_ttl (ic_store c') = idem_ttl (ic_store c) ∧ shown (ic_store c') (events_end t es) k = None.
Proof.
  revert c t. induction es as [|ev es IH]; intros c t Hrun Hc Hup Hnone Hkeep.
  { injection Hrun as <-. by split_and!. }
  cbn [idem_fire_all events_clock lookups keeps_nothing] in *. destruct Hc as [Hev Hes].
  apply andb_prop in Hkeep as [Hk%negb_true_iff Hkeep].
  destruct (idem_fire ev c) as [c1|] eqn:Hf; [|done]. cbn in Hrun.
  destruct (idem_fire_frame ev c c1 t k Hf Hev Hup) as (Hle & Hup1 & Httl & Hframe).
  assert (shown (ic_store c) (event_end t ev) k = None) as Hnone' by by eapply shown_expired.
  destruct (IH c1 (event_end t ev)) as (Hl & Hup' & Httl' & Hn); [done|done|done| |done|].
  { by rewrite Hframe. }
  unfold events_end in *. cbn [foldl]. split_and!; [|done|by rewrite Httl'|done].
  apply Forall_app. split; [|done]. apply Forall_forall. intros o Ho.
  by rewrite (looks_at_shown k ev c t o).
Qed.

(** Once an entry is stored, every lookup before it expires finds that entry. *)
Lemma lookups_hit k e es c c' t until :
  idem_fire_all es c = Some c' → events_clock t es → idem_up (ic_store c) t →
  (∀ t', t <= t' <= until → shown (ic_store c) t' k = Some e) → events_end t es < until →
  Forall (λ o, o = Some e) (lookups k es c).
Proof.
  revert c t. induction es as [|ev es IH]; intros c t Hrun Hc Hup Hs Hend; [constructor|].
  cbn [idem_fire_all events_clock lookups] in *. destruct Hc as [Hev Hes].
  destruct (idem_fire ev c) as [c1|] eqn:Hf; [|done]. cbn in Hrun.
  destruct (idem_fire_frame ev c c1 t k Hf Hev Hup) as (Hle & Hup1 & _ & Hframe).
  pose proof (events_end_le _ _ Hes) as Hle'. unfold events_end in *. cbn [foldl] in *.
  apply Forall_app. split.
  { apply Forall_forall. intros o Ho. rewrite (looks_at_shown k ev c t o) by done. apply Hs. lia. }
  apply (IH c1 (event_end t ev)); [done..| |done]. intros t' Ht'.
  destruct (keeps_under k ev c) eqn:Hk; [|rewrite Hframe by (done || lia); apply Hs; lia].
  destruct ev as [| |g now1 now2]; [done..|]. cbn [keeps_under idem_fire event_end event_clock] in *.
  destruct (ic_tasks c !! g) as [[|scoped e' out|]|]; [done| |done..].
  apply bool_decide_eq_true in Hk as ->.
  destruct (idem_keep_state k e' now1 now2 (ic_store c)) as [Hi _]; [by apply (idem_up_later _ t); [lia|]|].
  destruct (idem_keep k e' now1 now2 (ic_store c)) as [why i'].
  injection Hf as <-. cbn [ic_store set_task snd] in *. subst i'.
  rewrite (Set_keeps k e' now1 now2 until) by (rewrite ?Hs; eauto; lia). apply Hs. lia.
Qed.
End facts.

(** ** Handlers run for the lookups that miss *)

Section runs.
Context {I S : Type} `{!IdemStore body I}.
Implicit Types (c : idem_conc I S) (ev : idem_event S) (es : list (idem_event S)).

Lemma lookups_app k es1 es2 c c1 :
  idem_fire_all es1 c = Some c1 → lookups k (es1 ++ es2) c = lookups k es1 c ++ lookups k es2 c1.
Proof.
  revert c. induction es1 as [|ev es1 IH]; intros c Hrun; [by injection Hrun as ->|].
  cbn [idem_fire_all lookups app] in *. destruct (idem_fire ev c) as [c'|]; [|done].
  by rewrite (IH c') by done; rewrite <- app_assoc.
Qed.

Lemma idem_fire_all_app es1 es2 c c1 :
  idem_fire_all es1 c = Some c1 → idem_fire_all (es1 ++ es2) c = idem_fire_all es2 c1.
Proof.
  revert c. induction es1 as [|ev es1 IH]; intros c; cbn [idem_fire_all app]; [by intros [= ->]|].
  destruct (idem_fire ev c); [apply IH|done].
Qed.

Lemma events_clock_app t es1 es2 :
  events_clock t (es1 ++ es2) ↔ events_clock t es1 ∧ events_clock (events_end t es1) es2.
Proof.
  revert t. induction es1 as [|ev es1 IH]; intros t; [cbn; tauto|].
  cbn [app events_clock]. rewrite IH. unfold events_end. cbn [foldl]. tauto.
Qed.

Definition misses (l : list (option (IdemEntry body))) : nat := count (λ o, o = None) l.

Lemma count_insert_task k l g t t' :
  l !! g = Some t → ¬ waits_under k t' →
  ((if decide (waits_under k t) then 1 else 0) + count (waits_under k) (<[g := t']> l) =
   count (waits_under k) l)%nat.
Proof.
  intros Hg Ht'. rewrite (insert_take_drop _ _ _ (lookup_lt_Some _ _ _ Hg)).
  rewrite <- (take_drop_middle l g t Hg) at 3. rewrite !count_app, !count_cons.
  rewrite (decide_False (P := waits_under k t')) by done. lia.
Qed.

Lemma runs_at_bound k ev c c' :
  idem_fire ev c = Some c' →
  (runs_at k ev c + count (waits_under k) (ic_tasks c') <=
   count (waits_under k) (ic_tasks c) + misses (looks_at k ev c))%nat.
Proof.
  unfold misses. destruct ev as [now r|g next|g now1 now2]; cbn [idem_fire runs_at looks_at].
  - destruct (idem_lookup now r (ic_store c)) as [l i'] eqn:E. intros [= <-]. cbn [ic_tasks fst].
    rewrite count_app, count_cons. unfold count at 2. cbn [filter list_filter length].
    destruct (decide (waits_under k (looked_task r l))) as [Hw|]; [|lia].
    destruct l as [|e|scoped|p]; cbn [looked_task waits_under] in Hw; [done|done| |done]. subst scoped.
    destruct (decide (under_key k r)) as [|Hno]; [rewrite count_cons, decide_True by done; lia|].
    destruct Hno. unfold idem_lookup in E. destruct (idem_skips r) eqn:Hskip; [done|]. split; [done|].
    destruct (Idem_Get _ _ _) as [[[]|?|?] ?]; by simplify_eq.
  - destruct (ic_tasks c !! g) as [[r [scoped|]| |]|] eqn:Hg; [| |done..].
    + destruct (idem_handle next r (ic_state c)) as [[[out why] e] s']. intros [= <-]. cbn [ic_tasks set_task].
      rewrite (count_insert_task k _ g _ _ Hg) by (intros Hw; by destruct why). cbn. lia.
    + destruct (next r (ic_state c)) as [[cmds why] s']. intros [= <-]. cbn [ic_tasks set_task].
      rewrite (count_insert_task k _ g _ _ Hg) by (intros Hw; exact Hw). cbn. lia.
  - destruct (ic_tasks c !! g) as [[|scoped e out|]|] eqn:Hg; [done| |done..].
    destruct (idem_keep scoped e now1 now2 (ic_store c)) as [why i']. intros [= <-]. cbn [ic_tasks set_task].
    rewrite <- (count_insert_task k _ g _ (TDone out why false) Hg) by (intros Hw; exact Hw). cbn. lia.
Qed.

Lemma runs_bound k es c c' :
  idem_fire_all es c = Some c' →
  (runs_under k es c <= count (waits_under k) (ic_tasks c) + misses (lookups k es c))%nat.
Proof.
  revert c. induction es as [|ev es IH]; intros c Hrun; [cbn; lia|].
  cbn [idem_fire_all runs_under lookups] in *. destruct (idem_fire ev c) as [c1|] eqn:Hf; [|done].
  apply IH in Hrun. apply (runs_at_bound k) in Hf. unfold misses in *. rewrite count_app. lia.
Qed.

(** Handlers that send final statuses only. *)
Definition sends_final ev : Prop :=
  match ev with ERun _ next => ∀ r s, Forall final_cmd (next r s).1.1 | _ => True end.

(** What waits to be stored replays as what was sent. *)
Definition as_sent (t : task) : Prop :=
  match t with TKeep _ e out => render (replay_cmds e) = replayed (render out) | _ => True end.

Lemma as_sent_fire ev c c' :
  sends_final ev → idem_fire ev c = Some c' → Forall as_sent (ic_tasks c) → Forall as_sent (ic_tasks c').
Proof.
  destruct ev as [now r|g next|g now1 now2]; cbn [idem_fire sends_final]; intros Hfin Hf Hall.
  - destruct (idem_lookup now r (ic_store c)) as [l i']. injection Hf as <-. cbn [ic_tasks].
    apply Forall_app_2; [done|]. constructor; [by destruct l|constructor].
  - destruct (ic_tasks c !! g) as [[r [scoped|]| |]|]; [| |done..].
    + unfold idem_handle in Hf. specialize (Hfin r (ic_state c)).
      destruct (next r (ic_state c)) as [[cmds why] s']. pose proof (rec_run_transparent cmds Hfin) as Hrec.
      destruct (rec_run rec_init cmds) as [w out]. destruct Hrec as (Hr & Hst & Hb & Hge).
      injection Hf as <-. cbn [ic_tasks set_task]. apply Forall_insert; [done|].
      destruct why; [done|]. cbn [as_sent]. rewrite render_replay by done. cbn [IdemStatus IdemBody].
      unfold replayed. by rewrite Hr, Hst, Hb.
    + destruct (next r (ic_state c)) as [[cmds why] s']. injection Hf as <-. cbn [ic_tasks set_task].
      by apply Forall_insert.
  - destruct (ic_tasks c !! g) as [[|scoped e out|]|]; [done| |done..].
    destruct (idem_keep _ _ _ _ _) as [why i']. injection Hf as <-. cbn [ic_tasks set_task].
    by apply Forall_insert.
Qed.

Lemma as_sent_all es c c' :
  Forall sends_final es → idem_fire_all es c = Some c' → Forall as_sent (ic_tasks c) →
  Forall as_sent (ic_tasks c').
Proof.
  intros Hfin. revert c. induction Hfin as [|ev es Hev _ IH]; intros c Hrun Hc; [by injection Hrun as ->|].
  cbn [idem_fire_all] in Hrun. destruct (idem_fire ev c) as [c1|] eqn:Hf; [|done].
  apply (IH c1 Hrun). by eapply as_sent_fire.
Qed.
End runs.

(** ** The property *)

Section property.
Context {I S : Type} `{!IdemStore body I, !IdemStoreLaws body I, !IdemUp body I}.

(** C19. Concurrent duplicates. With a store that keeps its contract and answers, and
    requests interleaving in any way: let the response [e] of some request be the
    first that is stored under a key. Until it expires, every request under the
    key that is looked up after that moment is answered by the replay of the very
    response that was sent to the first, and runs no handler; the requests looked
    up before that moment are those, and only those, that may run the handler,
    each once. (So when no duplicate arrives before the first response is
    stored, the handler runs once; [overlapping_duplicates] shows that otherwise it
    may run again.) *)
Theorem concurrent_replays (k : string) (es1 es2 : list (idem_event S)) (g : nat) (now1 now2 t : time)
    (i : I) (s : S) (c1 c2 : idem_conc I S) (e : IdemEntry body) (out : list wcmd)
    (Hup : idem_up i t) (Hnone : shown i t k = None)
    (Hrun1 : idem_fire_all es1 (start_conc i s) = Some c1)
    (Hfirst : keeps_nothing k es1 (start_conc i s) = true)
    (Htask : ic_tasks c1 !! g = Some (TKeep k e out))
    (Hrun2 : idem_fire_all (EKeep g now1 now2 :: es2) c1 = Some c2)
    (Hfinal : Forall sends_final es1)
    (Hclock : events_clock t (es1 ++ EKeep g now1 now2 :: es2))
    (Hend : events_end t (es1 ++ EKeep g now1 now2 :: es2) < now2 + idem_ttl i) :
  Forall (λ o, o = None) (lookups k es1 (start_conc i s)) ∧
  Forall (λ o, o = Some e) (lookups k (EKeep g now1 now2 :: es2) c1) ∧
  render (replay_cmds e) = replayed (render out) ∧
  (runs_under k (es1 ++ EKeep g now1 now2 :: es2) (start_conc i s) <=
   length (lookups k es1 (start_conc i s)))%nat.
Proof.
  apply events_clock_app in Hclock as [Hc1 Hc2]. unfold events_end in Hend. rewrite foldl_app in Hend.
  fold (events_end t es1) in Hend. cbn [foldl event_end] in Hend.
  destruct (lookups_miss k es1 (start_conc i s) c1 t Hrun1 Hc1 Hup Hnone Hfirst) as (Hmiss & Hup1 & Httl & Hnone1).
  cbn [events_clock event_clock event_end] in Hc2. destruct Hc2 as [[Ht1 Ht2] Hc2].
  assert (Forall (λ o, o = Some e) (lookups k (EKeep g now1 now2 :: es2) c1)) as Hhit.
  { cbn [lookups looks_at app idem_fire_all idem_fire] in *. rewrite Htask in *.
    apply (idem_up_later _ _ now2) in Hup1; [|lia].
    destruct (idem_keep_state k e now1 now2 (ic_store c1) Hup1) as [Hi Hset].
    destruct (idem_keep k e now1 now2 (ic_store c1)) as [why i']. cbn in Hi, Hrun2. subst i'.
    eapply (lookups_hit k e es2 _ c2 now2 (now2 + idem_ttl i)); [done|done| | |done].
    - cbn. by apply Set_up.
    - cbn. intros t' Ht'. eapply Set_fresh; [exact Hset| |done|by rewrite Httl].
      by eapply shown_expired. }
  split_and!; [done|done| |].
  - pose proof (as_sent_all es1 _ _ Hfinal Hrun1 (Forall_nil_2 _)) as Hsent.
    by apply (Forall_lookup_1 _ _ _ _ Hsent Htask).
  - assert (idem_fire_all (es1 ++ EKeep g now1 now2 :: es2) (start_conc i s) = Some c2) as Hrun.
    { by rewrite (idem_fire_all_app _ _ _ _ Hrun1). }
    apply (runs_bound k) in Hrun. rewrite (lookups_app k es1 _ _ c1 Hrun1) in Hrun.
    unfold misses in Hrun. rewrite count_app in Hrun. cbn [start_conc ic_tasks] in Hrun.
    unfold count at 1 in Hrun. cbn [filter list_filter length] in Hrun.
    rewrite (count_all (λ o, o = None) (lookups k es1 _)) in Hrun by done.
    rewrite (count_none (λ o, o = None) (lookups k (EKeep g now1 now2 :: es2) c1)) in Hrun; [lia|].
    eapply Forall_impl; [exact Hhit|]. by intros o ->.
Qed.
End property.

(** ** Two duplicates that overlap *)

(** A second request under the key is looked up while the first one's handler runs;
    a third comes after the first response is stored. *)
Definition overlap_before : list (idem_event Z) :=
  [ELook 0 keyed; ERun 0 counting; ELook 5 keyed; ERun 1 counting].

Definition overlap_after : list (idem_event Z) := [EKeep 1 8 8; ELook 40 keyed].

Definition overlap_start : idem_conc (InmemStore body) Z := start_conc demo_store 7.

Definition overlap_middle : idem_conc (InmemStore body) Z :=
  default overlap_start (idem_fire_all overlap_before overlap_start).

(** The response of the first request, and what is stored of it. *)
Definition overlap_out : list wcmd := (idem_handle counting keyed 7).1.1.1.
Definition overlap_entry : IdemEntry body := (idem_handle counting keyed 7).1.2.

(** The handler has run twice, under one key; the third request gets the response
    of the first. *)
Example overlapping_duplicates :
  (ic_state <$> idem_fire_all (overlap_before ++ EKeep 0 6 6 :: overlap_after) overlap_start) = Some 9 ∧
  runs_under "anon:k1" (overlap_before ++ EKeep 0 6 6 :: overlap_after) overlap_start = 2%nat ∧
  lookups "anon:k1" (overlap_before ++ EKeep 0 6 6 :: overlap_after) overlap_start =
    [None; None; Some overlap_entry].
Proof. vm_compute. done. Qed.

Lemma counting_final r n : Forall final_cmd (counting r n).1.1.
Proof. constructor; [simpl; lia|repeat constructor]. Qed.

Lemma concurrent_replays_witness :
  lookups "anon:k1" (EKeep 0 6 6 :: overlap_after) overlap_middle = [Some overlap_entry] ∧
  render (replay_cmds overlap_entry) = replayed (render overlap_out) ∧
  Forall (λ o, o = Some overlap_entry) (lookups "anon:k1" (EKeep 0 6 6 :: overlap_after) overlap_middle).
Proof.
  assert (Hrun2 : is_Some (idem_fire_all (EKeep 0 6 6 :: overlap_after) overlap_middle))
    by (vm_compute; by eexists).
  destruct Hrun2 as [c2 Hrun2].
  pose proof (concurrent_replays "anon:k1" overlap_before overlap_after 0 6 6 0 demo_store 7
    overlap_middle c2 overlap_entry overlap_out I eq_refl ltac:(vm_compute; reflexivity)
    ltac:(vm_compute; reflexivity) ltac:(vm_compute; reflexivity) Hrun2) as Hspec.
  destruct Hspec as (_ & Hhit & Hsame & _).
  - repeat (apply Forall_cons_2; [first [exact I | exact counting_final]|]). apply Forall_nil_2.
  - cbn. lia.
  - cbn. lia.
  - split; [vm_compute; reflexivity|]. split; [exact Hsame|exact Hhit].
Defined.
