(* ===== verification/AppError.v ===== *)
(** * Application errors and their responses

    Models [internal/apperror]: the error type is [AppErrorOf error] of
    [GoLang]; here are its constructors, the mapping to statuses and the
    response written for any error. *)

From S2P Require Import GoLang Auth Http.

Definition AppError : Type := AppErrorOf error.

Definition CodeValidation : string := "VALIDATION_FAILED".
Definition CodeNotFound : string := "NOT_FOUND".
Definition CodeConflict : string := "CONFLICT".
Definition CodeInternal : string := "INTERNAL".

(** ** Constructors *)

Definition Validation (msg : string) (fields : list FieldError) : error :=
  ErrApp {| Code := CodeValidation; Message := msg; Fields := fields; cause := None |}.
Definition NotFound (resource id : string) : error :=
  ErrApp {| Code := CodeNotFound; Message := resource +:+ " not found: " +:+ id;
            Fields := []; cause := None |}.
Definition Conflict (msg : string) : error :=
  ErrApp {| Code := CodeConflict; Message := msg; Fields := []; cause := None |}.
Definition Internal (msg : string) (cause : error) : error :=
  ErrApp {| Code := CodeInternal; Message := msg; Fields := []; cause := Some cause |}.

(** ** Responses *)

Definition StatusOf (e : AppError) : Z :=
  if bool_decide (Code e = CodeValidation) then 400
  else if bool_decide (Code e = CodeNotFound) then 404
  else if bool_decide (Code e = CodeConflict) then 409
  else 500.

(** The JSON form of an [Error]: empty fields are omitted, the cause is never
    shown. *)
Definition FieldError_json (f : FieldError) : json :=
  JObj [("field", JString (Field f)); ("tag", JString (Tag f));
        ("message", JString (FieldMessage f))].

Definition Error_json (e : AppError) : json :=
  JObj ([("code", JString (Code e)); ("message", JString (Message e))] ++
        match Fields e with
        | [] => []
        | fs => [("fields", JArr (FieldError_json <$> fs))]
        end).

Definition writeAppErr (e : AppError) : list wcmd :=
  [HeaderSet "Content-Type" "application/json"; WriteHeader (StatusOf e)] ++
  Encode (JObj [("error", Error_json e)]).

(** [WriteJSON]: an error without an application error in its chain becomes an
    internal one. *)
Definition WriteJSON (err : error) : list wcmd :=
  match errors_As_App err with
  | Some e => writeAppErr e
  | None =>
      match errors_As_App (Internal "internal error" err) with
      | Some e => writeAppErr e
      | None => []
      end
  end.

(** ** Facts *)

(** The response to an application error. *)
Definition error_response (e : AppError) : Response :=
  {| RespStatus := StatusOf e; RespHeader := {["Content-Type" := "application/json"]};
     RespBody := [JObj [("error", Error_json e)]] |}.

Lemma StatusOf_cases e : StatusOf e = 400 ∨ StatusOf e = 404 ∨ StatusOf e = 409 ∨ StatusOf e = 500.
Proof. unfold StatusOf. repeat case_bool_decide; tauto. Qed.

Lemma render_writeAppErr e : render (writeAppErr e) = error_response e.
Proof.
  unfold render, writeAppErr, error_response. simpl. unfold w_WriteHeader. simpl.
  by destruct (StatusOf_cases e) as [->|[->|[->| ->]]].
Qed.

Lemma render_WriteJSON_App e : render (WriteJSON (ErrApp e)) = error_response e.
Proof. apply render_writeAppErr. Qed.

(** Error responses. Whatever the error, the response is JSON, its status
    is 400, 404, 409 or 500 according to the code it shows, an error that is
    not an application error shows only a generic message, and the text of a
    cause never reaches the client: the response depends on the code, the
    message and the fields alone. *)
Theorem WriteJSON_spec (err : error) :
  ∃ e : AppError, render (WriteJSON err) = error_response e ∧
    RespHeader (render (WriteJSON err)) !! "Content-Type" = Some "application/json" ∧
    (StatusOf e = 400 ↔ Code e = CodeValidation) ∧ (StatusOf e = 404 ↔ Code e = CodeNotFound) ∧
    (StatusOf e = 409 ↔ Code e = CodeConflict) ∧
    (StatusOf e ≠ 400 ∧ StatusOf e ≠ 404 ∧ StatusOf e ≠ 409 → StatusOf e = 500) ∧
    (errors_As_App err = None → Code e = CodeInternal ∧ Message e = "internal error") ∧
    (∀ a, errors_As_App err = Some a → ∀ k, error_response e =
       error_response {| Code := Code a; Message := Message a; Fields := Fields a; cause := k |}).
Proof.
  assert (Hmap : ∀ e : AppError, (StatusOf e = 400 ↔ Code e = CodeValidation) ∧
    (StatusOf e = 404 ↔ Code e = CodeNotFound) ∧ (StatusOf e = 409 ↔ Code e = CodeConflict) ∧
    (StatusOf e ≠ 400 ∧ StatusOf e ≠ 404 ∧ StatusOf e ≠ 409 → StatusOf e = 500)).
  { intros e. pose proof (StatusOf_cases e) as Hc. revert Hc. unfold StatusOf, CodeValidation, CodeNotFound,
      CodeConflict. repeat case_bool_decide; intros Hc; split_and!; try done; try lia;
      split; intros; try done; congruence. }
  unfold WriteJSON. destruct (errors_As_App err) as [a|] eqn:Ha.
  - exists a. rewrite render_writeAppErr. destruct (Hmap a) as (? & ? & ? & ?).
    split_and!; try done. intros a' [= <-] k. by destruct a.
  - exists {| Code := CodeInternal; Message := "internal error"; Fields := []; cause := Some err |}.
    simpl. rewrite render_writeAppErr. by split_and!.
Qed.
