(* ===== verification/Profile.v ===== *)
(** * Profiles: service and in-memory repository

    Models [internal/domain/profile], [internal/service/profile/service.go] and
    [internal/persistence/inmem/profile_repo.go]. The repository stores and
    hands out the pointer it was given; no code writes through it, so a profile
    is a value here. *)

From S2P Require Import GoLang.

Record Profile := { Profile_ID : string; Profile_Name : string; Profile_CreatedAt : time }.

Definition profile_ErrNotFound : error := ErrorsNew "profile.ErrNotFound" "profile not found".
Definition profile_ErrAlreadyExists : error :=
  ErrorsNew "profile.ErrAlreadyExists" "profile already exists".

Class ProfileRepository (S : Type) := {
  Profile_Get : string → M S Profile;
  Profile_Create : Profile → M S unit }.

(** ** The in-memory repository *)

Record ProfileRepo := { pr_items : gmap string Profile }.

Definition NewProfileRepo : ProfileRepo := {| pr_items := ∅ |}.

Definition ProfileRepo_Get (id : string) : M ProfileRepo Profile := λ r,
  (match pr_items r !! id with
   | Some p => Ok p
   | None => Err profile_ErrNotFound
   end, r).

Definition ProfileRepo_Create (p : Profile) : M ProfileRepo unit := λ r,
  match pr_items r !! Profile_ID p with
  | Some _ => (Err profile_ErrAlreadyExists, r)
  | None => (Ok tt, {| pr_items := <[Profile_ID p := p]> (pr_items r) |})
  end.

#[export] Instance inmem_ProfileRepository : ProfileRepository ProfileRepo := {|
  Profile_Get := ProfileRepo_Get;
  Profile_Create := ProfileRepo_Create |}.

(** ** The service *)

Section service.
Context {S : Type} `{!ProfileRepository S}.

Definition ProfileService_GetProfile (id : string) : M S Profile :=
  wrapErr "repo get" (Profile_Get id).

Definition ProfileService_CreateProfile (id name : string) (now : time) : M S Profile :=
  let p := {| Profile_ID := id; Profile_Name := name; Profile_CreatedAt := now |} in
  wrapErr "repo create" (Profile_Create p);;
  mret p.
End service.

(** ** Runs *)

Inductive profile_op :=
  | PCreate (id name : string) (now : time)
  | PGet (id : string).

Section running.
Context {S : Type} `{!ProfileRepository S}.

Definition profile_exec (o : profile_op) (r : S) : result Profile * S :=
  match o with
  | PCreate id name now => ProfileService_CreateProfile id name now r
  | PGet id => ProfileService_GetProfile id r
  end.

Fixpoint profile_run (ops : list profile_op) (r : S) : list (result Profile) * S :=
  match ops with
  | [] => ([], r)
  | o :: ops' =>
      let '(res, r1) := profile_exec o r in
      let '(ress, r2) := profile_run ops' r1 in (res :: ress, r2)
  end.
End running.

(** The creations of an identifier in a run, in order. *)
Definition creations (id : string) (ops : list profile_op) : list Profile :=
  omap (λ o, match o with
             | PCreate id' name now =>
                 if decide (id' = id)
                 then Some {| Profile_ID := id'; Profile_Name := name; Profile_CreatedAt := now |}
                 else None
             | PGet _ => None
             end) ops.

Lemma profile_exec_state o r id :
  pr_items (profile_exec o r).2 !! id =
  match pr_items r !! id with
  | Some p => Some p
  | None => head (creations id [o])
  end.
Proof.
  destruct o as [id' name now|id']; simpl.
  - unfold ProfileService_CreateProfile. rewrite M_bind_eq. unfold wrapErr, Profile_Create. simpl.
    unfold ProfileRepo_Create. simpl. unfold creations. simpl.
    destruct (decide (id' = id)) as [->|Hne].
    + destruct (pr_items r !! id) eqn:H; simpl; [by rewrite H|by rewrite lookup_insert_eq].
    + destruct (pr_items r !! id') eqn:H; simpl; [by destruct (pr_items r !! id)|].
      rewrite lookup_insert_ne by done. by destruct (pr_items r !! id).
  - unfold ProfileService_GetProfile, wrapErr, Profile_Get. simpl. unfold ProfileRepo_Get.
    destruct (pr_items r !! id'); simpl; by destruct (pr_items r !! id).
Qed.

Lemma profile_run_state ops r id :
  pr_items (profile_run ops r).2 !! id =
  match pr_items r !! id with
  | Some p => Some p
  | None => head (creations id ops)
  end.
Proof.
  revert r. induction ops as [|o ops IH]; intros r; cbn [profile_run].
  { simpl. by destruct (pr_items r !! id). }
  pose proof (profile_exec_state o r id) as Ho.
  destruct (profile_exec o r) as [res r1]. specialize (IH r1).
  destruct (profile_run ops r1) as [ress r2]. simpl in *. rewrite IH, Ho.
  destruct (pr_items r !! id); [done|]. unfold creations.
  destruct o as [id' name now|]; simpl; [by destruct (decide (id' = id))|done].
Qed.

(** First registration wins. From an empty repository, after any run of the
    service, a profile is found exactly when its identifier was created, and it
    is the one of the first creation, name and instant included; creating the
    identifier again is refused with [ErrAlreadyExists], asking for any other
    gives [ErrNotFound], and both leave the store as it is. *)
Theorem profile_first_wins (ops : list profile_op) (id name : string) (now : time) :
  let r := (profile_run ops NewProfileRepo).2 in
  match head (creations id ops) with
  | Some p =>
      ProfileService_GetProfile id r = (Ok p, r) ∧ Profile_ID p = id ∧
      ∃ e, ProfileService_CreateProfile id name now r = (Err e, r) ∧
        errors_Is e profile_ErrAlreadyExists = true
  | None =>
      (∃ e, ProfileService_GetProfile id r = (Err e, r) ∧ errors_Is e profile_ErrNotFound = true) ∧
      is_Ok (ProfileService_CreateProfile id name now r).1 = true
  end.
Proof.
  intros r. pose proof (profile_run_state ops NewProfileRepo id) as Hr. fold r in Hr.
  simpl in Hr. rewrite lookup_empty in Hr.
  unfold ProfileService_GetProfile, ProfileService_CreateProfile. rewrite M_bind_eq.
  unfold wrapErr, Profile_Get, Profile_Create. simpl. unfold ProfileRepo_Get, ProfileRepo_Create.
  simpl. rewrite Hr. destruct (head (creations id ops)) as [p|] eqn:Hc.
  - split_and!; [done| |eexists; split; [done|by autorewrite with go]].
    clear Hr. unfold creations in Hc. induction ops as [|[id' n t|id'] ops IH]; simpl in Hc; [done| |].
    + destruct (decide (id' = id)) as [->|]; [by injection Hc as <-|eauto].
    + eauto.
  - split; [|done]. eexists. split; [done|by autorewrite with go].
Qed.
