(* ===== verification/Decode.v ===== *)
(** * Request decoding and validation

    The reading of request bodies ([json.NewDecoder(r.Body).Decode] into a
    struct), of integer query parameters ([strconv.Atoi]), and of the
    [validate] tags, with the translation of validation errors in
    [internal/endpoint/profile.go]. The validator itself is the library
    [go-playground/validator]: an interface with its documented meaning. *)

From S2P Require Import GoLang Strconv Auth Http AppError Event.
From stdpp Require Import pretty.
#[local] Open Scope Z_scope.

(** ** Decoding into structs *)

(** What decoding needs of other standard packages: [time.Time.UnmarshalJSON]
    and the text of a type error. *)
Class GoJson := {
  parse_time : string → option time;
  unmarshal_error : json → string }.

(** Keys match field names up to case; two characters outside ASCII fold to an
    ASCII letter, long s and the Kelvin sign. *)
Fixpoint fold_name (s : string) : string :=
  match s with
  | "" => ""
  | String c s' =>
      match nat_of_ascii c, s' with
      | 0xC5%nat, String d s'' =>
          if bool_decide (nat_of_ascii d = 0xBF%nat) then String "s" (fold_name s'')
          else String c (fold_name s')
      | 0xE2%nat, String d (String e s'') =>
          if bool_decide (nat_of_ascii d = 0x84%nat ∧ nat_of_ascii e = 0xAA%nat)
          then String "k" (fold_name s'')
          else String c (fold_name s')
      | _, _ => String (to_lower c) (fold_name s')
      end
  end.

(** The values of an object for a field, in order. *)
Definition members (name : string) (fields : list (string * json)) : list json :=
  omap (λ '(k, v), if bool_decide (fold_name k = fold_name name) then Some v else None) fields.

(** A struct accepts an object, and null as an object without members. *)
Definition obj_fields (j : json) : option (list (string * json)) :=
  match j with
  | JObj fields => Some fields
  | JNull => Some []
  | _ => None
  end.

(** The last value counts, null changes nothing, a value of another type is an
    error. *)
Fixpoint field_string (vs : list json) (cur : string) : option string :=
  match vs with
  | [] => Some cur
  | JNull :: vs' => field_string vs' cur
  | JString s :: vs' => field_string vs' s
  | _ => None
  end.

Fixpoint field_int (vs : list json) (cur : Z) : option Z :=
  match vs with
  | [] => Some cur
  | JNull :: vs' => field_int vs' cur
  | JNum z :: vs' =>
      if (- int64_half <=? z) && (z <? int64_half) then field_int vs' z else None
  | _ => None
  end.

Fixpoint field_bool (vs : list json) (cur : bool) : option bool :=
  match vs with
  | [] => Some cur
  | JNull :: vs' => field_bool vs' cur
  | JBool b :: vs' => field_bool vs' b
  | _ => None
  end.

Fixpoint field_time `{!GoJson} (vs : list json) (cur : time) : option time :=
  match vs with
  | [] => Some cur
  | JNull :: vs' => field_time vs' cur
  | JString s :: vs' => t ← parse_time s; field_time vs' t
  | _ => None
  end.

(** Element [i] of an array is decoded into the element that is there, if any,
    else into a zero value. *)
Fixpoint decode_elems {A} (elem : A → json → option A) (zero : A) (l : list json) (old : list A)
    : option (list A) :=
  match l with
  | [] => Some []
  | j :: l' =>
      a ← elem (hd zero old) j;
      rest ← decode_elems elem zero l' (tail old);
      Some (a :: rest)
  end.

(** [spare] are the elements of the slice beyond its length: a second array
    for the field is decoded over the first. Null and the empty array give a
    fresh slice. *)
Fixpoint field_list {A} (elem : A → json → option A) (zero : A) (vs : list json)
    (cur spare : list A) : option (list A) :=
  match vs with
  | [] => Some cur
  | JNull :: vs' | JArr [] :: vs' => field_list elem zero vs' [] []
  | JArr l :: vs' =>
      l' ← decode_elems elem zero l (cur ++ spare);
      field_list elem zero vs' l' (drop (length l) (cur ++ spare))
  | _ => None
  end.

(** [json.NewDecoder(r.Body).Decode(&req)]. *)
Definition DecodeBody {T} `{!GoJson} (decode : json → option T) (r : Request) : result T :=
  match ReqBody r with
  | Ok j =>
      match decode j with
      | Some req => Ok req
      | None => Err (ErrorsNew "json.UnmarshalTypeError" (unmarshal_error j))
      end
  | Err e => Err e
  | Panic w => Panic w
  end.

(** A decoder for bodies without instants. *)
Definition no_times : GoJson :=
  {| parse_time _ := None; unmarshal_error _ := "json: cannot unmarshal" |}.

(** ** Integers in query parameters *)

Definition parseIntQueryDefault (r : Request) (key : string) (def : Z) : Z :=
  let raw := Query_Get r key in
  if bool_decide (raw = "") then def else default def (Atoi raw).

(** ** Validation *)

Inductive vvalue := VString (s : string) | VInt (z : Z) | VTime (t : time).
Inductive vtag := TRequired | TMin (n : Z) | TMax (n : Z).

(** A struct field with its JSON name and its [validate] tags; the fields of
    the elements of a [dive] slice follow in order. *)
Record vfield := { vf_name : string; vf_value : vvalue; vf_tags : list vtag }.

(** [validator.FieldError]. *)
Record fieldErr := { fe_Field : string; fe_Tag : string; fe_Param : string }.

Class Vldtr := { vldtr_Struct : list vfield → list fieldErr }.

(** The length of a string in characters: its bytes but the continuation
    bytes of UTF-8. *)
Fixpoint rune_count (s : string) : Z :=
  match s with
  | "" => 0
  | String c s' =>
      (if (128 <=? nat_of_ascii c)%nat && (nat_of_ascii c <=? 191)%nat then 0 else 1) + rune_count s'
  end.

(** What the documentation says a tag demands. *)
Definition tag_ok (v : vvalue) (t : vtag) : bool :=
  match t, v with
  | TRequired, VString s => negb (bool_decide (s = ""))
  | TRequired, VInt z => negb (z =? 0)
  | TRequired, VTime t => negb (t =? zero_time)
  | TMin n, VString s => n <=? rune_count s
  | TMin n, VInt z => n <=? z
  | TMax n, VString s => rune_count s <=? n
  | TMax n, VInt z => z <=? n
  | _, VTime _ => true
  end.

Definition tag_name (t : vtag) : string :=
  match t with TRequired => "required" | TMin _ => "min" | TMax _ => "max" end.
Definition tag_param (t : vtag) : string :=
  match t with TRequired => "" | TMin n => pretty n | TMax n => pretty n end.

(** The tags of a field are tried in order up to the first that fails. *)
Definition first_failure (f : vfield) : option fieldErr :=
  t ← head (filter (λ t, tag_ok (vf_value f) t = false) (vf_tags f));
  Some {| fe_Field := vf_name f; fe_Tag := tag_name t; fe_Param := tag_param t |}.

(** Every field that fails is reported once, in order. *)
Class VldtrLaws `{!Vldtr} :=
  vldtr_reports : ∀ fs, vldtr_Struct fs = omap first_failure fs.

Definition reference_vldtr : Vldtr := {| vldtr_Struct fs := omap first_failure fs |}.
Definition reference_vldtr_laws : @VldtrLaws reference_vldtr := λ fs, reflexivity _.

(** ** Validation errors as responses *)

Definition humanizeFieldError (fe : fieldErr) : string :=
  if bool_decide (fe_Tag fe = "required") then fe_Field fe +:+ " is required"
  else if bool_decide (fe_Tag fe = "min") then
    fe_Field fe +:+ " is too short (min=" +:+ fe_Param fe +:+ ")"
  else if bool_decide (fe_Tag fe = "max") then
    fe_Field fe +:+ " is too long (max=" +:+ fe_Param fe +:+ ")"
  else fe_Field fe +:+ " is invalid (" +:+ fe_Tag fe +:+ ")".

Definition toValidationError (errs : list fieldErr) : error :=
  Validation "input validation failed"
    ((λ fe, {| Field := fe_Field fe; Tag := fe_Tag fe; FieldMessage := humanizeFieldError fe |})
       <$> errs).

(** A struct passes validation. *)
Definition all_tags_ok (fs : list vfield) : Prop :=
  Forall (λ f, Forall (λ t, tag_ok (vf_value f) t = true) (vf_tags f)) fs.

#[export] Instance all_tags_ok_dec fs : Decision (all_tags_ok fs).
Proof. unfold all_tags_ok. apply _. Defined.

Section validation.
Context `{!Vldtr, !VldtrLaws}.

Lemma first_failure_None f :
  first_failure f = None ↔ Forall (λ t, tag_ok (vf_value f) t = true) (vf_tags f).
Proof.
  unfold first_failure. induction (vf_tags f) as [|t ts IH]; [done|].
  destruct (tag_ok (vf_value f) t) eqn:Ht.
  - rewrite filter_cons_False by congruence. rewrite IH, Forall_cons. tauto.
  - rewrite filter_cons_True by done. simpl. rewrite Forall_cons, Ht. split; [done|by intros [? _]].
Qed.

Lemma vldtr_Struct_nil fs : vldtr_Struct fs = [] ↔ all_tags_ok fs.
Proof.
  rewrite (vldtr_reports fs). unfold all_tags_ok. induction fs as [|f fs IH]; [done|].
  rewrite Forall_cons, <- first_failure_None, <- IH. simpl.
  destruct (first_failure f); split; [done|by intros [? _]|done|by intros [_ ?]].
Qed.
End validation.
