(* ===== verification/Battle.v ===== *)
(** * Battle: damage, its in-memory repository, and the naive applier

    Models [internal/domain/battle], [internal/persistence/inmem/battle_repo.go]
    and, of [internal/service/battle/service.go], the repository interface, the
    first implementation [V1Naive] and the choice between the two. The second
    implementation is in [BattleQueue]. *)

From S2P Require Import GoLang.

(** ** Domain *)

Record PlayerHP := { HP_PlayerID : string; HP : Z; HP_UpdatedAt : time }.

Definition MaxDamagePerRequest : Z := 100000.
Definition DefaultInitialHP : Z := 10000.

Definition battle_ErrInvalidDamage : error :=
  ErrorsNew "battle.ErrInvalidDamage" "damage must be 1..MaxDamagePerRequest".
Definition battle_ErrNotFound : error :=
  ErrorsNew "battle.ErrNotFound" "player hp not found".

(** The guard both implementations start with. *)
Definition damage_refused (damage : Z) : bool :=
  (damage <? 1) || (MaxDamagePerRequest <? damage).

(** ** The repository *)

(** The first argument of [ApplyDamageNaive] is the error of the caller's
    context, if it is done; [BattleRepo_Get] reads a clock. *)
Class BattleRepoOps (R : Type) := {
  ApplyDamageNaive : option error → string → Z → M R Z;
  Battle_Reset : string → Z → M R unit;
  Battle_Get : string → time → M R PlayerHP }.

Record BattleRepo := { hpByPlayer : gmap string Z }.

Definition NewBattleRepo : BattleRepo := {| hpByPlayer := ∅ |}.

Definition BattleRepo_ApplyDamageNaive (ctx : option error) (playerID : string) (damage : Z)
    : M BattleRepo Z := λ r,
  let hp := default DefaultInitialHP (hpByPlayer r !! playerID) in
  let hp := hp [-] damage in
  let hp := if hp <? 0 then 0 else hp in
  (Ok hp, {| hpByPlayer := <[playerID := hp]> (hpByPlayer r) |}).

Definition BattleRepo_Get (playerID : string) (now : time) : M BattleRepo PlayerHP := λ r,
  (match hpByPlayer r !! playerID with
   | None => Err battle_ErrNotFound
   | Some hp => Ok {| HP_PlayerID := playerID; HP := hp; HP_UpdatedAt := now |}
   end, r).

Definition BattleRepo_Reset (playerID : string) (hp : Z) : M BattleRepo unit := λ r,
  (Ok tt, {| hpByPlayer := <[playerID := hp]> (hpByPlayer r) |}).

#[export] Instance inmem_BattleRepoOps : BattleRepoOps BattleRepo := {|
  ApplyDamageNaive := BattleRepo_ApplyDamageNaive;
  Battle_Reset := BattleRepo_Reset;
  Battle_Get := BattleRepo_Get |}.

(** ** The naive applier and the choice *)

Definition V1Naive_Apply {R} `{!BattleRepoOps R} (ctx : option error) (playerID : string) (damage : Z)
    : M R Z :=
  if damage_refused damage then fail battle_ErrInvalidDamage
  else wrapErr "apply damage naive" (ApplyDamageNaive ctx playerID damage).

(** [Applier], the interface the handler is given; the naive one is its repository. *)
Class ApplierOps (A : Type) := Apply : option error → string → Z → M A Z.

#[export] Instance V1Naive_Applier `{!BattleRepoOps R} : ApplierOps R := V1Naive_Apply.

Inductive Applier := Applier_V1Naive | Applier_V2UserQueue.

Definition ImplNaive : string := "naive".
Definition ImplQueue : string := "queue".

(** [Build]: an unknown name falls back to the naive applier. *)
Definition Battle_Build (impl : string) : Applier :=
  if bool_decide (impl = ImplQueue) then Applier_V2UserQueue else Applier_V1Naive.

(** ** Hit points *)

(** The hit points a player would have, the initial ones before the first hit. *)
Definition hp_of (r : BattleRepo) (playerID : string) : Z :=
  default DefaultInitialHP (hpByPlayer r !! playerID).

(** A sequence of hits on the repository. *)
Fixpoint apply_all (hits : list (string * Z)) (r : BattleRepo) : BattleRepo :=
  match hits with
  | [] => r
  | (p, d) :: hits' => apply_all hits' (BattleRepo_ApplyDamageNaive None p d r).2
  end.

(** The damage a sequence of hits deals to a player. *)
Definition damage_to (playerID : string) (hits : list (string * Z)) : Z :=
  foldr (λ '(p, d) acc, if decide (p = playerID) then d + acc else acc) 0 hits.

Definition valid_hit (hit : string * Z) : Prop := 1 <= hit.2 <= MaxDamagePerRequest.

Section hits.
Implicit Types (r : BattleRepo).

Lemma damage_refused_false d : damage_refused d = false ↔ 1 <= d <= MaxDamagePerRequest.
Proof. unfold damage_refused. rewrite orb_false_iff. lia. Qed.

Lemma hp_of_hit ctx p d r q :
  0 <= hp_of r q < int64_half → 1 <= d <= MaxDamagePerRequest →
  hp_of (BattleRepo_ApplyDamageNaive ctx p d r).2 q =
  if decide (p = q) then Z.max 0 (hp_of r q - d) else hp_of r q.
Proof.
  intros Hr Hd. unfold hp_of, BattleRepo_ApplyDamageNaive in *. cbn [snd hpByPlayer].
  destruct (decide (p = q)) as [->|]; [|by rewrite lookup_insert_ne].
  rewrite lookup_insert_eq. simpl. unfold MaxDamagePerRequest in Hd.
  rewrite int_sub_small by int_range.
  destruct (Z.ltb_spec (default DefaultInitialHP (hpByPlayer r !! q) - d) 0); lia.
Qed.

Lemma damage_to_nonneg p hits : Forall valid_hit hits → 0 <= damage_to p hits.
Proof.
  unfold valid_hit. induction 1 as [|[q d] hits Hd _ IH]; simpl in *; [done|].
  destruct (decide (q = p)); lia.
Qed.

Lemma damage_to_perm p hits hits' : hits ≡ₚ hits' → damage_to p hits = damage_to p hits'.
Proof.
  induction 1 as [|[q d] l l' _ IH|[q d] [q' d'] l|l l' l'' _ IH1 _ IH2]; simpl;
    [done|by rewrite IH|repeat case_decide; lia|congruence].
Qed.

Lemma hp_of_hits hits r q :
  Forall valid_hit hits → 0 <= hp_of r q < int64_half →
  hp_of (apply_all hits r) q = Z.max 0 (hp_of r q - damage_to q hits).
Proof.
  intros Hv. revert r. induction Hv as [|[p d] hits Hd Hv IH]; intros r Hr; cbn [apply_all].
  { unfold damage_to. simpl. lia. }
  pose proof (damage_to_nonneg q hits Hv).
  rewrite IH.
  - rewrite (hp_of_hit None p d r q Hr Hd). unfold damage_to. simpl. fold (damage_to q hits).
    unfold valid_hit in Hd. simpl in Hd. destruct (decide (p = q)); lia.
  - rewrite (hp_of_hit None p d r q Hr Hd). destruct (decide (p = q)); [|done].
    unfold valid_hit in Hd. simpl in Hd. lia.
Qed.

(** The naive applier. A damage outside 1..100000 is refused and nothing
    changes; otherwise, on the in-memory repository, the answer is the player's
    hit points less the damage and never below zero, no other player is hurt,
    and after any sequence of valid hits, in any order, every player has
    [max 0 (initial - total damage)]. *)
Theorem V1Naive_spec (r : BattleRepo) (ctx : option error) (p : string) (d : Z)
    (hits hits' : list (string * Z))
    (Hr : ∀ q, 0 <= hp_of r q < int64_half)
    (Hv : Forall valid_hit hits) (Hperm : hits ≡ₚ hits') :
  (V1Naive_Apply ctx p d r =
     if decide (1 <= d <= MaxDamagePerRequest)
     then (Ok (Z.max 0 (hp_of r p - d)), (V1Naive_Apply ctx p d r).2)
     else (Err battle_ErrInvalidDamage, r)) ∧
  (∀ q, q ≠ p → hp_of (V1Naive_Apply ctx p d r).2 q = hp_of r q) ∧
  (∀ q, hp_of (apply_all hits r) q = Z.max 0 (hp_of r q - damage_to q hits) ∧
        hp_of (apply_all hits' r) q = hp_of (apply_all hits r) q).
Proof.
  split_and!.
  - unfold V1Naive_Apply. destruct (decide (1 <= d <= MaxDamagePerRequest)) as [Hd|Hd].
    + rewrite (proj2 (damage_refused_false d) Hd).
      pose proof (hp_of_hit ctx p d r p (Hr p) Hd) as Hhp. rewrite decide_True in Hhp by done.
      rewrite <- Hhp. unfold wrapErr. simpl. f_equal. f_equal. unfold hp_of. simpl.
      by rewrite lookup_insert_eq.
    + destruct (damage_refused d) eqn:E; [done|]. by apply damage_refused_false in E.
  - intros q Hq. unfold V1Naive_Apply. destruct (damage_refused d); [done|].
    unfold wrapErr, hp_of. simpl. by rewrite lookup_insert_ne.
  - intros q. rewrite !hp_of_hits by (try done; by rewrite <- Hperm). split; [done|].
    by rewrite (damage_to_perm q hits hits').
Qed.
End hits.

Lemma V1Naive_witness :
  V1Naive_Apply None "p" 300 NewBattleRepo =
    (Ok 9700, (V1Naive_Apply None "p" 300 NewBattleRepo).2) ∧
  hp_of (apply_all [("p", 300); ("q", 1)] NewBattleRepo) "p" = 9700.
Proof.
  assert (Hr : ∀ q, 0 <= hp_of NewBattleRepo q < int64_half).
  { intros q. unfold hp_of. simpl. rewrite lookup_empty. simpl. unfold DefaultInitialHP. int_range. }
  assert (Hv : Forall valid_hit [("p", 300); ("q", 1)])
    by (repeat constructor; unfold MaxDamagePerRequest; simpl; lia).
  destruct (V1Naive_spec NewBattleRepo None "p" 300 [("p", 300); ("q", 1)] _ Hr Hv (reflexivity _))
    as (H1 & _ & H3).
  split; [exact H1|]. rewrite (proj1 (H3 "p")). vm_compute. reflexivity.
Defined.
