(* ===== verification/BattleQueue.v ===== *)
(** * The queued applier: one worker per player

    Models [V2UserQueue] of [internal/service/battle/service.go] as a
    transition system over all the goroutines at work: the callers of [Apply]
    and the worker goroutine each channel is created with. A channel is an
    index into the list of channels ever made, a goroutine an index into the
    list of callers or of workers. Every label is one atomic action of one
    goroutine (a channel operation, a critical section, the repository call),
    so runs interleave them in any order; a select with several ready cases
    may take any of them. *)

From S2P Require Import GoLang Battle.

Definition QueueCapacity : nat := 64.

(** ** State *)

(** [queueReq]; the caller stands for its context and its result channel. *)
Record queueReq := { rq_caller : nat; rq_player : string; rq_damage : Z }.

#[export] Instance queueReq_eq_dec : EqDecision queueReq.
Proof. solve_decision. Defined.

(** Where a call of [Apply] is: before its guard; sending on a channel; waiting
    for its result; returned. *)
Inductive apply_pc :=
  | AStart
  | AEnqueue (ch : nat)
  | AAwait
  | ADone (res : result Z).

(** A call: its arguments, the error of its context once that is done, what is
    in its result channel (of capacity one), and where it is. *)
Record caller := {
  c_player : string;
  c_damage : Z;
  c_ctx : option error;
  c_resp : option (result Z);
  c_pc : apply_pc }.

(** Where a worker is: receiving; calling the repository; sending the result. *)
Inductive worker_pc :=
  | WIdle
  | WCalling (r : queueReq)
  | WReplying (r : queueReq) (res : result Z).

Record worker := { wk_chan : nat; wk_pc : worker_pc }.

(** The service and its goroutines. [sent] and [applied] are history: the
    requests in the order they entered their channels, and the repository
    calls in the order they took effect, with their results. *)
Record qstate (R : Type) := {
  queues : gmap string nat;
  chans : list (list queueReq);
  workers : list worker;
  callers : list caller;
  repo : R;
  sent : list queueReq;
  applied : list (queueReq * result Z) }.
Arguments queues {R} _.
Arguments chans {R} _.
Arguments workers {R} _.
Arguments callers {R} _.
Arguments repo {R} _.
Arguments sent {R} _.
Arguments applied {R} _.
Arguments Build_qstate {R} _ _ _ _ _ _ _.

Definition NewV2UserQueue {R} (r : R) : qstate R :=
  {| queues := ∅; chans := []; workers := []; callers := []; repo := r; sent := []; applied := [] |}.

(** ** Updates *)

Definition at_pc (pc : apply_pc) (c : caller) : caller :=
  {| c_player := c_player c; c_damage := c_damage c; c_ctx := c_ctx c; c_resp := c_resp c;
     c_pc := pc |}.
Definition with_resp (o : option (result Z)) (c : caller) : caller :=
  {| c_player := c_player c; c_damage := c_damage c; c_ctx := c_ctx c; c_resp := o;
     c_pc := c_pc c |}.
Definition with_ctx (e : error) (c : caller) : caller :=
  {| c_player := c_player c; c_damage := c_damage c; c_ctx := Some e; c_resp := c_resp c;
     c_pc := c_pc c |}.

Section updates.
Context {R : Type}.
Implicit Types (q : qstate R).

Definition set_caller (i : nat) (c : caller) q : qstate R :=
  {| queues := queues q; chans := chans q; workers := workers q;
     callers := <[i := c]> (callers q); repo := repo q; sent := sent q; applied := applied q |}.
Definition set_worker (w : nat) (wk : worker) q : qstate R :=
  {| queues := queues q; chans := chans q; workers := <[w := wk]> (workers q);
     callers := callers q; repo := repo q; sent := sent q; applied := applied q |}.
Definition set_chan (ch : nat) (b : list queueReq) q : qstate R :=
  {| queues := queues q; chans := <[ch := b]> (chans q); workers := workers q;
     callers := callers q; repo := repo q; sent := sent q; applied := applied q |}.

(** ** Transitions *)

(** [getOrCreate], under the mutex: the player's channel, made with its worker
    when there is none. *)
Definition getOrCreate (playerID : string) q : nat * qstate R :=
  match queues q !! playerID with
  | Some ch => (ch, q)
  | None =>
      let ch := length (chans q) in
      (ch, {| queues := <[playerID := ch]> (queues q); chans := chans q ++ [[]];
              workers := workers q ++ [{| wk_chan := ch; wk_pc := WIdle |}];
              callers := callers q; repo := repo q; sent := sent q; applied := applied q |})
  end.

Inductive label :=
  | LCall (playerID : string) (damage : Z)
  | LCancel (i : nat) (e : error)
  | LEnter (i : nat)
  | LSend (i : nat)
  | LGiveUp (i : nat)
  | LTake (i : nat)
  | LRecv (w : nat)
  | LRepo (w : nat)
  | LReply (w : nat).

(** A new call of [Apply] by some request. *)
Definition do_Call (playerID : string) (damage : Z) q : option (qstate R) :=
  Some {| queues := queues q; chans := chans q; workers := workers q;
          callers := callers q ++ [{| c_player := playerID; c_damage := damage; c_ctx := None;
                                      c_resp := None; c_pc := AStart |}];
          repo := repo q; sent := sent q; applied := applied q |}.

(** The context of a call is done. *)
Definition do_Cancel (i : nat) (e : error) q : option (qstate R) :=
  c ← callers q !! i;
  if decide (c_ctx c = None) then Some (set_caller i (with_ctx e c) q) else None.

(** The guard, then [getOrCreate]. *)
Definition do_Enter (i : nat) q : option (qstate R) :=
  c ← callers q !! i;
  match c_pc c with
  | AStart =>
      if damage_refused (c_damage c) then
        Some (set_caller i (at_pc (ADone (Err battle_ErrInvalidDamage)) c) q)
      else
        let '(ch, q') := getOrCreate (c_player c) q in
        Some (set_caller i (at_pc (AEnqueue ch) c) q')
  | _ => None
  end.

(** [case q <- req]: only while the channel has room. *)
Definition do_Send (i : nat) q : option (qstate R) :=
  c ← callers q !! i;
  match c_pc c with
  | AEnqueue ch =>
      b ← chans q !! ch;
      if decide (length b < QueueCapacity)%nat then
        let r := {| rq_caller := i; rq_player := c_player c; rq_damage := c_damage c |} in
        let q' := set_caller i (at_pc AAwait c) (set_chan ch (b ++ [r]) q) in
        Some {| queues := queues q'; chans := chans q'; workers := workers q';
                callers := callers q'; repo := repo q'; sent := sent q' ++ [r];
                applied := applied q' |}
      else None
  | _ => None
  end.

(** [case <-ctx.Done()] of either select. *)
Definition do_GiveUp (i : nat) q : option (qstate R) :=
  c ← callers q !! i;
  e ← c_ctx c;
  match c_pc c with
  | AEnqueue _ => Some (set_caller i (at_pc (ADone (Err (Errorf_w "enqueue" e))) c) q)
  | AAwait => Some (set_caller i (at_pc (ADone (Err (Errorf_w "await" e))) c) q)
  | _ => None
  end.

(** [case r := <-resp]. *)
Definition do_Take (i : nat) q : option (qstate R) :=
  c ← callers q !! i;
  res ← c_resp c;
  match c_pc c with
  | AAwait => Some (set_caller i (at_pc (ADone res) (with_resp None c)) q)
  | _ => None
  end.

(** [for req := range q]. *)
Definition do_Recv (w : nat) q : option (qstate R) :=
  wk ← workers q !! w;
  b ← chans q !! wk_chan wk;
  match wk_pc wk, b with
  | WIdle, r :: b' =>
      Some (set_worker w {| wk_chan := wk_chan wk; wk_pc := WCalling r |}
              (set_chan (wk_chan wk) b' q))
  | _, _ => None
  end.

(** [req.result <- ...]: only while the result channel is empty. *)
Definition do_Reply (w : nat) q : option (qstate R) :=
  wk ← workers q !! w;
  match wk_pc wk with
  | WReplying r res =>
      c ← callers q !! rq_caller r;
      match c_resp c with
      | None =>
          Some (set_worker w {| wk_chan := wk_chan wk; wk_pc := WIdle |}
                  (set_caller (rq_caller r) (with_resp (Some res) c) q))
      | Some _ => None
      end
  | _ => None
  end.

Context `{!BattleRepoOps R}.

(** The repository call takes effect; a panic would end the program. *)
Definition do_Repo (w : nat) q : option (qstate R) :=
  wk ← workers q !! w;
  match wk_pc wk with
  | WCalling r =>
      c ← callers q !! rq_caller r;
      let '(res, repo') := ApplyDamageNaive (c_ctx c) (rq_player r) (rq_damage r) (repo q) in
      match res with
      | Panic _ => None
      | _ =>
          let q' := set_worker w {| wk_chan := wk_chan wk; wk_pc := WReplying r res |} q in
          Some {| queues := queues q'; chans := chans q'; workers := workers q';
                  callers := callers q'; repo := repo'; sent := sent q';
                  applied := applied q' ++ [(r, res)] |}
      end
  | _ => None
  end.

Definition fire (l : label) q : option (qstate R) :=
  match l with
  | LCall p d => do_Call p d q
  | LCancel i e => do_Cancel i e q
  | LEnter i => do_Enter i q
  | LSend i => do_Send i q
  | LGiveUp i => do_GiveUp i q
  | LTake i => do_Take i q
  | LRecv w => do_Recv w q
  | LRepo w => do_Repo w q
  | LReply w => do_Reply w q
  end.

Fixpoint fire_all (ls : list label) q : option (qstate R) :=
  match ls with
  | [] => Some q
  | l :: ls' => q' ← fire l q; fire_all ls' q'
  end.

(** The states of a service over a repository that started as [r0]. *)
Inductive qreach (r0 : R) : qstate R → Prop :=
  | qreach_init : qreach r0 (NewV2UserQueue r0)
  | qreach_step q l q' : qreach r0 q → fire l q = Some q' → qreach r0 q'.
End updates.

(** ** The invariant *)

(** The request a call puts on its channel. *)
Definition req_of (i : nat) (c : caller) : queueReq :=
  {| rq_caller := i; rq_player := c_player c; rq_damage := c_damage c |}.

(** The request a worker has received and not yet applied. *)
Definition held (wk : worker) : list queueReq :=
  match wk_pc wk with WCalling r => [r] | _ => [] end.

Definition for_player (p : string) (l : list queueReq) : list queueReq :=
  filter (λ r, rq_player r = p) l.

Definition entered (c : caller) : Prop :=
  match c_pc c with AAwait | ADone _ => True | _ => False end.

Definition finished (c : caller) : Prop := ∃ res, c_pc c = ADone res.

#[local] Instance finished_dec c : Decision (finished c).
Proof.
  unfold finished. destruct (c_pc c) as [|ch| |res]; [right; by intros [? ?]..|left; by exists res].
Defined.

Definition damage_valid (d : Z) : Prop := 1 <= d <= MaxDamagePerRequest.

Section invariant.
Context {R : Type} `{!BattleRepoOps R}.
Implicit Types (q : qstate R).

(** The log is a sequential run of the repository. *)
Inductive replays (r0 : R) : list (queueReq * result Z) → R → Prop :=
  | replays_nil : replays r0 [] r0
  | replays_snoc log r ctx rq res r' :
      replays r0 log r →
      ApplyDamageNaive ctx (rq_player rq) (rq_damage rq) r = (res, r') →
      replays r0 (log ++ [(rq, res)]) r'.

Record inv (r0 : R) q : Prop := {
  inv_length : length (workers q) = length (chans q);
  inv_worker w wk : workers q !! w = Some wk → wk_chan wk = w;
  inv_queue p ch : queues q !! p = Some ch → (ch < length (chans q))%nat;
  inv_inj p p' ch : queues q !! p = Some ch → queues q !! p' = Some ch → p = p';
  inv_owner ch : (ch < length (chans q))%nat → ∃ p, queues q !! p = Some ch;
  inv_line p ch b wk :
    queues q !! p = Some ch → chans q !! ch = Some b → workers q !! ch = Some wk →
    for_player p (sent q) = for_player p (applied q).*1 ++ held wk ++ b;
  inv_noqueue p : queues q !! p = None →
    for_player p (sent q) = [] ∧ for_player p (applied q).*1 = [];
  inv_enqueue i c ch : callers q !! i = Some c → c_pc c = AEnqueue ch →
    queues q !! c_player c = Some ch ∧ damage_valid (c_damage c);
  inv_sent r : r ∈ sent q → damage_valid (rq_damage r) ∧
    ∃ c, callers q !! rq_caller r = Some c ∧ r = req_of (rq_caller r) c ∧ entered c;
  inv_nodup : NoDup (rq_caller <$> sent q);
  inv_await i c : callers q !! i = Some c → c_pc c = AAwait → req_of i c ∈ sent q;
  inv_replying w wk r res : workers q !! w = Some wk → wk_pc wk = WReplying r res →
    (r, res) ∈ applied q ∧ queues q !! rq_player r = Some w ∧
    ∃ c, callers q !! rq_caller r = Some c ∧ c_resp c = None;
  inv_resp i c res : callers q !! i = Some c → c_resp c = Some res →
    (req_of i c, res) ∈ applied q;
  inv_done i c hp : callers q !! i = Some c → c_pc c = ADone (Ok hp) →
    (req_of i c, Ok hp) ∈ applied q;
  inv_pending r res : (r, res) ∈ applied q →
    (∃ w wk, workers q !! w = Some wk ∧ wk_pc wk = WReplying r res) ∨
    ∃ c, callers q !! rq_caller r = Some c ∧ (c_resp c = Some res ∨ finished c);
  inv_repo : replays r0 (applied q) (repo q) }.

Lemma inv_init r0 : inv r0 (NewV2UserQueue r0).
Proof.
  split; simpl; intros; try done; try (by rewrite lookup_empty in *); try (by apply elem_of_nil in H);
    try lia; [by apply NoDup_nil|constructor].
Qed.

Lemma elem_for_player r p l : r ∈ for_player p l ↔ r ∈ l ∧ rq_player r = p.
Proof. unfold for_player. rewrite list_elem_of_filter. tauto. Qed.

Lemma for_player_app p l l' : for_player p (l ++ l') = for_player p l ++ for_player p l'.
Proof. apply filter_app. Qed.

Lemma for_player_one p r : for_player p [r] = if decide (rq_player r = p) then [r] else [].
Proof.
  unfold for_player. destruct (decide (rq_player r = p)).
  - by rewrite filter_cons_True.
  - by rewrite filter_cons_False.
Qed.

(** The channel and the worker of a player. *)
Lemma inv_chan r0 q p ch :
  inv r0 q → queues q !! p = Some ch →
  ∃ b wk, chans q !! ch = Some b ∧ workers q !! ch = Some wk.
Proof.
  intros Hq Hp. pose proof (inv_queue _ _ Hq _ _ Hp) as Hlt.
  destruct (lookup_lt_is_Some_2 (chans q) ch Hlt) as [b ?].
  destruct (lookup_lt_is_Some_2 (workers q) ch) as [wk ?]; [by rewrite (inv_length _ _ Hq)|].
  by exists b, wk.
Qed.

(** The player of a worker. *)
Lemma inv_player r0 q w wk :
  inv r0 q → workers q !! w = Some wk →
  ∃ p b, queues q !! p = Some w ∧ chans q !! w = Some b ∧ wk_chan wk = w ∧
    for_player p (sent q) = for_player p (applied q).*1 ++ held wk ++ b.
Proof.
  intros Hq Hw. pose proof (lookup_lt_Some _ _ _ Hw) as Hlt. rewrite (inv_length _ _ Hq) in Hlt.
  destruct (inv_owner _ _ Hq w Hlt) as [p Hp].
  destruct (inv_chan _ _ _ _ Hq Hp) as (b & wk' & Hb & Hw'). simplify_eq.
  exists p, b. split_and!; [done|done|by eapply inv_worker|by eapply inv_line].
Qed.

Lemma applied_sent r0 q r : inv r0 q → r ∈ (applied q).*1 → r ∈ sent q.
Proof.
  intros Hq Hr. destruct (queues q !! rq_player r) as [ch|] eqn:Hp.
  - destruct (inv_chan _ _ _ _ Hq Hp) as (b & wk & Hb & Hw).
    assert (Hin : r ∈ for_player (rq_player r) (sent q)).
    { rewrite (inv_line _ _ Hq _ _ _ _ Hp Hb Hw), elem_of_app, elem_for_player. tauto. }
    by apply elem_for_player in Hin as [? _].
  - destruct (inv_noqueue _ _ Hq _ Hp) as [_ Hnil].
    assert (Hin : r ∈ for_player (rq_player r) (applied q).*1) by by apply elem_for_player.
    rewrite Hnil in Hin. by apply elem_of_nil in Hin.
Qed.

(** A request in a worker's hand or in its channel is sent, not applied, and
    not answered. *)
Lemma inv_waiting r0 q w wk b r :
  inv r0 q → workers q !! w = Some wk → chans q !! w = Some b → r ∈ held wk ++ b →
  r ∈ sent q ∧ ¬ (r ∈ (applied q).*1) ∧ queues q !! rq_player r = Some w ∧
  ∃ c, callers q !! rq_caller r = Some c ∧ r = req_of (rq_caller r) c ∧ entered c ∧
    c_resp c = None.
Proof.
  intros Hq Hw Hb Hr. destruct (inv_player _ _ _ _ Hq Hw) as (p & b' & Hp & Hb' & _ & Hline).
  simplify_eq. assert (Hin : r ∈ for_player p (sent q)) by (rewrite Hline, elem_of_app; by right).
  apply elem_for_player in Hin as [Hsent Hpl].
  assert (Hnot : ¬ (r ∈ (applied q).*1)).
  { intros Happ. pose proof (NoDup_fmap_1 _ _ (inv_nodup _ _ Hq)) as Hnd.
    assert (Hnd' : NoDup (for_player p (sent q))) by by apply NoDup_filter.
    rewrite Hline in Hnd'. apply NoDup_app in Hnd' as (_ & Hdis & _).
    apply (Hdis r); [by apply elem_for_player|done]. }
  destruct (inv_sent _ _ Hq r Hsent) as (_ & c & Hc & Hreq & Hent).
  split_and!; [done|done|by rewrite Hpl|].
  exists c. split_and!; try done. destruct (c_resp c) as [res|] eqn:Hres; [|done].
  pose proof (inv_resp _ _ Hq _ _ _ Hc Hres) as Happ. rewrite <- Hreq in Happ.
  destruct Hnot. by apply (list_elem_of_fmap_2 fst _ _ Happ).
Qed.

(** Requests of one caller are one request. *)
Lemma sent_inj r0 q r r' :
  inv r0 q → r ∈ sent q → r' ∈ sent q → rq_caller r = rq_caller r' → r = r'.
Proof.
  intros Hq Hr Hr' Heq.
  destruct (inv_sent _ _ Hq r Hr) as (_ & c & Hc & Hreq & _).
  destruct (inv_sent _ _ Hq r' Hr') as (_ & c' & Hc' & Hreq' & _).
  rewrite Heq in Hc, Hreq. simplify_eq. congruence.
Qed.

(** A step that only moves one caller. *)
Lemma inv_set_caller r0 q i c c' :
  inv r0 q → callers q !! i = Some c →
  c_player c' = c_player c → c_damage c' = c_damage c →
  (entered c → entered c') → (c_pc c' = AAwait → c_pc c = AAwait) →
  (∀ ch, c_pc c' = AEnqueue ch →
     queues q !! c_player c = Some ch ∧ damage_valid (c_damage c)) →
  (∀ res, c_resp c' = Some res → c_resp c = Some res) →
  (∀ hp, c_pc c' = ADone (Ok hp) → (req_of i c, Ok hp) ∈ applied q) →
  (finished c ∨ is_Some (c_resp c) → finished c' ∨ c_resp c' = c_resp c) →
  (finished c → finished c') →
  inv r0 (set_caller i c' q).
Proof.
  intros Hq Hi Hpl Hdm Hent Haw Henq Hres Hdone Hpend Hfin.
  assert (Hreq : ∀ j, req_of j c' = req_of j c) by (intros j; unfold req_of; congruence).
  assert (Hlen : (i < length (callers q))%nat) by by eapply lookup_lt_Some.
  assert (Hlook : ∀ j d, <[i := c']> (callers q) !! j = Some d →
    (j = i ∧ d = c') ∨ (j ≠ i ∧ callers q !! j = Some d)).
  { intros j d. destruct (decide (j = i)) as [->|].
    - rewrite list_lookup_insert_eq by done. intros [= <-]. by left.
    - rewrite list_lookup_insert_ne by done. by right. }
  destruct Hq. split; simpl; try done.
  - intros j d ch [[-> ->]|[_ Hj]]%Hlook Hpc; [rewrite Hpl, Hdm; auto|eauto].
  - intros r Hr. destruct (inv_sent0 r Hr) as (Hv & d & Hd & Hrd & Hed). split; [done|].
    destruct (decide (rq_caller r = i)) as [Heq|Hne].
    + exists c'. rewrite Heq in *. simplify_eq. rewrite list_lookup_insert_eq by done.
      split_and!; [done| |by apply Hent]. rewrite Hreq. done.
    + exists d. by rewrite list_lookup_insert_ne.
  - intros j d [[-> ->]|[_ Hj]]%Hlook Hpc; [rewrite Hreq; auto|eauto].
  - intros w wk r res Hw Hpc. destruct (inv_replying0 w wk r res Hw Hpc) as (Ha & Hqu & d & Hd & Hn).
    split_and!; [done|done|]. destruct (decide (rq_caller r = i)) as [Heq|Hne].
    + exists c'. rewrite Heq in *. simplify_eq. rewrite list_lookup_insert_eq by done.
      split; [done|]. destruct (c_resp c') as [res'|] eqn:E; [|done].
      by rewrite (Hres res' eq_refl) in Hn.
    + exists d. by rewrite list_lookup_insert_ne.
  - intros j d res [[-> ->]|[_ Hj]]%Hlook Hpc; [rewrite Hreq; auto|eauto].
  - intros j d hp [[-> ->]|[_ Hj]]%Hlook Hpc; [rewrite Hreq; auto|eauto].
  - intros r res Hr. destruct (inv_pending0 r res Hr) as [Hw|(d & Hd & Hor)]; [by left|right].
    destruct (decide (rq_caller r = i)) as [Heq|Hne].
    + exists c'. rewrite Heq in *. simplify_eq. rewrite list_lookup_insert_eq by done.
      split; [done|]. destruct Hor as [Hor|Hor]; [|by right; apply Hfin].
      destruct Hpend as [?|Heqr]; [right; by eexists|by right|left; by rewrite Heqr].
    + exists d. by rewrite list_lookup_insert_ne.
Qed.

(** Looking up in a list that grew by one. *)
Lemma lookup_snoc_inv {A} (l : list A) x j y :
  (l ++ [x]) !! j = Some y → (j = length l ∧ y = x) ∨ l !! j = Some y.
Proof.
  intros [Hj|[Hlt Hj]]%lookup_app_Some; [by right|].
  apply list_lookup_singleton_Some in Hj as [? <-]. left. split; [lia|done].
Qed.

(** Looking up in a list updated at one place. *)
Lemma lookup_insert_inv {A} (l : list A) i x j y :
  <[i := x]> l !! j = Some y → (j = i ∧ y = x) ∨ (j ≠ i ∧ l !! j = Some y).
Proof.
  intros Hj. destruct (decide (j = i)) as [->|Hne].
  - pose proof (lookup_lt_Some _ _ _ Hj) as Hlt. rewrite length_insert in Hlt.
    rewrite list_lookup_insert_eq in Hj by done. simplify_eq. by left.
  - rewrite list_lookup_insert_ne in Hj by done. by right.
Qed.

(** [getOrCreate] keeps the invariant and gives the player's channel. *)
Lemma inv_getOrCreate r0 q p :
  inv r0 q → let '(ch, q') := getOrCreate p q in
  inv r0 q' ∧ queues q' !! p = Some ch ∧ callers q' = callers q ∧ sent q' = sent q ∧
  applied q' = applied q.
Proof.
  intros Hq. unfold getOrCreate. destruct (queues q !! p) as [ch|] eqn:Hp; [done|].
  split; [|simpl; by rewrite lookup_insert_eq].
  assert (Hfresh : ∀ p' ch, queues q !! p' = Some ch → ch ≠ length (chans q)).
  { intros p' ch Hp'. pose proof (inv_queue _ _ Hq _ _ Hp'). lia. }
  assert (Hq' := Hq). destruct Hq. split; simpl; try done.
  - rewrite !length_app, inv_length0. done.
  - intros w wk [[-> ->]|Hw]%lookup_snoc_inv; [done|eauto].
  - intros p' ch. rewrite length_app. simpl.
    rewrite lookup_insert_Some. intros [[_ <-]|[_ Hp']]; [lia|]. apply inv_queue0 in Hp'. lia.
  - intros p1 p2 ch. rewrite !lookup_insert_Some.
    intros [[<- <-]|[_ H1]] [[<- Heq]|[_ H2]]; try done; [..|by eapply inv_inj0].
    + by destruct (Hfresh _ _ H2).
    + by destruct (Hfresh _ _ H1).
  - intros ch. rewrite length_app. simpl. intros Hlt.
    destruct (decide (ch = length (chans q))) as [->|]; [exists p; by rewrite lookup_insert_eq|].
    destruct (inv_owner0 ch) as [p' Hp']; [lia|]. exists p'. rewrite lookup_insert_ne; [done|congruence].
  - intros p' ch b wk Hch Hb Hw. apply lookup_insert_Some in Hch as [[<- <-]|[Hne Hp']].
    + destruct (inv_noqueue0 p Hp) as [-> ->].
      apply lookup_snoc_inv in Hb as [[_ ->]|Hb]; [|apply lookup_lt_Some in Hb; lia].
      apply lookup_snoc_inv in Hw as [[_ ->]|Hw]; [done|apply lookup_lt_Some in Hw; lia].
    + pose proof (Hfresh _ _ Hp').
      apply lookup_snoc_inv in Hb as [[? _]|Hb]; [done|].
      apply lookup_snoc_inv in Hw as [[? _]|Hw]; [rewrite inv_length0 in *; done|eauto].
  - intros p'. rewrite lookup_insert_None. intros [? _]. eauto.
  - intros i c ch Hi Hpc. destruct (inv_enqueue0 i c ch Hi Hpc) as [Hpq ?]. split; [|done].
    rewrite lookup_insert_ne; [done|congruence].
  - intros w wk r res [[-> ->]|Hw]%lookup_snoc_inv Hpc; [done|].
    destruct (inv_replying0 w wk r res Hw Hpc) as (? & Hpq & ?). split_and!; [done| |done].
    rewrite lookup_insert_ne; [done|congruence].
  - intros r res Hr. destruct (inv_pending0 r res Hr) as [(w & wk & Hw & Hpc)|?]; [left|by right].
    exists w, wk. split; [|done]. by apply lookup_app_l_Some.
Qed.

Lemma inv_Call r0 q p d q' : inv r0 q → do_Call p d q = Some q' → inv r0 q'.
Proof.
  intros Hq [= <-]. set (new := Build_caller p d None None AStart).
  assert (Hext : ∀ i c, callers q !! i = Some c → (callers q ++ [new]) !! i = Some c)
    by (intros; by apply lookup_app_l_Some).
  destruct Hq. split; simpl; try done.
  - intros i c ch [[-> ->]|Hi]%lookup_snoc_inv Hpc; [done|eauto].
  - intros r Hr. destruct (inv_sent0 r Hr) as (? & c & Hc & ?). split; [done|]. exists c. eauto.
  - intros i c [[-> ->]|Hi]%lookup_snoc_inv Hpc; [done|eauto].
  - intros w wk r res Hw Hpc. destruct (inv_replying0 w wk r res Hw Hpc) as (? & ? & c & Hc & ?).
    split_and!; eauto.
  - intros i c res [[-> ->]|Hi]%lookup_snoc_inv Hpc; [done|eauto].
  - intros i c hp [[-> ->]|Hi]%lookup_snoc_inv Hpc; [done|eauto].
  - intros r res Hr. destruct (inv_pending0 r res Hr) as [?|(c & Hc & ?)]; [by left|right; eauto].
Qed.

Lemma inv_Cancel r0 q i e q' : inv r0 q → do_Cancel i e q = Some q' → inv r0 q'.
Proof.
  intros Hq. unfold do_Cancel. destruct (callers q !! i) as [c|] eqn:Hi; [|done]. simpl.
  destruct (decide (c_ctx c = None)); [|done]. intros [= <-].
  eapply inv_set_caller; try done; [by intros; eapply inv_enqueue|by intros; eapply inv_done|auto].
Qed.

Lemma inv_Enter r0 q i q' : inv r0 q → do_Enter i q = Some q' → inv r0 q'.
Proof.
  intros Hq. unfold do_Enter. destruct (callers q !! i) as [c|] eqn:Hi; [|done]. simpl.
  destruct (c_pc c) eqn:Hpc; try done.
  destruct (damage_refused (c_damage c)) eqn:Hd.
  - intros [= <-]. eapply inv_set_caller; try done; simpl; [by right|by eexists].
  - pose proof (inv_getOrCreate r0 q (c_player c) Hq) as Hget.
    destruct (getOrCreate (c_player c) q) as [ch q1].
    destruct Hget as (Hq1 & Hch & Hcal & _ & _). intros [= <-].
    apply damage_refused_false in Hd.
    eapply inv_set_caller; [done|by rewrite Hcal|done|done|..]; simpl; try done.
    + unfold entered. by rewrite Hpc.
    + by intros ? [= <-].
    + by right.
    + intros [res Hres]. congruence.
Qed.

Lemma inv_GiveUp r0 q i q' : inv r0 q → do_GiveUp i q = Some q' → inv r0 q'.
Proof.
  intros Hq. unfold do_GiveUp. destruct (callers q !! i) as [c|] eqn:Hi; [|done]. simpl.
  destruct (c_ctx c) as [e|]; [|done]. simpl.
  destruct (c_pc c) eqn:Hpc; try done; intros [= <-];
    (eapply inv_set_caller; try done; simpl; [by right|by eexists]).
Qed.

Lemma inv_Take r0 q i q' : inv r0 q → do_Take i q = Some q' → inv r0 q'.
Proof.
  intros Hq. unfold do_Take. destruct (callers q !! i) as [c|] eqn:Hi; [|done]. simpl.
  destruct (c_resp c) as [res|] eqn:Hres; [|done]. simpl.
  destruct (c_pc c) eqn:Hpc; try done. intros [= <-].
  eapply inv_set_caller; try done; simpl.
  - intros hp [= ->]. by eapply inv_resp.
  - left. by eexists.
  - by eexists.
Qed.

(** What a list updated at one place keeps of an entry. *)
Lemma lookup_insert_fwd {A} (l : list A) i x x' j y :
  l !! i = Some x → l !! j = Some y →
  (j = i ∧ y = x ∧ <[i := x']> l !! j = Some x') ∨ (j ≠ i ∧ <[i := x']> l !! j = Some y).
Proof.
  intros Hi Hj. destruct (decide (j = i)) as [->|Hne].
  - left. split; [done|]. split; [congruence|]. apply list_lookup_insert_eq. by eapply lookup_lt_Some.
  - right. by rewrite list_lookup_insert_ne.
Qed.

(** A caller that has not entered has no request. *)
Lemma sent_not_entered r0 q i c r :
  inv r0 q → callers q !! i = Some c → ¬ entered c → r ∈ sent q → rq_caller r ≠ i.
Proof.
  intros Hq Hi Hent Hr <-. destruct (inv_sent _ _ Hq r Hr) as (_ & d & Hd & _ & Hd'). by simplify_eq.
Qed.

(** The request of a worker that is about to reply is sent. *)
Lemma replying_sent r0 q w wk r res :
  inv r0 q → workers q !! w = Some wk → wk_pc wk = WReplying r res → r ∈ sent q.
Proof.
  intros Hq Hw Hpc. destruct (inv_replying _ _ Hq w wk r res Hw Hpc) as (Happ & _).
  eapply applied_sent; [done|]. by apply (list_elem_of_fmap_2 fst _ _ Happ).
Qed.

(** Two workers do not reply to one caller. *)
Lemma replying_inj r0 q w wk r res w' wk' r' res' :
  inv r0 q → workers q !! w = Some wk → wk_pc wk = WReplying r res →
  workers q !! w' = Some wk' → wk_pc wk' = WReplying r' res' → rq_caller r' = rq_caller r → w' = w.
Proof.
  intros Hq Hw Hpc Hw' Hpc' Heq.
  assert (r' = r) as -> by (eapply sent_inj; [done|by eapply (replying_sent _ _ w')|by eapply (replying_sent _ _ w)|done]).
  destruct (inv_replying _ _ Hq w wk r res Hw Hpc) as (_ & Hqu & _).
  destruct (inv_replying _ _ Hq w' wk' r res' Hw' Hpc') as (_ & Hqu' & _). congruence.
Qed.

Lemma inv_Send r0 q i q' : inv r0 q → do_Send i q = Some q' → inv r0 q'.
Proof.
  intros Hq. unfold do_Send. destruct (callers q !! i) as [c|] eqn:Hi; [|done]. simpl.
  destruct (c_pc c) as [|ch| |] eqn:Hpc; try done.
  destruct (chans q !! ch) as [b|] eqn:Hb; [|done]. simpl.
  destruct (decide (length b < QueueCapacity)%nat); [|done]. intros [= <-].
  fold (req_of i c). set (r := req_of i c).
  destruct (inv_enqueue _ _ Hq i c ch Hi Hpc) as [Hch Hdv].
  assert (Hlenc : (ch < length (chans q))%nat) by by eapply lookup_lt_Some.
  assert (Hleni : (i < length (callers q))%nat) by by eapply lookup_lt_Some.
  assert (Hcal : ∀ j d, callers q !! j = Some d → ∃ d', <[i := at_pc AAwait c]> (callers q) !! j = Some d' ∧
    req_of j d' = req_of j d ∧ c_resp d' = c_resp d ∧ (entered d → entered d') ∧ (finished d → d' = d)).
  { intros j d Hd. destruct (lookup_insert_fwd _ _ _ (at_pc AAwait c) _ _ Hi Hd) as [(-> & -> & E)|[_ E]]; eexists;
      (split; [exact E|]); split_and!; try done. intros [res Hres]. congruence. }
  assert (Hnew : ∀ r', r' ∈ sent q → rq_caller r' ≠ i).
  { intros r' Hr'. eapply (sent_not_entered _ _ i c); [done|done| |done]. unfold entered. rewrite Hpc. tauto. }
  destruct Hq. split; simpl; try done.
  - by rewrite length_insert.
  - intros p ch'. rewrite length_insert. eauto.
  - intros ch'. rewrite length_insert. eauto.
  - intros p ch' b' wk Hp Hb' Hw. rewrite for_player_app.
    apply lookup_insert_inv in Hb' as [[-> ->]|[Hne Hb']].
    + assert (p = c_player c) as -> by by eapply inv_inj0.
      rewrite (inv_line0 _ _ _ _ Hp Hb Hw), for_player_one, decide_True by done.
      by rewrite <- !app_assoc.
    + rewrite (inv_line0 _ _ _ _ Hp Hb' Hw), for_player_one.
      rewrite decide_False; [by rewrite app_nil_r|]. simpl. intros <-. congruence.
  - intros p Hp. rewrite for_player_app. destruct (inv_noqueue0 p Hp) as [-> ->].
    rewrite for_player_one, decide_False; [done|]. simpl. intros <-. congruence.
  - intros j d ch' [[-> ->]|[_ Hj]]%lookup_insert_inv Hpc'; [done|eauto].
  - intros r' [Hr'| ->%list_elem_of_singleton]%elem_of_app.
    + destruct (inv_sent0 r' Hr') as (Hv & d & Hd & Hrd & Hed). split; [done|].
      destruct (Hcal _ _ Hd) as (d' & Hd' & Hreq & _ & Hent & _). exists d'.
      split_and!; [done|by rewrite Hreq|auto].
    + split; [done|]. exists (at_pc AAwait c). by rewrite list_lookup_insert_eq.
  - rewrite fmap_app. apply NoDup_app. split_and!; [done| |apply NoDup_singleton].
    intros j (r' & -> & Hr')%list_elem_of_fmap Hj%list_elem_of_singleton. by apply (Hnew r').
  - intros j d [[-> ->]|[_ Hj]]%lookup_insert_inv Hpc'; apply elem_of_app; [right|left; eauto].
    by apply list_elem_of_singleton.
  - intros w wk r' res Hw Hwpc. destruct (inv_replying0 w wk r' res Hw Hwpc) as (? & ? & d & Hd & Hn).
    split_and!; [done|done|]. destruct (Hcal _ _ Hd) as (d' & Hd' & _ & Hr' & _).
    exists d'. by rewrite Hr'.
  - intros j d res [[-> ->]|[_ Hj]]%lookup_insert_inv Hres; [|eauto]. by apply (inv_resp0 i c).
  - intros j d hp [[-> ->]|[_ Hj]]%lookup_insert_inv Hdone; [done|eauto].
  - intros r' res Hr'. destruct (inv_pending0 r' res Hr') as [?|(d & Hd & Hor)]; [by left|right].
    destruct (Hcal _ _ Hd) as (d' & Hd' & _ & Hr'' & _ & Hfin). exists d'. split; [done|].
    rewrite Hr''. destruct Hor as [?|Hor]; [by left|right]. by rewrite (Hfin Hor).
Qed.

Lemma inv_Recv r0 q w q' : inv r0 q → do_Recv w q = Some q' → inv r0 q'.
Proof.
  intros Hq. unfold do_Recv. destruct (workers q !! w) as [wk|] eqn:Hw; [|done]. simpl.
  pose proof (inv_worker _ _ Hq _ _ Hw) as Hwc. rewrite Hwc.
  destruct (chans q !! w) as [b|] eqn:Hb; [|done]. simpl.
  destruct (wk_pc wk) eqn:Hpc; try done. destruct b as [|r b]; [done|]. intros [= <-].
  destruct Hq. split; simpl; try done.
  - by rewrite !length_insert.
  - intros w' wk' [[-> ->]|[_ Hw']]%lookup_insert_inv; [done|eauto].
  - intros p ch. rewrite length_insert. eauto.
  - intros ch. rewrite length_insert. eauto.
  - intros p ch b' wk' Hp Hb' Hw'.
    apply lookup_insert_inv in Hb' as [[-> ->]|[Hne Hb']].
    + apply lookup_insert_inv in Hw' as [[_ ->]|[? _]]; [|done].
      rewrite (inv_line0 _ _ _ _ Hp Hb Hw). unfold held. by rewrite Hpc.
    + apply lookup_insert_inv in Hw' as [[? _]|[_ Hw']]; [done|eauto].
  - intros w' wk' r' res [[-> ->]|[_ Hw']]%lookup_insert_inv Hpc'; [done|eauto].
  - intros r' res Hr'. destruct (inv_pending0 r' res Hr') as [(w' & wk' & Hw' & Hpc')|?]; [|by right].
    left. exists w', wk'. split; [|done]. rewrite list_lookup_insert_ne; [done|congruence].
Qed.

Lemma inv_Repo r0 q w q' : inv r0 q → do_Repo w q = Some q' → inv r0 q'.
Proof.
  intros Hq. unfold do_Repo. destruct (workers q !! w) as [wk|] eqn:Hw; [|done]. simpl.
  destruct (wk_pc wk) as [|r|] eqn:Hpc; try done.
  destruct (inv_player _ _ _ _ Hq Hw) as (p & b & Hp & Hb & Hwc & Hline).
  assert (Hheld : held wk = [r]) by (unfold held; by rewrite Hpc).
  destruct (inv_waiting _ _ _ _ _ r Hq Hw Hb) as (Hsent & Hnot & Hpr & c & Hc & Hreq & Hent & Hnone).
  { rewrite Hheld. by left. }
  assert (p = rq_player r) as -> by by eapply inv_inj.
  rewrite Hc. simpl.
  destruct (ApplyDamageNaive (c_ctx c) (rq_player r) (rq_damage r) (repo q)) as [res repo'] eqn:Happ.
  intros Hq'. assert (Heq : q' = {| queues := queues q; chans := chans q;
      workers := <[w := {| wk_chan := wk_chan wk; wk_pc := WReplying r res |}]> (workers q);
      callers := callers q; repo := repo'; sent := sent q; applied := applied q ++ [(r, res)] |})
    by (destruct res; by simplify_eq). clear Hq'. subst q'.
  assert (Hlen : (w < length (workers q))%nat) by by eapply lookup_lt_Some.
  pose proof (applied_sent r0 q) as Happsent. pose proof Hq as Hq0. destruct Hq.
  split; simpl; try done.
  - by rewrite length_insert.
  - intros w' wk' [[-> ->]|[_ Hw']]%lookup_insert_inv; [done|eauto].
  - intros p ch b' wk' Hp' Hb' Hw'. rewrite fmap_app, for_player_app.
    apply lookup_insert_inv in Hw' as [[-> ->]|[Hne Hw']].
    + assert (p = rq_player r) as -> by by eapply inv_inj0.
      simplify_eq. rewrite Hline, Hheld. cbn [fmap list_fmap fst].
      rewrite for_player_one, decide_True by done. by rewrite <- !app_assoc.
    + rewrite (inv_line0 _ _ _ _ Hp' Hb' Hw'). cbn [fmap list_fmap fst].
      rewrite for_player_one, decide_False; [by rewrite app_nil_r|]. intros <-. congruence.
  - intros p Hp'. rewrite fmap_app, for_player_app. destruct (inv_noqueue0 p Hp') as [-> ->].
    cbn [fmap list_fmap fst]. rewrite for_player_one, decide_False; [done|]. intros <-. congruence.
  - intros w' wk' r' res' [[-> ->]|[_ Hw']]%lookup_insert_inv Hpc'.
    + simpl in Hpc'. simplify_eq. split_and!; [|done|by exists c].
      apply elem_of_app. right. by apply list_elem_of_singleton.
    + destruct (inv_replying0 w' wk' r' res' Hw' Hpc') as (? & ? & ?). split_and!; try done.
      apply elem_of_app. by left.
  - intros i d res' Hd Hres. apply elem_of_app. left. eauto.
  - intros i d hp Hd Hpc'. apply elem_of_app. left. eauto.
  - intros r' res' [Hr'|Hr'%list_elem_of_singleton]%elem_of_app.
    + destruct (inv_pending0 r' res' Hr') as [(w' & wk' & Hw' & Hpc')|?]; [|by right].
      left. exists w', wk'. split; [|done]. rewrite list_lookup_insert_ne; [done|congruence].
    + injection Hr' as -> ->. left. exists w, {| wk_chan := wk_chan wk; wk_pc := WReplying r res |}.
      by rewrite list_lookup_insert_eq.
  - by econstructor.
Qed.

Lemma inv_Reply r0 q w q' : inv r0 q → do_Reply w q = Some q' → inv r0 q'.
Proof.
  intros Hq. unfold do_Reply. destruct (workers q !! w) as [wk|] eqn:Hw; [|done]. simpl.
  destruct (wk_pc wk) as [| |r res] eqn:Hpc; try done.
  destruct (inv_replying _ _ Hq w wk r res Hw Hpc) as (Happ & Hqu & c & Hc & Hnone).
  rewrite Hc. simpl. rewrite Hnone. intros [= <-].
  pose proof (replying_sent _ _ _ _ _ _ Hq Hw Hpc) as Hr.
  destruct (inv_sent _ _ Hq r Hr) as (_ & c' & Hc' & Hreq & Hent). simplify_eq.
  assert (Hother : ∀ w' wk' r' res', workers q !! w' = Some wk' → wk_pc wk' = WReplying r' res' →
    w' ≠ w → rq_caller r' ≠ rq_caller r) by (intros w' wk' r' res' Hw' Hpc' Hne Heq; by eapply Hne, (replying_inj _ _ w wk)).
  assert (Hlen : (rq_caller r < length (callers q))%nat) by by eapply lookup_lt_Some.
  set (i := rq_caller r) in *.
  assert (Hcal : ∀ j d, callers q !! j = Some d → ∃ d',
    <[i := with_resp (Some res) c]> (callers q) !! j = Some d' ∧
    req_of j d' = req_of j d ∧ c_pc d' = c_pc d ∧ (j ≠ i → d' = d)).
  { intros j d Hd. destruct (lookup_insert_fwd _ _ _ (with_resp (Some res) c) _ _ Hc Hd) as [(-> & -> & E)|[_ E]];
      eexists; by split_and!. }
  destruct Hq. split; simpl; try done.
  - by rewrite length_insert.
  - intros w' wk' [[-> ->]|[_ Hw']]%lookup_insert_inv; [simpl; eauto|eauto].
  - intros p ch b' wk' Hp' Hb' [[-> ->]|[_ Hw']]%lookup_insert_inv; [|eauto].
    rewrite (inv_line0 _ _ _ _ Hp' Hb' Hw). unfold held. by rewrite Hpc.
  - intros j d ch [[-> ->]|[_ Hj]]%lookup_insert_inv Hpc'; [by apply (inv_enqueue0 i c)|eauto].
  - intros r' Hr'. destruct (inv_sent0 r' Hr') as (Hv & d & Hd & Hrd & Hed). split; [done|].
    destruct (Hcal _ _ Hd) as (d' & Hd' & Hreq' & Hpc' & _). exists d'.
    split_and!; [done|by rewrite Hreq'|]. unfold entered. by rewrite Hpc'.
  - intros j d [[-> ->]|[_ Hj]]%lookup_insert_inv Hpc'; [by apply (inv_await0 i c)|eauto].
  - intros w' wk' r' res' [[-> ->]|[Hne Hw']]%lookup_insert_inv Hpc'; [done|].
    destruct (inv_replying0 w' wk' r' res' Hw' Hpc') as (? & ? & d & Hd & Hn). split_and!; try done.
    destruct (Hcal _ _ Hd) as (d' & Hd' & _ & _ & Hsame). exists d'. split; [done|].
    rewrite Hsame; [done|by eapply Hother].
  - intros j d res' [[-> ->]|[_ Hj]]%lookup_insert_inv Hres; [|eauto].
    simpl in Hres. simplify_eq. change (req_of i (with_resp (Some res') c)) with (req_of i c).
    by rewrite <- Hreq.
  - intros j d hp [[-> ->]|[_ Hj]]%lookup_insert_inv Hpc'; [by apply (inv_done0 i c)|eauto].
  - intros r' res' Hr'. destruct (inv_pending0 r' res' Hr') as [(w' & wk' & Hw' & Hpc')|(d & Hd & Hor)].
    + destruct (decide (w' = w)) as [->|Hne].
      * assert (wk' = wk) as -> by congruence. rewrite Hpc in Hpc'. injection Hpc' as <- <-.
        right. exists (with_resp (Some res) c). fold i. rewrite list_lookup_insert_eq by done.
        split; [done|by left].
      * left. exists w', wk'. by rewrite list_lookup_insert_ne.
    + right. destruct (decide (rq_caller r' = i)) as [Heq|Hne].
      * rewrite Heq in *. assert (d = c) as -> by congruence. exists (with_resp (Some res) c).
        rewrite list_lookup_insert_eq by done. split; [done|].
        destruct Hor as [Hor|Hor]; [congruence|by right].
      * exists d. by rewrite list_lookup_insert_ne.
Qed.

Lemma inv_reach r0 q : qreach r0 q → inv r0 q.
Proof.
  induction 1 as [|q l q' _ IH Hfire]; [apply inv_init|].
  destruct l; simpl in Hfire; [eapply inv_Call|eapply inv_Cancel|eapply inv_Enter|eapply inv_Send
    |eapply inv_GiveUp|eapply inv_Take|eapply inv_Recv|eapply inv_Repo|eapply inv_Reply]; done.
Qed.
End invariant.

(** ** Measure and progress *)

(** Labels of the goroutines already there: no new call, no context done. *)
Definition internal (l : label) : Prop :=
  match l with LCall _ _ | LCancel _ _ => False | _ => True end.

Definition caller_weight (c : caller) : nat :=
  match c_pc c with AStart => 8 | AEnqueue _ => 7 | AAwait => 1 | ADone _ => 0 end.
Definition worker_weight (wk : worker) : nat :=
  match wk_pc wk with WIdle => 0 | WCalling _ => 3 | WReplying _ _ => 2 end.

(** A bound on the steps the goroutines of a state can still take. *)
Definition weight {R} (q : qstate R) : nat :=
  sum_list_with caller_weight (callers q) + sum_list_with worker_weight (workers q) +
  sum_list_with (λ b, 4 * length b)%nat (chans q).

Lemma sum_list_with_insert {A} (f : A → nat) (l : list A) i x y :
  l !! i = Some y → (sum_list_with f (<[i := x]> l) + f y = sum_list_with f l + f x)%nat.
Proof.
  revert i. induction l as [|z l IH]; intros [|i] Hi; simplify_eq/=; [lia|].
  specialize (IH i Hi). lia.
Qed.

Section progress.
Context {R : Type} `{!BattleRepoOps R}.
Implicit Types (q : qstate R).

(** The equations the updates of a step give between its sums. *)
Ltac sums :=
  repeat match goal with
  | H : ?l !! ?i = Some ?y |- context [sum_list_with ?f (<[?i := ?x]> ?l)] =>
      pose proof (sum_list_with_insert f l i x y H);
      generalize dependent (sum_list_with f (<[i := x]> l)); intros
  end.

Lemma getOrCreate_weight p q : weight (getOrCreate p q).2 = weight q.
Proof.
  unfold getOrCreate, weight. destruct (queues q !! p); [done|]. simpl.
  rewrite !sum_list_with_app. simpl. unfold worker_weight. simpl. lia.
Qed.

Lemma getOrCreate_callers p q : callers (getOrCreate p q).2 = callers q.
Proof. unfold getOrCreate. by destruct (queues q !! p). Qed.

Lemma fire_weight l q q' : internal l → fire l q = Some q' → (weight q' < weight q)%nat.
Proof.
  destruct l as [| |i|i|i|i|w|w|w]; intros Hint Hfire; try done; simpl in Hfire.
  - unfold do_Enter in Hfire. destruct (callers q !! i) as [c|] eqn:Hi; [|done]. simpl in Hfire.
    destruct (c_pc c) eqn:Hpc; try done. destruct (damage_refused (c_damage c)).
    + simplify_eq. unfold weight. simpl. sums. unfold caller_weight in *. simpl in *.
      rewrite Hpc in *. lia.
    + pose proof (getOrCreate_weight (c_player c) q) as Hw.
      pose proof (getOrCreate_callers (c_player c) q) as Hc.
      destruct (getOrCreate (c_player c) q) as [ch q1]. simplify_eq. rewrite <- Hw.
      simpl in Hc. rewrite <- Hc in Hi. unfold weight. simpl. sums.
      unfold caller_weight in *. simpl in *. rewrite Hpc in *. lia.
  - unfold do_Send in Hfire. destruct (callers q !! i) as [c|] eqn:Hi; [|done]. simpl in Hfire.
    destruct (c_pc c) as [|ch| |] eqn:Hpc; try done.
    destruct (chans q !! ch) as [b|] eqn:Hb; [|done]. simpl in Hfire.
    destruct (decide _); [|done]. simplify_eq. unfold weight. simpl. sums.
    unfold caller_weight in *. simpl in *. rewrite Hpc in *. rewrite length_app in *. simpl in *. lia.
  - unfold do_GiveUp in Hfire. destruct (callers q !! i) as [c|] eqn:Hi; [|done]. simpl in Hfire.
    destruct (c_ctx c); [|done]. simpl in Hfire.
    destruct (c_pc c) eqn:Hpc; try done; simplify_eq; unfold weight; simpl; sums;
      unfold caller_weight in *; simpl in *; rewrite Hpc in *; lia.
  - unfold do_Take in Hfire. destruct (callers q !! i) as [c|] eqn:Hi; [|done]. simpl in Hfire.
    destruct (c_resp c); [|done]. simpl in Hfire.
    destruct (c_pc c) eqn:Hpc; try done; simplify_eq; unfold weight; simpl; sums;
      unfold caller_weight in *; simpl in *; rewrite Hpc in *; lia.
  - unfold do_Recv in Hfire. destruct (workers q !! w) as [wk|] eqn:Hw; [|done]. simpl in Hfire.
    destruct (chans q !! wk_chan wk) as [b|] eqn:Hb; [|done]. simpl in Hfire.
    destruct (wk_pc wk) eqn:Hpc; try done. destruct b as [|r b]; [done|]. simplify_eq.
    unfold weight. simpl. sums. unfold worker_weight in *. simpl in *. rewrite Hpc in *. lia.
  - unfold do_Repo in Hfire. destruct (workers q !! w) as [wk|] eqn:Hw; [|done]. simpl in Hfire.
    destruct (wk_pc wk) eqn:Hpc; try done. destruct (callers q !! rq_caller r) as [c|]; [|done].
    simpl in Hfire. destruct (ApplyDamageNaive _ _ _ _) as [[a|e|x] r']; simplify_eq;
      unfold weight; simpl; sums; unfold worker_weight in *; simpl in *; rewrite Hpc in *; lia.
  - unfold do_Reply in Hfire. destruct (workers q !! w) as [wk|] eqn:Hw; [|done]. simpl in Hfire.
    destruct (wk_pc wk) as [| |r res] eqn:Hpc; try done.
    destruct (callers q !! rq_caller r) as [c|] eqn:Hc; [|done].
    simpl in Hfire. destruct (c_resp c) eqn:Hr; [done|]. simplify_eq.
    unfold weight. simpl. sums. unfold worker_weight, caller_weight in *. simpl in *.
    rewrite Hpc in *. lia.
Qed.

Lemma fire_all_weight ls q q' :
  Forall internal ls → fire_all ls q = Some q' → (length ls + weight q' <= weight q)%nat.
Proof.
  intros Hint. revert q. induction Hint as [|l ls Hl _ IH]; intros q; simpl.
  { intros [= ->]. lia. }
  destruct (fire l q) as [q1|] eqn:Hfire; [|done]. simpl. intros Hall%IH.
  pose proof (fire_weight _ _ _ Hl Hfire). lia.
Qed.

Lemma fire_all_reach r0 ls q q' : qreach r0 q → fire_all ls q = Some q' → qreach r0 q'.
Proof.
  revert q. induction ls as [|l ls IH]; intros q Hq; simpl; [by intros [= <-]|].
  destruct (fire l q) as [q1|] eqn:Hfire; [|done]. simpl. intros Hall.
  eapply IH; [|done]. by eapply qreach_step.
Qed.

Context (Hrepo : ∀ ctx p d (r : R), no_panic (ApplyDamageNaive ctx p d r).1).

(** A worker that is busy or has requests can move. *)
Lemma worker_progress r0 q w wk b :
  inv r0 q → workers q !! w = Some wk → chans q !! w = Some b → wk_pc wk ≠ WIdle ∨ b ≠ [] →
  ∃ l q', internal l ∧ fire l q = Some q'.
Proof.
  intros Hq Hw Hb Hbusy. pose proof (inv_worker _ _ Hq _ _ Hw) as Hwc.
  destruct (wk_pc wk) as [|r|r res] eqn:Hpc.
  - destruct b as [|r b]; [naive_solver|]. eexists (LRecv w), _. split; [done|].
    simpl. unfold do_Recv. rewrite Hw. simpl. rewrite Hwc, Hb. simpl. by rewrite Hpc.
  - destruct (inv_waiting _ _ _ _ _ r Hq Hw Hb) as (_ & _ & _ & c & Hc & _).
    { unfold held. rewrite Hpc. by left. }
    exists (LRepo w). simpl. unfold do_Repo. rewrite Hw. simpl. rewrite Hpc, Hc. simpl.
    pose proof (Hrepo (c_ctx c) (rq_player r) (rq_damage r) (repo q)) as Hnp.
    destruct (ApplyDamageNaive _ _ _ _) as [[a|e|x] r']; [by eexists..|done].
  - destruct (inv_replying _ _ Hq w wk r res Hw Hpc) as (_ & _ & c & Hc & Hn).
    exists (LReply w). simpl. unfold do_Reply. rewrite Hw. simpl. rewrite Hpc, Hc. simpl.
    rewrite Hn. by eexists.
Qed.

Lemma progress r0 q i c :
  inv r0 q → callers q !! i = Some c → ¬ finished c → ∃ l q', internal l ∧ fire l q = Some q'.
Proof.
  intros Hq Hi Hfin. destruct (c_pc c) as [|ch| |res] eqn:Hpc.
  - exists (LEnter i). simpl. unfold do_Enter. rewrite Hi. simpl. rewrite Hpc.
    destruct (damage_refused _); [by eexists|]. destruct (getOrCreate _ _). by eexists.
  - destruct (inv_enqueue _ _ Hq i c ch Hi Hpc) as [Hch _].
    destruct (inv_chan _ _ _ _ Hq Hch) as (b & wk & Hb & Hw).
    destruct (decide (length b < QueueCapacity)%nat) as [Hroom|Hfull].
    + exists (LSend i). simpl. unfold do_Send. rewrite Hi. simpl. rewrite Hpc, Hb. simpl.
      rewrite decide_True by done. by eexists.
    + eapply worker_progress; [done..|]. right. intros ->. unfold QueueCapacity in Hfull. simpl in *. lia.
  - destruct (c_resp c) as [res|] eqn:Hres.
    + exists (LTake i). simpl. unfold do_Take. rewrite Hi. simpl. rewrite Hres. simpl.
      rewrite Hpc. by eexists.
    + pose proof (inv_await _ _ Hq i c Hi Hpc) as Hsent.
      destruct (queues q !! c_player c) as [ch|] eqn:Hch.
      2:{ destruct (inv_noqueue _ _ Hq _ Hch) as [Hnil _].
          assert (Hin : req_of i c ∈ for_player (c_player c) (sent q)) by by apply elem_for_player.
          rewrite Hnil in Hin. by apply elem_of_nil in Hin. }
      destruct (inv_chan _ _ _ _ Hq Hch) as (b & wk & Hb & Hw).
      assert (Hin : req_of i c ∈ for_player (c_player c) (sent q)) by by apply elem_for_player.
      rewrite (inv_line _ _ Hq _ _ _ _ Hch Hb Hw), elem_of_app in Hin.
      destruct Hin as [Hin|Hin].
      * apply elem_for_player in Hin as [Hin _].
        apply list_elem_of_fmap in Hin as ([r res] & Hr & Hin). simpl in Hr. subst r.
        destruct (inv_pending _ _ Hq _ _ Hin) as [(w & wk' & Hw' & Hpc')|(c' & Hc' & Hor)].
        -- destruct (inv_player _ _ _ _ Hq Hw') as (_ & b' & _ & Hb' & _).
           eapply (worker_progress _ _ _ _ b' Hq Hw'); [done|]. left. by rewrite Hpc'.
        -- simpl in Hc'. simplify_eq. destruct Hor; [congruence|done].
      * eapply (worker_progress _ _ _ _ b Hq Hw Hb).
        destruct (wk_pc wk) eqn:Hwpc; [|by left..]. right. intros ->. unfold held in Hin.
        rewrite Hwpc in Hin. by apply elem_of_nil in Hin.
  - destruct Hfin. by exists res.
Qed.
End progress.

(** ** Properties *)

(** The hits of a log. *)
Definition hits_of (log : list (queueReq * result Z)) : list (string * Z) :=
  (λ e, (rq_player e.1, rq_damage e.1)) <$> log.

Section properties.
Context {R : Type} `{!BattleRepoOps R}.
Implicit Types (q : qstate R).

(** No channel ever holds more than its capacity. *)
Lemma reach_capacity r0 q ch b :
  qreach r0 q → chans q !! ch = Some b → (length b <= QueueCapacity)%nat.
Proof.
  intros Hq. revert ch b. induction Hq as [|q l q' Hq IH Hfire]; intros ch b; [done|].
  assert (Hset : ∀ ch' b' q1, chans q1 = <[ch' := b']> (chans q) → (length b' <= QueueCapacity)%nat →
    chans q1 !! ch = Some b → (length b <= QueueCapacity)%nat).
  { intros ch' b' q1 -> Hb' [[_ ->]|[_ ?]]%lookup_insert_inv; [done|eauto]. }
  destruct l as [| |i|i|i|i|w|w|w]; simpl in Hfire.
  - injection Hfire as <-. apply IH.
  - unfold do_Cancel in Hfire. destruct (callers q !! i); [|done]. simpl in Hfire.
    destruct (decide _); [|done]. injection Hfire as <-. apply IH.
  - unfold do_Enter in Hfire. destruct (callers q !! i) as [c|]; [|done]. simpl in Hfire.
    destruct (c_pc c); try done. destruct (damage_refused _); [injection Hfire as <-; apply IH|].
    unfold getOrCreate in Hfire. destruct (queues q !! c_player c); injection Hfire as <-; [apply IH|].
    simpl. intros [[_ ->]|?]%lookup_snoc_inv; [simpl; lia|eauto].
  - unfold do_Send in Hfire. destruct (callers q !! i) as [c|]; [|done]. simpl in Hfire.
    destruct (c_pc c) as [|ch'| |]; try done. destruct (chans q !! ch') as [b'|]; [|done].
    simpl in Hfire. destruct (decide _); [|done]. injection Hfire as <-.
    eapply Hset; [done|]. rewrite length_app. simpl. lia.
  - unfold do_GiveUp in Hfire. destruct (callers q !! i) as [c|]; [|done]. simpl in Hfire.
    destruct (c_ctx c); [|done]. simpl in Hfire. destruct (c_pc c); simplify_eq; apply IH.
  - unfold do_Take in Hfire. destruct (callers q !! i) as [c|]; [|done]. simpl in Hfire.
    destruct (c_resp c); [|done]. simpl in Hfire. destruct (c_pc c); simplify_eq; apply IH.
  - unfold do_Recv in Hfire. destruct (workers q !! w) as [wk|]; [|done]. simpl in Hfire.
    destruct (chans q !! wk_chan wk) as [b'|] eqn:Hb'; [|done]. simpl in Hfire.
    destruct (wk_pc wk), b' as [|rq b']; simplify_eq. eapply Hset; [done|].
    apply IH in Hb'. simpl in Hb'. lia.
  - unfold do_Repo in Hfire. destruct (workers q !! w) as [wk|]; [|done]. simpl in Hfire.
    destruct (wk_pc wk); try done. destruct (callers q !! _) as [c|]; [|done].
    simpl in Hfire. destruct (ApplyDamageNaive _ _ _ _) as [[a|e|x] r']; simplify_eq; apply IH.
  - unfold do_Reply in Hfire. destruct (workers q !! w) as [wk|]; [|done]. simpl in Hfire.
    destruct (wk_pc wk); try done. destruct (callers q !! _) as [c|]; [|done].
    simpl in Hfire. destruct (c_resp c); simplify_eq; apply IH.
Qed.

Lemma NoDup_fmap_inj {A B} (f : A → B) (l : list A) x y :
  NoDup (f <$> l) → x ∈ l → y ∈ l → f x = f y → x = y.
Proof.
  intros Hnd [j Hj]%list_elem_of_lookup [k Hk]%list_elem_of_lookup Heq.
  assert (j = k) as ->; [|congruence].
  eapply (proj1 (NoDup_alt _) Hnd); rewrite list_lookup_fmap; [by rewrite Hj|by rewrite Hk, Heq].
Qed.

Lemma NoDup_players l : (∀ p, NoDup (for_player p l)) → NoDup l.
Proof.
  induction l as [|r l IH]; intros Hnd; [by apply NoDup_nil|].
  assert (Hp : ∀ p, for_player p (r :: l) = for_player p [r] ++ for_player p l)
    by (intros p; apply (for_player_app p [r] l)).
  apply NoDup_cons. split.
  - intros Hr. specialize (Hnd (rq_player r)). rewrite Hp, for_player_one, decide_True in Hnd by done.
    apply NoDup_cons in Hnd as [Hnot _]. apply Hnot. by apply elem_for_player.
  - apply IH. intros p. specialize (Hnd p). rewrite Hp in Hnd. by apply NoDup_app in Hnd as (_ & _ & ?).
Qed.

(** The callers of the applied requests are distinct. *)
Lemma applied_nodup r0 q : inv r0 q → NoDup (rq_caller <$> (applied q).*1).
Proof.
  intros Hq. apply NoDup_fmap_2_strong.
  - intros r r' Hr Hr'. apply (sent_inj r0 q); [done|by eapply applied_sent..].
  - apply NoDup_players. intros p. destruct (queues q !! p) as [ch|] eqn:Hp.
    + destruct (inv_chan _ _ _ _ Hq Hp) as (b & wk & Hb & Hw).
      assert (Hnd : NoDup (for_player p (sent q)))
        by (apply NoDup_filter, (NoDup_fmap_1 rq_caller), (inv_nodup _ _ Hq)).
      rewrite (inv_line _ _ Hq _ _ _ _ Hp Hb Hw) in Hnd. by apply NoDup_app in Hnd as [? _].
    + destruct (inv_noqueue _ _ Hq _ Hp) as [_ ->]. by apply NoDup_nil.
Qed.

(** One writer per player. In every state the goroutines can reach, two
    repository calls in progress for one player are one call of one worker:
    the repository never sees two at once, however the callers interleave. *)
Theorem V2_one_writer (r0 : R) (q : qstate R) (w w' : nat) (wk wk' : worker) (r r' : queueReq)
    (Hq : qreach r0 q)
    (Hw : workers q !! w = Some wk) (Hc : wk_pc wk = WCalling r)
    (Hw' : workers q !! w' = Some wk') (Hc' : wk_pc wk' = WCalling r')
    (Hplayer : rq_player r = rq_player r') :
  w = w' ∧ r = r'.
Proof.
  apply inv_reach in Hq.
  destruct (inv_player _ _ _ _ Hq Hw) as (_ & b & _ & Hb & _).
  destruct (inv_player _ _ _ _ Hq Hw') as (_ & b' & _ & Hb' & _).
  destruct (inv_waiting _ _ _ _ _ r Hq Hw Hb) as (_ & _ & Hp & _); [unfold held; rewrite Hc; by left|].
  destruct (inv_waiting _ _ _ _ _ r' Hq Hw' Hb') as (_ & _ & Hp' & _); [unfold held; rewrite Hc'; by left|].
  assert (w = w') as -> by congruence. split; [done|]. congruence.
Qed.

(** C7. Order and answers. In every reachable state the repository is the
    result of the applied calls one after the other from the start; the
    applied requests of a player are a prefix of its requests in the order they
    entered its channel, at most 65 behind; no request is applied twice; and a
    caller that returned hit points got the result of the one application of
    its own request. *)
Theorem V2_linearizable (r0 : R) (q : qstate R) (Hq : qreach r0 q) :
  replays r0 (applied q) (repo q) ∧
  NoDup (rq_caller <$> (applied q).*1) ∧
  (∀ p, ∃ rest, for_player p (sent q) = for_player p (applied q).*1 ++ rest ∧
     (length rest <= 1 + QueueCapacity)%nat) ∧
  (∀ i c hp, callers q !! i = Some c → c_pc c = ADone (Ok hp) →
     (req_of i c, Ok hp) ∈ applied q ∧
     ∀ r res, (r, res) ∈ applied q → rq_caller r = i → r = req_of i c ∧ res = Ok hp).
Proof.
  pose proof (inv_reach _ _ Hq) as Hinv.
  pose proof (applied_nodup _ _ Hinv) as Hnd.
  split_and!; [by apply inv_repo|done| |].
  - intros p. destruct (queues q !! p) as [ch|] eqn:Hp.
    + destruct (inv_chan _ _ _ _ Hinv Hp) as (b & wk & Hb & Hw).
      exists (held wk ++ b). split; [by eapply inv_line|].
      pose proof (reach_capacity _ _ _ _ Hq Hb) as Hcap. rewrite length_app.
      unfold held. destruct (wk_pc wk); simpl; lia.
    + destruct (inv_noqueue _ _ Hinv _ Hp) as [-> ->]. exists []. simpl. split; [done|lia].
  - intros i c hp Hi Hpc. pose proof (inv_done _ _ Hinv _ _ _ Hi Hpc) as Happ. split; [done|].
    intros r res Hr Hri.
    assert (H2 : (r, res) = (req_of i c, Ok hp)); [|by injection H2].
    rewrite <- list_fmap_compose in Hnd.
    by apply (NoDup_fmap_inj (rq_caller ∘ fst) (applied q)).
Qed.

Lemma drain (Hrepo : ∀ ctx p d (r : R), no_panic (ApplyDamageNaive ctx p d r).1) r0 q :
  qreach r0 q → ∃ ls q', Forall internal ls ∧ fire_all ls q = Some q' ∧
    ∀ i c, callers q' !! i = Some c → finished c.
Proof.
  remember (weight q) as n eqn:Hn. revert q Hn.
  induction n as [n IH] using lt_wf_ind. intros q -> Hq.
  destruct (decide (Forall finished (callers q))) as [Hall|Hsome].
  - exists [], q. split_and!; [constructor|done|].
    intros i c Hi. by eapply (proj1 (Forall_lookup _ _) Hall).
  - apply not_Forall_Exists in Hsome; [|apply _].
    apply Exists_exists in Hsome as (c & [i Hi]%list_elem_of_lookup & Hfin).
    destruct (progress Hrepo r0 q i c) as (l & q1 & Hl & Hfire); [by apply inv_reach|done|done|].
    destruct (IH (weight q1)) with (q := q1) as (ls & q' & Hls & Hrun & Hdone);
      [by eapply fire_weight|done|by eapply qreach_step|].
    exists (l :: ls), q'. split_and!; [by constructor| |done]. simpl. by rewrite Hfire.
Qed.

(** C22. No deadlock, no livelock. Over a repository that does not panic, and
    without new calls: the goroutines of a reachable state can take at most
    [weight] further steps whatever the scheduler does, and as long as a call
    has not returned one of them can move; so every run that goes on as long as
    it can ends, with every call returned. *)
Theorem V2_drains (r0 : R) (q : qstate R)
    (Hrepo : ∀ ctx p d (r : R), no_panic (ApplyDamageNaive ctx p d r).1) (Hq : qreach r0 q) :
  (∀ ls q', Forall internal ls → fire_all ls q = Some q' →
     (length ls + weight q' <= weight q)%nat ∧
     ((∀ l, internal l → fire l q' = None) →
        ∀ i c, callers q' !! i = Some c → finished c)) ∧
  ∃ ls q', Forall internal ls ∧ fire_all ls q = Some q' ∧
    ∀ i c, callers q' !! i = Some c → finished c.
Proof.
  split.
  - intros ls q' Hls Hrun. split; [by apply fire_all_weight|]. intros Hstuck i c Hi.
    destruct (finished_dec c) as [?|Hno]; [done|].
    destruct (progress Hrepo r0 q' i c) as (l & q1 & Hl & Hfire); [|done|done|].
    + by eapply inv_reach, fire_all_reach.
    + by rewrite Hstuck in Hfire.
  - by apply (drain Hrepo r0).
Qed.
End properties.

(** ** On the in-memory repository *)

Section inmem.

Lemma apply_all_app hits hits' r :
  apply_all (hits ++ hits') r = apply_all hits' (apply_all hits r).
Proof. revert r. induction hits as [|[p d] hits IH]; intros r; [done|apply IH]. Qed.

Lemma replays_inmem r0 log r :
  replays r0 log r →
  r = apply_all (hits_of log) r0 ∧
  ∀ pre rq res post, log = pre ++ (rq, res) :: post →
    res = Ok (hp_of (apply_all (hits_of (pre ++ [(rq, res)])) r0) (rq_player rq)).
Proof.
  induction 1 as [|log r ctx rq res r' _ [IHr IHres] Happ].
  { split; [done|]. by intros [|? ?]. }
  assert (Hr' : r' = apply_all (hits_of (log ++ [(rq, res)])) r0).
  { unfold hits_of. rewrite fmap_app, apply_all_app. fold (hits_of log). rewrite <- IHr.
    cbn [fmap list_fmap apply_all fst]. by injection Happ as _ <-. }
  split; [done|]. intros pre rq' res' post Heq.
  destruct post as [|e post _] using rev_ind.
  - apply app_inj_tail in Heq as [<- [= <- <-]]. rewrite <- Hr'.
    injection Happ as <- <-. unfold hp_of. simpl. by rewrite lookup_insert_eq.
  - rewrite app_comm_cons, app_assoc in Heq. apply app_inj_tail in Heq as [Heq _].
    by apply (IHres pre rq' res' post).
Qed.

Lemma applied_valid (r0 : BattleRepo) q : qreach r0 q → Forall valid_hit (hits_of (applied q)).
Proof.
  intros Hq%inv_reach. apply Forall_fmap, Forall_forall. intros e He.
  assert (Hs : e.1 ∈ sent q) by (eapply applied_sent; [done|by apply list_elem_of_fmap_2]).
  by destruct (inv_sent _ _ Hq _ Hs) as [? _].
Qed.

(** The queue computes what the naive applier computes. On the in-memory
    repository, at every moment of every interleaving, the repository is the
    one the naive applier would have after the applied hits in sequence, every
    player has [max 0 (10000 - damage applied to it)], and the answer to each
    hit is that value at its own moment. *)
Theorem V2_hit_points (q : qstate BattleRepo) (Hq : qreach NewBattleRepo q) :
  repo q = apply_all (hits_of (applied q)) NewBattleRepo ∧
  (∀ p, hp_of (repo q) p = Z.max 0 (DefaultInitialHP - damage_to p (hits_of (applied q)))) ∧
  (∀ pre rq res post, applied q = pre ++ (rq, res) :: post →
     res = Ok (Z.max 0 (DefaultInitialHP -
       damage_to (rq_player rq) (hits_of (pre ++ [(rq, res)]))))).
Proof.
  pose proof (applied_valid _ _ Hq) as Hvalid.
  destruct (replays_inmem _ _ _ (inv_repo _ _ (inv_reach _ _ Hq))) as [Hrepo Hres].
  assert (H0 : ∀ p, hp_of NewBattleRepo p = DefaultInitialHP)
    by (intros p; unfold hp_of; simpl; by rewrite lookup_empty).
  assert (Hrange : ∀ p, 0 <= hp_of NewBattleRepo p < int64_half)
    by (intros p; rewrite H0; unfold DefaultInitialHP; int_range).
  split_and!; [done| |].
  - intros p. by rewrite Hrepo, hp_of_hits, H0.
  - intros pre rq res post Heq. rewrite (Hres _ _ _ _ Heq) at 1. f_equal.
    rewrite hp_of_hits, H0; [done| |done].
    rewrite Heq in Hvalid. unfold hits_of in Hvalid |- *.
    rewrite !fmap_app in *. apply Forall_app in Hvalid as [Hpre Hpost]. apply Forall_app.
    split; [done|]. by apply Forall_cons in Hpost as [? _]; constructor.
Qed.
End inmem.

(** ** A concrete run

    Two requests for one player and one for another; the second is abandoned
    while it waits, and applied all the same. *)
Definition demo_labels : list label :=
  [LCall "p" 300; LCall "p" 9900; LCall "r" 5; LCall "p" 0; LEnter 0; LEnter 1; LEnter 2; LEnter 3;
   LSend 1; LSend 0; LSend 2; LRecv 0; LRecv 1; LRepo 1; LCancel 0 (ErrorsNew "ctx" "context canceled");
   LGiveUp 0; LRepo 0; LReply 1; LReply 0; LTake 2; LTake 1; LRecv 0; LRepo 0; LReply 0].

Definition demo_queue : qstate BattleRepo :=
  default (NewV2UserQueue NewBattleRepo) (fire_all demo_labels (NewV2UserQueue NewBattleRepo)).

Lemma demo_reach : qreach NewBattleRepo demo_queue.
Proof.
  apply (fire_all_reach _ demo_labels (NewV2UserQueue NewBattleRepo)); [constructor|].
  vm_compute. reflexivity.
Qed.

Example demo_answers :
  c_pc <$> callers demo_queue =
  [ADone (Err (Errorf_w "await" (ErrorsNew "ctx" "context canceled"))); ADone (Ok 100);
   ADone (Ok 9995); ADone (Err battle_ErrInvalidDamage)] ∧
  hp_of (repo demo_queue) "p" = 0.
Proof. split; vm_compute; reflexivity. Qed.

Lemma V2_one_writer_witness :
  ∃ q : qstate BattleRepo, qreach NewBattleRepo q ∧ ∃ wk r, workers q !! 0%nat = Some wk ∧
    wk_pc wk = WCalling r ∧ (0%nat = 0%nat ∧ r = r).
Proof.
  destruct (fire_all (take 13 demo_labels) (NewV2UserQueue NewBattleRepo)) as [q|] eqn:E;
    [|vm_compute in E; discriminate E].
  assert (Hq : qreach NewBattleRepo q)
    by (apply (fire_all_reach _ (take 13 demo_labels) (NewV2UserQueue NewBattleRepo)); [constructor|done]).
  vm_compute in E. injection E as <-.
  eexists. split; [exact Hq|]. eexists _, _. split; [reflexivity|]. split; [reflexivity|].
  exact (V2_one_writer NewBattleRepo _ 0 0 _ _ _ _ Hq eq_refl eq_refl eq_refl eq_refl eq_refl).
Defined.

Lemma V2_linearizable_witness :
  ∃ rest, for_player "p" (sent demo_queue) = for_player "p" (applied demo_queue).*1 ++ rest.
Proof.
  destruct (V2_linearizable NewBattleRepo demo_queue demo_reach) as (_ & _ & Hp & _).
  destruct (Hp "p") as (rest & Heq & _). exists rest. exact Heq.
Defined.

Lemma V2_drains_witness :
  ∃ ls q', Forall internal ls ∧ fire_all ls demo_queue = Some q' ∧
    ∀ i c, callers q' !! i = Some c → finished c.
Proof.
  apply (V2_drains NewBattleRepo demo_queue); [|exact demo_reach]. intros. exact I.
Defined.

Lemma V2_hit_points_witness :
  hp_of (repo demo_queue) "r" = Z.max 0 (DefaultInitialHP - 5).
Proof.
  destruct (V2_hit_points demo_queue demo_reach) as (_ & Hhp & _). rewrite (Hhp "r").
  vm_compute. reflexivity.
Defined.
