(* ===== verification/QueueApply.v ===== *)
(** * A call of the queued applier, from beginning to end

    [V2UserQueue.Apply] of [internal/service/battle/service.go] as its caller sees
    it: the call enters the transition system of [BattleQueue], the goroutines
    take steps in an order that a plan gives, then in any order until the call
    has returned. *)

From S2P Require Import GoLang Battle BattleQueue.

(** ** The call *)

Section apply.
Context {R : Type} `{!BattleRepoOps R}.
Implicit Types (q : qstate R).

(** A label that is not enabled is skipped. *)
Definition obey q (l : label) : qstate R := default q (fire l q).

(** The steps the goroutines of a state may take. *)
Definition internal_labels q : list label :=
  (seq 0 (length (callers q)) ≫= λ i, [LEnter i; LSend i; LTake i; LGiveUp i]) ++
  (seq 0 (length (workers q)) ≫= λ w, [LRecv w; LRepo w; LReply w]).

(** The outcome of call [i], when it has returned. *)
Definition returned q (i : nat) : option (result Z) :=
  match c_pc <$> callers q !! i with
  | Some (ADone res) => Some res
  | _ => None
  end.

(** Steps until call [i] has returned. *)
Fixpoint settle (fuel i : nat) q : qstate R :=
  match fuel, returned q i with
  | Datatypes.S fuel', None =>
      match list_find (λ l, is_Some (fire l q)) (internal_labels q) with
      | Some (_, l) => settle fuel' i (obey q l)
      | None => q
      end
  | _, _ => q
  end.

(** [ctx] is the error of a context that is done at the call. A worker that panics
    ends the program. *)
Definition V2UserQueue_Apply (plan : list label) (ctx : option error) (playerID : string) (damage : Z)
    : M (qstate R) Z := λ q,
  let i := length (callers q) in
  let q1 := foldl obey q (LCall playerID damage :: option_list (LCancel i <$> ctx) ++ plan) in
  let q2 := settle (weight q1) i q1 in
  match returned q2 i with
  | Some res => (res, q2)
  | None => (Panic "panic in a worker", q2)
  end.
End apply.

(** The service with the plans of the calls to come. *)
Record Queued (R : Type) := { plans : list (list label); service : qstate R }.
Arguments plans {R} _.
Arguments service {R} _.

#[export] Instance V2UserQueue_Applier {R} `{!BattleRepoOps R} : ApplierOps (Queued R) :=
  λ ctx playerID damage a,
    let '(res, q) := V2UserQueue_Apply (default [] (head (plans a))) ctx playerID damage (service a) in
    (res, {| plans := tail (plans a); service := q |}).

(** ** Every call returns *)

Section returns.
Context {R : Type} `{!BattleRepoOps R}.
Implicit Types (q : qstate R).

Lemma fire_enabled l q q' : internal l → fire l q = Some q' → l ∈ internal_labels q.
Proof.
  intros Hint Hfire. unfold internal_labels. rewrite elem_of_app, !list_elem_of_bind.
  assert (∀ {A} (xs : list A) i, is_Some (xs !! i) → i ∈ seq 0 (length xs)) as Hseq.
  { intros A xs i Hi. apply elem_of_seq. apply lookup_lt_is_Some in Hi. lia. }
  destruct l as [| |i|i|i|i|w|w|w]; try done; simpl in Hfire;
    unfold do_Enter, do_Send, do_GiveUp, do_Take, do_Recv, do_Repo, do_Reply in Hfire;
    apply bind_Some in Hfire as (x & Hx & _); [left|left|left|left|right|right|right];
    (eexists; split; [|by apply Hseq; eexists]; set_solver).
Qed.

(** Calls stay. *)
Lemma fire_callers l q q' :
  fire l q = Some q' → (length (callers q) <= length (callers q'))%nat.
Proof.
  destruct l as [| |i|i|i|i|w|w|w]; simpl;
    unfold do_Cancel, do_Enter, do_Send, do_GiveUp, do_Take, do_Recv, do_Repo, do_Reply;
    [intros [= <-]; simpl; rewrite length_app; lia|intros (x & Hx & H)%bind_Some..].
  - case_decide; simplify_eq/=. by rewrite length_insert.
  - pose proof (getOrCreate_callers (c_player x) q) as Hc. destruct (getOrCreate _ _) as [ch q1].
    repeat case_match; simplify_eq/=; rewrite length_insert; by rewrite ?Hc.
  - destruct (c_pc x); try done. apply bind_Some in H as (b & _ & H). case_decide; simplify_eq/=.
    by rewrite length_insert.
  - apply bind_Some in H as (e & _ & H). destruct (c_pc x); simplify_eq/=; by rewrite length_insert.
  - apply bind_Some in H as (e & _ & H). destruct (c_pc x); simplify_eq/=; by rewrite length_insert.
  - apply bind_Some in H as (b & _ & H). destruct (wk_pc x), b; by simplify_eq/=.
  - destruct (wk_pc x); try done. apply bind_Some in H as (c & _ & H).
    destruct (ApplyDamageNaive _ _ _ _) as [[] ?]; by simplify_eq/=.
  - destruct (wk_pc x); try done. apply bind_Some in H as (c & _ & H). destruct (c_resp c); simplify_eq/=.
    by rewrite length_insert.
Qed.

Lemma returned_finished q i c : callers q !! i = Some c → is_Some (returned q i) ↔ finished c.
Proof.
  intros Hc. unfold returned, finished. rewrite Hc. simpl. destruct (c_pc c); split;
    (intros [r Hr]; try done; by eexists).
Qed.

Lemma weight_returned q i c : callers q !! i = Some c → weight q = 0%nat → is_Some (returned q i).
Proof.
  intros Hc Hw. apply (returned_finished q i c Hc).
  pose proof (sum_list_with_insert caller_weight (callers q) i c c Hc) as Hs.
  assert (caller_weight c = 0%nat) as H0.
  { unfold weight in Hw. apply list_elem_of_split_length in Hc as (l1 & l2 & E & _).
    rewrite E, sum_list_with_app in Hw. simpl in Hw. lia. }
  unfold caller_weight, finished in *. destruct (c_pc c); [lia..|by eexists].
Qed.

(** Enough fuel, when a call that has not returned can always be helped. *)
Lemma settle_ind (P : qstate R → Prop) fuel i q :
  (∀ q, P q → returned q i = None → ∃ l q', internal l ∧ fire l q = Some q') →
  (∀ l q q', P q → internal l → fire l q = Some q' → P q') →
  (∀ q, P q → is_Some (callers q !! i)) →
  P q → (weight q <= fuel)%nat → P (settle fuel i q) ∧ is_Some (returned (settle fuel i q) i).
Proof.
  intros Hlive Hstep Hex. revert q. induction fuel as [|fuel IH]; intros q HP Hw;
    destruct (Hex q HP) as [c Hc]; cbn [settle].
  { split; [done|]. eapply weight_returned; [done|lia]. }
  destruct (returned q i) as [res|] eqn:Hret; [by rewrite Hret|].
  destruct (Hlive q HP Hret) as (l0 & q0 & Hl0 & Hf0).
  destruct (list_find _ _) as [[n l]|] eqn:Hfind.
  - apply list_find_Some in Hfind as (Hl%list_elem_of_lookup_2 & [q' Hf] & _).
    assert (internal l) as Hint.
    { unfold internal_labels in Hl. rewrite elem_of_app, !list_elem_of_bind in Hl.
      destruct Hl as [(x & Hx & _)|(x & Hx & _)]; repeat (apply elem_of_cons in Hx as [->|Hx]; [done|]);
        by apply not_elem_of_nil in Hx. }
    unfold obey. rewrite Hf. change (default q (Some q')) with q'. apply IH; [by eapply Hstep|].
    pose proof (fire_weight _ _ _ Hint Hf). lia.
  - apply list_find_None in Hfind. rewrite Forall_forall in Hfind.
    destruct (Hfind l0); [by eapply fire_enabled|by eexists].
Qed.
End returns.

Section calls.
Context {R : Type} `{!BattleRepoOps R}.
Implicit Types (q : qstate R).

(** Whatever the goroutines did before and do meanwhile, also when the call gives
    up: it returns, and the state is one that the service can reach. *)
Lemma V2_Apply_returns r0 plan ctx p d q :
  (∀ ctx p d (r : R), no_panic (ApplyDamageNaive ctx p d r).1) → qreach r0 q →
  let '(res, q') := V2UserQueue_Apply plan ctx p d q in
  qreach r0 q' ∧ ∃ c, callers q' !! length (callers q) = Some c ∧ c_pc c = ADone res.
Proof.
  intros Hrepo Hq. unfold V2UserQueue_Apply. set (i := length (callers q)).
  set (P := λ q : qstate R, qreach r0 q ∧ (i < length (callers q))%nat).
  assert (∀ ls q, P q → P (foldl obey q ls)) as Hobey.
  { intros ls. induction ls as [|l ls IH]; intros q2 Hq2; [done|]. apply IH. unfold obey.
    destruct (fire l q2) as [q3|] eqn:E; [|done]. destruct Hq2. split; [by eapply qreach_step|].
    simpl. pose proof (fire_callers _ _ _ E). lia. }
  cbn [foldl]. set (q1 := foldl obey _ _).
  assert (P q1) as Hq1.
  { apply Hobey. split; [by eapply (qreach_step _ _ (LCall p d))|]. subst i. simpl. rewrite length_app. simpl. lia. }
  destruct (settle_ind P (weight q1) i q1) as [[Hq2 _] [res Hres]]; [..|done|done|].
  - intros q2 [Hq2 [c Hc]%lookup_lt_is_Some_2] Hret. eapply progress; [done|by apply inv_reach|done|].
    intros Hfin. apply (returned_finished q2 i c Hc) in Hfin. rewrite Hret in Hfin. by destruct Hfin.
  - intros l q2 q3 [Hq2 Hlen] _ E. split; [by eapply qreach_step|]. pose proof (fire_callers _ _ _ E). lia.
  - intros q2 [_ Hlen]. by apply lookup_lt_is_Some_2.
  - rewrite Hres. split; [done|]. unfold returned in Hres.
    destruct (callers _ !! i) as [c|]; [|done]. exists c. split; [done|]. simpl in Hres.
    by destruct (c_pc c); simplify_eq.
Qed.
End calls.

(** ** A call alone

    When nobody else is at work, the call is the naive one. *)

(** Every call has returned, every worker waits, every channel is empty. *)
Record idle {R} (q : qstate R) : Prop := {
  idle_callers i c : callers q !! i = Some c → finished c;
  idle_workers w wk : workers q !! w = Some wk → wk = {| wk_chan := w; wk_pc := WIdle |};
  idle_chans ch b : chans q !! ch = Some b → b = [];
  idle_queues p ch : queues q !! p = Some ch → (ch < length (chans q))%nat;
  idle_length : length (workers q) = length (chans q) }.

Section alone.
Context {R : Type} `{!BattleRepoOps R}.
Implicit Types (q : qstate R).

Lemma idle_start (r : R) : idle (NewV2UserQueue r).
Proof. by split; simpl; intros; simplify_eq; rewrite ?lookup_empty in *. Qed.

Lemma idle_getOrCreate p q :
  idle q → idle (getOrCreate p q).2 ∧ ((getOrCreate p q).1 < length (chans (getOrCreate p q).2))%nat ∧
  callers (getOrCreate p q).2 = callers q.
Proof.
  intros Hq. unfold getOrCreate. destruct (queues q !! p) as [ch|] eqn:Hp.
  { split; [done|]. by split; [eapply idle_queues|]. }
  simpl. rewrite length_app. simpl. split; [|split_and!; done || lia]. destruct Hq. split; simpl; try done.
  - intros w wk [[-> ->]|Hw]%lookup_snoc_inv; [by rewrite idle_length0|by apply idle_workers0].
  - intros ch b [[_ ->]|Hb]%lookup_snoc_inv; [done|by eapply idle_chans0].
  - intros p' ch. rewrite length_app. simpl. rewrite lookup_insert_Some.
    intros [[_ <-]|[_ Hp'%idle_queues0]]; lia.
  - rewrite !length_app. simpl. lia.
Qed.

(** An idle state in which one more call [c] and the worker of its channel [ch]
    are at work. *)
Definition at_work q (ch : nat) (c : caller) (b : list queueReq) (pc : worker_pc) (r : R)
    (s : list queueReq) (a : list (queueReq * result Z)) : qstate R :=
  {| queues := queues q; chans := <[ch := b]> (chans q);
     workers := <[ch := {| wk_chan := ch; wk_pc := pc |}]> (workers q);
     callers := callers q ++ [c]; repo := r; sent := s; applied := a |}.

(** The steps that are possible then. *)
Lemma at_work_fire q ch c b pc r s a l q' :
  idle q → internal l → fire l (at_work q ch c b pc r s a) = Some q' →
  let i := length (callers q) in l ∈ [LEnter i; LSend i; LTake i; LGiveUp i; LRecv ch; LRepo ch; LReply ch].
Proof.
  intros Hq Hint. set (i := length (callers q)). cbv zeta.
  assert (∀ j x, (callers q ++ [c]) !! j = Some x → j = i ∨ finished x) as Hcallers.
  { intros j x [[-> _]|Hj]%lookup_snoc_inv; [by left|right]. by eapply idle_callers. }
  assert (∀ w wk, <[ch := {| wk_chan := ch; wk_pc := pc |}]> (workers q) !! w = Some wk →
    w = ch ∨ wk = {| wk_chan := w; wk_pc := WIdle |} ∧ w ≠ ch) as Hworkers.
  { intros w wk [[-> _]|[Hne Hw]]%lookup_insert_inv; [by left|right]. split; [by eapply idle_workers|done]. }
  destruct l as [| |j|j|j|j|w|w|w]; try done; simpl;
    unfold do_Enter, do_Send, do_GiveUp, do_Take, do_Recv, do_Repo, do_Reply; intros (x & Hx & H)%bind_Some;
    cbn [callers workers chans at_work] in *;
    first [destruct (Hcallers _ _ Hx) as [->|[res Hfin]]; [set_solver|]; rewrite Hfin in H;
             by repeat (apply bind_Some in H as (? & _ & H))
          |destruct (Hworkers _ _ Hx) as [->|[-> Hne]]; [set_solver|]; cbn [wk_pc wk_chan] in H]; [|done..].
  apply bind_Some in H as (b' & Hb & H). apply lookup_insert_inv in Hb as [[? _]|[_ Hb]]; [done|].
  by rewrite (idle_chans _ Hq _ _ Hb) in H.
Qed.

Section lookups.
Context q (ch : nat) (Hq : idle q) (Hch : (ch < length (chans q))%nat).
Implicit Types (c : caller) (pc : worker_pc) (r : R).

Lemma at_work_caller i c b pc r s a :
  i = length (callers q) → callers (at_work q ch c b pc r s a) !! i = Some c.
Proof. intros ->. simpl. by rewrite lookup_app_r, Nat.sub_diag by done. Qed.

Lemma at_work_chan c b pc r s a : chans (at_work q ch c b pc r s a) !! ch = Some b.
Proof. by apply list_lookup_insert_eq. Qed.

Lemma at_work_worker c b pc r s a :
  workers (at_work q ch c b pc r s a) !! ch = Some {| wk_chan := ch; wk_pc := pc |}.
Proof. apply list_lookup_insert_eq. by rewrite (idle_length _ Hq). Qed.

End lookups.

Lemma insert_snoc {A} (l : list A) i x y : i = length l → <[i := x]> (l ++ [y]) = l ++ [x].
Proof. intros ->. rewrite <- (Nat.add_0_r (length l)). by rewrite insert_app_r. Qed.

Lemma at_work_idle q ch c r s a :
  idle q → at_work q ch c [] WIdle r s a =
    {| queues := queues q; chans := chans q; workers := workers q; callers := callers q ++ [c];
       repo := r; sent := s; applied := a |}.
Proof.
  intros Hq. unfold at_work. f_equal; apply list_insert_id'; intros [x Hx]%lookup_lt_is_Some_2; rewrite Hx; f_equal;
    [by eapply idle_chans|by eapply idle_workers].
Qed.

(** Two states with the same parts. *)
Ltac same_state :=
  unfold set_worker, set_chan, set_caller, at_work; cbn; do 2 f_equal; first [done | by rewrite list_insert_insert_eq | by apply insert_snoc].

(** *** The stages of the call *)

Section stages.
Context q (p : string) (d : Z) (res : result Z) (r' : R).
Hypothesis Hq : idle q.
Hypothesis Hd : 1 <= d <= MaxDamagePerRequest.
Hypothesis Hrun : ApplyDamageNaive None p d (repo q) = (res, r').
Hypothesis Hres : no_panic res.

Abbreviation i := (length (callers q)).
Abbreviation ch := (getOrCreate p q).1.
Abbreviation q1 := (getOrCreate p q).2.

Definition new_call : caller :=
  {| c_player := p; c_damage := d; c_ctx := None; c_resp := None; c_pc := AStart |}.
Definition new_req : queueReq := {| rq_caller := i; rq_player := p; rq_damage := d |}.

Definition stage (k : nat) : qstate R :=
  let before := at_work q1 ch in
  match k with
  | 0 => at_work q (length (chans q)) new_call [] WIdle (repo q) (sent q) (applied q)
  | 1 => before (at_pc (AEnqueue ch) new_call) [] WIdle (repo q) (sent q) (applied q)
  | 2 => before (at_pc AAwait new_call) [new_req] WIdle (repo q) (sent q ++ [new_req]) (applied q)
  | 3 => before (at_pc AAwait new_call) [] (WCalling new_req) (repo q) (sent q ++ [new_req]) (applied q)
  | 4 => before (at_pc AAwait new_call) [] (WReplying new_req res) r' (sent q ++ [new_req])
           (applied q ++ [(new_req, res)])
  | 5 => before (with_resp (Some res) (at_pc AAwait new_call)) [] WIdle r' (sent q ++ [new_req])
           (applied q ++ [(new_req, res)])
  | _ => before (at_pc (ADone res) new_call) [] WIdle r' (sent q ++ [new_req]) (applied q ++ [(new_req, res)])
  end%nat.

Lemma stage_call : fire (LCall p d) q = Some (stage 0).
Proof.
  simpl. unfold do_Call, at_work. do 2 f_equal; [by rewrite list_insert_ge by lia|].
  rewrite list_insert_ge; [done|]. by rewrite (idle_length _ Hq).
Qed.

Lemma stage_enter : fire (LEnter i) (stage 0) = Some (stage 1).
Proof.
  cbn [fire stage]. unfold do_Enter. rewrite at_work_caller by done. cbn [mbind option_bind new_call c_pc c_damage c_player].
  rewrite (proj2 (damage_refused_false d)) by done. rewrite at_work_idle by done.
  pose proof (idle_getOrCreate p q Hq) as Hget. unfold getOrCreate in *. cbn [queues].
  destruct (queues q !! p) as [ch|]; cbn [fst snd]; destruct Hget as [Hq1 _]; rewrite at_work_idle by done;
    unfold set_caller; cbn; do 2 f_equal; by apply insert_snoc.
Qed.

(** The label by which a stage is left. *)
Definition stage_label (k : nat) : label :=
  match k with 0 => LEnter i | 1 => LSend i | 2 => LRecv ch | 3 => LRepo ch | 4 => LReply ch | _ => LTake i end%nat.

Lemma stage_live k : (k < 6)%nat → fire (stage_label k) (stage k) = Some (stage (Datatypes.S k)).
Proof.
  destruct (idle_getOrCreate p q Hq) as (Hq1 & Hch & Hcal). intros Hk.
  assert (i = length (callers q1)) as Hi by by rewrite Hcal.
  destruct k as [|[|[|[|[|[|]]]]]]; [apply stage_enter|..|lia]; cbn [stage_label stage fire];
    unfold do_Send, do_Recv, do_Repo, do_Reply, do_Take;
    rewrite ?at_work_caller, ?at_work_worker by done; cbn [mbind option_bind].
  all: cbn [at_pc c_pc c_resp with_resp wk_chan wk_pc]; rewrite ?at_work_chan by done; cbn [mbind option_bind].
  - same_state.
  - same_state.
  - rewrite at_work_caller by done. cbn [mbind option_bind new_req rq_player rq_damage new_call at_pc c_ctx].
    cbn [at_work repo]. rewrite Hrun. destruct res; [same_state..|done].
  - rewrite at_work_caller by done. cbn [mbind option_bind new_call at_pc c_resp]. same_state.
  - same_state.
Qed.

(** From each stage only the next one is reached. *)
Lemma stage_step k l q' :
  (k <= 6)%nat → internal l → fire l (stage k) = Some q' → (k < 6)%nat ∧ q' = stage (Datatypes.S k).
Proof.
  intros Hk Hint Hfire.
  assert ((k < 6)%nat ∧ l = stage_label k) as [Hlt ->].
  { destruct (idle_getOrCreate p q Hq) as (Hq1 & Hch & Hcal).
    assert (i = length (callers q1)) as Hi by by rewrite Hcal.
    destruct k as [|[|[|[|[|[|[|]]]]]]]; [..|lia]; cbn [stage] in Hfire;
      (apply at_work_fire in Hfire as Hl; [|done|done]); cbv zeta in Hl; rewrite <- ?Hi in Hl;
      repeat (apply elem_of_cons in Hl as [->|Hl]; [try (split; [lia|done])|]);
      try (by apply not_elem_of_nil in Hl); exfalso; cbn [fire] in Hfire;
      unfold do_Enter, do_Send, do_GiveUp, do_Take, do_Recv, do_Repo, do_Reply in Hfire;
      rewrite ?at_work_caller, ?at_work_worker in Hfire by done; try done.
    all: first [cbn [mbind option_bind wk_chan] in Hfire; by rewrite at_work_chan in Hfire by done
      |apply bind_Some in Hfire as (x & Hx%lookup_lt_Some & _); cbn [workers at_work] in Hx;
       rewrite length_insert, (idle_length _ Hq) in Hx; lia]. }
  split; [done|]. rewrite stage_live in Hfire by done. by injection Hfire.
Qed.

Lemma stage_returned k : returned (stage k) i = if decide (k < 6)%nat then None else Some res.
Proof.
  destruct (idle_getOrCreate p q Hq) as (Hq1 & Hch & Hcal).
  assert (i = length (callers q1)) as Hi by by rewrite Hcal.
  unfold returned. do 6 (destruct k as [|k]; [cbn [stage]; by rewrite at_work_caller|]).
  cbn [stage]. rewrite at_work_caller by done. by rewrite decide_False by lia.
Qed.

Lemma stage_idle : idle (stage 6) ∧ repo (stage 6) = r'.
Proof.
  destruct (idle_getOrCreate p q Hq) as (Hq1 & Hch & Hcal). split; [|done]. cbn [stage].
  rewrite at_work_idle by done. destruct Hq1. split; simpl; try done.
  intros j c [[_ ->]|Hj]%lookup_snoc_inv; [by eexists|by eapply idle_callers0].
Qed.

Lemma stage_obey k ls :
  (k <= 6)%nat → Forall internal ls → ∃ k', (k' <= 6)%nat ∧ foldl obey (stage k) ls = stage k'.
Proof.
  intros Hk Hls. revert k Hk. induction Hls as [|l ls Hl _ IH]; intros k Hk; [by exists k|]. cbn [foldl].
  unfold obey at 2. destruct (fire l (stage k)) as [q'|] eqn:E; [|by apply IH].
  destruct (stage_step k l q' Hk Hl E) as [Hlt ->]. apply (IH (Datatypes.S k)). lia.
Qed.

(** However the goroutines are scheduled. *)
Lemma apply_alone plan :
  Forall internal plan →
  ∃ q', V2UserQueue_Apply plan None p d q = (res, q') ∧ idle q' ∧ repo q' = r'.
Proof.
  intros Hplan. destruct (stage_obey 0 plan) as (k & Hk & E); [lia|done|].
  assert (foldl obey q (LCall p d :: option_list (LCancel i <$> (None : option error)) ++ plan) = stage k) as E'.
  { cbn [foldl]. unfold obey at 2. by rewrite stage_call. }
  unfold V2UserQueue_Apply. rewrite E'. clear E'.
  destruct (settle_ind (λ q2, ∃ k, (k <= 6)%nat ∧ q2 = stage k) (weight (stage k)) i (stage k))
    as [(k' & Hk' & Hs) [res' Hret]]; [..|by exists k|done|].
  - intros q2 (k2 & Hk2 & ->) Hret. rewrite stage_returned in Hret. case_decide as Hlt; [|done].
    exists (stage_label k2). eexists. split; [by destruct k2 as [|[|[|[|[|]]]]]|by apply stage_live].
  - intros l q2 q3 (k2 & Hk2 & ->) Hl Hfire. destruct (stage_step k2 l q3 Hk2 Hl Hfire) as [Hlt ->].
    exists (Datatypes.S k2). split; [lia|done].
  - intros q2 (k2 & Hk2 & ->). destruct (idle_getOrCreate p q Hq) as (_ & _ & Hcal).
    assert (i = length (callers q1)) as Hi by by rewrite Hcal.
    destruct k2 as [|[|[|[|[|[|]]]]]]; cbn [stage]; rewrite at_work_caller by done; by eexists.
  - rewrite Hs in Hret |- *. rewrite stage_returned in Hret |- *. case_decide as Hlt; [done|].
    assert (k' = 6%nat) as -> by lia. exists (stage 6). split; [done|apply stage_idle].
Qed.
End stages.

(** *** A damage that is refused *)

Section refused.
Context q (p : string) (d : Z) (Hq : idle q) (Hd : damage_refused d = true).

Abbreviation i := (length (callers q)).

(** The call before and after its guard. *)
Definition refusing (done : bool) : qstate R :=
  at_work q (length (chans q)) (at_pc (if done then ADone (Err battle_ErrInvalidDamage) else AStart) (new_call p d))
    [] WIdle (repo q) (sent q) (applied q).

Lemma refusing_enter : fire (LEnter i) (refusing false) = Some (refusing true).
Proof.
  cbn [fire]. unfold do_Enter, refusing. rewrite at_work_caller by done.
  cbn [mbind option_bind at_pc new_call c_pc c_damage]. rewrite Hd. same_state.
Qed.

Lemma refusing_step b l q' :
  internal l → fire l (refusing b) = Some q' → b = false ∧ q' = refusing true.
Proof.
  intros Hint Hfire. pose proof Hfire as Hl. apply at_work_fire in Hl; [|done|done].
  repeat (apply elem_of_cons in Hl as [->|Hl]; [|]); try (by apply not_elem_of_nil in Hl).
  1: { destruct b; [|by rewrite refusing_enter in Hfire; injection Hfire].
    cbn [fire] in Hfire. unfold do_Enter, refusing in Hfire. by rewrite at_work_caller in Hfire by done. }
  all: exfalso; cbn [fire] in Hfire; unfold do_Send, do_GiveUp, do_Take, do_Recv, do_Repo, do_Reply, refusing in Hfire.
  4,5,6: apply bind_Some in Hfire as (x & Hx%lookup_lt_Some & _); cbn [workers at_work] in Hx;
    rewrite length_insert, (idle_length _ Hq) in Hx; lia.
  all: rewrite at_work_caller in Hfire by done; by destruct b.
Qed.

Lemma apply_refused plan :
  Forall internal plan →
  ∃ q', V2UserQueue_Apply plan None p d q = (Err battle_ErrInvalidDamage, q') ∧ idle q' ∧ repo q' = repo q.
Proof.
  intros Hplan.
  assert (∃ b, foldl obey q (LCall p d :: option_list (LCancel i <$> (None : option error)) ++ plan) = refusing b)
    as [b E].
  { cbn [foldl]. unfold obey at 2. rewrite (stage_call q p d (Ok 0) (repo q) Hq).
    change (default q _) with (refusing false).
    change (option_list _ ++ plan) with plan. generalize false. induction Hplan as [|l ls Hl _ IH]; intros b; [by exists b|]. cbn [foldl]. unfold obey at 2.
    destruct (fire l (refusing b)) as [q'|] eqn:E; [|apply IH].
    destruct (refusing_step b l q' Hl E) as [_ ->]. apply IH. }
  unfold V2UserQueue_Apply. rewrite E. clear E.
  assert (∀ b, returned (refusing b) i = if b then Some (Err battle_ErrInvalidDamage) else None) as Hret.
  { intros b'. unfold returned, refusing. rewrite at_work_caller by done. by destruct b'. }
  destruct (settle_ind (λ q2, ∃ b, q2 = refusing b) (weight (refusing b)) i (refusing b))
    as [[b' Hs] [res Hres]]; [..|by exists b|done|].
  - intros q2 [[] ->]; rewrite Hret; [done|]. intros _. exists (LEnter i). eexists. split; [done|apply refusing_enter].
  - intros l q2 q3 [b2 ->] Hl Hfire. destruct (refusing_step b2 l q3 Hl Hfire) as [_ ->]. by exists true.
  - intros q2 [b2 ->]. unfold refusing. rewrite at_work_caller by done. by eexists.
  - rewrite Hs in Hres |- *. rewrite Hret in Hres |- *. destruct b'; [|done]. exists (refusing true).
    split; [done|]. split; [|done]. unfold refusing. rewrite at_work_idle by done.
    split; simpl; try apply Hq. intros j c [[_ ->]|Hj]%lookup_snoc_inv; [by eexists|by eapply idle_callers].
Qed.
End refused.

(** The queue alone is naive. A call on an idle queue whose context is not done
    returns, however the goroutines are scheduled, what the naive applier returns,
    but for the words around an error of the repository; it leaves the repository
    the naive applier leaves, and the queue idle. *)
Lemma V2_alone (q : qstate R) (plan : list label) (p : string) (d : Z)
    (Hq : idle q) (Hplan : Forall internal plan)
    (Hrepo : no_panic (ApplyDamageNaive None p d (repo q)).1) :
  let '(res, q') := V2UserQueue_Apply plan None p d q in
  idle q' ∧ repo q' = (V1Naive_Apply None p d (repo q)).2 ∧
  (V1Naive_Apply None p d (repo q)).1 =
    match res with
    | Err e => if damage_refused d then Err e else Err (Errorf_w "apply damage naive" e)
    | _ => res
    end.
Proof.
  unfold V1Naive_Apply. destruct (damage_refused d) eqn:Hd.
  - by destruct (apply_refused q p d Hq Hd plan Hplan) as (q' & -> & ? & ?).
  - apply damage_refused_false in Hd. unfold wrapErr.
    destruct (ApplyDamageNaive None p d (repo q)) as [res r'] eqn:Hrun.
    destruct (apply_alone q p d res r' Hq Hd Hrun Hrepo plan Hplan) as (q' & -> & ? & ->).
    by destruct res.
Qed.
End alone.
