(* ===== verification/Endpoint.v ===== *)
(** * REST handlers

    Models the handlers of [internal/endpoint]: profile, gacha, event, ranking,
    battle, login, health, optimize and metrics. A handler takes the service
    calls it makes as functions on the state of the services; a response body
    is the value encoded to it. *)

From S2P Require Import GoLang Strconv Auth Http AppError Decode.
From S2P Require Import Gacha GachaService Ranking Event EventService Profile Battle.

(** ** Shared shape *)

Definition outcome (S : Type) : Type := list wcmd * option string * S.

(** Answer without touching the state. *)
Definition answer {S} (cmds : list wcmd) (s : S) : outcome S := (cmds, None, s).

(** Call a service, then write its error or its value. A panic passes. *)
Definition respond {S A} (m : M S A) (on_err : error → list wcmd) (on_ok : A → list wcmd) (s : S)
    : outcome S :=
  match m s with
  | (Ok a, s') => (on_ok a, None, s')
  | (Err e, s') => (on_err e, None, s')
  | (Panic w, s') => ([], Some w, s')
  end.

(** Decode the body, write the error of decoding, or go on. *)
Definition with_body {S T} `{!GoJson} (decode : json → option T) (on_err : error → list wcmd)
    (k : T → S → outcome S) (r : Request) (s : S) : outcome S :=
  match DecodeBody decode r with
  | Ok req => k req s
  | Err e => answer (on_err e) s
  | Panic w => ([], Some w, s)
  end.

(** [if err := vldtr.Struct(req); err != nil] and its response. *)
Definition with_valid {S} `{!Vldtr} (fields : list vfield) (k : S → outcome S) (s : S) : outcome S :=
  match vldtr_Struct fields with
  | [] => k s
  | errs => answer (WriteJSON (toValidationError errs)) s
  end.

(** [w.WriteHeader(status); writeJSON(w, v)]: the header comes first. *)
Definition created (v : json) : list wcmd := WriteHeader 201 :: writeJSON v.
Definition okay (v : json) : list wcmd := WriteHeader 200 :: writeJSON v.

Lemma render_writeJSON v : render (writeJSON v) =
  {| RespStatus := 200; RespHeader := {["Content-Type" := "application/json"]}; RespBody := [v] |}.
Proof. reflexivity. Qed.

(** The header map was frozen before the content type was set. *)
Lemma render_created v : render (created v) = {| RespStatus := 201; RespHeader := ∅; RespBody := [v] |}.
Proof. reflexivity. Qed.

Section shape.
Context {S : Type}.

Lemma serve_ext (h h' : Handler S) (r : Request) s : h r s = h' r s → serve h r s = serve h' r s.
Proof. unfold serve. by intros ->. Qed.

Lemma serve_with_body {T} `{!GoJson} (decode : json → option T) on_err (k : T → S → outcome S)
    (r : Request) s :
  serve (with_body decode on_err k) r s =
  match DecodeBody decode r with
  | Ok q => serve (λ _, k q) r s
  | Err e => (Some (render (on_err e)), s)
  | Panic _ => (None, s)
  end.
Proof. unfold serve, with_body, answer. by destruct (DecodeBody decode r). Qed.

Lemma serve_with_valid `{!Vldtr, !VldtrLaws} fields (k : S → outcome S) (r : Request) s :
  if decide (all_tags_ok fields) then serve (λ _, with_valid fields k) r s = serve (λ _, k) r s
  else ∃ errs, serve (λ _, with_valid fields k) r s =
         (Some (render (WriteJSON (toValidationError errs))), s).
Proof.
  pose proof (vldtr_Struct_nil fields) as Hv. unfold serve, with_valid, answer.
  destruct (decide (all_tags_ok fields)) as [Hok|Hno].
  - by rewrite (proj2 Hv Hok).
  - destruct (vldtr_Struct fields); [by destruct Hno; apply Hv|by eexists].
Qed.

Lemma serve_respond {A} (m : M S A) on_err on_ok (r : Request) s :
  serve (λ _, respond m on_err on_ok) r s =
  match m s with
  | (Ok a, s') => (Some (render (on_ok a)), s')
  | (Err e, s') => (Some (render (on_err e)), s')
  | (Panic _, s') => (None, s')
  end.
Proof. unfold serve, respond. by destruct (m s) as [[]]. Qed.
End shape.

(** An answer with an application error. *)
Definition refused (status : Z) (resp : option Response) : Prop :=
  ∃ e : AppError, resp = Some (error_response e) ∧ StatusOf e = status.

Lemma refused_Validation msg fields : refused 400 (Some (render (WriteJSON (Validation msg fields)))).
Proof. eexists. by split; [exact (f_equal Some (render_WriteJSON_App _))|]. Qed.
Lemma refused_NotFound res id : refused 404 (Some (render (WriteJSON (NotFound res id)))).
Proof. eexists. by split; [exact (f_equal Some (render_WriteJSON_App _))|]. Qed.
Lemma refused_Conflict msg : refused 409 (Some (render (WriteJSON (Conflict msg)))).
Proof. eexists. by split; [exact (f_equal Some (render_WriteJSON_App _))|]. Qed.
Lemma refused_Internal msg c : refused 500 (Some (render (WriteJSON (Internal msg c)))).
Proof. eexists. by split; [exact (f_equal Some (render_WriteJSON_App _))|]. Qed.
#[export] Hint Resolve refused_Validation refused_NotFound refused_Conflict refused_Internal : go.

(** Solves a goal that an outcome is a refusal that changes nothing. *)
Ltac answered := unfold answer, toValidationError; cbn [fst snd]; auto with go.

Definition id_tags : list vtag := [TRequired; TMin 1; TMax 64].
Definition name_tags : list vtag := [TRequired; TMin 1; TMax 128].

(** What the tags of strings and of positive integers demand. *)
Definition text_ok (max : Z) (s : string) : Prop := s ≠ "" ∧ 1 <= rune_count s <= max.

#[export] Instance text_ok_dec max s : Decision (text_ok max s).
Proof. unfold text_ok. apply _. Defined.

Lemma string_tags_ok max s :
  Forall (λ t, tag_ok (VString s) t = true) [TRequired; TMin 1; TMax max] ↔ text_ok max s.
Proof.
  rewrite !Forall_cons, Forall_nil. cbn [tag_ok]. unfold text_ok.
  rewrite negb_true_iff, bool_decide_eq_false, !Z.leb_le. tauto.
Qed.

Lemma int_min_ok z : Forall (λ t, tag_ok (VInt z) t = true) [TRequired; TMin 1] ↔ 1 <= z.
Proof.
  rewrite !Forall_cons, Forall_nil. cbn [tag_ok]. rewrite negb_true_iff, Z.eqb_neq, Z.leb_le. lia.
Qed.

Lemma int_range_ok max z :
  Forall (λ t, tag_ok (VInt z) t = true) [TRequired; TMin 1; TMax max] ↔ 1 <= z <= max.
Proof.
  rewrite !Forall_cons, Forall_nil. cbn [tag_ok]. rewrite negb_true_iff, Z.eqb_neq, !Z.leb_le. lia.
Qed.

(** ** Profile *)

Definition profile_toDTO (p : Profile) : json :=
  JObj [("id", JString (Profile_ID p)); ("name", JString (Profile_Name p));
        ("created_at", JTime (Profile_CreatedAt p))].

Record createReq := { cr_ID : string; cr_Name : string }.

Definition decode_createReq (j : json) : option createReq :=
  fs ← obj_fields j;
  id ← field_string (members "id" fs) "";
  name ← field_string (members "name" fs) "";
  Some {| cr_ID := id; cr_Name := name |}.

Definition createReq_fields (q : createReq) : list vfield :=
  [{| vf_name := "id"; vf_value := VString (cr_ID q); vf_tags := id_tags |};
   {| vf_name := "name"; vf_value := VString (cr_Name q); vf_tags := name_tags |}].

Section profile.
Context {S : Type} `{!GoJson, !Vldtr}.

Definition ProfileHandler_Get (getProfile : string → M S Profile) : Handler S := λ r,
  let id := URLParam r "id" in
  if bool_decide (id = "") then answer (WriteJSON (Validation "id path param is required" []))
  else
    respond (getProfile id)
      (λ e, if errors_Is e profile_ErrNotFound then WriteJSON (NotFound "profile" id)
            else WriteJSON (Internal "get profile" e))
      (λ p, writeJSON (profile_toDTO p)).

Definition ProfileHandler_Create (createProfile : string → string → M S Profile) : Handler S :=
  with_body decode_createReq (λ _, WriteJSON (Validation "invalid JSON body" [])) (λ q,
    with_valid (createReq_fields q)
      (respond (createProfile (cr_ID q) (cr_Name q))
        (λ e, if errors_Is e profile_ErrAlreadyExists
              then WriteJSON (Conflict "profile already exists")
              else WriteJSON (Internal "create profile" e))
        (λ p, created (profile_toDTO p)))).
End profile.

(** ** Gacha *)

Record rollReq := { rr_PlayerID : string; rr_PoolID : string; rr_Count : Z }.

Definition decode_rollReq (j : json) : option rollReq :=
  fs ← obj_fields j;
  player ← field_string (members "player" fs) "";
  pool ← field_string (members "pool" fs) "";
  count ← field_int (members "count" fs) 0;
  Some {| rr_PlayerID := player; rr_PoolID := pool; rr_Count := count |}.

Definition rollReq_fields (q : rollReq) : list vfield :=
  [{| vf_name := "player"; vf_value := VString (rr_PlayerID q); vf_tags := id_tags |};
   {| vf_name := "pool"; vf_value := VString (rr_PoolID q); vf_tags := id_tags |};
   {| vf_name := "count"; vf_value := VInt (rr_Count q); vf_tags := [TRequired; TMin 1; TMax 10] |}].

Definition rollToDTO (r : Roll) : json :=
  JObj [("id", JString (Roll_ID r)); ("player_id", JString (Roll_PlayerID r));
        ("pool_id", JString (Roll_PoolID r)); ("card_id", JString (Roll_CardID r));
        ("rarity", JString (Roll_Rarity r)); ("is_pity", JBool (Roll_IsPity r));
        ("pulled_at", JTime (Roll_PulledAt r))].

Definition rollsToDTO (rs : list Roll) : json := JArr (rollToDTO <$> rs).

Section gacha.
Context {S : Type} `{!GoJson, !Vldtr}.

Definition gacha_roll_error (q : rollReq) (e : error) : list wcmd :=
  if errors_Is e gacha_ErrPoolNotFound then WriteJSON (NotFound "gacha pool" (rr_PoolID q))
  else if errors_Is e gacha_ErrInvalidCount then WriteJSON (Validation (error_string e) [])
  else if errors_Is e gacha_ErrEmptyPool then WriteJSON (Internal "pool has no cards" e)
  else WriteJSON (Internal "gacha roll" e).

Definition GachaHandler_Roll (roll : string → string → Z → M S (list Roll)) : Handler S :=
  with_body decode_rollReq (λ _, WriteJSON (Validation "invalid JSON body" [])) (λ q,
    with_valid (rollReq_fields q)
      (respond (roll (rr_PlayerID q) (rr_PoolID q) (rr_Count q)) (gacha_roll_error q)
        (λ rolls, created (rollsToDTO rolls)))).

Definition GachaHandler_History (listHistory : string → Z → M S (list Roll)) : Handler S := λ r,
  let playerID := URLParam r "playerId" in
  if bool_decide (playerID = "")
  then answer (WriteJSON (Validation "playerId path param is required" []))
  else
    let l := Query_Get r "limit" in
    let limit :=
      if bool_decide (l = "") then 10
      else match Atoi l with
           | Some n => if 0 <? n then n else 10
           | None => 10
           end in
    respond (listHistory playerID limit)
      (λ e, WriteJSON (Internal "gacha history" e))
      (λ rolls, writeJSON (rollsToDTO rolls)).

Definition GachaHandler_Pity (getPity : string → string → M S Z) : Handler S := λ r,
  let playerID := URLParam r "playerId" in
  let poolID := URLParam r "poolId" in
  if bool_decide (playerID = "" ∨ poolID = "")
  then answer (WriteJSON (Validation "playerId and poolId are required" []))
  else
    respond (getPity playerID poolID)
      (λ e, WriteJSON (Internal "gacha pity" e))
      (λ pity, writeJSON (JObj [("counter", JNum pity); ("player_id", JString playerID);
                                ("pool_id", JString poolID)])).
End gacha.

(** ** Ranking *)

Definition entry_toDTO (e : Entry) : json :=
  JObj [("player_id", JString (Entry_PlayerID e)); ("score", JNum (Score e));
        ("rank", JNum (EntryRank e))].

Definition toDTOs (entries : list Entry) : json := JArr (entry_toDTO <$> entries).

Definition range_field (name msg : string) : list FieldError :=
  [{| Field := name; Tag := "range"; FieldMessage := msg |}].

Definition topResponse (eventID : string) (entries : list Entry) : json :=
  JObj [("event_id", JString eventID); ("count", JNum (Z.of_nat (length entries))); ("entries", toDTOs entries)].

Definition aroundResponse (eventID playerID : string) (rank score radius : Z) (entries : list Entry) : json :=
  JObj [("event_id", JString eventID); ("player_id", JString playerID); ("rank", JNum rank);
        ("score", JNum score); ("radius", JNum radius); ("entries", toDTOs entries)].

Section ranking.
Context {S : Type}.

Definition RankingHandler_Top (top : string → Z → M S (list Entry)) : Handler S := λ r,
  let eventID := URLParam r "eventId" in
  let n := parseIntQueryDefault r "n" DefaultTopN in
  respond (top eventID n)
    (λ e, if errors_Is e ranking_ErrInvalidLimit
          then WriteJSON (Validation "n out of range" (range_field "n" "must be 1..100"))
          else WriteJSON (Internal "ranking top failed" e))
    (λ entries, writeJSON (topResponse eventID entries)).

(** The loop that looks for the player's own entry, zeros without one. *)
Fixpoint self_entry (playerID : string) (entries : list Entry) : Z * Z :=
  match entries with
  | [] => (0, 0)
  | e :: entries' =>
      if bool_decide (Entry_PlayerID e = playerID) then (EntryRank e, Score e)
      else self_entry playerID entries'
  end.

Definition RankingHandler_Around (around : string → string → Z → M S (list Entry)) : Handler S := λ r,
  let eventID := URLParam r "eventId" in
  let playerID := URLParam r "playerId" in
  let radius := parseIntQueryDefault r "radius" DefaultAroundRadius in
  respond (around eventID playerID radius)
    (λ e, if errors_Is e ranking_ErrPlayerNotRanked
          then WriteJSON (NotFound "ranking entry" playerID)
          else if errors_Is e ranking_ErrInvalidLimit
          then WriteJSON (Validation "radius out of range" (range_field "radius" "must be 0..25"))
          else WriteJSON (Internal "ranking around failed" e))
    (λ entries, let '(rank, score) := self_entry playerID entries in
       writeJSON (aroundResponse eventID playerID rank score radius entries)).
End ranking.

(** ** Battle *)

Record damageReq := { dr_TargetPlayer : string; dr_Damage : Z }.

Definition decode_damageReq (j : json) : option damageReq :=
  fs ← obj_fields j;
  player ← field_string (members "target_player" fs) "";
  damage ← field_int (members "damage" fs) 0;
  Some {| dr_TargetPlayer := player; dr_Damage := damage |}.

Definition damageReq_fields (q : damageReq) : list vfield :=
  [{| vf_name := "target_player"; vf_value := VString (dr_TargetPlayer q); vf_tags := id_tags |};
   {| vf_name := "damage"; vf_value := VInt (dr_Damage q);
      vf_tags := [TRequired; TMin 1; TMax 100000] |}].

Definition body_field (e : error) : list FieldError :=
  [{| Field := "body"; Tag := "json"; FieldMessage := error_string e |}].

Definition damageResp (playerID : string) (hp : Z) (impl : string) : json :=
  JObj [("player_id", JString playerID); ("hp", JNum hp); ("impl", JString impl)].

Definition BattleHandler_ApplyDamage {S} `{!GoJson, !Vldtr} (implLabel : string)
    (apply : string → Z → M S Z) : Handler S :=
  with_body decode_damageReq (λ e, WriteJSON (Validation "invalid body" (body_field e))) (λ q,
    with_valid (damageReq_fields q)
      (respond (apply (dr_TargetPlayer q) (dr_Damage q))
        (λ e, if errors_Is e battle_ErrInvalidDamage
              then WriteJSON (Validation "damage out of range" (range_field "damage" "1..100000"))
              else WriteJSON (Internal "apply damage" e))
        (λ hp, okay (damageResp (dr_TargetPlayer q) hp implLabel)))).

(** ** Login *)

Record loginReq := { lr_Player : string }.

Definition decode_loginReq (j : json) : option loginReq :=
  fs ← obj_fields j;
  player ← field_string (members "player" fs) "";
  Some {| lr_Player := player |}.

Definition loginReq_fields (q : loginReq) : list vfield :=
  [{| vf_name := "player"; vf_value := VString (lr_Player q); vf_tags := id_tags |}].

Definition login_ErrDisabled : error :=
  ErrorsNew "endpoint.Login.1" "AUTH_SECRET is empty — server started in auth-disabled mode".

Definition loginResp (token : string) (expiresAt : time) (playerID : string) : json :=
  JObj [("token", JString token); ("expires_at", JTime expiresAt); ("player_id", JString playerID)].

Definition AuthHandler_Login {S} `{!GoJson, !Vldtr, !JwtLibrary} (issuer : option Issuer) (now : time)
    : Handler S :=
  match issuer with
  | None => λ _, answer (WriteJSON (Internal "auth not configured" login_ErrDisabled))
  | Some i =>
      with_body decode_loginReq (λ e, WriteJSON (Validation "invalid body" (body_field e))) (λ q,
        with_valid (loginReq_fields q)
          (respond (lift (Issuer_Issue i (lr_Player q) now))
            (λ e, WriteJSON (Internal "issue token" e))
            (λ '(token, exp), okay (loginResp token exp (lr_Player q)))))
  end.

(** ** Rolling, from the request to the history *)

Definition roll_req_ok (q : rollReq) : Prop :=
  text_ok 64 (rr_PlayerID q) ∧ text_ok 64 (rr_PoolID q) ∧ 1 <= rr_Count q <= 10.

#[export] Instance roll_req_ok_dec q : Decision (roll_req_ok q).
Proof. unfold roll_req_ok. apply _. Defined.

Lemma rollReq_valid q : all_tags_ok (rollReq_fields q) ↔ roll_req_ok q.
Proof.
  unfold all_tags_ok, rollReq_fields, roll_req_ok, id_tags.
  rewrite !(Forall_cons _ (_ : vfield)), Forall_nil. cbn [vf_value vf_tags].
  rewrite !string_tags_ok, int_range_ok. tauto.
Qed.

(** A body that is read decodes to a request or an error. *)
Lemma DecodeBody_no_panic {T} `{!GoJson} (decode : json → option T) (r : Request) :
  no_panic (ReqBody r) → no_panic (DecodeBody decode r).
Proof. unfold DecodeBody. destruct (ReqBody r); [by destruct (decode _)|done..]. Qed.

Section post_roll.
Context `{!GoJson, !Vldtr, !VldtrLaws} {G U : Type}.
Context (IntN : RandIntN G) (NewV7 : M U string).

(** The roll handler on the in-memory repository and the built-in pools. *)
Definition post_roll (now : time) : Handler (GachaRepo * (G * U)) :=
  GachaHandler_Roll (GachaService_Roll IntN NewV7
    (StaticPoolRegistry_GetPool NewStaticPoolRegistry) now).

(** Posting a roll. A body that is not a request, an empty or too long
    player or pool and a count outside 1..10 are answered 400, a pool other
    than the demo pool 404, and nothing is recorded; otherwise the answer is
    201 with exactly the rolls appended to the history. The player they are
    recorded for is the one the body names: whatever claims the auth
    middleware put into the context, the handler answers and records the same. *)
Theorem post_roll_spec (req : Request) (c : Claims) (now : time) (r : GachaRepo) (gu : G * U)
    (Hids : ∀ u, ∃ id u', NewV7 u = (Ok id, u')) (Hread : no_panic (ReqBody req)) :
  let out := serve (post_roll now) req (r, gu) in
  serve (post_roll now) (InjectClaims req c) (r, gu) = out ∧
  match DecodeBody decode_rollReq req with
  | Ok q =>
      if decide (roll_req_ok q) then
        if decide (rr_PoolID q = DemoPoolID) then
          ∃ rolls, out.1 = Some (render (created (rollsToDTO rolls))) ∧
            gr_rolls out.2.1 = gr_rolls r ++ rolls ∧ Z.of_nat (length rolls) = rr_Count q ∧
            Forall (λ x, Roll_PlayerID x = rr_PlayerID q ∧ Roll_PoolID x = DemoPoolID) rolls
        else refused 404 out.1 ∧ out.2.1 = r
      else refused 400 out.1 ∧ out.2.1 = r
  | _ => refused 400 out.1 ∧ out.2.1 = r
  end.
Proof.
  intros out. split; [done|]. subst out. unfold post_roll, GachaHandler_Roll.
  rewrite serve_with_body. pose proof (DecodeBody_no_panic decode_rollReq req Hread) as Hdec.
  destruct (DecodeBody decode_rollReq req) as [q|e|x]; [|answered|done].
  match goal with |- context [with_valid ?f ?k] =>
    pose proof (serve_with_valid f k req (r, gu)) as Hv end.
  destruct (decide (all_tags_ok _)) as [Hok|Hno]; rewrite rollReq_valid in *.
  2:{ destruct Hv as [errs ->]. rewrite decide_False by done. answered. }
  rewrite Hv, serve_respond, decide_True by done. clear Hv.
  destruct (Roll_run IntN NewV7 (StaticPoolRegistry_GetPool NewStaticPoolRegistry) now
    (rr_PlayerID q) (rr_PoolID q) (rr_Count q) r gu Hids) as (res & gu' & -> & Hres).
  rewrite decide_True in Hres by apply Hok.
  unfold StaticPoolRegistry_GetPool, NewStaticPoolRegistry in Hres. simpl in Hres.
  destruct (decide (rr_PoolID q = DemoPoolID)) as [Heq|Hne].
  - rewrite Heq, lookup_singleton_eq in Hres. simpl in Hres.
    destruct Hres as (rolls & -> & Hlen & Hall). by exists rolls.
  - rewrite lookup_singleton_ne in Hres by done. subst res.
    split; [apply refused_NotFound|done].
Qed.
End post_roll.

(** ** The neighbourhood of a player *)

(** The entries within a radius of another, in the order of the ranking. *)
Definition within (me : Entry) (r : Z) (es : list Entry) : list Entry :=
  filter (λ e, EntryRank me - r <= EntryRank e <= EntryRank me + r) es.

Lemma self_entry_within p es me r :
  0 <= r → find_entry p es = Some me →
  self_entry p (within me r es) = (EntryRank me, Score me) ∧ me ∈ within me r es.
Proof.
  intros Hr. unfold within.
  assert (Hme : EntryRank me - r <= EntryRank me <= EntryRank me + r) by lia.
  induction es as [|e es IH]; [done|]. simpl. case_bool_decide as Hp; intros Hf.
  - injection Hf as ->. rewrite filter_cons_True by done. simpl.
    rewrite bool_decide_eq_true_2 by done. split; [done|by constructor].
  - destruct (IH Hf) as [Hs Hin].
    destruct (decide (EntryRank me - r <= EntryRank e <= EntryRank me + r)).
    + rewrite filter_cons_True by done. simpl. rewrite bool_decide_eq_false_2 by done.
      split; [done|by constructor].
    + by rewrite filter_cons_False.
Qed.

Section get_around.
Context `{!GoRuntime}.

Definition get_around : Handler Leaderboard := RankingHandler_Around RankingService_Around.

(** The neighbourhood endpoint. A [radius] above 25 is answered 400 and a
    player without a score 404. Otherwise the answer is 200; the rank and the
    score shown on top are those the rank call gives for the player, and the
    entries are the ranking's entries within the radius, the player's own
    among them; a negative radius is shown as asked for but means 5, a
    radius that is not a number means 5. The leaderboard is not changed. *)
Theorem get_around_spec (req : Request) (l : Leaderboard)
    (Hsize : Z.of_nat (size (event_scores l (URLParam req "eventId"))) < int64_half - MaxAroundRadius) :
  let ev := URLParam req "eventId" in
  let p := URLParam req "playerId" in
  let radius := parseIntQueryDefault req "radius" DefaultAroundRadius in
  let out := serve get_around req l in
  out.2 = l ∧
  if MaxAroundRadius <? radius then refused 400 out.1
  else match (RankingService_Rank ev p l).1 with
  | Ok me =>
      ∃ es, is_ranking (event_scores l ev) es ∧
        let near := within me (if radius <? 0 then DefaultAroundRadius else radius) es in
        me ∈ near ∧
        out.1 = Some (render (writeJSON (aroundResponse ev p (EntryRank me) (Score me) radius near)))
  | _ => refused 404 out.1
  end.
Proof.
  cbv zeta. unfold get_around, RankingHandler_Around, serve, respond.
  rewrite Rank_run, (Around_run l _ _ _ Hsize). cbn [fst].
  set (radius := parseIntQueryDefault _ _ _). set (r := if radius <? 0 then _ else _).
  destruct (Z.ltb_spec MaxAroundRadius radius); [split; [done|apply refused_Validation]|].
  destruct (find_entry _ _) as [me|] eqn:Hf; [|split; [done|apply refused_NotFound]].
  split; [done|]. exists (sortedLocked l (URLParam req "eventId")).
  split; [apply sortedLocked_is_ranking|].
  assert (Hr : 0 <= r) by (unfold r, DefaultAroundRadius; destruct (Z.ltb_spec radius 0); lia).
  destruct (self_entry_within _ _ me r Hr Hf) as [Hs Hin]. split; [done|].
  cbn [fst]. fold (within me r (sortedLocked l (URLParam req "eventId"))). by rewrite Hs.
Qed.
End get_around.

(** ** Concrete requests *)

Definition request (params query : gmap string string) (b : json) : Request := {|
  Method := "GET"; URL_Path := "/"; URLParams := params; Query := query; ReqHeader := ∅;
  RemoteAddr := "10.0.0.7:8080"; ReqBody := Ok b; ctx_claims := None; ctx_logger := None |}.

(** An event "ev" where c follows b, one entry on each side asked for. *)
Lemma get_around_spec_witness :
  (serve get_around (request {["eventId" := "ev"; "playerId" := "c"]} {["radius" := "1"]} JNull)
    demo_board).2 = demo_board ∧
  ∃ near, (serve get_around
      (request {["eventId" := "ev"; "playerId" := "c"]} {["radius" := "1"]} JNull) demo_board).1 =
    Some (render (writeJSON (JObj [("event_id", JString "ev"); ("player_id", JString "c");
      ("rank", JNum 2); ("score", JNum 10); ("radius", JNum 1); ("entries", toDTOs near)]))).
Proof.
  set (req := request {["eventId" := "ev"; "playerId" := "c"]} {["radius" := "1"]} JNull).
  assert (Hev : URLParam req "eventId" = "ev") by reflexivity.
  assert (Hp : URLParam req "playerId" = "c") by reflexivity.
  assert (Hr : parseIntQueryDefault req "radius" DefaultAroundRadius = 1) by reflexivity.
  assert (Hsize : Z.of_nat (size (event_scores demo_board (URLParam req "eventId")))
    < int64_half - MaxAroundRadius) by (rewrite Hev; vm_compute; reflexivity).
  pose proof (get_around_spec req demo_board Hsize) as [Hstate Hout].
  split; [exact Hstate|]. rewrite Hev, Hp, Hr in Hout. clearbody req.
  assert (Hrank : (RankingService_Rank "ev" "c" demo_board).1 =
    Ok {| Entry_PlayerID := "c"; Score := 10; EntryRank := 2 |}) by (vm_compute; reflexivity).
  rewrite Hrank in Hout. destruct Hout as (es & _ & _ & Hout). eexists. exact Hout.
Defined.

Definition tens (player : string) : json :=
  JObj [("player", JString player); ("pool", JString "demo"); ("count", JNum 10)].

(** Ten rolls for alice, asked for with bob's token. *)
Lemma post_roll_spec_witness :
  ∃ rolls,
    (serve (@post_roll no_times reference_vldtr _ _ lcg fixed_ids 7)
      (InjectClaims (request ∅ ∅ (tens "alice")) (Build_Claims "bob" "stagesync" "bob" 0 60 0))
      (NewGachaRepo, (42, 0))).1 = Some (render (created (rollsToDTO rolls))) ∧
    length rolls = 10%nat ∧ Forall (λ x, Roll_PlayerID x = "alice" ∧ Roll_PoolID x = "demo") rolls.
Proof.
  destruct (@post_roll_spec no_times reference_vldtr reference_vldtr_laws _ _ lcg fixed_ids
    (request ∅ ∅ (tens "alice")) (Build_Claims "bob" "stagesync" "bob" 0 60 0) 7 NewGachaRepo (42, 0)
    (λ u, ex_intro _ "0195" (ex_intro _ (u + 1) eq_refl)) I) as [-> Hout].
  change (@DecodeBody _ no_times decode_rollReq (request ∅ ∅ (tens "alice"))) with
    (Ok {| rr_PlayerID := "alice"; rr_PoolID := "demo"; rr_Count := 10 |}) in Hout.
  cbv beta iota in Hout. cbn [rr_PoolID rr_PlayerID rr_Count] in Hout.
  destruct (decide (roll_req_ok _)) as [_|Hno].
  2:{ destruct Hno. repeat split; simpl; try discriminate; lia. }
  destruct (decide ("demo" = DemoPoolID)) as [_|Hno]; [|destruct Hno; reflexivity].
  destruct Hout as (rolls & -> & _ & Hlen & Hall). exists rolls.
  split; [reflexivity|]. split; [simpl in Hlen; lia|exact Hall].
Defined.
