(* ===== verification/EventEndpoint.v ===== *)
(** * Event endpoints

    Models [internal/endpoint/event.go]: the six handlers of the event service,
    their request bodies and responses; and the handlers on the wired server,
    from the request to the stored points. *)

From S2P Require Import GoLang Strconv Auth Http AppError Decode.
From S2P Require Import Ranking Event EventService Endpoint.

(** ** Requests *)

Record rewardTierReq := { rt_Tier : Z; rt_MinPoints : Z; rt_RewardName : string }.

Record createEventReq := {
  ce_ID : string;
  ce_Name : string;
  ce_StartAt : time;
  ce_EndAt : time;
  ce_Rewards : list rewardTierReq }.

Record addScoreReq := { as_PlayerID : string; as_Delta : Z }.

Definition zero_rewardTierReq : rewardTierReq :=
  {| rt_Tier := 0; rt_MinPoints := 0; rt_RewardName := "" |}.

Definition decode_rewardTierReq (cur : rewardTierReq) (j : json) : option rewardTierReq :=
  fs ← obj_fields j;
  tier ← field_int (members "tier" fs) (rt_Tier cur);
  points ← field_int (members "min_points" fs) (rt_MinPoints cur);
  name ← field_string (members "reward_name" fs) (rt_RewardName cur);
  Some {| rt_Tier := tier; rt_MinPoints := points; rt_RewardName := name |}.

Definition decode_createEventReq `{!GoJson} (j : json) : option createEventReq :=
  fs ← obj_fields j;
  id ← field_string (members "id" fs) "";
  name ← field_string (members "name" fs) "";
  start ← field_time (members "start_at" fs) zero_time;
  stop ← field_time (members "end_at" fs) zero_time;
  rewards ← field_list decode_rewardTierReq zero_rewardTierReq (members "rewards" fs) [] [];
  Some {| ce_ID := id; ce_Name := name; ce_StartAt := start; ce_EndAt := stop;
          ce_Rewards := rewards |}.

Definition decode_addScoreReq (j : json) : option addScoreReq :=
  fs ← obj_fields j;
  player ← field_string (members "player" fs) "";
  delta ← field_int (members "delta" fs) 0;
  Some {| as_PlayerID := player; as_Delta := delta |}.

Definition rewardTierReq_fields (q : rewardTierReq) : list vfield :=
  [{| vf_name := "tier"; vf_value := VInt (rt_Tier q); vf_tags := [TRequired; TMin 1; TMax 100] |};
   {| vf_name := "min_points"; vf_value := VInt (rt_MinPoints q); vf_tags := [TMin 0] |};
   {| vf_name := "reward_name"; vf_value := VString (rt_RewardName q); vf_tags := name_tags |}].

Definition createEventReq_fields (q : createEventReq) : list vfield :=
  [{| vf_name := "id"; vf_value := VString (ce_ID q); vf_tags := id_tags |};
   {| vf_name := "name"; vf_value := VString (ce_Name q); vf_tags := name_tags |};
   {| vf_name := "start_at"; vf_value := VTime (ce_StartAt q); vf_tags := [TRequired] |};
   {| vf_name := "end_at"; vf_value := VTime (ce_EndAt q); vf_tags := [TRequired] |}] ++
  (ce_Rewards q ≫= rewardTierReq_fields).

Definition addScoreReq_fields (q : addScoreReq) : list vfield :=
  [{| vf_name := "player"; vf_value := VString (as_PlayerID q); vf_tags := id_tags |};
   {| vf_name := "delta"; vf_value := VInt (as_Delta q); vf_tags := [TRequired; TMin 1] |}].

(** ** Responses *)

Definition Status_string (st : Status) : string :=
  match st with
  | StatusUpcoming => "UPCOMING"
  | StatusOngoing => "ONGOING"
  | StatusEnded => "ENDED"
  end.

(** [status] has [omitempty]. *)
Definition eventDTO (id name : string) (startAt endAt createdAt : time) (status : string) : json :=
  JObj ([("id", JString id); ("name", JString name); ("start_at", JTime startAt); ("end_at", JTime endAt);
         ("created_at", JTime createdAt)] ++
        if bool_decide (status = "") then [] else [("status", JString status)]).

Definition eventToDTO (e : Event) (st : Status) : json :=
  eventDTO (Event_ID e) (Event_Name e) (StartAt e) (EndAt e) (Event_CreatedAt e) (Status_string st).

Definition scoreDTO (sc : EventScore) : json :=
  JObj [("event_id", JString (Score_EventID sc)); ("player_id", JString (Score_PlayerID sc));
        ("points", JNum (Points sc)); ("updated_at", JTime (UpdatedAt sc))].

Definition tierDTO (t : RewardTier) : json :=
  JObj [("tier", JNum (Tier_No t)); ("min_points", JNum (MinPoints t));
        ("reward_name", JString (RewardName t))].

Definition tiersToDTO (ts : list RewardTier) : json := JArr (tierDTO <$> ts).

Definition rewardsDTO (eventID playerID : string) (v : RewardsView) : json :=
  JObj [("event_id", JString eventID); ("player_id", JString playerID);
        ("status", JString (Status_string (View_Status v))); ("points", JNum (View_Points v));
        ("tiers", tiersToDTO (View_Tiers v)); ("eligible", tiersToDTO (View_Eligible v));
        ("claimable", JBool (View_Claimable v))].

(** ** Handlers *)

Definition event_create_error (e : error) : list wcmd :=
  if errors_Is e event_ErrAlreadyExists then WriteJSON (Conflict "event already exists")
  else if errors_Is e event_ErrInvalidWindow then WriteJSON (Validation (error_string e) [])
  else WriteJSON (Internal "create event" e).

Definition event_score_error (eventID : string) (e : error) : list wcmd :=
  if errors_Is e event_ErrNotFound then WriteJSON (NotFound "event" eventID)
  else if errors_Is e event_ErrNotOngoing then WriteJSON (Conflict (error_string e))
  else if errors_Is e event_ErrInvalidDelta then WriteJSON (Validation (error_string e) [])
  else WriteJSON (Internal "add score" e).

Definition event_read_error (msg eventID : string) (e : error) : list wcmd :=
  if errors_Is e event_ErrNotFound then WriteJSON (NotFound "event" eventID)
  else WriteJSON (Internal msg e).

Definition createInput_of (q : createEventReq) : CreateInput :=
  {| In_ID := ce_ID q; In_Name := ce_Name q; In_StartAt := ce_StartAt q; In_EndAt := ce_EndAt q;
     In_Rewards := (λ rt, {| Tier_EventID := ""; Tier_No := rt_Tier rt;
                             MinPoints := rt_MinPoints rt; RewardName := rt_RewardName rt |})
                     <$> ce_Rewards q |}.

(** Handlers that take two path parameters and refuse empty ones. *)
Definition with_event_player {S} (r : Request) (k : string → string → S → outcome S) (s : S)
    : outcome S :=
  let eventID := URLParam r "id" in
  let playerID := URLParam r "playerId" in
  if bool_decide (eventID = "" ∨ playerID = "")
  then answer (WriteJSON (Validation "id and playerId are required" [])) s
  else k eventID playerID s.

Section handlers.
Context {S : Type} `{!GoJson, !Vldtr}.

(** [now] is the handler's own reading of the clock. *)
Definition EventHandler_Create (create : CreateInput → M S Event) (now : time) : Handler S :=
  with_body decode_createEventReq (λ _, WriteJSON (Validation "invalid JSON body" [])) (λ q,
    with_valid (createEventReq_fields q)
      (respond (create (createInput_of q)) event_create_error
        (λ e, created (eventToDTO e (StatusAt e now))))).

Definition EventHandler_Get (get : string → M S (Event * Status)) : Handler S := λ r,
  let id := URLParam r "id" in
  if bool_decide (id = "") then answer (WriteJSON (Validation "id is required" []))
  else respond (get id) (event_read_error "get event" id) (λ '(e, st), writeJSON (eventToDTO e st)).

Definition EventHandler_ListCurrent (listCurrent : M S (list Event)) (now : time) : Handler S := λ _,
  respond listCurrent (λ e, WriteJSON (Internal "list current events" e))
    (λ es, writeJSON (JArr ((λ e, eventToDTO e (StatusAt e now)) <$> es))).

Definition EventHandler_AddScore (addScore : string → string → Z → M S EventScore) : Handler S := λ r,
  let eventID := URLParam r "id" in
  if bool_decide (eventID = "") then answer (WriteJSON (Validation "id is required" []))
  else
    with_body decode_addScoreReq (λ _, WriteJSON (Validation "invalid JSON body" [])) (λ q,
      with_valid (addScoreReq_fields q)
        (respond (addScore eventID (as_PlayerID q) (as_Delta q)) (event_score_error eventID)
          (λ sc, writeJSON (scoreDTO sc)))) r.

Definition EventHandler_GetScore (getScore : string → string → M S EventScore) : Handler S := λ r,
  with_event_player r (λ eventID playerID,
    respond (getScore eventID playerID) (event_read_error "get score" eventID)
      (λ sc, writeJSON (scoreDTO sc))).

Definition EventHandler_GetRewards (getRewards : string → string → M S RewardsView) : Handler S := λ r,
  with_event_player r (λ eventID playerID,
    respond (getRewards eventID playerID) (event_read_error "get rewards" eventID)
      (λ v, writeJSON (rewardsDTO eventID playerID v))).
End handlers.

(** ** Scores, from the request to the stored points *)

(** A score request that passes validation. *)
Definition score_req_ok (q : addScoreReq) : Prop := text_ok 64 (as_PlayerID q) ∧ 1 <= as_Delta q.

#[export] Instance score_req_ok_dec q : Decision (score_req_ok q).
Proof. unfold score_req_ok. apply _. Defined.

Lemma addScoreReq_valid q : all_tags_ok (addScoreReq_fields q) ↔ score_req_ok q.
Proof.
  unfold all_tags_ok, addScoreReq_fields, score_req_ok, id_tags.
  rewrite !(Forall_cons _ (_ : vfield)), Forall_nil. cbn [vf_value vf_tags].
  rewrite string_tags_ok, int_min_ok. tauto.
Qed.

(** The service's errors as answers. *)
Lemma score_NotFound ev :
  refused 404 (Some (render (event_score_error ev (Errorf_w "repo.GetEvent" event_ErrNotFound)))).
Proof. apply refused_NotFound. Qed.
Lemma score_NotOngoing ev : refused 409 (Some (render (event_score_error ev event_ErrNotOngoing))).
Proof. apply refused_Conflict. Qed.
Lemma score_InvalidDelta ev : refused 400 (Some (render (event_score_error ev event_ErrInvalidDelta))).
Proof. apply refused_Validation. Qed.
#[export] Hint Resolve score_NotFound score_NotOngoing score_InvalidDelta : go.

Section score.
Context `{!GoRuntime, !GoJson, !Vldtr, !VldtrLaws}.

(** The score handler of the wired server; [now] and [now'] are the clock
    readings of the service and of the repository. *)
Definition post_score (now now' : time) : Handler (EventRepo * Leaderboard) :=
  EventHandler_AddScore (λ ev p d, EventService_AddScore wired ev p d now now').

(** The answer to a score request and its effect, by the checks of the layers
    in their order. *)
Definition score_answered (req : Request) (now now' : time) (r : EventRepo) (l : Leaderboard)
    (resp : option Response) (r' : EventRepo) (l' : Leaderboard) : Prop :=
  let ev := URLParam req "id" in
  let unchanged status := refused status resp ∧ r' = r ∧ l' = l in
  if decide (ev = "") then unchanged 400
  else match DecodeBody decode_addScoreReq req with
  | Ok q =>
      if decide (score_req_ok q ∧ as_Delta q <= maxScoreDelta) then
        match er_events r !! ev with
        | None => unchanged 404
        | Some e =>
            if decide (StartAt e <= now <= EndAt e) then
              ∃ sc, resp = Some (render (writeJSON (scoreDTO sc))) ∧
                Points sc = points_of r ev (as_PlayerID q) [+] as_Delta q ∧ UpdatedAt sc = now' ∧
                (∀ ev' p', has_char "/" ev' = false → points_of r' ev' p' =
                   if decide (ev = ev' ∧ as_PlayerID q = p') then Points sc
                   else points_of r ev' p') ∧
                l' = (Leaderboard_IncrBy ev (as_PlayerID q) (as_Delta q) l).2
            else unchanged 409
        end
      else unchanged 400
  | _ => unchanged 400
  end.

(** C13. Posting a score. For every request the answer and the effect are
    those of the table [score_answered]: 400 for an empty event, a body that
    is not a request, a player of no or more than 64 characters, or a delta
    outside 1..1000000; then 404 for an unknown event; then 409 for an event
    that is not ongoing; each with repository and leaderboard untouched.
    Otherwise 200 with the new points, which are the old ones plus the delta,
    stored for this player alone and mirrored to the leaderboard. The body of a refusal has
    code, message and fields under a member [error], as [WriteJSON] of
    [internal/apperror/http.go] puts them; [docs/API.md] shows them at the top level.
    Event identifiers with a slash, which the routes never yield, are left out. *)
Theorem post_score_spec (req : Request) (now now' : time) (r : EventRepo) (l : Leaderboard)
    (Hread : no_panic (ReqBody req)) (Hev : has_char "/" (URLParam req "id") = false) :
  let out := serve (post_score now now') req (r, l) in
  score_answered req now now' r l out.1 out.2.1 out.2.2.
Proof.
  cbv zeta. unfold score_answered, post_score.
  destruct (decide (URLParam req "id" = "")) as [Hid|Hid].
  { unfold serve, EventHandler_AddScore. rewrite bool_decide_eq_true_2 by done.
    by answered. }
  erewrite serve_ext by (unfold EventHandler_AddScore; by rewrite bool_decide_eq_false_2).
  rewrite serve_with_body.
  assert (Hdec : no_panic (DecodeBody decode_addScoreReq req))
    by (unfold DecodeBody in *; destruct (ReqBody req); [by destruct (decode_addScoreReq _)|done..]).
  destruct (DecodeBody decode_addScoreReq req) as [q|e|x]; [|answered|done]. clear Hdec.
  pose proof (serve_with_valid (addScoreReq_fields q)
    (respond (EventService_AddScore wired (URLParam req "id") (as_PlayerID q) (as_Delta q) now now')
      (event_score_error (URLParam req "id")) (λ sc, writeJSON (scoreDTO sc))) req (r, l)) as Hv.
  destruct (decide (all_tags_ok _)) as [Hok|Hno].
  2:{ destruct Hv as [errs ->]. rewrite decide_False by (rewrite <- addScoreReq_valid; tauto).
      answered. }
  rewrite Hv. clear Hv. apply addScoreReq_valid in Hok. rewrite serve_respond.
  pose proof (AddScore_run wired (URLParam req "id") (as_PlayerID q) (as_Delta q) now now' r l) as Hrun.
  destruct (decide (delta_ok (as_Delta q))) as [Hd|Hd].
  2:{ rewrite Hrun, decide_False by (unfold delta_ok in Hd; intros [[_ ?] ?]; lia). answered. }
  rewrite decide_True by (split; [done|apply Hd]).
  destruct (er_events r !! URLParam req "id") as [e|] eqn:He; [|rewrite Hrun; answered].
  destruct (decide (StartAt e <= now <= EndAt e)) as [Hs|Hs].
  2:{ rewrite decide_False in Hrun by by rewrite StatusAt_ongoing. rewrite Hrun. answered. }
  clear Hrun. destruct (AddScore_wired _ (as_PlayerID q) _ now now' r l e Hd He Hs)
    as (sc & -> & Hp & Hu).
  assert (Hown : Points sc = points_of r (URLParam req "id") (as_PlayerID q) [+] as_Delta q)
    by (rewrite Hp, points_of_AddScore, decide_True; done).
  exists sc. split_and!; try done.
  intros ev' p' Hev'. cbn [fst snd]. rewrite points_of_AddScore by done.
  by destruct (decide _) as [[<- <-]|].
Qed.
End score.

(** ** Concrete requests *)

Definition score_request (event player : string) (delta : Z) : Request := {|
  Method := "POST"; URL_Path := "/api/event/" +:+ event +:+ "/score";
  URLParams := {["id" := event]}; Query := ∅; ReqHeader := ∅; RemoteAddr := "10.0.0.7:8080";
  ReqBody := Ok (JObj [("player", JString player); ("Delta", JNum delta)]); ctx_claims := None; ctx_logger := None |}.

Lemma post_score_spec_witness :
  refused 409 (serve (@post_score _ no_times reference_vldtr 30 30)
    (score_request "ev" "bob" 5) (demo_state.1, demo_state.2)).1.
Proof.
  pose proof (@post_score_spec _ no_times reference_vldtr reference_vldtr_laws
    (score_request "ev" "bob" 5) 30 30 demo_state.1 demo_state.2 I eq_refl) as Hspec.
  cbv zeta in Hspec. unfold score_answered in Hspec.
  destruct (decide (URLParam (score_request "ev" "bob" 5) "id" = "")) as [Hid|_];
    [vm_compute in Hid; discriminate Hid|].
  assert (Hdec : @DecodeBody _ no_times decode_addScoreReq (score_request "ev" "bob" 5) =
    Ok {| as_PlayerID := "bob"; as_Delta := 5 |}) by reflexivity.
  rewrite Hdec in Hspec.
  destruct (decide (score_req_ok _ ∧ _)) as [_|Hno].
  2:{ destruct Hno. split; [|unfold maxScoreDelta; simpl; lia].
      split; [split; [discriminate|simpl; lia]|simpl; lia]. }
  assert (He : er_events demo_state.1 !! URLParam (score_request "ev" "bob" 5) "id" =
    Some (event_of (demo_event []) 3)) by (vm_compute; reflexivity).
  rewrite He in Hspec. simpl StartAt in Hspec. simpl EndAt in Hspec.
  destruct (decide (10 <= 30 <= 20)) as [Hin|_]; [lia|].
  exact (proj1 Hspec).
Defined.
