(* ===== verification/Room.v ===== *)
(** * The room and its connections

    Models [internal/room/room.go] and the read loop of
    [internal/endpoint/ws.go]: a registry of the players' latest positions,
    filled by the frames of WebSocket connections that come and go
    concurrently. A connection's events are the outcomes of its reads; each
    call of the room is atomic (it holds the room's lock). *)

From S2P Require Import GoLang.

Section room.
(** Coordinates: [float64] values, which the room only copies. *)
Context {F : Type}.

(** ** The room *)

Record Member := { Member_PlayerID : string; X : F; Y : F }.

Record Room := { members : gmap string Member }.

(** [roompb.Move], by its accessors. *)
Record Move := { GetPlayerId : string; GetX : F; GetY : F }.

Definition NewRoom : Room := {| members := ∅ |}.

(** The member is created when it is missing, then its position is set. *)
Definition ApplyMove (m : Move) (r : Room) : Room :=
  let id := GetPlayerId m in
  let member_id := match members r !! id with Some mb => Member_PlayerID mb | None => id end in
  {| members := <[id := {| Member_PlayerID := member_id; X := GetX m; Y := GetY m |}]> (members r) |}.

Definition Remove (playerID : string) (r : Room) : Room :=
  {| members := delete playerID (members r) |}.

Definition Room_Size (r : Room) : Z := Z.of_nat (size (members r)).

(** ** Connections *)

(** What a read of a connection gives: a text frame, bytes that are not a
    message, a message without a move, a move. *)
Inductive frame :=
  | NonBinary
  | Malformed
  | UnknownPayload
  | MoveFrame (m : Move).

(** One turn of the loop: the connection's [playerID] and the room. *)
Definition ws_frame (f : frame) (playerID : string) (r : Room) : string * Room :=
  match f with
  | NonBinary | Malformed | UnknownPayload => (playerID, r)
  | MoveFrame m => (GetPlayerId m, ApplyMove m r)
  end.

(** After the loop. *)
Definition ws_end (playerID : string) (r : Room) : Room :=
  if bool_decide (playerID ≠ "") then Remove playerID r else r.

(** A connection served alone, from its first frame to its end. *)
Fixpoint ws_loop (frames : list frame) (playerID : string) (r : Room) : Room :=
  match frames with
  | [] => ws_end playerID r
  | f :: frames' => let '(playerID', r') := ws_frame f playerID r in ws_loop frames' playerID' r'
  end.

(** The whole handler. [accepted] is the outcome of the upgrade; [deadline] is
    the deadline of the request's context ([None]: it has none), which
    [conn.Read(ctx)] obeys: a read that is still waiting when it passes ends the
    loop with an error. [arrivals] are the frames with the times they arrive. *)
Definition in_time (deadline : option Z) (t : Z) : bool :=
  match deadline with Some d => t <? d | None => true end.

Fixpoint ws_reads (deadline : option Z) (arrivals : list (Z * frame)) (playerID : string) (r : Room) : Room :=
  match arrivals with
  | [] => ws_end playerID r
  | (t, f) :: arrivals' =>
      if in_time deadline t then
        let '(playerID', r') := ws_frame f playerID r in ws_reads deadline arrivals' playerID' r'
      else ws_end playerID r
  end.

Definition WSHandler_ServeHTTP (accepted : result ()) (deadline : option Z) (arrivals : list (Z * frame))
    (r : Room) : Room :=
  match accepted with
  | Ok _ => ws_reads deadline arrivals "" r
  | _ => r
  end.

(** The server: the open connections, each with its [playerID], and the room. *)
Record ws_state := { conns : gmap Z string; room_of : Room }.

Inductive ws_event :=
  | Accepted (c : Z)
  | Received (c : Z) (f : frame)
  | Ended (c : Z).

Definition ws_step (w : ws_state) (e : ws_event) : ws_state :=
  match e with
  | Accepted c =>
      match conns w !! c with
      | None => {| conns := <[c := ""]> (conns w); room_of := room_of w |}
      | Some _ => w
      end
  | Received c f =>
      match conns w !! c with
      | Some playerID =>
          let '(playerID', r') := ws_frame f playerID (room_of w) in
          {| conns := <[c := playerID']> (conns w); room_of := r' |}
      | None => w
      end
  | Ended c =>
      match conns w !! c with
      | Some playerID =>
          {| conns := delete c (conns w); room_of := ws_end playerID (room_of w) |}
      | None => w
      end
  end.

Definition ws_run (es : list ws_event) (w : ws_state) : ws_state := foldl ws_step w es.

Definition ws_start : ws_state := {| conns := ∅; room_of := NewRoom |}.

(** ** What a connection shows *)

(** A connection is closed, open without a move, or open at a position. *)
Inductive presence := Away | Silent | At (x y : F).

Definition presence_step (c : Z) (p : presence) (e : ws_event) : presence :=
  match e with
  | Accepted c' =>
      if decide (c' = c) then match p with Away => Silent | _ => p end else p
  | Received c' (MoveFrame m) =>
      if decide (c' = c) then match p with Away => Away | _ => At (GetX m) (GetY m) end else p
  | Received _ _ => p
  | Ended c' => if decide (c' = c) then Away else p
  end.

Definition presence_of (c : Z) (es : list ws_event) : presence := foldl (presence_step c) Away es.

(** The entry of a player whose connection has this presence. *)
Definition shown_as (playerID : string) (p : presence) : option Member :=
  match p with
  | At x y => Some {| Member_PlayerID := playerID; X := x; Y := y |}
  | _ => None
  end.

(** Every connection moves one player, its own. *)
Definition own_moves (owner : Z → string) (e : ws_event) : Prop :=
  match e with
  | Received c (MoveFrame m) => GetPlayerId m = owner c
  | _ => True
  end.

(** Every member is some connection's player at its presence, and the handler's
    [playerID] is set exactly for those that moved. *)
Definition tracks_presence (owner : Z → string) (pres : Z → presence) (w : ws_state) : Prop :=
  (∀ c, conns w !! c = match pres c with Away => None | Silent => Some "" | At _ _ => Some (owner c) end) ∧
  (∀ c, members (room_of w) !! owner c = shown_as (owner c) (pres c)) ∧
  (∀ p, is_Some (members (room_of w) !! p) → ∃ c, owner c = p).

(** The entry of [conns] for a presence. *)
Definition conn_as (playerID : string) (p : presence) : option string :=
  match p with Away => None | Silent => Some "" | At _ _ => Some playerID end.

Section owned.
Context (owner : Z → string) (Hne : ∀ c, owner c ≠ "") (Hinj : ∀ c c', owner c = owner c' → c = c').

(** A step that concerns one connection and its player. *)
Lemma tracks_update pres pres' w w' c0 :
  tracks_presence owner pres w →
  (∀ c, c ≠ c0 → pres' c = pres c ∧ conns w' !! c = conns w !! c) →
  (∀ p, p ≠ owner c0 → members (room_of w') !! p = members (room_of w) !! p) →
  conns w' !! c0 = conn_as (owner c0) (pres' c0) →
  members (room_of w') !! owner c0 = shown_as (owner c0) (pres' c0) →
  tracks_presence owner pres' w'.
Proof.
  intros (Hc & Hm & Hr) Hother Hmem Hc0 Hm0. split_and!.
  - intros c. destruct (decide (c = c0)) as [->|Hne0]; [done|].
    destruct (Hother c Hne0) as [-> ->]. apply Hc.
  - intros c. destruct (decide (c = c0)) as [->|Hne0]; [done|].
    destruct (Hother c Hne0) as [-> _]. rewrite Hmem; [apply Hm|]. intros Heq. by apply Hne0, Hinj.
  - intros p Hp. destruct (decide (p = owner c0)) as [->|Hp0]; [by exists c0|].
    apply Hr. by rewrite <- Hmem.
Qed.

Lemma presence_other c c0 p e :
  c ≠ c0 → (match e with Accepted c' | Received c' _ | Ended c' => c' = c0 end) →
  presence_step c p e = p.
Proof.
  intros Hne0. destruct e as [c'|c' f|c']; simpl; intros ->;
    try destruct f; try done; by rewrite decide_False by congruence.
Qed.

Lemma tracks_step pres w e :
  own_moves owner e → tracks_presence owner pres w →
  tracks_presence owner (λ c, presence_step c (pres c) e) (ws_step w e).
Proof.
  intros Hown Htracks. pose proof Htracks as (Hc & Hm & _).
  set (c0 := match e with Accepted c | Received c _ | Ended c => c end).
  specialize (Hc c0). specialize (Hm c0).
  eapply (tracks_update pres _ w _ c0 Htracks).
  - intros c Hcne. split; [by apply (presence_other c c0); destruct e|].
    destruct e as [c'|c' f|c']; simpl in *; destruct (conns w !! c'); simpl; try done.
    + by rewrite lookup_insert_ne.
    + destruct (ws_frame f s (room_of w)). simpl. by rewrite lookup_insert_ne.
    + by rewrite lookup_delete_ne.
  - intros p Hp. destruct e as [c'|c' f|c']; simpl in *; subst c0.
    + by destruct (conns w !! c').
    + destruct (conns w !! c'), f; try done. simpl in *. rewrite lookup_insert_ne; congruence.
    + rewrite Hc. destruct (pres c') eqn:Hpc; [done|done|]. simpl.
      unfold ws_end. rewrite bool_decide_eq_true_2 by done. simpl. by rewrite lookup_delete_ne.
  - destruct e as [c'|c' f|c']; simpl in *; subst c0.
    + rewrite decide_True by done. rewrite Hc. destruct (pres c'); simpl; rewrite ?Hc; try done.
      by rewrite lookup_insert_eq.
    + rewrite Hc. destruct f, (pres c'); simpl; rewrite ?decide_True, ?Hc, ?lookup_insert_eq by done;
        try done; by rewrite Hown.
    + rewrite decide_True by done. rewrite Hc. destruct (pres c'); simpl; rewrite ?Hc; try done;
        by rewrite lookup_delete_eq.
  - destruct e as [c'|c' f|c']; simpl in *; subst c0.
    + rewrite decide_True by done. rewrite Hc. destruct (pres c'); simpl; by rewrite ?Hm.
    + rewrite Hc. destruct f; [by destruct (pres c')..|].
      rewrite decide_True by done. destruct (pres c'); simpl; rewrite ?Hm; try done;
        rewrite Hown, lookup_insert_eq, Hm; done.
    + rewrite decide_True by done. rewrite Hc. destruct (pres c'); simpl; rewrite ?Hm; try done.
      unfold ws_end. rewrite bool_decide_eq_true_2 by done. simpl. by rewrite lookup_delete_eq.
Qed.

Lemma tracks_run es pres w :
  Forall (own_moves owner) es → tracks_presence owner pres w →
  tracks_presence owner (λ c, foldl (presence_step c) (pres c) es) (ws_run es w).
Proof.
  intros Hes. revert pres w. induction Hes as [|e es He _ IH]; intros pres w Hw; [done|].
  exact (IH _ _ (tracks_step pres w e He Hw)).
Qed.

(** With connections that have players of their own the room has exactly the players of the
    open connections that have moved. *)
Lemma room_tracks_owners (es : list ws_event) (Hes : Forall (own_moves owner) es) :
  let r := room_of (ws_run es ws_start) in
  (∀ c, members r !! owner c = shown_as (owner c) (presence_of c es)) ∧
  ∀ p mb, members r !! p = Some mb →
    Member_PlayerID mb = p ∧ ∃ c, p = owner c ∧ presence_of c es = At (X mb) (Y mb).
Proof.
  assert (H0 : tracks_presence owner (λ _, Away) ws_start).
  { split_and!; [done|done|]. intros p. simpl. rewrite lookup_empty. by intros [? ?]. }
  destruct (tracks_run es _ _ Hes H0) as (_ & Hm & Hr). split; [exact Hm|].
  intros p mb Hp. destruct (Hr p) as [c <-]; [by eexists|].
  specialize (Hm c). rewrite Hp in Hm. fold (presence_of c es) in Hm.
  destruct (presence_of c es) eqn:Hpres; [done|done|]. injection Hm as ->. by eauto.
Qed.
End owned.

(** *** Connections of any players *)

(** The player a connection has moved last: none when it is not open, the empty text when it
    has not moved. What the other connections do has no part in it. *)
Definition player_step (c : Z) (cur : option string) (e : ws_event) : option string :=
  match e with
  | Accepted c' => if decide (c' = c) then Some (default "" cur) else cur
  | Received c' (MoveFrame m) => if decide (c' = c) then (λ _, GetPlayerId m) <$> cur else cur
  | Received _ _ => cur
  | Ended c' => if decide (c' = c) then None else cur
  end.

Definition player_of (c : Z) (es : list ws_event) : option string := foldl (player_step c) None es.

(** After [before], the event moves the player, or ends a connection that moved it last. *)
Definition touches (p : string) (before : list ws_event) (e : ws_event) : Prop :=
  match e with
  | Received c (MoveFrame m) => is_Some (player_of c before) ∧ GetPlayerId m = p
  | Ended c => player_of c before = Some p ∧ p ≠ ""
  | _ => False
  end.

Fixpoint untouched (p : string) (before after : list ws_event) : Prop :=
  match after with
  | [] => True
  | e :: after' => ¬ touches p before e ∧ untouched p (before ++ [e]) after'
  end.

(** The latest event that touches a player is a move to where the member is. *)
Definition last_moved (p : string) (es : list ws_event) (mb : Member) : Prop :=
  Member_PlayerID mb = p ∧ ∃ before c m after,
    es = before ++ Received c (MoveFrame m) :: after ∧ is_Some (player_of c before) ∧
    GetPlayerId m = p ∧ X mb = GetX m ∧ Y mb = GetY m ∧
    untouched p (before ++ [Received c (MoveFrame m)]) after.

Lemma player_of_conns es c : conns (ws_run es ws_start) !! c = player_of c es.
Proof.
  induction es as [|e es IH] using rev_ind; [done|]. unfold ws_run, player_of in *. rewrite !foldl_snoc.
  set (w := foldl ws_step ws_start es) in *. rewrite <- IH.
  destruct e as [c'|c' f|c']; cbn [ws_step player_step].
  - destruct (conns w !! c') as [q|] eqn:Hc; case_decide as Hcc; subst; cbn [conns]; rewrite ?Hc; try done.
    + by rewrite lookup_insert_eq.
    + by rewrite lookup_insert_ne.
  - destruct (conns w !! c') as [q|] eqn:Hc.
    + destruct f as [| | |m]; cbn [ws_frame conns];
        try (destruct (decide (c' = c)) as [->|]; [by rewrite lookup_insert_eq|by rewrite lookup_insert_ne]).
      destruct (decide (c' = c)) as [->|]; [by rewrite lookup_insert_eq, Hc|by rewrite lookup_insert_ne].
    + destruct f; try done. case_decide; [by subst; rewrite Hc|done].
  - destruct (conns w !! c') as [q|] eqn:Hc; case_decide as Hcc; subst; cbn [conns]; rewrite ?Hc; try done.
    + by rewrite lookup_delete_eq.
    + by rewrite lookup_delete_ne.
Qed.

Lemma untouched_snoc p before after e :
  untouched p before (after ++ [e]) ↔ untouched p before after ∧ ¬ touches p (before ++ after) e.
Proof.
  revert before. induction after as [|e' after IH]; intros before; cbn [untouched app].
  - rewrite app_nil_r. tauto.
  - rewrite IH, <- app_assoc. cbn [app]. tauto.
Qed.

(** One more event: it does not touch the player, or it decides. *)
Lemma last_moved_snoc p es e mb :
  last_moved p (es ++ [e]) mb ↔
    (last_moved p es mb ∧ ¬ touches p es e) ∨
    (touches p es e ∧ ∃ c m, e = Received c (MoveFrame m) ∧
       mb = {| Member_PlayerID := p; X := GetX m; Y := GetY m |}).
Proof.
  split.
  - intros [Hid (before & c & m & after & E & Hopen & Hp & Hx & Hy & Hun)].
    destruct after as [|e' after _] using rev_ind.
    + apply app_inj_tail in E as [-> ->]. right. split; [done|]. exists c, m. split; [done|].
      destruct mb; simpl in *; by subst.
    + rewrite app_comm_cons, app_assoc in E. apply app_inj_tail in E as [-> ->].
      apply untouched_snoc in Hun as [Hun Hlast]. left.
      rewrite <- app_assoc in Hlast. split; [|exact Hlast]. split; [done|].
      by exists before, c, m, after.
  - intros [[[Hid (before & c & m & after & -> & Hrest)] Hnot]|[Ht (c & m & -> & ->)]]; (split; [done|]).
    + exists before, c, m, (after ++ [e]). rewrite <- app_assoc. split; [done|].
      destruct Hrest as (Ho & Hp & Hx & Hy & Hun). split_and!; [done..|]. apply untouched_snoc.
      rewrite <- app_assoc. by split.
    + destruct Ht as [Ho Hp]. by exists es, c, m, [].
Qed.

(** What an event does to the entry of a player. *)
Lemma step_entry p es e :
  let w := ws_run es ws_start in
  (¬ touches p es e → members (room_of (ws_step w e)) !! p = members (room_of w) !! p) ∧
  (touches p es e → (∀ mb, members (room_of w) !! p = Some mb → Member_PlayerID mb = p) →
     members (room_of (ws_step w e)) !! p =
     match e with
     | Received _ (MoveFrame m) => Some {| Member_PlayerID := p; X := GetX m; Y := GetY m |}
     | _ => None
     end).
Proof.
  intros w. destruct e as [c|c f|c]; cbn [ws_step touches].
  - split; [|done]. by destruct (conns w !! c).
  - subst w. rewrite player_of_conns. destruct f as [| | |m]; try (split; [|done]; by destruct (player_of c es)).
    destruct (player_of c es) as [q|]; cbn [ws_frame room_of ApplyMove members];
      [|by split; [|intros [[? [=]] _]]].
    split.
    + intros Hnot. rewrite lookup_insert_ne; [done|]. intros Hp. apply Hnot. by split; [eexists|].
    + intros [_ <-] Hid. rewrite lookup_insert_eq. destruct (members _ !! GetPlayerId m) as [mb|]; [|done].
      by rewrite (Hid mb).
  - subst w. rewrite player_of_conns. destruct (player_of c es) as [q|]; cbn [room_of]; [|by split; [|intros [[=] _]]].
    unfold ws_end. split.
    + intros Hnot. case_bool_decide as Hq; [|done]. cbn [Remove members]. rewrite lookup_delete_ne; [done|].
      intros ->. by apply Hnot.
    + intros [[= ->] Hp] _. rewrite bool_decide_eq_true_2 by done. cbn [Remove members].
      by rewrite lookup_delete_eq.
Qed.

Lemma room_entry es p mb : members (room_of (ws_run es ws_start)) !! p = Some mb ↔ last_moved p es mb.
Proof.
  revert mb. induction es as [|e es IH] using rev_ind; intros mb.
  { cbn. rewrite lookup_empty. split; [done|]. intros [_ (before & c & m & after & E & _)]. by destruct before. }
  rewrite last_moved_snoc, <- IH. unfold ws_run. rewrite foldl_snoc. fold (ws_run es ws_start).
  destruct (step_entry p es e) as [Hnot Ht].
  assert (∀ mb, members (room_of (ws_run es ws_start)) !! p = Some mb → Member_PlayerID mb = p) as Hid
    by by intros mb' [? _]%IH.
  assert (touches p es e ∨ ¬ touches p es e) as [He|He].
  { destruct e as [c|c [| | |m]|c]; cbn [touches]; try (right; by intros []).
    - destruct (player_of c es); [|right; by intros [[? [=]] _]].
      destruct (decide (GetPlayerId m = p)); [by left; split; [eexists|]|by right; intros [_ ?]].
    - destruct (decide (player_of c es = Some p ∧ p ≠ "")); [by left|by right]. }
  - rewrite (Ht He Hid). split.
    + intros E. right. split; [done|]. destruct e as [c|c [| | |m]|c]; try done. injection E as <-. by exists c, m.
    + intros [[_ ?]|[_ (c & m & -> & ->)]]; done.
  - rewrite (Hnot He). split; [by left|]. by intros [[? _]|[? _]].
Qed.

(** C38. The room follows the connections. Whatever the interleaving of connections that
    open, move any players, send anything else and end, a player is in the room exactly when
    the latest event that touched it is a move, and it is where that move put it: a move
    by any open connection touches a player, and so does the end of a connection that moved
    it last, also when another connection of that player is still open. When every
    connection moves one player of its own (players of different connections differ, none is
    the empty text), these are exactly the players of the open connections that have
    moved, each at the last move of its connection. *)
Theorem room_tracks_connections (es : list ws_event) :
  let r := room_of (ws_run es ws_start) in
  (∀ p mb, members r !! p = Some mb ↔ last_moved p es mb) ∧
  ∀ owner : Z → string, (∀ c, owner c ≠ "") → (∀ c c', owner c = owner c' → c = c') →
    Forall (own_moves owner) es →
    (∀ c, members r !! owner c = shown_as (owner c) (presence_of c es)) ∧
    ∀ p mb, members r !! p = Some mb → ∃ c, p = owner c ∧ presence_of c es = At (X mb) (Y mb).
Proof.
  split; [intros p mb; apply room_entry|]. intros owner Hne Hinj Hes.
  destruct (room_tracks_owners owner Hne Hinj es Hes) as [Hm Hr]. split; [exact Hm|].
  intros p mb Hp. by destruct (Hr p mb Hp) as [_ ?].
Qed.

(** ** The deadline of a connection *)

(** A connection whose frames arrive in order is served as if it had sent those
    before the deadline and then ended. *)
Lemma ws_reads_deadline deadline arrivals playerID r :
  StronglySorted Z.le arrivals.*1 →
  ws_reads deadline arrivals playerID r =
  ws_loop (filter (λ tf, in_time deadline tf.1 = true) arrivals).*2 playerID r.
Proof.
  revert playerID r. induction arrivals as [|[t f] arrivals IH]; intros playerID r Hs; [done|].
  apply StronglySorted_inv in Hs as [Hs Hle]. cbn [ws_reads]. destruct (in_time deadline t) eqn:Ht.
  - rewrite filter_cons_True by done. cbn [fmap list_fmap snd ws_loop].
    destruct (ws_frame f playerID r). by apply IH.
  - rewrite filter_cons_False by (simpl; congruence).
    rewrite filter_all_false; [done|]. apply Forall_forall. intros [t' f'] Hin. rewrite Forall_forall in Hle.
    specialize (Hle t' (list_elem_of_fmap_2 fst arrivals (t', f') Hin)).
    destruct deadline; simpl in *; [|done]. rewrite Z.ltb_ge in Ht. rewrite Z.ltb_lt. lia.
Qed.

(** ** A connection that moves several players *)

Definition frame_move (f : frame) : option Move :=
  match f with MoveFrame m => Some m | _ => None end.

(** Only the player of the last move is removed at the end: the room keeps the
    other players the connection moved. *)
Lemma ws_loop_leaves frames playerID r :
  ws_loop frames playerID r =
  ws_end (match last (omap frame_move frames) with Some m => GetPlayerId m | None => playerID end)
    (foldl (λ r m, ApplyMove m r) r (omap frame_move frames)).
Proof.
  revert playerID r. induction frames as [|f frames IH]; intros playerID r; [done|].
  destruct f as [| | |m]; simpl; [apply IH..|].
  rewrite IH. f_equal. fold (omap frame_move frames). rewrite last_cons.
  by destruct (last (omap frame_move frames)).
Qed.
End room.
Arguments Member : clear implicits.
Arguments Room : clear implicits.
Arguments Move : clear implicits.
Arguments frame : clear implicits.
Arguments ws_state : clear implicits.
Arguments ws_event : clear implicits.

(** ** Concrete runs *)

Definition move (p : string) (x y : Z) : frame Z :=
  MoveFrame {| GetPlayerId := p; GetX := x; GetY := y |}.

(** A member stays after its only connection has ended. *)
Example disconnect_leak :
  members (ws_loop [move "alice" 1 2; move "bob" 3 4] "" NewRoom) !! "alice" =
  Some {| Member_PlayerID := "alice"; X := 1; Y := 2 |}.
Proof. reflexivity. Qed.

(** A player that moves every 20 seconds and whose request has 30 seconds: the
    server drops the connection, and the player leaves the room. *)
Example timeout_disconnects (r : Room Z) :
  WSHandler_ServeHTTP (Ok tt) (Some (30 * Second))
    [(0, move "alice" 1 2); (20 * Second, move "alice" 3 4); (40 * Second, move "alice" 5 6)] r =
  Remove "alice" (ws_loop [move "alice" 1 2; move "alice" 3 4] "" r).
Proof. unfold Remove, WSHandler_ServeHTTP. simpl. unfold ws_end. simpl. unfold Remove. simpl. by rewrite delete_delete_eq. Qed.

(** Player names for connections: one "a" more than the connection's number. *)
Definition owner_name (c : Z) : string :=
  String (if c <? 0 then "m" else "p") (Nat.iter (Z.to_nat (Z.abs c)) (String "a") "").

Lemma owner_name_inj c c' : owner_name c = owner_name c' → c = c'.
Proof.
  unfold owner_name. intros [= Hs Hl]. apply (f_equal String.length) in Hl.
  assert (Hlen : ∀ n, String.length (Nat.iter n (String "a") "") = n) by (induction n; simpl; congruence).
  rewrite !Hlen in Hl. destruct (Z.ltb_spec c 0), (Z.ltb_spec c' 0); try discriminate; lia.
Qed.

Definition demo_events : list (ws_event Z) :=
  [Accepted 1; Accepted 2; Received 1 (move "pa" 1 2); Received 2 NonBinary;
   Received 2 (move "paa" 3 4); Received 1 (move "pa" 5 6); Ended 2; Accepted 2].

(** Two connections of one player: the room loses the player when the first ends. *)
Definition shared_player : list (ws_event Z) :=
  [Accepted 1; Accepted 2; Received 1 (move "pa" 1 2); Received 2 (move "pa" 5 6); Ended 1].

Example reconnect_removes :
  members (room_of (ws_run shared_player ws_start)) !! "pa" = None ∧ player_of 2 shared_player = Some "pa".
Proof. by split. Qed.

Lemma room_tracks_connections_witness :
  members (room_of (ws_run demo_events ws_start)) !! "pa" =
    Some {| Member_PlayerID := "pa"; X := 5; Y := 6 |} ∧
  members (room_of (ws_run demo_events ws_start)) !! "paa" = None ∧
  ¬ last_moved "pa" shared_player {| Member_PlayerID := "pa"; X := 5; Y := 6 |}.
Proof.
  assert (Hes : Forall (own_moves owner_name) demo_events) by (repeat constructor).
  destruct (room_tracks_connections demo_events) as [_ Howned].
  destruct (Howned owner_name (λ c H, ltac:(discriminate H)) owner_name_inj Hes) as [Hm _].
  split; [exact (Hm 1)|]. split; [exact (Hm 2)|].
  intros Hlast. apply (room_tracks_connections shared_player) in Hlast. discriminate Hlast.
Defined.
