(* ===== verification/Lifecycle.v ===== *)
(** * Runtime flags and probes

    Models [internal/lifecycle] (the optimisation toggle and the readiness
    gate, atomic booleans) and the handlers that read and set them: health,
    optimize and metrics. *)

From S2P Require Import GoLang Auth Http AppError Decode Endpoint Room.

(** ** Flags *)

Record Optimize := { opt_on : bool }.
Definition Optimize_On (o : Optimize) : bool := opt_on o.
Definition Optimize_Set (v : bool) (o : Optimize) : Optimize := {| opt_on := v |}.

Record Readiness := { rd_ready : bool }.
Definition NewReadiness : Readiness := {| rd_ready := true |}.
Definition Readiness_Ready (r : Readiness) : bool := rd_ready r.
Definition SetDraining (r : Readiness) : Readiness := {| rd_ready := false |}.

(** ** Handlers *)

Section handlers.
Context {S : Type}.

(** The field [State] may be nil. *)
Definition HealthHandler_Live : Handler S := λ _, answer [WriteHeader 200].

Definition HealthHandler_Ready : Handler (option Readiness) := λ _ st,
  match st with
  | Some r =>
      if negb (Readiness_Ready r)
      then answer [HeaderSet "Content-Type" "application/json"; WriteHeader 503;
                   Write [JObj [("ready", JBool false)]]] st
      else answer [WriteHeader 200] st
  | None => answer [WriteHeader 200] st
  end.

Definition decode_optimizeReq (j : json) : option bool :=
  fs ← obj_fields j; field_bool (Decode.members "on" fs) false.

Definition quoted (s : string) : string :=
  String (ascii_of_nat 34) (s +:+ String (ascii_of_nat 34) "").

Definition optimize_invalid : error :=
  Validation ("invalid body (expected {" +:+ quoted "on" +:+ ": bool})") [].

Definition OptimizeHandler_ServeHTTP `{!GoJson} : Handler Optimize :=
  with_body decode_optimizeReq (λ _, WriteJSON optimize_invalid)
    (λ on o, answer [WriteHeader 204] (Optimize_Set on o)).

(** The keys of the map are written in order. *)
Definition MetricsHandler_Get {F} : Handler (Room F * Optimize) := λ _ '(rm, o),
  answer (writeJSON (JObj [("connectedPlayers", JNum (Room_Size rm));
                           ("optimized", JBool (Optimize_On o)); ("tps", JNum 0)])) (rm, o).
End handlers.

(** ** Facts *)

(** Once draining, every readiness probe is answered 503, for good. *)
Lemma drained_stays (req : Request) (r : Readiness) :
  RespStatus <$> (serve HealthHandler_Ready req (Some (SetDraining r))).1 = Some 503 ∧
  (serve HealthHandler_Ready req (Some (SetDraining r))).2 = Some (SetDraining r) ∧
  SetDraining (SetDraining r) = SetDraining r.
Proof. done. Qed.

(** The toggle takes the value of the body, and only a body that decodes. *)
Lemma optimize_sets `{!GoJson} (req : Request) (o : Optimize) :
  no_panic (ReqBody req) →
  match DecodeBody decode_optimizeReq req with
  | Ok on => serve OptimizeHandler_ServeHTTP req o =
      (Some {| RespStatus := 204; RespHeader := ∅; RespBody := [] |}, Optimize_Set on o)
  | _ => refused 400 (serve OptimizeHandler_ServeHTTP req o).1 ∧
      (serve OptimizeHandler_ServeHTTP req o).2 = o
  end.
Proof.
  intros Hread. unfold OptimizeHandler_ServeHTTP. rewrite serve_with_body.
  pose proof (DecodeBody_no_panic decode_optimizeReq req Hread) as Hdec.
  destruct (DecodeBody decode_optimizeReq req); [done| |done].
  split; [apply refused_Validation|done].
Qed.
