(* ===== verification/Bots.v ===== *)
(** * The WebSocket load generator

    Models [cmd/bots/main.go]: bots that connect to the room of a server and move
    their player at every tick of a timer, by one of three scenarios, until the
    program is told to stop. The bots, the wires of their connections and the
    room ([Room]) are one transition system, so that what the load shows in the
    room can be stated. The protobuf codec ([Proto]) and the random generator of
    [math/rand/v2] ([Rand]) are interfaces with their documented laws; flags are
    arguments, and log lines are left out. *)

From stdpp Require Import pretty.
From S2P Require Import GoLang Float FloatBounds Strconv Gacha GachaRandom Room Lifecycle.
#[local] Open Scope Z_scope.

(** ** Scenarios *)

Section scenarios.
Context {G : Type} `{!Rand G}.

(** Coordinates for a tick. The arguments of a call are evaluated from left to
    right. *)
Definition scenario : Type := Z → M G (float64 * float64).

Definition draw_float : M G float64 := λ g, let '(x, g') := Float64 g in (Ok x, g').

(** [rng.Float64()*scale - shift]. *)
Definition draw_scaled (scale shift : Z) : M G float64 :=
  u ← draw_float; mret (f_sub (f_mul u (f_of_Z scale)) (f_of_Z shift)).

Definition evenScenario : scenario := λ _,
  x ← draw_scaled 1000 500; y ← draw_scaled 1000 500; mret (x, y).

Definition herdScenario : scenario := λ _,
  x ← draw_scaled 40 20; y ← draw_scaled 40 20; mret (x, y).

Definition centers : list (Z * Z) := [(-300, -300); (300, -300); (0, 0); (-300, 300); (300, 300)].

Definition clusterScenario : scenario := λ _,
  c ← (λ g, let '(i, g') := rand_IntN (Z.of_nat (length centers)) g in
            (match centers !! Z.to_nat i with
             | Some c => if 0 <=? i then Ok c else Panic "index out of range"
             | None => Panic "index out of range"
             end, g'));
  x ← draw_scaled 60 30;
  y ← draw_scaled 60 30;
  mret (f_add (f_of_Z c.1) (f_round x), f_add (f_of_Z c.2) (f_round y)).

(** [%q] of the name is [Quote]. *)
Definition parseScenario (Quote : string → string) (s : string) : result scenario :=
  if bool_decide (s = "even") then Ok evenScenario
  else if bool_decide (s = "herd") then Ok herdScenario
  else if bool_decide (s = "cluster") then Ok clusterScenario
  else Err (ErrorsNew "bots.parseScenario" ("unknown scenario " +:+ Quote s +:+ " (want even|herd|cluster)")).
End scenarios.

(** ** Bounds of the coordinates *)

(** The limits of the scenarios' documentation. *)
Definition scenario_bounds : list (string * Z) := [("even", 500); ("herd", 20); ("cluster", 330)].

Definition in_box (b : Z) (x : float64) : bool := f_le (f_of_Z (- b)) x && f_le x (f_of_Z b).

(** Within 30 of a center, on integers. *)
Definition near_center (x y : float64) : Prop :=
  ∃ c dx dy, c ∈ centers ∧ -30 <= dx <= 30 ∧ -30 <= dy <= 30 ∧ x = f_of_Z (c.1 + dx) ∧ y = f_of_Z (c.2 + dy).

Section bounds.
Context {G : Type} `{!Rand G, !RandLaws G}.
Implicit Types (g : G).

Lemma draw_scaled_between scale shift g :
  0 <= shift <= scale → scale < 2 ^ 52 →
  ∃ x g', draw_scaled scale shift g = (Ok x, g') ∧ between (- shift) (scale - shift) x.
Proof.
  intros Hs Hsc. unfold draw_scaled, draw_float. rewrite M_bind_eq.
  pose proof (Float64_valid g) as Hv. pose proof (Float64_range g) as [H0 H1].
  destruct (Float64 g) as [u g']. cbn [fst] in *. do 2 eexists. split; [done|].
  pose proof (between_unit u Hv H0 H1) as Hu.
  pose proof (λ z Hz, between_of_Z z Hz) as Hz. unfold f_exact in Hz.
  assert (between 0 (1 * scale) (f_mul u (f_of_Z scale))) as Hm.
  { apply f_mul_between; [lia|lia|lia|done|].
    eapply between_mono; [apply Hz|..]; lia. }
  rewrite Z.mul_1_l in Hm. apply (f_sub_between 0 scale shift shift); [done|apply Hz|..]; lia.
Qed.

Lemma in_box_between b x : between (- b) b x → 0 <= b < 2 ^ 53 → in_box b x = true.
Proof.
  intros Hx Hb. destruct (between_le (- b) b x Hx) as [H1 H2]; [lia|lia|].
  unfold in_box. by rewrite H1, H2.
Qed.

Lemma scaled_scenario scale shift g :
  0 <= shift → scale = 2 * shift → scale < 2 ^ 52 →
  ∃ x y, ((x ← draw_scaled scale shift; y ← draw_scaled scale shift; mret (x, y)) g).1 = Ok (x, y) ∧
    in_box shift x = true ∧ in_box shift y = true.
Proof.
  intros Hs -> Hsc. destruct (draw_scaled_between (2 * shift) shift g) as (x & g1 & E1 & Hx); [lia|done|].
  destruct (draw_scaled_between (2 * shift) shift g1) as (y & g2 & E2 & Hy); [lia|done|].
  exists x, y. rewrite M_bind_eq, E1, M_bind_eq, E2.
  split; [done|]. replace (2 * shift - shift) with shift in * by lia. split; apply in_box_between; done || lia.
Qed.

Lemma clusterScenario_spec tick g :
  ∃ x y, (clusterScenario tick g).1 = Ok (x, y) ∧ near_center x y.
Proof.
  unfold clusterScenario. rewrite M_bind_eq.
  pose proof (rand_IntN_range (Z.of_nat (length centers)) g) as Hi.
  destruct (rand_IntN _ g) as [i g1]. cbn [fst] in Hi. specialize (Hi ltac:(done)).
  destruct (centers !! Z.to_nat i) as [c|] eqn:Hc; cycle 1.
  { apply lookup_ge_None in Hc. cbn [centers length] in *. lia. }
  rewrite (proj2 (Z.leb_le 0 i)) by lia.
  destruct (draw_scaled_between 60 30 g1) as (x & g2 & E1 & Hx); [lia|done|].
  destruct (draw_scaled_between 60 30 g2) as (y & g3 & E2 & Hy); [lia|done|].
  rewrite M_bind_eq, E1, M_bind_eq, E2. do 2 eexists. split; [done|].
  destruct (f_round_integer _ _ x Hx) as (dx & Hdx & Ex); [lia|lia|].
  destruct (f_round_integer _ _ y Hy) as (dy & Hdy & Ey); [lia|lia|].
  apply list_elem_of_lookup_2 in Hc.
  assert (Z.abs c.1 < 2 ^ 52 ∧ Z.abs c.2 < 2 ^ 52) as [H1 H2].
  { unfold centers in Hc. rewrite !elem_of_cons, elem_of_nil in Hc.
    by destruct Hc as [->|[->|[->|[->|[->|[]]]]]]. }
  exists c, dx, dy. split_and!; [done|lia|lia|lia|lia|by apply Ex|by apply Ey].
Qed.

Lemma near_center_in_box x y : near_center x y → in_box 330 x = true ∧ in_box 330 y = true.
Proof.
  intros (c & dx & dy & Hc & Hdx & Hdy & -> & ->).
  assert (Z.abs c.1 <= 300 ∧ Z.abs c.2 <= 300) as [H1 H2].
  { unfold centers in Hc. rewrite !elem_of_cons, elem_of_nil in Hc.
    by destruct Hc as [->|[->|[->|[->|[->|[]]]]]]. }
  split; (apply in_box_between; [|lia]); (eapply between_mono; [apply between_of_Z; unfold f_exact; lia|..]; lia).
Qed.

(** C36. The scenarios keep their promises. Whatever the generator yields in its
    documented ranges, [parseScenario] knows exactly the names [even], [herd] and
    [cluster], and the scenario it returns always gives two finite coordinates
    (it never panics) between minus and plus 500, 20 and 330, comparing as
    floating-point numbers; those of [cluster] are exactly the integers within 30 of one of
    the five centers. Rounding never carries a coordinate over its limit. *)
Theorem scenarios_in_bounds (Quote : string → string) (name : string) (tick : Z) (g : G) :
  match parseScenario Quote name with
  | Ok scen => ∃ b x y, (name, b) ∈ scenario_bounds ∧ (scen tick g).1 = Ok (x, y) ∧
      in_box b x = true ∧ in_box b y = true ∧ (name = "cluster" → near_center x y)
  | Err _ => name ∉ scenario_bounds.*1
  | Panic _ => False
  end.
Proof.
  unfold parseScenario. do 3 try case_bool_decide; subst.
  - destruct (scaled_scenario 1000 500 g) as (x & y & E & Hx & Hy); [lia..|].
    exists 500, x, y. split_and!; [left|exact E|done..].
  - destruct (scaled_scenario 40 20 g) as (x & y & E & Hx & Hy); [lia..|].
    exists 20, x, y. split_and!; [right; left|exact E|done..].
  - destruct (clusterScenario_spec tick g) as (x & y & E & Hn). destruct (near_center_in_box x y Hn).
    exists 330, x, y. split_and!; [right; right; left|done..].
  - unfold scenario_bounds. simpl. rewrite !elem_of_cons, elem_of_nil. naive_solver.
Qed.
End bounds.

(** ** Bots, wires and the room *)

(** The message of [api/proto/room.proto]; its only payload is a move. *)
Record ClientMessage := { Payload : option (Move float64) }.

Class Proto (Data : Type) := {
  proto_Marshal : ClientMessage → result Data;
  proto_Unmarshal : Data → result ClientMessage }.

Class ProtoLaws (Data : Type) `{!Proto Data} := {
  Unmarshal_Marshal : ∀ m d, proto_Marshal m = Ok d → proto_Unmarshal d = Ok m;
  Marshal_no_panic : ∀ m, no_panic (proto_Marshal m) }.

Definition botName (i : Z) : string := "p" +:+ Itoa i.

(** A bot dials, runs its loop, or has returned an error or nil. *)
Inductive bot_pc := Dialing | Running | Exited (r : option error).

(** What may happen: a dial succeeds or fails, the ticker of a bot fires and its
    write succeeds or fails, a bot takes the branch of the ended context, a signal
    arrives; the server reads the next frame of a connection, or its read
    fails. *)
Inductive bots_label :=
  | LDial (i : nat) (failure : option error)
  | LTick (i : nat) (failure : option error)
  | LDone (i : nat)
  | LCancel
  | LServe (i : nat)
  | LLost (i : nat).

#[export] Instance bots_label_eq_dec : EqDecision bots_label.
Proof. solve_decision. Defined.

Section system.
Context {G Data : Type} `{!Rand G, !Proto Data}.

(** The wire holds what the bot has written and the server has not read. *)
Record bot := { b_pc : bot_pc; b_step : Z; b_rng : G; b_wire : list Data }.

(** [addr], [tick] and [scen] of [runBot]. *)
Record bots_cfg := { cfg_addr : string; cfg_tick : Z; cfg_scen : scenario (G:=G) }.

Record bots_sys := {
  sys_bots : list bot;
  sys_cancelled : bool;
  sys_crash : option string;
  sys_server : ws_state float64 }.

(** [run] up to its goroutines; [now] is the clock's reading in nanoseconds. *)
Definition bots_start (Quote : string → string) (addr : string) (n tickMs : Z) (name : string) (seed now : Z)
    : result (bots_cfg * bots_sys) :=
  if n <? 1 then Err (ErrorsNew "bots.run" ("-n must be >= 1, got " +:+ Itoa n))
  else
    match parseScenario Quote name with
    | Ok scen =>
        let rngSeed := if seed =? 0 then now else seed in
        Ok ({| cfg_addr := addr; cfg_tick := int64_wrap (tickMs * 1000000); cfg_scen := scen |},
            {| sys_bots := (λ i, {| b_pc := Dialing; b_step := 0;
                                    b_rng := NewPCG (uint64_wrap rngSeed) (uint64_wrap (i [+] 1));
                                    b_wire := [] |}) <$> seqZ 0 n;
               sys_cancelled := false; sys_crash := None; sys_server := ws_start |})
    | Err e => Err e
    | Panic w => Panic w
    end.

(** [time.NewTicker]. *)
Definition NewTicker (d : Z) : result unit :=
  if d <=? 0 then Panic "non-positive interval for NewTicker" else Ok tt.

(** The message of a tick. *)
Definition bot_message (i : nat) (x y : float64) : ClientMessage :=
  {| Payload := Some {| GetPlayerId := botName (Z.of_nat i); GetX := x; GetY := y |} |}.

(** One turn of the loop of [runBot] with the ticker's branch: the program goes on,
    or the panic it dies of. *)
Definition bot_tick (cfg : bots_cfg) (i : nat) (failure : option error) (b : bot) : result bot :=
  let step := uint64_wrap (b_step b + 1) in
  let '(r, g) := cfg_scen cfg step (b_rng b) in
  let now pc wire := Ok {| b_pc := pc; b_step := step; b_rng := g; b_wire := wire |} in
  match r with
  | Ok (x, y) =>
      match proto_Marshal (bot_message i x y) with
      | Ok data =>
          match failure with
          | None => now Running (b_wire b ++ [data])
          | Some e => now (Exited (Some (Errorf_w "write" e))) (b_wire b)
          end
      | Err e => now (Exited (Some (Errorf_w "marshal" e))) (b_wire b)
      | Panic w => Panic w
      end
  | Err e => Err e
  | Panic w => Panic w
  end.

(** What [ServeHTTP] of [ws.go] makes of a frame's bytes. *)
Definition received (data : Data) : frame float64 :=
  match proto_Unmarshal data with
  | Ok {| Payload := Some m |} => MoveFrame m
  | Ok {| Payload := None |} => UnknownPayload
  | _ => Malformed
  end.

Definition at_bot_pc (b : bot) (pc : bot_pc) : bot :=
  {| b_pc := pc; b_step := b_step b; b_rng := b_rng b; b_wire := b_wire b |}.

Definition with_bot (i : nat) (b : bot) (c : bots_sys) : bots_sys :=
  {| sys_bots := <[i := b]> (sys_bots c); sys_cancelled := sys_cancelled c;
     sys_crash := sys_crash c; sys_server := sys_server c |}.

Definition at_server (e : ws_event float64) (c : bots_sys) : bots_sys :=
  {| sys_bots := sys_bots c; sys_cancelled := sys_cancelled c;
     sys_crash := sys_crash c; sys_server := ws_step (sys_server c) e |}.

Definition crashed (w : string) (c : bots_sys) : bots_sys :=
  {| sys_bots := sys_bots c; sys_cancelled := sys_cancelled c;
     sys_crash := Some w; sys_server := sys_server c |}.

(** A panic in any goroutine ends the program; the server goes on. *)
Definition bots_fire (cfg : bots_cfg) (e : bots_label) (c : bots_sys) : option bots_sys :=
  match e, sys_crash c with
  | LDial i failure, None =>
      b ← sys_bots c !! i;
      match b_pc b, failure with
      | Dialing, Some err =>
          Some (with_bot i (at_bot_pc b (Exited (Some (Errorf_w ("dial " +:+ cfg_addr cfg) err)))) c)
      | Dialing, None =>
          let c' := with_bot i (at_bot_pc b Running) (at_server (Accepted (Z.of_nat i)) c) in
          match NewTicker (cfg_tick cfg) with
          | Panic w => Some (crashed w c')
          | _ => Some c'
          end
      | _, _ => None
      end
  | LTick i failure, None =>
      b ← sys_bots c !! i;
      match b_pc b with
      | Running =>
          match bot_tick cfg i failure b with
          | Ok b' => Some (with_bot i b' c)
          | Panic w => Some (crashed w c)
          | Err _ => None
          end
      | _ => None
      end
  | LDone i, None =>
      b ← sys_bots c !! i;
      match b_pc b, sys_cancelled c with
      | Running, true => Some (with_bot i (at_bot_pc b (Exited None)) c)
      | _, _ => None
      end
  | LCancel, None =>
      Some {| sys_bots := sys_bots c; sys_cancelled := true; sys_crash := None; sys_server := sys_server c |}
  | LServe i, _ =>
      b ← sys_bots c !! i;
      match conns (sys_server c) !! Z.of_nat i, b_wire b with
      | Some _, data :: wire =>
          Some (at_server (Received (Z.of_nat i) (received data))
                  (with_bot i {| b_pc := b_pc b; b_step := b_step b; b_rng := b_rng b; b_wire := wire |} c))
      | _, _ => None
      end
  | LLost i, _ =>
      match conns (sys_server c) !! Z.of_nat i with
      | Some _ => Some (at_server (Ended (Z.of_nat i)) c)
      | None => None
      end
  | _, Some _ => None
  end.

Fixpoint bots_run (cfg : bots_cfg) (es : list bots_label) (c : bots_sys) : option bots_sys :=
  match es with
  | [] => Some c
  | e :: es' => c' ← bots_fire cfg e c; bots_run cfg es' c'
  end.
End system.
Arguments bot : clear implicits.
Arguments bots_cfg : clear implicits.
Arguments bots_sys : clear implicits.

(** ** What the load shows in the room *)

Section positions.
Context {G : Type} (scen : scenario (G:=G)).

(** A bot's generator after [k] ticks, and the position of its [k]th tick. *)
Fixpoint rng_after (k : nat) (g : G) : G :=
  match k with
  | O => g
  | Datatypes.S k' => (scen (uint64_wrap (Z.of_nat k)) (rng_after k' g)).2
  end.

Definition position (k : nat) (g : G) : result (float64 * float64) :=
  (scen (uint64_wrap (Z.of_nat k)) (rng_after (k - 1) g)).1.
End positions.

(** How often the server has read from a connection, and a bot has ticked. *)
Definition served (i : nat) (es : list bots_label) : nat := count (λ e, e = LServe i) es.
Definition is_tick (i : nat) (e : bots_label) : bool :=
  match e with LTick j _ => bool_decide (i = j) | _ => false end.
Definition ticked (i : nat) (es : list bots_label) : nat := count (λ e, is_tick i e = true) es.

Lemma botName_inj i j : botName i = botName j → i = j.
Proof.
  unfold botName, Itoa. intros [= H]. by apply (inj pretty).
Qed.

Lemma botName_ne i : botName i ≠ "".
Proof. done. Qed.

Lemma uint64_wrap_succ k : uint64_wrap (uint64_wrap (Z.of_nat k) + 1) = uint64_wrap (Z.of_nat (Datatypes.S k)).
Proof. unfold uint64_wrap. rewrite Zplus_mod_idemp_l. f_equal. lia. Qed.

Section room.
Context {G Data : Type} `{!Rand G, !Proto Data, !ProtoLaws Data}.
Context (cfg : bots_cfg G) (g0 : nat → G).
Context (Hscen : ∀ tick g, ∃ x y, (cfg_scen cfg tick g).1 = Ok (x, y)).
Implicit Types (b : bot G Data) (c : bots_sys G Data).

Abbreviation pos k i := (position (cfg_scen cfg) k (g0 i)).

(** The message of the [k]th tick. *)
Definition sends (i k : nat) (data : Data) : Prop :=
  ∃ x y, pos k i = Ok (x, y) ∧ proto_Marshal (bot_message i x y) = Ok data.

(** A bot that ticked [tk] times, of whose frames [rd] were read, beside the
    presence of its connection. *)
Definition bot_ok (i tk rd : nat) (p : presence (F:=float64)) b : Prop :=
  b_rng b = rng_after (cfg_scen cfg) tk (g0 i) ∧
  b_step b = uint64_wrap (Z.of_nat tk) ∧
  (length (b_wire b) + rd <= tk)%nat ∧
  (b_pc b = Running → (length (b_wire b) + rd = tk)%nat) ∧
  (∀ j data, b_wire b !! j = Some data → sends i (rd + j + 1) data) ∧
  (b_pc b = Dialing → p = Away ∧ tk = 0%nat) ∧
  match p with
  | Away => True
  | Silent => rd = 0%nat
  | At x y => (1 <= rd)%nat ∧ pos rd i = Ok (x, y)
  end.

Definition bots_inv (done : list bots_label) c : Prop :=
  ∃ pres, tracks_presence botName pres (sys_server c) ∧
    (∀ k, pres k ≠ Away → ∃ i, k = Z.of_nat i ∧ (i < length (sys_bots c))%nat) ∧
    ∀ i b, sys_bots c !! i = Some b → bot_ok i (ticked i done) (served i done) (pres (Z.of_nat i)) b.

Lemma ticked_snoc i done e : ticked i (done ++ [e]) = (ticked i done + if is_tick i e then 1 else 0)%nat.
Proof.
  unfold ticked. rewrite count_app, count_cons. change (count _ []) with 0%nat.
  destruct (is_tick i e); by rewrite Nat.add_0_r.
Qed.

Lemma served_snoc i done e :
  served i (done ++ [e]) = (served i done + if decide (e = LServe i) then 1 else 0)%nat.
Proof. unfold served. rewrite count_app, count_cons. change (count _ []) with 0%nat. by rewrite Nat.add_0_r. Qed.

(** A label that concerns neither a bot's ticks nor its frames. *)
Lemma bot_ok_keep i done e p b :
  is_tick i e = false → e ≠ LServe i →
  bot_ok i (ticked i done) (served i done) p b →
  bot_ok i (ticked i (done ++ [e])) (served i (done ++ [e])) p b.
Proof. intros Ht Hs. by rewrite ticked_snoc, served_snoc, Ht, decide_False, !Nat.add_0_r. Qed.

(** Leaving the loop, or the connection's end. *)
Lemma bot_ok_exit i tk rd p b r : bot_ok i tk rd p b → bot_ok i tk rd p (at_bot_pc b (Exited r)).
Proof. intros (H1 & H2 & H3 & _ & H5 & _ & H7). by split_and!. Qed.

Lemma bot_ok_lost i tk rd p b : bot_ok i tk rd p b → bot_ok i tk rd Away b.
Proof. intros (H1 & H2 & H3 & H4 & H5 & H6 & _). split_and!; try done. intros H. by destruct (H6 H). Qed.

Lemma bot_ok_dialled i p b :
  bot_ok i 0 0 p b → bot_ok i 0 0 Silent (at_bot_pc b Running).
Proof.
  intros (H1 & H2 & H3 & H4 & H5 & H6 & _). split_and!; simpl in *; try done. intros _. lia.
Qed.

Lemma bot_ok_tick i tk rd p b b' f :
  bot_ok i tk rd p b → b_pc b = Running → bot_tick cfg i f b = Ok b' → bot_ok i (Datatypes.S tk) rd p b'.
Proof.
  intros (Hg & Hs & Hl & Hrun & Hw & Hd & Hp) Hpc. unfold bot_tick.
  rewrite Hs, uint64_wrap_succ, Hg.
  destruct (cfg_scen cfg _ _) as [r g] eqn:Hr. destruct r as [[x y]|e|w]; [|done..].
  assert (pos (Datatypes.S tk) i = Ok (x, y)) as Hpos.
  { unfold position. by rewrite Nat.sub_succ, Nat.sub_0_r, Hr. }
  assert (rng_after (cfg_scen cfg) (Datatypes.S tk) (g0 i) = g) as Hg' by (cbn [rng_after]; by rewrite Hr).
  specialize (Hrun Hpc).
  destruct (proto_Marshal _) as [data|e|w] eqn:Hm; [destruct f as [er|]|..|done]; intros [= <-];
    split_and!; cbn [b_rng b_step b_wire b_pc]; try done; try lia; rewrite ?length_app; simpl; try lia.
  intros j d Hj. apply lookup_app_Some in Hj as [Hj|[Hlen Hj]]; [by apply Hw|].
  apply list_lookup_singleton_Some in Hj as [Hj <-].
  replace (rd + j + 1)%nat with (Datatypes.S tk) by lia. by exists x, y.
Qed.

(** The server reads the next frame. *)
Lemma bot_ok_serve i tk rd p b data wire :
  b_wire b = data :: wire → p ≠ Away → bot_ok i tk rd p b →
  ∃ m, received data = MoveFrame m ∧ GetPlayerId m = botName (Z.of_nat i) ∧
    bot_ok i tk (Datatypes.S rd) (At (GetX m) (GetY m))
      {| b_pc := b_pc b; b_step := b_step b; b_rng := b_rng b; b_wire := wire |}.
Proof.
  intros Hwire Hp (Hg & Hs & Hl & Hrun & Hw & Hd & _). rewrite Hwire in *. simpl in Hl, Hrun.
  destruct (Hw 0%nat data eq_refl) as (x & y & Hpos & Hm).
  unfold received. rewrite (Unmarshal_Marshal _ _ Hm). cbn [bot_message].
  eexists. split; [done|]. split; [done|]. split_and!; cbn [b_rng b_step b_wire b_pc GetX GetY]; try done.
  - lia.
  - intros H. specialize (Hrun H). lia.
  - intros j d Hj. replace (Datatypes.S rd + j + 1)%nat with (rd + Datatypes.S j + 1)%nat by lia. by apply Hw.
  - intros H. by destruct (Hd H).
  - lia.
  - by replace (Datatypes.S rd) with (rd + 0 + 1)%nat by lia.
Qed.

(** A step of the server on a bot's connection. *)
Lemma bots_inv_server done e ev c c' (i : nat) b b' :
  bots_inv done c → sys_bots c !! i = Some b →
  sys_bots c' = <[i := b']> (sys_bots c) → sys_server c' = ws_step (sys_server c) ev →
  own_moves botName ev → (match ev with Accepted k | Received k _ | Ended k => k = Z.of_nat i end) →
  (∀ j, is_tick j e = false) → (∀ j, j ≠ i → e ≠ LServe j) →
  (∀ p, conns (sys_server c) !! Z.of_nat i = conn_as (botName (Z.of_nat i)) p →
        bot_ok i (ticked i done) (served i done) p b →
        bot_ok i (ticked i done) (served i (done ++ [e])) (presence_step (Z.of_nat i) p ev) b') →
  bots_inv (done ++ [e]) c'.
Proof.
  intros (pres & Ht & Hp & Hall) Hb Hbots Hsrv Hown Hev Htick Hserve Hok.
  assert (i < length (sys_bots c))%nat as Hlt by (by eapply lookup_lt_Some).
  exists (λ k, presence_step k (pres k) ev). rewrite Hbots, Hsrv. split; [|split].
  - by apply (tracks_step botName botName_ne botName_inj).
  - intros k Hk. rewrite length_insert. destruct (decide (k = Z.of_nat i)) as [->|Hne]; [by exists i|].
    rewrite (presence_other k (Z.of_nat i)) in Hk by done. by apply Hp.
  - intros j bj Hj. destruct (decide (j = i)) as [->|Hne].
    + rewrite list_lookup_insert_eq in Hj by done. injection Hj as <-.
      rewrite ticked_snoc, Htick, Nat.add_0_r. apply Hok; [|by apply Hall].
      destruct Ht as (Hc & _). by rewrite Hc.
    + rewrite list_lookup_insert_ne in Hj by done. rewrite (presence_other _ (Z.of_nat i)) by (done || lia).
      apply bot_ok_keep; [done|by apply Hserve|by apply Hall].
Qed.

(** A step of the bots only. *)
Lemma bots_inv_bot done e c i b b' :
  sys_bots c !! i = Some b → e ≠ LServe i → (∀ j, j ≠ i → is_tick j e = false ∧ e ≠ LServe j) →
  (∀ p, bot_ok i (ticked i done) (served i done) p b →
        bot_ok i (ticked i (done ++ [e])) (served i done) p b') →
  bots_inv done c → bots_inv (done ++ [e]) (with_bot i b' c).
Proof.
  intros Hb Hi He Hok (pres & Ht & Hp & Hall). exists pres. split; [done|]. split.
  - intros k Hk. destruct (Hp k Hk) as (j & -> & Hj). exists j. split; [done|].
    cbn [with_bot sys_bots]. by rewrite length_insert.
  - intros j bj Hj. cbn [with_bot sys_bots] in Hj.
    destruct (decide (j = i)) as [->|Hne].
    + rewrite list_lookup_insert_eq in Hj by (by eapply lookup_lt_Some). simplify_eq.
      rewrite served_snoc, decide_False, Nat.add_0_r by done. by apply Hok, Hall.
    + rewrite list_lookup_insert_ne in Hj by done.
      destruct (He j Hne). apply bot_ok_keep; [done|done|by apply Hall].
Qed.

Lemma bots_inv_same done e c c' :
  (∀ i, is_tick i e = false ∧ e ≠ LServe i) → sys_bots c' = sys_bots c → sys_server c' = sys_server c →
  bots_inv done c → bots_inv (done ++ [e]) c'.
Proof.
  intros He Hb Hs (pres & Ht & Hp & Hall). exists pres. rewrite Hs, Hb. split; [done|]. split; [done|].
  intros i b Hi. destruct (He i). apply bot_ok_keep; [done|done|by apply Hall].
Qed.

Lemma bot_tick_total i f b : ∃ b', bot_tick cfg i f b = Ok b'.
Proof.
  unfold bot_tick. destruct (Hscen (uint64_wrap (b_step b + 1)) (b_rng b)) as (x & y & E).
  destruct (cfg_scen cfg _ _) as [r g]. simpl in E. subst r.
  pose proof (Marshal_no_panic (bot_message i x y)) as Hm.
  destruct (proto_Marshal _); [destruct f; eauto|eauto|done].
Qed.

Lemma bots_dial_inv done c i f c' :
  bots_fire cfg (LDial i f) c = Some c' → bots_inv done c → bots_inv (done ++ [LDial i f]) c'.
Proof.
  intros Hfire Hinv. unfold bots_fire in Hfire.
  destruct (sys_crash c); [done|]. destruct (sys_bots c !! i) as [b|] eqn:Hb; [|done].
  cbn [mbind option_bind] in Hfire. destruct (b_pc b) eqn:Hpc; [|done..]. destruct f as [er|].
  - injection Hfire as <-. apply (bots_inv_bot _ _ _ _ b); [done|done|done| |done].
    intros p. rewrite ticked_snoc, Nat.add_0_r. apply bot_ok_exit.
  - assert (∀ c1, sys_bots c1 = <[i := at_bot_pc b Running]> (sys_bots c) →
      sys_server c1 = ws_step (sys_server c) (Accepted (Z.of_nat i)) →
      bots_inv (done ++ [LDial i None]) c1) as Hgo.
    { intros c1 H1 H2. apply (bots_inv_server done _ _ c c1 i b _ Hinv Hb H1 H2); [done..|].
      intros p _ Hok. pose proof Hok as (_ & _ & Hl & _ & _ & Hd & _). destruct (Hd Hpc) as [-> Ht].
      simpl. rewrite decide_True, served_snoc, decide_False, Nat.add_0_r by done.
      assert (served i done = 0%nat) as Hs by lia. rewrite Ht, Hs in *. by apply (bot_ok_dialled i Away). }
    destruct (NewTicker (cfg_tick cfg)); injection Hfire as <-; by apply Hgo.
Qed.

Lemma bots_server_inv done c e c' :
  (∃ i, e = LServe i ∨ e = LLost i) →
  bots_fire cfg e c = Some c' → bots_inv done c → bots_inv (done ++ [e]) c'.
Proof.
  intros [i He] Hfire Hinv. pose proof Hinv as (pres & Ht & Hp & Hall). pose proof Ht as (Hc & _).
  assert (is_Some (conns (sys_server c) !! Z.of_nat i) → ∃ b, sys_bots c !! i = Some b) as Hbot.
  { rewrite Hc. intros Hs. destruct (Hp (Z.of_nat i)) as (j & Hj & Hlt); [|].
    { intros E. rewrite E in Hs. by destruct Hs. }
    replace i with j by lia. by apply lookup_lt_is_Some_2 in Hlt. }
  destruct He as [-> | ->]; unfold bots_fire in Hfire.
  - destruct (sys_bots c !! i) as [b|] eqn:Hb; [|by destruct (sys_crash c)].
    assert (∃ q data wire, conns (sys_server c) !! Z.of_nat i = Some q ∧ b_wire b = data :: wire ∧
      c' = at_server (Received (Z.of_nat i) (received data))
        (with_bot i {| b_pc := b_pc b; b_step := b_step b; b_rng := b_rng b; b_wire := wire |} c))
      as (q & data & wire & Hq & Hw & ->).
    { cbn [mbind option_bind] in Hfire.
      destruct (sys_crash c), (conns (sys_server c) !! Z.of_nat i), (b_wire b); try done;
        injection Hfire as <-; eauto 10. }
    assert (pres (Z.of_nat i) ≠ Away) as Hne by (intros E; rewrite Hc, E in Hq; done).
    destruct (bot_ok_serve i _ _ _ b data wire Hw Hne (Hall i b Hb)) as (m & Hm & Hid & _).
    eapply (bots_inv_server done _ (Received (Z.of_nat i) (received data)) c _ i b _ Hinv Hb); [done|done| |done|done| |].
    + by rewrite Hm.
    + intros j Hj [= ->]. done.
    + intros p Hcp Hok. rewrite served_snoc, decide_True, Nat.add_1_r by done.
      assert (p ≠ Away) as Hpne by (intros ->; rewrite Hcp in Hq; done).
      destruct (bot_ok_serve i _ _ p b data wire Hw Hpne Hok) as (m' & Hm' & _ & Hok').
      rewrite Hm' in Hm. injection Hm as <-. rewrite Hm'. simpl. rewrite decide_True by done.
      by destruct p.
  - destruct (conns (sys_server c) !! Z.of_nat i) as [q|] eqn:Hq; [|by destruct (sys_crash c)].
    destruct Hbot as [b Hb]; [done|].
    assert (c' = at_server (Ended (Z.of_nat i)) c) as -> by (destruct (sys_crash c); by injection Hfire as <-).
    eapply (bots_inv_server done _ (Ended (Z.of_nat i)) c _ i b b Hinv Hb); [|done|done|done|done|done|].
    + symmetry. by apply list_insert_id.
    + intros p _ Hok. rewrite served_snoc, decide_False, Nat.add_0_r by done. simpl.
      rewrite decide_True by done. by eapply bot_ok_lost.
Qed.

Lemma bots_step_inv done e c c' :
  bots_fire cfg e c = Some c' → bots_inv done c → bots_inv (done ++ [e]) c'.
Proof.
  intros Hfire Hinv. destruct e as [i f|i f|i| |i|i].
  - by eapply bots_dial_inv.
  - unfold bots_fire in Hfire. destruct (sys_crash c); [done|].
    destruct (sys_bots c !! i) as [b|] eqn:Hb; [|done].
    cbn [mbind option_bind] in Hfire. destruct (b_pc b) eqn:Hpc; [done| |done].
    destruct (bot_tick_total i f b) as [b' Hb']. rewrite Hb' in Hfire. injection Hfire as <-.
    apply (bots_inv_bot _ _ _ _ b); [done|done| | |done].
    + intros j Hj. split; [|done]. simpl. by rewrite bool_decide_eq_false_2.
    + intros p Hok. rewrite ticked_snoc. simpl. rewrite bool_decide_eq_true_2, Nat.add_1_r by done.
      by eapply bot_ok_tick.
  - unfold bots_fire in Hfire. destruct (sys_crash c); [done|].
    destruct (sys_bots c !! i) as [b|] eqn:Hb; [|done].
    cbn [mbind option_bind] in Hfire. destruct (b_pc b), (sys_cancelled c); try done.
    injection Hfire as <-. apply (bots_inv_bot _ _ _ _ b); [done|done|done| |done].
    intros p. rewrite ticked_snoc, Nat.add_0_r. apply bot_ok_exit.
  - unfold bots_fire in Hfire. destruct (sys_crash c); [done|].
    injection Hfire as <-. by apply (bots_inv_same done LCancel c).
  - eapply bots_server_inv; eauto.
  - eapply bots_server_inv; eauto.
Qed.

Lemma bots_run_inv done es c c' :
  bots_run cfg es c = Some c' → bots_inv done c → bots_inv (done ++ es) c'.
Proof.
  revert done c. induction es as [|e es IH]; intros done c; simpl.
  { intros [= <-]. by rewrite app_nil_r. }
  destruct (bots_fire cfg e c) as [c1|] eqn:E; [|done]. intros Hrun Hinv.
  rewrite (assoc app done [e] es). eapply IH; [exact Hrun|]. by eapply bots_step_inv.
Qed.
End room.

Section load.
Context {G Data : Type} `{!Rand G, !RandLaws G, !Proto Data, !ProtoLaws Data}.
Implicit Types (cfg : bots_cfg G) (c : bots_sys G Data).

Lemma bots_fire_length cfg e c c' :
  bots_fire cfg e c = Some c' → length (sys_bots c') = length (sys_bots c).
Proof.
  unfold bots_fire. destruct e as [i f|i f|i| |i|i], (sys_crash c); try done;
    try destruct (sys_bots c !! i) as [b|]; cbn [mbind option_bind]; try done;
    repeat case_match; intros [= <-]; cbn [with_bot at_server crashed sys_bots]; by rewrite ?length_insert.
Qed.

Lemma bots_run_length cfg es c c' :
  bots_run cfg es c = Some c' → length (sys_bots c') = length (sys_bots c).
Proof.
  revert c. induction es as [|e es IH]; intros c; simpl; [by intros [= <-]|].
  destruct (bots_fire cfg e c) as [c1|] eqn:E; [|done]. intros Hrun.
  rewrite (IH _ Hrun). by eapply bots_fire_length.
Qed.

(** The generator of a bot. *)
Definition bot_rng (seed now : Z) (i : nat) : G :=
  NewPCG (uint64_wrap (if seed =? 0 then now else seed)) (uint64_wrap (Z.of_nat i [+] 1)).

Lemma bots_start_inv Quote addr n tickMs name seed now cfg c :
  bots_start (Data:=Data) Quote addr n tickMs name seed now = Ok (cfg, c) →
  1 <= n ∧ cfg_tick cfg = int64_wrap (tickMs * 1000000) ∧ parseScenario Quote name = Ok (cfg_scen cfg) ∧
  length (sys_bots c) = Z.to_nat n ∧ bots_inv cfg (bot_rng seed now) [] c.
Proof.
  unfold bots_start. destruct (Z.ltb_spec n 1); [done|].
  destruct (parseScenario Quote name) as [scen|e|w] eqn:Hs; [|done..]. intros [= <- <-].
  split_and!; [done|done|done|by cbn; rewrite length_fmap, length_seqZ|].
  exists (λ _, Away). split; [|split].
  - split_and!; [done|done|]. intros p. simpl. rewrite lookup_empty. by intros [? ?].
  - done.
  - intros i b Hb. cbn [sys_bots] in Hb. rewrite list_lookup_fmap in Hb.
    destruct (seqZ 0 n !! i) as [z|] eqn:Hz; [|done]. injection Hb as <-.
    apply lookup_seqZ in Hz as [-> _]. rewrite Z.add_0_l. by split_and!.
Qed.

Lemma parse_total Quote name scen :
  parseScenario Quote name = Ok scen → ∀ tick g, ∃ x y, (scen tick g).1 = Ok (x, y) ∧
    ∃ b, (name, b) ∈ scenario_bounds ∧ in_box b x = true ∧ in_box b y = true.
Proof.
  unfold parseScenario, scenario_bounds.
  repeat case_bool_decide; intros [= <-] tick g; subst.
  - destruct (scaled_scenario 1000 500 g) as (x & y & E & Hx & Hy); [lia..|].
    exists x, y. split; [done|]. exists 500. by split; [left|].
  - destruct (scaled_scenario 40 20 g) as (x & y & E & Hx & Hy); [lia..|].
    exists x, y. split; [done|]. exists 20. by split; [right; left|].
  - destruct (clusterScenario_spec tick g) as (x & y & E & Hn). destruct (near_center_in_box x y Hn).
    exists x, y. split; [done|]. exists 330. by split; [right; right; left|].
Qed.

(** At most as many players as names. *)
Lemma room_size_bound (r : Room float64) (n : Z) :
  (∀ p, is_Some (members r !! p) → ∃ i, 0 <= i < n ∧ p = botName i) → 0 <= n → Room_Size r <= n.
Proof.
  intros Hr Hn. unfold Room_Size. rewrite <- size_dom.
  assert (dom (members r) ⊆ (list_to_set (botName <$> seqZ 0 n) : gset string)) as Hsub.
  { intros p Hp%elem_of_dom. destruct (Hr p Hp) as (i & Hi & ->).
    apply elem_of_list_to_set, list_elem_of_fmap. exists i. split; [done|]. by apply elem_of_seqZ. }
  apply subseteq_size in Hsub.
  rewrite size_list_to_set in Hsub.
  - rewrite length_fmap, length_seqZ in Hsub. lia.
  - apply NoDup_fmap_2; [exact botName_inj|apply NoDup_seqZ].
Qed.

(** C35. What the load shows in the room. For any number of bots, whatever order
    dials, ticks, reads of the server, failures, the signal and the ends of
    connections come in: the room holds only players of the bots, at most one each,
    and only while their connection is open; each at the position of its [k]th
    tick, where [k] is the number of frames the server has read from it (none is
    lost, doubled or overtaken), within the bounds of the scenario; and when all
    connections have ended, the room is empty. *)
Theorem bots_room (Quote : string → string) (addr : string) (n tickMs : Z) (name : string) (seed now : Z)
    cfg c0 (es : list bots_label) c
    (Hstart : bots_start Quote addr n tickMs name seed now = Ok (cfg, c0))
    (Hrun : bots_run cfg es c0 = Some c) :
  let r := room_of (sys_server c) in
  (∀ p mb, members r !! p = Some mb → ∃ i : nat,
     Z.of_nat i < n ∧ p = botName (Z.of_nat i) ∧ Member_PlayerID mb = p ∧
     conns (sys_server c) !! Z.of_nat i = Some p ∧
     (1 <= served i es <= ticked i es)%nat ∧
     position (cfg_scen cfg) (served i es) (bot_rng seed now i) = Ok (X mb, Y mb) ∧
     ∃ b, (name, b) ∈ scenario_bounds ∧ in_box b (X mb) = true ∧ in_box b (Y mb) = true) ∧
  Room_Size r <= n ∧
  (conns (sys_server c) = ∅ → members r = ∅).
Proof.
  destruct (bots_start_inv _ _ _ _ _ _ _ _ _ Hstart) as (Hn & _ & Hparse & Hlen & Hinv0).
  pose proof (parse_total _ _ _ Hparse) as Htotal.
  assert (bots_inv cfg (bot_rng seed now) es c) as (pres & (Hc & Hm & Hr) & Hp & Hall).
  { apply (bots_run_inv cfg (bot_rng seed now)) with (done := []) (c := c0); [|done|done].
    intros tick g. destruct (Htotal tick g) as (x & y & E & _). by exists x, y. }
  rewrite <- (bots_run_length _ _ _ _ Hrun) in Hlen.
  assert (∀ p mb, members (room_of (sys_server c)) !! p = Some mb → ∃ i x y,
    Z.of_nat i < n ∧ p = botName (Z.of_nat i) ∧ pres (Z.of_nat i) = At x y ∧
    mb = {| Member_PlayerID := p; X := x; Y := y |}) as Hshow.
  { intros p mb Hpm. destruct (Hr p) as [k <-]; [by eexists|]. rewrite Hm in Hpm.
    destruct (pres k) as [| |x y] eqn:Hk; [done|done|]. injection Hpm as <-.
    destruct (Hp k) as (i & -> & Hi); [by rewrite Hk|]. exists i, x, y. split_and!; [lia|done..]. }
  cbv zeta. split; [|split].
  - intros p mb Hpm. destruct (Hshow p mb Hpm) as (i & x & y & Hi & -> & Hpres & ->). exists i.
    destruct (lookup_lt_is_Some_2 (sys_bots c) i) as [b Hb]; [lia|].
    pose proof (Hall i b Hb) as (_ & _ & Hl & _ & _ & _ & Hat). rewrite Hpres in Hat.
    destruct Hat as [H1 Hpos]. cbn [X Y Member_PlayerID].
    destruct (Htotal (uint64_wrap (Z.of_nat (served i es)))
      (rng_after (cfg_scen cfg) (served i es - 1) (bot_rng seed now i))) as (x' & y' & E & Hbox).
    unfold position in Hpos. rewrite E in Hpos. injection Hpos as -> ->.
    split_and!; [done|done|done|by rewrite Hc, Hpres|lia|lia|exact E|exact Hbox].
  - apply room_size_bound; [|lia]. intros p [mb Hpm].
    destruct (Hshow p mb Hpm) as (i & x & y & Hi & -> & _). exists (Z.of_nat i). split; [lia|done].
  - intros Hempty. apply map_empty. intros p. apply eq_None_not_Some. intros [mb Hpm].
    destruct (Hshow p mb Hpm) as (i & x & y & _ & -> & Hpres & _).
    specialize (Hc (Z.of_nat i)). by rewrite Hempty, Hpres in Hc.
Qed.

(** ** Crashes and the end of the program *)

(** Only a tick that is not positive (also one that wrapped around) crashes the
    program. *)
Lemma bots_step_crash cfg e c c' :
  (∀ tick g, ∃ x y, (cfg_scen cfg tick g).1 = Ok (x, y)) → 0 < cfg_tick cfg →
  bots_fire cfg e c = Some c' → sys_crash c = None → sys_crash c' = None.
Proof.
  intros Hscen Htick. unfold bots_fire, NewTicker. rewrite (proj2 (Z.leb_gt (cfg_tick cfg) 0)) by done.
  intros Hfire Hc. rewrite Hc in Hfire. destruct e as [i f|i f|i| |i|i];
    try destruct (sys_bots c !! i) as [b|]; cbn [mbind option_bind] in Hfire; try done;
    try (destruct (bot_tick_total cfg Hscen i f b) as [b' Hb]; rewrite Hb in Hfire);
    repeat case_match; simplify_eq/=; done.
Qed.

Lemma bots_never_crash Quote addr n tickMs name seed now cfg c0 es c :
  bots_start Quote addr n tickMs name seed now = Ok (cfg, c0) → 0 < int64_wrap (tickMs * 1000000) →
  bots_run cfg es c0 = Some c → sys_crash c = None.
Proof.
  intros Hstart Htick Hrun. pose proof Hstart as H.
  apply bots_start_inv in H as (_ & Ht & Hparse & _). rewrite <- Ht in Htick.
  assert (∀ tick g, ∃ x y, (cfg_scen cfg tick g).1 = Ok (x, y)) as Hscen.
  { intros tick g. destruct (parse_total _ _ _ Hparse tick g) as (x & y & E & _). by exists x, y. }
  assert (sys_crash c0 = None) as Hc0.
  { unfold bots_start in Hstart. repeat case_match; by simplify_eq/=. }
  clear Hstart. revert c0 Hc0 Hrun. induction es as [|e es IH]; intros c0 Hc0; simpl; [by intros [= <-]|].
  destruct (bots_fire cfg e c0) as [c1|] eqn:E; [|done]. apply IH. by eapply bots_step_crash.
Qed.

(** [wg.Wait] returns: every goroutine has. *)
Definition exited (b : bot G Data) : bool := if b_pc b is Exited _ then true else false.
Definition all_exited c : bool := forallb exited (sys_bots c).

Lemma bots_run_app cfg es es' c :
  bots_run cfg (es ++ es') c = (c' ← bots_run cfg es c; bots_run cfg es' c').
Proof.
  revert c. induction es as [|e es IH]; intros c; [done|]. simpl.
  destruct (bots_fire cfg e c) as [c1|]; [apply IH|done].
Qed.

(** After the signal a bot can return at once, by a dial that fails or by the branch of
    the ended context. *)
Lemma bot_leaves cfg c i b :
  sys_crash c = None → sys_cancelled c = true → sys_bots c !! i = Some b → exited b = false →
  ∃ e b', bots_fire cfg e c = Some (with_bot i b' c) ∧ exited b' = true.
Proof.
  intros Hcr Hca Hb Hex. unfold exited in Hex. destruct (b_pc b) eqn:Hpc; [| |done].
  - exists (LDial i (Some (ErrorsNew "context.Canceled" "context canceled"))). eexists.
    unfold bots_fire. rewrite Hcr, Hb. cbn [mbind option_bind]. rewrite Hpc. by split.
  - exists (LDone i). eexists. unfold bots_fire. rewrite Hcr, Hb. cbn [mbind option_bind].
    rewrite Hpc, Hca. by split.
Qed.

(** So [run] can always return after the signal. *)
Lemma bots_return cfg c :
  sys_crash c = None → sys_cancelled c = true →
  ∃ es c', bots_run cfg es c = Some c' ∧ all_exited c' = true ∧ (length es <= length (sys_bots c))%nat.
Proof.
  intros Hcr Hca.
  assert (∀ k, (k <= length (sys_bots c))%nat → ∃ es c', bots_run cfg es c = Some c' ∧
    sys_crash c' = None ∧ sys_cancelled c' = true ∧ (length es <= k)%nat ∧
    ∀ i b, (i < k)%nat → sys_bots c' !! i = Some b → exited b = true) as Hk.
  { induction k as [|k IH]; intros Hlen.
    - exists [], c. split_and!; [done|done|done|done|]. intros i b Hi. lia.
    - destruct IH as (es & c' & Hrun & Hcr' & Hca' & Hl & Hall); [lia|].
      destruct (lookup_lt_is_Some_2 (sys_bots c') k) as [b Hb].
      { rewrite (bots_run_length _ _ _ _ Hrun). lia. }
      destruct (exited b) eqn:Hex.
      + exists es, c'. split_and!; [done|done|done|lia|]. intros i bi Hi Hbi.
        destruct (decide (i = k)) as [->|]; [by simplify_eq|]. apply (Hall i); [lia|done].
      + destruct (bot_leaves cfg c' k b Hcr' Hca' Hb Hex) as (e & b' & Hfire & Hb').
        exists (es ++ [e]), (with_bot k b' c'). rewrite bots_run_app, Hrun. cbn [mbind option_bind bots_run].
        rewrite Hfire, length_app. simpl. split_and!; [done|done|done|lia|].
        intros i bi Hi Hbi. destruct (decide (i = k)) as [->|].
        * rewrite list_lookup_insert_eq in Hbi by (by eapply lookup_lt_Some). by simplify_eq.
        * rewrite list_lookup_insert_ne in Hbi by done. apply (Hall i); [lia|done]. }
  destruct (Hk (length (sys_bots c)) ltac:(lia)) as (es & c' & Hrun & _ & _ & Hl & Hall).
  exists es, c'. split_and!; [done| |done]. apply List.forallb_forall.
  intros b Hb%list_elem_of_In%list_elem_of_lookup. destruct Hb as [i Hb].
  apply (Hall i); [|done]. rewrite <- (bots_run_length _ _ _ _ Hrun). by eapply lookup_lt_Some.
Qed.
End load.

(** ** A generator, a codec and runs *)

(** [rand.PCG]: the permuted congruential generator with 128 bits of state of
    [math/rand/v2]. *)
Record PCG := { pcg_hi : Z; pcg_lo : Z }.

Definition pcg_next (p : PCG) : PCG :=
  let state := (pcg_hi p * 2 ^ 64 + pcg_lo p) * (2549297995355413924 * 2 ^ 64 + 4865540595714422341)
               + (6364136223846793005 * 2 ^ 64 + 1442695040888963407) in
  {| pcg_hi := uint64_wrap (Z.shiftr state 64); pcg_lo := uint64_wrap state |}.

Definition pcg_Uint64 (p : PCG) : Z * PCG :=
  let p' := pcg_next p in
  let hi := Z.lxor (pcg_hi p') (Z.shiftr (pcg_hi p') 32) in
  let hi := uint64_wrap (hi * 0xda942042e4dd58b5) in
  let hi := Z.lxor hi (Z.shiftr hi 48) in
  (uint64_wrap (hi * Z.lor (pcg_lo p') 1), p').

(** The vectors of the library's own tests. *)
Example pcg_vectors :
  let '(a, p) := pcg_Uint64 {| pcg_hi := 1; pcg_lo := 2 |} in
  (a, (pcg_Uint64 p).1) = (0xc4f5a58656eef510, 0x9dcec3ad077dec6c).
Proof. vm_compute. reflexivity. Qed.

(** [float64(u<<11>>11) / (1<<53)], and the high half of [u*n]; the retry of
    [IntN], less than one draw in [2^60], is left out. *)
#[export] Instance pcg_Rand : Rand PCG := {|
  NewPCG s1 s2 := {| pcg_hi := s1; pcg_lo := s2 |};
  Float64 p := let '(u, p') := pcg_Uint64 p in
               (binary_normalize 53 1024 (u `mod` 2 ^ 53) (-53) false, p');
  rand_IntN n p := let '(u, p') := pcg_Uint64 p in (Z.shiftr (u * n) 64, p') |}.

Lemma fraction_range z :
  0 <= z < 2 ^ 53 →
  let x := binary_normalize 53 1024 z (-53) false in
  valid_binary 53 1024 x = true ∧ f_le f_zero x = true ∧ f_lt x (f_of_Z 1) = true.
Proof.
  intros Hz. destruct z as [|p|p]; [done| |lia]. cbn [binary_normalize].
  pose proof (bits_pos p) as Hb. assert (bits p <= 53) as Hb53 by (apply bits_exact; lia).
  assert (∃ c, binary_round 53 1024 false p (-53) = S754_finite false c (bits p - 106) ∧ bits c = 53) as (c & -> & Hc).
  { unfold binary_round. fold (bits p). rewrite fexp_eq.
    replace (Z.max (bits p + -53 - 53) (-1074)) with (bits p - 106) by lia.
    destruct (shl_align_exact p (-53) (bits p - 106)) as [-> Hv]; [lia|]. set (c := fst _) in *.
    assert (bits c = 53) as Hc by (rewrite (bits_mul_pow2 p c (-53 - (bits p - 106))); [lia|lia|done]).
    exists c. split; [|done]. unfold binary_round_aux. rewrite shr_fexp_small by lia.
    cbn [shr_m loc_of_shr_record round_nearest_even]. rewrite shr_fexp_small by lia. cbn [shr_m].
    by rewrite (proj2 (Z.leb_le _ _)) by lia. }
  split_and!; [|done|].
  - cbn [valid_binary bounded canonical_mantissa]. unfold bounded, canonical_mantissa. fold (bits c).
    rewrite Hc, fexp_eq. rewrite (proj2 (Z.leb_le _ _)) by lia. rewrite (proj2 (Z.eqb_eq _ _)); [done|lia].
  - destruct (f_of_Z_shape 1) as (d & _ & -> & _); [lia|]. unfold f_lt, SFltb. cbn [SFcompare].
    change (bits 1) with 1. by rewrite (proj2 (Z.compare_lt_iff _ _)) by lia.
Qed.

Lemma pcg_Uint64_range p : 0 <= (pcg_Uint64 p).1 < 2 ^ 64.
Proof. apply Z.mod_pos_bound. lia. Qed.

#[export] Instance pcg_laws : RandLaws PCG.
Proof.
  assert (∀ p, Float64 p = (binary_normalize 53 1024 ((pcg_Uint64 p).1 `mod` 2 ^ 53) (-53) false, (pcg_Uint64 p).2))
    as Hf by (intros p; cbn [Float64 pcg_Rand]; by destruct (pcg_Uint64 p)).
  assert (∀ z, 0 <= z `mod` 2 ^ 53 < 2 ^ 53) as Hm by (intros z; apply Z.mod_pos_bound; lia).
  split; [intros p|intros p|intros n p Hn].
  - rewrite Hf. apply (fraction_range _ (Hm _)).
  - rewrite Hf. apply (fraction_range _ (Hm _)).
  - cbn [rand_IntN pcg_Rand]. pose proof (pcg_Uint64_range p) as Hu. destruct (pcg_Uint64 p) as [u p'].
    cbn [fst] in *. rewrite Z.shiftr_div_pow2 by lia.
    split; [apply Z.div_pos; nia|]. apply Z.div_lt_upper_bound; nia.
Qed.

Lemma scenarios_in_bounds_witness :
  match parseScenario quoted "cluster" with
  | Ok scen => ∃ b x y, ("cluster", b) ∈ scenario_bounds ∧ (scen 1 {| pcg_hi := 42; pcg_lo := 1 |}).1 = Ok (x, y) ∧
      in_box b x = true ∧ in_box b y = true ∧ ("cluster" = "cluster" → near_center x y)
  | Err _ => "cluster" ∉ scenario_bounds.*1
  | Panic _ => False
  end.
Proof. exact (scenarios_in_bounds quoted "cluster" 1 {| pcg_hi := 42; pcg_lo := 1 |}). Defined.

(** A codec whose bytes are the message. *)
#[export] Instance plain_Proto : Proto ClientMessage := {| proto_Marshal := Ok; proto_Unmarshal := Ok |}.

#[export] Instance plain_ProtoLaws : ProtoLaws ClientMessage.
Proof. split; [by intros m d [= ->]|done]. Qed.

(** Two bots: the first is read twice and loses a third frame, the second leaves
    after the signal. *)
Definition demo_bot_events : list bots_label :=
  [LDial 1 None; LDial 0 None; LTick 0 None; LTick 1 None; LServe 0; LTick 0 None; LTick 0 None;
   LServe 1; LServe 0; LCancel; LDone 1; LLost 1].

Definition demo_bots_start : result (bots_cfg PCG * bots_sys PCG ClientMessage) :=
  bots_start quoted "ws://localhost:5050/ws/room" 2 200 "cluster" 42 0.

Definition demo_bots : option (bots_cfg PCG * bots_sys PCG ClientMessage) :=
  match demo_bots_start with
  | Ok (cfg, c0) => c ← bots_run cfg demo_bot_events c0; Some (cfg, c)
  | _ => None
  end.

Definition demo_summary : option (Z * list (string * Z * Z) * list bot_pc * bool) :=
  '(_, c) ← demo_bots;
  let r := room_of (sys_server c) in
  Some (Room_Size r, (λ '(p, mb), (p, f_trunc (X mb), f_trunc (Y mb))) <$> map_to_list (members r),
        b_pc <$> sys_bots c, all_exited c).

Example demo_bots_summary :
  demo_summary = Some (1, [("p0", -324, 328)], [Running; Exited None], false).
Proof. vm_compute. reflexivity. Qed.

Definition shown_p0 (c : bots_sys PCG ClientMessage) : bool :=
  if members (room_of (sys_server c)) !! "p0" is Some _ then true else false.

Lemma bots_room_witness :
  match demo_bots with
  | Some (cfg, c) =>
      Room_Size (room_of (sys_server c)) <= 2 ∧
      ∃ mb, members (room_of (sys_server c)) !! "p0" = Some mb ∧
        position (cfg_scen cfg) (served 0 demo_bot_events) (bot_rng 42 0 0) = Ok (X mb, Y mb)
  | None => False
  end.
Proof.
  assert (Hshown : (match demo_bots with Some (_, c) => shown_p0 c | None => false end) = true)
    by (vm_compute; reflexivity).
  unfold demo_bots in *. destruct demo_bots_start as [[cfg c0]|e|w] eqn:Hstart; [|discriminate Hshown..].
  destruct (bots_run cfg demo_bot_events c0) as [c|] eqn:Hrun; [|discriminate Hshown].
  cbn [mbind option_bind] in *.
  destruct (bots_room quoted "ws://localhost:5050/ws/room" 2 200 "cluster" 42 0 cfg c0 demo_bot_events c
    Hstart Hrun) as (Hroom & Hsize & _).
  split; [exact Hsize|]. unfold shown_p0 in Hshown.
  destruct (members (room_of (sys_server c)) !! "p0") as [mb|] eqn:Hp; [|discriminate Hshown].
  exists mb. split; [reflexivity|].
  destruct (Hroom "p0" mb Hp) as (i & Hi & Hname & _ & _ & _ & Hpos & _).
  assert (Z.of_nat i = 0) as Hi0 by (apply botName_inj; rewrite <- Hname; reflexivity).
  replace i with 0%nat in Hpos by lia. exact Hpos.
Defined.

(** The tick is not checked: with zero, and with an interval that wraps around, the
    first connection crashes the program. *)
Definition crash_of (tickMs : Z) : option string :=
  match bots_start quoted "ws://localhost:5050/ws/room" 1 tickMs "even" 42 0 with
  | Ok (cfg, c0) => (c ← bots_run (Data:=ClientMessage) (G:=PCG) cfg [LDial 0 None] c0; sys_crash c)
  | _ => None
  end.

Example tick_crashes :
  (crash_of 0, crash_of (2 ^ 63 / 1000000 + 1), crash_of 200) =
  (Some "non-positive interval for NewTicker", Some "non-positive interval for NewTicker", None).
Proof. vm_compute. reflexivity. Qed.
