(* ===== verification/Observe.v ===== *)
(** * Access log and metrics

    Models [internal/endpoint/middleware.go] ([RequestLogger], [RequestMetrics])
    and the gauges of [internal/endpoint/prometheus.go]. The writer that counts
    ([NewWrapResponseWriter]), the request identifiers, the route patterns and the
    recovery from panics are chi's: an interface. What is handed to the logger
    and to the histogram is kept as lists. *)

From S2P Require Import GoLang Float Strconv Auth Http Config Room Lifecycle.
#[local] Open Scope Z_scope.

(** The panic that [net/http] asks to let through. *)
Definition http_ErrAbortHandler : string := "net/http: abort Handler".

(** The status and the number of bytes are those after a handler's commands. *)
Class ChiMiddleware := {
  GetReqID : Request → string;
  RoutePattern : Request → string;
  ww_Status : list wcmd → Z;
  ww_BytesWritten : list wcmd → Z;
  Recoverer : ∀ {S : Type}, Handler S → Handler S }.

(** The status that was sent, if any. *)
Definition sent_status (cmds : list wcmd) : option Z := fst <$> w_sent (foldl w_step w_init cmds).

(** The status after a panic: "500 if possible", which is when nothing was sent before, and
    which is not tried on a connection that changes its protocol. *)
Definition recovered_status (r : Request) (cmds : list wcmd) : option Z :=
  if bool_decide (Header_Get r "Connection" = "Upgrade") then sent_status cmds
  else Some (default 500 (sent_status cmds)).

(** The documentation: "Status returns the HTTP status of the request, or 0 if one has
    not yet been sent"; the recoverer "recovers from panics and returns a 500 if
    possible", and lets the panic that aborts a request pass. *)
Class ChiLaws `{!ChiMiddleware} := {
  Status_sent : ∀ cmds, ww_Status cmds = default 0 (sent_status cmds);
  Recoverer_quiet : ∀ S (h : Handler S) r s, (h r s).1.2 = None → Recoverer h r s = h r s;
  Recoverer_panic : ∀ S (h : Handler S) r s p, (h r s).1.2 = Some p → p ≠ http_ErrAbortHandler →
    (Recoverer h r s).1.2 = None ∧ (Recoverer h r s).2 = (h r s).2 ∧
    sent_status (Recoverer h r s).1.1 = recovered_status r (h r s).1.1;
  Recoverer_abort : ∀ S (h : Handler S) r s, (h r s).1.2 = Some http_ErrAbortHandler →
    Recoverer h r s = h r s }.

(** ** The middlewares *)

(** A line of the access log: the attributes of its logger and its own; and a
    duration under its labels. *)
Record log_line := {
  ll_attrs : list (string * string);
  ll_status : Z; ll_bytes : Z; ll_duration_ms : Z }.

Record observation := {
  ob_method : string; ob_path : string; ob_status : string; ob_seconds : float64 }.

Section middlewares.
Context {S : Type} `{!ChiMiddleware}.

(** [context.WithValue(r.Context(), loggerCtxKey{}, l)]. *)
Definition with_logger (r : Request) (l : Logger) : Request :=
  {| Method := Method r; URL_Path := URL_Path r; URLParams := URLParams r; Query := Query r;
     ReqHeader := ReqHeader r; RemoteAddr := RemoteAddr r; ReqBody := ReqBody r;
     ctx_claims := ctx_claims r; ctx_logger := Some l |}.

(** [LoggerFrom], with [slog.Default()] when the context holds none. *)
Definition LoggerFrom (Default : Logger) (r : Request) : Logger := default Default (ctx_logger r).

(** The logger of a request. *)
Definition request_logger (base : Logger) (r : Request) : Logger :=
  Logger_With base [("request_id", GetReqID r); ("method", Method r); ("path", URL_Path r)].

(** The line is handed to the logger by a deferred function, also when the handler panics.
    [start] and [stop] are its readings of the clock. *)
Definition RequestLogger (base : Logger) (start stop : time) (next : Handler S)
    : Handler (list log_line * S) := λ r '(logs, s),
  let l := request_logger base r in
  let '(cmds, why, s') := next (with_logger r l) s in
  let line := {|
    ll_attrs := lg_attrs l;
    ll_status := ww_Status cmds; ll_bytes := ww_BytesWritten cmds;
    ll_duration_ms := Z.quot (stop - start) 1000000 |} in
  (cmds, why, (logs ++ written l LevelInfo [line], s')).

(** Nothing is observed when the handler panics. *)
Definition RequestMetrics (start stop : time) (next : Handler S) : Handler (list observation * S) := λ r '(obs, s),
  let '(cmds, why, s') := next r s in
  match why with
  | Some p => (cmds, Some p, (obs, s'))
  | None =>
      let pattern := RoutePattern r in
      let pattern := if bool_decide (pattern = "") then "(unknown)" else pattern in
      let o := {| ob_method := Method r; ob_path := pattern; ob_status := Itoa (ww_Status cmds);
                  ob_seconds := Duration_Seconds (stop - start) |} in
      (cmds, None, (obs ++ [o], s'))
  end.

End middlewares.

(** The order of [cmd/server/main.go]: logger, metrics, recoverer. *)
Definition observed {S} `{!ChiMiddleware} (base : Logger) (t1 t2 t3 t4 : time) (next : Handler S)
    : Handler (list log_line * (list observation * S)) :=
  RequestLogger base t1 t4 (RequestMetrics t2 t3 (Recoverer next)).

(** The logger of [cmd/server/main.go]. *)
Definition parseLogLevel (s : string) : Z :=
  if bool_decide (s = "debug") then LevelDebug
  else if bool_decide (s = "warn") then LevelWarn
  else if bool_decide (s = "error") then LevelError
  else LevelInfo.

Definition server_logger (cfg : Config) : Logger :=
  {| lg_level := parseLogLevel (LogLevel cfg); lg_attrs := [] |}.

Lemma server_logger_writes {A} cfg (lines : list A) :
  written (server_logger cfg) LevelInfo lines =
  if bool_decide (LogLevel cfg ∈ ["warn"; "error"]) then [] else lines.
Proof.
  unfold written, Logger_Enabled, server_logger, parseLogLevel. cbn [lg_level].
  destruct (decide (LogLevel cfg = "warn")) as [->|?]; [done|].
  destruct (decide (LogLevel cfg = "error")) as [->|?]; [done|].
  rewrite (bool_decide_eq_false_2 (_ = "warn")), (bool_decide_eq_false_2 (_ = "error")) by done.
  rewrite (bool_decide_eq_false_2 (_ ∈ _)) by (intros [?|[?|[]%elem_of_nil]%elem_of_cons]%elem_of_cons; done).
  by destruct (bool_decide _).
Qed.

(** ** The gauges *)

(** [stagesync_room_connected_players]. *)
Definition connected_players {F} (rm : Room F) : float64 := f_of_Z (Room_Size rm).

(** [stagesync_optimize_on]. *)
Definition optimize_on (o : Optimize) : float64 := if Optimize_On o then f_of_Z 1 else f_zero.

(** ** Properties *)

Section properties.
Context {S : Type} `{!ChiMiddleware, !ChiLaws} (base : Logger).
Implicit Types (next : Handler S) (r : Request).

(** The request as the handler sees it. *)
Definition logged r : Request := with_logger r (request_logger base r).

(** Requests one after the other, with the clock readings of each. *)
Fixpoint observed_all next (reqs : list (time * time * time * time * Request))
    (w : list log_line * (list observation * S))
    : list (list wcmd * option string) * (list log_line * (list observation * S)) :=
  match reqs with
  | [] => ([], w)
  | (t1, t2, t3, t4, r) :: reqs' =>
      let '(out, w1) := observed base t1 t2 t3 t4 next r w in
      let '(outs, w2) := observed_all next reqs' w1 in (out :: outs, w2)
  end.

(** The handler on its own; what it sends, and where it panics. *)
Fixpoint plain_all next (reqs : list Request) (s : S) : list (list wcmd * option string) * S :=
  match reqs with
  | [] => ([], s)
  | r :: reqs' =>
      let '(out, s1) := next (logged r) s in
      let '(outs, s2) := plain_all next reqs' s1 in (out :: outs, s2)
  end.

(** What the client, the log and the histogram get of one run of the handler. *)
Definition reported r (plain out : list wcmd * option string) (line : log_line) (o : observation) : Prop :=
  out.2 = None ∧ (plain.2 = None → out.1 = plain.1) ∧
  ll_status line = default 0 (if plain.2 is Some _ then recovered_status r plain.1 else sent_status plain.1) ∧
  (∀ status, sent_status out.1 = Some status → RespStatus (render out.1) = ll_status line) ∧
  ob_status o = Itoa (ll_status line) ∧ ll_attrs line = lg_attrs (request_logger base r) ∧
  ctx_logger (logged r) = Some (request_logger base r) ∧ ob_method o = Method r ∧ ob_path o ≠ "".

Lemma observed_step t1 t2 t3 t4 next r logs obs s :
  (next (logged r) s).1.2 ≠ Some http_ErrAbortHandler →
  ∃ line o out, observed base t1 t2 t3 t4 next r (logs, (obs, s)) =
      (out, (logs ++ written base LevelInfo [line], (obs ++ [o], (next (logged r) s).2))) ∧ reported r (next (logged r) s).1 out line o.
Proof.
  intros Hp.
  assert (∃ cmds, Recoverer next (logged r) s = (cmds, None, (next (logged r) s).2) ∧
    ((next (logged r) s).1.2 = None → cmds = (next (logged r) s).1.1) ∧
    default 0 (sent_status cmds) =
      default 0 (if (next (logged r) s).1.2 is Some _ then recovered_status r (next (logged r) s).1.1
                 else sent_status (next (logged r) s).1.1)) as (cmds & E & Hc & Hs).
  { destruct ((next (logged r) s).1.2) as [p|] eqn:Hw.
    - destruct (Recoverer_panic S next (logged r) s p Hw) as (H1 & H2 & H3); [congruence|].
      destruct (Recoverer next (logged r) s) as [[cmds why] s']. simpl in *. subst. exists cmds. by rewrite H3.
    - exists (next (logged r) s).1.1. rewrite (Recoverer_quiet S next (logged r) s Hw).
      by destruct (next (logged r) s) as [[? ?] ?]; simpl in *; subst. }
  unfold observed, RequestLogger, RequestMetrics. fold (logged r). rewrite E.
  do 3 eexists. split; [done|]. unfold reported. cbn [fst snd ll_status ob_status ll_attrs ob_method ob_path].
  rewrite !Status_sent, Hs. split_and!; try done.
  - intros status Hst. rewrite <- Hs, Hst. simpl. unfold render, response_of, sent_status in *.
    destruct (w_sent _) as [[c h]|]; [|done]. by injection Hst as ->.
  - by case_bool_decide.
Qed.

(** Every request is accounted for. Behind the recoverer, whatever the handler does
    (panics other than [http.ErrAbortHandler] included): each request adds exactly
    one line to the access log, if the logger writes lines of its level, and one observation to the histogram, in order;
    both carry its method and the status the client gets, the line with the attributes of the logger the handler finds in its context, 500 for a panic before
    anything was sent (unless the request asks for an upgrade of its connection); the response of a handler that does not panic and the
    handler's state are what they would be without the middlewares. *)
Theorem observed_once (next : Handler S) (reqs : list (time * time * time * time * Request))
    (logs : list log_line) (obs : list observation) (s : S)
    (Habort : ∀ r s, (next r s).1.2 ≠ Some http_ErrAbortHandler) :
  ∃ lines os,
    (observed_all next reqs (logs, (obs, s))).2 = (logs ++ written base LevelInfo lines, (obs ++ os, (plain_all next reqs.*2 s).2)) ∧
    length lines = length reqs ∧ length os = length reqs ∧
    ∀ n r plain out line o, reqs.*2 !! n = Some r → (plain_all next reqs.*2 s).1 !! n = Some plain →
      (observed_all next reqs (logs, (obs, s))).1 !! n = Some out → lines !! n = Some line → os !! n = Some o →
      reported r plain out line o.
Proof.
  revert logs obs s. induction reqs as [|[[[[t1 t2] t3] t4] r] reqs IH]; intros logs obs s.
  { exists [], []. by rewrite written_nil, !app_nil_r. }
  rewrite fmap_cons. cbn [observed_all plain_all snd].
  destruct (observed_step t1 t2 t3 t4 next r logs obs s) as (line & o & out & E & Hrep); [done|]. rewrite E.
  destruct (next (logged r) s) as [plain s1]. cbn [snd fst] in *.
  destruct (IH (logs ++ written base LevelInfo [line]) (obs ++ [o]) s1) as (lines & os & E' & Hl & Ho & Hall).
  destruct (observed_all next reqs _) as [outs w2], (plain_all next reqs.*2 s1) as [plains s2].
  cbn [fst snd] in *. exists (line :: lines), (o :: os).
  split; [by rewrite E', (written_app base LevelInfo [line] lines : written base LevelInfo (line :: lines) = _), <- !app_assoc|]. split; [simpl; lia|]. split; [simpl; lia|].
  intros [|n] r' plain' out' line' o'; cbn [lookup list_lookup]; [by intros; simplify_eq|by apply Hall].
Qed.
End properties.

(** ** A reference, and requests *)

Definition plain_chi : ChiMiddleware := {|
  GetReqID _ := "host/1";
  RoutePattern r := if bool_decide (URL_Path r = "/api/hit") then "/api/{op}" else "";
  ww_Status cmds := default 0 (sent_status cmds);
  ww_BytesWritten cmds := Z.of_nat (length (w_body (foldl w_step w_init cmds)));
  Recoverer S h r s :=
    match h r s with
    | (cmds, Some p, s') =>
        if bool_decide (p = http_ErrAbortHandler) then (cmds, Some p, s')
        else if bool_decide (Header_Get r "Connection" = "Upgrade") then (cmds, None, s')
        else (cmds ++ [WriteHeader 500], None, s')
    | out => out
    end |}.

Definition plain_chi_laws : @ChiLaws plain_chi.
Proof.
  split; [done|..]; cbn; intros S h r s.
  - by destruct (h r s) as [[cmds []] s'].
  - intros p. destruct (h r s) as [[cmds why] s']. cbn. intros -> Hp.
    rewrite (bool_decide_eq_false_2 (p = _)) by done. unfold recovered_status.
    case_bool_decide; split_and!; try done. cbn. unfold sent_status.
    rewrite foldl_app. cbn [foldl w_step]. unfold w_WriteHeader.
    destruct (w_sent (foldl w_step w_init cmds)) as [[c hd]|] eqn:E; [by rewrite E|done].
  - destruct (h r s) as [[cmds why] s']. cbn. intros ->. by rewrite bool_decide_eq_true_2.
Defined.

Definition plain_logger : Logger := {| lg_level := LevelInfo; lg_attrs := [] |}.

(** A handler that panics on every third call, before it answers. *)
Definition shaky : Handler Z := λ _ n,
  if n `mod` 3 =? 2 then ([], Some "index out of range", n + 1)
  else (WriteHeader 201 :: writeJSON (JNum n), None, n + 1).

Definition observe_request (path : string) : Request := {|
  Method := "POST"; URL_Path := path; URLParams := ∅; Query := ∅; ReqHeader := ∅;
  RemoteAddr := "10.0.0.7:5000"; ReqBody := Ok JNull; ctx_claims := None; ctx_logger := None |}.

Definition observe_requests : list (time * time * time * time * Request) :=
  [(0, 1, 2, 3000000, observe_request "/api/hit"); (4, 5, 6, 7, observe_request "/scan");
   (8, 9, 10, 11, observe_request "/api/hit")].

Lemma observed_once_witness :
  let logs := (@observed_all Z plain_chi plain_logger shaky observe_requests ([], ([], 0))).2.1 in
  map ll_status logs = [201; 201; 500] ∧ length logs = 3%nat.
Proof.
  split; [vm_compute; reflexivity|].
  destruct (@observed_once Z plain_chi plain_chi_laws plain_logger shaky observe_requests [] [] 0) as (lines & os & E & Hl & _).
  - intros r s. unfold shaky. by destruct (s `mod` 3 =? 2).
  - transitivity (length lines); [by rewrite E|exact Hl].
Defined.
