(* ===== verification/Prometheus.v ===== *)
(** * The Prometheus endpoint

    Models [internal/endpoint/prometheus.go]: the registry with its collectors and
    the handler of [/metrics]. The client library is an interface ([PromClient]):
    registering, gathering and the text format, with the documented behaviour as
    laws. What the collectors read when they are scraped is the room, the
    optimize flag and the observations [RequestMetrics] has made ([Observe]). *)

From S2P Require Import GoLang Float Strconv Auth Http Endpoint Room Lifecycle Observe.
#[local] Open Scope Z_scope.

(** ** The client library *)

(** What the collectors of this program read. *)
Record scraped (F : Type) := {
  sc_room : Room F;
  sc_optimize : Optimize;
  sc_observations : list observation }.
Arguments sc_room {F} _.
Arguments sc_optimize {F} _.
Arguments sc_observations {F} _.

Inductive Collector (F : Type) :=
  | GoCollector
  | ProcessCollector
  | GaugeFunc (name help : string) (read : scraped F → float64)
  | HistogramVec (name help : string) (buckets : list float64) (labels : list string).
Arguments GoCollector {F}.
Arguments ProcessCollector {F}.
Arguments GaugeFunc {F} _ _ _.
Arguments HistogramVec {F} _ _ _ _.

(** One series of a histogram: how many observations, and how many up to each
    bound. *)
Record series := { se_count : Z; se_buckets : list (float64 * Z) }.

Inductive metric :=
  | Gauge (v : float64)
  | Histogram (series_of : gmap (list string) series).

(** [prometheus.DefBuckets]: 5 ms to 10 s. *)
Definition DefBuckets : list float64 :=
  (λ ms, f_of_ratio false ms 1000) <$> [5; 10; 25; 50; 100; 250; 500; 1000; 2500; 5000; 10000].

(** The values [WithLabelValues] gets, in the order of the labels. *)
Definition label_values (o : observation) : list string := [ob_method o; ob_path o; ob_status o].

Definition count_of (P : observation → Prop) `{∀ o, Decision (P o)} (obs : list observation) : Z :=
  Z.of_nat (count P obs).

(** The series of some label values; one that was never used does not exist. *)
Definition series_for (buckets : list float64) (obs : list observation) (lv : list string) : option series :=
  let n := count_of (λ o, label_values o = lv) obs in
  if n =? 0 then None
  else Some {| se_count := n;
               se_buckets := (λ b, (b, count_of (λ o, label_values o = lv ∧ f_le (ob_seconds o) b = true) obs))
                               <$> buckets |}.

(** [R] is a registry; [go_names] and [process_names] are the metrics of the
    library's own collectors, [exposition] is the text format. *)
Class PromClient (R : Type → Type) := {
  NewRegistry : ∀ {F}, R F;
  Register : ∀ {F}, Collector F → M (R F) unit;
  Gather : ∀ {F}, R F → scraped F → gmap string metric;
  go_names : list string;
  process_names : list string;
  exposition : gmap string metric → list wcmd }.

Section client.
Context {R : Type → Type} `{!PromClient R} {F : Type}.

Definition names (c : Collector F) : list string :=
  match c with
  | GoCollector => go_names
  | ProcessCollector => process_names
  | GaugeFunc name _ _ | HistogramVec name _ _ _ => [name]
  end.

(** [MustRegister]: panics on the first collector that is refused. *)
Fixpoint MustRegister (cs : list (Collector F)) : M (R F) unit :=
  match cs with
  | [] => mret tt
  | c :: cs' => λ r,
      match Register c r with
      | (Ok _, r') => MustRegister cs' r'
      | (Err e, r') => (Panic (error_string e), r')
      | (Panic w, r') => (Panic w, r')
      end
  end.

(** No two collectors share a name. *)
Definition disjoint_names (cs : list (Collector F)) : Prop :=
  ∀ i j c c', (i < j)%nat → cs !! i = Some c → cs !! j = Some c' →
  Forall (λ name, name ∉ names c) (names c').
End client.

(** "Register returns an error if the descriptors provided by the Collector ... do
    not fulfill the consistency and uniqueness criteria"; gathering reads every
    registered collector at that moment. *)
Class PromLaws (R : Type → Type) `{!PromClient R} := {
  registered : ∀ {F}, R F → list (Collector F);
  registered_new : ∀ F, registered (NewRegistry (F:=F)) = [];
  register_ok : ∀ F (c : Collector F) r,
    Forall (λ name, Forall (λ c', name ∉ names c') (registered r)) (names c) →
    ∃ r', Register c r = (Ok tt, r') ∧ registered r' = registered r ++ [c];
  gather_gauge : ∀ F (r : R F) w name help read,
    disjoint_names (registered r) → GaugeFunc name help read ∈ registered r → Gather r w !! name = Some (Gauge (read w));
  gather_histogram : ∀ F (r : R F) w name help buckets labels,
    disjoint_names (registered r) → HistogramVec name help buckets labels ∈ registered r →
    ∃ h, Gather r w !! name = Some (Histogram h) ∧
      ∀ lv, h !! lv = series_for buckets (sc_observations w) lv;
  go_prefix : Forall (λ name, String.prefix "go_" name = true) go_names;
  process_prefix : Forall (λ name, String.prefix "process_" name = true) process_names }.

(** ** The handler *)

Section handler.
Context {R : Type → Type} `{!PromClient R} {F : Type}.

(** The field [handler] is [HandlerFor] of [reg]. *)
Record PrometheusHandler := { ph_reg : R F; ph_httpDurH : Collector F }.

Definition room_gauge : Collector F :=
  GaugeFunc "stagesync_room_connected_players" "Number of players currently connected to the WebSocket room."
    (λ w, connected_players (sc_room w)).

Definition optimize_gauge : Collector F :=
  GaugeFunc "stagesync_optimize_on" "1 when the optimized (pooled) AOI path is active, 0 otherwise."
    (λ w, optimize_on (sc_optimize w)).

Definition duration_histogram : Collector F :=
  HistogramVec "http_request_duration_seconds"
    "HTTP request latency partitioned by method, chi route pattern, and status code."
    DefBuckets ["method"; "path"; "status"].

Definition NewPrometheusHandler : result PrometheusHandler :=
  match (MustRegister [GoCollector; ProcessCollector];;
         MustRegister [room_gauge];;
         MustRegister [optimize_gauge];;
         MustRegister [duration_histogram]) NewRegistry with
  | (Ok _, reg) => Ok {| ph_reg := reg; ph_httpDurH := duration_histogram |}
  | (Err e, _) => Err e
  | (Panic w, _) => Panic w
  end.

(** [h.handler.ServeHTTP]; a scrape changes nothing. *)
Definition PrometheusHandler_ServeHTTP (h : PrometheusHandler) : Handler (scraped F) := λ _ w,
  answer (exposition (Gather (ph_reg h) w)) w.

Definition PrometheusHandler_Mount : list (string * string) := [("GET", "/metrics")].

Definition HTTPDurationHistogram (h : PrometheusHandler) : Collector F := ph_httpDurH h.
End handler.

(** ** Properties *)

Section properties.
Context {R : Type → Type} `{!PromClient R, !PromLaws R} {F : Type}.
Implicit Types (r : R F) (c : Collector F).

Lemma MustRegister_ok cs r :
  disjoint_names (registered r ++ cs) →
  ∃ r', MustRegister cs r = (Ok tt, r') ∧ registered r' = registered r ++ cs.
Proof.
  revert r. induction cs as [|c cs IH]; intros r Hdisj.
  { exists r. by rewrite app_nil_r. }
  destruct (register_ok F c r) as (r' & E & Hr).
  { apply Forall_forall. intros name Hname. apply Forall_lookup. intros i c' Hi.
    assert (Forall (λ name, name ∉ names c') (names c)) as Hd; [|by rewrite Forall_forall in Hd; apply Hd].
    apply (Hdisj i (length (registered r))); [by eapply lookup_lt_Some| |].
    - by apply lookup_app_l_Some.
    - by rewrite lookup_app_r, Nat.sub_diag by lia. }
  destruct (IH r') as (r'' & E' & Hr'').
  { intros i j ci cj Hij. rewrite Hr, <- !app_assoc. by apply Hdisj. }
  exists r''. cbn [MustRegister]. rewrite E. split; [done|]. by rewrite Hr'', Hr, <- app_assoc.
Qed.

(** The collectors in order. *)
Definition all_collectors : list (Collector F) :=
  [GoCollector; ProcessCollector; room_gauge; optimize_gauge; duration_histogram].

Lemma prefix_contradiction p q (name : string) :
  String.prefix p name = true → String.prefix q name = true →
  String.prefix p q = false → String.prefix q p = false → False.
Proof.
  revert q name. induction p as [|a p IH]; intros q name; [by destruct q|].
  destruct name as [|b name]; [done|]. destruct q as [|a' q]; [done|]. simpl.
  repeat destruct (ascii_dec _ _); subst; try done. apply IH.
Qed.

Lemma collectors_disjoint : disjoint_names all_collectors.
Proof.
  intros i j c c' Hij Hi Hj. pose proof go_prefix as Hgo. pose proof process_prefix as Hpr.
  rewrite Forall_forall in Hgo, Hpr.
  assert (∀ name, String.prefix "go_" name = false → name ∉ go_names) as Hgo'.
  { intros name E Hin. by rewrite (Hgo name Hin) in E. }
  assert (∀ name, String.prefix "process_" name = false → name ∉ process_names) as Hpr'.
  { intros name E Hin. by rewrite (Hpr name Hin) in E. }
  apply Forall_forall. intros name Hname.
  unfold all_collectors, room_gauge, optimize_gauge, duration_histogram in *.
  destruct j as [|[|[|[|[|j]]]]]; [lia|..|done]; injection Hj as <-; cbn [names] in Hname;
    destruct i as [|[|[|[|i]]]]; try lia; injection Hi as <-; cbn [names];
    rewrite ?list_elem_of_singleton in *; subst; try (by apply Hgo'); try (by apply Hpr'); try done.
  intros Hin. by eapply (prefix_contradiction "go_" "process_" name); eauto.
Qed.

Lemma NewPrometheusHandler_ok :
  ∃ reg, NewPrometheusHandler (R:=R) (F:=F) = Ok {| ph_reg := reg; ph_httpDurH := duration_histogram |} ∧
    registered reg = all_collectors.
Proof.
  unfold NewPrometheusHandler.
  assert (∀ pre cs post r, registered r = pre → pre ++ cs ++ post = all_collectors →
    ∃ r', MustRegister cs r = (Ok tt, r') ∧ registered r' = pre ++ cs) as Hstep.
  { intros pre cs post r <- Hall. apply MustRegister_ok. intros i j c c' Hij Hi Hj.
    apply (collectors_disjoint i j); [done|..]; rewrite <- Hall, (assoc app); by apply lookup_app_l_Some. }
  destruct (Hstep [] [GoCollector; ProcessCollector] [room_gauge; optimize_gauge; duration_histogram] NewRegistry)
    as (r1 & E1 & H1); [apply registered_new|done|].
  destruct (Hstep _ [room_gauge] [optimize_gauge; duration_histogram] r1 H1) as (r2 & E2 & H2); [done|].
  destruct (Hstep _ [optimize_gauge] [duration_histogram] r2 H2) as (r3 & E3 & H3); [done|].
  destruct (Hstep _ [duration_histogram] [] r3 H3) as (r4 & E4 & H4); [done|].
  rewrite M_bind_eq, E1, M_bind_eq, E2, M_bind_eq, E3, E4. by exists r4.
Qed.

(** The labels of a request and of the answer the client gets. *)
Definition answer_labels `{!ChiMiddleware} (base : Logger) (rq : Request) (out : list wcmd * option string)
    : list string :=
  let pattern := RoutePattern (logged base rq) in
  [Method rq; if bool_decide (pattern = "") then "(unknown)" else pattern;
   Itoa (default 0 (sent_status out.1))].

Lemma observed_labels `{!ChiMiddleware, !ChiLaws} {S} base (next : Handler S) reqs logs obs (s : S) :
  (∀ (rq : Request) (s : S), (next rq s).1.2 ≠ Some http_ErrAbortHandler) →
  let '(outs, (_, (obs', _))) := observed_all base next reqs (logs, (obs, s)) in
  length outs = length reqs ∧
  label_values <$> obs' = (label_values <$> obs) ++ zip_with (answer_labels base) reqs.*2 outs.
Proof.
  intros Habort. revert logs obs s. induction reqs as [|[[[[t1 t2] t3] t4] r] reqs IH]; intros logs obs s.
  { simpl. by rewrite app_nil_r. }
  rewrite fmap_cons. cbn [observed_all snd].
  destruct (observed base t1 t2 t3 t4 next r (logs, (obs, s))) as [[cmds why] [logs1 [obs1 s1]]] eqn:E.
  specialize (IH logs1 obs1 s1). destruct (observed_all base next reqs _) as [outs [logs2 [obs2 s2]]].
  destruct IH as [Hlen IH]. split; [simpl; lia|]. rewrite IH.
  assert (label_values <$> obs1 = (label_values <$> obs) ++ [answer_labels base r (cmds, why)]) as ->.
  { unfold observed, RequestLogger, RequestMetrics in E. fold (logged base r) in E.
    destruct (Recoverer next (logged base r) s) as [[cmds' why'] s'] eqn:Erec.
    assert (why' = None) as ->.
    { destruct ((next (logged base r) s).1.2) as [p|] eqn:Hw.
      - destruct (Recoverer_panic S next (logged base r) s p Hw) as (H1 & _); [|by rewrite Erec in H1].
        specialize (Habort (logged base r) s). congruence.
      - pose proof (Recoverer_quiet S next (logged base r) s Hw) as Hq. rewrite Erec in Hq.
        by rewrite <- Hq in Hw. }
    injection E as <- <- <- <- <-. rewrite fmap_app. do 2 f_equal.
    unfold label_values, answer_labels. cbn [ob_method ob_path ob_status fst]. by rewrite Status_sent. }
  by rewrite <- app_assoc.
Qed.

(** C34. What a scrape shows. Building the handler never panics: its five collectors
    do not collide. Whenever [/metrics] is read after any requests through the
    middlewares, the answer is the text of metrics among which
    [stagesync_room_connected_players] is the number of players in the room at
    that moment, [stagesync_optimize_on] is 1 or 0 as the path is on or off, and
    [http_request_duration_seconds] counts, for every method, route pattern and
    status, exactly the requests answered so far with these three; requests
    without a route are counted under [(unknown)]. *)
Theorem scrape_counts_requests `{!ChiMiddleware, !ChiLaws} {S} (base : Logger) (next : Handler S)
    (reqs : list (time * time * time * time * Request)) (s : S) (rm : Room F) (o : Optimize) (req : Request)
    (Habort : ∀ (rq : Request) (s : S), (next rq s).1.2 ≠ Some http_ErrAbortHandler) :
  let '(outs, (_, (obs, _))) := observed_all base next reqs ([], ([], s)) in
  let w := {| sc_room := rm; sc_optimize := o; sc_observations := obs |} in
  ∃ h ms hist, NewPrometheusHandler (R:=R) (F:=F) = Ok h ∧
    PrometheusHandler_ServeHTTP h req w = answer (exposition ms) w ∧
    ms !! "stagesync_room_connected_players" = Some (Gauge (f_of_Z (Room_Size rm))) ∧
    ms !! "stagesync_optimize_on" = Some (Gauge (f_of_Z (if Optimize_On o then 1 else 0))) ∧
    ms !! "http_request_duration_seconds" = Some (Histogram hist) ∧
    ∀ lv, default 0 (se_count <$> hist !! lv) =
      Z.of_nat (count (λ lv', lv' = lv) (zip_with (answer_labels base) reqs.*2 outs)).
Proof.
  pose proof (observed_labels base next reqs [] [] s Habort) as Hobs.
  destruct (observed_all base next reqs _) as [outs [logs' [obs s']]]. destruct Hobs as [_ Hobs].
  destruct NewPrometheusHandler_ok as (reg & Hnew & Hreg). cbv zeta.
  set (w := {| sc_room := rm; sc_optimize := o; sc_observations := obs |}).
  destruct (gather_histogram F reg w "http_request_duration_seconds"
    "HTTP request latency partitioned by method, chi route pattern, and status code."
    DefBuckets ["method"; "path"; "status"]) as (hist & Hh & Hseries).
  { rewrite Hreg. apply collectors_disjoint. }
  { rewrite Hreg. do 4 right. left. }
  exists {| ph_reg := reg; ph_httpDurH := duration_histogram |}, (Gather reg w), hist.
  split; [done|]. split; [done|]. split; [|split; [|split; [exact Hh|]]].
  - apply (gather_gauge F reg w _ "Number of players currently connected to the WebSocket room."
      (λ w, connected_players (sc_room w))); rewrite Hreg; [apply collectors_disjoint|]. right. right. left.
  - replace (f_of_Z (if Optimize_On o then 1 else 0)) with (optimize_on o)
      by (unfold optimize_on; by destruct (Optimize_On o)).
    apply (gather_gauge F reg w _ "1 when the optimized (pooled) AOI path is active, 0 otherwise."
      (λ w, optimize_on (sc_optimize w))); rewrite Hreg; [apply collectors_disjoint|]. right. right. right. left.
  - intros lv. assert (zip_with (answer_labels base) reqs.*2 outs = label_values <$> obs) as -> by done.
    rewrite Hseries. unfold series_for, count_of. cbn [sc_observations w].
    assert (count (λ ob, label_values ob = lv) obs = count (λ lv', lv' = lv) (label_values <$> obs)) as ->.
    { by rewrite (count_fmap label_values). }
    destruct (Z.eqb_spec (Z.of_nat (count (λ lv', lv' = lv) (label_values <$> obs))) 0) as [E|_]; [by rewrite E|done].
Qed.
End properties.

(** ** A reference client *)

(** A registry that keeps its collectors and refuses a name twice. *)
Definition plain_registry (F : Type) : Type := list (Collector F).

Definition plain_names {F} (c : Collector F) : list string :=
  match c with
  | GoCollector => ["go_goroutines"; "go_gc_duration_seconds"]
  | ProcessCollector => ["process_cpu_seconds_total"]
  | GaugeFunc name _ _ | HistogramVec name _ _ _ => [name]
  end.

(** All series of a histogram. *)
Definition add_series (buckets : list float64) (obs : list observation) (lv : list string)
    (m : gmap (list string) series) : gmap (list string) series :=
  match series_for buckets obs lv with Some s => <[lv := s]> m | None => m end.

Definition all_series (buckets : list float64) (obs : list observation) : gmap (list string) series :=
  foldr (add_series buckets obs) ∅ (label_values <$> obs).

Definition metric_of {F} (c : Collector F) (w : scraped F) : list (string * metric) :=
  match c with
  | GoCollector => [("go_goroutines", Gauge (f_of_Z 9))]
  | ProcessCollector => []
  | GaugeFunc name _ read => [(name, Gauge (read w))]
  | HistogramVec name _ buckets _ => [(name, Histogram (all_series buckets (sc_observations w)))]
  end.

#[export] Instance plain_client : PromClient plain_registry := {|
  NewRegistry F := [];
  Register F c r :=
    if existsb (λ name, existsb (λ c', bool_decide (name ∈ plain_names c')) r) (plain_names c)
    then (Err (ErrorsNew "prometheus.AlreadyRegisteredError" "duplicate metrics collector registration attempted"), r)
    else (Ok tt, r ++ [c]);
  Gather F r w := list_to_map (r ≫= λ c, metric_of c w);
  go_names := ["go_goroutines"; "go_gc_duration_seconds"];
  process_names := ["process_cpu_seconds_total"];
  exposition ms := [Write [JNum (Z.of_nat (size ms))]] |}.

Lemma plain_names_eq {F} (c : Collector F) : names (R:=plain_registry) c = plain_names c.
Proof. by destruct c. Qed.

Lemma all_series_lookup buckets obs lv : all_series buckets obs !! lv = series_for buckets obs lv.
Proof.
  unfold all_series.
  assert (∀ l, foldr (add_series buckets obs) ∅ l !! lv
    = if decide (lv ∈ l) then series_for buckets obs lv else None) as Hl.
  { intros l. induction l as [|lv' l IH]; [done|]. simpl. unfold add_series at 1.
    destruct (decide (lv' = lv)) as [->|Hne].
    - rewrite decide_True by left. destruct (series_for buckets obs lv) as [s|]; [by rewrite lookup_insert_eq|].
      rewrite IH. by case_decide.
    - assert (lv ∈ lv' :: l ↔ lv ∈ l) as Hiff by (rewrite elem_of_cons; naive_solver).
      rewrite (decide_ext (lv ∈ lv' :: l) (lv ∈ l) _ _ Hiff), <- IH.
      destruct (series_for buckets obs lv'); [by rewrite lookup_insert_ne|done]. }
  rewrite Hl. case_decide as Hin; [done|]. unfold series_for, count_of.
  assert (count (λ o, label_values o = lv) obs = 0%nat) as ->; [|done].
  apply count_none, Forall_forall. intros o Ho E. apply Hin, list_elem_of_fmap. by exists o.
Qed.

Lemma metric_names {F} (c : Collector F) w name m : (name, m) ∈ metric_of c w → name ∈ plain_names c.
Proof.
  destruct c; simpl; intros Hin; try (apply list_elem_of_singleton in Hin; injection Hin as -> _; left).
  by apply not_elem_of_nil in Hin.
Qed.

Lemma plain_gather {F} (r : plain_registry F) w c name m :
  disjoint_names (R:=plain_registry) r → c ∈ r → metric_of c w = [(name, m)] →
  (list_to_map (r ≫= λ c, metric_of c w) : gmap string metric) !! name = Some m.
Proof.
  intros Hdis [i Hi]%list_elem_of_lookup Hm.
  revert i Hi Hdis. induction r as [|c' r IH]; intros i Hi Hdis; [done|].
  cbn [mbind list_bind]. rewrite list_to_map_app. destruct i as [|i].
  - injection Hi as ->. rewrite Hm. simpl. apply lookup_union_Some_l. by rewrite lookup_insert_eq.
  - rewrite lookup_union_r.
    + apply (IH i); [done|]. intros a b x y Hab Ha Hb. apply (Hdis (Datatypes.S a) (Datatypes.S b)); [lia|done..].
    + apply not_elem_of_list_to_map_1. intros Hin. apply list_elem_of_fmap in Hin as ([name' m'] & E & Hin').
      simpl in E. subst name'. apply metric_names in Hin'.
      specialize (Hdis 0%nat (Datatypes.S i) c' c ltac:(lia) eq_refl Hi). rewrite !plain_names_eq in Hdis.
      rewrite Forall_forall in Hdis. apply (Hdis name); [|done].
      apply (metric_names c w name m). rewrite Hm. left.
Qed.

Lemma plain_laws : PromLaws plain_registry.
Proof.
  refine {| registered F r := r |}.
  - done.
  - intros F c r Hnew. exists (r ++ [c]). split; [|done]. cbn [Register plain_client].
    destruct (existsb _ _) eqn:E; [|done]. apply existsb_exists in E as (name & Hname & E).
    apply existsb_exists in E as (c' & Hc' & E). apply bool_decide_eq_true in E.
    apply list_elem_of_In in Hname, Hc'. rewrite <- plain_names_eq in *.
    rewrite Forall_forall in Hnew. specialize (Hnew name Hname). rewrite Forall_forall in Hnew.
    by destruct (Hnew c' Hc').
  - intros F r w name help read Hdis Hc. by apply (plain_gather r w (GaugeFunc name help read)).
  - intros F r w name help buckets labels Hdis Hc. exists (all_series buckets (sc_observations w)).
    split; [by apply (plain_gather r w (HistogramVec name help buckets labels))|apply all_series_lookup].
  - by repeat constructor.
  - by repeat constructor.
Defined.

(** Three requests, one of which panics and one without a route. *)
Lemma scrape_counts_requests_witness :
  let '(outs, (_, (obs, _))) := @observed_all Z plain_chi plain_logger shaky observe_requests ([], ([], 0)) in
  let w := {| sc_room := ApplyMove {| GetPlayerId := "a"; GetX := 1; GetY := 2 |} (NewRoom (F:=Z));
              sc_optimize := {| opt_on := true |}; sc_observations := obs |} in
  ∃ h ms hist, NewPrometheusHandler (R:=plain_registry) = Ok h ∧
    PrometheusHandler_ServeHTTP h (observe_request "/metrics") w = answer (exposition ms) w ∧
    ms !! "stagesync_room_connected_players" = Some (Gauge (f_of_Z 1)) ∧
    ms !! "http_request_duration_seconds" = Some (Histogram hist) ∧
    default 0 (se_count <$> hist !! ["POST"; "/api/{op}"; "500"]) = 1.
Proof.
  pose proof (@scrape_counts_requests plain_registry _ plain_laws Z plain_chi plain_chi_laws Z plain_logger shaky
    observe_requests 0 (ApplyMove {| GetPlayerId := "a"; GetX := 1; GetY := 2 |} NewRoom) {| opt_on := true |}
    (observe_request "/metrics")) as H.
  assert (Hshaky : ∀ (rq : Request) (s : Z), (shaky rq s).1.2 ≠ Some http_ErrAbortHandler)
    by (intros rq s; unfold shaky; by destruct (s `mod` 3 =? 2)).
  specialize (H Hshaky). destruct (observed_all _ _ _ _) as [outs [logs [obs s']]] eqn:E.
  destruct H as (h & ms & hist & H1 & H2 & H3 & _ & H5 & H6).
  exists h, ms, hist. split; [exact H1|]. split; [exact H2|]. split; [exact H3|]. split; [exact H5|].
  rewrite H6. replace outs with (@observed_all Z plain_chi plain_logger shaky observe_requests ([], ([], 0))).1 by (by rewrite E).
  vm_compute. reflexivity.
Defined.
