(* ===== verification/Aoi.v ===== *)
(** * Area of interest: the two filters

    Models [internal/service/aoi]: [Naive] as a function, [Pooled] as a
    transition system over a store of arrays, because its buffers are taken
    from a pool that all goroutines share and are written in place. The result a
    caller sees inside its callback is a slice into that store. *)

From S2P Require Import GoLang Float.

(** ** Points *)

Record Point := { PX : float64; PY : float64 }.

Definition squaredDist (a b : Point) : float64 :=
  let dx := f_sub (PX a) (PX b) in
  let dy := f_sub (PY a) (PY b) in
  f_add (f_mul dx dx) (f_mul dy dy).

(** ** The naive filter *)

(** The loop from index [i], with what was appended so far. *)
Fixpoint naive_loop (self : Point) (r2 : float64) (i : Z) (others : list Point) (result : list Z)
    : list Z :=
  match others with
  | [] => result
  | o :: others' =>
      naive_loop self r2 (i + 1) others'
        (if f_le (squaredDist self o) r2 then result ++ [i] else result)
  end.

Definition Naive (self : Point) (others : list Point) (radius : float64) : list Z :=
  naive_loop self (f_mul radius radius) 0 others [].

(** ** Slices in a store *)

(** A slice that starts at the beginning of its array; the capacity is the
    length of the array. *)
Record slice := { sl_arr : nat; sl_len : nat }.

(** Arrays by address. *)
Abbreviation store := (list (list Z)) (only parsing).

Definition contents (h : store) (s : slice) : list Z := take (sl_len s) (default [] (h !! sl_arr s)).

(** The capacity [append] chooses for a slice that has to grow: the runtime's
    business, but larger than the old one. *)
Class Growth := { grow : nat → nat; grow_gt : ∀ n, (n < grow n)%nat }.

Section pooled.
Context `{!Growth}.

(** [append(s, v)]: in place while there is room, else into a new array. *)
Definition append (s : slice) (v : Z) (h : store) : slice * store :=
  let a := default [] (h !! sl_arr s) in
  if decide (sl_len s < length a)%nat then
    ({| sl_arr := sl_arr s; sl_len := S (sl_len s) |}, <[sl_arr s := <[sl_len s := v]> a]> h)
  else
    ({| sl_arr := length h; sl_len := S (sl_len s) |},
     h ++ [take (sl_len s) a ++ v :: replicate (grow (length a) - S (sl_len s)) 0]).

(** ** The pooled filter *)

(** A call of [Pooled] in progress: its arguments, the box [bp] it holds, the
    local [buf] and how many others it has looked at. When all are looked at it
    runs the callback on [buf]. *)
Record pcall := {
  pc_self : Point;
  pc_others : list Point;
  pc_radius : float64;
  pc_box : nat;
  pc_buf : slice;
  pc_pos : nat }.

(** The arrays; the boxes of type [*[]int], by address; the boxes in
    [idxPool]; the calls in progress, each under a name (a callback may call
    [Pooled] itself, so a goroutine can have several). *)
Record aoi_state := {
  arrays : store;
  boxes : list slice;
  idxPool : list nat;
  calls : gmap nat pcall }.

(** [idxPool.Get] may give any box of the pool or a new one; a collected pool
    has lost boxes. *)
Inductive aoi_label :=
  | GetPooled (g : nat) (k : nat) (self : Point) (others : list Point) (radius : float64)
  | GetNew (g : nat) (self : Point) (others : list Point) (radius : float64)
  | Iterate (g : nat)
  | Return (g : nat)
  | Collect (k : nat).

Definition started (self : Point) (others : list Point) (radius : float64) (bp : nat) (s : slice)
    : pcall :=
  {| pc_self := self; pc_others := others; pc_radius := radius; pc_box := bp;
     pc_buf := {| sl_arr := sl_arr s; sl_len := 0 |}; pc_pos := 0 |}.

(** [idxPool.Get()], then [buf := ( *bp)[:0]]. *)
Definition do_GetPooled (g k : nat) (self : Point) (others : list Point) (radius : float64)
    (st : aoi_state) : option aoi_state :=
  bp ← idxPool st !! k;
  s ← boxes st !! bp;
  match calls st !! g with
  | Some _ => None
  | None =>
      Some {| arrays := arrays st; boxes := boxes st; idxPool := delete k (idxPool st);
              calls := <[g := started self others radius bp s]> (calls st) |}
  end.

(** [New]: an empty slice of capacity 64 in a new box. *)
Definition do_GetNew (g : nat) (self : Point) (others : list Point) (radius : float64)
    (st : aoi_state) : option aoi_state :=
  match calls st !! g with
  | Some _ => None
  | None =>
      let s := {| sl_arr := length (arrays st); sl_len := 0 |} in
      Some {| arrays := arrays st ++ [replicate 64 0]; boxes := boxes st ++ [s];
              idxPool := idxPool st;
              calls := <[g := started self others radius (length (boxes st)) s]> (calls st) |}
  end.

(** One turn of the loop. *)
Definition do_Iterate (g : nat) (st : aoi_state) : option aoi_state :=
  c ← calls st !! g;
  o ← pc_others c !! pc_pos c;
  let r2 := f_mul (pc_radius c) (pc_radius c) in
  let '(buf, h) :=
    if f_le (squaredDist (pc_self c) o) r2
    then append (pc_buf c) (Z.of_nat (pc_pos c)) (arrays st)
    else (pc_buf c, arrays st) in
  Some {| arrays := h; boxes := boxes st; idxPool := idxPool st;
          calls := <[g := {| pc_self := pc_self c; pc_others := pc_others c;
                             pc_radius := pc_radius c; pc_box := pc_box c; pc_buf := buf;
                             pc_pos := S (pc_pos c) |}]> (calls st) |}.

(** After the callback: [*bp = buf[:0]], then [idxPool.Put(bp)]. *)
Definition do_Return (g : nat) (st : aoi_state) : option aoi_state :=
  c ← calls st !! g;
  if decide (pc_pos c = length (pc_others c)) then
    Some {| arrays := arrays st;
            boxes := <[pc_box c := {| sl_arr := sl_arr (pc_buf c); sl_len := 0 |}]> (boxes st);
            idxPool := pc_box c :: idxPool st; calls := delete g (calls st) |}
  else None.

Definition do_Collect (k : nat) (st : aoi_state) : option aoi_state :=
  _ ← idxPool st !! k;
  Some {| arrays := arrays st; boxes := boxes st; idxPool := delete k (idxPool st);
          calls := calls st |}.

Definition aoi_fire (l : aoi_label) (st : aoi_state) : option aoi_state :=
  match l with
  | GetPooled g k self others radius => do_GetPooled g k self others radius st
  | GetNew g self others radius => do_GetNew g self others radius st
  | Iterate g => do_Iterate g st
  | Return g => do_Return g st
  | Collect k => do_Collect k st
  end.

Definition aoi_start : aoi_state := {| arrays := []; boxes := []; idxPool := []; calls := ∅ |}.

Inductive aoi_reach : aoi_state → Prop :=
  | aoi_reach_start : aoi_reach aoi_start
  | aoi_reach_step st l st' : aoi_reach st → aoi_fire l st = Some st' → aoi_reach st'.

(** ** Ownership *)

(** The array behind a box that is in the pool or held by a call. *)
Definition holds (st : aoi_state) (bp arr : nat) : Prop :=
  (bp ∈ idxPool st ∧ ∃ s, boxes st !! bp = Some s ∧ sl_arr s = arr) ∨
  (∃ g c, calls st !! g = Some c ∧ pc_box c = bp ∧ sl_arr (pc_buf c) = arr).

(** What a call has found so far. *)
Definition found (c : pcall) : list Z :=
  naive_loop (pc_self c) (f_mul (pc_radius c) (pc_radius c)) 0 (take (pc_pos c) (pc_others c)) [].

Definition buf_ok (h : store) (c : pcall) : Prop :=
  (sl_len (pc_buf c) <= length (default [] (h !! sl_arr (pc_buf c))))%nat ∧
  contents h (pc_buf c) = found c ∧ (pc_pos c <= length (pc_others c))%nat.

Record aoi_inv (st : aoi_state) : Prop := {
  ai_pool : NoDup (idxPool st);
  ai_pooled bp : bp ∈ idxPool st → (bp < length (boxes st))%nat;
  ai_idle g c : calls st !! g = Some c → pc_box c ∉ idxPool st;
  ai_box g g' c c' : calls st !! g = Some c → calls st !! g' = Some c' → pc_box c = pc_box c' → g = g';
  ai_arr bp bp' arr : holds st bp arr → holds st bp' arr → bp = bp';
  ai_valid bp arr : holds st bp arr → (bp < length (boxes st))%nat ∧ (arr < length (arrays st))%nat;
  ai_buf g c : calls st !! g = Some c → buf_ok (arrays st) c }.

Lemma append_spec s v h :
  (sl_arr s < length h)%nat → (sl_len s <= length (default [] (h !! sl_arr s)))%nat →
  let '(s', h') := append s v h in
  contents h' s' = contents h s ++ [v] ∧
  (∀ a, (a < length h)%nat → a ≠ sl_arr s → h' !! a = h !! a) ∧
  (sl_len s' <= length (default [] (h' !! sl_arr s')))%nat ∧
  (sl_arr s' < length h')%nat ∧ (length h <= length h')%nat ∧
  (sl_arr s' = sl_arr s ∨ sl_arr s' = length h).
Proof.
  intros Harr Hlen. unfold append, contents. set (a := default [] (h !! sl_arr s)) in *.
  destruct (decide (sl_len s < length a)%nat) as [Hlt|Hge]; simpl.
  - rewrite list_lookup_insert_eq by done. simpl. rewrite !length_insert. split_and!; try done; try lia.
    + rewrite (take_S_r _ _ v) by by rewrite list_lookup_insert_eq. by rewrite take_insert_ge.
    + intros a' _ Hne. by rewrite list_lookup_insert_ne.
  - assert (sl_len s = length a) as Heq by lia. pose proof (grow_gt (length a)).
    rewrite lookup_app_r, Nat.sub_diag by lia. simpl. rewrite Heq, (take_ge a (length a)) by lia.
    rewrite !length_app. simpl. rewrite length_replicate. split_and!; try lia.
    + rewrite (take_S_r _ _ v); [by rewrite take_app_length|].
      by rewrite lookup_app_r, Nat.sub_diag by lia.
    + intros a' Ha' _. by rewrite lookup_app_l.
Qed.

Lemma naive_loop_app self r2 i l1 l2 acc :
  naive_loop self r2 i (l1 ++ l2) acc =
  naive_loop self r2 (i + Z.of_nat (length l1)) l2 (naive_loop self r2 i l1 acc).
Proof.
  revert i acc. induction l1 as [|o l1 IH]; intros i acc; simpl; [by rewrite Z.add_0_r|].
  rewrite IH. f_equal. lia.
Qed.

(** A step that moves no array: the boxes and calls of the new state hold what
    those of the old one held, the arrays do not change. *)
Lemma inv_same_arrays st st' :
  aoi_inv st → arrays st' = arrays st → length (boxes st') = length (boxes st) →
  (∀ bp arr, holds st' bp arr → holds st bp arr) → NoDup (idxPool st') →
  (∀ bp, bp ∈ idxPool st' → (bp < length (boxes st))%nat) →
  (∀ g c, calls st' !! g = Some c → (pc_box c ∉ idxPool st') ∧ buf_ok (arrays st) c) →
  (∀ g g' c c', calls st' !! g = Some c → calls st' !! g' = Some c' → pc_box c = pc_box c' → g = g') →
  aoi_inv st'.
Proof.
  intros Hinv Ha Hb Hh Hnd Hp Hc Hbox. split; rewrite ?Ha, ?Hb; try done.
  - intros g c Hg. by apply (Hc g).
  - intros bp bp' arr H1 H2. by eapply (ai_arr st Hinv); apply Hh.
  - intros bp arr H1. by apply (ai_valid st Hinv), Hh.
  - intros g c Hg. by apply (Hc g).
Qed.

Lemma started_ok h self others radius bp s : buf_ok h (started self others radius bp s).
Proof. split_and!; simpl; [lia|done|lia]. Qed.

Lemma NoDup_delete {A} (l : list A) k x : NoDup l → l !! k = Some x → NoDup (delete k l).
Proof.
  intros Hnd Hk. rewrite (delete_Permutation l k x Hk) in Hnd. by apply NoDup_cons in Hnd as [_ ?].
Qed.

Lemma elem_delete_NoDup {A} (l : list A) k x y :
  NoDup l → l !! k = Some x → (y ∈ delete k l ↔ y ∈ l ∧ y ≠ x).
Proof.
  intros Hnd Hk. rewrite (delete_Permutation l k x Hk) in Hnd. apply NoDup_cons in Hnd as [Hx _].
  pose proof (delete_Permutation l k x Hk) as Hp. set (d := delete k l) in *. clearbody d.
  rewrite Hp, elem_of_cons. split; [|tauto].
  intros Hy. split; [by right|]. by intros ->.
Qed.

Lemma inv_GetPooled st g k self others radius st' :
  aoi_inv st → do_GetPooled g k self others radius st = Some st' → aoi_inv st'.
Proof.
  unfold do_GetPooled. intros Hinv Hf.
  destruct (idxPool st !! k) as [bp|] eqn:Hk; [|done]. simpl in Hf.
  destruct (boxes st !! bp) as [s|] eqn:Hs; [|done]. simpl in Hf.
  destruct (calls st !! g) eqn:Hg; [done|]. injection Hf as <-.
  assert (Hin : bp ∈ idxPool st) by by eapply list_elem_of_lookup_2.
  pose proof (λ y, elem_delete_NoDup _ k bp y (ai_pool st Hinv) Hk) as Hdel.
  apply (inv_same_arrays st); simpl; try done.
  - intros bp' arr [[Hbp' Hs']|(g' & c & Hc & <- & <-)]; simpl in *.
    + left. split; [|done]. by apply Hdel.
    + apply lookup_insert_Some in Hc as [[<- <-]|[_ Hc]]; [|right; by eauto].
      left. simpl. eauto.
  - by eapply NoDup_delete; [apply (ai_pool st)|].
  - intros bp' [Hbp' _]%Hdel. by apply (ai_pooled st).
  - intros g' c [[<- <-]|[_ Hc]]%lookup_insert_Some.
    + split; [|apply started_ok]. simpl. rewrite Hdel. tauto.
    + split; [|by apply (ai_buf st Hinv g')]. rewrite Hdel. intros [? _].
      by eapply (ai_idle st Hinv).
  - intros g1 g2 c1 c2 [[<- <-]|[_ H1]]%lookup_insert_Some [[<- <-]|[_ H2]]%lookup_insert_Some;
      simpl; try done; [intros Heq|intros Heq|by apply (ai_box st Hinv)].
    + exfalso. apply (ai_idle st Hinv _ _ H2). congruence.
    + exfalso. apply (ai_idle st Hinv _ _ H1). congruence.
Qed.

Lemma inv_Return st g st' : aoi_inv st → do_Return g st = Some st' → aoi_inv st'.
Proof.
  unfold do_Return. intros Hinv Hf. destruct (calls st !! g) as [c|] eqn:Hg; [|done]. simpl in Hf.
  destruct (decide _); [|done]. injection Hf as <-.
  assert (Hc : holds st (pc_box c) (sl_arr (pc_buf c))) by (right; eauto).
  destruct (ai_valid st Hinv _ _ Hc) as [Hbp _].
  apply (inv_same_arrays st); simpl; rewrite ?length_insert; try done.
  - intros bp arr [[Hbp' (s & Hs & <-)]|(g' & c' & Hc' & <- & <-)]; simpl in *.
    + destruct (decide (bp = pc_box c)) as [->|Hne].
      * rewrite list_lookup_insert_eq in Hs by done. by injection Hs as <-.
      * rewrite list_lookup_insert_ne in Hs by done. apply elem_of_cons in Hbp' as [?|?]; [done|].
        left. eauto.
    + apply lookup_delete_Some in Hc' as [_ Hc']. right. eauto.
  - apply NoDup_cons. split; [by eapply (ai_idle st Hinv)|apply (ai_pool st Hinv)].
  - intros bp [->|Hin]%elem_of_cons; [done|by apply (ai_pooled st)].
  - intros g' c' [Hne Hc']%lookup_delete_Some. split; [|by apply (ai_buf st Hinv g')].
    rewrite elem_of_cons. intros [Heq|Hin]; [|by eapply (ai_idle st Hinv)].
    by destruct Hne, (ai_box st Hinv g g' c c').
  - intros g1 g2 c1 c2 [_ H1]%lookup_delete_Some [_ H2]%lookup_delete_Some.
    by apply (ai_box st Hinv).
Qed.

Lemma inv_Collect st k st' : aoi_inv st → do_Collect k st = Some st' → aoi_inv st'.
Proof.
  unfold do_Collect. intros Hinv Hf. destruct (idxPool st !! k) as [bp|] eqn:Hk; [|done].
  injection Hf as <-.
  pose proof (λ y, elem_delete_NoDup _ k bp y (ai_pool st Hinv) Hk) as Hdel.
  apply (inv_same_arrays st); simpl; try done.
  - intros bp' arr [[Hbp' Hs']|Hc]; simpl in *; [left; split; [by apply Hdel|done]|by right].
  - by eapply NoDup_delete; [apply (ai_pool st)|].
  - intros bp' [Hbp' _]%Hdel. by apply (ai_pooled st).
  - intros g c Hc. split; [|by apply (ai_buf st Hinv g)]. rewrite Hdel. intros [? _].
    by eapply (ai_idle st Hinv).
  - by apply (ai_box st Hinv).
Qed.

Lemma buf_ok_frame h h' c :
  h' !! sl_arr (pc_buf c) = h !! sl_arr (pc_buf c) → buf_ok h c → buf_ok h' c.
Proof. unfold buf_ok, contents. by intros ->. Qed.

Lemma inv_GetNew st g self others radius st' :
  aoi_inv st → do_GetNew g self others radius st = Some st' → aoi_inv st'.
Proof.
  unfold do_GetNew. intros Hinv Hf. destruct (calls st !! g) eqn:Hg; [done|]. injection Hf as <-.
  set (b := length (boxes st)). set (a := length (arrays st)).
  set (st' := {| arrays := _ |}).
  assert (Hh : ∀ bp arr, holds st' bp arr → holds st bp arr ∨ (bp = b ∧ arr = a)).
  { intros bp arr [[Hin (s & Hs & <-)]|(g' & c & Hc & <- & <-)]; simpl in *.
    - left. left. split; [done|]. exists s. split; [|done].
      by rewrite lookup_app_l in Hs by by apply (ai_pooled st).
    - apply lookup_insert_Some in Hc as [[<- <-]|[_ Hc]]; [by right|left; right; eauto]. }
  assert (Hfresh : ∀ bp arr, holds st bp arr → bp ≠ b ∧ arr ≠ a).
  { intros bp arr Hbp. destruct (ai_valid st Hinv _ _ Hbp). unfold a, b. lia. }
  assert (Hold : ∀ g' c, calls st !! g' = Some c → holds st (pc_box c) (sl_arr (pc_buf c)))
    by (intros g' c Hc; right; eauto).
  split; simpl.
  - apply (ai_pool st Hinv).
  - intros bp Hbp. apply (ai_pooled st Hinv) in Hbp. rewrite length_app. lia.
  - intros g' c [[<- <-]|[_ Hc]]%lookup_insert_Some; [|by eapply (ai_idle st Hinv)].
    intros Hbp. apply (ai_pooled st Hinv) in Hbp. simpl in Hbp. unfold b in Hbp. lia.
  - intros g1 g2 c1 c2 [[<- <-]|[_ H1]]%lookup_insert_Some [[<- <-]|[_ H2]]%lookup_insert_Some;
      simpl; intros Heq; try done; [| |by eapply (ai_box st Hinv)].
    + by destruct (Hfresh _ _ (Hold _ _ H2)) as [[] _].
    + by destruct (Hfresh _ _ (Hold _ _ H1)) as [[] _].
  - intros bp bp' arr [H1|[-> Ha]]%Hh [H2|[-> Ha']]%Hh; [by eapply (ai_arr st Hinv)| | |done].
    + by destruct (Hfresh _ _ H1).
    + by destruct (Hfresh _ _ H2).
  - intros bp arr [H1|[-> ->]]%Hh; rewrite !length_app; simpl; [|unfold a, b; lia].
    destruct (ai_valid st Hinv _ _ H1). lia.
  - intros g' c [[<- <-]|[_ Hc]]%lookup_insert_Some; [apply started_ok|].
    apply (buf_ok_frame (arrays st)); [|by apply (ai_buf st Hinv g')].
    apply lookup_app_l. by apply (ai_valid st Hinv _ _ (Hold _ _ Hc)).
Qed.

(** What an iteration does to the buffer and to the arrays. *)
Lemma iterate_buf st g c o buf h :
  aoi_inv st → calls st !! g = Some c → pc_others c !! pc_pos c = Some o →
  (if f_le (squaredDist (pc_self c) o) (f_mul (pc_radius c) (pc_radius c))
   then append (pc_buf c) (Z.of_nat (pc_pos c)) (arrays st)
   else (pc_buf c, arrays st)) = (buf, h) →
  let c' := {| pc_self := pc_self c; pc_others := pc_others c; pc_radius := pc_radius c;
               pc_box := pc_box c; pc_buf := buf; pc_pos := S (pc_pos c) |} in
  buf_ok h c' ∧
  (∀ a, (a < length (arrays st))%nat → a ≠ sl_arr (pc_buf c) → h !! a = arrays st !! a) ∧
  (sl_arr buf < length h)%nat ∧ (length (arrays st) <= length h)%nat ∧
  (sl_arr buf = sl_arr (pc_buf c) ∨ sl_arr buf = length (arrays st)).
Proof.
  intros Hinv Hg Ho Hb c'.
  destruct (ai_buf st Hinv g c Hg) as (Hlen & Hcont & Hpos).
  assert (Hv : (sl_arr (pc_buf c) < length (arrays st))%nat)
    by (eapply (ai_valid st Hinv); right; eauto).
  assert (Hlt : (pc_pos c < length (pc_others c))%nat) by by eapply lookup_lt_Some.
  assert (Hfound : found c' =
    if f_le (squaredDist (pc_self c) o) (f_mul (pc_radius c) (pc_radius c))
    then found c ++ [Z.of_nat (pc_pos c)] else found c).
  { unfold found, c'. simpl. rewrite (take_S_r _ _ o Ho), naive_loop_app, length_take. simpl.
    by rewrite Nat.min_l by lia. }
  destruct (f_le _ _).
  - pose proof (append_spec (pc_buf c) (Z.of_nat (pc_pos c)) (arrays st) Hv Hlen) as Happ.
    rewrite Hb in Happ. destruct Happ as (Hc' & Hframe & Hcap & Ha & Hle & Hor).
    split_and!; try done; [split_and!; simpl; [done|by rewrite Hc', Hcont|lia]].
  - injection Hb as <- <-. split_and!; try done; [split_and!; simpl; [done|by rewrite Hcont|lia]|by left].
Qed.

Lemma inv_Iterate st g st' : aoi_inv st → do_Iterate g st = Some st' → aoi_inv st'.
Proof.
  unfold do_Iterate. intros Hinv Hf. destruct (calls st !! g) as [c|] eqn:Hg; [|done]. simpl in Hf.
  destruct (pc_others c !! pc_pos c) as [o|] eqn:Ho; [|done]. simpl in Hf.
  destruct (if f_le _ _ then _ else _) as [buf h] eqn:Hb. injection Hf as <-.
  destruct (iterate_buf st g c o buf h Hinv Hg Ho Hb) as (Hok & Hframe & Hv & Hle & Hor).
  set (c' := {| pc_self := _ |}) in *. set (st' := {| arrays := _ |}).
  assert (Hold : ∀ g' c, calls st !! g' = Some c → holds st (pc_box c) (sl_arr (pc_buf c)))
    by (intros g' c0 Hc0; right; eauto).
  assert (Hh : ∀ bp arr, holds st' bp arr →
    holds st bp arr ∨ (bp = pc_box c ∧ arr = sl_arr buf ∧ arr = length (arrays st))).
  { intros bp arr [Hin|(g' & c1 & Hc1 & <- & <-)]; simpl in *; [by left; left|].
    apply lookup_insert_Some in Hc1 as [[<- <-]|[_ Hc1]]; [|left; eauto]. simpl.
    destruct Hor as [Heq|Heq]; [left; rewrite Heq; eauto|by right]. }
  assert (Hbp : (pc_box c < length (boxes st))%nat) by by apply (ai_valid st Hinv _ _ (Hold _ _ Hg)).
  assert (Harr : ∀ bp arr, holds st bp arr → arr ≠ length (arrays st)).
  { intros bp arr H1. destruct (ai_valid st Hinv _ _ H1). lia. }
  split; simpl.
  - apply (ai_pool st Hinv).
  - apply (ai_pooled st Hinv).
  - intros g' c1 [[<- <-]|[_ Hc1]]%lookup_insert_Some;
      [by apply (ai_idle st Hinv g c)|by apply (ai_idle st Hinv g')].
  - intros g1 g2 c1 c2 [[<- <-]|[_ H1]]%lookup_insert_Some [[<- <-]|[_ H2]]%lookup_insert_Some;
      intros Heq; [done|by apply (ai_box st Hinv g g2 c c2)|by apply (ai_box st Hinv g1 g c1 c)|
        by apply (ai_box st Hinv g1 g2 c1 c2)].
  - intros bp bp' arr [H1|(-> & _ & Ha)]%Hh [H2|(-> & _ & Ha')]%Hh; [by eapply (ai_arr st Hinv)| | |done].
    + by destruct (Harr _ _ H1).
    + by destruct (Harr _ _ H2).
  - intros bp arr [H1|(-> & -> & _)]%Hh; [|done]. destruct (ai_valid st Hinv _ _ H1). lia.
  - intros g' c1 [[<- <-]|[Hne Hc1]]%lookup_insert_Some; [done|].
    apply (buf_ok_frame (arrays st)); [|by apply (ai_buf st Hinv g')].
    apply Hframe; [by apply (ai_valid st Hinv _ _ (Hold _ _ Hc1))|]. intros Heq.
    apply Hne. apply (ai_box st Hinv _ _ _ _ Hg Hc1).
    apply (ai_arr st Hinv _ _ (sl_arr (pc_buf c))); [by apply (Hold g)|].
    rewrite <- Heq. by apply (Hold g').
Qed.

Lemma aoi_reach_inv st : aoi_reach st → aoi_inv st.
Proof.
  induction 1 as [|st l st' _ IH Hf].
  - split; simpl; try done; [by apply NoDup_nil|by intros ? ?%elem_of_nil| |].
    + intros bp bp' arr [[?%elem_of_nil _]|(? & ? & Hc & _)]; [done|]. simpl in Hc. by rewrite lookup_empty in Hc.
    + intros bp arr [[?%elem_of_nil _]|(? & ? & Hc & _)]; [done|]. simpl in Hc. by rewrite lookup_empty in Hc.
  - destruct l; simpl in Hf; eauto using inv_GetPooled, inv_GetNew, inv_Iterate, inv_Return, inv_Collect.
Qed.

(** ** The contract *)

(** A call that runs on its own, whatever the state it starts in. *)
Fixpoint iterate_n (n : nat) (g : nat) (st : aoi_state) : option aoi_state :=
  match n with
  | O => Some st
  | S n' => st' ← aoi_fire (Iterate g) st; iterate_n n' g st'
  end.

Lemma iterate_done st g c :
  calls st !! g = Some c → (pc_pos c <= length (pc_others c))%nat →
  ∃ st' c', iterate_n (length (pc_others c) - pc_pos c) g st = Some st' ∧
    calls st' !! g = Some c' ∧ pc_others c' = pc_others c ∧ pc_pos c' = length (pc_others c').
Proof.
  remember (length (pc_others c) - pc_pos c)%nat as n eqn:Hn. revert st c Hn.
  induction n as [|n IH]; intros st c Hn Hg Hpos.
  { exists st, c. split_and!; try done. lia. }
  destruct (lookup_lt_is_Some_2 (pc_others c) (pc_pos c)) as [o Ho]; [lia|].
  cbn [iterate_n aoi_fire]. unfold do_Iterate. rewrite Hg. simpl. rewrite Ho. simpl.
  destruct (if f_le _ _ then _ else _) as [buf h]. simpl.
  set (c1 := {| pc_self := _ |}).
  match goal with |- context [iterate_n n g ?st1] => destruct (IH st1 c1) as (st' & c' & Hrun & Hrest) end;
    [simpl; lia|by simpl; rewrite lookup_insert_eq|simpl; lia|].
  by exists st', c'.
Qed.

(** C39. The pool does not show. However calls of [Pooled] interleave or nest,
    whichever boxes the pool hands out, keeps or loses, and whatever capacity
    [append] grows to: a call reaches its callback after one iteration per
    point, and from then until it returns the slice its callback sees reads
    exactly what [Naive] computes from the same arguments, whatever the other
    calls do meanwhile. *)
Theorem Pooled_is_Naive (st : aoi_state) (g : nat) (c : pcall)
    (Hst : aoi_reach st) (Hc : calls st !! g = Some c) :
  (pc_pos c = length (pc_others c) →
     contents (arrays st) (pc_buf c) = Naive (pc_self c) (pc_others c) (pc_radius c)) ∧
  ∃ st' c', iterate_n (length (pc_others c) - pc_pos c) g st = Some st' ∧
    calls st' !! g = Some c' ∧ pc_others c' = pc_others c ∧ pc_pos c' = length (pc_others c').
Proof.
  pose proof (aoi_reach_inv st Hst) as Hinv.
  destruct (ai_buf st Hinv g c Hc) as (_ & Hcont & Hpos). split; [|by apply iterate_done].
  intros Hend. rewrite Hcont. unfold found, Naive. by rewrite Hend, take_ge.
Qed.
End pooled.

(** ** The filter itself *)

Lemma naive_loop_elem self r2 i others acc k :
  k ∈ naive_loop self r2 i others acc ↔
  k ∈ acc ∨ ∃ n o, others !! n = Some o ∧ k = i + Z.of_nat n ∧ f_le (squaredDist self o) r2 = true.
Proof.
  revert i acc. induction others as [|o others IH]; intros i acc; cbn [naive_loop].
  { split; [by left|]. intros [?|(n & o & Ho & _)]; [done|]. by rewrite lookup_nil in Ho. }
  rewrite IH. assert (Hacc : k ∈ (if f_le (squaredDist self o) r2 then acc ++ [i] else acc) ↔
    k ∈ acc ∨ (k = i ∧ f_le (squaredDist self o) r2 = true)).
  { destruct (f_le _ _); [|naive_solver]. rewrite elem_of_app, list_elem_of_singleton. tauto. }
  rewrite Hacc. split.
  - intros [[?|[-> ?]]|(n & o' & Ho & -> & Hd)]; [by left|right; exists 0%nat, o; by rewrite Z.add_0_r|].
    right. exists (S n), o'. split_and!; [done|lia|done].
  - intros [?|([|n] & o' & Ho & -> & Hd)]; [by left; left| |].
    + injection Ho as <-. left. right. split; [lia|done].
    + right. exists n, o'. split_and!; [done|lia|done].
Qed.

(** [Naive] gives exactly the indices of the points within the radius. *)
Lemma Naive_elem self others radius k :
  k ∈ Naive self others radius ↔
  ∃ o, 0 <= k ∧ others !! Z.to_nat k = Some o ∧ f_le (squaredDist self o) (f_mul radius radius) = true.
Proof.
  unfold Naive. rewrite naive_loop_elem. split.
  - intros [?%elem_of_nil|(n & o & Ho & -> & Hd)]; [done|]. exists o. rewrite Z.add_0_l, Nat2Z.id.
    split_and!; [lia|done|done].
  - intros (o & Hk & Ho & Hd). right. exists (Z.to_nat k), o. split_and!; [done|lia|done].
Qed.

(** ** Concrete runs *)

(** Small integers as floats. *)
Definition pt (x y : Z) : Point := {| PX := f_of_Z x; PY := f_of_Z y |}.

(** Doubling, at least one. *)
#[export, refine] Instance double_growth : Growth := {| grow n := (2 * n + 1)%nat |}.
Proof. intros n. lia. Defined.

(** The points of the source's test: the one at distance 50 is inside. *)
Definition test_points : list Point :=
  [pt 10 0; pt 0 30; pt 30 40; pt 51 0; pt 70 70; pt (-20) 30].

Example Naive_test : Naive (pt 0 0) test_points (f_of_Z 50) = [0; 1; 2; 5].
Proof. vm_compute. reflexivity. Qed.

(** Not a number is never within the radius. *)
Example Naive_nan : Naive (pt 0 0) [pt 0 0; {| PX := S754_nan; PY := S754_zero false |}] (f_of_Z 9) = [0].
Proof. vm_compute. reflexivity. Qed.

Fixpoint aoi_fire_all (ls : list aoi_label) (st : aoi_state) : option aoi_state :=
  match ls with
  | [] => Some st
  | l :: ls' => st' ← aoi_fire l st; aoi_fire_all ls' st'
  end.

Lemma aoi_fire_all_reach ls st st' : aoi_reach st → aoi_fire_all ls st = Some st' → aoi_reach st'.
Proof.
  revert st. induction ls as [|l ls IH]; intros st Hst; cbn [aoi_fire_all]; [by intros [= <-]|].
  destruct (aoi_fire l st) as [st1|] eqn:Hl; [|done]. simpl. apply IH. by eapply aoi_reach_step.
Qed.

(** Call 1 finishes, its box goes to call 2, while call 3 fills a new one. *)
Definition overlapping : list aoi_label :=
  [GetNew 1 (pt 0 0) test_points (f_of_Z 50)] ++ replicate 6 (Iterate 1) ++
  [Return 1; GetPooled 2 0 (pt 70 70) test_points (f_of_Z 5);
   GetNew 3 (pt 0 0) test_points (f_of_Z 20)] ++
  (replicate 6 [Iterate 3; Iterate 2] ≫= id).

Lemma Pooled_is_Naive_witness :
  ∃ st c, aoi_fire_all overlapping aoi_start = Some st ∧ calls st !! 2%nat = Some c ∧
    contents (arrays st) (pc_buf c) = [4].
Proof.
  destruct (aoi_fire_all overlapping aoi_start) as [st|] eqn:Hrun; [|vm_compute in Hrun; discriminate Hrun].
  pose proof (aoi_fire_all_reach _ _ _ aoi_reach_start Hrun) as Hreach.
  assert (Hst : Some st = aoi_fire_all overlapping aoi_start) by (rewrite Hrun; reflexivity).
  vm_compute in Hst. injection Hst as Hst. subst st.
  eexists _, _. split; [reflexivity|]. split; [vm_compute; reflexivity|].
  match goal with |- contents (arrays ?st) (pc_buf ?c) = _ =>
    rewrite (proj1 (Pooled_is_Naive st 2%nat c Hreach eq_refl) eq_refl) end.
  vm_compute. reflexivity.
Defined.

(** A slice kept after the return is not the result any more: it reads what the
    next call with the box wrote. *)
Example kept_slice_changes :
  (λ st, contents (arrays st) {| sl_arr := 0; sl_len := 4 |}) <$>
    aoi_fire_all overlapping aoi_start = Some [4; 1; 2; 5].
Proof. vm_compute. reflexivity. Qed.
