(* ===== verification/Sql.v ===== *)
(** * The database: MySQL behind database/sql

    What the repositories of [internal/persistence/mysql] use. The server is a
    parameter: [MySQL] is the interface through which statements, queries and
    transactions reach it, [MySQLLaws] is what its documentation promises of the
    statements of the program, read as effects on tables ([stmt_effect],
    [select]). Any statement may fail, and a failed autocommitted statement or a
    failed commit may have taken effect (the reply was lost). Between two
    statements of one repository call no other connection writes.

    [database/sql]'s [QueryRow] and [Scan] and the generated functions of
    [internal/persistence/mysql/gen] are definitions. *)

From S2P Require Import GoLang.
#[local] Open Scope Z_scope.

(** ** Integers of 32 bits *)

Definition int32_half : Z := 2 ^ 31.
Definition int32_wrap (z : Z) : Z := (z + int32_half) `mod` (2 * int32_half) - int32_half.

Lemma int32_wrap_small z : - int32_half <= z < int32_half → int32_wrap z = z.
Proof. unfold int32_wrap, int32_half. intros Hz. rewrite Z.mod_small; lia. Qed.

(** ** Rows *)

Module gen.

Record Profile := { Profile_ID : string; Profile_Name : string; Profile_CreatedAt : time }.

Record GachaRoll := {
  GachaRoll_ID : string; GachaRoll_PlayerID : string; GachaRoll_PoolID : string;
  GachaRoll_CardID : string; GachaRoll_Rarity : string; GachaRoll_IsPity : bool;
  GachaRoll_PulledAt : time }.

Record GachaPity := {
  GachaPity_PlayerID : string; GachaPity_PoolID : string; GachaPity_Counter : Z;
  GachaPity_UpdatedAt : time }.

Record Event := {
  Event_ID : string; Event_Name : string; Event_StartAt : time; Event_EndAt : time;
  Event_CreatedAt : time }.

Record EventScore := {
  EventScore_EventID : string; EventScore_PlayerID : string; EventScore_Points : Z;
  EventScore_UpdatedAt : time }.

Record EventReward := {
  EventReward_EventID : string; EventReward_Tier : Z; EventReward_MinPoints : Z;
  EventReward_RewardName : string }.

(** A row of [player_hp], for which nothing is generated. *)
Record PlayerHP := { PlayerHP_PlayerID : string; PlayerHP_HP : Z; PlayerHP_UpdatedAt : time }.
End gen.

(** The tables of [schema.sql], rows in the order of their insertion. (A text too
    long for its column is refused; a [CHAR] column would drop trailing spaces,
    which no UUID has.) *)
Record Tables := {
  t_profiles : list gen.Profile;
  t_gacha_rolls : list gen.GachaRoll;
  t_gacha_pity : list gen.GachaPity;
  t_events : list gen.Event;
  t_event_scores : list gen.EventScore;
  t_event_rewards : list gen.EventReward;
  t_player_hp : list gen.PlayerHP }.

Definition no_rows : Tables := {|
  t_profiles := []; t_gacha_rolls := []; t_gacha_pity := []; t_events := [];
  t_event_scores := []; t_event_rewards := []; t_player_hp := [] |}.

Definition set_profiles l (T : Tables) : Tables :=
  Build_Tables l (t_gacha_rolls T) (t_gacha_pity T) (t_events T) (t_event_scores T)
    (t_event_rewards T) (t_player_hp T).
Definition set_gacha_rolls l (T : Tables) : Tables :=
  Build_Tables (t_profiles T) l (t_gacha_pity T) (t_events T) (t_event_scores T)
    (t_event_rewards T) (t_player_hp T).
Definition set_gacha_pity l (T : Tables) : Tables :=
  Build_Tables (t_profiles T) (t_gacha_rolls T) l (t_events T) (t_event_scores T)
    (t_event_rewards T) (t_player_hp T).
Definition set_events l (T : Tables) : Tables :=
  Build_Tables (t_profiles T) (t_gacha_rolls T) (t_gacha_pity T) l (t_event_scores T)
    (t_event_rewards T) (t_player_hp T).
Definition set_event_scores l (T : Tables) : Tables :=
  Build_Tables (t_profiles T) (t_gacha_rolls T) (t_gacha_pity T) (t_events T) l
    (t_event_rewards T) (t_player_hp T).
Definition set_event_rewards l (T : Tables) : Tables :=
  Build_Tables (t_profiles T) (t_gacha_rolls T) (t_gacha_pity T) (t_events T) (t_event_scores T)
    l (t_player_hp T).
Definition set_player_hp l (T : Tables) : Tables :=
  Build_Tables (t_profiles T) (t_gacha_rolls T) (t_gacha_pity T) (t_events T) (t_event_scores T)
    (t_event_rewards T) l.

(** ** The statements and queries of the program *)

(** One constructor for each SQL text; the arguments in the order of its
    placeholders. *)
Inductive stmt :=
  | createProfile (id name : string) (created_at : time)
  | insertRoll (id player_id pool_id card_id rarity : string) (is_pity : bool) (pulled_at : time)
  | upsertPity (player_id pool_id : string) (counter : Z)
  | createEvent (id name : string) (start_at end_at : time)
  | addEventScore (event_id player_id : string) (points : Z)
  | insertRewardTier (event_id : string) (tier min_points : Z) (reward_name : string)
  | insertHP (player_id : string) (hp : Z)
  | updateHP (hp : Z) (player_id : string)
  | upsertHP (player_id : string) (hp : Z).

Inductive query : Type → Type :=
  | getProfile (id : string) : query gen.Profile
  | getPity (player_id pool_id : string) : query Z
  | listRollsByPlayer (player_id : string) (limit : Z) : query gen.GachaRoll
  | getEvent (id : string) : query gen.Event
  | listCurrentEvents (start_at end_at : time) : query gen.Event
  | getEventScore (event_id player_id : string) : query gen.EventScore
  | listRewardTiers (event_id : string) : query gen.EventReward
  | selectHPForUpdate (player_id : string) : query Z
  | selectHP (player_id : string) : query gen.PlayerHP.

(** [*sql.DB] and [*sql.Tx] as [gen.DBTX]; a query delivers its rows. *)
Class DBTX (C : Type) := {
  ExecContext : stmt → M C unit;
  QueryContext : ∀ {R}, query R → M C (list R) }.

Definition sql_ErrNoRows : error := ErrorsNew "sql.ErrNoRows" "sql: no rows in result set".

(** [QueryRowContext(...).Scan(...)]: the first row. *)
Definition QueryRowContext {C} `{!DBTX C} {R} (q : query R) : M C R :=
  rows ← QueryContext q;
  match rows with
  | row :: _ => mret row
  | [] => fail sql_ErrNoRows
  end.

(** ** The generated functions *)

Section queries.
Context {C : Type} `{!DBTX C}.

Definition Queries_CreateProfile (id name : string) (createdAt : time) : M C unit :=
  ExecContext (createProfile id name createdAt).
Definition Queries_GetProfile (id : string) : M C gen.Profile := QueryRowContext (getProfile id).

Definition Queries_GetPity (playerID poolID : string) : M C Z :=
  QueryRowContext (getPity playerID poolID).
Definition Queries_InsertRoll (id playerID poolID cardID rarity : string) (isPity : bool)
    (pulledAt : time) : M C unit :=
  ExecContext (insertRoll id playerID poolID cardID rarity isPity pulledAt).
Definition Queries_ListRollsByPlayer (playerID : string) (limit : Z) : M C (list gen.GachaRoll) :=
  QueryContext (listRollsByPlayer playerID limit).
Definition Queries_UpsertPity (playerID poolID : string) (counter : Z) : M C unit :=
  ExecContext (upsertPity playerID poolID counter).

Definition Queries_AddEventScore (eventID playerID : string) (points : Z) : M C unit :=
  ExecContext (addEventScore eventID playerID points).
Definition Queries_CreateEvent (id name : string) (startAt endAt : time) : M C unit :=
  ExecContext (createEvent id name startAt endAt).
Definition Queries_GetEvent (id : string) : M C gen.Event := QueryRowContext (getEvent id).
Definition Queries_GetEventScore (eventID playerID : string) : M C gen.EventScore :=
  QueryRowContext (getEventScore eventID playerID).
Definition Queries_InsertRewardTier (eventID : string) (tier minPoints : Z) (rewardName : string)
    : M C unit :=
  ExecContext (insertRewardTier eventID tier minPoints rewardName).
Definition Queries_ListCurrentEvents (startAt endAt : time) : M C (list gen.Event) :=
  QueryContext (listCurrentEvents startAt endAt).
Definition Queries_ListRewardTiers (eventID : string) : M C (list gen.EventReward) :=
  QueryContext (listRewardTiers eventID).
End queries.

(** ** What the statements mean *)

Section rows.
Context {R K : Type} `{!EqDecision K} (key : R → K).

(** [WHERE key = ...]. *)
Definition rows_with (k : K) (rows : list R) : list R := filter (λ r, key r = k) rows.

Definition find_row (k : K) (rows : list R) : option R := head (rows_with k rows).

(** [INSERT]: refused when a row has the key. *)
Definition insert_row (row : R) (rows : list R) : option (list R) :=
  match find_row (key row) rows with
  | Some _ => None
  | None => Some (rows ++ [row])
  end.

(** [UPDATE ... WHERE key = ...]. *)
Definition update_rows (k : K) (update : R → R) (rows : list R) : list R :=
  (λ r, if decide (key r = k) then update r else r) <$> rows.

(** [INSERT ... ON DUPLICATE KEY UPDATE]. *)
Definition upsert_row (row : R) (update : R → R) (rows : list R) : list R :=
  match find_row (key row) rows with
  | Some _ => update_rows (key row) update rows
  | None => rows ++ [row]
  end.

Lemma rows_with_update k k' update rows :
  (∀ r, key (update r) = key r) →
  rows_with k' (update_rows k update rows) =
  (if decide (k' = k) then update <$> rows_with k' rows else rows_with k' rows).
Proof.
  intros Hkey. unfold rows_with, update_rows. induction rows as [|r rows IH].
  { by case_decide. }
  rewrite fmap_cons, !filter_cons, IH. destruct (decide (key r = k)) as [<-|Hne].
  - rewrite Hkey. repeat case_decide; simplify_eq/=; done.
  - repeat case_decide; simplify_eq/=; done.
Qed.

Lemma find_row_app k rows row :
  find_row k (rows ++ [row]) =
  match find_row k rows with
  | Some r => Some r
  | None => if decide (key row = k) then Some row else None
  end.
Proof.
  unfold find_row, rows_with. rewrite filter_app. destruct (filter _ rows); [|done].
  rewrite filter_cons, filter_nil. by case_decide.
Qed.

Lemma find_row_update k k' update rows :
  (∀ r, key (update r) = key r) →
  find_row k' (update_rows k update rows) =
  (if decide (k' = k) then update <$> find_row k' rows else find_row k' rows).
Proof.
  intros Hkey. unfold find_row. rewrite rows_with_update by done. case_decide; [|done].
  by destruct (rows_with k' rows).
Qed.

Lemma find_row_upsert k row update rows :
  (∀ r, key (update r) = key r) →
  find_row k (upsert_row row update rows) =
  (if decide (k = key row) then Some (from_option update row (find_row (key row) rows))
   else find_row k rows).
Proof.
  intros Hkey. unfold upsert_row. destruct (find_row (key row) rows) as [r|] eqn:E.
  - rewrite find_row_update by done. case_decide as Hk; [|done]. by rewrite Hk, E.
  - rewrite find_row_app. destruct (decide (k = key row)) as [->|Hk].
    + by rewrite E, decide_True.
    + rewrite decide_False by congruence. by destruct (find_row k rows).
Qed.

Lemma find_row_insert k row rows rows' :
  insert_row row rows = Some rows' →
  find_row (key row) rows = None ∧
  find_row k rows' = (if decide (k = key row) then Some row else find_row k rows).
Proof.
  unfold insert_row. destruct (find_row (key row) rows) eqn:E; [done|]. intros [= <-].
  split; [done|]. rewrite find_row_app. destruct (decide (k = key row)) as [->|Hk].
  - by rewrite E, decide_True.
  - rewrite decide_False by congruence. by destruct (find_row k rows).
Qed.

Lemma find_row_elem k rows r : find_row k rows = Some r → key r = k ∧ r ∈ rows.
Proof.
  unfold find_row, rows_with. intros (l & Hl)%head_Some.
  assert (r ∈ filter (λ r, key r = k) rows) as Hr by (rewrite Hl; by left).
  by apply list_elem_of_filter in Hr.
Qed.

Lemma find_row_hd k rows row rest : row :: rest = rows_with k rows → find_row k rows = Some row.
Proof. unfold find_row. by intros <-. Qed.

Lemma find_row_none k rows : [] = rows_with k rows → find_row k rows = None.
Proof. unfold find_row. by intros <-. Qed.

(** The key of a table is unique. *)
Definition unique_key (rows : list R) : Prop := NoDup (key <$> rows).

Lemma unique_insert row rows rows' :
  insert_row row rows = Some rows' → unique_key rows → unique_key rows'.
Proof.
  unfold insert_row, unique_key, find_row, rows_with. destruct (filter _ rows) eqn:E; [|done].
  intros [= <-] Hn. rewrite fmap_app. apply NoDup_app. split_and!; [done| |apply NoDup_singleton].
  intros k (r & -> & Hr)%list_elem_of_fmap [Hk|[]%not_elem_of_nil]%elem_of_cons.
  assert (r ∈ filter (λ r, key r = key row) rows) as Hin by (by apply list_elem_of_filter).
  rewrite E in Hin. by apply not_elem_of_nil in Hin.
Qed.

Lemma unique_update k update rows :
  (∀ r, key (update r) = key r) → unique_key rows → unique_key (update_rows k update rows).
Proof.
  intros Hkey. unfold unique_key, update_rows. rewrite <- list_fmap_compose.
  intros Hn. rewrite (list_fmap_ext (key ∘ _) key rows); [done|]. intros i r _. simpl. by case_decide.
Qed.

Lemma unique_upsert row update rows :
  (∀ r, key (update r) = key r) → unique_key rows → unique_key (upsert_row row update rows).
Proof.
  intros Hkey Hn. unfold upsert_row. destruct (find_row (key row) rows) eqn:E; [by apply unique_update|].
  apply (unique_insert row rows); [|done]. unfold insert_row. by rewrite E.
Qed.

Lemma rows_with_unique k rows : unique_key rows → rows_with k rows = option_list (find_row k rows).
Proof.
  unfold find_row, rows_with, unique_key. intros Hn.
  destruct (filter (λ r, key r = k) rows) as [|r l] eqn:E; [done|]. simpl.
  destruct l as [|r' l]; [done|]. exfalso.
  assert (NoDup (key <$> filter (λ r, key r = k) rows)) as Hn'.
  { eapply sublist_NoDup; [exact Hn|]. apply fmap_sublist, sublist_filter. }
  assert (Forall (λ r, key r = k) (r :: r' :: l)) as Hall.
  { rewrite <- E. apply Forall_forall. by intros x [? _]%list_elem_of_filter. }
  rewrite E in Hn'. rewrite !Forall_cons in Hall. destruct Hall as (E1 & E2 & _).
  rewrite !fmap_cons, NoDup_cons in Hn'. apply Hn'. rewrite E1, <- E2. by left.
Qed.
End rows.

Section meaning.
(** [collate] is the weight string of the columns' collation: two texts are equal
    to the server when it agrees on them. [as_timestamp] is what a [TIMESTAMP]
    column keeps of an instant, [as_datetime] an instant as the driver writes it
    into a query. *)
Context (collate : string → string) (as_timestamp as_datetime : time → time).

#[local] Abbreviation same a b := (collate a = collate b).

(** Primary keys, as the server compares them. *)
Definition profile_key (r : gen.Profile) := collate (gen.Profile_ID r).
Definition roll_key (r : gen.GachaRoll) := collate (gen.GachaRoll_ID r).
Definition pity_key (r : gen.GachaPity) :=
  (collate (gen.GachaPity_PlayerID r), collate (gen.GachaPity_PoolID r)).
Definition event_key (r : gen.Event) := collate (gen.Event_ID r).
Definition score_key (r : gen.EventScore) :=
  (collate (gen.EventScore_EventID r), collate (gen.EventScore_PlayerID r)).
Definition reward_key (r : gen.EventReward) :=
  (collate (gen.EventReward_EventID r), gen.EventReward_Tier r).
Definition hp_key (r : gen.PlayerHP) := collate (gen.PlayerHP_PlayerID r).

Inductive effect :=
  | Applied (T : Tables)
  | Duplicate
  | OutOfRange.

Definition put {R} (set : list R → Tables → Tables) (T : Tables) (rows : option (list R)) : effect :=
  match rows with Some l => Applied (set l T) | None => Duplicate end.

(** The effect of a statement at the server's instant [now]. *)
Definition stmt_effect (now : time) (s : stmt) (T : Tables) : effect :=
  let now := as_timestamp now in
  match s with
  | createProfile id name created_at =>
      put set_profiles T
        (insert_row profile_key (gen.Build_Profile id name (as_timestamp created_at)) (t_profiles T))
  | insertRoll id player_id pool_id card_id rarity is_pity pulled_at =>
      put set_gacha_rolls T
        (insert_row roll_key
           (gen.Build_GachaRoll id player_id pool_id card_id rarity is_pity (as_timestamp pulled_at))
           (t_gacha_rolls T))
  | upsertPity player_id pool_id counter =>
      Applied (set_gacha_pity
        (upsert_row pity_key (gen.Build_GachaPity player_id pool_id counter now)
           (λ r, gen.Build_GachaPity (gen.GachaPity_PlayerID r) (gen.GachaPity_PoolID r) counter now)
           (t_gacha_pity T)) T)
  | createEvent id name start_at end_at =>
      put set_events T
        (insert_row event_key
           (gen.Build_Event id name (as_timestamp start_at) (as_timestamp end_at) now) (t_events T))
  | addEventScore event_id player_id points =>
      let new := gen.Build_EventScore event_id player_id points now in
      if bool_decide (in_int64 (from_option gen.EventScore_Points 0
                                  (find_row score_key (score_key new) (t_event_scores T)) + points))
      then
        Applied (set_event_scores
          (upsert_row score_key new
             (λ r, gen.Build_EventScore (gen.EventScore_EventID r) (gen.EventScore_PlayerID r)
                     (gen.EventScore_Points r + points) now)
             (t_event_scores T)) T)
      else OutOfRange
  | insertRewardTier event_id tier min_points reward_name =>
      put set_event_rewards T
        (insert_row reward_key (gen.Build_EventReward event_id tier min_points reward_name)
           (t_event_rewards T))
  | insertHP player_id hp =>
      if bool_decide (- int32_half <= hp < int32_half) then
        put set_player_hp T
          (insert_row hp_key (gen.Build_PlayerHP player_id hp now) (t_player_hp T))
      else OutOfRange
  | updateHP hp player_id =>
      if bool_decide (- int32_half <= hp < int32_half) then
        Applied (set_player_hp
          (update_rows hp_key (collate player_id)
             (λ r, gen.Build_PlayerHP (gen.PlayerHP_PlayerID r) hp now) (t_player_hp T)) T)
      else OutOfRange
  | upsertHP player_id hp =>
      if bool_decide (- int32_half <= hp < int32_half) then
        Applied (set_player_hp
          (upsert_row hp_key (gen.Build_PlayerHP player_id hp now)
             (λ r, gen.Build_PlayerHP (gen.PlayerHP_PlayerID r) hp now) (t_player_hp T)) T)
      else OutOfRange
  end.

(** [rows] is an answer to [SELECT ... ORDER BY]: the order among rows that the
    sort key does not separate is open. *)
Definition ordered_by {R} (before : R → R → Prop) (source rows : list R) : Prop :=
  rows ≡ₚ source ∧ StronglySorted before rows.

(** The rows a query may deliver. *)
Definition select {R} (q : query R) (T : Tables) : list R → Prop :=
  match q with
  | getProfile id => λ rows, rows = rows_with profile_key (collate id) (t_profiles T)
  | getPity player_id pool_id => λ rows,
      rows = gen.GachaPity_Counter <$>
               rows_with pity_key (collate player_id, collate pool_id) (t_gacha_pity T)
  | listRollsByPlayer player_id limit => λ rows,
      0 <= limit ∧ ∃ all,
        ordered_by (λ a b, gen.GachaRoll_PulledAt b <= gen.GachaRoll_PulledAt a)
          (filter (λ r, same (gen.GachaRoll_PlayerID r) player_id) (t_gacha_rolls T)) all ∧
        rows = take (Z.to_nat limit) all
  | getEvent id => λ rows, rows = rows_with event_key (collate id) (t_events T)
  | listCurrentEvents start_at end_at => λ rows,
      ordered_by (λ a b, gen.Event_EndAt a <= gen.Event_EndAt b)
        (filter (λ r, gen.Event_StartAt r <= as_datetime start_at ∧ as_datetime end_at <= gen.Event_EndAt r)
           (t_events T)) rows
  | getEventScore event_id player_id => λ rows,
      rows = rows_with score_key (collate event_id, collate player_id) (t_event_scores T)
  | listRewardTiers event_id => λ rows,
      ordered_by (λ a b, gen.EventReward_Tier a <= gen.EventReward_Tier b)
        (filter (λ r, same (gen.EventReward_EventID r) event_id) (t_event_rewards T)) rows
  | selectHPForUpdate player_id => λ rows,
      rows = gen.PlayerHP_HP <$> rows_with hp_key (collate player_id) (t_player_hp T)
  | selectHP player_id => λ rows, rows = rows_with hp_key (collate player_id) (t_player_hp T)
  end.
End meaning.

Arguments profile_key _ !_ /.
Arguments roll_key _ !_ /.
Arguments pity_key _ !_ /.
Arguments event_key _ !_ /.
Arguments score_key _ !_ /.
Arguments reward_key _ !_ /.
Arguments hp_key _ !_ /.

(** ** The server *)

(** [*sql.DB] and its transactions. *)
Class MySQL (D Tx : Type) := {
  db_DBTX :: DBTX D;
  tx_DBTX :: DBTX Tx;
  BeginTx : M D Tx;
  Commit : Tx → M D unit;
  Rollback : Tx → D → D }.

Definition mysqlErrDuplicateEntry : Z := 1062.

(** What the driver and the server document. [tables] is what is committed,
    [view] what a transaction sees, [base] what was committed when it began. *)
Class MySQLLaws (D Tx : Type) `{!MySQL D Tx} := {
  collate : string → string;
  as_timestamp : time → time;
  as_datetime : time → time;
  as_timestamp_near : ∀ t, Z.abs (as_timestamp t - t) < Second;
  as_timestamp_mono : ∀ t u, t <= u → as_timestamp t <= as_timestamp u;
  as_datetime_near : ∀ t, Z.abs (as_datetime t - t) < Second;
  tables : D → Tables;
  view : Tx → Tables;
  base : Tx → Tables;
  db_exec : ∀ s d r d', ExecContext (C:=D) s d = (r, d') →
    match r with
    | Ok _ => ∃ now, stmt_effect collate as_timestamp now s (tables d) = Applied (tables d')
    | Err e =>
        if decide (errors_As_MySQL e = Some mysqlErrDuplicateEntry)
        then tables d' = tables d ∧ ∃ now, stmt_effect collate as_timestamp now s (tables d) = Duplicate
        else tables d' = tables d ∨
             ∃ now, stmt_effect collate as_timestamp now s (tables d) = Applied (tables d')
    | Panic _ => False
    end;
  db_query : ∀ R (q : query R) d r d', QueryContext (C:=D) q d = (r, d') →
    tables d' = tables d ∧
    match r with
    | Ok rows => select collate as_datetime q (tables d) rows
    | Err e => errors_Is e sql_ErrNoRows = false
    | Panic _ => False
    end;
  tx_begin : ∀ d r d', BeginTx d = (r, d') →
    tables d' = tables d ∧
    match r with
    | Ok tx => view tx = tables d ∧ base tx = tables d
    | Err _ => True
    | Panic _ => False
    end;
  tx_exec : ∀ s tx r tx', ExecContext (C:=Tx) s tx = (r, tx') →
    base tx' = base tx ∧
    match r with
    | Ok _ => ∃ now, stmt_effect collate as_timestamp now s (view tx) = Applied (view tx')
    | Err _ => True
    | Panic _ => False
    end;
  tx_query : ∀ R (q : query R) tx r tx', QueryContext (C:=Tx) q tx = (r, tx') →
    base tx' = base tx ∧
    match r with
    | Ok rows => view tx' = view tx ∧ select collate as_datetime q (view tx) rows
    | Err e => errors_Is e sql_ErrNoRows = false
    | Panic _ => False
    end;
  tx_commit : ∀ tx d r d', Commit tx d = (r, d') → base tx = tables d →
    match r with
    | Ok _ => tables d' = view tx
    | Err _ => tables d' = tables d ∨ tables d' = view tx
    | Panic _ => False
    end;
  tx_rollback : ∀ tx d, tables (Rollback tx d) = tables d }.

(** ** Transactions *)

(** [tx, err := db.BeginTx(ctx, nil)], [defer tx.Rollback()], the body on [tx],
    [tx.Commit()]. A rollback after a commit, failed or not, does nothing. *)
Definition InTx {D Tx A} `{!MySQL D Tx} (body : M Tx A) : M D A := λ d,
  match wrapErr "begin tx" BeginTx d with
  | (Err e, d1) => (Err e, d1)
  | (Panic w, d1) => (Panic w, d1)
  | (Ok tx, d1) =>
      match body tx with
      | (Err e, tx') => (Err e, Rollback tx' d1)
      | (Panic w, tx') => (Panic w, Rollback tx' d1)
      | (Ok a, tx') =>
          match wrapErr "commit" (Commit tx') d1 with
          | (Ok _, d2) => (Ok a, d2)
          | (Err e, d2) => (Err e, d2)
          | (Panic w, d2) => (Panic w, d2)
          end
      end
  end.

Section facts.
Context {D Tx : Type} `{!MySQL D Tx, !MySQLLaws D Tx}.

(** A call on a transaction leaves the base alone and does not panic. *)
Definition tx_call {A} (m : M Tx A) : Prop :=
  ∀ tx, base (m tx).2 = base tx ∧ no_panic (m tx).1.

Lemma tx_call_exec s : tx_call (ExecContext s).
Proof.
  intros tx. destruct (ExecContext s tx) as [r tx'] eqn:E. apply tx_exec in E as [Hb Hr].
  split; [done|by destruct r].
Qed.

Lemma tx_call_query {R} (q : query R) : tx_call (QueryContext q).
Proof.
  intros tx. destruct (QueryContext q tx) as [r tx'] eqn:E. apply tx_query in E as [Hb Hr].
  split; [done|by destruct r].
Qed.

Lemma tx_call_ret {A} (a : A) : tx_call (mret a).
Proof. done. Qed.

Lemma tx_call_fail {A} e : tx_call (fail (A:=A) e).
Proof. done. Qed.

Lemma tx_call_bind {A B} (m : M Tx A) (f : A → M Tx B) :
  tx_call m → (∀ a, tx_call (f a)) → tx_call (m ≫= f).
Proof.
  intros Hm Hf tx. rewrite M_bind_eq. destruct (Hm tx) as [Hb Hp].
  destruct (m tx) as [[a|e|w] tx'] eqn:E; simpl in *; [|done..].
  destruct (Hf a tx') as [Hb' Hp']. by rewrite Hb', Hb.
Qed.

Lemma tx_call_wrapErr {A} prefix (m : M Tx A) : tx_call m → tx_call (wrapErr prefix m).
Proof.
  intros Hm tx. destruct (Hm tx) as [Hb Hp]. unfold wrapErr. by destruct (m tx) as [[a|e|w] tx'].
Qed.

(** A transaction takes effect as a whole, and does when it answers; it may have
    when the commit fails; it never panics. *)
Lemma InTx_inv {A} (body : M Tx A) d r d' :
  tx_call body → InTx body d = (r, d') →
  (tables d' = tables d ∧ ∃ e, r = Err e) ∨
  ∃ tx a tx', view tx = tables d ∧ body tx = (Ok a, tx') ∧ tables d' = view tx' ∧
    (r = Ok a ∨ ∃ e, r = Err e).
Proof.
  intros Hbody. unfold InTx, wrapErr.
  destruct (BeginTx d) as [[tx|e|w] d1] eqn:Hb; apply tx_begin in Hb as [Ht Hb]; [| |done].
  2:{ intros [= <- <-]. left. eauto. }
  destruct Hb as [Hv Hbase]. destruct (Hbody tx) as [Hkeep Hp].
  destruct (body tx) as [[a|e|w] tx'] eqn:E; simpl in *; [| |done].
  2:{ intros [= <- <-]. left. rewrite tx_rollback. eauto. }
  destruct (Commit tx' d1) as [[[]|e|w] d2] eqn:Hc; apply tx_commit in Hc; try congruence;
    try (by destruct Hc); intros [= <- <-].
  - right. exists tx, a, tx'. eauto.
  - destruct Hc as [Hc|Hc]; [left; split; [congruence|eauto]|right; exists tx, a, tx'; split_and!; eauto].
Qed.

(** Rows are only read. *)
Lemma QueryRow_inv {R} (q : query R) d r d' :
  QueryRowContext q d = (r, d') →
  tables d' = tables d ∧
  match r with
  | Ok row => ∃ rows, select collate as_datetime q (tables d) (row :: rows)
  | Err e => if decide (errors_Is e sql_ErrNoRows = true)
             then select collate as_datetime q (tables d) [] else True
  | Panic _ => False
  end.
Proof.
  unfold QueryRowContext. rewrite M_bind_eq.
  destruct (QueryContext q d) as [[rows|e|w] d1] eqn:E; apply db_query in E as [Ht Hs].
  - destruct rows as [|row rows]; intros [= <- <-]; (split; [done|]); [|by exists rows].
    by rewrite decide_True by done.
  - intros [= <- <-]. split; [done|]. by rewrite decide_False by congruence.
  - done.
Qed.
End facts.

#[export] Hint Resolve tx_call_exec tx_call_query tx_call_ret tx_call_fail tx_call_bind
  tx_call_wrapErr : go.

(** ** A reference server *)

Record RefDB := { ref_tables : Tables; ref_faults : list fault }.

Definition ref_collate (s : string) : string := string_lower s.
Definition ref_as_timestamp (t : time) : time := (t + Second / 2) / Second * Second.
Definition ref_as_datetime (t : time) : time := t / 1000 * 1000.

Section ref_sorted.
Context {R : Type} (key : R → Z).

Definition key_le (a b : R) : Prop := key a <= key b.
#[local] Instance key_le_dec a b : Decision (key_le a b) := decide (key a <= key b).
#[local] Instance key_le_total : Total key_le.
Proof. intros a b. unfold key_le. lia. Qed.
#[local] Instance key_le_trans : Transitive key_le.
Proof. intros a b c. unfold key_le. lia. Qed.

Definition ref_order (l : list R) : list R := merge_sort key_le l.

Lemma ref_order_ok (before : R → R → Prop) l :
  (∀ a b, key a <= key b → before a b) → ordered_by before l (ref_order l).
Proof.
  intros Hb. split; [apply merge_sort_Permutation|].
  apply (StronglySorted_impl key_le); [apply Hb|]. apply (StronglySorted_merge_sort key_le).
Qed.
End ref_sorted.

Definition ref_select {R} (q : query R) (T : Tables) : option (list R) :=
  match q in query R return option (list R) with
  | getProfile id => Some (rows_with (profile_key ref_collate) (ref_collate id) (t_profiles T))
  | getPity p q => Some (gen.GachaPity_Counter <$>
      rows_with (pity_key ref_collate) (ref_collate p, ref_collate q) (t_gacha_pity T))
  | listRollsByPlayer p limit =>
      if 0 <=? limit then
        Some (take (Z.to_nat limit) (ref_order (λ r, - gen.GachaRoll_PulledAt r)
          (filter (λ r, ref_collate (gen.GachaRoll_PlayerID r) = ref_collate p) (t_gacha_rolls T))))
      else None
  | getEvent id => Some (rows_with (event_key ref_collate) (ref_collate id) (t_events T))
  | listCurrentEvents s e =>
      Some (ref_order gen.Event_EndAt
        (filter (λ r, gen.Event_StartAt r <= ref_as_datetime s ∧ ref_as_datetime e <= gen.Event_EndAt r)
           (t_events T)))
  | getEventScore e p =>
      Some (rows_with (score_key ref_collate) (ref_collate e, ref_collate p) (t_event_scores T))
  | listRewardTiers e =>
      Some (ref_order gen.EventReward_Tier
        (filter (λ r, ref_collate (gen.EventReward_EventID r) = ref_collate e) (t_event_rewards T)))
  | selectHPForUpdate p => Some (gen.PlayerHP_HP <$>
      rows_with (hp_key ref_collate) (ref_collate p) (t_player_hp T))
  | selectHP p => Some (rows_with (hp_key ref_collate) (ref_collate p) (t_player_hp T))
  end.

Lemma ref_select_ok {R} (q : query R) T rows :
  ref_select q T = Some rows → select ref_collate ref_as_datetime q T rows.
Proof.
  destruct q; cbn [ref_select select]; try by intros [= <-].
  - destruct (Z.leb_spec 0 limit); [|done]. intros [= <-]. split; [done|].
    eexists. split; [|done]. apply ref_order_ok. lia.
  - intros [= <-]. by apply ref_order_ok.
  - intros [= <-]. by apply ref_order_ok.
Qed.

Definition bad_connection : error := ErrorsNew "driver.ErrBadConn" "driver: bad connection".

(** The outcome of a statement on the tables. *)
Definition ref_effect (s : stmt) (T : Tables) : result unit * Tables :=
  match stmt_effect ref_collate ref_as_timestamp 0 s T with
  | Applied T' => (Ok tt, T')
  | Duplicate => (Err (ErrMySQL mysqlErrDuplicateEntry "Duplicate entry"), T)
  | OutOfRange => (Err (ErrMySQL 1264 "Out of range value"), T)
  end.

Definition ref_query {R} (q : query R) (T : Tables) : result (list R) :=
  match ref_select q T with
  | Some rows => Ok rows
  | None => Err (ErrMySQL 1064 "You have an error in your SQL syntax")
  end.

(** The next fault, and the database without it. *)
Definition next_fault (d : RefDB) : fault * RefDB :=
  (hd NoFault (ref_faults d), {| ref_tables := ref_tables d; ref_faults := tail (ref_faults d) |}).

Definition with_tables (T : Tables) (d : RefDB) : RefDB :=
  {| ref_tables := T; ref_faults := ref_faults d |}.

#[export] Instance ref_DBTX : DBTX RefDB := {|
  ExecContext s d :=
    let '(f, d) := next_fault d in
    let '(r, T') := ref_effect s (ref_tables d) in
    match f with
    | NoFault => (r, with_tables T' d)
    | Refused => (Err bad_connection, d)
    | LostReply => (Err bad_connection, with_tables T' d)
    end;
  QueryContext R q d := (ref_query q (ref_tables d), d) |}.

(** A transaction: the tables when it began, the tables it sees. *)
#[export] Instance ref_tx_DBTX : DBTX (Tables * Tables) := {|
  ExecContext s '(b, T) := let '(r, T') := ref_effect s T in (r, (b, T'));
  QueryContext R q '(b, T) := (ref_query q T, (b, T)) |}.

#[export] Instance ref_MySQL : MySQL RefDB (Tables * Tables) := {|
  BeginTx d :=
    let '(f, d) := next_fault d in
    match f with
    | NoFault => (Ok (ref_tables d, ref_tables d), d)
    | _ => (Err bad_connection, d)
    end;
  Commit '(_, T) d :=
    let '(f, d) := next_fault d in
    match f with
    | NoFault => (Ok tt, with_tables T d)
    | Refused => (Err bad_connection, d)
    | LostReply => (Err bad_connection, with_tables T d)
    end;
  Rollback _ d := d |}.

Lemma ref_query_ok {R} (q : query R) T :
  match ref_query q T with
  | Ok rows => select ref_collate ref_as_datetime q T rows
  | Err e => errors_Is e sql_ErrNoRows = false
  | Panic _ => False
  end.
Proof.
  unfold ref_query. destruct (ref_select q T) eqn:E; [by apply ref_select_ok|done].
Qed.

#[export] Program Instance ref_MySQLLaws : MySQLLaws RefDB (Tables * Tables) := {|
  collate := ref_collate;
  as_timestamp := ref_as_timestamp;
  as_datetime := ref_as_datetime;
  tables := ref_tables;
  view := snd;
  base := fst |}.
Next Obligation.
  intros t. unfold ref_as_timestamp. pose proof (Z.div_mod (t + Second / 2) Second).
  pose proof (Z.mod_pos_bound (t + Second / 2) Second). unfold Second in *.
  change (1000000000 / 2) with 500000000 in *. lia.
Qed.
Next Obligation.
  intros t u Htu. unfold ref_as_timestamp, Second.
  apply Z.mul_le_mono_nonneg_r; [lia|]. apply Z.div_le_mono; lia.
Qed.
Next Obligation.
  intros t. unfold ref_as_datetime, Second. pose proof (Z.div_mod t 1000).
  pose proof (Z.mod_pos_bound t 1000). lia.
Qed.
Next Obligation.
  intros s [T fs] r d'. simpl. unfold ref_effect.
  destruct (stmt_effect _ _ 0 s T) eqn:E; destruct (hd NoFault fs); intros [= <- <-]; simpl; eauto.
Qed.
Next Obligation.
  intros R q [T fs] r d' [= <- <-]. split; [done|]. apply ref_query_ok.
Qed.
Next Obligation. intros [T fs] r d'. simpl. by destruct (hd NoFault fs); intros [= <- <-]. Qed.
Next Obligation.
  intros s [b T] r tx'. simpl. unfold ref_effect.
  destruct (stmt_effect _ _ 0 s T) eqn:E; intros [= <- <-]; simpl; eauto.
Qed.
Next Obligation.
  intros R q [b T] r tx' [= <- <-]. split; [done|]. pose proof (ref_query_ok q T).
  by destruct (ref_query q T).
Qed.
Next Obligation.
  intros [b T] [T0 fs] r d'. simpl. destruct (hd NoFault fs); intros [= <- <-]; simpl; auto.
Qed.
Next Obligation. done. Qed.
