(* ===== verification/SqlGacha.v ===== *)
(** * Rolls and counters in MySQL

    Models [internal/persistence/mysql/gacha_repo.go] over the database of
    [Sql], and shows that it is a ledger in the sense of [GachaService]: the
    theorems on rolling proved there from the laws hold for it. *)

From S2P Require Import GoLang Gacha GachaService Sql.
#[local] Open Scope Z_scope.

Section repository.
Context {D Tx : Type} `{!MySQL D Tx}.

Definition SqlGachaRepo_GetPity (playerID poolID : string) : M D Z := λ d,
  match Queries_GetPity playerID poolID d with
  | (Err e, d') =>
      if errors_Is e sql_ErrNoRows then (Ok 0, d')
      else (Err (Errorf_w "queries.GetPity" e), d')
  | r => r
  end.

(** The loop over the rolls. *)
Fixpoint insert_rolls (rolls : list Roll) : M Tx unit :=
  match rolls with
  | [] => mret tt
  | roll :: rolls' =>
      wrapErr ("insert roll " +:+ Roll_ID roll)
        (Queries_InsertRoll (Roll_ID roll) (Roll_PlayerID roll) (Roll_PoolID roll) (Roll_CardID roll)
           (Roll_Rarity roll) (Roll_IsPity roll) (Roll_PulledAt roll));;
      insert_rolls rolls'
  end.

Definition SqlGachaRepo_InsertRollsAndUpdatePity (rolls : list Roll) (playerID poolID : string)
    (newCounter : Z) : M D unit :=
  InTx (insert_rolls rolls;;
        wrapErr "upsert pity" (Queries_UpsertPity playerID poolID (int32_wrap newCounter))).

(** A row as a roll of the domain. *)
Definition to_roll (row : gen.GachaRoll) : Roll := {|
  Roll_ID := gen.GachaRoll_ID row; Roll_PlayerID := gen.GachaRoll_PlayerID row;
  Roll_PoolID := gen.GachaRoll_PoolID row; Roll_CardID := gen.GachaRoll_CardID row;
  Roll_Rarity := gen.GachaRoll_Rarity row; Roll_IsPity := gen.GachaRoll_IsPity row;
  Roll_PulledAt := gen.GachaRoll_PulledAt row |}.

Definition SqlGachaRepo_ListRollsByPlayer (playerID : string) (limit : Z) : M D (list Roll) :=
  rows ← wrapErr "queries.ListRollsByPlayer"
           (Queries_ListRollsByPlayer playerID (int32_wrap limit));
  mret (to_roll <$> rows).
End repository.

#[export] Instance mysql_GachaRepository `{!MySQL D Tx} : GachaRepository D := {|
  GetPity := SqlGachaRepo_GetPity;
  InsertRollsAndUpdatePity := SqlGachaRepo_InsertRollsAndUpdatePity;
  ListRollsByPlayer := SqlGachaRepo_ListRollsByPlayer |}.

(** ** The ledger it is *)

Section ledger.
Context {D Tx : Type} `{!MySQL D Tx, !MySQLLaws D Tx}.

(** What a roll reads as after it was written. *)
Definition rounded (r : Roll) : Roll := {|
  Roll_ID := Roll_ID r; Roll_PlayerID := Roll_PlayerID r; Roll_PoolID := Roll_PoolID r;
  Roll_CardID := Roll_CardID r; Roll_Rarity := Roll_Rarity r; Roll_IsPity := Roll_IsPity r;
  Roll_PulledAt := as_timestamp (Roll_PulledAt r) |}.

(** The counter of the row with the key. *)
Definition counter_in (p q : string) (rows : list gen.GachaPity) : Z :=
  from_option gen.GachaPity_Counter 0 (find_row (pity_key collate) (collate p, collate q) rows).

#[export] Instance mysql_GachaStore : GachaStore D := {|
  rolls_of d := to_roll <$> t_gacha_rolls (tables d);
  pity_of d p q := counter_in p q (t_gacha_pity (tables d));
  canon := collate;
  stored := rounded;
  counter_max := int32_half |}.

Lemma tables_unchanged (d d' : D) : tables d' = tables d → unchanged d d'.
Proof. unfold unchanged. simpl. by intros ->. Qed.

(** *** Reading *)

Lemma SqlGetPity_inv p q d r d' :
  SqlGachaRepo_GetPity p q d = (r, d') →
  tables d' = tables d ∧ no_panic r ∧ ∀ v, r = Ok v → v = pity_of d p q.
Proof.
  unfold SqlGachaRepo_GetPity, Queries_GetPity.
  destruct (QueryRowContext _ d) as [[v|e|w] d1] eqn:E; apply QueryRow_inv in E as [Ht Hr]; [| |done].
  - intros [= <- <-]. destruct Hr as [rows Hr]. split_and!; [done|done|]. intros ? [= <-].
    simpl in *. unfold counter_in, find_row. by destruct (rows_with _ _ _); simplify_eq/=.
  - destruct (errors_Is e sql_ErrNoRows); intros [= <- <-]; (split_and!; [done|done|]); [|done].
    intros ? [= <-]. rewrite decide_True in Hr by done. simpl in *. unfold counter_in, find_row.
    by destruct (rows_with _ _ _).
Qed.

Lemma SqlListRolls_inv p n d r d' :
  SqlGachaRepo_ListRollsByPlayer p n d = (r, d') →
  tables d' = tables d ∧ no_panic r ∧
  ∀ l, r = Ok l → 0 <= int32_wrap n ∧ ∃ all,
    all ≡ₚ filter (λ r, collate (Roll_PlayerID r) = collate p) (rolls_of d) ∧
    StronglySorted (λ a b, Roll_PulledAt b <= Roll_PulledAt a) all ∧
    l = take (Z.to_nat (int32_wrap n)) all.
Proof.
  unfold SqlGachaRepo_ListRollsByPlayer, Queries_ListRollsByPlayer. rewrite M_bind_eq. unfold wrapErr.
  destruct (QueryContext _ d) as [[rows|e|w] d1] eqn:E; apply db_query in E as [Ht Hs]; [| |done];
    intros [= <- <-]; (split_and!; [done|done|]); [|done].
  intros l [= <-]. destruct Hs as (Hn & all & [Hperm Hsort] & ->). split; [done|].
  exists (to_roll <$> all). split_and!.
  - rewrite Hperm. simpl. clear Hperm. induction (t_gacha_rolls (tables d)) as [|row l IH]; [done|].
    rewrite fmap_cons, !filter_cons. simpl. repeat case_decide; try done. rewrite fmap_cons. by f_equiv.
  - clear Hperm. induction Hsort as [|row l _ IH Hrow]; [constructor|]. simpl. constructor; [done|].
    apply Forall_fmap. by apply (Forall_impl _ _ _ Hrow).
  - by rewrite fmap_take.
Qed.

(** *** Writing *)

(** The row a roll is written as. *)
Definition roll_row (r : Roll) : gen.GachaRoll :=
  gen.Build_GachaRoll (Roll_ID r) (Roll_PlayerID r) (Roll_PoolID r) (Roll_CardID r) (Roll_Rarity r)
    (Roll_IsPity r) (as_timestamp (Roll_PulledAt r)).

Lemma tx_call_insert_rolls rolls : tx_call (insert_rolls rolls).
Proof. induction rolls; unfold insert_rolls, Queries_InsertRoll; fold insert_rolls; eauto 6 with go. Qed.

Lemma insert_rolls_view rolls tx tx' :
  insert_rolls rolls tx = (Ok tt, tx') →
  view tx' = set_gacha_rolls (t_gacha_rolls (view tx) ++ (roll_row <$> rolls)) (view tx).
Proof.
  revert tx. induction rolls as [|r rolls IH]; intros tx.
  { intros [= <-]. simpl. rewrite app_nil_r. by destruct (view tx). }
  cbn [insert_rolls]. intros ([] & tx1 & Hr%wrapErr_Ok_inv & Hrest)%M_bind_Ok_inv.
  apply tx_exec in Hr as [_ [now Hr]]. apply IH in Hrest as ->.
  unfold stmt_effect, put, insert_row in Hr. destruct (find_row _ _ _); [done|].
  injection Hr as <-. simpl. by rewrite <- app_assoc.
Qed.

(** The transaction leaves the tables as they were or writes everything, and
    writes everything when it succeeds. *)
Lemma SqlInsert_inv rolls p q n d r d' :
  0 <= n < int32_half →
  SqlGachaRepo_InsertRollsAndUpdatePity rolls p q n d = (r, d') →
  no_panic r ∧ ((r ≠ Ok tt ∧ unchanged d d') ∨ inserted rolls p q n d d').
Proof.
  intros Hn Hrun. apply InTx_inv in Hrun as
    [[Ht [e ->]]|(tx & [] & tx' & Hv & Hbody & Ht & Hr)].
  - split; [done|]. left. split; [done|by apply tables_unchanged].
  - split; [by destruct Hr as [->|[e ->]]|]. right.
    apply M_bind_Ok_inv in Hbody as ([] & tx1 & Hrolls%insert_rolls_view & Hpity%wrapErr_Ok_inv).
    apply tx_exec in Hpity as [_ [now Hpity]]. rewrite Hrolls, Hv in Hpity.
    rewrite int32_wrap_small in Hpity by (unfold int32_half in *; lia).
    cbn [stmt_effect] in Hpity. injection Hpity as Hpity. rewrite <- Ht in Hpity.
    unfold inserted. simpl. rewrite <- Hpity. simpl. split_and!.
    + by rewrite fmap_app, <- !list_fmap_compose.
    + unfold counter_in. rewrite find_row_upsert, decide_True by done. simpl. by destruct (find_row _ _ _).
    + intros p' q' _ _ Hne. unfold counter_in. by rewrite find_row_upsert, decide_False.
  - unfold Queries_UpsertPity. eauto using tx_call_insert_rolls with go.
Qed.

#[export] Instance mysql_GachaLedger : GachaLedger D.
Proof.
  split.
  - done.
  - intros d p q p' q' E1 E2. simpl in *. unfold counter_in. by rewrite E1, E2.
  - intros p q d. destruct (GetPity p q d) as [r d'] eqn:E. apply SqlGetPity_inv in E as [Ht _].
    by apply tables_unchanged.
  - intros p q d v d' E. by eapply SqlGetPity_inv.
  - intros p n d. destruct (ListRollsByPlayer p n d) as [r d'] eqn:E.
    apply SqlListRolls_inv in E as [Ht _]. by apply tables_unchanged.
  - intros rolls p q n d d' Hn E. apply SqlInsert_inv in E as [_ [[Hne _]|?]]; [by destruct Hne|done|done].
  - intros rolls p q n d d' r Hn E Hne. apply SqlInsert_inv in E as [_ [[_ ?]|?]]; [by left|by right|done].
Qed.
End ledger.

(** ** Properties *)

Section properties.
Context {D Tx : Type} `{!MySQL D Tx, !MySQLLaws D Tx}.

(** Writing the rolls of a call and the new counter is atomic on MySQL. A call
    that succeeds appends every roll, as the columns keep it, and sets the one
    counter; a call that fails, at whichever statement, has changed nothing or
    (when the reply to the commit was lost) everything. It never panics. *)
Theorem SqlInsert_atomic (rolls : list Roll) (p q : string) (n : Z) (d d' : D) (r : result unit)
    (Hn : 0 <= n < int32_half)
    (Hrun : SqlGachaRepo_InsertRollsAndUpdatePity rolls p q n d = (r, d')) :
  no_panic r ∧
  (r = Ok tt → inserted rolls p q n d d') ∧
  (r ≠ Ok tt → unchanged d d' ∨ inserted rolls p q n d d').
Proof.
  apply SqlInsert_inv in Hrun as [Hp Hcase]; [|done].
  split; [done|]. split; intros Hr; destruct Hcase as [[Hne ?]|?]; auto. by destruct Hne.
Qed.

(** C40. A roll call on MySQL is all or nothing. After any calls, with statements, commits and
    replies failing in any way, a call leaves the rolls and the counters of the database as
    they were, and then it returns an error or panics; or the database has exactly the rolls
    of this call more, as many as were asked for, drawn from the pool and recorded for the
    player at this time, the counter of the player on the pool is the number of rolls
    since the last SSR, these included, and the other counters, of pools whose identifiers
    have no slash, are as before. Then the call returns the rolls, or the error of the write,
    whose commit was applied without a reply. *)
Theorem SqlRoll_all_or_nothing {G U : Type} (IntN : RandIntN G) (NewV7 : M U string)
    (GetPool : string → result Pool) (w w' : D * (G * U)) (now : time) (p q : string) (n : Z) (r : result (list Roll))
    (HIntN : IntN_in_range IntN) (Hreg : registry_ok (S:=D) GetPool)
    (Hreach : gacha_reachable IntN NewV7 GetPool w)
    (HRoll : GachaService_Roll IntN NewV7 GetPool now p q n w = (r, w')) :
  (unchanged w.1 w'.1 ∧ ∀ rolls, r ≠ Ok rolls) ∨
  ∃ pool rolls, 1 <= n <= 10 ∧ GetPool q = Ok pool ∧ Z.of_nat (length rolls) = n ∧
    Forall (recorded pool p q now) rolls ∧
    inserted rolls p q (drought (history collate p q (rolls_of w.1 ++ (rounded <$> rolls)))) w.1 w'.1 ∧
    (r = Ok rolls ∨ ∃ e, r = Err (Errorf_w "repo.InsertRollsAndUpdatePity" e)).
Proof.
  destruct w as [d gu], w' as [d' gu'].
  pose proof (reachable_pity_inv IntN NewV7 GetPool _ HIntN Hreg Hreach) as Hinv. cbn [fst] in *.
  pose proof (pity_inv_roll IntN NewV7 GetPool _ _ _ _ _ _ _ _ _ HIntN Hreg Hinv HRoll) as [Hinv' _].
  destruct (Roll_splits IntN NewV7 GetPool _ _ _ _ _ _ _ _ _ HIntN Hreg Hinv HRoll)
    as [?|(pool & rolls & pity' & Hn & Hpool & Hlen & Hall & Hins & Hmax & Hr)]; [by left|]. right.
  exists pool, rolls. split; [done|]. split; [done|]. split; [done|]. split; [done|].
  destruct (Hinv' p q pool Hpool) as (Hpity & _). pose proof Hins as (Hrolls & Hset & Hothers).
  rewrite Hset in Hpity. rewrite Hrolls in Hpity. split.
  - split; [done|]. split; [exact (eq_trans Hset Hpity)|done].
  - destruct Hr as [->|(r0 & d1 & Hrun & Hr)]; [by left|right].
    destruct r0 as [[]|e|x]; [done|by eexists|]. by apply SqlInsert_inv in Hrun as [[] _].
Qed.

(** C14. The pity ceiling on MySQL. After any sequence of calls of the service,
    with statements, commits and replies failing in any way, the committed
    counter of a player on a pool is the number of committed rolls since the last
    SSR, it is below the threshold, and any [PityThreshold] consecutive rolls
    contain an SSR. A player is whoever the collation takes for the same. *)
Theorem SqlGacha_pity {G U : Type} (IntN : RandIntN G) (NewV7 : M U string)
    (GetPool : string → result Pool) (w : D * (G * U)) (p q : string) (pool : Pool)
    (HIntN : IntN_in_range IntN) (Hreg : registry_ok (S:=D) GetPool)
    (Hreach : gacha_reachable IntN NewV7 GetPool w) (Hpool : GetPool q = Ok pool) :
  let h := filter (λ r, collate (Roll_PlayerID r) = collate p ∧ collate (Roll_PoolID r) = collate q)
             (to_roll <$> t_gacha_rolls (tables w.1)) in
  from_option gen.GachaPity_Counter 0
    (find_row (pity_key collate) (collate p, collate q) (t_gacha_pity (tables w.1))) = drought h ∧
  drought h < PityThreshold pool ∧
  ∀ before window after, h = before ++ window ++ after →
    Z.of_nat (length window) = PityThreshold pool → ∃ r, r ∈ window ∧ Roll_Rarity r = RaritySSR.
Proof.
  destruct (reachable_pity_inv IntN NewV7 GetPool w HIntN Hreg Hreach p q pool Hpool)
    as (Hpity & Hceil & Hlt).
  split_and!; [exact Hpity|exact Hlt|]. intros before window after Heq Hlen.
  eapply ceiling_ok_window; [exact Hceil|exact Heq| |done].
  eapply Z.le_lt_trans; [apply drought_nonneg|exact Hlt].
Qed.

(** The history on MySQL: at most the limit (10 below 1, 100 above 100), only
    rolls of the player, newest first, and no roll of the player that is left
    out is newer than one that is listed. Among rolls of one second, such as those
    of a ten-roll, the order and the choice are open. *)
Theorem SqlListHistory_spec {G U : Type} (p : string) (limit : Z) (l : list Roll) (w w' : D * (G * U))
    (HL : GachaService_ListHistory p limit w = (Ok l, w')) :
  let n := if limit <? 1 then 10 else Z.min limit 100 in
  tables w'.1 = tables w.1 ∧
  Z.of_nat (length l) <= n ∧
  ∃ rest, l ++ rest ≡ₚ filter (λ r, collate (Roll_PlayerID r) = collate p) (rolls_of w.1) ∧
    StronglySorted (λ a b, Roll_PulledAt b <= Roll_PulledAt a) l ∧
    Forall (λ a, Forall (λ b, Roll_PulledAt b <= Roll_PulledAt a) rest) l ∧
    (rest ≠ [] → Z.of_nat (length l) = n).
Proof.
  destruct w as [d gu]. intros n. unfold GachaService_ListHistory in HL. simpl in HL.
  replace (if 100 <? (if limit <? 1 then 10 else limit) then 100
           else if limit <? 1 then 10 else limit) with n in HL
    by (unfold n; destruct (Z.ltb_spec limit 1); [done|]; destruct (Z.ltb_spec 100 limit); lia).
  assert (1 <= n <= 100) as Hn by (unfold n; destruct (Z.ltb_spec limit 1); lia).
  destruct (wrapErr _ _ d) as [r d1] eqn:Hw. injection HL as -> <-.
  apply wrapErr_Ok_inv, SqlListRolls_inv in Hw as (Ht & _ & Hl).
  destruct (Hl l eq_refl) as (_ & all & Hperm & Hsort & ->).
  rewrite int32_wrap_small by (unfold int32_half; lia).
  split; [done|]. split; [rewrite length_take; lia|].
  exists (drop (Z.to_nat n) all). rewrite <- (take_drop (Z.to_nat n) all) in Hsort.
  apply StronglySorted_app in Hsort as (Hcross & Hl1 & _). split_and!.
  - by rewrite take_drop.
  - done.
  - apply Forall_forall. intros a Ha. apply Forall_forall. intros b Hb. by apply Hcross.
  - intros Hrest. rewrite length_take, Nat.min_l; [lia|].
    destruct (decide (length all ≤ Z.to_nat n)%nat); [|lia]. by destruct Hrest; apply drop_ge.
Qed.
End properties.

(** ** On the reference server *)

Definition demo_db (faults : list fault) : RefDB * (Z * Z) :=
  ({| ref_tables := no_rows; ref_faults := faults |}, (42, 0)).

(** Identifiers that differ. *)
Definition counting_ids : M Z string := λ u, (Ok (String (ascii_of_nat (Z.to_nat u)) ""), u + 1).

(** Calls of the service, one after the other. *)
Fixpoint db_rolls (calls : list (time * string * Z)) (w : RefDB * (Z * Z)) : RefDB * (Z * Z) :=
  match calls with
  | [] => w
  | (now, p, n) :: calls' =>
      db_rolls calls' (GachaService_Roll lcg counting_ids demo_registry now p "demo" n w).2
  end.

Lemma db_rolls_reachable calls w :
  gacha_reachable lcg counting_ids demo_registry w →
  gacha_reachable lcg counting_ids demo_registry (db_rolls calls w).
Proof.
  revert w. induction calls as [|[[now p] n] calls IH]; intros w Hw; [done|]. by apply IH, gacha_roll.
Qed.

(** Two spellings of a player, a refused begin and a commit whose reply is lost. *)
Definition demo_calls : list (time * string * Z) :=
  [(7, "Miku", 10); (8, "miku", 3); (9, "MIKU", 4)].

Definition demo_faults : list fault := [NoFault; NoFault; Refused; NoFault; LostReply].

Lemma demo_registry_db : registry_ok (S:=RefDB) demo_registry.
Proof. apply demo_registry_ok. by vm_compute. Qed.

Lemma SqlInsert_atomic_witness :
  let out := SqlGachaRepo_InsertRollsAndUpdatePity
    [Build_Roll "a" "p" "demo" "c" "R" false 7] "p" "demo" 1 (demo_db [NoFault; LostReply]).1 in
  no_panic out.1 ∧ (unchanged (demo_db []).1 out.2 ∨
    inserted [Build_Roll "a" "p" "demo" "c" "R" false 7] "p" "demo" 1 (demo_db []).1 out.2).
Proof.
  intros out.
  destruct (SqlInsert_atomic [Build_Roll "a" "p" "demo" "c" "R" false 7] "p" "demo" 1
    (demo_db [NoFault; LostReply]).1 out.2 out.1) as (Hp & _ & He).
  - by vm_compute.
  - by vm_compute.
  - split; [exact Hp|]. apply He. by vm_compute.
Defined.

(** The reply to the commit is lost: the call answers with an error and has been applied. *)
Lemma SqlRoll_all_or_nothing_witness :
  let out := GachaService_Roll lcg counting_ids demo_registry 7 "miku" "demo" 3 (demo_db [NoFault; LostReply]) in
  is_Ok out.1 = false ∧
  ∃ rolls, Z.of_nat (length rolls) = 3 ∧ inserted rolls "miku" "demo"
    (drought (history ref_collate "miku" "demo" (rolls_of (demo_db []).1 ++ (rounded <$> rolls))))
    (demo_db []).1 out.2.1.
Proof.
  intros out. split; [by vm_compute|].
  assert (length (rolls_of out.2.1) = 3%nat) as Hlen by (vm_compute; reflexivity).
  assert (Hreach : gacha_reachable (S:=RefDB) lcg counting_ids demo_registry (demo_db [NoFault; LostReply])).
  { exact (gacha_init lcg counting_ids demo_registry (demo_db [NoFault; LostReply]).1
      (demo_db [NoFault; LostReply]).2 eq_refl (λ p q, eq_refl)). }
  destruct (SqlRoll_all_or_nothing lcg counting_ids demo_registry (demo_db [NoFault; LostReply]) out.2 7 "miku" "demo" 3
    out.1 lcg_in_range demo_registry_db Hreach (surjective_pairing _)) as [[[Hr _] _]|(pool & rolls & _ & _ & Hn & _ & Hins & _)].
  - rewrite Hr in Hlen. discriminate Hlen.
  - exists rolls. split; [exact Hn|exact Hins].
Defined.

Lemma SqlGacha_pity_witness :
  (db_rolls demo_calls (demo_db demo_faults)).1.(ref_tables).(t_gacha_pity) ≠ [] ∧
  drought (filter (λ r, ref_collate (Roll_PlayerID r) = ref_collate "miku" ∧
                        ref_collate (Roll_PoolID r) = ref_collate "demo")
             (to_roll <$> t_gacha_rolls (ref_tables (db_rolls demo_calls (demo_db demo_faults)).1))) < 80.
Proof.
  split; [by vm_compute|].
  exact (proj1 (proj2 (SqlGacha_pity lcg counting_ids demo_registry
    (db_rolls demo_calls (demo_db demo_faults)) "miku" "demo" demo_pool lcg_in_range demo_registry_db
    (db_rolls_reachable demo_calls _ (gacha_init lcg counting_ids demo_registry
       (demo_db demo_faults).1 (demo_db demo_faults).2 eq_refl (λ p q, eq_refl))) eq_refl))).
Defined.

Lemma SqlListHistory_spec_witness :
  match GachaService_ListHistory "miku" 5 (db_rolls demo_calls (demo_db [])) with
  | (Ok l, _) => Z.of_nat (length l) <= 5
  | _ => False
  end.
Proof.
  assert (Hok : is_Ok (GachaService_ListHistory "miku" 5 (db_rolls demo_calls (demo_db []))).1 = true)
    by (vm_compute; reflexivity).
  destruct (GachaService_ListHistory "miku" 5 (db_rolls demo_calls (demo_db []))) as [[l|e|x] w'] eqn:E;
    [|discriminate Hok..].
  exact (proj1 (proj2 (SqlListHistory_spec "miku" 5 l (db_rolls demo_calls (demo_db [])) w' E))).
Defined.

(** The spellings of a player share one counter: of the calls above the first is
    applied, the second refused at the begin, the third applied although it is
    answered with an error. *)
Example shared_counter :
  let w := db_rolls demo_calls (demo_db demo_faults) in
  length (t_gacha_rolls (ref_tables w.1)) = 14%nat ∧
  length (t_gacha_pity (ref_tables w.1)) = 1%nat ∧
  (GachaService_GetPity "mIkU" "demo" w).1 = (GachaService_GetPity "Miku" "demo" w).1.
Proof. by vm_compute. Qed.
