(* ===== verification/SqlEvent.v ===== *)
(** * Events, scores and rewards in MySQL

    Models [internal/persistence/mysql/event_repo.go] over the database of
    [Sql], the rules its calls obey there, and the event service on it with the
    in-memory leaderboard. *)

From S2P Require Import GoLang Ranking Event EventService Sql.
#[local] Open Scope Z_scope.

Section repository.
Context {D Tx : Type} `{!MySQL D Tx}.

(** [CreatedAt] is left to the column's default. *)
Definition SqlEventRepo_CreateEvent (e : Event) : M D unit := λ d,
  match Queries_CreateEvent (Event_ID e) (Event_Name e) (StartAt e) (EndAt e) d with
  | (Err err, d') =>
      if bool_decide (errors_As_MySQL err = Some mysqlErrDuplicateEntry)
      then (Err event_ErrAlreadyExists, d')
      else (Err (Errorf_w "queries.CreateEvent" err), d')
  | r => r
  end.

(** A row as an event of the domain. *)
Definition to_event (row : gen.Event) : Event := {|
  Event_ID := gen.Event_ID row; Event_Name := gen.Event_Name row;
  StartAt := gen.Event_StartAt row; EndAt := gen.Event_EndAt row;
  Event_CreatedAt := gen.Event_CreatedAt row |}.

Definition SqlEventRepo_GetEvent (id : string) : M D Event := λ d,
  match Queries_GetEvent id d with
  | (Ok row, d') => (Ok (to_event row), d')
  | (Err err, d') =>
      if errors_Is err sql_ErrNoRows then (Err event_ErrNotFound, d')
      else (Err (Errorf_w "queries.GetEvent" err), d')
  | (Panic w, d') => (Panic w, d')
  end.

Definition SqlEventRepo_ListCurrentEvents (now : time) : M D (list Event) :=
  rows ← wrapErr "queries.ListCurrentEvents" (Queries_ListCurrentEvents now now);
  mret (to_event <$> rows).

(** The instant of the update is the server's: the last argument is not used. *)
Definition SqlEventRepo_AddScore (eventID playerID : string) (delta : Z) (_ : time) : M D unit :=
  wrapErr "queries.AddEventScore" (Queries_AddEventScore eventID playerID delta).

Definition SqlEventRepo_GetScore (eventID playerID : string) : M D EventScore := λ d,
  match Queries_GetEventScore eventID playerID d with
  | (Ok row, d') =>
      (Ok {| Score_EventID := gen.EventScore_EventID row; Score_PlayerID := gen.EventScore_PlayerID row;
             Points := gen.EventScore_Points row; UpdatedAt := gen.EventScore_UpdatedAt row |}, d')
  | (Err err, d') =>
      if errors_Is err sql_ErrNoRows
      then (Ok {| Score_EventID := eventID; Score_PlayerID := playerID; Points := 0;
                  UpdatedAt := zero_time |}, d')
      else (Err (Errorf_w "queries.GetEventScore" err), d')
  | (Panic w, d') => (Panic w, d')
  end.

Definition to_tier (row : gen.EventReward) : RewardTier := {|
  Tier_EventID := gen.EventReward_EventID row; Tier_No := gen.EventReward_Tier row;
  MinPoints := gen.EventReward_MinPoints row; RewardName := gen.EventReward_RewardName row |}.

Definition SqlEventRepo_ListRewardTiers (eventID : string) : M D (list RewardTier) :=
  rows ← wrapErr "queries.ListRewardTiers" (Queries_ListRewardTiers eventID);
  mret (to_tier <$> rows).

Definition SqlEventRepo_InsertRewardTier (t : RewardTier) : M D unit :=
  wrapErr "queries.InsertRewardTier"
    (Queries_InsertRewardTier (Tier_EventID t) (int32_wrap (Tier_No t)) (MinPoints t) (RewardName t)).
End repository.

#[export] Instance mysql_EventRepository `{!MySQL D Tx} : EventRepository D := {|
  CreateEvent := SqlEventRepo_CreateEvent;
  GetEvent := SqlEventRepo_GetEvent;
  ListCurrentEvents := SqlEventRepo_ListCurrentEvents;
  AddScore := SqlEventRepo_AddScore;
  GetScore := SqlEventRepo_GetScore;
  ListRewardTiers := SqlEventRepo_ListRewardTiers;
  InsertRewardTier := SqlEventRepo_InsertRewardTier |}.

(** ** What is stored *)

Section stored.
Context {D Tx : Type} `{!MySQL D Tx, !MySQLLaws D Tx}.
Implicit Types (d : D).

(** The event with the identifier, as the server compares identifiers. *)
Definition sql_event (d : D) (id : string) : option Event :=
  to_event <$> find_row (event_key collate) (collate id) (t_events (tables d)).

(** The committed points, 0 without a row. *)
Definition sql_points (d : D) (ev p : string) : Z :=
  from_option gen.EventScore_Points 0
    (find_row (score_key collate) (collate ev, collate p) (t_event_scores (tables d))).

(** Points are at least zero and fit the column. *)
Definition points_fit (d : D) : Prop := ∀ ev p, in_int64 (sql_points d ev p).

Lemma SqlGetEvent_inv id d r d' :
  SqlEventRepo_GetEvent id d = (r, d') →
  tables d' = tables d ∧ no_panic r ∧
  (∀ e, r = Ok e → sql_event d id = Some e) ∧ (r = Err event_ErrNotFound → sql_event d id = None).
Proof.
  unfold SqlEventRepo_GetEvent, Queries_GetEvent, sql_event.
  destruct (QueryRowContext _ d) as [[row|e|w] d1] eqn:E; apply QueryRow_inv in E as [Ht Hr]; [| |done].
  - intros [= <- <-]. destruct Hr as [rows Hr]. split_and!; [done|done| |done].
    intros ? [= <-]. by rewrite (find_row_hd _ _ _ _ _ Hr).
  - case_decide as He; rewrite ?He; [|rewrite (not_true_is_false _ He)];
      intros [= <- <-]; (split_and!; [done|done|done|]); [|done].
    intros _. by rewrite (find_row_none _ _ _ Hr).
Qed.

Lemma SqlGetScore_inv ev p d r d' :
  SqlEventRepo_GetScore ev p d = (r, d') →
  tables d' = tables d ∧ no_panic r ∧ ∀ sc, r = Ok sc → Points sc = sql_points d ev p.
Proof.
  unfold SqlEventRepo_GetScore, Queries_GetEventScore, sql_points.
  destruct (QueryRowContext _ d) as [[row|e|w] d1] eqn:E; apply QueryRow_inv in E as [Ht Hr]; [| |done].
  - intros [= <- <-]. destruct Hr as [rows Hr]. split_and!; [done|done|].
    intros ? [= <-]. by rewrite (find_row_hd _ _ _ _ _ Hr).
  - case_decide as He; rewrite ?He; [|rewrite (not_true_is_false _ He)];
      intros [= <- <-]; (split_and!; [done|done|]); intros ? [= <-].
    by rewrite (find_row_none _ _ _ Hr).
Qed.

(** The points one upsert leaves. *)
Lemma points_applied now ev p delta d T :
  stmt_effect collate as_timestamp now (addEventScore ev p delta) (tables d) = Applied T →
  in_int64 (sql_points d ev p + delta) ∧ t_events T = t_events (tables d) ∧
  ∀ ev' p', from_option gen.EventScore_Points 0
      (find_row (score_key collate) (collate ev', collate p') (t_event_scores T)) =
    if decide ((collate ev', collate p') = (collate ev, collate p))
    then sql_points d ev p + delta else sql_points d ev' p'.
Proof.
  cbn [stmt_effect]. case_bool_decide as Hin; [|done]. intros [= <-]. split_and!; [done|done|].
  intros ev' p'. simpl. rewrite find_row_upsert by done.
  unfold sql_points.
  destruct (decide ((collate ev', collate p') = (collate ev, collate p)));
    [rewrite decide_True by done|by rewrite decide_False].
  change (score_key collate (gen.Build_EventScore ev p delta (as_timestamp now)))
    with (collate ev, collate p).
  by destruct (find_row _ (collate ev, collate p) _).
Qed.

(** The scores of a sequence a key takes for its own. *)
Definition collated_delta (ev p : string) (ops : list (string * string * Z)) : Z :=
  foldr (λ '(ev', p', d) acc,
    if decide ((collate ev, collate p) = (collate ev', collate p')) then d + acc else acc) 0 ops.

Lemma collated_delta_app ev p ops1 ops2 :
  collated_delta ev p (ops1 ++ ops2) = collated_delta ev p ops1 + collated_delta ev p ops2.
Proof.
  unfold collated_delta. induction ops1 as [|[[e q] δ] ops1 IH]; simpl; [done|].
  rewrite IH. case_decide; lia.
Qed.

(** One call of [AddScore]: nothing, or exactly the delta; exactly the delta when
    it succeeds. *)
Lemma SqlAddScore_inv ev p delta now d r d' :
  SqlEventRepo_AddScore ev p delta now d = (r, d') →
  no_panic r ∧
  ((r ≠ Ok tt ∧ tables d' = tables d) ∨
   (in_int64 (sql_points d ev p + delta) ∧ t_events (tables d') = t_events (tables d) ∧
    ∀ ev' p', sql_points d' ev' p' = sql_points d ev' p' + collated_delta ev' p' [(ev, p, delta)])).
Proof.
  assert (∀ now T, stmt_effect collate as_timestamp now (addEventScore ev p delta) (tables d) = Applied T →
    T = tables d' → in_int64 (sql_points d ev p + delta) ∧ t_events (tables d') = t_events (tables d) ∧
    ∀ ev' p', sql_points d' ev' p' = sql_points d ev' p' + collated_delta ev' p' [(ev, p, delta)]) as Happ.
  { intros now' T (Hin & He & Hp)%points_applied ->. split_and!; [done|done|]. intros ev' p'.
    unfold sql_points at 1. rewrite Hp. unfold collated_delta. simpl. case_decide as Hk; [|lia].
    injection Hk as Hk1 Hk2. unfold sql_points. rewrite Hk1, Hk2. lia. }
  unfold SqlEventRepo_AddScore, Queries_AddEventScore, wrapErr.
  destruct (ExecContext _ d) as [[[]|e|w] d1] eqn:E; apply db_exec in E; [| |done].
  - intros [= <- <-]. split; [done|]. right. destruct E as [now' E]. by apply (Happ now' _ E).
  - intros [= <- <-]. split; [done|]. case_decide.
    + left. by destruct E as [? _].
    + destruct E as [E|[now' E]]; [by left|]. right. by apply (Happ now' _ E).
Qed.

Lemma SqlCreateEvent_inv e d r d' :
  SqlEventRepo_CreateEvent e d = (r, d') →
  no_panic r ∧ t_event_scores (tables d') = t_event_scores (tables d) ∧
  ((r ≠ Ok tt ∧ tables d' = tables d ∧
    (r = Err event_ErrAlreadyExists → is_Some (sql_event d (Event_ID e)))) ∨
   (r ≠ Err event_ErrAlreadyExists ∧ sql_event d (Event_ID e) = None ∧ ∃ created,
    ∀ id, sql_event d' id =
      if decide (collate id = collate (Event_ID e)) then
        Some {| Event_ID := Event_ID e; Event_Name := Event_Name e; StartAt := as_timestamp (StartAt e);
                EndAt := as_timestamp (EndAt e); Event_CreatedAt := as_timestamp created |}
      else sql_event d id)).
Proof.
  unfold SqlEventRepo_CreateEvent, Queries_CreateEvent.
  assert (∀ now T, stmt_effect collate as_timestamp now
      (createEvent (Event_ID e) (Event_Name e) (StartAt e) (EndAt e)) (tables d) = Applied T →
    t_event_scores T = t_event_scores (tables d) ∧ sql_event d (Event_ID e) = None ∧
    ∀ id, to_event <$> find_row (event_key collate) (collate id) (t_events T) =
      if decide (collate id = collate (Event_ID e)) then
        Some {| Event_ID := Event_ID e; Event_Name := Event_Name e; StartAt := as_timestamp (StartAt e);
                EndAt := as_timestamp (EndAt e); Event_CreatedAt := as_timestamp now |}
      else sql_event d id) as Happ.
  { intros now T. cbn [stmt_effect]. unfold put, sql_event.
    destruct (insert_row _ _ _) as [l|] eqn:Hins; [|done]. intros [= <-]. split; [done|].
    split; [destruct (find_row_insert _ (collate "") _ _ _ Hins) as [Hn _]; simpl in Hn; by rewrite Hn|].
    intros id. destruct (find_row_insert _ (collate id) _ _ _ Hins) as [_ Hf]. simpl in *.
    rewrite Hf. by case_decide. }
  destruct (ExecContext _ d) as [[[]|err|w] d1] eqn:E; apply db_exec in E; [| |done].
  - intros [= <- <-]. destruct E as [now E]. apply Happ in E as (Hs & Hnone & Hev).
    split_and!; [done|done|]. right. split_and!; [done|done|]. by exists now.
  - case_decide as Hdup.
    + rewrite bool_decide_eq_true_2 by done. intros [= <- <-]. destruct E as (Ht & now & Hd).
      split_and!; [done|by rewrite Ht|]. left. split_and!; [done|done|]. intros _.
      cbn [stmt_effect] in Hd. unfold put, insert_row in Hd. unfold sql_event.
      simpl in Hd. destruct (find_row _ _ _); [by eexists|done].
    + rewrite bool_decide_eq_false_2 by done. intros [= <- <-]. destruct E as [Ht|[now E]].
      * split_and!; [done|by rewrite Ht|]. by left.
      * apply Happ in E as (Hs & Hnone & Hev).
        split_and!; [done|done|]. right. split_and!; [done|done|]. by exists now.
Qed.
End stored.

(** ** The service on MySQL *)

Section service.
Context `{!GoRuntime} {D Tx : Type} `{!MySQL D Tx, !MySQLLaws D Tx}.
Implicit Types (d : D) (l : Leaderboard).

(** Events and scores are left alone. *)
Definition keeps (d d' : D) : Prop :=
  t_events (tables d') = t_events (tables d) ∧ t_event_scores (tables d') = t_event_scores (tables d).

#[local] Instance keeps_refl : Reflexive keeps.
Proof. done. Qed.
#[local] Instance keeps_trans : Transitive keeps.
Proof. intros d1 d2 d3 [E1 S1] [E2 S2]. split; congruence. Qed.

Lemma keeps_tables d d' : tables d' = tables d → keeps d d'.
Proof. unfold keeps. by intros ->. Qed.

Lemma keeps_event d d' id : keeps d d' → sql_event d' id = sql_event d id.
Proof. unfold sql_event. by intros [-> _]. Qed.

Lemma keeps_points d d' ev p : keeps d d' → sql_points d' ev p = sql_points d ev p.
Proof. unfold sql_points. by intros [_ ->]. Qed.

(** What only reads keeps the tables. *)
Definition reads {A} (m : M D A) : Prop := ∀ d, keeps d (m d).2.

Lemma reads_wrapErr {A} prefix (m : M D A) : reads m → reads (wrapErr prefix m).
Proof. intros Hm d. specialize (Hm d). unfold wrapErr. by destruct (m d) as [[?|?|?] ?]. Qed.

Lemma reads_bind {A B} (m : M D A) (f : A → M D B) : reads m → (∀ a, reads (f a)) → reads (m ≫= f).
Proof.
  intros Hm Hf d. rewrite M_bind_eq. specialize (Hm d).
  destruct (m d) as [[a|e|w] d1]; simpl in *; [|done..]. etrans; [exact Hm|apply Hf].
Qed.

Lemma reads_ret {A} (a : A) : reads (mret a).
Proof. done. Qed.

Lemma reads_query {R} (q : query R) : reads (QueryContext (C:=D) q).
Proof.
  intros d. destruct (QueryContext q d) as [r d'] eqn:E. apply db_query in E as [Ht _].
  by apply keeps_tables.
Qed.

Lemma reads_GetEvent id : reads (GetEvent (S:=D) id).
Proof.
  intros d. destruct (GetEvent id d) as [r d'] eqn:E. apply SqlGetEvent_inv in E as [Ht _].
  by apply keeps_tables.
Qed.

Lemma reads_GetScore ev p : reads (GetScore (S:=D) ev p).
Proof.
  intros d. destruct (GetScore ev p d) as [r d'] eqn:E. apply SqlGetScore_inv in E as [Ht _].
  by apply keeps_tables.
Qed.

(** A tier touches neither events nor scores. *)
Lemma reads_InsertRewardTier t : reads (InsertRewardTier (S:=D) t).
Proof.
  apply reads_wrapErr. intros d. unfold Queries_InsertRewardTier.
  assert (∀ now T, stmt_effect collate as_timestamp now
    (insertRewardTier (Tier_EventID t) (int32_wrap (Tier_No t)) (MinPoints t) (RewardName t)) (tables d) =
      Applied T → t_events T = t_events (tables d) ∧ t_event_scores T = t_event_scores (tables d)) as Happ.
  { intros now T. unfold stmt_effect, put. destruct (insert_row _ _ _); [|done]. by intros [= <-]. }
  destruct (ExecContext _ d) as [[?|e|w] d'] eqn:E; apply db_exec in E; simpl; [| |done].
  - destruct E as [now E]. by apply Happ in E.
  - case_decide; [destruct E as [E _]; by apply keeps_tables|].
    destruct E as [E|[now E]]; [by apply keeps_tables|by apply Happ in E].
Qed.

Lemma reads_insert_tiers id tiers : reads (insert_tiers (S:=D) id tiers).
Proof.
  induction tiers; [done|]. cbn [insert_tiers].
  apply reads_bind; [apply reads_wrapErr, reads_InsertRewardTier|done].
Qed.

(** One score, through the service with the in-memory leaderboard. *)
Lemma Sql_AddScore_call ev p δ now now' d l r d' l' :
  EventService_AddScore wired ev p δ now now' (d, l) = (r, (d', l')) →
  t_events (tables d') = t_events (tables d) ∧
  (((∀ sc, r ≠ Ok sc) ∧ l' = l ∧ keeps d d') ∨
   (delta_ok δ ∧ (∃ e, sql_event d ev = Some e ∧ StatusAt e now = StatusOngoing) ∧
    in_int64 (sql_points d ev p + δ) ∧
    (∀ ev' p', sql_points d' ev' p' = sql_points d ev' p' + collated_delta ev' p' [(ev, p, δ)]) ∧
    ((∃ e, r = Err e ∧ l' = l) ∨
     ∃ sc, r = Ok sc ∧ l' = (Leaderboard_IncrBy ev p δ l).2 ∧ Points sc = sql_points d' ev p))).
Proof.
  unfold EventService_AddScore. intros HR.
  destruct ((δ <=? 0) || (maxScoreDelta <? δ)) eqn:Hδ.
  { injection HR as <- <- <-. split; [done|]. by left. }
  assert (delta_ok δ) as Hok by (unfold delta_ok; lia).
  rewrite M_bind_eq in HR. simpl in HR. unfold wrapErr in HR.
  destruct (SqlEventRepo_GetEvent ev d) as [[e|err|w] d1] eqn:Hget;
    apply SqlGetEvent_inv in Hget as (Ht1 & Hp & Hev & _);
    [|injection HR as <- <- <-; rewrite Ht1; split; [done|]; left; split_and!; [done..|by apply keeps_tables]|done].
  specialize (Hev e eq_refl).
  case_bool_decide as Hon; [injection HR as <- <- <-; rewrite Ht1; split; [done|]; left;
    split_and!; [done..|by apply keeps_tables]|].
  rewrite M_bind_eq in HR. simpl in HR.
  destruct (SqlEventRepo_AddScore ev p δ now' d1) as [r2 d2] eqn:Hadd.
  apply SqlAddScore_inv in Hadd as [Hp2 Hadd].
  assert (∀ a b, sql_points d1 a b = sql_points d a b) as E1.
  { intros a b. apply keeps_points. by apply keeps_tables. }
  assert ((r2 ≠ Ok tt ∧ keeps d d2) ∨
    (in_int64 (sql_points d ev p + δ) ∧ t_events (tables d2) = t_events (tables d) ∧
     ∀ ev' p', sql_points d2 ev' p' = sql_points d ev' p' + collated_delta ev' p' [(ev, p, δ)])) as Hcase.
  { destruct Hadd as [[Hne Ht2]|(Hin & He & Hpts)].
    - left. split; [done|]. apply keeps_tables. congruence.
    - right. rewrite E1 in Hin. split_and!; [done|congruence|]. intros ev' p'. by rewrite Hpts, E1. }
  destruct r2 as [[]|err|w]; [| |done].
  2:{ injection HR as <- <- <-. destruct Hcase as [[_ Hk]|(Hin & He & Hpts)].
      - split; [by destruct Hk|]. by left.
      - split; [done|]. right. split_and!; [done|by exists e|done|done|]. left. by eexists. }
  destruct Hcase as [[Hne _]|(Hin & He & Hpts)]; [done|].
  rewrite M_bind_eq in HR. simpl in HR.
  destruct (SqlEventRepo_GetScore ev p d2) as [r3 d3] eqn:Hsc.
  apply SqlGetScore_inv in Hsc as (Ht3 & Hp3 & Hpt).
  assert (keeps d2 d3) as Hk3 by by apply keeps_tables.
  assert (t_events (tables d3) = t_events (tables d)) as Hev3 by congruence.
  assert (∀ ev' p', sql_points d3 ev' p' = sql_points d ev' p' + collated_delta ev' p' [(ev, p, δ)]) as Hpts3.
  { intros ev' p'. by rewrite (keeps_points d2 d3). }
  destruct r3 as [sc|err|w]; [| |done]; injection HR as <- <- <-; (split; [done|]); right;
    (split_and!; [done|by exists e|done|done|]).
  - right. exists sc. split_and!; [done|done|]. by rewrite (Hpt sc), (keeps_points d2 d3).
  - left. by eexists.
Qed.

(** *** Runs *)

(** The scores a call submits. *)
Definition submitted (o : event_op) : list (string * string * Z) :=
  match o with
  | OpAddScore ev p δ _ _ => [(ev, p, δ)]
  | _ => []
  end.

(** The calls that do not submit keep scores, leaderboard and stored events. *)
Lemma Sql_exec_quiet o d l :
  submitted o = [] →
  ∃ d', exec (S:=D) wired o (d, l) = ([], (d', l)) ∧
    t_event_scores (tables d') = t_event_scores (tables d) ∧
    ∀ id e, sql_event d id = Some e → sql_event d' id = Some e.
Proof.
  assert (∀ A (m : M D A), reads m → ∃ d', ([] : list (string * string * Z), (on_fst m (d, l)).2) = ([], (d', l)) ∧
    t_event_scores (tables d') = t_event_scores (tables d) ∧
    ∀ id e, sql_event d id = Some e → sql_event d' id = Some e) as Hreads.
  { intros A m Hm. specialize (Hm d). simpl. destruct (m d) as [r d']. exists d'. simpl in *.
    split; [done|]. split; [apply Hm|]. intros id e. by rewrite (keeps_event d d' id Hm). }
  destruct o as [inp now|id now|now|? ? ? ? ?|ev p|ev p n1 n2]; intros Ho; try done; cbn [exec];
    try (apply Hreads; repeat (apply reads_bind || apply reads_wrapErr || intros);
         first [apply reads_GetEvent | apply reads_GetScore | apply reads_query | apply reads_ret]).
  simpl. unfold EventService_Create. destruct (negb _); [by exists d|].
  rewrite M_bind_eq. unfold wrapErr at 1.
  destruct (CreateEvent _ d) as [r d1] eqn:Hc.
  apply SqlCreateEvent_inv in Hc as (Hp & Hs & Hcase).
  assert (∀ id e, sql_event d id = Some e → sql_event d1 id = Some e) as Hkeep.
  { intros id e He. destruct Hcase as [(_ & Ht & _)|(_ & Hnone & created & Hev)].
    - by rewrite (keeps_event d d1 id (keeps_tables d d1 Ht)).
    - rewrite Hev, decide_False; [done|]. intros Hid. unfold sql_event in He, Hnone.
      rewrite Hid in He. congruence. }
  destruct r as [[]|err|w]; [|by exists d1|done].
  rewrite M_bind_eq. pose proof (reads_insert_tiers (In_ID inp) (In_Rewards inp) d1) as Ht.
  destruct (insert_tiers _ _ d1) as [r2 d2]. simpl in Ht.
  exists d2. destruct r2 as [[]|?|?]; simpl; (split; [done|]; split;
    [by rewrite (proj2 Ht)|intros id e0 He; rewrite (keeps_event d1 d2 id Ht); by apply Hkeep]).
Qed.

(** The call submits a score inside the window of the stored event. *)
Definition in_window (d : D) (o : event_op) : Prop :=
  match o with
  | OpAddScore ev _ _ now _ => ∃ e, sql_event d ev = Some e ∧ StatusAt e now = StatusOngoing
  | _ => False
  end.

(** One call: [acc] is what it accepted, [app] what took effect. *)
Lemma Sql_exec o d l :
  ∃ acc app d', exec (S:=D) wired o (d, l) = (acc, (d', apply_incrs acc l)) ∧
    acc `sublist_of` app ∧ app `sublist_of` submitted o ∧
    (∀ ev p, sql_points d' ev p = sql_points d ev p + collated_delta ev p app) ∧
    Forall (λ '(ev, p, δ), delta_ok δ ∧ in_int64 (sql_points d ev p + δ)) app ∧
    (app ≠ [] → in_window d o) ∧
    ∀ id e, sql_event d id = Some e → sql_event d' id = Some e.
Proof.
  destruct (decide (submitted o = [])) as [Ho|Ho].
  { destruct (Sql_exec_quiet o d l Ho) as (d' & Hex & Hs & He). exists [], [], d'.
    split_and!; [done|constructor|apply sublist_nil_l| |constructor|done|done].
    intros ev p. unfold sql_points. rewrite Hs. unfold collated_delta. simpl. lia. }
  destruct o as [| | |ev p δ now now'| |]; try done. cbn [exec].
  destruct (EventService_AddScore wired ev p δ now now' (d, l)) as [r [d' l']] eqn:HR.
  apply Sql_AddScore_call in HR as (Hev & [(Hne & -> & Hk)|(Hok & Hw & Hin & Hpts & Hr)]).
  - exists [], [], d'. split_and!; [by destruct r as [sc| |]; [destruct (Hne sc)|..]|constructor|apply sublist_nil_l| |
      constructor|done|].
    + intros ev' p'. rewrite (keeps_points d d' ev' p' Hk). unfold collated_delta. simpl. lia.
    + intros id e. by rewrite (keeps_event d d' id Hk).
  - exists (if is_Ok r then [(ev, p, δ)] else []), [(ev, p, δ)], d'. split_and!.
    + by destruct Hr as [(e & -> & ->)|(sc & -> & -> & _)].
    + destruct (is_Ok r); [done|apply sublist_nil_l].
    + done.
    + done.
    + by constructor.
    + done.
    + intros id e. unfold sql_event. by rewrite Hev.
Qed.

(** Everything a run submits, in order. *)
Definition submitted_all (ops : list event_op) : list (string * string * Z) := ops ≫= submitted.

Lemma Sql_exec_all ops d l :
  (∀ ev p, 0 <= sql_points d ev p < int64_half) →
  ∃ accs app d', exec_all (S:=D) wired ops (d, l) = (accs, (d', apply_incrs accs l)) ∧
    accs `sublist_of` app ∧ app `sublist_of` submitted_all ops ∧
    Forall (λ '(_, _, δ), delta_ok δ) app ∧
    ∀ ev p, sql_points d' ev p = sql_points d ev p + collated_delta ev p app ∧
      0 <= sql_points d' ev p < int64_half.
Proof.
  revert d l. induction ops as [|o ops IH]; intros d l Hd.
  { exists [], [], d. split_and!; [done|constructor..|]. intros ev p.
    unfold collated_delta. simpl. split; [lia|apply Hd]. }
  destruct (Sql_exec o d l) as (acc & app & d1 & Hex & Hsub & Hsub' & Hpts & Hok & _ & _).
  assert (∀ ev p, 0 <= sql_points d1 ev p < int64_half) as Hd1.
  { intros ev p. rewrite Hpts. pose proof (Hd ev p).
    assert (app = [] ∨ ∃ x, app = [x]) as [->|[[[ev' p'] δ] ->]].
    { destruct o; simpl in Hsub'; try (apply sublist_nil_r in Hsub' as ->; by left).
      apply sublist_cons_r in Hsub' as [Hsub'|(k & -> & Hsub')]; apply sublist_nil_r in Hsub' as ->; eauto. }
    - unfold collated_delta. simpl. lia.
    - apply Forall_cons in Hok as [[Hδ Hin] _]. unfold collated_delta. simpl.
      case_decide as Hk; [|lia]. injection Hk as Hk1 Hk2. unfold sql_points in *.
      rewrite Hk1, Hk2 in *. unfold delta_ok in Hδ. unfold in_int64 in Hin. lia. }
  destruct (IH d1 (apply_incrs acc l) Hd1) as (accs & apps & d2 & Hex2 & Hs & Hs' & Hoks & Hpts2).
  exists (acc ++ accs), (app ++ apps), d2. cbn [exec_all]. rewrite Hex, Hex2, apply_incrs_app.
  split_and!; [done|by apply sublist_app|by apply sublist_app| |].
  - apply Forall_app. split; [|done]. apply (Forall_impl _ _ _ Hok). by intros [[? ?] ?] [? _].
  - intros ev p. destruct (Hpts2 ev p) as [E ?]. rewrite collated_delta_app. split; [|done].
    rewrite E, Hpts. lia.
Qed.

Lemma delta_of_le ev p accs app :
  accs `sublist_of` app → Forall (λ '(_, _, δ), delta_ok δ) app →
  0 <= delta_of ev p accs <= collated_delta ev p app.
Proof.
  induction 1 as [|[[e q] δ] accs app _ IH|[[e q] δ] accs app _ IH]; [done|..];
    intros [Hδ Hok]%Forall_cons; specialize (IH Hok); unfold collated_delta, delta_of, delta_ok in *;
    simpl in *; repeat case_decide; try lia; destruct_and?; subst; try done; lia.
Qed.

(** C20. The ledger on MySQL. Start the wired service on a database without scores
    and an empty leaderboard and run any calls, with statements failing and
    replies getting lost in any way. What the service accepted is a part of what
    took effect, which is a part of what was submitted, in order. The committed
    points of a player are exactly the sum of what took effect under the key the
    collation gives the player; the leaderboard is exactly what was accepted. So
    the leaderboard never shows more points than are committed, and neither
    overflows. *)
Theorem sql_event_ledger (ops : list event_op) (d : D)
    (Hempty : t_event_scores (tables d) = []) :
  ∃ accs app d', exec_all (S:=D) wired ops (d, NewLeaderboard) =
      (accs, (d', apply_incrs accs NewLeaderboard)) ∧
    accs `sublist_of` app ∧ app `sublist_of` submitted_all ops ∧
    ∀ ev p,
      sql_points d' ev p = collated_delta ev p app ∧
      default 0 (event_scores (apply_incrs accs NewLeaderboard) ev !! p) = delta_of ev p accs ∧
      0 <= delta_of ev p accs <= sql_points d' ev p ∧ sql_points d' ev p < int64_half.
Proof.
  assert (∀ ev p, sql_points d ev p = 0) as H0.
  { intros ev p. unfold sql_points. by rewrite Hempty. }
  destruct (Sql_exec_all ops d NewLeaderboard) as (accs & app & d' & Hex & Hs & Hs' & Hok & Hpts).
  { intros ev p. rewrite H0. unfold int64_half. lia. }
  exists accs, app, d'. split_and!; [done|done|done|]. intros ev p.
  destruct (Hpts ev p) as [E Hr]. rewrite H0, Z.add_0_l in E.
  pose proof (delta_of_le ev p accs app Hs Hok) as Hle. split_and!; [done| |lia|lia|lia].
  rewrite board_score. apply int64_wrap_small. int_range.
Qed.

(** A closed event stays closed on MySQL. Once the clock has passed the end
    that is stored for an event, no sequence of calls, with whatever later
    readings and failures, changes the points of any player in it, or alters
    the event; the identifier may be spelled in any way the collation takes for
    the same. *)
Theorem sql_ended_event_frozen (ops : list event_op) (d : D) (l : Leaderboard) (ev : string) (e : Event)
    (Hstored : sql_event d ev = Some e) (Hafter : Forall (op_after (EndAt e)) ops) :
  let d' := (exec_all (S:=D) wired ops (d, l)).2.1 in
  (∀ p, sql_points d' ev p = sql_points d ev p) ∧ sql_event d' ev = Some e.
Proof.
  revert d l Hstored. induction Hafter as [|o ops Ho _ IH]; intros d l Hstored; [done|].
  cbn [exec_all]. destruct (Sql_exec o d l) as (acc & app & d1 & Hex & _ & Hsub & Hpts & _ & Hw & Hev).
  rewrite Hex. specialize (IH d1 (apply_incrs acc l) (Hev ev e Hstored)).
  destruct (exec_all wired ops _) as [accs [d2 l2]]. simpl in *. destruct IH as [Hpts2 Hev2].
  split; [|done]. intros p. rewrite Hpts2, Hpts.
  destruct o as [| | |ev' p' δ now now'| |]; simpl in Hsub;
    try (apply sublist_nil_r in Hsub as ->; unfold collated_delta; simpl; lia).
  apply sublist_cons_r in Hsub as [Hsub|(k & -> & Hsub)]; apply sublist_nil_r in Hsub as ->;
    unfold collated_delta; simpl; [lia|].
  case_decide as Hk; [|lia]. exfalso. injection Hk as Hk _.
  destruct Hw as (e' & He' & Hon%StatusAt_ongoing); [done|].
  assert (sql_event d ev' = Some e) as Hsame by (unfold sql_event in *; by rewrite <- Hk).
  simpl in Ho. simplify_eq. lia.
Qed.
End service.

(** ** Events and tiers, written and read *)

Section roundtrip.
Context {D Tx : Type} `{!MySQL D Tx, !MySQLLaws D Tx}.
Implicit Types (d : D).

Lemma to_event_sorted rows :
  StronglySorted (λ a b, gen.Event_EndAt a <= gen.Event_EndAt b) rows →
  StronglySorted (λ a b, EndAt a <= EndAt b) (to_event <$> rows).
Proof.
  induction 1 as [|row rows _ IH Hrow]; [constructor|]. simpl. constructor; [done|].
  apply Forall_fmap. by apply (Forall_impl _ _ _ Hrow).
Qed.

(** Events round-trip through MySQL up to the precision of its instants. After
    a creation that succeeded, reading the event under any spelling of its
    identifier never says "not found", and what it returns has the identifier
    and name it was created with and instants less than a second away; a second
    creation under such a spelling never succeeds and changes nothing; the
    listing of current events, at any instant, contains it when its stored
    window, read to the second, does. *)
Theorem SqlEvent_roundtrip (e : Event) (d d1 : D)
    (Hcreate : SqlEventRepo_CreateEvent e d = (Ok tt, d1)) :
  ∃ e', Event_ID e' = Event_ID e ∧ Event_Name e' = Event_Name e ∧
    Z.abs (StartAt e' - StartAt e) < Second ∧ Z.abs (EndAt e' - EndAt e) < Second ∧
    (∀ id, collate id = collate (Event_ID e) →
       let out := SqlEventRepo_GetEvent id d1 in
       (out.1 = Ok e' ∨ ∃ err, out.1 = Err err ∧ err ≠ event_ErrNotFound) ∧ tables out.2 = tables d1) ∧
    (∀ e2, collate (Event_ID e2) = collate (Event_ID e) →
       let out := SqlEventRepo_CreateEvent e2 d1 in out.1 ≠ Ok tt ∧ tables out.2 = tables d1) ∧
    (∀ now l, (SqlEventRepo_ListCurrentEvents now d1).1 = Ok l →
       StronglySorted (λ a b, EndAt a <= EndAt b) l ∧
       (e' ∈ l ↔ StartAt e' <= as_datetime now <= EndAt e')).
Proof.
  apply SqlCreateEvent_inv in Hcreate as (_ & _ & [[Hne _]|(_ & Hnone & created & Hev)]); [done|].
  set (e' := Build_Event _ _ _ _ _) in Hev.
  assert (∀ id, collate id = collate (Event_ID e) → sql_event d1 id = Some e') as Hget.
  { intros id Hid. rewrite Hev. by rewrite decide_True. }
  exists e'. split_and!; [done|done|apply as_timestamp_near|apply as_timestamp_near| | |].
  - intros id Hid out. destruct (SqlEventRepo_GetEvent id d1) as [r d2] eqn:E.
    apply SqlGetEvent_inv in E as (Ht & Hp & Hok & Hnf). split; [|done]. subst out. simpl.
    destruct r as [e2|err|w]; [left|right|done].
    + specialize (Hok e2 eq_refl). rewrite (Hget id Hid) in Hok. congruence.
    + exists err. split; [done|]. intros ->. rewrite (Hget id Hid) in Hnf. by specialize (Hnf eq_refl).
  - intros e2 Hid out. destruct (SqlEventRepo_CreateEvent e2 d1) as [r d2] eqn:E.
    apply SqlCreateEvent_inv in E as (_ & _ & [(Hne & Ht & _)|(_ & Hn & _)]); [done|].
    by rewrite (Hget _ Hid) in Hn.
  - intros now l. unfold SqlEventRepo_ListCurrentEvents, Queries_ListCurrentEvents, wrapErr.
    rewrite M_bind_eq.
    destruct (QueryContext _ d1) as [[rows|err|w] d2] eqn:E; apply db_query in E as [_ Hr]; [|done..].
    intros [= <-]. destruct Hr as [Hperm Hsort]. split; [by apply to_event_sorted|].
    pose proof (Hget (Event_ID e) eq_refl) as Hin. unfold sql_event in Hin.
    destruct (find_row _ _ _) as [row|] eqn:Hrow; [|done]. apply (inj Some) in Hin as Hrow'.
    rewrite list_elem_of_fmap. split.
    + intros (row' & -> & [Hw _]%(elem_of_Permutation_proper _ _ _ Hperm)%list_elem_of_filter). apply Hw.
    + intros Hw. exists row. split; [done|]. rewrite Hperm. apply list_elem_of_filter.
      rewrite <- Hrow' in Hw. split; [exact Hw|].
      by apply find_row_elem in Hrow as [_ ?].
Qed.
End roundtrip.

(** ** On the reference server *)

Definition second (n : Z) : time := n * Second.

(** An event from second 10 to second 20, created at a server that then loses
    the reply to one statement and refuses another. *)
Definition demo_event_db (faults : list fault) : RefDB :=
  (SqlEventRepo_CreateEvent (Build_Event "Live" "n" (second 10) (second 20) 0)
     {| ref_tables := no_rows; ref_faults := NoFault :: faults |}).2.

Definition demo_scores : list event_op :=
  [OpAddScore "Live" "miku" 5 (second 12) 0; OpAddScore "LIVE" "Miku" 7 (second 13) 0;
   OpAddScore "live" "miku" 9 (second 14) 0; OpAddScore "live" "rin" 4 (second 21) 0;
   OpGetScore "live" "MIKU"].

Lemma sql_event_ledger_witness :
  ∃ accs app d', exec_all (S:=RefDB) wired demo_scores
      (demo_event_db [NoFault; LostReply; Refused], NewLeaderboard) =
      (accs, (d', apply_incrs accs NewLeaderboard)) ∧
    accs `sublist_of` app ∧ sql_points d' "live" "miku" = collated_delta (D:=RefDB) "live" "miku" app.
Proof.
  assert (t_event_scores (tables (demo_event_db [NoFault; LostReply; Refused])) = []) as Hempty
    by (vm_compute; reflexivity).
  destruct (sql_event_ledger demo_scores (demo_event_db [NoFault; LostReply; Refused]) Hempty)
    as (accs & app & d' & Hex & Hs & _ & Hp).
  exists accs, app, d'. split; [exact Hex|]. split; [exact Hs|]. exact (proj1 (Hp "live" "miku")).
Defined.

(** What that run does: one score is accepted, another takes effect although
    its reply is lost, the third is refused, the last comes too late. *)
Example demo_scores_run :
  let out := exec_all (S:=RefDB) wired demo_scores
    (demo_event_db [NoFault; LostReply; Refused], NewLeaderboard) in
  out.1 = [("Live", "miku", 5)] ∧ sql_points out.2.1 "live" "miku" = 12 ∧
  event_scores out.2.2 "Live" !! "miku" = Some 5.
Proof. by vm_compute. Qed.

Lemma sql_ended_event_frozen_witness :
  sql_points (exec_all (S:=RefDB) wired [OpAddScore "LIVE" "miku" 5 (second 21) 0]
    (demo_event_db [], NewLeaderboard)).2.1 "live" "miku" = 0.
Proof.
  assert (sql_event (demo_event_db []) "live" = Some (Build_Event "Live" "n" (second 10) (second 20) 0)) as He
    by (vm_compute; reflexivity).
  rewrite (proj1 (sql_ended_event_frozen [OpAddScore "LIVE" "miku" 5 (second 21) 0] (demo_event_db [])
    NewLeaderboard "live" _ He ltac:(repeat constructor)) "miku").
  vm_compute. reflexivity.
Defined.

Lemma SqlEvent_roundtrip_witness :
  ∃ e', (SqlEventRepo_GetEvent "LIVE" (demo_event_db [])).1 = Ok e' ∧ Event_Name e' = "n".
Proof.
  destruct (SqlEvent_roundtrip (Build_Event "Live" "n" (second 10) (second 20) 0)
    {| ref_tables := no_rows; ref_faults := [] |} (demo_event_db [])) as (e' & _ & Hn & _ & _ & Hget & _).
  - vm_compute. reflexivity.
  - destruct (Hget "LIVE" ltac:(vm_compute; reflexivity)) as [[Hok|(err & Herr & _)] _].
    + exists e'. split; [exact Hok|exact Hn].
    + exfalso. assert (is_Ok (SqlEventRepo_GetEvent "LIVE" (demo_event_db [])).1 = true) as Hb
        by (vm_compute; reflexivity).
      rewrite Herr in Hb. discriminate Hb.
Defined.
