(* ===== verification/SqlProfile.v ===== *)
(** * Profiles in MySQL

    Models [internal/persistence/mysql/profile_repo.go] over the database of
    [Sql], and what becomes of the rule that the first registration wins. *)

From S2P Require Import GoLang Profile Sql.
#[local] Open Scope Z_scope.

Section repository.
Context {D Tx : Type} `{!MySQL D Tx}.

Definition to_profile (row : gen.Profile) : Profile := {|
  Profile_ID := gen.Profile_ID row; Profile_Name := gen.Profile_Name row;
  Profile_CreatedAt := gen.Profile_CreatedAt row |}.

Definition SqlProfileRepo_Get (id : string) : M D Profile := λ d,
  match Queries_GetProfile id d with
  | (Ok row, d') => (Ok (to_profile row), d')
  | (Err err, d') =>
      if errors_Is err sql_ErrNoRows then (Err profile_ErrNotFound, d')
      else (Err (Errorf_w "queries.GetProfile" err), d')
  | (Panic w, d') => (Panic w, d')
  end.

Definition SqlProfileRepo_Create (p : Profile) : M D unit := λ d,
  match Queries_CreateProfile (Profile_ID p) (Profile_Name p) (Profile_CreatedAt p) d with
  | (Err err, d') =>
      if bool_decide (errors_As_MySQL err = Some mysqlErrDuplicateEntry)
      then (Err profile_ErrAlreadyExists, d')
      else (Err (Errorf_w "queries.CreateProfile" err), d')
  | r => r
  end.
End repository.

#[export] Instance mysql_ProfileRepository `{!MySQL D Tx} : ProfileRepository D := {|
  Profile_Get := SqlProfileRepo_Get;
  Profile_Create := SqlProfileRepo_Create |}.

Section properties.
Context {D Tx : Type} `{!MySQL D Tx, !MySQLLaws D Tx}.
Implicit Types (d : D).

(** The stored profile, as the server compares identifiers. *)
Definition sql_profile (d : D) (id : string) : option Profile :=
  to_profile <$> find_row (profile_key collate) (collate id) (t_profiles (tables d)).

(** What a profile reads as after it was written. *)
Definition rounded_profile (p : Profile) : Profile := {|
  Profile_ID := Profile_ID p; Profile_Name := Profile_Name p;
  Profile_CreatedAt := as_timestamp (Profile_CreatedAt p) |}.

Lemma SqlProfileGet_inv id d r d' :
  SqlProfileRepo_Get id d = (r, d') →
  tables d' = tables d ∧ no_panic r ∧
  (∀ p, r = Ok p → sql_profile d id = Some p) ∧
  (r = Err profile_ErrNotFound → sql_profile d id = None).
Proof.
  unfold SqlProfileRepo_Get, Queries_GetProfile, sql_profile.
  destruct (QueryRowContext _ d) as [[row|e|w] d1] eqn:E; apply QueryRow_inv in E as [Ht Hr]; [| |done].
  - intros [= <- <-]. destruct Hr as [rows Hr]. split_and!; [done|done| |done].
    intros ? [= <-]. by rewrite (find_row_hd _ _ _ _ _ Hr).
  - case_decide as He; rewrite ?He; [|rewrite (not_true_is_false _ He)];
      intros [= <- <-]; (split_and!; [done|done|done|]); [|done].
    intros _. by rewrite (find_row_none _ _ _ Hr).
Qed.

Lemma SqlProfileCreate_inv p d r d' :
  SqlProfileRepo_Create p d = (r, d') →
  no_panic r ∧
  ((r ≠ Ok tt ∧ tables d' = tables d) ∨
   (r ≠ Err profile_ErrAlreadyExists ∧ sql_profile d (Profile_ID p) = None ∧
    ∀ id, sql_profile d' id =
      if decide (collate id = collate (Profile_ID p)) then Some (rounded_profile p) else sql_profile d id)).
Proof.
  unfold SqlProfileRepo_Create, Queries_CreateProfile.
  assert (∀ now, stmt_effect collate as_timestamp now
      (createProfile (Profile_ID p) (Profile_Name p) (Profile_CreatedAt p)) (tables d) = Applied (tables d') →
    sql_profile d (Profile_ID p) = None ∧
    ∀ id, sql_profile d' id =
      if decide (collate id = collate (Profile_ID p)) then Some (rounded_profile p) else sql_profile d id) as Happ.
  { intros now. unfold stmt_effect, put, sql_profile.
    destruct (insert_row _ _ _) as [l|] eqn:Hins; [|done]. intros [= <-].
    split; [destruct (find_row_insert _ (collate "") _ _ _ Hins) as [Hn _]; simpl in Hn; by rewrite Hn|].
    intros id. destruct (find_row_insert _ (collate id) _ _ _ Hins) as [_ Hf]. simpl in *.
    rewrite Hf. by case_decide. }
  destruct (ExecContext _ d) as [[[]|err|w] d1] eqn:E; apply db_exec in E; [| |done].
  - intros [= <- <-]. destruct E as [now [Hn Hs]%Happ]. split; [done|]. by right.
  - case_decide as Hdup.
    + rewrite bool_decide_eq_true_2 by done. intros [= <- <-]. split; [done|]. left. by destruct E.
    + rewrite bool_decide_eq_false_2 by done. intros [= <- <-]. split; [done|].
      destruct E as [Ht|[now [Hn Hs]%Happ]]; [by left|by right].
Qed.

(** A stored profile stays. *)
Lemma sql_profile_exec o d id p :
  sql_profile d id = Some p → sql_profile (profile_exec (S:=D) o d).2 id = Some p.
Proof.
  intros Hp. destruct o as [id' name now|id']; cbn [profile_exec].
  - unfold ProfileService_CreateProfile. rewrite M_bind_eq. unfold wrapErr.
    destruct (Profile_Create _ d) as [r d1] eqn:E. apply SqlProfileCreate_inv in E as [_ E].
    assert (sql_profile d1 id = Some p) as Hd1.
    { destruct E as [[_ Ht]|(_ & Hn & Hs)]; [unfold sql_profile; by rewrite Ht|].
      rewrite Hs, decide_False; [done|]. intros Hid. unfold sql_profile in Hp, Hn.
      rewrite Hid in Hp. congruence. }
    by destruct r as [[]|?|?].
  - unfold ProfileService_GetProfile, wrapErr.
    destruct (Profile_Get id' d) as [r d1] eqn:E. apply SqlProfileGet_inv in E as [Ht _].
    assert (sql_profile d1 id = Some p) as Hd1 by (unfold sql_profile; by rewrite Ht).
    by destruct r.
Qed.

Lemma sql_profile_run ops d id p :
  sql_profile d id = Some p → sql_profile (profile_run (S:=D) ops d).2 id = Some p.
Proof.
  revert d. induction ops as [|o ops IH]; intros d Hp; [done|]. cbn [profile_run].
  pose proof (sql_profile_exec o d id p Hp) as Ho. destruct (profile_exec o d) as [res d1].
  specialize (IH d1 Ho). by destruct (profile_run ops d1) as [ress d2].
Qed.

(** First registration wins on MySQL, for all spellings of an identifier at
    once. When the service has registered a profile, no spelling of its
    identifier was registered before; and after any further calls, with whatever
    failures, reading any of them returns that profile (its instant less than a
    second away) or a failure other than "not found", and no registration of any
    of them succeeds. *)
Theorem sql_profile_first_wins (id name : string) (now : time) (p : Profile) (d d1 : D)
    (ops : list profile_op)
    (Hcreate : ProfileService_CreateProfile id name now d = (Ok p, d1)) :
  let d2 := (profile_run (S:=D) ops d1).2 in
  ∀ id', collate id' = collate id →
    sql_profile d id' = None ∧
    (∀ p', (SqlProfileRepo_Get id' d2).1 = Ok p' →
       Profile_ID p' = id ∧ Profile_Name p' = name ∧ Z.abs (Profile_CreatedAt p' - now) < Second) ∧
    (SqlProfileRepo_Get id' d2).1 ≠ Err profile_ErrNotFound ∧
    ∀ name' now', is_Ok (ProfileService_CreateProfile (S:=D) id' name' now' d2).1 = false.
Proof.
  intros d2 id' Hid. unfold ProfileService_CreateProfile in Hcreate.
  apply M_bind_Ok_inv in Hcreate as ([] & d0 & Hc%wrapErr_Ok_inv & [= <- ->]).
  apply SqlProfileCreate_inv in Hc as [_ [[Hne _]|(_ & Hnone & Hs)]]; [done|]. simpl in Hnone, Hs.
  assert (sql_profile d2 id' = Some (rounded_profile (Build_Profile id name now))) as Hd2.
  { apply sql_profile_run. by rewrite Hs, decide_True. }
  split; [unfold sql_profile in *; by rewrite Hid|].
  destruct (SqlProfileRepo_Get id' d2) as [r d3] eqn:E.
  apply SqlProfileGet_inv in E as (_ & _ & Hok & Hnf). split_and!.
  - intros p' Hr. rewrite (Hok p' Hr) in Hd2. injection Hd2 as ->.
    split_and!; [done|done|apply as_timestamp_near].
  - simpl. intros Hr. rewrite (Hnf Hr) in Hd2. done.
  - intros name' now'. unfold ProfileService_CreateProfile. rewrite M_bind_eq. unfold wrapErr.
    destruct (Profile_Create _ d2) as [r4 d4] eqn:E4.
    apply SqlProfileCreate_inv in E4 as [_ [[Hne _]|(_ & Hn & _)]]; [|change (sql_profile d2 id' = None) in Hn; congruence].
    by destruct r4 as [[]|?|?].
Qed.
End properties.

Lemma sql_profile_first_wins_witness :
  let d0 := {| ref_tables := no_rows; ref_faults := [NoFault; Refused; LostReply] |} in
  let d1 := (ProfileService_CreateProfile "Miku" "m" 7 d0).2 in
  let d2 := (profile_run [PCreate "miku" "x" 8; PCreate "rin" "r" 9] d1).2 in
  (SqlProfileRepo_Get "MIKU" d2).1 ≠ Err profile_ErrNotFound.
Proof.
  intros d0 d1 d2.
  exact (proj1 (proj2 (proj2 (sql_profile_first_wins "Miku" "m" 7 (Build_Profile "Miku" "m" 7) d0 d1
    [PCreate "miku" "x" 8; PCreate "rin" "r" 9] eq_refl "MIKU" eq_refl)))).
Defined.
