(* ===== verification/SqlBattle.v ===== *)
(** * Hit points in MySQL

    Models [internal/persistence/mysql/battle_repo.go] over the database of
    [Sql]: the transaction that reads a row for update and writes it back, and
    what it amounts to under failures. *)

From S2P Require Import GoLang Battle Sql.
#[local] Open Scope Z_scope.

Section repository.
Context {D Tx : Type} `{!MySQL D Tx}.

(** The locked hit points, inserted if there is no row. *)
Definition lock_or_insert (playerID : string) : M Tx Z := λ tx,
  match QueryRowContext (selectHPForUpdate playerID) tx with
  | (Err err, tx') =>
      if errors_Is err sql_ErrNoRows then
        (wrapErr "insert hp" (ExecContext (insertHP playerID DefaultInitialHP));;
         mret DefaultInitialHP) tx'
      else (Err (Errorf_w "select for update" err), tx')
  | r => r
  end.

(** [BeginTx] fails when the caller's context is done. *)
Definition SqlBattleRepo_ApplyDamageNaive (ctx : option error) (playerID : string) (damage : Z)
    : M D Z :=
  match ctx with
  | Some e => fail (Errorf_w "begin tx" e)
  | None =>
      InTx (hp ← lock_or_insert playerID;
            let newHP := hp [-] damage in
            let newHP := if newHP <? 0 then 0 else newHP in
            wrapErr "update hp" (ExecContext (updateHP newHP playerID));;
            mret newHP)
  end.

(** The instant is the row's: the last argument is not used. *)
Definition SqlBattleRepo_Get (playerID : string) (_ : time) : M D PlayerHP := λ d,
  match QueryRowContext (selectHP playerID) d with
  | (Ok row, d') =>
      (Ok {| HP_PlayerID := gen.PlayerHP_PlayerID row; HP := gen.PlayerHP_HP row;
             HP_UpdatedAt := gen.PlayerHP_UpdatedAt row |}, d')
  | (Err err, d') =>
      if errors_Is err sql_ErrNoRows then (Err battle_ErrNotFound, d')
      else (Err (Errorf_w "select" err), d')
  | (Panic w, d') => (Panic w, d')
  end.

Definition SqlBattleRepo_Reset (playerID : string) (hp : Z) : M D unit :=
  wrapErr "reset hp" (ExecContext (upsertHP playerID hp)).
End repository.

#[export] Instance mysql_BattleRepoOps `{!MySQL D Tx} : BattleRepoOps D := {|
  ApplyDamageNaive := SqlBattleRepo_ApplyDamageNaive;
  Battle_Reset := SqlBattleRepo_Reset;
  Battle_Get := SqlBattleRepo_Get |}.

Section properties.
Context {D Tx : Type} `{!MySQL D Tx, !MySQLLaws D Tx}.
Implicit Types (d : D).

(** The hit points a table gives a player, the initial ones without a row. *)
Definition hp_in (T : Tables) (p : string) : Z :=
  from_option gen.PlayerHP_HP DefaultInitialHP (find_row (hp_key collate) (collate p) (t_player_hp T)).

(** The table has a row for the player. *)
Definition has_hp (T : Tables) (p : string) : Prop :=
  is_Some (find_row (hp_key collate) (collate p) (t_player_hp T)).

Definition hp_fit (T : Tables) : Prop := ∀ p, 0 <= hp_in T p < int32_half.

Lemma hp_in_same T p q : collate p = collate q → hp_in T p = hp_in T q.
Proof. unfold hp_in. by intros ->. Qed.

Lemma tx_call_lock p : tx_call (lock_or_insert p).
Proof.
  intros tx. unfold lock_or_insert.
  assert (tx_call (QueryRowContext (C:=Tx) (selectHPForUpdate p))) as Hq.
  { apply tx_call_bind; [apply tx_call_query|]. intros [|row rows]; [apply tx_call_fail|apply tx_call_ret]. }
  destruct (Hq tx) as [Hb Hp].
  destruct (QueryRowContext _ tx) as [[hp|err|w] tx']; simpl in *; [done| |done].
  destruct (errors_Is err sql_ErrNoRows); [|done].
  assert (tx_call (wrapErr "insert hp" (ExecContext (C:=Tx) (insertHP p DefaultInitialHP));;
    mret DefaultInitialHP)) as Hi by eauto with go.
  destruct (Hi tx') as [Hb' Hp']. by rewrite Hb', Hb.
Qed.

(** The row after the lock: it is there, and nobody's hit points changed. *)
Lemma lock_or_insert_Ok p tx hp tx' :
  lock_or_insert p tx = (Ok hp, tx') →
  hp = hp_in (view tx) p ∧ has_hp (view tx') p ∧ ∀ q, hp_in (view tx') q = hp_in (view tx) q.
Proof.
  unfold lock_or_insert, QueryRowContext. rewrite M_bind_eq.
  destruct (QueryContext _ tx) as [[rows|err|w] tx1] eqn:E; apply tx_query in E as [_ Hr]; [| |done].
  - destruct Hr as [Hv Hr]. simpl in Hr. destruct (rows_with _ _ _) as [|row rest] eqn:Hf; simpl in Hr; subst rows.
    + unfold fail. rewrite errors_Is_refl.
      intros ([] & tx2 & Hi%wrapErr_Ok_inv & [= <- <-])%M_bind_Ok_inv.
      apply tx_exec in Hi as [_ [now Hi]]. unfold stmt_effect, put in Hi.
      rewrite bool_decide_eq_true_2 in Hi by (unfold DefaultInitialHP, int32_half; lia).
      destruct (insert_row _ _ _) as [l|] eqn:Hins; [|done]. injection Hi as Hi.
      assert (find_row (hp_key collate) (collate p) (t_player_hp (view tx)) = None) as Hnone
        by (unfold find_row; by rewrite Hf).
      assert (∀ q, find_row (hp_key collate) (collate q) (t_player_hp (view tx2)) =
        if decide (collate q = collate p) then Some (gen.Build_PlayerHP p DefaultInitialHP (as_timestamp now))
        else find_row (hp_key collate) (collate q) (t_player_hp (view tx))) as Hfind.
      { intros q. destruct (find_row_insert _ (collate q) _ _ _ Hins) as [_ Hq]. rewrite <- Hi. simpl in *.
        rewrite Hq, Hv. by case_decide. }
      split_and!.
      * unfold hp_in. by rewrite Hnone.
      * unfold has_hp. rewrite Hfind, decide_True by done. by eexists.
      * intros q. unfold hp_in. rewrite Hfind. case_decide as Hq; [|done]. by rewrite Hq, Hnone.
    + intros [= <- <-]. rewrite Hv. unfold hp_in, has_hp, find_row. rewrite Hf. split_and!; [done|by eexists|done].
  - simpl. rewrite Hr. done.
Qed.

(** The update of a row that is there. *)
Lemma updateHP_view n p now T T' :
  has_hp T p → stmt_effect collate as_timestamp now (updateHP n p) T = Applied T' →
  ∀ q, hp_in T' q = if decide (collate q = collate p) then n else hp_in T q.
Proof.
  intros [row Hrow]. unfold stmt_effect. case_bool_decide; [|done]. intros [= <-] q.
  unfold hp_in. simpl. rewrite find_row_update by done. case_decide as Hq; [|done].
  by rewrite Hq, Hrow.
Qed.

(** One hit: nothing, or the player's hit points less the damage; the latter when
    it answers, with that answer. *)
Lemma SqlApplyDamage_inv ctx p δ d r d' :
  hp_fit (tables d) → 1 <= δ <= MaxDamagePerRequest →
  SqlBattleRepo_ApplyDamageNaive ctx p δ d = (r, d') →
  no_panic r ∧
  ((tables d' = tables d ∧ is_Ok r = false) ∨
   ((∀ q, hp_in (tables d') q =
       if decide (collate q = collate p) then Z.max 0 (hp_in (tables d) p - δ) else hp_in (tables d) q) ∧
    ∀ hp, r = Ok hp → hp = Z.max 0 (hp_in (tables d) p - δ))).
Proof.
  intros Hfit Hδ. unfold SqlBattleRepo_ApplyDamageNaive.
  destruct ctx as [e|]; [intros [= <- <-]; split; [done|by left]|].
  intros [[Ht [e ->]]|(tx & hp & tx' & Hv & Hbody & Ht & Hr)]%InTx_inv.
  - split; [done|by left].
  - split; [by destruct Hr as [->|[e ->]]|]. right.
    apply M_bind_Ok_inv in Hbody as (hp0 & tx1 & (Hhp & Hrow & Hsame)%lock_or_insert_Ok & Hbody).
    apply M_bind_Ok_inv in Hbody as ([] & tx2 & Hup%wrapErr_Ok_inv & [= <- <-]).
    apply tx_exec in Hup as [_ [now Hup]]. pose proof (updateHP_view _ _ _ _ _ Hrow Hup) as Hq.
    assert ((if hp0 [-] δ <? 0 then 0 else hp0 [-] δ) = Z.max 0 (hp_in (tables d) p - δ)) as E.
    { rewrite Hhp, Hv. pose proof (Hfit p). unfold MaxDamagePerRequest, int32_half in *.
      rewrite int_sub_small by int_range. destruct (Z.ltb_spec (hp_in (tables d) p - δ) 0); lia. }
    rewrite E in *. split.
    + intros q. rewrite Ht, Hq, Hsame, Hv. done.
    + intros hp. destruct Hr as [->|[e ->]]; [by intros [= <-]|done].
  - apply tx_call_bind; [apply tx_call_lock|]. intros hp. eauto with go.
Qed.

(** ** A sequence of requests *)

(** Requests with their contexts, one after the other, through the naive
    applier. *)
Fixpoint naive_all (hits : list (option error * (string * Z))) (d : D) : list (result Z) * D :=
  match hits with
  | [] => ([], d)
  | (ctx, (p, δ)) :: hits' =>
      let '(r, d1) := V1Naive_Apply ctx p δ d in
      let '(rs, d2) := naive_all hits' d1 in (r :: rs, d2)
  end.

(** The requests that were answered with hit points. *)
Definition answered (hits : list (option error * (string * Z))) (rs : list (result Z))
    : list (string * Z) :=
  omap (λ '(hit, r), if is_Ok r then Some hit.2 else None) (zip hits rs).

(** The damage a sequence deals to whoever the collation takes for the player. *)
Definition collated_damage (q : string) (hits : list (string * Z)) : Z :=
  foldr (λ '(p, δ) acc, if decide (collate q = collate p) then δ + acc else acc) 0 hits.

Lemma collated_damage_nonneg q hits : Forall valid_hit hits → 0 <= collated_damage q hits.
Proof.
  unfold valid_hit, collated_damage.
  induction 1 as [|[p δ] hits Hδ _ IH]; simpl in *; [done|]. case_decide; lia.
Qed.

Lemma V1Naive_sql ctx p δ d r d1 :
  hp_fit (tables d) → V1Naive_Apply ctx p δ d = (r, d1) →
  ∃ app, (app = [] ∧ is_Ok r = false ∨ app = [(p, δ)]) ∧ Forall valid_hit app ∧
    ∀ q, hp_in (tables d1) q = Z.max 0 (hp_in (tables d) q - collated_damage q app).
Proof.
  intros Hfit. unfold V1Naive_Apply.
  assert (∀ d1, tables d1 = tables d → ∀ q, hp_in (tables d1) q = Z.max 0 (hp_in (tables d) q - 0)) as Hsame.
  { intros d2 -> q. pose proof (Hfit q). lia. }
  destruct (damage_refused δ) eqn:Hd.
  { intros [= <- <-]. exists []. split_and!; [by left|constructor|by apply Hsame]. }
  apply damage_refused_false in Hd. unfold wrapErr.
  destruct (ApplyDamageNaive ctx p δ d) as [r0 d0] eqn:E.
  apply SqlApplyDamage_inv in E as (_ & [[Ht Hno]|[Hq _]]); [| |done|done].
  - destruct r0 as [hp|e|w]; [done|..]; intros [= <- <-]; exists [];
      (split_and!; [by left|constructor|by apply Hsame]).
  - assert (∀ q, hp_in (tables d0) q = Z.max 0 (hp_in (tables d) q - collated_damage q [(p, δ)])) as Hq'.
    { intros q. rewrite Hq. unfold collated_damage. simpl. pose proof (Hfit q).
      case_decide as Hk; [rewrite (hp_in_same _ q p Hk); f_equal; lia|lia]. }
    destruct r0 as [hp|e|w]; intros [= <- <-]; exists [(p, δ)]; (split_and!; [by right|by constructor|done]).
Qed.

(** The naive applier on MySQL. After any sequence of requests, with contexts
    that are done, statements that are refused and replies that are lost, the hit
    points of every player are [max 0 (initial - damage)] for the damage of the
    requests that took effect; these are all requests that were answered and
    possibly others that were submitted, all with a damage in 1..100000. *)
Theorem sql_naive_hits (hits : list (option error * (string * Z))) (d : D)
    (Hfit : hp_fit (tables d)) :
  ∃ app, answered hits (naive_all hits d).1 `sublist_of` app ∧ app `sublist_of` hits.*2 ∧
    Forall valid_hit app ∧
    ∀ q, hp_in (tables (naive_all hits d).2) q = Z.max 0 (hp_in (tables d) q - collated_damage q app).
Proof.
  revert d Hfit. induction hits as [|[ctx [p δ]] hits IH]; intros d Hfit.
  { exists []. split_and!; [constructor..|]. intros q. pose proof (Hfit q).
    unfold collated_damage. simpl. lia. }
  cbn [naive_all]. destruct (V1Naive_Apply ctx p δ d) as [r d1] eqn:E.
  destruct (V1Naive_sql _ _ _ _ _ _ Hfit E) as (app & Happ & Hv & Hq).
  assert (hp_fit (tables d1)) as Hfit1.
  { intros q. rewrite Hq. pose proof (Hfit q). pose proof (collated_damage_nonneg q app Hv). lia. }
  destruct (IH d1 Hfit1) as (apps & Hs & Hs' & Hvs & Hqs).
  destruct (naive_all hits d1) as [rs d2]. simpl in *.
  exists (app ++ apps). split_and!.
  - unfold answered in *. simpl. destruct Happ as [[-> ->]| ->]; simpl; [done|].
    destruct (is_Ok r); [by constructor|by constructor].
  - destruct Happ as [[-> _]| ->]; simpl; by constructor.
  - by apply Forall_app.
  - intros q. rewrite Hqs, Hq. pose proof (collated_damage_nonneg q apps Hvs).
    assert (collated_damage q (app ++ apps) = collated_damage q app + collated_damage q apps) as ->.
    { destruct Happ as [[-> _]| ->]; unfold collated_damage; simpl; [lia|]. case_decide; lia. }
    pose proof (Hfit q). pose proof (collated_damage_nonneg q app Hv). lia.
Qed.

(** Resetting and reading hit points round-trip. A reset that succeeds sets
    exactly the player it names, in range for the column; reading the player
    then, under any spelling, never says "not found", and an answer has those hit
    points under the stored spelling. *)
Theorem SqlBattle_Reset_Get (p q : string) (hp : Z) (now : time) (d d1 : D)
    (Hreset : SqlBattleRepo_Reset p hp d = (Ok tt, d1)) :
  - int32_half <= hp < int32_half ∧
  (∀ q, hp_in (tables d1) q = if decide (collate q = collate p) then hp else hp_in (tables d) q) ∧
  (collate q = collate p →
   let out := SqlBattleRepo_Get q now d1 in
   tables out.2 = tables d1 ∧ out.1 ≠ Err battle_ErrNotFound ∧
   ∀ php, out.1 = Ok php → HP php = hp ∧ collate (HP_PlayerID php) = collate p).
Proof.
  unfold SqlBattleRepo_Reset in Hreset. apply wrapErr_Ok_inv in Hreset.
  apply db_exec in Hreset as [now' He]. unfold stmt_effect in He.
  case_bool_decide as Hrange; [|done]. injection He as He.
  assert (∀ q, find_row (hp_key collate) (collate q) (t_player_hp (tables d1)) =
    if decide (collate q = collate p) then
      Some (from_option (λ r, gen.Build_PlayerHP (gen.PlayerHP_PlayerID r) hp (as_timestamp now'))
              (gen.Build_PlayerHP p hp (as_timestamp now'))
              (find_row (hp_key collate) (collate p) (t_player_hp (tables d))))
    else find_row (hp_key collate) (collate q) (t_player_hp (tables d))) as Hfind.
  { intros q'. rewrite <- He. simpl. rewrite find_row_upsert by done. done. }
  split; [done|]. split.
  - intros q'. unfold hp_in. rewrite Hfind. case_decide; [|done].
    by destruct (find_row _ (collate p) _).
  - intros Hq out. specialize (Hfind q). rewrite decide_True in Hfind by done. subst out.
    unfold SqlBattleRepo_Get.
    destruct (QueryRowContext _ d1) as [[row|err|w] d2] eqn:E; apply QueryRow_inv in E as [Ht Hr]; [| |done].
    + simpl. split_and!; [done|done|]. intros php [= <-]. destruct Hr as [rows Hr]. simpl in Hr.
      apply find_row_hd in Hr as Hrow. rewrite Hfind in Hrow. injection Hrow as Hrow. simpl.
      destruct (find_row _ (collate p) (t_player_hp (tables d))) as [r0|] eqn:H0; simpl in Hrow; subst row;
        (split; [done|]); [|done]. simpl. by apply find_row_elem in H0 as [? _].
    + case_decide as Hno; rewrite ?Hno; [|rewrite (not_true_is_false _ Hno); by split_and!].
      simpl in Hr. apply find_row_none in Hr. by rewrite Hfind in Hr.
Qed.
End properties.

(** ** On the reference server *)

Definition demo_hp_db (faults : list fault) : RefDB := {| ref_tables := no_rows; ref_faults := faults |}.

(** The first hit inserts and commits, the second is refused at its begin, the
    commit of the third loses its reply, the fourth is out of range, the last
    has a context that is done. *)
Definition demo_hits : list (option error * (string * Z)) :=
  [(None, ("miku", 300)); (None, ("miku", 5)); (None, ("Miku", 40)); (None, ("miku", 0));
   (Some bad_connection, ("miku", 7))].

Lemma demo_hp_fit faults : hp_fit (D:=RefDB) (tables (demo_hp_db faults)).
Proof. intros p. unfold hp_in, DefaultInitialHP, int32_half. simpl. lia. Qed.

Lemma sql_naive_hits_witness :
  let faults := [NoFault; NoFault; Refused; NoFault; LostReply] in
  ∃ app, [("miku", 300)] `sublist_of` app ∧
    hp_in (D:=RefDB) (tables (naive_all demo_hits (demo_hp_db faults)).2) "MIKU" =
      Z.max 0 (10000 - collated_damage (D:=RefDB) "MIKU" app).
Proof.
  intros faults.
  destruct (sql_naive_hits demo_hits (demo_hp_db faults) (demo_hp_fit faults)) as (app & Hs & _ & _ & Hq).
  exists app. split; [exact Hs|]. exact (Hq "MIKU").
Defined.

Example demo_hits_run :
  let out := naive_all demo_hits (demo_hp_db [NoFault; NoFault; Refused; NoFault; LostReply]) in
  is_Ok <$> out.1 = [true; false; false; false; false] ∧
  hp_in (D:=RefDB) (tables out.2) "miku" = 9660.
Proof. by vm_compute. Qed.

Lemma SqlBattle_Reset_Get_witness :
  let d1 := (SqlBattleRepo_Reset "Miku" 55 (demo_hp_db [])).2 in
  (SqlBattleRepo_Get "miku" 0 d1).1 ≠ Err battle_ErrNotFound.
Proof.
  intros d1.
  exact (proj1 (proj2 (proj2 (proj2 (SqlBattle_Reset_Get "Miku" "miku" 55 0 (demo_hp_db []) d1 eq_refl))
    eq_refl))).
Defined.
