(* ===== verification/SqlLocks.v ===== *)
(** * Concurrent hits on MySQL

    [ApplyDamageNaive] of [internal/persistence/mysql/battle_repo.go], statement by
    statement: calls on different connections interleave between any two
    statements, and a statement may have to wait for a lock. What the server
    does is an interface ([LockingDB]) with the documented behaviour of locking
    reads ([LockingLaws]): [SELECT ... FOR UPDATE] takes the row's exclusive lock
    and reads what is committed, the lock is held to the end of the transaction,
    and others wait. Every statement may also be refused (a deadlock, a
    timeout, a lost connection). *)

From S2P Require Import GoLang Battle Sql SqlBattle.
#[local] Open Scope Z_scope.

(** ** The server, for transactions with numbers *)

(** A statement that has to wait gives [None]. *)
Class LockingDB (D : Type) := {
  lk_begin : nat → D → result unit * D;
  lk_select : nat → query Z → D → option (result (list Z) * D);
  lk_exec : nat → stmt → D → option (result unit * D);
  lk_commit : nat → D → result unit * D;
  lk_rollback : nat → D → D;
  lk_refuse : nat → D → D }.

(** ** One call, statement by statement *)

(** The next statement. *)
Inductive hit_pc :=
  | PBegin
  | PSelect
  | PInsert
  | PUpdate (hp : Z)
  | PCommit (newHP : Z)
  | PRollback (r : result Z)
  | PDone (r : result Z).

Record hit := { h_ctx : option error; h_player : string; h_damage : Z; h_pc : hit_pc }.

Definition at_pc (h : hit) (pc : hit_pc) : hit :=
  {| h_ctx := h_ctx h; h_player := h_player h; h_damage := h_damage h; h_pc := pc |}.

(** A call of [V1Naive.Apply]: it refuses some damages at once. *)
Definition new_hit (ctx : option error) (p : string) (δ : Z) : hit := {|
  h_ctx := ctx; h_player := p; h_damage := δ;
  h_pc := if damage_refused δ then PDone (Err battle_ErrInvalidDamage) else PBegin |}.

(** An error, in its wrapping. *)
Definition failed (prefix : string) (r : result Z → hit_pc) {A} (out : result A) : hit_pc :=
  match out with
  | Ok _ => r (Panic "unreachable")
  | Err e => r (Err (Errorf_w prefix e))
  | Panic w => r (Panic w)
  end.

Section steps.
Context {D : Type} `{!LockingDB D}.

Definition hit_step (i : nat) (h : hit) (d : D) : option (hit_pc * D) :=
  let p := h_player h in
  match h_pc h with
  | PBegin =>
      match h_ctx h with
      | Some e => Some (PDone (Err (Errorf_w "begin tx" e)), d)
      | None =>
          match lk_begin i d with
          | (Ok _, d') => Some (PSelect, d')
          | (r, d') => Some (failed "begin tx" PDone r, d')
          end
      end
  | PSelect =>
      '(r, d') ← lk_select i (selectHPForUpdate p) d;
      Some (match r with
            | Ok (hp :: _) => PUpdate hp
            | Ok [] => PInsert
            | _ => failed "select for update" PRollback r
            end, d')
  | PInsert =>
      '(r, d') ← lk_exec i (insertHP p DefaultInitialHP) d;
      Some (match r with Ok _ => PUpdate DefaultInitialHP | _ => failed "insert hp" PRollback r end, d')
  | PUpdate hp =>
      let newHP := hp [-] h_damage h in
      let newHP := if newHP <? 0 then 0 else newHP in
      '(r, d') ← lk_exec i (updateHP newHP p) d;
      Some (match r with Ok _ => PCommit newHP | _ => failed "update hp" PRollback r end, d')
  | PCommit newHP =>
      match lk_commit i d with
      | (Ok _, d') => Some (PDone (Ok newHP), d')
      | (r, d') => Some (failed "commit" PDone r, d')
      end
  | PRollback r => Some (PDone r, lk_rollback i d)
  | PDone _ => None
  end.

(** ** Calls that interleave *)

(** A call is known by its number, which is also its transaction's. *)
Record hits_sys := { hs_db : D; hs_hits : list hit }.

Inductive hit_event :=
  | EHit (ctx : option error) (p : string) (δ : Z)
  | EStep (i : nat)
  | ERefuse (i : nat).

Definition hits_fire (e : hit_event) (c : hits_sys) : option hits_sys :=
  match e with
  | EHit ctx p δ => Some {| hs_db := hs_db c; hs_hits := hs_hits c ++ [new_hit ctx p δ] |}
  | EStep i =>
      h ← hs_hits c !! i;
      '(pc, d') ← hit_step i h (hs_db c);
      Some {| hs_db := d'; hs_hits := <[i := at_pc h pc]> (hs_hits c) |}
  | ERefuse i => Some {| hs_db := lk_refuse i (hs_db c); hs_hits := hs_hits c |}
  end.

Fixpoint hits_run (es : list hit_event) (c : hits_sys) : option hits_sys :=
  match es with
  | [] => Some c
  | e :: es' => c' ← hits_fire e c; hits_run es' c'
  end.
End steps.
Arguments hits_sys : clear implicits.

(** ** What the server promises *)

Section promises.
Context {D : Type} (mine : D → nat → option (string * Z)) (locked : D → nat → string → Prop).

(** Nothing but transaction [i] is concerned. *)
Definition others_keep (i : nat) (d d' : D) : Prop :=
  ∀ j, j ≠ i → mine d' j = mine d j ∧ ∀ k, locked d' j k ↔ locked d j k.

(** Transaction [i] has neither locks nor writes. *)
Definition idle (d : D) (i : nat) : Prop := mine d i = None ∧ ∀ k, ¬ locked d i k.
End promises.

(** [row] is what is committed, [mine] the row a transaction has written, [locked] its
    exclusive locks; rows are known by their collated names. *)
Class LockingLaws (D : Type) `{!LockingDB D} := {
  lk_collate : string → string;
  row : D → string → option Z;
  mine : D → nat → option (string * Z);
  locked : D → nat → string → Prop;
  lock_exclusive : ∀ d i j k, locked d i k → locked d j k → i = j;
  begin_law : ∀ i d r d', lk_begin i d = (r, d') →
    no_panic r ∧ others_keep mine locked i d d' ∧ row d' = row d ∧
    (idle mine locked d i → idle mine locked d' i);
  select_law : ∀ i p d r d', lk_select i (selectHPForUpdate p) d = Some (r, d') →
    others_keep mine locked i d d' ∧ row d' = row d ∧
    match r with
    | Ok (hp :: _) => idle mine locked d i → row d (lk_collate p) = Some hp ∧ locked d' i (lk_collate p)
    | Ok [] => idle mine locked d i → row d (lk_collate p) = None ∧ idle mine locked d' i
    | Err _ => True
    | Panic _ => False
    end;
  insert_law : ∀ i p n d r d', lk_exec i (insertHP p n) d = Some (r, d') →
    others_keep mine locked i d d' ∧ row d' = row d ∧
    match r with
    | Ok _ => row d (lk_collate p) = None ∧ locked d' i (lk_collate p)
    | Err _ => True
    | Panic _ => False
    end;
  update_law : ∀ i p n d r d', lk_exec i (updateHP n p) d = Some (r, d') →
    others_keep mine locked i d d' ∧ row d' = row d ∧
    match r with
    | Ok _ => locked d i (lk_collate p) → locked d' i (lk_collate p) ∧ mine d' i = Some (lk_collate p, n)
    | Err _ => True
    | Panic _ => False
    end;
  commit_law : ∀ i d r d', lk_commit i d = (r, d') →
    let written k := match mine d i with
                     | Some (k', n) => if decide (k = k') then Some n else row d k
                     | None => row d k
                     end in
    no_panic r ∧ others_keep mine locked i d d' ∧ idle mine locked d' i ∧
    ((∀ k, row d' k = written k) ∨ (is_Ok r = false ∧ row d' = row d));
  rollback_law : ∀ i d, others_keep mine locked i d (lk_rollback i d) ∧ row (lk_rollback i d) = row d ∧
    idle mine locked (lk_rollback i d) i;
  refuse_law : ∀ i d, row (lk_refuse i d) = row d ∧
    ∀ j, mine (lk_refuse i d) j = mine d j ∧ ∀ k, locked (lk_refuse i d) j k ↔ locked d j k;
  select_waits : ∀ i p d, lk_select i (selectHPForUpdate p) d = None →
    ∃ j, j ≠ i ∧ locked d j (lk_collate p);
  insert_waits : ∀ i p n d, lk_exec i (insertHP p n) d = None →
    row d (lk_collate p) = None ∨ ∃ j, j ≠ i ∧ locked d j (lk_collate p);
  update_waits : ∀ i p n d, lk_exec i (updateHP n p) d = None →
    ∃ j, j ≠ i ∧ locked d j (lk_collate p) }.

(** ** The order of the commits *)

Section properties.
Context {D : Type} `{!LockingDB D, !LockingLaws D}.
Implicit Types (d : D) (c : hits_sys D) (h : hit) (app : list nat).

(** The hit points a player has, the initial ones without a row. *)
Definition hp_now d (k : string) : Z := default DefaultInitialHP (row d k).

Definition key_of h : string := lk_collate (h_player h).

Definition hit_on (k : string) (l : list hit) (i : nat) : Z :=
  match l !! i with
  | Some h => if decide (key_of h = k) then h_damage h else 0
  | None => 0
  end.

(** The damage a list of calls deals to a player. *)
Definition dealt (l : list hit) (k : string) app : Z := foldr (λ i acc, hit_on k l i + acc) 0 app.

Lemma dealt_app l k app1 app2 : dealt l k (app1 ++ app2) = dealt l k app1 + dealt l k app2.
Proof. unfold dealt. induction app1 as [|i app1 IH]; simpl; lia. Qed.

Lemma dealt_same l l' k app :
  (∀ i, i ∈ app → hit_on k l' i = hit_on k l i) → dealt l' k app = dealt l k app.
Proof.
  induction app as [|i app IH]; intros H; [done|]. simpl.
  rewrite (H i), IH by (intros; rewrite ?elem_of_cons in *; try apply H; set_solver). done.
Qed.

Lemma dealt_nonneg l k app :
  Forall (λ i, ∀ h, l !! i = Some h → 0 <= h_damage h) app → 0 <= dealt l k app.
Proof.
  induction 1 as [|i app Hi _ IH]; simpl; [done|]. unfold hit_on.
  destruct (l !! i) as [h|]; [|lia]. specialize (Hi h eq_refl). case_decide; lia.
Qed.

(** Where the call [i] stands beside the database, the initial hit points and the
    commits so far. *)
Definition hit_ok (hp0 : string → Z) d (l : list hit) app (i : nat) h : Prop :=
  match h_pc h with
  | PBegin | PSelect | PInsert => (i ∉ app) ∧ idle mine locked d i
  | PUpdate hp => (i ∉ app) ∧ locked d i (key_of h) ∧ hp = hp_now d (key_of h)
  | PCommit n =>
      (i ∉ app) ∧ locked d i (key_of h) ∧ mine d i = Some (key_of h, n) ∧
      n = Z.max 0 (hp_now d (key_of h) - h_damage h)
  | PRollback r => (i ∉ app) ∧ is_Ok r = false ∧ no_panic r
  | PDone r => idle mine locked d i ∧ no_panic r ∧
      ∀ n, r = Ok n → ∃ app1 app2, app = app1 ++ i :: app2 ∧
        n = Z.max 0 (hp0 (key_of h) - dealt l (key_of h) (app1 ++ [i]))
  end.

(** Calls under way deal a valid damage, and so do those that took effect. *)
Definition damage_ok app (i : nat) h : Prop :=
  (∃ r, h_pc h = PDone r) ∧ (i ∉ app) ∨ 1 <= h_damage h <= MaxDamagePerRequest.

Definition hits_inv (hp0 : string → Z) app c : Prop :=
  NoDup app ∧ Forall (λ i, (i < length (hs_hits c))%nat) app ∧
  (∀ k, hp_now (hs_db c) k = Z.max 0 (hp0 k - dealt (hs_hits c) k app)) ∧
  (∀ i h, hs_hits c !! i = Some h → hit_ok hp0 (hs_db c) (hs_hits c) app i h ∧ damage_ok app i h) ∧
  (∀ i, (length (hs_hits c) <= i)%nat → idle mine locked (hs_db c) i).

Lemma idle_keep i j d d' : others_keep mine locked i d d' → j ≠ i → idle mine locked d j → idle mine locked d' j.
Proof.
  intros Hk Hne [Hm Hl]. destruct (Hk j Hne) as [Hm' Hl']. split; [congruence|].
  intros k Hx. by apply (Hl k), Hl'.
Qed.

(** Another call's step leaves a call where it stands: what it has locked and the
    hit points of its player stay. *)
Lemma hit_ok_other hp0 d d' l l' app app' i j h :
  others_keep mine locked i d d' → j ≠ i →
  (∀ k, locked d j k → hp_now d' k = hp_now d k) →
  (j ∉ app → j ∉ app') → (∃ more, app' = app ++ more) →
  (∀ k x, x ∈ app → hit_on k l' x = hit_on k l x) →
  hit_ok hp0 d l app j h → hit_ok hp0 d' l' app' j h.
Proof.
  intros Hk Hne Hhp Hnot [more ->] Hsame. unfold hit_ok. destruct (Hk j Hne) as [Hm Hl].
  destruct (h_pc h) as [| | |hp|n|r|r].
  1-3: intros [? ?]; split; [by apply Hnot|by eapply idle_keep].
  - intros (? & Hlock & ->). split_and!; [by apply Hnot|by apply Hl|by rewrite Hhp].
  - intros (? & Hlock & Hmine & ->). split_and!; [by apply Hnot|by apply Hl|congruence|by rewrite Hhp].
  - intros (? & ? & ?). split_and!; [by apply Hnot|done..].
  - intros (Hidle & Hp & Hr). split_and!; [by eapply idle_keep|done|]. intros n Hn.
    destruct (Hr n Hn) as (app1 & app2 & -> & ->). exists app1, (app2 ++ more).
    split; [by rewrite <- app_assoc|]. rewrite (dealt_same l l'); [done|].
    intros x Hx. apply Hsame. set_solver.
Qed.

Lemma hit_on_at_pc k l i h pc x :
  l !! i = Some h → hit_on k (<[i := at_pc h pc]> l) x = hit_on k l x.
Proof.
  intros Hi. unfold hit_on. destruct (decide (i = x)) as [<-|Hne].
  - by rewrite list_lookup_insert_eq, Hi by (by eapply lookup_lt_Some).
  - by rewrite list_lookup_insert_ne.
Qed.

(** How the list of commits grows with a step of call [i], and the hit points with it. *)
Definition commits (i : nat) h d d' app app' : Prop :=
  (app' = app ∧ ∀ k, hp_now d' k = hp_now d k) ∨
  (app' = app ++ [i] ∧ (i ∉ app) ∧ locked d i (key_of h) ∧ 1 <= h_damage h ∧
   ∀ k, hp_now d' k = if decide (key_of h = k) then Z.max 0 (hp_now d k - h_damage h) else hp_now d k).

Lemma inv_step hp0 app app' d d' l i h pc :
  hits_inv hp0 app {| hs_db := d; hs_hits := l |} → l !! i = Some h → others_keep mine locked i d d' →
  commits i h d d' app app' →
  hit_ok hp0 d' (<[i := at_pc h pc]> l) app' i (at_pc h pc) → damage_ok app' i (at_pc h pc) →
  hits_inv hp0 app' {| hs_db := d'; hs_hits := <[i := at_pc h pc]> l |}.
Proof.
  intros (Hnd & Hlt & Hhp & Hok & Hidle) Hi Hk Hc Hme Hdam. cbn [hs_db hs_hits] in *.
  assert (i < length l)%nat as Hil by by eapply lookup_lt_Some.
  assert (∀ k ids, dealt (<[i := at_pc h pc]> l) k ids = dealt l k ids) as Hdealt.
  { intros k ids. apply dealt_same. intros x _. by apply hit_on_at_pc. }
  unfold hits_inv. cbn [hs_db hs_hits]. rewrite length_insert. split_and!.
  - destruct Hc as [[-> _]|(-> & Hno & _)]; [done|]. apply NoDup_app. split_and!; [done|set_solver|apply NoDup_singleton].
  - destruct Hc as [[-> _]|(-> & _)]; [done|]. apply Forall_app. split; [done|by constructor].
  - intros k. rewrite Hdealt. destruct Hc as [[-> ->]|(-> & _ & _ & Hδ & ->)]; [done|].
    assert (dealt l k [i] = if decide (key_of h = k) then h_damage h else 0) as E.
    { unfold dealt, hit_on. cbn [foldr]. rewrite Hi. lia. }
    rewrite dealt_app, E, Hhp. case_decide; lia.
  - intros j h' Hj. destruct (decide (i = j)) as [<-|Hne].
    { rewrite list_lookup_insert_eq in Hj by done. injection Hj as <-. done. }
    rewrite list_lookup_insert_ne in Hj by done. destruct (Hok j h' Hj) as [Hokj Hdj]. split.
    + eapply (hit_ok_other _ d d' l _ app app' i); [done|done| | | | |done].
      * intros k Hlock. destruct Hc as [[_ ->]|(_ & _ & Hli & _ & ->)]; [done|].
        case_decide as E; [|done]. subst k. by destruct Hne; eapply lock_exclusive.
      * destruct Hc as [[-> _]|(-> & _)]; [done|]. set_solver.
      * destruct Hc as [[-> _]|(-> & _)]; [exists []; by rewrite app_nil_r|by eexists].
      * intros k x _. by apply hit_on_at_pc.
    + destruct Hdj as [[? ?]|?]; [left|by right]. split; [done|].
      destruct Hc as [[-> _]|(-> & _)]; [done|]. set_solver.
  - intros j Hj. eapply idle_keep; [done| |by apply Hidle]. lia.
Qed.

Lemma idle_others i d d' : others_keep mine locked i d d' → idle mine locked d' i →
  (∀ j, idle mine locked d j → idle mine locked d' j).
Proof.
  intros Hk Hi j Hj. destruct (decide (j = i)) as [->|Hne]; [done|by eapply idle_keep].
Qed.

(** A step that commits nothing. *)
Lemma inv_quiet hp0 app d d' l i h pc :
  hits_inv hp0 app {| hs_db := d; hs_hits := l |} → l !! i = Some h →
  others_keep mine locked i d d' → row d' = row d → 1 <= h_damage h <= MaxDamagePerRequest →
  hit_ok hp0 d' (<[i := at_pc h pc]> l) app i (at_pc h pc) →
  ∃ app', hits_inv hp0 app' {| hs_db := d'; hs_hits := <[i := at_pc h pc]> l |}.
Proof.
  intros Hinv Hi Hk Hrow Hδ Hme. exists app.
  apply (inv_step hp0 app app d d' l i h pc); [done|done|done| |done|by right].
  left. split; [done|]. intros k. unfold hp_now. by rewrite Hrow.
Qed.

Lemma others_keep_refl i d : others_keep mine locked i d d.
Proof. done. Qed.

Lemma hp_now_range hp0 app c k :
  hits_inv hp0 app c → 0 <= hp0 k < int32_half → 0 <= hp_now (hs_db c) k < int32_half.
Proof.
  intros (Hnd & Hlt & Hhp & Hok & _) Hk. rewrite Hhp.
  assert (0 <= dealt (hs_hits c) k app); [|lia]. apply dealt_nonneg, Forall_forall.
  intros i Hin h Hi. destruct (Hok i h Hi) as [_ [[_ ?]|?]]; [done|]. lia.
Qed.

Lemma inv_commit hp0 app d l i h n r d' :
  hits_inv hp0 app {| hs_db := d; hs_hits := l |} → l !! i = Some h → h_pc h = PCommit n →
  1 <= h_damage h <= MaxDamagePerRequest → lk_commit i d = (r, d') →
  ∃ app' pc, hit_step i h d = Some (pc, d') ∧
    hits_inv hp0 app' {| hs_db := d'; hs_hits := <[i := at_pc h pc]> l |}.
Proof.
  intros Hinv Hi Hpc Hδ E. pose proof Hinv as (_ & _ & Hhp & Hok & _). cbn [hs_db hs_hits] in *.
  destruct (Hok i h Hi) as [Hme _]. unfold hit_ok in Hme. rewrite Hpc in Hme.
  destruct Hme as (Hno & Hlock & Hmine & Hn). pose proof (commit_law i d r d' E) as Hlaw.
  cbv zeta in Hlaw. rewrite Hmine in Hlaw. destruct Hlaw as (Hp & Hk & Hidle & Hrow).
  set (pc := match r with Ok _ => PDone (Ok n) | _ => failed "commit" PDone r end).
  assert (hit_step i h d = Some (pc, d')) as Hs.
  { unfold hit_step. rewrite Hpc, E. by destruct r. }
  assert (∀ app', (r = Ok tt → ∃ app1 app2, app' = app1 ++ i :: app2 ∧
      n = Z.max 0 (hp0 (key_of h) - dealt (<[i := at_pc h pc]> l) (key_of h) (app1 ++ [i]))) →
    hit_ok hp0 d' (<[i := at_pc h pc]> l) app' i (at_pc h pc)) as Hdone.
  { intros app' Happ. unfold hit_ok, pc. cbn [h_pc at_pc]. destruct r as [[]|e|w]; [|by split_and!|done].
    split_and!; [done|done|]. intros n' [= <-]. by apply Happ. }
  destruct Hrow as [Hrow|[Hr Hrow]].
  - exists (app ++ [i]), pc. split; [done|].
    assert (∀ k, hp_now d' k = if decide (key_of h = k) then Z.max 0 (hp_now d k - h_damage h) else hp_now d k) as Hnow.
    { intros k. unfold hp_now at 1. rewrite Hrow. case_decide as E1.
      - subst k. rewrite decide_True by done. simpl. done.
      - by rewrite decide_False by done. }
    apply (inv_step hp0 app _ d d' l i h pc); [done|done|done| | |by right].
    + right. split_and!; [done|done|done|lia|done].
    + apply Hdone. intros _. exists app, []. split; [done|].
      rewrite (dealt_same l) by (intros; by apply hit_on_at_pc). rewrite dealt_app, Hn, Hhp.
      assert (dealt l (key_of h) [i] = h_damage h) as ->.
      { unfold dealt, hit_on. cbn [foldr]. rewrite Hi, decide_True by done. lia. }
      lia.
  - destruct (inv_quiet hp0 app d d' l i h pc) as [app' ?]; [done..| |by exists app', pc].
    apply Hdone. by intros ->.
Qed.

Lemma inv_hit_step hp0 app d l i h pc d' :
  (∀ k, 0 <= hp0 k < int32_half) →
  hits_inv hp0 app {| hs_db := d; hs_hits := l |} → l !! i = Some h → hit_step i h d = Some (pc, d') →
  ∃ app', hits_inv hp0 app' {| hs_db := d'; hs_hits := <[i := at_pc h pc]> l |}.
Proof.
  intros Hhp0 Hinv Hi Hs. pose proof Hinv as (_ & _ & _ & Hok & _). cbn [hs_db hs_hits] in *.
  destruct (Hok i h Hi) as [Hme Hdam].
  assert (1 <= h_damage h <= MaxDamagePerRequest ∨ ∃ r, h_pc h = PDone r) as [Hδ|[r Hr]]
    by (destruct Hdam as [[? _]|?]; auto); [|by unfold hit_step in Hs; rewrite Hr in Hs].
  destruct (h_pc h) as [| | |hp|n|r|r] eqn:Hpc; unfold hit_ok in Hme; rewrite Hpc in Hme;
    [| | | |by destruct (lk_commit i d) as [r d1] eqn:E;
            destruct (inv_commit hp0 app d l i h n r d1) as (app' & pc' & E' & Hinv'); try done;
            rewrite Hs in E'; injection E' as -> ->; exists app'| |];
    unfold hit_step in Hs; rewrite Hpc in Hs.
  - destruct Hme as [Hno Hidle]. destruct (h_ctx h) as [e|].
    { injection Hs as <- <-. by apply (inv_quiet hp0 app d). }
    destruct (lk_begin i d) as [r d1] eqn:E. apply begin_law in E as (Hp & Hk & Hrow & Hid).
    specialize (Hid Hidle).
    destruct r as [[]|e|w]; injection Hs as <- <-; [| |done];
      (apply (inv_quiet hp0 app d); [done..|]); unfold hit_ok; cbn; by split_and!.
  - destruct Hme as [Hno Hidle]. destruct (lk_select _ _ d) as [[r d1]|] eqn:E; [|done].
    apply select_law in E as (Hk & Hrow & Hr). injection Hs as <- <-.
    apply (inv_quiet hp0 app d); [done..|]. unfold hit_ok.
    destruct r as [[|hp rest]|e|w]; cbn; [| |done|done].
    + split; [done|]. by apply Hr.
    + destruct (Hr Hidle) as [Hv Hlock]. split_and!; [done|done|].
      change (key_of (at_pc h _)) with (key_of h). unfold hp_now, key_of. by rewrite Hrow, Hv.
  - destruct Hme as [Hno Hidle]. destruct (lk_exec _ _ d) as [[r d1]|] eqn:E; [|done].
    apply insert_law in E as (Hk & Hrow & Hr). injection Hs as <- <-.
    apply (inv_quiet hp0 app d); [done..|]. unfold hit_ok. destruct r as [[]|e|w]; cbn; [|done|done].
    destruct Hr as [Hnone Hlock]. split_and!; [done|done|].
    change (key_of (at_pc h _)) with (key_of h). unfold hp_now, key_of. by rewrite Hrow, Hnone.
  - destruct Hme as (Hno & Hlock & Hhp). destruct (lk_exec _ _ d) as [[r d1]|] eqn:E; [|done].
    apply update_law in E as (Hk & Hrow & Hr). injection Hs as <- <-.
    apply (inv_quiet hp0 app d); [done..|]. unfold hit_ok. destruct r as [[]|e|w]; cbn; [|done|done].
    destruct (Hr Hlock) as [Hlock' Hmine]. split_and!; [done|done|done|].
    pose proof (hp_now_range hp0 app _ (key_of h) Hinv (Hhp0 _)) as Hrange. cbn [hs_db] in Hrange.
    change (key_of (at_pc h _)) with (key_of h). unfold hp_now at 1. rewrite Hrow. fold (hp_now d (key_of h)).
    unfold MaxDamagePerRequest, int32_half in *. rewrite Hhp, int_sub_small by int_range.
    destruct (Z.ltb_spec (hp_now d (key_of h) - h_damage h) 0); lia.
  - injection Hs as <- <-. destruct Hme as (Hno & Hr & Hp). destruct (rollback_law i d) as (Hk & Hrow & Hid).
    apply (inv_quiet hp0 app d); [done..|]. unfold hit_ok. cbn. split_and!; [done|done|]. by intros n ->.
  - done.
Qed.

Lemma inv_fire hp0 app c e c' :
  (∀ k, 0 <= hp0 k < int32_half) → hits_inv hp0 app c → hits_fire e c = Some c' →
  ∃ app', hits_inv hp0 app' c'.
Proof.
  intros Hhp0 Hinv. destruct c as [d l], e as [ctx p δ|i|i]; cbn [hits_fire hs_db hs_hits].
  - intros [= <-]. exists app. destruct Hinv as (Hnd & Hlt & Hhp & Hok & Hidle). unfold hits_inv.
    cbn [hs_db hs_hits] in *.
    assert (∀ k x, x ∈ app → hit_on k (l ++ [new_hit ctx p δ]) x = hit_on k l x) as Hon.
    { intros k x Hx. rewrite Forall_forall in Hlt. specialize (Hlt x Hx). unfold hit_on.
      by rewrite lookup_app_l. }
    rewrite length_app. cbn [length]. split_and!.
    + done.
    + eapply Forall_impl; [exact Hlt|]. cbn. lia.
    + intros k. rewrite (dealt_same l); [apply Hhp|apply Hon].
    + intros j h Hj. apply lookup_app_Some in Hj as [Hj|[Hge Hj]].
      * destruct (Hok j h Hj) as [H1 H2]. split; [|done].
        eapply (hit_ok_other _ d d l _ app app (Datatypes.S j)); [done|lia|done|done|exists []; by rewrite app_nil_r|apply Hon|done].
      * assert (j = length l) as -> by (apply lookup_lt_Some in Hj; cbn in Hj; lia).
        rewrite Nat.sub_diag in Hj. injection Hj as <-.
        assert (length l ∉ app) as Hno by (rewrite Forall_forall in Hlt; intros Hx; specialize (Hlt _ Hx); lia).
        assert (idle mine locked d (length l)) as Hid by (apply Hidle; lia).
        unfold hit_ok, damage_ok, new_hit. cbn. destruct (damage_refused δ) eqn:Hd.
        { split; [by split_and!|]. left. split; [by eexists|done]. }
        apply damage_refused_false in Hd. split; [done|by right].
    + intros j Hj. apply Hidle. lia.
  - destruct (l !! i) as [h|] eqn:Hi; [|done]. cbn. destruct (hit_step i h d) as [[pc d']|] eqn:Hs; [|done].
    intros [= <-]. by eapply inv_hit_step.
  - intros [= <-]. exists app. destruct Hinv as (Hnd & Hlt & Hhp & Hok & Hidle).
    destruct (refuse_law i d) as [Hrow Hk]. unfold hits_inv. cbn [hs_db hs_hits] in *.
    assert (∀ k, hp_now (lk_refuse i d) k = hp_now d k) as Hnow by (intros k; unfold hp_now; by rewrite Hrow).
    split_and!; [done|done|intros k; by rewrite Hnow| |].
    + intros j h Hj. destruct (Hok j h Hj) as [H1 H2]. split; [|done].
      eapply (hit_ok_other _ d _ l _ app app (Datatypes.S j)); [|lia|intros; apply Hnow|done|exists []; by rewrite app_nil_r|done|done].
      intros x _. apply Hk.
    + intros j Hj. destruct (Hidle j Hj) as [Hm Hl]. destruct (Hk j) as [Hm' Hl'].
      split; [congruence|]. intros k Hx. by apply (Hl k), Hl'.
Qed.

Lemma inv_run hp0 app c es c' :
  (∀ k, 0 <= hp0 k < int32_half) → hits_inv hp0 app c → hits_run es c = Some c' →
  ∃ app', hits_inv hp0 app' c'.
Proof.
  intros Hhp0. revert app c. induction es as [|e es IH]; intros app c Hinv; cbn [hits_run].
  - intros [= <-]. by exists app.
  - intros (c1 & Hf & Hrun)%bind_Some. destruct (inv_fire hp0 app c e c1 Hhp0 Hinv Hf) as [app1 H1].
    by eapply IH.
Qed.

(** The start: no calls, no transactions. *)
Definition hits_start d : hits_sys D := {| hs_db := d; hs_hits := [] |}.

Lemma inv_start d : (∀ k, 0 <= hp_now d k) → (∀ i, idle mine locked d i) → hits_inv (hp_now d) [] (hits_start d).
Proof.
  intros Hhp Hidle. unfold hits_inv, hits_start. cbn. split_and!; [constructor|constructor| |done|by intros i _].
  intros k. unfold dealt. simpl. specialize (Hhp k). lia.
Qed.

(** ** Nobody waits for ever *)

Definition pc_weight (pc : hit_pc) : nat :=
  match pc with
  | PBegin => 6 | PSelect => 5 | PInsert => 4 | PUpdate _ => 3 | PCommit _ => 2 | PRollback _ => 1 | PDone _ => 0
  end.

(** The statements that are left at most. *)
Definition hits_weight c : nat := sum_list_with (λ h, pc_weight (h_pc h)) (hs_hits c).

Lemma hit_step_weight i h d pc d' : hit_step i h d = Some (pc, d') → (pc_weight pc < pc_weight (h_pc h))%nat.
Proof.
  unfold hit_step. destruct (h_pc h) as [| | |hp|n|r|r]; cbn [pc_weight].
  - destruct (h_ctx h); [by intros [= <- _]; simpl; lia|].
    destruct (lk_begin i d) as [[[]|e|w] d1]; intros [= <- _]; simpl; lia.
  - intros ([[[|]|e|w] d1] & _ & [= <- _])%bind_Some; simpl; lia.
  - intros ([[[]|e|w] d1] & _ & [= <- _])%bind_Some; simpl; lia.
  - intros ([[[]|e|w] d1] & _ & [= <- _])%bind_Some; simpl; lia.
  - destruct (lk_commit i d) as [[[]|e|w] d1]; intros [= <- _]; simpl; lia.
  - intros [= <- _]. simpl. lia.
  - done.
Qed.

Lemma hits_step_weight i c c' : hits_fire (EStep i) c = Some c' → (hits_weight c' < hits_weight c)%nat.
Proof.
  cbn [hits_fire]. intros (h & Hi & ([pc d'] & Hs & [= <-])%bind_Some)%bind_Some.
  apply hit_step_weight in Hs. unfold hits_weight. cbn [hs_hits].
  rewrite (insert_take_drop _ _ _ (lookup_lt_Some _ _ _ Hi)).
  rewrite <- (take_drop_middle (hs_hits c) i h Hi) at 3.
  rewrite !sum_list_with_app. simpl. lia.
Qed.

Lemma row_stays i h d pc d' k :
  hit_step i h d = Some (pc, d') → is_Some (row d k) → is_Some (row d' k).
Proof.
  unfold hit_step. destruct (h_pc h) as [| | |hp|n|r|r]; intros Hs Hk.
  - destruct (h_ctx h); [by injection Hs as <- <-|].
    destruct (lk_begin i d) as [r d1] eqn:E. apply begin_law in E as (_ & _ & Hrow & _).
    destruct r as [[]|e|w]; injection Hs as <- <-; by rewrite Hrow.
  - apply bind_Some in Hs as ([r d1] & E & Hs). apply select_law in E as (_ & Hrow & _).
    injection Hs as <- <-. by rewrite Hrow.
  - apply bind_Some in Hs as ([r d1] & E & Hs). apply insert_law in E as (_ & Hrow & _).
    injection Hs as <- <-. by rewrite Hrow.
  - apply bind_Some in Hs as ([r d1] & E & Hs). apply update_law in E as (_ & Hrow & _).
    injection Hs as <- <-. by rewrite Hrow.
  - destruct (lk_commit i d) as [r d1] eqn:E. pose proof (commit_law i d r d1 E) as Hlaw. cbv zeta in Hlaw.
    destruct Hlaw as (_ & _ & _ & Hrow).
    assert (is_Some (row d1 k)) by (destruct Hrow as [->|[_ ->]]; [by repeat case_match|done]).
    destruct r as [[]|e|w]; by injection Hs as <- <-.
  - injection Hs as <- <-. by destruct (rollback_law i d) as (_ & -> & _).
  - done.
Qed.

Lemma locked_by hp0 app c j k :
  hits_inv hp0 app c → locked (hs_db c) j k →
  ∃ h, hs_hits c !! j = Some h ∧ is_Some (hit_step j h (hs_db c)).
Proof.
  intros (_ & _ & _ & Hok & Hidle) Hlock. destruct (hs_hits c !! j) as [h|] eqn:Hj.
  2:{ apply lookup_ge_None in Hj. by destruct (proj2 (Hidle j Hj) k). }
  exists h. split; [done|]. destruct (Hok j h Hj) as [Hh _]. unfold hit_ok in Hh. unfold hit_step.
  destruct (h_pc h) as [| | |hp|n|r|r].
  1-3: by destruct (proj2 (proj2 Hh) k).
  - destruct (lk_exec j _ (hs_db c)) as [[r d1]|] eqn:E; [by eexists|].
    apply update_waits in E as (j' & Hne & Hlock'). destruct Hh as (_ & Hmine & _).
    by destruct Hne; eapply lock_exclusive.
  - destruct (lk_commit j (hs_db c)) as [[[]|e|w] d1]; by eexists.
  - by eexists.
  - by destruct (proj2 (proj1 Hh) k).
Qed.

Lemma hits_progress hp0 app c i h :
  hits_inv hp0 app c → hs_hits c !! i = Some h → (∀ r, h_pc h ≠ PDone r) → is_Some (row (hs_db c) (key_of h)) →
  ∃ j, is_Some (hits_fire (EStep j) c).
Proof.
  intros Hinv Hi Hgo Hrow.
  assert (∀ j h', hs_hits c !! j = Some h' → is_Some (hit_step j h' (hs_db c)) →
    is_Some (hits_fire (EStep j) c)) as Hfire.
  { intros j h' Hj [[pc d'] Hs]. cbn [hits_fire]. rewrite Hj. cbn. rewrite Hs. by eexists. }
  assert (is_Some (hit_step i h (hs_db c)) ∨ ∃ j k, locked (hs_db c) j k) as [Hs|(j & k & Hlock)].
  { unfold hit_step. destruct (h_pc h) as [| | |hp|n|r|r] eqn:Hpc.
    - left. destruct (h_ctx h); [by eexists|]. destruct (lk_begin i _) as [[[]|e|w] d1]; by eexists.
    - destruct (lk_select i _ _) as [[r d1]|] eqn:E; [left; by eexists|right].
      apply select_waits in E as (j & _ & ?). eauto.
    - destruct (lk_exec i _ _) as [[r d1]|] eqn:E; [left; by eexists|right].
      apply insert_waits in E as [E|(j & _ & ?)]; [|eauto]. unfold key_of in Hrow. rewrite E in Hrow. by destruct Hrow.
    - destruct (lk_exec i _ _) as [[r d1]|] eqn:E; [left; by eexists|right].
      apply update_waits in E as (j & _ & ?). eauto.
    - left. destruct (lk_commit i _) as [[[]|e|w] d1]; by eexists.
    - left. by eexists.
    - by destruct (Hgo r). }
  - exists i. by apply (Hfire i h).
  - destruct (locked_by hp0 app c j k Hinv Hlock) as (h' & Hj & Hs). exists j. by apply (Hfire j h').
Qed.

(** ** The properties *)

(** C15. No lost update. Calls on any connections, their statements interleaved in
    any way, waiting for locks, refused or with lost replies: there is one order
    of the calls that took effect such that every player's hit points are what
    these calls, one after the other, leave, and every call that is answered took
    effect and got the hit points that it left in that order. Calls that are still
    under way have had no effect. *)
Theorem concurrent_hits (es : list hit_event) d c
    (Hhp : ∀ k, 0 <= hp_now d k < int32_half) (Hidle : ∀ i, idle mine locked d i)
    (Hrun : hits_run es (hits_start d) = Some c) :
  ∃ app, NoDup app ∧
    (∀ k, hp_now (hs_db c) k = Z.max 0 (hp_now d k - dealt (hs_hits c) k app)) ∧
    (∀ i h n, hs_hits c !! i = Some h → h_pc h = PDone (Ok n) →
       ∃ app1 app2, app = app1 ++ i :: app2 ∧
         n = Z.max 0 (hp_now d (key_of h) - dealt (hs_hits c) (key_of h) (app1 ++ [i]))) ∧
    (∀ i, i ∈ app → ∃ h r, hs_hits c !! i = Some h ∧ h_pc h = PDone r ∧ no_panic r ∧
       1 <= h_damage h <= MaxDamagePerRequest).
Proof.
  destruct (inv_run (hp_now d) [] _ es c Hhp (inv_start d (λ k, proj1 (Hhp k)) Hidle) Hrun)
    as (app & Hnd & Hlt & Hhps & Hok & _).
  exists app. split_and!; [done|done| |].
  - intros i h n Hi Hpc. destruct (Hok i h Hi) as [Hh _]. unfold hit_ok in Hh. rewrite Hpc in Hh.
    destruct Hh as (_ & _ & Hh). by apply Hh.
  - intros i Hin. rewrite Forall_forall in Hlt. destruct (lookup_lt_is_Some_2 _ _ (Hlt i Hin)) as [h Hi].
    destruct (Hok i h Hi) as [Hh [[_ ?]|Hδ]]; [done|]. exists h. unfold hit_ok in Hh.
    destruct (h_pc h) as [| | |hp|n|r|r]; try (by destruct Hh as [Hno _]; destruct Hno).
    exists r. by split_and!; try apply Hh; try apply Hδ.
Qed.

(** C32. No deadlock once the players have rows. In any state that calls can reach:
    without new calls at most [hits_weight] statements are left, in whatever
    order the connections run; and as long as some call has not returned, and the
    players of such calls have their rows, some connection can go on: so it ends,
    with every call returned. ([first_hits_wait] shows that two first hits on a player
    can wait for each other until the server refuses one.) *)
Theorem hits_drain (es : list hit_event) d c (js : list nat) c'
    (Hhp : ∀ k, 0 <= hp_now d k < int32_half) (Hidle : ∀ i, idle mine locked d i)
    (Hrun : hits_run es (hits_start d) = Some c)
    (Hrows : Forall (λ h, (∃ r, h_pc h = PDone r) ∨ is_Some (row (hs_db c) (key_of h))) (hs_hits c))
    (Hsteps : hits_run (EStep <$> js) c = Some c') :
  (length js + hits_weight c' <= hits_weight c)%nat ∧
  ((∀ j, hits_fire (EStep j) c' = None) → Forall (λ h, ∃ r, h_pc h = PDone r) (hs_hits c')).
Proof.
  destruct (inv_run (hp_now d) [] _ es c Hhp (inv_start d (λ k, proj1 (Hhp k)) Hidle) Hrun) as [app Hinv].
  assert ((length js + hits_weight c' <= hits_weight c)%nat ∧
    Forall (λ h, (∃ r, h_pc h = PDone r) ∨ is_Some (row (hs_db c') (key_of h))) (hs_hits c') ∧
    ∃ app', hits_inv (hp_now d) app' c') as (Hw & Hrows' & app' & Hinv').
  { clear es Hrun. revert c app Hinv Hrows Hsteps. induction js as [|j js IH]; intros c app Hinv Hrows;
      cbn [fmap list_fmap hits_run].
    { intros [= <-]. split_and!; [simpl; lia|done|by exists app]. }
    intros (c1 & Hf & Hsteps)%bind_Some. pose proof (hits_step_weight j c c1 Hf) as Hw.
    destruct (inv_fire (hp_now d) app c (EStep j) c1 Hhp Hinv Hf) as [app1 Hinv1].
    destruct (IH c1 app1 Hinv1) as (Hw' & Hr & Hi); [|done|by split_and!; [simpl; lia|..]].
    cbn [hits_fire] in Hf. apply bind_Some in Hf as (h & Hj & ([pc d'] & Hs & [= <-])%bind_Some).
    cbn [hs_db hs_hits]. apply Forall_insert.
    - eapply Forall_impl; [exact Hrows|]. intros h' [?|?]; [by left|right]. by eapply row_stays.
    - destruct (Forall_lookup_1 _ _ _ _ Hrows Hj) as [[r Hpc]|Hrow].
      + unfold hit_step in Hs. by rewrite Hpc in Hs.
      + right. by eapply row_stays. }
  split; [done|]. intros Hstuck. apply Forall_lookup. intros i h Hi.
  assert ((∃ r, h_pc h = PDone r) ∨ ∀ r, h_pc h ≠ PDone r) as [?|Hgo]
    by (destruct (h_pc h) as [| | | | | |r]; [right; by intros ?..|left; by exists r]); [done|].
  destruct (Forall_lookup_1 _ _ _ _ Hrows' Hi) as [?|Hrow]; [done|].
  destruct (hits_progress (hp_now d) app' c' i h Hinv' Hi Hgo Hrow) as [j [c2 Hj]].
  by rewrite Hstuck in Hj.
Qed.
End properties.

(** ** A reference server *)

(** Rows, exclusive locks, the transactions that have found no row (a gap lock),
    uncommitted writes, and the transactions whose next statement is refused. *)
Record RefLocks := {
  rk_rows : gmap string Z;
  rk_locks : gmap string nat;
  rk_gaps : gmap string (gset nat);
  rk_writes : gmap nat (string * Z);
  rk_refused : gset nat }.

Section reference.
Implicit Types (d : RefLocks) (i j : nat) (k : string).

Definition rk_release i d : RefLocks := {|
  rk_rows := rk_rows d;
  rk_locks := filter (λ kv, kv.2 ≠ i) (rk_locks d);
  rk_gaps := (λ s, s ∖ {[i]}) <$> rk_gaps d;
  rk_writes := delete i (rk_writes d);
  rk_refused := rk_refused d ∖ {[i]} |}.

Definition rk_mine d i : option (string * Z) :=
  '(k, n) ← rk_writes d !! i; if decide (rk_locks d !! k = Some i) then Some (k, n) else None.

Definition rk_locked d i k : Prop := rk_locks d !! k = Some i.

(** What transaction [i] sees of a row. *)
Definition rk_visible i k d : option Z :=
  match rk_mine d i with
  | Some (k', n) => if decide (k' = k) then Some n else rk_rows d !! k
  | None => rk_rows d !! k
  end.

Definition rk_free i k d : bool :=
  match rk_locks d !! k with Some j => bool_decide (j = i) | None => true end.

(** The lock of a row, and perhaps a new version of it. *)
Definition rk_grant i k (w : option Z) d : RefLocks := {|
  rk_rows := rk_rows d;
  rk_locks := <[k := i]> (rk_locks d);
  rk_gaps := rk_gaps d;
  rk_writes := match w with Some n => <[i := (k, n)]> (rk_writes d) | None => rk_writes d end;
  rk_refused := rk_refused d |}.

Definition rk_gap i k d : RefLocks := {|
  rk_rows := rk_rows d;
  rk_locks := rk_locks d;
  rk_gaps := <[k := {[i]} ∪ default ∅ (rk_gaps d !! k)]> (rk_gaps d);
  rk_writes := rk_writes d;
  rk_refused := rk_refused d |}.

Definition deadlock_found : error :=
  ErrMySQL 1213 "Deadlock found when trying to get lock; try restarting transaction".

Definition hp_query {R} (q : query R) : option string :=
  match q with selectHPForUpdate p => Some p | _ => None end.

Definition rk_select i (q : query Z) d : option (result (list Z) * RefLocks) :=
  if decide (i ∈ rk_refused d) then Some (Err deadlock_found, rk_release i d)
  else
    match hp_query q with
    | Some p =>
        let k := ref_collate p in
        if rk_free i k d then
          match rk_visible i k d with
          | Some v => Some (Ok [v], rk_grant i k None d)
          | None => Some (Ok [], rk_gap i k d)
          end
        else None
    | None => Some (Err bad_connection, d)
    end.

Definition rk_exec i (s : stmt) d : option (result unit * RefLocks) :=
  if decide (i ∈ rk_refused d) then Some (Err deadlock_found, rk_release i d)
  else
    match s with
    | insertHP p n =>
        let k := ref_collate p in
        if rk_free i k d then
          match rk_visible i k d with
          | Some _ => Some (Err (ErrMySQL mysqlErrDuplicateEntry "Duplicate entry"), d)
          | None =>
              if decide (default ∅ (rk_gaps d !! k) ⊆ {[i]}) then Some (Ok tt, rk_grant i k (Some n) d) else None
          end
        else None
    | updateHP n p =>
        let k := ref_collate p in
        if rk_free i k d then
          match rk_visible i k d with
          | Some _ => Some (Ok tt, rk_grant i k (Some n) d)
          | None => if decide (rk_locks d !! k = Some i) then Some (Ok tt, rk_grant i k (Some n) d) else Some (Ok tt, d)
          end
        else None
    | _ => Some (Err bad_connection, d)
    end.

Definition rk_commit i d : result unit * RefLocks :=
  if decide (i ∈ rk_refused d) then (Err bad_connection, rk_release i d)
  else
    let rows := match rk_mine d i with Some (k, n) => <[k := n]> (rk_rows d) | None => rk_rows d end in
    (Ok tt, rk_release i {| rk_rows := rows; rk_locks := rk_locks d; rk_gaps := rk_gaps d;
                            rk_writes := rk_writes d; rk_refused := rk_refused d |}).

#[export] Instance ref_LockingDB : LockingDB RefLocks := {|
  lk_begin _ d := (Ok tt, d);
  lk_select := rk_select;
  lk_exec := rk_exec;
  lk_commit := rk_commit;
  lk_rollback := rk_release;
  lk_refuse i d := {| rk_rows := rk_rows d; rk_locks := rk_locks d; rk_gaps := rk_gaps d;
                      rk_writes := rk_writes d; rk_refused := {[i]} ∪ rk_refused d |} |}.

Lemma rk_release_locked i d j k : rk_locked (rk_release i d) j k ↔ rk_locked d j k ∧ j ≠ i.
Proof. unfold rk_locked, rk_release. simpl. rewrite map_lookup_filter_Some. done. Qed.

Lemma rk_release_keep i d : others_keep rk_mine rk_locked i d (rk_release i d).
Proof.
  intros j Hne. split; [|intros k; rewrite rk_release_locked; tauto]. unfold rk_mine.
  cbn [rk_writes rk_release]. rewrite lookup_delete_ne by done.
  destruct (rk_writes d !! j) as [[k n]|]; [|done]. simpl.
  pose proof (rk_release_locked i d j k) as Hl. unfold rk_locked in Hl. simpl in Hl.
  repeat case_decide; tauto.
Qed.

Lemma rk_release_idle i d : idle rk_mine rk_locked (rk_release i d) i.
Proof.
  split; [unfold rk_mine; simpl; by rewrite lookup_delete_eq|].
  intros k. rewrite rk_release_locked. tauto.
Qed.

Lemma rk_grant_keep i k w d : rk_free i k d = true → others_keep rk_mine rk_locked i d (rk_grant i k w d).
Proof.
  intros Hfree j Hne.
  assert (∀ k', rk_locked (rk_grant i k w d) j k' ↔ rk_locked d j k') as Hl.
  { intros k'. unfold rk_locked, rk_grant, rk_free in *. simpl. destruct (decide (k = k')) as [<-|Hk].
    - rewrite lookup_insert_eq. destruct (rk_locks d !! k) as [i'|]; [|by naive_solver].
      apply bool_decide_eq_true in Hfree as ->. naive_solver.
    - by rewrite lookup_insert_ne. }
  split; [|done]. unfold rk_mine.
  assert (rk_writes (rk_grant i k w d) !! j = rk_writes d !! j) as ->
    by (unfold rk_grant; destruct w; simpl; [by rewrite lookup_insert_ne|done]).
  destruct (rk_writes d !! j) as [[k' n]|]; [|done]. simpl. specialize (Hl k'). unfold rk_locked in Hl.
  repeat case_decide; tauto.
Qed.

Lemma rk_grant_locked i k w d : rk_locked (rk_grant i k w d) i k.
Proof. unfold rk_locked, rk_grant. simpl. by rewrite lookup_insert_eq. Qed.

Lemma rk_grant_mine i k n d : rk_mine (rk_grant i k (Some n) d) i = Some (k, n).
Proof.
  unfold rk_mine. simpl. rewrite lookup_insert_eq. simpl. by rewrite lookup_insert_eq, decide_True.
Qed.

Lemma rk_not_free i k d : rk_free i k d = false → ∃ j, j ≠ i ∧ rk_locked d j k.
Proof.
  unfold rk_free, rk_locked. destruct (rk_locks d !! k) as [j|]; [|done].
  intros Hj%bool_decide_eq_false. by exists j.
Qed.

Lemma rk_idle_visible i k d : idle rk_mine rk_locked d i → rk_visible i k d = rk_rows d !! k.
Proof. intros [Hm _]. unfold rk_visible. by rewrite Hm. Qed.

#[export, program] Instance ref_LockingLaws : LockingLaws RefLocks := {|
  lk_collate := ref_collate; row d k := rk_rows d !! k; mine := rk_mine; locked := rk_locked |}.
Next Obligation. unfold rk_locked. congruence. Qed.
Next Obligation. by intros i d r d' [= <- <-]. Qed.
Next Obligation.
  intros i p d r d'. cbn. unfold rk_select. case_decide.
  { intros [= <- <-]. split; [apply rk_release_keep|done]. }
  cbn. destruct (rk_free i (ref_collate p) d) eqn:Hfree; [|done].
  destruct (rk_visible i (ref_collate p) d) as [v|] eqn:Hv; intros [= <- <-].
  - split; [by apply rk_grant_keep|]. split; [done|]. intros Hidle.
    rewrite rk_idle_visible in Hv by done. split; [done|apply rk_grant_locked].
  - split; [done|]. split; [done|]. intros Hidle. by rewrite rk_idle_visible in Hv.
Qed.
Next Obligation.
  intros i p n d r d'. cbn. unfold rk_exec. case_decide.
  { intros [= <- <-]. split; [apply rk_release_keep|done]. }
  cbn zeta. destruct (rk_free i (ref_collate p) d) eqn:Hfree; [|done].
  destruct (rk_visible i (ref_collate p) d) as [v|] eqn:Hv; [by intros [= <- <-]|].
  case_decide; [|done]. intros [= <- <-]. split; [by apply rk_grant_keep|]. split; [done|].
  split; [|apply rk_grant_locked]. unfold rk_visible in Hv.
  destruct (rk_mine d i) as [[k' n']|]; [|done]. by case_decide.
Qed.
Next Obligation.
  intros i p n d r d'. cbn. unfold rk_exec. case_decide.
  { intros [= <- <-]. split; [apply rk_release_keep|done]. }
  cbn zeta. destruct (rk_free i (ref_collate p) d) eqn:Hfree; [|done].
  assert (others_keep rk_mine rk_locked i d (rk_grant i (ref_collate p) (Some n) d) ∧
    rk_rows (rk_grant i (ref_collate p) (Some n) d) = rk_rows d ∧
    rk_locked (rk_grant i (ref_collate p) (Some n) d) i (ref_collate p) ∧
    rk_mine (rk_grant i (ref_collate p) (Some n) d) i = Some (ref_collate p, n)) as (H1 & H2 & H3 & H4)
    by (split_and!; [by apply rk_grant_keep|done|apply rk_grant_locked|apply rk_grant_mine]).
  destruct (rk_visible i (ref_collate p) d) as [v|] eqn:Hv; [by intros [= <- <-]|].
  case_decide; [by intros [= <- <-]|]. intros [= <- <-]. split; [done|]. split; [done|]. intros Hl. by destruct H0.
Qed.
Next Obligation.
  intros i d r d'. cbn. unfold rk_commit. case_decide.
  { intros [= <- <-]. split_and!; [done|apply rk_release_keep|apply rk_release_idle..|]. by right. }
  intros [= <- <-]. cbv zeta. split; [done|]. set (d1 := Build_RefLocks _ _ _ _ _).
  assert (others_keep rk_mine rk_locked i d d1) as Hd1 by done.
  split; [by intros j Hne; destruct (rk_release_keep i d1 j Hne) as [-> ?]|].
  split; [apply rk_release_idle|]. left. intros k. subst d1. cbn.
  destruct (rk_mine d i) as [[k' n]|]; [|done]. case_decide as Hk; [subst; by rewrite lookup_insert_eq|].
  by rewrite lookup_insert_ne.
Qed.
Next Obligation. intros i d. split; [apply rk_release_keep|]. split; [done|apply rk_release_idle]. Qed.
Next Obligation. done. Qed.
Next Obligation.
  intros i p d. cbn. unfold rk_select. case_decide; [done|]. cbn.
  destruct (rk_free i (ref_collate p) d) eqn:Hfree; [by destruct (rk_visible _ _ d)|].
  intros _. by apply rk_not_free.
Qed.
Next Obligation.
  intros i p n d. cbn. unfold rk_exec. case_decide; [done|]. cbn zeta.
  destruct (rk_free i (ref_collate p) d) eqn:Hfree; [|intros _; right; by apply rk_not_free].
  unfold rk_visible. destruct (rk_mine d i) as [[k' m]|].
  - case_decide; [done|]. destruct (rk_rows d !! ref_collate p); [done|]. by left.
  - destruct (rk_rows d !! ref_collate p); [done|]. by left.
Qed.
Next Obligation.
  intros i p n d. cbn. unfold rk_exec. case_decide; [done|]. cbn zeta.
  destruct (rk_free i (ref_collate p) d) eqn:Hfree; [|intros _; by apply rk_not_free].
  destruct (rk_visible _ _ d); [done|]. by case_decide.
Qed.
End reference.

(** ** Runs *)

Definition rk_start (rows : gmap string Z) : RefLocks :=
  {| rk_rows := rows; rk_locks := ∅; rk_gaps := ∅; rk_writes := ∅; rk_refused := ∅ |}.

Lemma rk_start_idle rows i : idle mine locked (rk_start rows) i.
Proof.
  split; [cbn; unfold rk_mine; simpl; by rewrite lookup_empty|].
  intros k. cbn. unfold rk_locked. simpl. by rewrite lookup_empty.
Qed.

(** Three hits on a player with 100 hit points: the second waits while the first holds
    the row; the third is refused. *)
Definition three_hits : list hit_event :=
  [EHit None "boss" 30; EHit None "Boss" 80; EHit None "boss" 5; EStep 0; EStep 1; EStep 2; EStep 0; EStep 0;
   ERefuse 2; EStep 2; EStep 0; EStep 1; EStep 2; EStep 1; EStep 1].

Definition three_start : RefLocks := rk_start {["boss" := 100]}.
Definition three_end : hits_sys RefLocks :=
  default (hits_start three_start) (hits_run three_hits (hits_start three_start)).

Lemma three_range k : 0 <= hp_now three_start k < int32_half.
Proof.
  unfold hp_now, int32_half, DefaultInitialHP.
  change (row three_start k) with (({["boss" := 100]} : gmap string Z) !! k).
  destruct (decide (k = "boss")) as [->|].
  - rewrite lookup_singleton_eq. simpl. lia.
  - rewrite lookup_singleton_ne by done. simpl. lia.
Qed.

Lemma three_run : hits_run three_hits (hits_start three_start) = Some three_end.
Proof. vm_compute. reflexivity. Qed.

Lemma concurrent_hits_witness :
  map h_pc (hs_hits three_end) =
    [PDone (Ok 70); PDone (Ok 0); PDone (Err (Errorf_w "select for update" deadlock_found))] ∧
  ∃ app, NoDup app ∧ hp_now (hs_db three_end) "boss" = Z.max 0 (100 - dealt (hs_hits three_end) "boss" app).
Proof.
  split; [vm_compute; reflexivity|].
  destruct (concurrent_hits three_hits three_start three_end three_range (rk_start_idle _) three_run)
    as (app & Hnd & Hhp & _).
  exists app. split; [exact Hnd|]. exact (Hhp "boss").
Defined.

(** The second call cannot take its step while the first one holds the row. *)
Example second_waits :
  hits_run (take 7 three_hits ++ [EStep 1]) (hits_start three_start) = None.
Proof. vm_compute. reflexivity. Qed.

(** Two hits on a player without a row: both find nothing, and then each waits for
    the other to let it insert the row, until the server refuses one of them. *)
Definition first_hits : list hit_event :=
  [EHit None "new" 30; EHit None "new" 80; EStep 0; EStep 1; EStep 0; EStep 1].

Example first_hits_wait :
  let c := hits_run first_hits (hits_start (rk_start ∅)) in
  (c ≫= hits_fire (EStep 0)) = None ∧ (c ≫= hits_fire (EStep 1)) = None ∧
  ((λ c, map h_pc (hs_hits c)) <$>
    (c ≫= hits_run [ERefuse 1; EStep 1; EStep 1; EStep 0; EStep 0; EStep 0])) =
  Some [PDone (Ok 9970); PDone (Err (Errorf_w "insert hp" deadlock_found))].
Proof. vm_compute. done. Qed.

Lemma hits_drain_witness :
  (3 + hits_weight three_end <= hits_weight
     (default (hits_start three_start) (hits_run (take 12 three_hits) (hits_start three_start))))%nat.
Proof.
  set (c := default _ _).
  assert (Hrun : hits_run (take 12 three_hits) (hits_start three_start) = Some c) by (vm_compute; reflexivity).
  assert (Hsteps : hits_run (EStep <$> [2; 1; 1]%nat) c = Some three_end) by (vm_compute; reflexivity).
  assert (Hrows : Forall (λ h, (∃ r, h_pc h = PDone r) ∨ is_Some (row (hs_db c) (key_of h))) (hs_hits c)).
  { vm_compute. repeat (apply List.Forall_cons; [right; eexists; reflexivity|]). apply List.Forall_nil. }
  exact (proj1 (hits_drain (take 12 three_hits) three_start c [2; 1; 1]%nat three_end three_range
    (rk_start_idle _) Hrun Hrows Hsteps)).
Defined.
