(* ===== verification/Redis.v ===== *)
(** * Redis

    The client of [go-redis] as the program uses it, as an interface ([Redis])
    with what the documentation of the commands promises ([RedisLaws]), and a
    reference server. Scores of sorted sets are floats; a key with a time to live
    disappears some time after it. Any command may fail, also after it took
    effect, and the client sends a command again after a broken connection, so that it
    may take effect more than once; between two commands of one call no other client
    writes. *)

From S2P Require Import GoLang Float Ranking.
#[local] Open Scope Z_scope.

(** [redis.Nil]: no value. *)
Definition redis_Nil : error := ErrorsNew "redis.Nil" "redis: nil".

(** [Redis_Get] and [Redis_SetNX] (the command [SET key value NX] with a time to
    live) happen, at the attempt that takes effect, at the instant that is their last
    argument. *)
Class Redis (R : Type) := {
  ZIncrBy : string → float64 → string → M R float64;
  ZRevRangeWithScores : string → Z → Z → M R (list (string * float64));
  ZRevRank : string → string → M R Z;
  ZScore : string → string → M R float64;
  Redis_Get : string → time → M R string;
  Redis_SetNX : string → string → Z → time → M R string }.

(** ** Sorted sets *)

(** A member is before another in reverse order: a higher score, or the same
    score and a name later in byte order. *)
Definition zbefore (a b : string * float64) : Prop :=
  f_lt b.2 a.2 = true ∨ (SFcompare b.2 a.2 = Some Eq ∧ String.ltb b.1 a.1 = true).

Definition zset_order (m : gmap string float64) (l : list (string * float64)) : Prop :=
  l ≡ₚ map_to_list m ∧ StronglySorted zbefore l.

(** The elements from index [start] to index [stop] inclusive; negative indices
    count from the end. *)
Definition zrange {A} (start stop : Z) (l : list A) : list A :=
  let n := Z.of_nat (length l) in
  let start := if start <? 0 then Z.max 0 (n + start) else start in
  let stop := if stop <? 0 then n + stop else stop in
  if (stop <? start) || (n <=? start) then []
  else take (Z.to_nat (stop - start + 1)) (drop (Z.to_nat start) l).

(** ** What is documented *)

(** What a server holds: the sorted sets, the value of a key at an instant, and
    what it makes of a time to live. *)
Class RedisData (R : Type) := {
  zset : R → string → gmap string float64;
  live : R → time → string → option string;
  kept_ttl : Z → Z }.

Section data.
Context {R : Type} `{!RedisData R}.

Definition same_data (r r' : R) : Prop :=
  (∀ k, zset r' k = zset r k) ∧ ∀ t k, live r' t k = live r t k.

(** The score [f] is stored for a member, and nothing else changes. *)
Definition score_written (k m : string) (f : float64) (r r' : R) : Prop :=
  (∀ k', zset r' k' = if decide (k' = k) then <[m := f]> (zset r k) else zset r k') ∧
  ∀ t k', live r' t k' = live r t k'.

(** How often a command is sent at most: "MaxRetries: maximum number of retries before
    giving up. Default is 3 retries." The program keeps the default. *)
Definition redis_attempts : nat := 4.

(** The member's score is increased so many times. *)
Fixpoint incremented (k m : string) (δ : float64) (n : nat) (r r' : R) : Prop :=
  match n with
  | O => same_data r r'
  | S n' => ∃ r1, score_written k m (f_add (default f_zero (zset r k !! m)) δ) r r1 ∧
      incremented k m δ n' r1 r'
  end.

(** The value [v] is stored under a key at [t], for as long as its time to live. *)
Definition value_kept (k v : string) (ttl : Z) (t : time) (r : R) : Prop :=
  (∀ t', t <= t' → live r t' k = Some v ∨ live r t' k = None) ∧
  ∀ t', t <= t' <= t + kept_ttl ttl → live r t' k = Some v.

#[export] Instance same_data_preorder : PreOrder same_data.
Proof.
  split; [by intros r|]. intros r1 r2 r3 [Hz Hl] [Hz' Hl']. split; intros; [by rewrite Hz', Hz|].
  by rewrite Hl', Hl.
Qed.
End data.

Class RedisLaws (R : Type) `{!Redis R, !RedisData R} := {
  kept_ttl_near : ∀ d, 0 < d → Z.abs (kept_ttl d - d) < 1000000;
  live_expires : ∀ r t t' k, t <= t' → live r t k = None → live r t' k = None;
  zincrby : ∀ k δ m r res r', ZIncrBy k δ m r = (res, r') →
    ∃ n, (n <= redis_attempts)%nat ∧ incremented k m δ n r r' ∧
    match res with
    | Ok g => (0 < n)%nat ∧ zset r' k !! m = Some g
    | Err _ => True
    | Panic _ => False
    end;
  zrevrange : ∀ k start stop r res r', ZRevRangeWithScores k start stop r = (res, r') →
    same_data r r' ∧
    match res with
    | Ok l => ∃ all, zset_order (zset r k) all ∧ l = zrange start stop all
    | Err e => True
    | Panic _ => False
    end;
  zrevrank : ∀ k m r res r', ZRevRank k m r = (res, r') →
    same_data r r' ∧
    match res with
    | Ok i => ∃ all f, zset_order (zset r k) all ∧ 0 <= i ∧ all !! Z.to_nat i = Some (m, f)
    | Err e => errors_Is e redis_Nil = true → zset r k !! m = None
    | Panic _ => False
    end;
  zscore : ∀ k m r res r', ZScore k m r = (res, r') →
    same_data r r' ∧
    match res with
    | Ok f => zset r k !! m = Some f
    | Err e => errors_Is e redis_Nil = true → zset r k !! m = None
    | Panic _ => False
    end;
  redis_get : ∀ k t r res r', Redis_Get k t r = (res, r') →
    (∀ t' k', t <= t' → live r' t' k' = live r t' k') ∧
    match res with
    | Ok v => live r t k = Some v
    | Err e => errors_Is e redis_Nil = true → live r t k = None
    | Panic _ => False
    end;
  redis_setnx : ∀ k v ttl t r res r', Redis_SetNX k v ttl t r = (res, r') →
    (∀ t' k', t <= t' → k' ≠ k → live r' t' k' = live r t' k') ∧
    (is_Some (live r t k) → ∀ t', t <= t' → live r' t' k = live r t' k) ∧
    match res with
    | Ok _ => live r t k = None ∧ value_kept k v ttl t r'
    | Err e =>
        if errors_Is e redis_Nil then is_Some (live r t k) ∨ value_kept k v ttl t r'
        else (∀ t', t <= t' → live r' t' k = live r t' k) ∨ value_kept k v ttl t r'
    | Panic _ => False
    end }.

(** A server on which no command fails any more: a read or a write that finds no
    value, or one in the way, is answered [redis.Nil]. *)
Class RedisUp (R : Type) `{!Redis R} := {
  redis_up : R → Prop;
  get_up : ∀ k t r res r', redis_up r → Redis_Get k t r = (res, r') →
    redis_up r' ∧ (is_Ok res = true ∨ res = Err redis_Nil);
  setnx_up : ∀ k v ttl t r res r', redis_up r → Redis_SetNX k v ttl t r = (res, r') →
    redis_up r' ∧ (is_Ok res = true ∨ res = Err redis_Nil) }.

(** ** A reference server

    It keeps scores that are exact integers and refuses others; a key expires
    when its time to live, in whole milliseconds, has passed. *)

(** What happens to a call: it is answered after so many replies were lost, or it is
    given up after so many attempts took effect. *)
Inductive redis_fault := Answered (lost : nat) | GivenUp (took : nat).

Record RefRedis := {
  rr_zsets : gmap string (gmap string Z);
  rr_strings : gmap string (string * time);
  rr_faults : list redis_fault }.

Definition ref_scores (r : RefRedis) (k : string) : gmap string Z :=
  filter (λ kv, f_exact kv.2) (default ∅ (rr_zsets r !! k)).

(** The members of a sorted set in reverse order. *)
Definition ref_all (r : RefRedis) (k : string) : list (string * float64) :=
  (λ e, (Entry_PlayerID e, f_of_Z (Score e))) <$>
    sortedLocked {| scores := {[k := ref_scores r k]} |} k.

Definition ref_live (r : RefRedis) (t : time) (k : string) : option string :=
  '(v, deadline) ← rr_strings r !! k; if t <=? deadline then Some v else None.

Definition ref_kept_ttl (d : Z) : Z := Z.max 1 (d / 1000000) * 1000000.

Definition broken_pipe : error := ErrorsNew "net.OpError" "write: broken pipe".

(** A command with its answer and the state it leaves, under the next fault. The command
    that takes effect last is the one that is answered. *)
Definition with_fault {A} (run : RefRedis → result A * RefRedis) : M RefRedis A := λ r,
  let f := hd (Answered 0) (rr_faults r) in
  let again n r := Nat.iter n (λ r, (run r).2) r in
  let r := {| rr_zsets := rr_zsets r; rr_strings := rr_strings r; rr_faults := tail (rr_faults r) |} in
  match f with
  | Answered n => run (again (n `min` (redis_attempts - 1))%nat r)
  | GivenUp n => (Err broken_pipe, again (n `min` redis_attempts)%nat r)
  end.

Definition set_zset (k : string) (m : gmap string Z) (r : RefRedis) : RefRedis :=
  {| rr_zsets := <[k := m]> (rr_zsets r); rr_strings := rr_strings r; rr_faults := rr_faults r |}.

(** An attempt to increment, and one to store what is not there yet. *)
Definition ref_incr (k : string) (δ : float64) (m : string) (r : RefRedis) : result float64 * RefRedis :=
  let f := f_add (default f_zero (f_of_Z <$> ref_scores r k !! m)) δ in
  let z := f_trunc f in
  if decide (f = f_of_Z z ∧ f_exact z) then (Ok f, set_zset k (<[m := z]> (ref_scores r k)) r)
  else (Err (ErrorsNew "proto.RedisError" "ERR value is not a valid float"), r).

(** What [SET] stores. *)
Definition ref_put (k v : string) (d : time) (r : RefRedis) : RefRedis :=
  {| rr_zsets := rr_zsets r; rr_strings := <[k := (v, d)]> (rr_strings r); rr_faults := rr_faults r |}.

Definition ref_set (k v : string) (ttl : Z) (t : time) (r : RefRedis) : result string * RefRedis :=
  match ref_live r t k with
  | Some _ => (Err redis_Nil, r)
  | None => (Ok "OK", ref_put k v (t + ref_kept_ttl ttl) r)
  end.

#[export] Instance ref_Redis : Redis RefRedis := {|
  ZIncrBy k δ m := with_fault (ref_incr k δ m);
  ZRevRangeWithScores k start stop := with_fault (λ r, (Ok (zrange start stop (ref_all r k)), r));
  ZRevRank k m := with_fault (λ r,
    (match list_find (λ x, x.1 = m) (ref_all r k) with
     | Some (i, _) => Ok (Z.of_nat i)
     | None => Err redis_Nil
     end, r));
  ZScore k m := with_fault (λ r,
    (match ref_scores r k !! m with Some z => Ok (f_of_Z z) | None => Err redis_Nil end, r));
  Redis_Get k t := with_fault (λ r,
    (match ref_live r t k with Some v => Ok v | None => Err redis_Nil end, r));
  Redis_SetNX k v ttl t := with_fault (ref_set k v ttl t) |}.

#[export] Instance ref_RedisData : RedisData RefRedis := {|
  zset r k := f_of_Z <$> ref_scores r k;
  live := ref_live;
  kept_ttl := ref_kept_ttl |}.

(** ** Exact scores are ordered as integers *)

Definition to_float (kv : string * Z) : string * float64 := (kv.1, f_of_Z kv.2).

Lemma zbefore_ahead a b :
  f_exact a.2 → f_exact b.2 → zbefore (to_float a) (to_float b) ↔ ahead a b.
Proof.
  intros Ha Hb. unfold zbefore, ahead, to_float. simpl.
  rewrite f_lt_of_Z, f_compare_of_Z, Z.ltb_lt by done.
  assert (Some (b.2 ?= a.2) = Some Eq ↔ b.2 = a.2) as ->; [|done].
  rewrite (inj_iff Some). apply Z.compare_eq_iff.
Qed.

Lemma sorted_to_float l :
  Forall (λ kv, f_exact kv.2) l →
  StronglySorted zbefore (to_float <$> l) ↔ StronglySorted ahead l.
Proof.
  induction 1 as [|a l Ha Hl IH]; [split; constructor|]. rewrite fmap_cons.
  assert (Forall (zbefore (to_float a)) (to_float <$> l) ↔ Forall (ahead a) l) as E.
  { rewrite Forall_fmap, !Forall_forall. rewrite Forall_forall in Hl.
    split; intros Hall b Hb; apply (zbefore_ahead a b Ha (Hl b Hb)), Hall, Hb. }
  split; intros [Hs Hf]%StronglySorted_inv; constructor; tauto.
Qed.

(** The sorted set of a map of exact scores is its ranking, in floats. *)
Lemma ranking_zset_order (m : gmap string Z) es :
  map_Forall (λ _ z, f_exact z) m → is_ranking m es →
  zset_order (f_of_Z <$> m) (to_float <$> (entry_pair <$> es)).
Proof.
  intros Hm (Hp & Hs & _). split.
  - rewrite Hp, map_to_list_fmap. apply reflexive_eq, list_fmap_ext. by intros ? [? ?] ?.
  - apply sorted_to_float; [|done]. rewrite Hp. apply Forall_forall. intros [k z] Hin.
    apply elem_of_map_to_list in Hin. by apply Hm in Hin.
Qed.

Lemma zset_order_ranking (m : gmap string Z) all :
  map_Forall (λ _ z, f_exact z) m → zset_order (f_of_Z <$> m) all →
  ∃ es, is_ranking m es ∧ all = to_float <$> (entry_pair <$> es).
Proof.
  intros Hm [Hp Hs].
  assert (∃ l, all = to_float <$> l ∧ l ≡ₚ map_to_list m) as (l & -> & Hl).
  { rewrite map_to_list_fmap in Hp. apply Permutation_map_inv in Hp as (l & -> & Hl).
    exists l. split; [|by symmetry]. apply list_fmap_ext. by intros ? [? ?] ?. }
  apply sorted_to_float in Hs.
  2:{ rewrite Hl. apply Forall_forall. intros [k z] Hin. apply elem_of_map_to_list in Hin. by apply Hm in Hin. }
  set (mk := λ kv : string * Z, {| Entry_PlayerID := kv.1; Score := kv.2; EntryRank := 0 |}).
  assert (entry_pair <$> (mk <$> l) = l) as Hmk.
  { rewrite <- list_fmap_compose. rewrite <- (list_fmap_id l) at 2.
    apply list_fmap_ext. by intros ? [? ?] ?. }
  exists (assign_ranks (mk <$> l)). unfold is_ranking. rewrite assign_ranks_pairs, Hmk.
  split_and!; [done|done|apply assign_ranks_rank|done].
Qed.

(** ** The reference server keeps its word *)

Lemma ref_scores_exact r k : map_Forall (λ _ z, f_exact z) (ref_scores r k).
Proof. intros p z Hz. by apply map_lookup_filter_Some in Hz as [_ ?]. Qed.

Lemma ref_all_order r k : zset_order (zset r k) (ref_all r k).
Proof.
  pose proof (sortedLocked_is_ranking {| scores := {[k := ref_scores r k]} |} k) as Hes.
  unfold event_scores in Hes. simpl in Hes. rewrite lookup_singleton_eq in Hes. simpl in Hes.
  pose proof (ranking_zset_order _ _ (ref_scores_exact r k) Hes) as Ho.
  rewrite <- list_fmap_compose in Ho. exact Ho.
Qed.

Lemma with_fault_read {A} (f : RefRedis → result A) r res r' :
  (∀ r1 r2, rr_zsets r1 = rr_zsets r2 → rr_strings r1 = rr_strings r2 → f r1 = f r2) →
  with_fault (λ r, (f r, r)) r = (res, r') → same_data r r' ∧ (res = f r ∨ res = Err broken_pipe).
Proof.
  intros Hf. unfold with_fault.
  assert (∀ n r, Nat.iter n (λ r : RefRedis, (f r, r).2) r = r) as Hn by (by induction n as [|n IH]).
  destruct (hd _ (rr_faults r)); rewrite Hn; intros [= <- <-]; (split; [done|]); [left; by apply Hf|by right].
Qed.

Lemma zset_set_zset k m z r k' :
  f_exact z →
  zset (set_zset k (<[m := z]> (ref_scores r k)) r) k' =
  if decide (k' = k) then <[m := f_of_Z z]> (zset r k) else zset r k'.
Proof.
  intros Hz. simpl. unfold ref_scores at 1, set_zset. simpl. case_decide as Hk.
  - subst k'. rewrite lookup_insert_eq. simpl. rewrite map_filter_insert_True by done.
    rewrite fmap_insert. do 2 f_equal. apply map_eq. intros p.
    rewrite map_lookup_filter. destruct (ref_scores r k !! p) as [y|] eqn:Hp; [|done]. simpl.
    by rewrite option_guard_True by apply (ref_scores_exact r k p y Hp).
  - by rewrite lookup_insert_ne.
Qed.

(** A command that only reads answers what [f] says, or fails. *)
Ltac ref_read f H Hs :=
  apply (with_fault_read f) in H as [Hs [->| ->]];
  [..|intros ? ? E E'; unfold ref_all, ref_scores, ref_live; by rewrite ?E, ?E'].

Lemma ref_incr_spec k δ m r :
  ((ref_incr k δ m r).2 = r ∧ is_Ok (ref_incr k δ m r).1 = false ∧ no_panic (ref_incr k δ m r).1) ∨
  ∃ f, (ref_incr k δ m r).1 = Ok f ∧ f = f_add (default f_zero (zset r k !! m)) δ ∧
    score_written k m f r (ref_incr k δ m r).2 ∧ zset (ref_incr k δ m r).2 k !! m = Some f.
Proof.
  unfold ref_incr. case_decide as Hd; [|by left]. right. destruct Hd as [E Hex].
  assert (f_add (default f_zero (f_of_Z <$> ref_scores r k !! m)) δ = f_add (default f_zero (zset r k !! m)) δ)
    as Hf by (simpl; by rewrite lookup_fmap). rewrite Hf in *.
  eexists. split; [done|]. split; [done|]. cbn [snd].
  split; [split; [|done]; intros k'|]; rewrite zset_set_zset, <- E by done; [done|].
  by rewrite decide_True, lookup_insert_eq.
Qed.

(** Attempts one after the other, the last of which may be answered. *)
Lemma ref_incr_again k δ m n r :
  ∃ c, (c <= n)%nat ∧ incremented k m δ c r (Nat.iter n (λ r, (ref_incr k δ m r).2) r).
Proof.
  revert r. induction n as [|n IH]; intros r; [by exists O|]. rewrite Nat.iter_succ_r.
  destruct (ref_incr_spec k δ m r) as [(-> & _)|(f & _ & -> & Hw & _)].
  - destruct (IH r) as (c & ? & ?). exists c. split; [lia|done].
  - destruct (IH (ref_incr k δ m r).2) as (c & ? & ?). exists (S c). split; [lia|]. by eexists.
Qed.

Lemma incremented_then {R} `{!RedisData R} k m δ c (r r1 r2 : R) :
  incremented k m δ c r r1 →
  score_written k m (f_add (default f_zero (zset r1 k !! m)) δ) r1 r2 → incremented k m δ (S c) r r2.
Proof.
  revert r. induction c as [|c IH]; intros r; [|intros (r0 & Hw & Hi) Hw2; exists r0; split; [done|by apply IH]].
  intros [Hz Hl] [Hz' Hl']. exists r2. split; [|done].
  split; intros; rewrite ?Hl', ?Hl, ?Hz', ?Hz; done.
Qed.

Lemma incremented_from {R} `{!RedisData R} k m δ c (r r1 r' : R) :
  same_data r r1 → incremented k m δ c r1 r' → incremented k m δ c r r'.
Proof.
  intros Hs. destruct c as [|c]; cbn [incremented]; [by etrans|].
  intros (r2 & [Hz' Hl'] & Hi). exists r2. destruct Hs as [Hz Hl]. split; [|done].
  split; intros; rewrite ?Hl', ?Hl, ?Hz', ?Hz; done.
Qed.

Lemma ref_zincrby k δ m r res r' :
  ZIncrBy k δ m r = (res, r') →
  ∃ n, (n <= redis_attempts)%nat ∧ incremented k m δ n r r' ∧
  match res with
  | Ok g => (0 < n)%nat ∧ zset r' k !! m = Some g
  | Err _ => True
  | Panic _ => False
  end.
Proof.
  change (ZIncrBy k δ m r) with (with_fault (ref_incr k δ m) r). unfold with_fault.
  set (r1 := Build_RefRedis _ _ _). unfold redis_attempts.
  assert (same_data r r1) as H1 by done.
  destruct (hd _ (rr_faults r)) as [n|n].
  - destruct (ref_incr_again k δ m (n `min` (4 - 1)) r1) as (c & Hc & Hi).
    set (r2 := Nat.iter _ _ _) in *.
    destruct (ref_incr_spec k δ m r2) as [(Hs & Hno & Hp)|(f & Ho & -> & Hw & Hz)].
    + destruct (ref_incr k δ m r2) as [[?|?|?] r3]; cbn in Hs, Hno, Hp; [done| |done].
      rewrite Hs. intros [= <- <-]. exists c. split; [lia|].
      split; [by eapply incremented_from|done].
    + destruct (ref_incr k δ m r2) as [o r3]. cbn [fst snd] in *. subst o. intros [= <- <-].
      exists (S c). split; [lia|]. split; [by eapply incremented_from, incremented_then|]. split; [lia|done].
  - destruct (ref_incr_again k δ m (n `min` 4) r1) as (c & Hc & Hi).
    intros [= <- <-]. exists c. split; [lia|].
      split; [by eapply incremented_from|done].
Qed.

Lemma ref_zrevrank k m r res r' :
  ZRevRank k m r = (res, r') →
  same_data r r' ∧
  match res with
  | Ok i => ∃ all f, zset_order (zset r k) all ∧ 0 <= i ∧ all !! Z.to_nat i = Some (m, f)
  | Err e => errors_Is e redis_Nil = true → zset r k !! m = None
  | Panic _ => False
  end.
Proof.
  intros Hrun. ref_read (λ r, match list_find (λ x, x.1 = m) (ref_all r k) with
    | Some (i, _) => Ok (Z.of_nat i) | None => Err redis_Nil end) Hrun Hs; (split; [done|]); [|done].
  pose proof (ref_all_order r k) as Ho.
  destruct (list_find _ _) as [[i [p f]]|] eqn:Hf.
  - apply list_find_Some in Hf as (Hi & Hp & _). simpl in Hp. subst p.
    exists (ref_all r k), f. rewrite Nat2Z.id. split_and!; [done|lia|done].
  - intros _. apply list_find_None in Hf. destruct Ho as [Hperm _]. rewrite Hperm in Hf.
    destruct (zset r k !! m) as [f|] eqn:Hm; [|done].
    apply elem_of_map_to_list in Hm. rewrite Forall_forall in Hf. by destruct (Hf _ Hm).
Qed.

Lemma ref_live_put k v d r t' k' :
  ref_live (ref_put k v d r) t' k' =
  if decide (k' = k) then if t' <=? d then Some v else None else ref_live r t' k'.
Proof.
  unfold ref_live at 1. simpl. case_decide; [subst; by rewrite lookup_insert_eq|]. by rewrite lookup_insert_ne.
Qed.

(** Attempts one after the other: what is there stays, otherwise the first stores. *)
Lemma ref_set_again k v ttl t n r :
  Nat.iter n (λ r, (ref_set k v ttl t r).2) r = r ∨
  ref_live r t k = None ∧ Nat.iter n (λ r, (ref_set k v ttl t r).2) r = ref_put k v (t + ref_kept_ttl ttl) r.
Proof.
  induction n as [|n IH]; [by left|]. rewrite Nat.iter_succ. destruct IH as [->|[Hn ->]].
  - unfold ref_set. destruct (ref_live r t k); [by left|by right].
  - right. split; [done|]. unfold ref_set. rewrite ref_live_put, decide_True by done.
    by rewrite (proj2 (Z.leb_le _ _)) by (unfold ref_kept_ttl; lia).
Qed.

Lemma ref_put_kept k v ttl t r : value_kept k v ttl t (ref_put k v (t + ref_kept_ttl ttl) r).
Proof.
  split; intros t' Ht'; simpl; rewrite ref_live_put, decide_True by done.
  - destruct (t' <=? t + ref_kept_ttl ttl); auto.
  - by rewrite (proj2 (Z.leb_le _ _)) by (simpl in Ht'; lia).
Qed.

Lemma ref_setnx k v ttl t r res r' :
  Redis_SetNX k v ttl t r = (res, r') →
  (∀ t' k', t <= t' → k' ≠ k → live r' t' k' = live r t' k') ∧
  (is_Some (live r t k) → ∀ t', t <= t' → live r' t' k = live r t' k) ∧
  match res with
  | Ok _ => live r t k = None ∧ value_kept k v ttl t r'
  | Err e =>
      if errors_Is e redis_Nil then is_Some (live r t k) ∨ value_kept k v ttl t r'
      else (∀ t', t <= t' → live r' t' k = live r t' k) ∨ value_kept k v ttl t r'
  | Panic _ => False
  end.
Proof.
  change (Redis_SetNX k v ttl t r) with (with_fault (ref_set k v ttl t) r). unfold with_fault.
  set (r1 := Build_RefRedis (rr_zsets r) _ _).
  change (live r t k) with (ref_live r1 t k). change (live r) with (ref_live r1).
  assert (∀ r2, r2 = r1 ∨ ref_live r1 t k = None ∧ r2 = ref_put k v (t + ref_kept_ttl ttl) r1 →
    (∀ t' k', t <= t' → k' ≠ k → ref_live r2 t' k' = ref_live r1 t' k') ∧
    (is_Some (ref_live r1 t k) → ∀ t', t <= t' → ref_live r2 t' k = ref_live r1 t' k)) as Hframe.
  { intros r2 [->|[Hn ->]]; [done|]. split; [|by rewrite Hn; intros []].
    intros t' k' _ Hk. by rewrite ref_live_put, decide_False. }
  pose proof (ref_put_kept k v ttl t r1) as Hkept.
  destruct (hd _ (rr_faults r)) as [n|n].
  - destruct (ref_set_again k v ttl t (n `min` (redis_attempts - 1)) r1) as [->|[Hn ->]].
    + unfold ref_set. destruct (ref_live r1 t k) as [w|] eqn:Hl; intros [= <- <-];
        (edestruct Hframe as [Hk Hs]; [by eauto|split; [exact Hk|split; [exact Hs|]]]); [left; eauto|done].
    + unfold ref_set. rewrite ref_live_put, decide_True by done.
      rewrite (proj2 (Z.leb_le _ _)) by (unfold ref_kept_ttl; lia). intros [= <- <-].
      edestruct Hframe as [Hk Hs]; [by eauto|split; [exact Hk|split; [exact Hs|by right]]].
  - destruct (ref_set_again k v ttl t (n `min` redis_attempts) r1) as [->|[Hn ->]]; intros [= <- <-];
      (edestruct Hframe as [Hk Hs]; [by eauto|split; [exact Hk|split; [exact Hs|]]]); [by left|by right].
Qed.

#[export] Instance ref_RedisLaws : RedisLaws RefRedis.
Proof.
  split; [..|apply ref_setnx].
  - intros d Hd. simpl. unfold ref_kept_ttl. pose proof (Z.div_mod d 1000000).
    pose proof (Z.mod_pos_bound d 1000000). lia.
  - intros r t t' k Ht. simpl. unfold ref_live. destruct (rr_strings r !! k) as [[v d]|]; [|done]. simpl.
    destruct (Z.leb_spec t d), (Z.leb_spec t' d); done || lia.
  - apply ref_zincrby.
  - intros k start stop r res r' Hrun. ref_read (λ r, Ok (zrange start stop (ref_all r k))) Hrun Hs;
      (split; [done|]); [|done].
    exists (ref_all r k). split; [apply ref_all_order|done].
  - apply ref_zrevrank.
  - intros k m r res r' Hrun. ref_read (λ r, match ref_scores r k !! m with Some z => Ok (f_of_Z z)
      | None => Err redis_Nil end) Hrun Hs; (split; [done|]); [|done].
    simpl. rewrite lookup_fmap. by destruct (ref_scores r k !! m).
  - intros k t r res r' Hrun. ref_read (λ r, match ref_live r t k with Some v => Ok v
      | None => Err redis_Nil end) Hrun Hs; destruct Hs as [_ Hs];
      (split; [intros t' k' _; apply Hs|]); [|done].
    simpl. by destruct (ref_live r t k).
Qed.

#[export, program] Instance ref_RedisUp : RedisUp RefRedis := {| redis_up r := rr_faults r = [] |}.
Next Obligation.
  intros k t r res r' Hup. simpl. unfold with_fault. rewrite Hup. simpl. intros [= <- <-].
  split; [done|]. destruct (ref_live _ t k); auto.
Qed.
Next Obligation.
  intros k v ttl t r res r' Hup. simpl. unfold with_fault. rewrite Hup. simpl.
  unfold ref_set. destruct (ref_live _ t k); intros [= <- <-]; auto.
Qed.
