(* ===== verification/RedisBoard.v ===== *)
(** * The leaderboard in Redis

    Models [internal/persistence/redis/leaderboard.go] over the interface of
    [Redis], and shows that it answers what the in-memory leaderboard of
    [Ranking] answers on the same scores, as long as they are below [2^53]. *)

From S2P Require Import GoLang Float Ranking Redis.
#[local] Open Scope Z_scope.

(** [int64(f)]; where the language leaves the result open, what amd64 gives. *)
Definition f_to_int64 (f : float64) : Z :=
  let z := f_trunc f in
  if (- int64_half <=? z) && (z <? int64_half) then z else - int64_half.

Definition redis_key (eventID : string) : string := "ranking:event:" +:+ eventID.

(** [domain.Entry] for the [i]-th result, ranks starting after [start]. *)
Definition to_entries (start : Z) (res : list (string * float64)) : list Entry :=
  imap (λ i z, {| Entry_PlayerID := z.1; Score := f_to_int64 z.2;
                  EntryRank := start + Z.of_nat i + 1 |}) res.

Section store.
Context {R : Type} `{!Redis R}.

Definition RedisBoard_IncrBy (eventID playerID : string) (delta : Z) : M R Z :=
  newScore ← wrapErr "ZINCRBY" (ZIncrBy (redis_key eventID) (f_of_Z delta) playerID);
  mret (f_to_int64 newScore).

(** A count that is not positive gives no entries and asks nothing. *)
Definition RedisBoard_Top (eventID : string) (n : Z) : M R (list Entry) :=
  if n <=? 0 then mret []
  else
    res ← wrapErr "ZREVRANGE" (ZRevRangeWithScores (redis_key eventID) 0 (n [-] 1));
    mret (to_entries 0 res).

(** [redis.Nil] becomes [ErrPlayerNotRanked], other errors are wrapped. *)
Definition nil_not_ranked {A} (prefix : string) (m : M R A) : M R A := λ r,
  match m r with
  | (Err e, r') =>
      if errors_Is e redis_Nil then (Err ranking_ErrPlayerNotRanked, r')
      else (Err (Errorf_w prefix e), r')
  | out => out
  end.

Definition RedisBoard_Rank (eventID playerID : string) : M R Entry :=
  let k := redis_key eventID in
  rank ← nil_not_ranked "ZREVRANK" (ZRevRank k playerID);
  score ← nil_not_ranked "ZSCORE" (ZScore k playerID);
  mret {| Entry_PlayerID := playerID; Score := f_to_int64 score; EntryRank := rank [+] 1 |}.

Definition RedisBoard_Around (eventID playerID : string) (radius : Z) : M R (list Entry) :=
  let k := redis_key eventID in
  rank ← nil_not_ranked "ZREVRANK" (ZRevRank k playerID);
  let start := rank [-] radius in
  let start := if start <? 0 then 0 else start in
  let stop := rank [+] radius in
  res ← wrapErr "ZREVRANGE" (ZRevRangeWithScores k start stop);
  mret (to_entries start res).
End store.

#[export] Instance redis_RankingStore `{!Redis R} : RankingStore R := {|
  IncrBy := RedisBoard_IncrBy;
  Top := RedisBoard_Top;
  Rank := RedisBoard_Rank;
  Around := RedisBoard_Around |}.

(** ** The scores of an event *)

Lemma redis_key_inj ev ev' : redis_key ev = redis_key ev' → ev = ev'.
Proof. unfold redis_key. by intros [=]. Qed.

Lemma f_to_int64_exact z : f_exact z → f_to_int64 (f_of_Z z) = z.
Proof.
  intros Hz. unfold f_to_int64. rewrite f_trunc_of_Z by done. unfold f_exact, int64_half in *.
  by rewrite (proj2 (Z.leb_le _ _)), (proj2 (Z.ltb_lt _ _)) by lia.
Qed.

Section equivalence.
Context `{!GoRuntime} {R : Type} `{!Redis R, !RedisData R, !RedisLaws R}.
Implicit Types (r : R) (l : Leaderboard).

(** The server holds the scores [m] for an event, all of them exact. *)
Definition holds (r : R) (ev : string) (m : gmap string Z) : Prop :=
  zset r (redis_key ev) = f_of_Z <$> m ∧ map_Forall (λ _ z, f_exact z) m.

(** The server and a leaderboard hold the same scores for every event. *)
Definition same_board (r : R) (l : Leaderboard) : Prop := ∀ ev, holds r ev (event_scores l ev).

Lemma holds_same r r' ev m : same_data r r' → holds r ev m → holds r' ev m.
Proof. intros [E _] [Hm Hex]. split; [by rewrite E|done]. Qed.

(** Entries of the ranking from the elements of the sorted set. *)
Lemma to_entries_segment m es (a b : nat) :
  map_Forall (λ _ z, f_exact z) m → is_ranking m es →
  to_entries (Z.of_nat a) (take b (drop a (to_float <$> (entry_pair <$> es)))) = take b (drop a es).
Proof.
  intros Hm Hes. destruct Hes as (Hp & _ & Hr).
  assert (∀ i e, es !! i = Some e → f_exact (Score e)) as Hex.
  { intros i e Hi. apply (Hm (Entry_PlayerID e)), elem_of_map_to_list. rewrite <- Hp.
    apply list_elem_of_fmap. exists e. split; [done|]. by eapply list_elem_of_lookup_2. }
  apply list_eq. intros i. unfold to_entries. rewrite list_lookup_imap.
  destruct (decide (i < b)%nat) as [Hi|Hi]; [|by rewrite !lookup_take_ge by lia].
  rewrite !lookup_take_lt, !lookup_drop, !list_lookup_fmap by done.
  destruct (es !! (a + i)%nat) as [e|] eqn:He; [|done]. simpl.
  rewrite (f_to_int64_exact _ (Hex _ _ He)). specialize (Hr _ _ He). destruct e; simpl in *.
  do 2 f_equal. lia.
Qed.

(** The sorted set of an event is its one ranking. *)
Lemma holds_ranking r ev m l all :
  holds r ev m → event_scores l ev = m → zset_order (zset r (redis_key ev)) all →
  all = to_float <$> (entry_pair <$> sortedLocked l ev).
Proof.
  intros [Hz Hex] <- Ho. rewrite Hz in Ho. destruct (zset_order_ranking _ _ Hex Ho) as (es & Hes & ->).
  by rewrite (is_ranking_unique _ _ _ Hes (sortedLocked_is_ranking l ev)).
Qed.

(** One increment that takes effect, in step with the in-memory one. *)
Lemma score_written_board ev p δ r l r' :
  same_board r l → f_exact δ → f_exact (default 0 (event_scores l ev !! p) + δ) →
  score_written (redis_key ev) p (f_add (default f_zero (zset r (redis_key ev) !! p)) (f_of_Z δ)) r r' →
  same_board r' (Leaderboard_IncrBy ev p δ l).2.
Proof.
  intros Hsame Hδ Hsum. set (s := default 0 (event_scores l ev !! p) + δ) in *.
  assert (f_add (default f_zero (zset r (redis_key ev) !! p)) (f_of_Z δ) = f_of_Z s) as ->.
  { destruct (Hsame ev) as [-> Hex]. rewrite lookup_fmap.
    assert (default f_zero (f_of_Z <$> event_scores l ev !! p) =
      f_of_Z (default 0 (event_scores l ev !! p))) as -> by by destruct (event_scores l ev !! p).
    apply f_add_of_Z; [|done|done]. destruct (event_scores l ev !! p) as [z|] eqn:Hz; [|done].
    by apply (Hex p z). }
  intros [Hw _] ev'. unfold holds.
  assert (event_scores (Leaderboard_IncrBy ev p δ l).2 ev' =
    if decide (ev' = ev) then <[p := s]> (event_scores l ev) else event_scores l ev') as ->.
  { apply map_eq. intros q. rewrite IncrBy_score.
    assert (default 0 (event_scores l ev !! p) [+] δ = s) as E.
    { apply int_add_small. fold s. unfold f_exact in Hsum. int_range. }
    destruct (decide (ev' = ev)) as [->|]; [|by rewrite decide_False by naive_solver].
    destruct (decide (p = q)) as [<-|]; [rewrite decide_True by done; by rewrite E, lookup_insert_eq|].
    rewrite decide_False by tauto. by rewrite lookup_insert_ne. }
  rewrite Hw. destruct (Hsame ev) as [Hz Hex]. destruct (Hsame ev') as [Hz' Hex'].
  destruct (decide (ev' = ev)) as [->|Hne].
  - rewrite decide_True, Hz, fmap_insert by done. split; [done|]. by apply map_Forall_insert_2.
  - rewrite decide_False by (by intros ?%redis_key_inj). by split.
Qed.

(** An increment that takes effect any number of times. *)
Lemma incremented_board ev p δ n r l r' :
  same_board r l →
  Z.abs (default 0 (event_scores l ev !! p)) + Z.of_nat n * Z.abs δ < 2 ^ 53 →
  incremented (redis_key ev) p (f_of_Z δ) n r r' →
  same_board r' (apply_incrs (replicate n (ev, p, δ)) l).
Proof.
  revert r l. induction n as [|n IH]; intros r l Hsame Hb; cbn [incremented replicate apply_incrs].
  { intros Hd ev'. by eapply holds_same. }
  intros (r1 & Hw & Hi). eapply IH; [|..|exact Hi].
  - eapply score_written_board; [done|unfold f_exact; nia..|done].
  - rewrite IncrBy_score, decide_True by done. simpl. rewrite int_add_small; [nia|int_range].
Qed.

(** An increment of the program: how often it took effect, at least once if it is
    answered, and with the score then stored. *)
Lemma RedisIncrBy_step ev p δ r l res r' :
  same_board r l →
  Z.abs (default 0 (event_scores l ev !! p)) + Z.of_nat redis_attempts * Z.abs δ < 2 ^ 53 →
  RedisBoard_IncrBy ev p δ r = (res, r') →
  no_panic res ∧ ∃ n, (n <= redis_attempts)%nat ∧ same_board r' (apply_incrs (replicate n (ev, p, δ)) l) ∧
    ∀ sc, res = Ok sc → (0 < n)%nat ∧
      event_scores (apply_incrs (replicate n (ev, p, δ)) l) ev !! p = Some sc.
Proof.
  intros Hsame Hb. unfold RedisBoard_IncrBy. rewrite M_bind_eq. unfold wrapErr.
  destruct (ZIncrBy _ _ _ r) as [[f|e|w] r1] eqn:E; apply zincrby in E as (n & Hn & Hi & E); [| |done];
    apply (incremented_board ev p δ n r l r1 Hsame) in Hi; try nia.
  - destruct E as [Hpos Hz]. intros [= <- <-]. split; [done|]. exists n. split; [done|]. split; [done|].
    intros sc [= <-]. split; [done|]. destruct (Hi ev) as [Hr Hex]. rewrite Hr, lookup_fmap in Hz.
    destruct (event_scores (apply_incrs _ _) ev !! p) as [z|] eqn:Hl; [|done]. injection Hz as <-.
    by rewrite (f_to_int64_exact z (Hex _ _ Hl)).
  - intros [= <- <-]. split; [done|]. by exists n.
Qed.

(** *** Reading *)

(** The answer of the server against that of the in-memory leaderboard: the same
    value, or "not ranked" for both, or a failure of the server. *)
Definition agrees {A} (res out : result A) : Prop :=
  match res with
  | Ok a => out = Ok a
  | Err e => e = ranking_ErrPlayerNotRanked → out = Err ranking_ErrPlayerNotRanked
  | Panic _ => False
  end.

Lemma zrange_to n {A} (l : list A) : 0 < n → zrange 0 (n - 1) l = take (Z.to_nat n) l.
Proof.
  intros Hn. unfold zrange. simpl. rewrite (proj2 (Z.ltb_ge (n - 1) 0)) by lia.
  rewrite (proj2 (Z.ltb_ge (n - 1) 0)) by lia. simpl.
  destruct (Z.leb_spec (Z.of_nat (length l)) 0).
  - destruct l; [by rewrite take_nil|simpl in *; lia].
  - rewrite drop_0. f_equal. lia.
Qed.

Lemma zrange_segment {A} (l : list A) (i : nat) radius start :
  0 <= radius → (i < length l)%nat → start = Z.max 0 (Z.of_nat i - radius) →
  zrange start (Z.of_nat i + radius) l =
  take (Z.to_nat (Z.of_nat i + radius + 1 - start)) (drop (Z.to_nat start) l).
Proof.
  intros Hr Hi ->. unfold zrange.
  rewrite (proj2 (Z.ltb_ge (Z.max 0 (Z.of_nat i - radius)) 0)) by lia.
  rewrite (proj2 (Z.ltb_ge (Z.of_nat i + radius) 0)) by lia.
  rewrite (proj2 (Z.ltb_ge (Z.of_nat i + radius) _)) by lia.
  rewrite (proj2 (Z.leb_gt (Z.of_nat (length l)) _)) by lia. simpl. f_equal. lia.
Qed.

Lemma RedisTop_agrees ev n r l :
  same_board r l → 0 < n < int64_half →
  same_data r (RedisBoard_Top ev n r).2 ∧
  agrees (RedisBoard_Top ev n r).1 (Leaderboard_Top ev n l).1.
Proof.
  intros Hsame Hn. unfold RedisBoard_Top. rewrite (proj2 (Z.leb_gt _ _)) by lia.
  rewrite M_bind_eq, int_sub_small by int_range. unfold wrapErr.
  destruct (ZRevRangeWithScores _ _ _ r) as [[res|e|w] r1] eqn:E; apply zrevrange in E as [Hd E]; [|done..].
  split; [done|]. destruct E as (all & Ho & ->). simpl.
  rewrite (holds_ranking _ _ _ _ _ (Hsame ev) eq_refl Ho), zrange_to by lia.
  pose proof (sortedLocked_is_ranking l ev) as Hes. destruct (Hsame ev) as [_ Hex].
  pose proof (to_entries_segment _ _ 0 (Z.to_nat n) Hex Hes) as Hseg. rewrite !drop_0 in Hseg.
  change (Z.of_nat 0) with 0 in Hseg. rewrite Hseg.
  destruct (Z.ltb_spec (Z.of_nat (length (sortedLocked l ev))) n); rewrite slice_range_ok by lia;
    rewrite drop_0, Z.sub_0_r; f_equal. by rewrite !take_ge by lia.
Qed.

(** The index the server gives a member is its place in the ranking. *)
Lemma zrevrank_place ev p r l res r1 :
  same_board r l → ZRevRank (redis_key ev) p r = (res, r1) →
  same_data r r1 ∧
  match res with
  | Ok i => ∃ (n : nat) e, i = Z.of_nat n ∧ sortedLocked l ev !! n = Some e ∧ Entry_PlayerID e = p
  | Err e => errors_Is e redis_Nil = true → event_scores l ev !! p = None
  | Panic _ => False
  end.
Proof.
  intros Hsame E. apply zrevrank in E as [Hd E]. split; [done|]. destruct (Hsame ev) as [Hz Hex].
  destruct res as [i|e|w]; [| |done].
  - destruct E as (all & f & Ho & Hi & Hl). exists (Z.to_nat i).
    rewrite (holds_ranking _ _ _ _ _ (Hsame ev) eq_refl Ho), !list_lookup_fmap in Hl.
    destruct (sortedLocked l ev !! Z.to_nat i) as [e|]; [|done]. simpl in Hl. injection Hl as <- _.
    exists e. split_and!; [lia|done|done].
  - intros Hnil. specialize (E Hnil). rewrite Hz, lookup_fmap in E.
    by destruct (event_scores l ev !! p).
Qed.

Lemma place_find ev l n e :
  sortedLocked l ev !! n = Some e →
  find_entry (Entry_PlayerID e) (sortedLocked l ev) = Some e ∧
  index_loop (Entry_PlayerID e) 0 (sortedLocked l ev) = Z.of_nat n ∧
  EntryRank e = Z.of_nat n + 1 ∧ event_scores l ev !! Entry_PlayerID e = Some (Score e).
Proof.
  intros Hn. pose proof (sortedLocked_is_ranking l ev) as Hes.
  assert (Entry_PlayerID e ∈ Entry_PlayerID <$> sortedLocked l ev) as Hin.
  { apply list_elem_of_fmap_2. by eapply list_elem_of_lookup_2. }
  split_and!.
  - destruct (find_entry _ _) as [e'|] eqn:Hf; [|by apply find_entry_None in Hf].
    apply find_entry_Some in Hf as [[j Hj]%list_elem_of_lookup Heq].
    assert (j = n) as -> by by eapply is_ranking_inj. congruence.
  - destruct (index_loop_spec (Entry_PlayerID e) 0 (sortedLocked l ev)) as [[_ Hno]|(j & e' & -> & Hj & Heq)];
      [done|done|]. assert (j = n) as -> by by eapply is_ranking_inj. lia.
  - destruct Hes as (_ & _ & Hr). by apply Hr.
  - apply (is_ranking_elem _ _ _ Hes). by eapply list_elem_of_lookup_2.
Qed.

Lemma unranked_find ev p l :
  event_scores l ev !! p = None →
  find_entry p (sortedLocked l ev) = None ∧ index_loop p 0 (sortedLocked l ev) = -1.
Proof.
  intros Hp. pose proof (sortedLocked_is_ranking l ev) as Hes.
  assert (∀ n e, sortedLocked l ev !! n = Some e → Entry_PlayerID e = p → False) as Hno.
  { intros n e Hn <-. apply place_find in Hn as (_ & _ & _ & Hs). congruence. }
  split.
  - destruct (find_entry _ _) as [e|] eqn:Hf; [|done].
    apply find_entry_Some in Hf as [[j Hj]%list_elem_of_lookup Heq]. by destruct (Hno _ _ Hj Heq).
  - destruct (index_loop_spec p 0 (sortedLocked l ev)) as [[? _]|(j & e' & _ & Hj & Heq)];
      [done|done|by destruct (Hno _ _ Hj Heq)].
Qed.

Lemma RedisRank_agrees ev p r l :
  same_board r l → Z.of_nat (size (event_scores l ev)) < int64_half - MaxAroundRadius →
  same_data r (RedisBoard_Rank ev p r).2 ∧
  agrees (RedisBoard_Rank ev p r).1 (Leaderboard_Rank ev p l).1.
Proof.
  intros Hsame Hsize. unfold RedisBoard_Rank. rewrite M_bind_eq. unfold nil_not_ranked, Leaderboard_Rank.
  destruct (ZRevRank _ _ r) as [res r1] eqn:E.
  apply (zrevrank_place _ _ _ l) in E as [Hd E]; [|done]. destruct res as [i|e|w]; [| |done].
  2:{ destruct (errors_Is e redis_Nil); simpl; (split; [done|]); [|done].
      intros _. by destruct (unranked_find ev p l (E eq_refl)) as [-> _]. }
  destruct E as (n & en & -> & Hn & <-). destruct (place_find _ _ _ _ Hn) as (Hf & _ & Hrank & Hs).
  rewrite M_bind_eq. destruct (ZScore _ _ r1) as [[f|e|w] r2] eqn:E2; apply zscore in E2 as [Hd2 E2]; [| |done].
  - cbn [mret M_ret fst snd]. split; [by etrans|]. rewrite Hf.
    destruct Hd as [Hz _]. destruct (Hsame ev) as [Hm Hex]. rewrite Hz, Hm, lookup_fmap, Hs in E2.
    injection E2 as <-. rewrite f_to_int64_exact by (by apply (Hex (Entry_PlayerID en))).
    assert (Z.of_nat n < Z.of_nat (size (event_scores l ev))) as Hlt.
    { apply lookup_lt_Some in Hn. destruct (sortedLocked_is_ranking l ev) as [Hp _].
      apply Permutation_length in Hp. rewrite length_fmap, length_map_to_list in Hp. lia. }
    rewrite int_add_small by (unfold MaxAroundRadius in *; int_range). rewrite <- Hrank. by destruct en.
  - destruct (errors_Is e redis_Nil); cbn [fst snd]; (split; [by etrans|]); [|done].
    specialize (E2 eq_refl). destruct Hd as [Hz _]. destruct (Hsame ev) as [Hm _].
    by rewrite Hz, Hm, lookup_fmap, Hs in E2.
Qed.

Lemma RedisAround_agrees ev p radius r l :
  same_board r l → Z.of_nat (size (event_scores l ev)) < int64_half - MaxAroundRadius →
  0 <= radius <= MaxAroundRadius →
  same_data r (RedisBoard_Around ev p radius r).2 ∧
  agrees (RedisBoard_Around ev p radius r).1 (Leaderboard_Around ev p radius l).1.
Proof.
  intros Hsame Hsize Hradius. unfold RedisBoard_Around. rewrite M_bind_eq.
  unfold nil_not_ranked, Leaderboard_Around.
  destruct (ZRevRank _ _ r) as [res r1] eqn:E.
  apply (zrevrank_place _ _ _ l) in E as [Hd E]; [|done]. destruct res as [i|e|w]; [| |done].
  2:{ destruct (errors_Is e redis_Nil); simpl; (split; [done|]); [|done].
      intros _. by destruct (unranked_find ev p l (E eq_refl)) as [_ ->]. }
  destruct E as (n & en & -> & Hn & <-). destruct (place_find _ _ _ _ Hn) as (_ & Hidx & _ & _).
  set (es := sortedLocked l ev) in *. rewrite Hidx. apply lookup_lt_Some in Hn as Hlen.
  assert (Z.of_nat (length es) < int64_half - MaxAroundRadius) as Hes.
  { destruct (sortedLocked_is_ranking l ev) as [Hp _]. apply Permutation_length in Hp.
    rewrite length_fmap, length_map_to_list in Hp. unfold es. lia. }
  unfold MaxAroundRadius in *. rewrite M_bind_eq, (proj2 (Z.ltb_ge (Z.of_nat n) 0)) by lia.
  rewrite !int_add_small, int_sub_small by (rewrite ?int_add_small; int_range).
  set (start := if Z.of_nat n - radius <? 0 then 0 else Z.of_nat n - radius).
  assert (start = Z.max 0 (Z.of_nat n - radius)) as Hstart
    by (unfold start; destruct (Z.ltb_spec (Z.of_nat n - radius) 0); lia).
  clearbody start. unfold wrapErr.
  destruct (ZRevRangeWithScores _ _ _ r1) as [[res|e|w] r2] eqn:E2; apply zrevrange in E2 as [Hd2 E2];
    [|by split; [etrans|]|done].
  cbn [mret M_ret fst snd]. split; [by etrans|]. destruct E2 as (all & Ho & ->).
  destruct Hd as [Hz _]. rewrite Hz in Ho. destruct (Hsame ev) as [_ Hex].
  rewrite (holds_ranking _ _ _ _ _ (Hsame ev) eq_refl Ho).
  rewrite (zrange_segment _ n radius start) by (rewrite ?length_fmap; (done || lia)).
  pose proof (to_entries_segment _ _ (Z.to_nat start) (Z.to_nat (Z.of_nat n + radius + 1 - start)) Hex
    (sortedLocked_is_ranking l ev)) as Hseg. rewrite Z2Nat.id in Hseg by lia.
  cbn [mret M_ret fst agrees]. rewrite Hseg. fold es.
  destruct (Z.ltb_spec (Z.of_nat (length es)) (Z.of_nat n + radius + 1)); rewrite slice_range_ok by lia;
    f_equal. by rewrite !take_ge by (rewrite length_drop; lia).
Qed.

(** C21. The leaderboards are interchangeable. When a server and an in-memory
    leaderboard hold the same scores, all of them below [2^53], every question
    the ranking service may ask is answered alike: the same entries with the same
    scores and ranks, "not ranked" for the same players, or the server fails; it
    never panics, and asking changes no data. *)
Theorem RedisBoard_agrees (r : R) (l : Leaderboard) (ev p : string) (n radius : Z)
    (Hsame : same_board r l)
    (Hsize : Z.of_nat (size (event_scores l ev)) < int64_half - MaxAroundRadius)
    (Hn : 1 <= n <= MaxTopN) (Hradius : 0 <= radius <= MaxAroundRadius) :
  agrees (RedisBoard_Top ev n r).1 (Leaderboard_Top ev n l).1 ∧
  agrees (RedisBoard_Rank ev p r).1 (Leaderboard_Rank ev p l).1 ∧
  agrees (RedisBoard_Around ev p radius r).1 (Leaderboard_Around ev p radius l).1 ∧
  same_board (RedisBoard_Top ev n r).2 l ∧ same_board (RedisBoard_Rank ev p r).2 l ∧
  same_board (RedisBoard_Around ev p radius r).2 l.
Proof.
  destruct (RedisTop_agrees ev n r l Hsame) as [Hd1 H1]; [unfold MaxTopN, int64_half in *; lia|].
  destruct (RedisRank_agrees ev p r l Hsame Hsize) as [Hd2 H2].
  destruct (RedisAround_agrees ev p radius r l Hsame Hsize Hradius) as [Hd3 H3].
  split_and!; [done|done|done|intros ev'; by eapply holds_same..].
Qed.

(** ** Increments *)

(** Increments, one after the other; an answer for each. *)
Fixpoint redis_incrs (ops : list (string * string * Z)) (r : R) : list (result Z) * R :=
  match ops with
  | [] => ([], r)
  | (ev, p, δ) :: ops' =>
      let '(res, r1) := RedisBoard_IncrBy ev p δ r in
      let '(ress, r2) := redis_incrs ops' r1 in (res :: ress, r2)
  end.

(** Every operation as often as its count says. *)
Definition repeated {A} (counts : list nat) (ops : list A) : list A :=
  concat (zip_with replicate counts ops).

(** How often an increment may have taken effect, given its answer. *)
Definition effects {A} (count : nat) (res : result A) : Prop :=
  (count <= redis_attempts)%nat ∧ (is_Ok res = true → (0 < count)%nat).

(** The sum of the absolute increments of a sequence. *)
Definition total_delta (ops : list (string * string * Z)) : Z :=
  foldr (λ '(_, _, δ) acc, Z.abs δ + acc) 0 ops.

Lemma score_bound n ev p δ l b :
  (∀ ev p, Z.abs (default 0 (event_scores l ev !! p)) <= b) → b + Z.of_nat n * Z.abs δ < 2 ^ 53 →
  ∀ ev' p', Z.abs (default 0 (event_scores (apply_incrs (replicate n (ev, p, δ)) l) ev' !! p')) <=
    b + Z.of_nat n * Z.abs δ.
Proof.
  revert l b. induction n as [|n IH]; intros l b Hb Hn ev' p'; cbn [replicate apply_incrs].
  { pose proof (Hb ev' p'). lia. }
  etrans; [apply (IH _ (b + Z.abs δ)); [|nia]|nia]. intros ev2 p2. rewrite IncrBy_score.
  pose proof (Hb ev2 p2). case_decide; [|lia]. simpl. rewrite int_add_small by (int_range; nia). lia.
Qed.

Lemma redis_incrs_step ops r l b :
  same_board r l → (∀ ev p, Z.abs (default 0 (event_scores l ev !! p)) <= b) → 0 <= b →
  b + Z.of_nat redis_attempts * total_delta ops < 2 ^ 53 →
  ∃ counts, Forall2 effects counts (redis_incrs ops r).1 ∧
    same_board (redis_incrs ops r).2 (apply_incrs (repeated counts ops) l).
Proof.
  revert r l b. induction ops as [|[[ev p] δ] ops IH]; intros r l b Hsame Hb Hb0 Hsum.
  { exists []. by split. }
  unfold total_delta in Hsum. simpl foldr in Hsum. fold (total_delta ops) in Hsum.
  assert (0 <= total_delta ops) as Htot.
  { clear. unfold total_delta. induction ops as [|[[? ?] ?] ops IH]; simpl; lia. }
  cbn [redis_incrs]. destruct (RedisBoard_IncrBy ev p δ r) as [res r1] eqn:E.
  pose proof (Hb ev p) as Hbp.
  apply (RedisIncrBy_step _ _ _ _ l) in E as (_ & n & Hn & Hs & Hok); [|done|nia].
  destruct (IH r1 _ (b + Z.of_nat redis_attempts * Z.abs δ) Hs) as (counts & Hc & Hend); [|nia..|].
  { intros ev' p'. etrans; [apply (score_bound n ev p δ l b Hb); nia|nia]. }
  destruct (redis_incrs ops r1) as [ress r2]. exists (n :: counts). split.
  - constructor; [|done]. split; [done|]. destruct res as [sc|?|?]; [|done..]. intros _. by eapply Hok.
  - unfold repeated. cbn [zip_with concat]. by rewrite apply_incrs_app.
Qed.

(** What increments leave. From a server without scores, after any sequence of
    increments whose absolute values sum to less than a quarter of [2^53], with
    commands refused, replies lost and commands sent again in any way, the server holds
    what the in-memory leaderboard holds when each increment has counted some number of
    times, in order: at least once if it was answered, and at most as often as the client
    sends a command. *)
Theorem redis_incrs_refine (ops : list (string * string * Z)) (r : R)
    (Hempty : ∀ ev, zset r (redis_key ev) = ∅)
    (Hsum : Z.of_nat redis_attempts * total_delta ops < 2 ^ 53) :
  ∃ counts, Forall2 effects counts (redis_incrs ops r).1 ∧
    same_board (redis_incrs ops r).2 (apply_incrs (repeated counts ops) NewLeaderboard).
Proof.
  apply (redis_incrs_step ops r NewLeaderboard 0); [|intros ev p|lia|lia].
  - intros ev. unfold holds, event_scores, NewLeaderboard. cbn [scores]. rewrite lookup_empty. simpl.
    rewrite Hempty, fmap_empty. split; [done|]. apply map_Forall_empty.
  - unfold event_scores, NewLeaderboard. cbn [scores]. rewrite lookup_empty. simpl.
    rewrite lookup_empty. simpl. lia.
Qed.
End equivalence.

(** ** On the reference server *)

Definition demo_scores_of (ev : string) (m : gmap string Z) (faults : list redis_fault) : RefRedis :=
  {| rr_zsets := {[redis_key ev := m]}; rr_strings := ∅; rr_faults := faults |}.

Lemma demo_same_board ev m faults :
  map_Forall (λ _ z, f_exact z) m →
  same_board (demo_scores_of ev m faults) {| scores := {[ev := m]} |}.
Proof.
  intros Hm ev'. unfold holds, event_scores, demo_scores_of. simpl. unfold ref_scores. simpl.
  destruct (decide (ev' = ev)) as [->|Hne].
  - rewrite !lookup_singleton_eq. simpl. rewrite map_filter_id by by intros ? ? ?%Hm. done.
  - rewrite !lookup_singleton_ne by (intros ->%redis_key_inj || congruence; done). simpl.
    rewrite map_filter_empty. split; [done|apply map_Forall_empty].
Qed.

Definition demo_scores : gmap string Z := {["alice" := 30; "bob" := 50; "carol" := 30]}.
Definition demo_board : RefRedis := demo_scores_of "e" demo_scores [].

Lemma RedisBoard_agrees_witness :
  (RedisBoard_Top "e" 2 demo_board).1 =
    Ok [{| Entry_PlayerID := "bob"; Score := 50; EntryRank := 1 |};
        {| Entry_PlayerID := "carol"; Score := 30; EntryRank := 2 |}] ∧
  agrees (RedisBoard_Top "e" 2 demo_board).1
         (Leaderboard_Top "e" 2 {| scores := {["e" := demo_scores]} |}).1.
Proof.
  split; [vm_compute; reflexivity|].
  assert (same_board demo_board {| scores := {["e" := demo_scores]} |}) as Hsame.
  { apply demo_same_board. refine (bool_decide_unpack _ _). vm_compute. exact I. }
  eapply (RedisBoard_agrees demo_board {| scores := {["e" := demo_scores]} |} "e" "alice" 2 1 Hsame).
  - vm_compute. reflexivity.
  - unfold MaxTopN. lia.
  - unfold MaxAroundRadius. lia.
Defined.

(** The second command is refused, all replies to the third are lost, and the one to the
    first attempt at the fourth: two of the four are answered, the third is applied four
    times although it was not, and the fourth counts twice. *)
Definition demo_incrs : list (string * string * Z) :=
  [("e", "alice", 5); ("e", "bob", 100); ("e", "bob", 7); ("e", "alice", -2)].

Definition demo_faulty : RefRedis :=
  {| rr_zsets := ∅; rr_strings := ∅; rr_faults := [Answered 0; GivenUp 0; GivenUp 4; Answered 1] |}.

Lemma redis_incrs_refine_witness :
  is_Ok <$> (redis_incrs demo_incrs demo_faulty).1 = [true; false; false; true] ∧
  (RedisBoard_Rank "e" "bob" (redis_incrs demo_incrs demo_faulty).2).1 =
    Ok {| Entry_PlayerID := "bob"; Score := 28; EntryRank := 1 |} ∧
  ∃ counts, Forall2 effects counts (redis_incrs demo_incrs demo_faulty).1 ∧
    same_board (redis_incrs demo_incrs demo_faulty).2 (apply_incrs (repeated counts demo_incrs) NewLeaderboard).
Proof.
  split; [vm_compute; reflexivity|]. split; [vm_compute; reflexivity|].
  apply (redis_incrs_refine demo_incrs demo_faulty); [|vm_compute; reflexivity].
  intros ev. simpl. unfold ref_scores. simpl. rewrite lookup_empty. simpl.
  by rewrite map_filter_empty, fmap_empty.
Defined.

(** A reply that is lost once: the score of one request counts twice, and the call is
    answered with the doubled score. *)
Example retried_score_doubled :
  (RedisBoard_IncrBy "e" "alice" 5 {| rr_zsets := ∅; rr_strings := ∅; rr_faults := [Answered 1] |}).1 = Ok 10.
Proof. vm_compute. reflexivity. Qed.

(** Beyond the exact integers an increment of one is answered and lost. *)
Example big_score_stuck : f_add (f_of_Z (2 ^ 53)) (f_of_Z 1) = f_of_Z (2 ^ 53).
Proof. vm_compute. reflexivity. Qed.
