(* ===== verification/RedisIdem.v ===== *)
(** * The idempotency store in Redis

    Models [internal/idempotency/redis.go] over the interface of [Redis]: the
    same promises as the in-memory store of [Idempotency], as long as the server
    answers. An entry is stored as its JSON text. *)

From S2P Require Import GoLang Idempotency Redis.
#[local] Open Scope Z_scope.

(** [json.Marshal] and [json.Unmarshal] of an entry, an integer and bytes: what
    is written can be read back. *)
Class EntryJson (B : Type) := {
  json_Marshal : IdemEntry B → result string;
  json_Unmarshal : string → result (IdemEntry B);
  json_Marshal_Ok : ∀ e, is_Ok (json_Marshal e) = true;
  json_roundtrip : ∀ e raw, json_Marshal e = Ok raw → json_Unmarshal raw = Ok e;
  json_no_panic : ∀ raw, no_panic (json_Unmarshal raw) }.

Record RedisStore (R : Type) := { rs_client : R; rs_ttl : Z }.
Arguments rs_client {R} _.
Arguments rs_ttl {R} _.
Arguments Build_RedisStore {R} _ _.

Definition NewRedisStore {R} (client : R) (ttl : Z) : RedisStore R :=
  let ttl := if ttl <=? 0 then 5 * Minute else ttl in
  {| rs_client := client; rs_ttl := ttl |}.

(** A call of the client. *)
Definition on_client {R A} (m : M R A) : M (RedisStore R) A := λ s,
  let '(res, r') := m (rs_client s) in (res, {| rs_client := r'; rs_ttl := rs_ttl s |}).

Section store.
Context {B R : Type} `{!Redis R, !EntryJson B}.

Definition RedisStore_Get (key : string) (now : time) : M (RedisStore R) (option (IdemEntry B)) := λ s,
  match on_client (Redis_Get key now) s with
  | (Err err, s') =>
      if errors_Is err redis_Nil then (Ok None, s') else (Err (Errorf_w "redis get" err), s')
  | (Panic w, s') => (Panic w, s')
  | (Ok raw, s') =>
      match json_Unmarshal raw with
      | Err err => (Err (Errorf_w "unmarshal idempotency entry" err), s')
      | Panic w => (Panic w, s')
      | Ok e => (Ok (Some e), s')
      end
  end.

(** The command happens at [now]. *)
Definition RedisStore_Set (key : string) (entry : IdemEntry B) (now : time) : M (RedisStore R) unit :=
  raw ← wrapErr (S := RedisStore R) "marshal idempotency entry" (lift (json_Marshal entry));
  (λ s, match on_client (Redis_SetNX key raw (rs_ttl s) now) s with
        | (Err err, s') =>
            if errors_Is err redis_Nil then (Ok tt, s') else (Err (Errorf_w "redis set nx" err), s')
        | (Panic w, s') => (Panic w, s')
        | (Ok _, s') => (Ok tt, s')
        end) : M (RedisStore R) unit.
End store.

(** Only the second instant of a [Set] counts. *)
#[export] Instance redis_IdemStore {B R} `{!Redis R, !EntryJson B} : IdemStore B (RedisStore R) := {|
  Idem_Get := RedisStore_Get;
  Idem_Set k e _ t2 := RedisStore_Set k e t2 |}.

(** ** The promises of the store *)

Section laws.
Context {B R : Type} `{!Inhabited B, !Redis R, !EntryJson B, !RedisData R, !RedisLaws R}.
Implicit Types (s : RedisStore R) (r : R) (k : string) (t : time) (e : IdemEntry B).

(** A value that is not an entry hides the key; it stands for any entry. *)
Definition entry_of (raw : string) : IdemEntry B :=
  match json_Unmarshal raw with
  | Ok e => e
  | _ => {| IdemStatus := 0; IdemBody := inhabitant |}
  end.

Definition redis_shown s t k : option (IdemEntry B) := entry_of <$> live (rs_client s) t k.

Lemma entry_of_marshal e raw : json_Marshal e = Ok raw → entry_of raw = e.
Proof. intros He%json_roundtrip. unfold entry_of. by rewrite He. Qed.

Lemma RedisStore_Get_spec k t s res s' :
  RedisStore_Get (B := B) k t s = (res, s') →
  rs_ttl s' = rs_ttl s ∧
  (∀ t' k', t <= t' → live (rs_client s') t' k' = live (rs_client s) t' k') ∧
  match res with
  | Ok o => o = redis_shown s t k
  | Err _ => True
  | Panic _ => False
  end.
Proof.
  unfold RedisStore_Get, on_client.
  destruct (Redis_Get k t (rs_client s)) as [[raw|err|w] r'] eqn:E; apply redis_get in E as [Hlive E];
    [| |done].
  - destruct (json_Unmarshal raw) as [e|err|w] eqn:Hraw; intros [= <- <-]; (split_and!; [done..|]).
    + unfold redis_shown. rewrite E. simpl. unfold entry_of. by rewrite Hraw.
    + done.
    + pose proof (json_no_panic raw) as Hp. by rewrite Hraw in Hp.
  - destruct (errors_Is err redis_Nil); intros [= <- <-]; (split_and!; [done..|]); [|done].
    unfold redis_shown. by rewrite (E eq_refl).
Qed.

Lemma RedisStore_Set_spec k e t s res s' :
  RedisStore_Set k e t s = (res, s') →
  ∃ raw, json_Marshal e = Ok raw ∧ rs_ttl s' = rs_ttl s ∧
  (∀ t' k', t <= t' → k' ≠ k → live (rs_client s') t' k' = live (rs_client s) t' k') ∧
  (is_Some (live (rs_client s) t k) →
     ∀ t', t <= t' → live (rs_client s') t' k = live (rs_client s) t' k) ∧
  (live (rs_client s) t k = None → res = Ok tt →
     value_kept k raw (rs_ttl s) t (rs_client s')) ∧
  no_panic res.
Proof.
  unfold RedisStore_Set. rewrite M_bind_eq. unfold wrapErr, lift.
  pose proof (json_Marshal_Ok e) as Hok. destruct (json_Marshal e) as [raw|?|?]; [|done..].
  unfold on_client.
  destruct (Redis_SetNX _ _ _ _ (rs_client s)) as [[v|err|w] r'] eqn:E;
    apply redis_setnx in E as (Hframe & Hkeep & E); [| |done].
  - intros [= <- <-]. exists raw. do 4 (split; [done|]). split; [by intros _ _; apply E|done].
  - intros Hs'. exists raw.
    assert (rs_client s' = r' ∧ rs_ttl s' = rs_ttl s) as [-> ->]
      by (destruct (errors_Is err redis_Nil); by injection Hs' as _ <-).
    destruct (errors_Is err redis_Nil); injection Hs' as <- _; do 4 (split; [done|]); (split; [|done]).
    + intros Hnone _. rewrite Hnone in E. by destruct E as [[]|E].
    + done.
Qed.

#[export, program] Instance redis_IdemStoreLaws : IdemStoreLaws B (RedisStore R) := {|
  shown := redis_shown;
  idem_ttl s := kept_ttl (rs_ttl s) |}.
Next Obligation. by intros k t s e s' (_ & _ & E)%RedisStore_Get_spec. Qed.
Next Obligation.
  intros s t t' k Ht. unfold redis_shown. rewrite !fmap_None. by apply live_expires.
Qed.
Next Obligation.
  intros k t s k' t' Ht. simpl. destruct (RedisStore_Get k t s) as [res s'] eqn:E.
  apply RedisStore_Get_spec in E as (Httl & Hlive & _). simpl. rewrite Httl. unfold redis_shown.
  by rewrite Hlive.
Qed.
Next Obligation.
  intros k e t1 t2 t s s' Hset Hnone Ht12 Ht. unfold redis_shown in *. rewrite fmap_None in Hnone.
  apply RedisStore_Set_spec in Hset as (raw & Hraw & _ & _ & _ & Hfresh & _).
  apply (live_expires _ t1 t2) in Hnone; [|done].
  destruct (Hfresh Hnone eq_refl) as [_ Hlive]. rewrite Hlive by done. simpl.
  by rewrite (entry_of_marshal e).
Qed.
Next Obligation.
  intros k e t1 t2 t0 t s _ Ht Hsome Ht'. simpl. destruct (RedisStore_Set k e t2 s) as [res s'] eqn:E.
  apply RedisStore_Set_spec in E as (raw & _ & _ & _ & Hkeep & _). unfold redis_shown in *. simpl.
  rewrite fmap_is_Some in Hsome. rewrite Hkeep; [done| |done].
  destruct (live (rs_client s) t2 k) eqn:Hl; [by eexists|].
  apply (live_expires _ t2 t0) in Hl; [|done]. rewrite Hl in Hsome. by destruct Hsome.
Qed.
Next Obligation.
  intros k e t1 t2 t s k' Hne Ht. simpl. destruct (RedisStore_Set k e t2 s) as [res s'] eqn:E.
  apply RedisStore_Set_spec in E as (raw & _ & _ & Hframe & _). unfold redis_shown. simpl.
  by rewrite Hframe.
Qed.
Next Obligation.
  intros k e t1 t2 s. simpl. destruct (RedisStore_Set k e t2 s) as [res s'] eqn:E.
  apply RedisStore_Set_spec in E as (raw & _ & Httl & _). simpl. by rewrite Httl.
Qed.

(** C25. The first response is kept. When a [Set] under a key that holds nothing is
    answered without error, then in every run of calls from any client up to one
    millisecond before the time to live has passed, every [Get] of that key is
    answered with that entry or fails, whatever is set meanwhile and however
    commands are refused or lose their reply. *)
Theorem RedisStore_keeps_first (r : R) (ttl : Z) k e t1 t2 s' (ops : list (idem_op B))
    (Hfresh : live r t1 k = None) (Ht : t1 <= t2)
    (Hset : Idem_Set k e t1 t2 (NewRedisStore r ttl) = (Ok tt, s')) (Hclock : clock_ok t2 ops)
    (Hend : clock_end t2 ops < t2 + (if ttl <=? 0 then 5 * Minute else ttl) - 1000000) :
  Forall (λ '(k', res), k' = k → answered_with e res) (store_answers ops s').
Proof.
  set (d := if ttl <=? 0 then 5 * Minute else ttl) in Hend.
  assert (0 < d) as Hd by (unfold d, Minute, Second; destruct (Z.leb_spec ttl 0); lia).
  pose proof (kept_ttl_near d Hd).
  apply (shown_answers k e ops t2 (t2 + kept_ttl d)); [|done|lia].
  intros t' Ht'. eapply Set_fresh; [exact Hset| |exact Ht|exact Ht'].
  simpl. unfold redis_shown. simpl. by rewrite Hfresh.
Qed.

(** ** A server that answers *)

Context `{!RedisUp R}.

(** No command fails and the values are entries. *)
Definition store_up s t : Prop :=
  redis_up (rs_client s) ∧
  ∀ t' k raw, t <= t' → live (rs_client s) t' k = Some raw → is_Ok (json_Unmarshal (B := B) raw) = true.

#[export, program] Instance redis_IdemUp : IdemUp B (RedisStore R) := {| idem_up := store_up |}.
Next Obligation. intros s t t' Ht [Hup Hl]. split; [done|]. intros t'' k raw ?. apply Hl. lia. Qed.
Next Obligation.
  intros k t s [Hup Hl]. simpl. destruct (RedisStore_Get k t s) as [res s'] eqn:E.
  pose proof E as (_ & Hlive & _)%RedisStore_Get_spec. unfold RedisStore_Get, on_client in E.
  destruct (Redis_Get k t (rs_client s)) as [out r'] eqn:Hrun.
  pose proof (get_up _ _ _ _ _ Hup Hrun) as [Hup' Hout]. apply redis_get in Hrun as [_ Hrun].
  assert (is_Ok res = true ∧ rs_client s' = r') as [Hres Hs'].
  { destruct out as [raw|err|w]; [| |by destruct Hout].
    - pose proof (Hl t k raw (Z.le_refl _) Hrun) as Hj.
      destruct (json_Unmarshal raw); [by injection E as <- <-|done..].
    - destruct Hout as [?|[= ->]]; [done|]. rewrite errors_Is_refl in E. by injection E as <- <-. }
  split; [done|]. unfold store_up. simpl. split; [by rewrite Hs'|].
  intros t' k' raw Ht'. rewrite Hlive by done. by apply Hl.
Qed.
Next Obligation.
  intros k e t1 t2 s [Hup Hl]. simpl. destruct (RedisStore_Set k e t2 s) as [res s'] eqn:E.
  unfold RedisStore_Set in E. rewrite M_bind_eq in E. unfold wrapErr, lift in E.
  pose proof (json_Marshal_Ok e) as Hok. destruct (json_Marshal e) as [raw|?|?] eqn:Hraw; [|done..].
  unfold on_client in E.
  destruct (Redis_SetNX _ _ _ _ (rs_client s)) as [out r'] eqn:Hrun.
  pose proof (setnx_up _ _ _ _ _ _ _ Hup Hrun) as [Hup' Hout].
  apply redis_setnx in Hrun as (Hframe & Hkeep & Hrun).
  assert (is_Ok res = true ∧ rs_client s' = r') as [Hres Hs'].
  { destruct out as [v|err|w]; [by injection E as <- <-| |by destruct Hout].
    destruct Hout as [?|[= ->]]; [done|]. rewrite errors_Is_refl in E. by injection E as <- <-. }
  split; [done|]. unfold store_up. simpl. rewrite Hs'. split; [done|].
  intros t' k' v Ht'. destruct (decide (k' = k)) as [->|Hne]; [|rewrite Hframe by done; by apply Hl].
  assert (value_kept k raw (rs_ttl s) t2 r' → live r' t' k = Some v → is_Ok (json_Unmarshal (B := B) v) = true) as Hnew.
  { intros [Hv _]. destruct (Hv t' Ht') as [->| ->]; [|done].
    intros [= <-]. by rewrite (json_roundtrip _ _ Hraw). }
  destruct out as [o|err|w]; [by apply Hnew, Hrun| |by destruct Hout].
  destruct Hout as [?|[= ->]]; [done|]. rewrite errors_Is_refl in Hrun.
  destruct Hrun as [Hrun|Hrun]; [|by apply Hnew]. rewrite Hkeep by done. by apply Hl.
Qed.
End laws.

(** ** On the reference server *)

(** A codec for bodies that can be counted: the bits of the number of an entry. *)
Fixpoint bits (p : positive) : string :=
  match p with
  | xH => ""
  | xO p' => String "0" (bits p')
  | xI p' => String "1" (bits p')
  end.

Fixpoint of_bits (s : string) : positive :=
  match s with
  | "" => xH
  | String "0" s' => xO (of_bits s')
  | String _ s' => xI (of_bits s')
  end.

Lemma of_bits_bits p : of_bits (bits p) = p.
Proof. induction p as [p IH|p IH|]; simpl; by rewrite ?IH. Qed.

Definition count_unmarshal {B} `{Countable B} (raw : string) : result (IdemEntry B) :=
  match decode (of_bits raw) with
  | Some (status, b) => Ok {| IdemStatus := status; IdemBody := b |}
  | None => Err (ErrorsNew "json.SyntaxError" "invalid character")
  end.

#[export, program] Instance count_EntryJson {B} `{Countable B} : EntryJson B := {|
  json_Marshal e := Ok (bits (encode (IdemStatus e, IdemBody e)));
  json_Unmarshal := count_unmarshal |}.
Next Obligation. done. Qed.
Next Obligation.
  intros B ?? [st b] raw [= <-]. unfold count_unmarshal. rewrite of_bits_bits.
  pose proof (decode_encode (st, b)) as E. simpl in E |- *. by rewrite E.
Qed.
Next Obligation. intros B ?? raw. unfold count_unmarshal. by repeat case_match. Qed.

Definition demo_redis (faults : list redis_fault) : RefRedis :=
  {| rr_zsets := ∅; rr_strings := ∅; rr_faults := faults |}.

Definition demo_entry (s : string) : IdemEntry string := {| IdemStatus := 201; IdemBody := s |}.

(** Two replies to the first [Set] are lost before it is answered, all those to the next
    one, and the second [Get] fails. *)
Definition demo_idem_ops : list (idem_op string) :=
  [ISet "k" (demo_entry "second") 10 12; IGet "k" 20; IGet "k" 30; ISet "k" (demo_entry "third") 40 41;
   IGet "k" 50; IGet "other" 60].

Definition demo_set : result () * RedisStore RefRedis :=
  RedisStore_Set "k" (demo_entry "first") 5
    (NewRedisStore (demo_redis [Answered 2; GivenUp 1; Answered 0; GivenUp 0]) Minute).

Lemma RedisStore_keeps_first_witness :
  store_answers demo_idem_ops demo_set.2 =
    [("k", Ok (Some (demo_entry "first"))); ("k", Err (Errorf_w "redis get" broken_pipe));
     ("k", Ok (Some (demo_entry "first"))); ("other", Ok None)] ∧
  Forall (λ '(k', res), k' = "k" → answered_with (demo_entry "first") res)
    (store_answers demo_idem_ops demo_set.2).
Proof.
  split; [vm_compute; reflexivity|].
  apply (RedisStore_keeps_first (demo_redis [Answered 2; GivenUp 1; Answered 0; GivenUp 0]) Minute "k"
    (demo_entry "first") 4 5 demo_set.2 demo_idem_ops).
  - vm_compute. reflexivity.
  - lia.
  - vm_compute. reflexivity.
  - simpl. lia.
  - vm_compute. reflexivity.
Defined.
