(* ===== verification/Bench.v ===== *)
(** * The battle benchmark

    Models [cmd/battlebench/main.go]: [n] goroutines hit one player through an
    applier, the outcomes are counted and the durations of the successful calls
    summarised, and the hit points that are left are compared with the expected
    ones. Each call of the applier is one step (the naive applier's transaction
    holds the row lock), in the order a schedule gives. [Report] has the options and
    the output. *)

From S2P Require Import GoLang Float Battle Sql SqlBattle.
#[local] Open Scope Z_scope.

(** [l[i]]. *)
Definition slice_at {A} (l : list A) (i : Z) : result A :=
  if i <? 0 then Panic "index out of range"
  else
    match l !! Z.to_nat i with
    | Some a => Ok a
    | None => Panic "index out of range"
    end.

(** ** The calls *)

Record bench_result := { res_dur : Z; res_err : option error }.

Record summary := {
  sum_total : Z; sum_ok : Z; sum_fail : Z;
  sum_errs : gmap string Z;
  sum_p50 : Z; sum_p95 : Z; sum_p99 : Z; sum_min : Z; sum_max : Z; sum_avg : Z;
  throughputRPS : float64 }.

(** What the goroutines share: the array of results and two atomic counters. *)
Record bench_shared := { bs_results : list bench_result; bs_ok : Z; bs_fail : Z }.

Definition bench_start (n : nat) : bench_shared :=
  {| bs_results := replicate n {| res_dur := 0; res_err := None |}; bs_ok := 0; bs_fail := 0 |}.

Section calls.
Context {S : Type} (apply : option error → string → Z → M S Z).
Variables (target : string) (damage : Z).

(** Goroutine [i], whose call takes [dur i], with the error of the context at its
    call, if any. *)
Definition goroutine (dur : nat → Z) (i : nat) (ctx : option error) (b : bench_shared)
    : M S bench_shared := λ s,
  match apply ctx target damage s with
  | (Ok _, s') =>
      (Ok {| bs_results := <[i := {| res_dur := dur i; res_err := None |}]> (bs_results b);
             bs_ok := int32_wrap (bs_ok b + 1); bs_fail := bs_fail b |}, s')
  | (Err e, s') =>
      (Ok {| bs_results := <[i := {| res_dur := dur i; res_err := Some e |}]> (bs_results b);
             bs_ok := bs_ok b; bs_fail := int32_wrap (bs_fail b + 1) |}, s')
  | (Panic w, s') => (Panic w, s')
  end.

(** The goroutines in the order in which their calls take effect. *)
Fixpoint goroutines (dur : nat → Z) (sched : list (nat * option error)) (b : bench_shared)
    : M S bench_shared :=
  match sched with
  | [] => mret b
  | (i, ctx) :: sched' => b' ← goroutine dur i ctx b; goroutines dur sched' b'
  end.
End calls.

(** ** The summary *)

(** [s.errs[msg]++]. *)
Definition count_error (errs : gmap string Z) (msg : string) : gmap string Z :=
  <[msg := default 0 (errs !! msg) [+] 1]> errs.

(** The error texts are counted, the durations of the others collected. *)
Fixpoint collect (results : list bench_result) (errs : gmap string Z) (durs : list Z)
    : gmap string Z * list Z :=
  match results with
  | [] => (errs, durs)
  | r :: results' =>
      match res_err r with
      | Some e => collect results' (count_error errs (error_string e)) durs
      | None => collect results' errs (durs ++ [res_dur r])
      end
  end.

(** [durs[len(durs)*pct/100]]. *)
Definition at_percent (pct : Z) (durs : list Z) : result Z :=
  slice_at durs (Z.quot (int64_wrap (Z.of_nat (length durs) * pct)) 100).

Section summary.
Context `{!GoRuntime}.

Definition latencies (durs : list Z) : result (Z * Z * Z * Z * Z * Z) :=
  if bool_decide (durs = []) then Ok (0, 0, 0, 0, 0, 0)
  else
    let durs := sort_slice Z.ltb durs in
    match slice_at durs 0, slice_at durs (Z.of_nat (length durs) [-] 1),
          at_percent 50 durs, at_percent 95 durs, at_percent 99 durs with
    | Ok lo, Ok hi, Ok p50, Ok p95, Ok p99 =>
        let sum := foldl int_add 0 durs in
        Ok (p50, p95, p99, lo, hi, Z.quot sum (Z.of_nat (length durs)))
    | _, _, _, _, _ => Panic "index out of range"
    end.

Definition summarize (n : Z) (total : Z) (b : bench_shared) : result summary :=
  let '(errs, durs) := collect (bs_results b) ∅ [] in
  match latencies durs with
  | Ok (p50, p95, p99, lo, hi, avg) =>
      Ok {| sum_total := n; sum_ok := bs_ok b; sum_fail := bs_fail b; sum_errs := errs;
            sum_p50 := p50; sum_p95 := p95; sum_p99 := p99; sum_min := lo; sum_max := hi;
            sum_avg := avg;
            throughputRPS :=
              if 0 <? total then f_div (f_of_Z (bs_ok b)) (Duration_Seconds total) else f_zero |}
  | Err e => Err e
  | Panic w => Panic w
  end.

(** [total] is the time until the last goroutine has finished. A negative [n]
    panics in [make]. *)
Definition runBench {S} (apply : option error → string → Z → M S Z) (target : string) (n damage : Z)
    (dur : nat → Z) (sched : list (nat * option error)) (total : Z) : M S summary :=
  if n <? 0 then panic "makeslice: len out of range"
  else
    b ← goroutines apply target damage dur sched (bench_start (Z.to_nat n));
    lift (summarize n total b).

(** [run] on an open database with the naive implementation: the summary and, if
    the hit points can be read, the final and the expected ones. *)
Definition bench_run {D Tx} `{!MySQL D Tx} (target : string) (n damage hpInit : Z)
    (dur : nat → Z) (sched : list (nat * option error)) (total now : Z)
    : M D (summary * option (Z * Z)) :=
  wrapErr "reset target hp" (SqlBattleRepo_Reset target hpInit);;
  results ← runBench (V1Naive_Apply (R:=D)) target n damage dur sched total;
  (λ d, match SqlBattleRepo_Get target now d with
        | (Ok finalHP, d') =>
            let expected := hpInit [-] int64_wrap (damage * sum_ok results) in
            (Ok (results, Some (HP finalHP, expected)), d')
        | (Err _, d') => (Ok (results, None), d')
        | (Panic w, d') => (Panic w, d')
        end) : M D (summary * option (Z * Z)).
End summary.

(** ** Every goroutine is counted *)

(** The outcomes of calls one after the other, in a schedule's order. *)
Fixpoint calls {S} (apply : option error → string → Z → M S Z) (target : string) (damage : Z)
    (ctxs : list (option error)) (s : S) : list (result Z) * S :=
  match ctxs with
  | [] => ([], s)
  | ctx :: ctxs' =>
      let '(r, s1) := apply ctx target damage s in
      let '(rs, s2) := calls apply target damage ctxs' s1 in (r :: rs, s2)
  end.

Definition entry_of (dur : nat → Z) (i : nat) (r : result Z) : bench_result :=
  {| res_dur := dur i; res_err := match r with Err e => Some e | _ => None end |}.

(** The writes of a schedule into the array of results. *)
Definition write_all (dur : nat → Z) (ws : list (nat * result Z)) (l : list bench_result)
    : list bench_result :=
  foldl (λ l '(i, r), <[i := entry_of dur i r]> l) l ws.

Lemma length_write_all dur ws l : length (write_all dur ws l) = length l.
Proof.
  revert l. induction ws as [|[i r] ws IH]; intros l; [done|]. unfold write_all in *. simpl.
  by rewrite IH, length_insert.
Qed.

Lemma write_all_other dur ws l i : i ∉ ws.*1 → write_all dur ws l !! i = l !! i.
Proof.
  revert l. induction ws as [|[j r] ws IH]; intros l Hi; [done|]. unfold write_all in *. simpl in *.
  rewrite not_elem_of_cons in Hi. rewrite IH by tauto. apply list_lookup_insert_ne. naive_solver.
Qed.

Lemma write_all_lookup dur ws l i r :
  NoDup ws.*1 → (i, r) ∈ ws → (i < length l)%nat → write_all dur ws l !! i = Some (entry_of dur i r).
Proof.
  revert l. induction ws as [|[j r'] ws IH]; intros l Hn Hin Hi; [by apply not_elem_of_nil in Hin|].
  simpl in Hn. apply NoDup_cons in Hn as [Hj Hn].
  apply elem_of_cons in Hin as [[= <- <-]|Hin]; unfold write_all; simpl; fold (write_all dur ws).
  - pose proof (write_all_other dur ws (<[i := entry_of dur i r]> l) i Hj) as E. unfold write_all in E.
    rewrite E. by apply list_lookup_insert_eq.
  - pose proof (IH (<[j := entry_of dur j r']> l) Hn Hin) as E. unfold write_all in E.
    apply E. by rewrite length_insert.
Qed.

(** Every slot is written once: the array is the outcomes in another order. *)
Lemma write_all_perm dur ws l :
  ws.*1 ≡ₚ seq 0 (length l) →
  write_all dur ws l ≡ₚ (λ '(i, r), entry_of dur i r) <$> ws.
Proof.
  intros Hp. assert (NoDup ws.*1) as Hn by (rewrite Hp; apply NoDup_seq).
  set (d := {| res_dur := 0; res_err := None |}). set (w := write_all dur ws l).
  assert ((λ '(i, r), entry_of dur i r) <$> ws = (λ i, default d (w !! i)) <$> ws.*1) as ->.
  { rewrite <- list_fmap_compose. apply list_fmap_ext. intros j [i r] Hj. simpl.
    unfold w. rewrite (write_all_lookup dur ws l i r); [done|done|by eapply list_elem_of_lookup_2|].
    assert (i ∈ seq 0 (length l)) as Hi.
    { rewrite <- Hp. apply list_elem_of_fmap. exists (i, r). split; [done|]. by eapply list_elem_of_lookup_2. }
    apply elem_of_seq in Hi. lia. }
  rewrite Hp. apply reflexive_eq, list_eq. intros i. rewrite list_lookup_fmap.
  destruct (decide (i < length l)%nat) as [Hi|Hi].
  - rewrite lookup_seq_lt by done. simpl.
    destruct (lookup_lt_is_Some_2 w i) as [b Hb]; [unfold w; by rewrite length_write_all|].
    by rewrite Hb.
  - rewrite lookup_seq_ge by lia. simpl. apply lookup_ge_None_2. unfold w. rewrite length_write_all. lia.
Qed.

Section counting.
Context {S : Type} (apply : option error → string → Z → M S Z) (target : string) (damage : Z).
Hypothesis no_panics : ∀ ctx s, no_panic (apply ctx target damage s).1.

Lemma length_calls ctxs s : length (calls apply target damage ctxs s).1 = length ctxs.
Proof.
  revert s. induction ctxs as [|ctx ctxs IH]; intros s; [done|]. simpl.
  destruct (apply ctx target damage s) as [r s1]. specialize (IH s1).
  destruct (calls apply target damage ctxs s1). simpl in *. congruence.
Qed.

Lemma calls_no_panic ctxs s : Forall no_panic (calls apply target damage ctxs s).1.
Proof.
  revert s. induction ctxs as [|ctx ctxs IH]; intros s; [constructor|]. simpl.
  pose proof (no_panics ctx s). destruct (apply ctx target damage s) as [r s1]. specialize (IH s1).
  destruct (calls apply target damage ctxs s1). by constructor.
Qed.

Lemma goroutines_run dur sched b s :
  0 <= bs_ok b → 0 <= bs_fail b →
  bs_ok b + bs_fail b + Z.of_nat (length sched) < int32_half →
  let '(rs, s') := calls apply target damage sched.*2 s in
  ∃ b', goroutines apply target damage dur sched b s = (Ok b', s') ∧
    bs_results b' = write_all dur (zip sched.*1 rs) (bs_results b) ∧
    bs_ok b' = bs_ok b + Z.of_nat (count (λ r, is_Ok r = true) rs) ∧
    bs_ok b' + bs_fail b' = bs_ok b + bs_fail b + Z.of_nat (length sched).
Proof.
  revert b s. induction sched as [|[i ctx] sched IH]; intros b s Hok Hfail Hsum.
  { exists b. simpl in *. split_and!; [done|done|unfold count; simpl; lia|lia]. }
  rewrite !fmap_cons. cbn [fst snd calls goroutines length] in *. rewrite M_bind_eq. unfold goroutine at 1. pose proof (no_panics ctx s) as Hp.
  destruct (apply ctx target damage s) as [[hp|e|w] s1] eqn:E; [| |done].
  - set (b1 := {| bs_results := <[i := _]> _; bs_ok := _; bs_fail := _ |}).
    assert (bs_ok b1 = bs_ok b + 1) as E1
      by (unfold b1; cbn [bs_ok]; unfold int32_half in Hsum; apply int32_wrap_small; unfold int32_half; lia).
    assert (bs_fail b1 = bs_fail b) as E2 by done.
    specialize (IH b1 s1). destruct (calls apply target damage sched.*2 s1) as [rs s'].
    destruct IH as (b' & -> & Hr & Ho & Hall); [lia..|]. exists b'.
    split; [done|]. cbn [length]. split; [by rewrite Hr|]. rewrite count_cons, decide_True by done. lia.
  - set (b1 := {| bs_results := <[i := _]> _; bs_ok := _; bs_fail := _ |}).
    assert (bs_fail b1 = bs_fail b + 1) as E1
      by (unfold b1; cbn [bs_fail]; unfold int32_half in Hsum; apply int32_wrap_small; unfold int32_half; lia).
    assert (bs_ok b1 = bs_ok b) as E2 by done.
    specialize (IH b1 s1). destruct (calls apply target damage sched.*2 s1) as [rs s'].
    destruct IH as (b' & -> & Hr & Ho & Hall); [lia..|]. exists b'.
    split; [done|]. cbn [length]. split; [by rewrite Hr|]. rewrite count_cons, decide_False by done. lia.
Qed.
End counting.

(** ** What the summary says *)

(** [d] is a percentile: more than [pct] percent of the durations are no longer
    than it, at most [pct] percent shorter. *)
Definition is_percentile (pct d : Z) (durs : list Z) : Prop :=
  d ∈ durs ∧ pct * Z.of_nat (length durs) < 100 * Z.of_nat (count (λ x, x <= d) durs) ∧
  100 * Z.of_nat (count (λ x, x < d) durs) <= pct * Z.of_nat (length durs).

Definition failed_with (msg : string) (r : result Z) : Prop :=
  match r with Err e => error_string e = msg | _ => False end.

#[export] Instance failed_with_dec msg r : Decision (failed_with msg r).
Proof. destruct r; simpl; apply _. Defined.

(** The durations of the calls that succeeded, in the order of a schedule. *)
Definition ok_durations (dur : nat → Z) (ws : list (nat * result Z)) : list Z :=
  omap (λ '(i, r), if is_Ok r then Some (dur i) else None) ws.

Definition err_msgs (l : list bench_result) : list string := omap (λ r, error_string <$> res_err r) l.
Definition good_durs (l : list bench_result) : list Z :=
  omap (λ r, match res_err r with None => Some (res_dur r) | Some _ => None end) l.

Lemma collect_eq l errs durs :
  collect l errs durs = (foldl count_error errs (err_msgs l), durs ++ good_durs l).
Proof.
  revert errs durs. induction l as [|r l IH]; intros errs durs; simpl; [by rewrite app_nil_r|].
  destruct (res_err r); rewrite IH; simpl; [done|]. by rewrite <- app_assoc.
Qed.

Lemma count_errors msgs errs m :
  0 <= default 0 (errs !! m) → default 0 (errs !! m) + Z.of_nat (length msgs) < int64_half →
  default 0 (foldl count_error errs msgs !! m) =
  default 0 (errs !! m) + Z.of_nat (count (λ x, x = m) msgs).
Proof.
  revert errs. induction msgs as [|x msgs IH]; intros errs H0 Hlen; [unfold count; simpl; lia|].
  cbn [foldl length] in *.
  assert (default 0 (count_error errs x !! m) = default 0 (errs !! m) + (if decide (x = m) then 1 else 0)) as E.
  { unfold count_error. case_decide as Hx.
    - subst x. rewrite lookup_insert_eq. simpl. apply int_add_small. int_range.
    - rewrite lookup_insert_ne by done. lia. }
  rewrite IH by (rewrite E; case_decide; lia). rewrite E, count_cons. case_decide; lia.
Qed.

Lemma err_msgs_count dur ws m :
  count (λ x, x = m) (err_msgs ((λ '(i, r), entry_of dur i r) <$> ws)) = count (failed_with m) ws.*2.
Proof.
  induction ws as [|[i r] ws IH]; [done|]. rewrite !fmap_cons. cbn [snd]. rewrite count_cons.
  unfold err_msgs in *. cbn [omap list_omap]. unfold entry_of at 1. cbn [res_err].
  destruct r as [z|e|w]; cbn [fmap option_fmap option_map]; [done| |done].
  by rewrite count_cons, IH.
Qed.

Lemma good_durs_entries dur ws :
  Forall no_panic ws.*2 →
  good_durs ((λ '(i, r), entry_of dur i r) <$> ws) = ok_durations dur ws.
Proof.
  induction ws as [|[i r] ws IH]; [done|]. rewrite !fmap_cons, Forall_cons. intros [Hr Hws].
  unfold good_durs, ok_durations in *. cbn [omap list_omap]. rewrite <- (IH Hws).
  by destruct r as [z|e|w].
Qed.

Lemma err_msgs_perm l l' : l ≡ₚ l' → err_msgs l ≡ₚ err_msgs l'.
Proof. unfold err_msgs. by intros ->. Qed.
Lemma good_durs_perm l l' : l ≡ₚ l' → good_durs l ≡ₚ good_durs l'.
Proof. unfold good_durs. by intros ->. Qed.

Section percentiles.
Implicit Types (l : list Z).

Lemma sorted_le l (i j : nat) (x y : Z) :
  StronglySorted Z.le l → (i <= j)%nat → l !! i = Some x → l !! j = Some y → x <= y.
Proof.
  intros Hs. revert i j. induction Hs as [|z l Hs IH Hz]; intros i j Hij Hi Hj; [done|].
  destruct i as [|i], j as [|j]; simplify_eq/=; [lia| |lia|].
  - rewrite Forall_forall in Hz. apply Hz. by eapply list_elem_of_lookup_2.
  - apply (IH i j); [lia|done..].
Qed.

Lemma count_le_length P `{∀ x, Decision (P x)} l : (count P l <= length l)%nat.
Proof. apply length_filter. Qed.

(** What is at index [i] of a sorted list. *)
Lemma sorted_counts l (i : nat) (d : Z) :
  StronglySorted Z.le l → l !! i = Some d →
  (i < count (λ x, x <= d)%Z l)%nat ∧ (count (λ x, x < d)%Z l <= i)%nat.
Proof.
  intros Hs Hi. pose proof (lookup_lt_Some _ _ _ Hi). rewrite <- (take_drop i l), !count_app.
  assert (count (λ x, x <= d) (take i l) = i) as ->.
  { rewrite count_all; [rewrite length_take; lia|]. apply Forall_forall.
    intros x (j & Hj)%list_elem_of_lookup. apply lookup_take_Some in Hj as [Hj ?].
    eapply (sorted_le l j i); [done|lia|done|done]. }
  assert (count (λ x, x < d) (drop i l) = 0%nat) as ->.
  { apply count_none, Forall_forall. intros x (j & Hj)%list_elem_of_lookup.
    rewrite lookup_drop in Hj. apply Z.le_ngt. eapply (sorted_le l i (i + j)); [done|lia|done|done]. }
  rewrite (drop_S _ _ _ Hi), count_cons, decide_True by lia.
  pose proof (count_le_length (λ x, x < d) (take i l)). rewrite length_take in *. lia.
Qed.

Lemma at_percent_spec pct l :
  StronglySorted Z.le l → l ≠ [] → 0 <= pct < 100 → Z.of_nat (length l) < int32_half →
  ∃ d i, at_percent pct l = Ok d ∧ l !! i = Some d ∧
    Z.of_nat i = Z.of_nat (length l) * pct / 100 ∧ is_percentile pct d l.
Proof.
  intros Hs Hne Hpct Hlen. set (n := Z.of_nat (length l)).
  assert (0 < n) by (unfold n; destruct l; simpl; [done|lia]).
  assert (0 <= n * pct / 100 < n) as [Hi0 Hin].
  { split; [apply Z.div_pos; nia|]. apply Z.div_lt_upper_bound; nia. }
  pose proof (Z.div_mod (n * pct) 100 ltac:(lia)). pose proof (Z.mod_pos_bound (n * pct) 100 ltac:(lia)).
  unfold at_percent. fold n. rewrite int64_wrap_small by (unfold int32_half in *; int_range; nia).
  rewrite Z.quot_div_nonneg by nia. unfold slice_at. rewrite (proj2 (Z.ltb_ge _ _)) by lia.
  destruct (lookup_lt_is_Some_2 l (Z.to_nat (n * pct / 100))) as [d Hd]; [unfold n in *; lia|].
  rewrite Hd. exists d, (Z.to_nat (n * pct / 100)). split; [done|]. split; [done|]. split; [lia|].
  destruct (sorted_counts _ _ _ Hs Hd) as [Hle Hlt]. split; [by eapply list_elem_of_lookup_2|].
  fold n. split; nia.
Qed.

Lemma is_percentile_perm pct d l l' : l ≡ₚ l' → is_percentile pct d l → is_percentile pct d l'.
Proof.
  intros Hp. unfold is_percentile. by rewrite !Hp.
Qed.

(** The sum of durations, without wrapping. *)
Definition sum_of l : Z := foldr Z.add 0 l.

Lemma sum_of_perm l l' : l ≡ₚ l' → sum_of l = sum_of l'.
Proof. induction 1; unfold sum_of in *; simpl; lia. Qed.

Lemma sum_of_nonneg l : Forall (Z.le 0) l → 0 <= sum_of l.
Proof. induction 1; unfold sum_of in *; simpl; lia. Qed.

Lemma foldl_sum l acc :
  0 <= acc → Forall (Z.le 0) l → acc + sum_of l < int64_half → foldl int_add acc l = acc + sum_of l.
Proof.
  intros Hacc Hl. revert acc Hacc. induction Hl as [|x l Hx Hl IH]; intros acc Hacc Hsum.
  { unfold sum_of. simpl. lia. }
  unfold sum_of in *. simpl in *. pose proof (sum_of_nonneg l Hl). unfold sum_of in *.
  rewrite int_add_small by int_range. rewrite IH by lia. lia.
Qed.

Lemma sum_of_bounds l lo hi :
  Forall (λ x, lo <= x <= hi) l →
  lo * Z.of_nat (length l) <= sum_of l <= hi * Z.of_nat (length l).
Proof. induction 1; unfold sum_of in *; cbn [foldr length] in *; lia. Qed.
End percentiles.

Lemma ok_durations_facts (dur : nat → Z) ws :
  (∀ i, 0 <= dur i) →
  length (ok_durations dur ws) = count (λ r, is_Ok r = true) ws.*2 ∧
  Forall (Z.le 0) (ok_durations dur ws) ∧ sum_of (ok_durations dur ws) <= sum_of (dur <$> ws.*1) ∧
  (length (err_msgs ((λ '(i, r), entry_of dur i r) <$> ws)) <= length ws)%nat.
Proof.
  intros Hdur. induction ws as [|[i r] ws (IH1 & IH2 & IH3 & IH4)].
  { split_and!; [done|constructor|done|done]. }
  pose proof (Hdur i). rewrite !fmap_cons. unfold ok_durations, sum_of, err_msgs in *.
  cbn [omap list_omap snd fst foldr length]. rewrite count_cons.
  destruct r as [z|e|w]; cbn [is_Ok entry_of res_err fmap option_fmap option_map foldr length];
    rewrite ?decide_True, ?decide_False by done; (split_and!; [simpl; lia|auto|lia|lia]).
Qed.

Lemma ltb_strict_weak : strict_weak Z.ltb.
Proof. split; intros *; rewrite ?Z.ltb_lt, ?Z.ltb_ge; lia. Qed.

Section report.
Context `{!GoRuntime}.

(** Of at least one duration: the order of the figures, and what each is. *)
Lemma latencies_spec durs :
  durs ≠ [] → Z.of_nat (length durs) < int32_half → Forall (Z.le 0) durs → sum_of durs < int64_half →
  ∃ p50 p95 p99 lo hi avg, latencies durs = Ok (p50, p95, p99, lo, hi, avg) ∧
    is_percentile 50 p50 durs ∧ is_percentile 95 p95 durs ∧ is_percentile 99 p99 durs ∧
    lo ∈ durs ∧ hi ∈ durs ∧ Forall (λ d, lo <= d <= hi) durs ∧
    lo <= p50 <= p95 ∧ p95 <= p99 <= hi ∧ lo <= avg <= hi.
Proof.
  intros Hne Hlen Hpos Hsum. unfold latencies. rewrite bool_decide_eq_false_2 by done.
  set (l := sort_slice Z.ltb durs).
  assert (l ≡ₚ durs) as Hp by apply sort_slice_perm.
  assert (StronglySorted Z.le l) as Hs.
  { eapply StronglySorted_impl; [|apply sort_slice_sorted, ltb_strict_weak].
    intros x y. simpl. by rewrite Z.ltb_ge. }
  assert (l ≠ []) as Hnl by (intros E; rewrite E in Hp; by apply Permutation_nil_l in Hp).
  rewrite <- (Permutation_length Hp) in Hlen. rewrite <- (sum_of_perm _ _ Hp) in Hsum.
  rewrite <- Hp in Hpos.
  assert (0 < Z.of_nat (length l)) as Hl by (destruct l; simpl; [done|lia]).
  destruct (at_percent_spec 50 l Hs Hnl) as (p50 & i50 & -> & H50 & Hi50 & P50); [lia..|].
  destruct (at_percent_spec 95 l Hs Hnl) as (p95 & i95 & -> & H95 & Hi95 & P95); [lia..|].
  destruct (at_percent_spec 99 l Hs Hnl) as (p99 & i99 & -> & H99 & Hi99 & P99); [lia..|].
  destruct (lookup_lt_is_Some_2 l 0) as [lo Hlo]; [lia|].
  destruct (lookup_lt_is_Some_2 l (length l - 1)) as [hi Hhi]; [lia|].
  assert (slice_at l 0 = Ok lo) as ->.
  { unfold slice_at. change (0 <? 0) with false. change (Z.to_nat 0) with 0%nat. by rewrite Hlo. }
  assert (slice_at l (Z.of_nat (length l) [-] 1) = Ok hi) as ->.
  { rewrite int_sub_small by (unfold int32_half in *; int_range). unfold slice_at.
    rewrite (proj2 (Z.ltb_ge _ _)) by lia.
    assert (Z.to_nat (Z.of_nat (length l) - 1) = length l - 1)%nat as -> by lia. by rewrite Hhi. }
  assert (Forall (λ d, lo <= d <= hi) l) as Hall.
  { apply Forall_forall. intros d (i & Hi)%list_elem_of_lookup. pose proof (lookup_lt_Some _ _ _ Hi).
    split; [apply (sorted_le l 0 i)|apply (sorted_le l i (length l - 1))]; (done || lia). }
  rewrite foldl_sum by (done || lia). rewrite Z.add_0_l.
  pose proof (sum_of_bounds l lo hi Hall) as [Hb1 Hb2]. pose proof (sum_of_nonneg l Hpos).
  assert (i50 <= i95 ∧ i95 <= i99 ∧ i99 < length l)%nat as (? & ? & ?).
  { pose proof (lookup_lt_Some _ _ _ H99). split_and!; [| |done];
      apply Nat2Z.inj_le; rewrite Hi50, Hi95 || rewrite Hi95, Hi99; apply Z.div_le_mono; lia. }
  do 6 eexists. split; [done|]. rewrite Z.quot_div_nonneg by lia.
  split_and!; try (by eapply is_percentile_perm).
  - rewrite <- Hp. by eapply list_elem_of_lookup_2.
  - rewrite <- Hp. by eapply list_elem_of_lookup_2.
  - by rewrite <- Hp.
  - by eapply (sorted_le l 0 i50); [|lia|..].
  - by eapply (sorted_le l i50 i95).
  - by eapply (sorted_le l i95 i99).
  - by eapply (sorted_le l i99 (length l - 1)); [|lia|..].
  - apply Z.div_le_lower_bound; lia.
  - apply Z.div_le_upper_bound; lia.
Qed.

(** After the last goroutine: the shared state against the outcomes. *)
Lemma runBench_shared {S} (apply : option error → string → Z → M S Z) target n damage dur sched s :
  (∀ ctx s, no_panic (apply ctx target damage s).1) →
  0 <= n < 2 ^ 31 → sched.*1 ≡ₚ seq 0 (Z.to_nat n) →
  (∀ i, 0 <= dur i) → sum_of (dur <$> seq 0 (Z.to_nat n)) < 2 ^ 63 →
  let '(rs, s') := calls apply target damage sched.*2 s in
  let ws := zip sched.*1 rs in
  ∃ b, goroutines apply target damage dur sched (bench_start (Z.to_nat n)) s = (Ok b, s') ∧
    bs_results b ≡ₚ (λ '(i, r), entry_of dur i r) <$> ws ∧ ws.*2 = rs ∧
    Z.of_nat (length rs) = n ∧
    bs_ok b = Z.of_nat (count (λ r, is_Ok r = true) rs) ∧ bs_ok b + bs_fail b = n ∧
    good_durs (bs_results b) ≡ₚ ok_durations dur ws ∧
    Forall (Z.le 0) (ok_durations dur ws) ∧ sum_of (ok_durations dur ws) < 2 ^ 63.
Proof.
  intros Hpanic Hn Hsched Hdur Hsum.
  pose proof (goroutines_run apply target damage Hpanic dur sched (bench_start (Z.to_nat n)) s) as Hrun.
  pose proof (length_calls apply target damage sched.*2 s) as Hlen.
  pose proof (calls_no_panic apply target damage Hpanic sched.*2 s) as Hnp.
  assert (length sched = Z.to_nat n) as Hsn.
  { apply Permutation_length in Hsched. by rewrite length_fmap, length_seq in Hsched. }
  destruct (calls apply target damage sched.*2 s) as [rs s']. rewrite length_fmap in Hlen. cbn [fst] in *.
  destruct Hrun as (b & Hrun & Hres & Hok & Hall); cbn [bench_start bs_ok bs_fail] in *;
    [done|done|unfold int32_half; lia|].
  cbn zeta. set (ws := zip sched.*1 rs) in *.
  assert (ws.*1 = sched.*1) as Hw1 by (apply fst_zip; rewrite length_fmap; lia).
  assert (ws.*2 = rs) as Hw2 by (apply snd_zip; rewrite length_fmap; lia).
  assert (bs_results b ≡ₚ (λ '(i, r), entry_of dur i r) <$> ws) as Hperm.
  { rewrite Hres. apply write_all_perm. rewrite Hw1. unfold bench_start. cbn [bs_results].
    by rewrite length_replicate. }
  destruct (ok_durations_facts dur ws Hdur) as (_ & Hdp & Hds & _).
  assert (sum_of (dur <$> ws.*1) = sum_of (dur <$> seq 0 (Z.to_nat n))) as Hse.
  { apply sum_of_perm. by rewrite Hw1, Hsched. }
  exists b. split_and!; [done|done|done|lia|lia|lia| |done|lia].
  rewrite (good_durs_perm _ _ Hperm), good_durs_entries; [done|by rewrite Hw2].
Qed.

(** Without durations there is nothing to report, but no crash either. *)
Lemma latencies_total durs :
  Z.of_nat (length durs) < 2 ^ 31 → Forall (Z.le 0) durs → sum_of durs < 2 ^ 63 →
  ∃ lat, latencies durs = Ok lat.
Proof.
  intros Hlen Hpos Hsum. destruct (decide (durs = [])) as [->|Hne].
  - by eexists.
  - destruct (latencies_spec durs Hne Hlen Hpos Hsum) as (? & ? & ? & ? & ? & ? & -> & _). by eexists.
Qed.

Lemma summarize_Ok n total b :
  Z.of_nat (length (good_durs (bs_results b))) < 2 ^ 31 → Forall (Z.le 0) (good_durs (bs_results b)) →
  sum_of (good_durs (bs_results b)) < 2 ^ 63 →
  ∃ sm p50 p95 p99 lo hi avg, summarize n total b = Ok sm ∧
    latencies (good_durs (bs_results b)) = Ok (p50, p95, p99, lo, hi, avg) ∧
    sum_total sm = n ∧ sum_ok sm = bs_ok b ∧ sum_fail sm = bs_fail b ∧
    sum_errs sm = foldl count_error ∅ (err_msgs (bs_results b)) ∧
    sum_p50 sm = p50 ∧ sum_p95 sm = p95 ∧ sum_p99 sm = p99 ∧ sum_min sm = lo ∧ sum_max sm = hi ∧
    sum_avg sm = avg.
Proof.
  intros H1 H2 H3. destruct (latencies_total _ H1 H2 H3) as [[[[[[p50 p95] p99] lo] hi] avg] Hl].
  unfold summarize. rewrite collect_eq, app_nil_l, Hl. do 7 eexists. by split_and!.
Qed.

(** C33. The report of the benchmark. When every one of the [n] goroutines runs once,
    in any order, each call succeeding or failing, the benchmark does not crash
    (no index is out of range, no counter wraps), every goroutine is counted as
    a success or as a failure under its text, and of the successful calls the
    percentiles are percentiles, the extremes extremes, and
    [min <= p50 <= p95 <= p99 <= max] and [min <= avg <= max]. *)
Theorem runBench_spec {S} (apply : option error → string → Z → M S Z) (target : string)
    (n damage : Z) (dur : nat → Z) (sched : list (nat * option error)) (total : Z) (s : S)
    (Hpanic : ∀ ctx s, no_panic (apply ctx target damage s).1)
    (Hn : 0 <= n < 2 ^ 31) (Hsched : sched.*1 ≡ₚ seq 0 (Z.to_nat n))
    (Hdur : ∀ i, 0 <= dur i) (Hsum : sum_of (dur <$> seq 0 (Z.to_nat n)) < 2 ^ 63) :
  let '(rs, s') := calls apply target damage sched.*2 s in
  let durs := ok_durations dur (zip sched.*1 rs) in
  ∃ sm, runBench apply target n damage dur sched total s = (Ok sm, s') ∧
    sum_total sm = n ∧ sum_ok sm + sum_fail sm = n ∧
    sum_ok sm = Z.of_nat (count (λ r, is_Ok r = true) rs) ∧
    (∀ msg, default 0 (sum_errs sm !! msg) = Z.of_nat (count (failed_with msg) rs)) ∧
    (0 < sum_ok sm →
     is_percentile 50 (sum_p50 sm) durs ∧ is_percentile 95 (sum_p95 sm) durs ∧
     is_percentile 99 (sum_p99 sm) durs ∧ sum_min sm ∈ durs ∧ sum_max sm ∈ durs ∧
     Forall (λ d, sum_min sm <= d <= sum_max sm) durs ∧
     sum_min sm <= sum_p50 sm <= sum_p95 sm ∧ sum_p95 sm <= sum_p99 sm <= sum_max sm ∧
     sum_min sm <= sum_avg sm <= sum_max sm).
Proof.
  pose proof (runBench_shared apply target n damage dur sched s Hpanic Hn Hsched Hdur Hsum) as Hrun.
  destruct (calls apply target damage sched.*2 s) as [rs s'].
  destruct Hrun as (b & Hrun & Hperm & Hw2 & Hlen & Hok & Hall & Hd & Hpos & Hsum').
  set (durs := ok_durations dur (zip sched.*1 rs)) in *. cbn zeta.
  destruct (ok_durations_facts dur (zip sched.*1 rs) Hdur) as (Hdl & _ & _ & Hml).
  rewrite Hw2 in Hdl. fold durs in Hdl.
  assert (length (zip sched.*1 rs) = length rs) as Hwl by (rewrite <- Hw2 at 2; by rewrite length_fmap).
  pose proof (length_filter (λ r, is_Ok r = true) rs) as Hcl. fold (count (λ r, is_Ok r = true) rs) in Hcl.
  destruct (summarize_Ok n total b) as
    (sm & p50 & p95 & p99 & lo & hi & avg & Hs & Hlat & Ht & Ho & Hf & He & <- & <- & <- & <- & <- & <-);
    [rewrite Hd; lia|by rewrite Hd|by rewrite (sum_of_perm _ _ Hd)|].
  exists sm. unfold runBench. rewrite (proj2 (Z.ltb_ge _ _)) by lia. rewrite M_bind_eq, Hrun.
  unfold lift. rewrite Hs. split; [done|]. split_and!; [done|lia|lia| |].
  - intros msg. pose proof (err_msgs_perm _ _ Hperm) as Hm. pose proof (Permutation_length Hm) as Hml'.
    rewrite He, count_errors; rewrite lookup_empty; cbn [default]; [|lia|unfold int64_half; lia].
    by rewrite Hm, err_msgs_count, Hw2.
  - intros Hpos'. destruct (latencies_spec (good_durs (bs_results b))) as
      (? & ? & ? & ? & ? & ? & E & H50 & H95 & H99 & Hlo & Hhi & Hin & Hord).
    + intros E. rewrite E in Hd. apply Permutation_nil_l in Hd. rewrite <- Hd in Hdl. simpl in Hdl. lia.
    + rewrite Hd. unfold int32_half. lia.
    + by rewrite Hd.
    + by rewrite (sum_of_perm _ _ Hd).
    + rewrite Hlat in E. injection E as <- <- <- <- <- <-. rewrite Hd in Hlo, Hhi, Hin.
      split_and!; try tauto; by eapply is_percentile_perm.
Qed.
End report.

(** ** The hit points that are left *)

Section mysql.
Context `{!GoRuntime} {D Tx : Type} `{!MySQL D Tx, !MySQLLaws D Tx}.
Implicit Types (d : D).

Lemma V1Naive_sql_no_panic p δ ctx d : no_panic (V1Naive_Apply ctx p δ d).1.
Proof.
  unfold V1Naive_Apply. destruct (damage_refused δ); [done|]. unfold wrapErr. simpl.
  unfold SqlBattleRepo_ApplyDamageNaive. destruct ctx as [e|]; [done|].
  destruct (InTx _ d) as [r d'] eqn:E.
  apply InTx_inv in E as [[_ [e ->]]|(tx & hp & tx' & _ & _ & _ & [->|[e ->]])]; [done..|].
  apply tx_call_bind; [apply tx_call_lock|]. intros hp. eauto with go.
Qed.

Lemma SqlBattle_Get_hp p now d php d' :
  SqlBattleRepo_Get p now d = (Ok php, d') → HP php = hp_in (tables d) p.
Proof.
  unfold SqlBattleRepo_Get.
  destruct (QueryRowContext _ d) as [[row|err|w] d2] eqn:E; apply QueryRow_inv in E as [_ Hr]; [| |done].
  - intros [= <- <-]. destruct Hr as [rows Hr]. simpl in *. apply find_row_hd in Hr.
    unfold hp_in. by rewrite Hr.
  - by destruct (errors_Is err sql_ErrNoRows).
Qed.

(** Hits on one player: every answered one counts, another may. *)
Lemma calls_hp target δ ctxs d :
  hp_fit (tables d) → 1 <= δ <= MaxDamagePerRequest →
  ∃ k, hp_in (tables (calls (V1Naive_Apply (R:=D)) target δ ctxs d).2) target =
      Z.max 0 (hp_in (tables d) target - δ * Z.of_nat k) ∧
    (count (λ r, is_Ok r = true) (calls (V1Naive_Apply (R:=D)) target δ ctxs d).1 <= k <= length ctxs)%nat.
Proof.
  intros Hfit Hδ. revert d Hfit. induction ctxs as [|ctx ctxs IH]; intros d Hfit.
  { exists 0%nat. pose proof (Hfit target). unfold count. simpl. split; lia. }
  cbn [calls]. destruct (V1Naive_Apply ctx target δ d) as [r d1] eqn:E.
  destruct (V1Naive_sql _ _ _ _ _ _ Hfit E) as (app & Happ & Hv & Hq).
  assert (hp_fit (tables d1)) as Hfit1.
  { intros q. rewrite Hq. pose proof (Hfit q). pose proof (collated_damage_nonneg q app Hv). lia. }
  destruct (IH d1 Hfit1) as (k & Hk & Hc).
  destruct (calls _ target δ ctxs d1) as [rs d2]. cbn [fst snd length] in *. rewrite count_cons.
  specialize (Hq target). pose proof (Hfit target). destruct Happ as [[-> Hno]| ->].
  - exists k. rewrite decide_False by congruence. unfold collated_damage in Hq. simpl in Hq.
    split; [lia|lia].
  - exists (Datatypes.S k). unfold collated_damage in Hq. simpl in Hq. rewrite decide_True in Hq by done.
    split; [lia|]. case_decide; lia.
Qed.

(** The consistency check of the benchmark. On MySQL, with statements that are
    refused and replies that are lost in any way, and as long as the damage
    cannot exhaust the initial hit points: the benchmark reports the expected
    hit points without wrapping, those found are at most the expected ones (a
    call that failed may have hit) and at least what all [n] hits leave, and
    without failures the two are equal. *)
Theorem bench_run_delta (target : string) (n damage hpInit : Z) (dur : nat → Z)
    (sched : list (nat * option error)) (total now : Z) (d : D)
    (Hfit : hp_fit (tables d)) (Hn : 0 <= n < 2 ^ 31)
    (Hsched : sched.*1 ≡ₚ seq 0 (Z.to_nat n)) (Hdur : ∀ i, 0 <= dur i)
    (Hsum : sum_of (dur <$> seq 0 (Z.to_nat n)) < 2 ^ 63)
    (Hdamage : 1 <= damage <= MaxDamagePerRequest) (Hhp : damage * n <= hpInit) :
  match (bench_run target n damage hpInit dur sched total now d).1 with
  | Ok (sm, Some (final, expected)) =>
      expected = hpInit - damage * sum_ok sm ∧
      hpInit - damage * n <= final <= expected ∧ (sum_fail sm = 0 → final = expected)
  | Ok (_, None) | Err _ => True
  | Panic _ => False
  end.
Proof.
  unfold bench_run. rewrite M_bind_eq. unfold wrapErr at 1.
  destruct (SqlBattleRepo_Reset target hpInit d) as [[[]|e|w] d1] eqn:Hr; [|done|].
  2:{ unfold SqlBattleRepo_Reset in Hr. unfold wrapErr in Hr.
      destruct (ExecContext _ d) as [[u|e|w'] d2] eqn:E; [done..|]. by apply db_exec in E. }
  destruct (SqlBattle_Reset_Get target target hpInit now d d1 Hr) as (Hrange & Hhps & _).
  assert (hp_fit (tables d1)) as Hfit1.
  { intros q. rewrite Hhps. case_decide; [nia|apply Hfit]. }
  pose proof (runBench_shared _ target n damage dur sched d1 (V1Naive_sql_no_panic target damage)
    Hn Hsched Hdur Hsum) as Hrun.
  destruct (calls_hp target damage sched.*2 d1 Hfit1 Hdamage) as (k & Hk & Hkn).
  pose proof (length_calls (V1Naive_Apply (R:=D)) target damage sched.*2 d1) as Hlen.
  destruct (calls _ target damage sched.*2 d1) as [rs d2]. cbn [fst snd] in *.
  destruct Hrun as (b & Hrun & _ & Hw2 & Hn' & Hok & Hall & Hd & Hpos & Hsum').
  pose proof (ok_durations_facts dur (zip sched.*1 rs) Hdur) as (Hdl & _).
  destruct (summarize_Ok n total b) as
    (sm & ? & ? & ? & ? & ? & ? & Hs & _ & _ & Ho & Hf & _); [|by rewrite Hd|by rewrite (sum_of_perm _ _ Hd)|].
  { rewrite Hd, Hdl, Hw2. pose proof (length_filter (λ r, is_Ok r = true) rs). unfold count. lia. }
  rewrite M_bind_eq. unfold runBench. rewrite (proj2 (Z.ltb_ge n 0)) by lia. rewrite M_bind_eq, Hrun.
  unfold lift. rewrite Hs.
  destruct (SqlBattleRepo_Get target now d2) as [[php|e|w] d3] eqn:Hg; [|done|].
  2:{ unfold SqlBattleRepo_Get in Hg.
      destruct (QueryRowContext _ d2) as [[row|err|w'] d4] eqn:E; apply QueryRow_inv in E as [_ E]; [done| |done].
      by destruct (errors_Is err sql_ErrNoRows). }
  apply SqlBattle_Get_hp in Hg. cbn [fst]. rewrite Hg, Hk, Hhps, decide_True by done.
  assert (0 <= sum_ok sm <= n) as Hsm by lia. rewrite length_fmap in Hkn.
  assert (Z.of_nat k <= n) as Hkn'.
  { apply Permutation_length in Hsched. rewrite length_fmap, length_seq in Hsched. lia. }
  unfold MaxDamagePerRequest, int32_half in *.
  rewrite int64_wrap_small, int_sub_small by (int_range; nia).
  split; [done|]. split; [nia|]. intros Hnofail. nia.
Qed.
End mysql.

(** ** On the reference server *)

(** Five goroutines in some order; the third call to be made has a context that is
    done. *)
Definition demo_sched : list (nat * option error) :=
  [(3%nat, None); (0%nat, None); (4%nat, Some bad_connection); (1%nat, None); (2%nat, None)].

Definition demo_dur (i : nat) : Z := 1000000 * (Z.of_nat i + 1).

Lemma demo_sched_all : demo_sched.*1 ≡ₚ seq 0 (Z.to_nat 5).
Proof. refine (bool_decide_unpack _ _). vm_compute. exact I. Qed.

Lemma demo_dur_nonneg i : 0 <= demo_dur i.
Proof. unfold demo_dur. lia. Qed.

Lemma demo_durs_sum : sum_of (demo_dur <$> seq 0 (Z.to_nat 5)) < 2 ^ 63.
Proof. vm_compute. reflexivity. Qed.

Lemma runBench_spec_witness :
  ∃ sm, (runBench (V1Naive_Apply (R:=RefDB)) "boss-1" 5 10 demo_dur demo_sched (20 * Second)
           (demo_hp_db [])).1 = Ok sm ∧
    sum_ok sm = 4 ∧ sum_fail sm = 1 ∧
    is_percentile 50 (sum_p50 sm) [4000000; 1000000; 2000000; 3000000].
Proof.
  pose proof (runBench_spec (V1Naive_Apply (R:=RefDB)) "boss-1" 5 10 demo_dur demo_sched (20 * Second)
    (demo_hp_db []) (λ ctx s, V1Naive_sql_no_panic "boss-1" 10 ctx s) ltac:(lia) demo_sched_all
    demo_dur_nonneg demo_durs_sum) as Hspec.
  destruct (calls _ _ _ _ _) as [rs s'] eqn:Hcalls.
  assert (Hrs : rs = [Ok 9990; Ok 9980; Err (Errorf_w "apply damage naive" (Errorf_w "begin tx" bad_connection));
    Ok 9970; Ok 9960]).
  { transitivity (calls (V1Naive_Apply (R:=RefDB)) "boss-1" 10 demo_sched.*2 (demo_hp_db [])).1;
      [by rewrite Hcalls|vm_compute; reflexivity]. }
  clear Hcalls. subst rs. destruct Hspec as (sm & Hrun & _ & Hsum & Hok & _ & Hlat).
  assert (sum_ok sm = 4) as Hok4 by (rewrite Hok; vm_compute; reflexivity). exists sm. split; [by rewrite Hrun|]. split; [exact Hok4|]. split; [lia|].
  rewrite Hok4 in Hlat. exact (proj1 (Hlat eq_refl)).
Defined.

(** The second call is refused at its begin, the commit of the third that is tried
    loses its reply. *)
Definition demo_bench : result (summary * option (Z * Z)) :=
  (bench_run "boss-1" 5 10 1000000 demo_dur demo_sched (20 * Second) 0
     (demo_hp_db [NoFault; NoFault; NoFault; Refused; NoFault; LostReply])).1.

Lemma bench_run_delta_witness :
  match demo_bench with
  | Ok (sm, Some (final, expected)) =>
      expected = 1000000 - 10 * sum_ok sm ∧ 1000000 - 10 * 5 <= final <= expected ∧
      (sum_fail sm = 0 → final = expected)
  | Ok (_, None) | Err _ => True
  | Panic _ => False
  end.
Proof.
  apply (bench_run_delta "boss-1" 5 10 1000000 demo_dur demo_sched (20 * Second) 0
    (demo_hp_db [NoFault; NoFault; NoFault; Refused; NoFault; LostReply]) (demo_hp_fit _)).
  - lia.
  - exact demo_sched_all.
  - exact demo_dur_nonneg.
  - exact demo_durs_sum.
  - unfold MaxDamagePerRequest. lia.
  - lia.
Defined.

Example demo_bench_numbers :
  match demo_bench with
  | Ok (sm, hp) => (sum_ok sm, sum_fail sm, hp)
  | _ => (0, 0, None)
  end = (2, 3, Some (999970, 999980)).
Proof. vm_compute. reflexivity. Qed.
