(* ===== verification/Report.v ===== *)
(** * What the benchmark prints

    Models [run] and [printReport] of [cmd/battlebench/main.go]: the options, the
    lines on the standard output and the outcome, around the run of [Bench]. *)

From S2P Require Import GoLang Float Strconv Battle Sql SqlBattle Bench.
From stdpp Require Import pretty.
#[local] Open Scope Z_scope.

Definition nl : string := String (ascii_of_nat 10) "".

(** The flags, with their defaults. *)
Record options := {
  opt_dsn : string; opt_impl : string; opt_target : string;
  opt_n : Z; opt_damage : Z; opt_hp : Z; opt_timeout : Z }.

Definition default_options (env_dsn : string) : options := {|
  opt_dsn := env_dsn; opt_impl := "naive"; opt_target := "boss-1";
  opt_n := 100; opt_damage := 10; opt_hp := 1000000; opt_timeout := 30 * Second |}.

(** [float64(k)*100/float64(total)], with one digit. *)
Definition percentage (k total : Z) : string :=
  Sprintf_f 1 (f_div (f_mul (f_of_Z k) (f_of_Z 100)) (f_of_Z total)).

Section report.
Context `{!GoRuntime}.

Definition printReport (s : summary) (impl : string) : list string :=
  [nl +:+ "--- results [" +:+ impl +:+ "] ---" +:+ nl;
   "total:       " +:+ pretty (sum_total s) +:+ nl;
   "success:     " +:+ pretty (sum_ok s) +:+ " (" +:+ percentage (sum_ok s) (sum_total s) +:+ "%)" +:+ nl;
   "failure:     " +:+ pretty (sum_fail s) +:+ " (" +:+ percentage (sum_fail s) (sum_total s) +:+ "%)" +:+ nl] ++
  (if 0 <? sum_ok s then
     ["throughput:  " +:+ Sprintf_f 2 (throughputRPS s) +:+ " rps" +:+ nl;
      "latency:     min=" +:+ Duration_String (sum_min s) +:+ " avg=" +:+ Duration_String (sum_avg s) +:+
        " max=" +:+ Duration_String (sum_max s) +:+ nl;
      "             p50=" +:+ Duration_String (sum_p50 s) +:+ " p95=" +:+ Duration_String (sum_p95 s) +:+
        " p99=" +:+ Duration_String (sum_p99 s) +:+ nl]
   else []) ++
  (if bool_decide (sum_errs s = ∅) then []
   else (nl +:+ "--- error breakdown ---" +:+ nl) ::
     ((λ '(msg, cnt), "  " +:+ pad_left " " 3 (pretty cnt) +:+ " × " +:+ msg +:+ nl) <$> map_range (sum_errs s))).

Definition bench_header (o : options) : string :=
  "=== Phase 19 bench: impl=" +:+ opt_impl o +:+ " target=" +:+ opt_target o +:+ " n=" +:+ pretty (opt_n o) +:+
  " damage=" +:+ pretty (opt_damage o) +:+ " hp_init=" +:+ pretty (opt_hp o) +:+ " ===" +:+ nl.

Definition final_line (final expected : Z) : string :=
  "final_hp=" +:+ pretty final +:+ ", expected=" +:+ pretty expected +:+
  " (hp_init - damage*ok), delta=" +:+ pretty (final [-] expected) +:+ nl.

Definition bench_ErrNoDSN : error :=
  ErrorsNew "battlebench.run" "MYSQL_DSN 이 필요합니다. env 로 설정하거나 -dsn 플래그 사용".

Section run.
Context {D Tx : Type} `{!MySQL D Tx}.

(** [fmt.Printf]: the state is the database and the lines so far. *)
Definition print (line : string) : M (D * list string) unit := λ '(d, out), (Ok tt, (d, out ++ [line])).

Fixpoint print_all (lines : list string) : M (D * list string) unit :=
  match lines with
  | [] => mret tt
  | line :: lines' => print line;; print_all lines'
  end.

(** The last line; an error of [repo.Get] is only a warning. *)
Definition print_final (o : options) (results : summary) (now : Z) : M (D * list string) unit :=
  λ '(d, out),
    match SqlBattleRepo_Get (opt_target o) now d with
    | (Ok finalHP, d') =>
        print (final_line (HP finalHP) (opt_hp o [-] int64_wrap (opt_damage o * sum_ok results))) (d', out)
    | (Err _, d') => (Ok tt, (d', out))
    | (Panic w, d') => (Panic w, (d', out))
    end.

(** [opened] is the error of [mysql.Open]; [queued] what a call through the queue
    comes to when its turn is there. The timeout is in the schedule: it is the error
    of the contexts of the calls that it hits. *)
Definition bench_main (o : options) (opened : option error) (queued : option error → string → Z → M D Z)
    (dur : nat → Z) (sched : list (nat * option error)) (total now : Z) : M (D * list string) unit :=
  if bool_decide (opt_dsn o = "") then fail bench_ErrNoDSN
  else
    match opened with
    | Some e => fail (Errorf_w "mysql open" e)
    | None =>
        on_fst (wrapErr "reset target hp" (SqlBattleRepo_Reset (opt_target o) (opt_hp o)));;
        let apply := match Battle_Build (opt_impl o) with
                     | Applier_V1Naive => V1Naive_Apply (R:=D)
                     | Applier_V2UserQueue => queued
                     end in
        print (bench_header o);;
        results ← on_fst (runBench apply (opt_target o) (opt_n o) (opt_damage o) dur sched total);
        print_all (printReport results (opt_impl o));;
        print_final o results now
    end.

Lemma print_all_run lines d out : print_all lines (d, out) = (Ok tt, (d, out ++ lines)).
Proof.
  revert out. induction lines as [|line lines IH]; intros out; [by rewrite app_nil_r|].
  cbn [print_all]. rewrite M_bind_eq. cbn [print]. by rewrite IH, <- app_assoc.
Qed.

(** On the naive applier the program prints what [bench_run] computes. *)
Lemma bench_main_run o queued dur sched total now d :
  opt_dsn o ≠ "" → Battle_Build (opt_impl o) = Applier_V1Naive →
  match bench_run (opt_target o) (opt_n o) (opt_damage o) (opt_hp o) dur sched total now d with
  | (Ok (sm, found), d') =>
      bench_main o None queued dur sched total now (d, []) =
        (Ok tt, (d', bench_header o :: printReport sm (opt_impl o) ++
           match found with Some (final, expected) => [final_line final expected] | None => [] end))
  | (Err e, d') => (bench_main o None queued dur sched total now (d, [])).1 = Err e
  | (Panic w, d') => (bench_main o None queued dur sched total now (d, [])).1 = Panic w
  end.
Proof.
  intros Hdsn Himpl. unfold bench_main, bench_run. rewrite bool_decide_eq_false_2, Himpl by done.
  rewrite !M_bind_eq. unfold on_fst at 1 3 5.
  destruct (wrapErr _ _ d) as [[[]|e|w] d1]; [|done..].
  rewrite !M_bind_eq. cbn [print]. rewrite !M_bind_eq. unfold on_fst.
  destruct (runBench _ _ _ _ _ _ _ d1) as [[sm|e|w] d2]; [|done..].
  rewrite M_bind_eq, print_all_run. unfold print_final.
  destruct (SqlBattleRepo_Get _ _ d2) as [[php|e|w] d3]; [|by rewrite app_nil_r|done].
  cbn [print]. by rewrite <- app_assoc.
Qed.
End run.
End report.
