(* ===== verification/Startup.v ===== *)
(** * Startup and shutdown

    Models [run] of [cmd/server/main.go], with [internal/persistence/mysql/mysql.go]
    and [migrate.go]: settings are loaded, connections opened one after the other,
    each with its deferred cleanup, the server listens until a signal or an
    error, and drains before it shuts down. What the outside answers (the
    drivers, the migration library, the listener) is a parameter ([World]); a run
    leaves the trace of what it did. What is logged on the way is left out. *)

From S2P Require Import GoLang Float Auth Http RateLimit Config Battle Observe.
#[local] Open Scope Z_scope.

(** ** What a run does *)

Inductive resource := RSignals | RDatabase | RBoardClient | RIdemClient | RSweeper.

#[export] Instance resource_eq_dec : EqDecision resource.
Proof. solve_decision. Defined.

Inductive backend := InMemory | MySQLBacked | RedisBacked.

(** The server as it is wired when it starts to listen. *)
Record Wiring := {
  wi_addr : string;
  wi_repos : backend;
  wi_battle_repo : backend;
  wi_board : backend;
  wi_idem : backend;
  wi_idem_ttl : Z;
  wi_applier : Applier;
  wi_issuer : option Issuer;
  wi_validator : option Validator;
  wi_rps : float64;
  wi_burst : Z;
  wi_timeout : Z;
  wi_logger : Logger }.

Inductive action :=
  | Acquire (r : resource)
  | Release (r : resource)
  | Listen (w : Wiring)
  | Draining
  | Sleep (d : Z)
  | Shutdown (d : Z).

(** [ListenAndServe] runs until a signal arrives, or returns an error. *)
Inductive stop_cause := Signalled | Stopped (e : error).

(** The answers of the outside: no error, or one. *)
Class World := {
  Getenv : string → string;
  sql_Open : string → option error;
  sql_Ping : option error;
  goose_SetDialect : option error;
  goose_Up : option error;
  redis_Ping : resource → string → option error;
  ListenAndServe : Wiring → stop_cause;
  srv_Shutdown : Z → option error }.

Definition http_ErrServerClosed : error := ErrorsNew "http.ErrServerClosed" "http: Server closed".

Abbreviation T := (list action) (only parsing).

Definition act (a : action) : M T unit := λ tr, (Ok tt, tr ++ [a]).

Definition ask (answer : option error) : M T unit :=
  match answer with
  | None => mret tt
  | Some e => fail e
  end.

(** [defer cleanup()], then the rest of the function. *)
Definition defer {A} (cleanup : M T unit) (rest : M T A) : M T A := λ tr,
  let '(res, tr1) := rest tr in (res, (cleanup tr1).2).

(** [if err := m; err != nil { cleanup(); return fmt.Errorf(prefix, err) }]. *)
Definition or_cleanup (prefix : string) (m : M T unit) (cleanup : M T unit) : M T unit := λ tr,
  match m tr with
  | (Err e, tr1) => (Err (Errorf_w prefix e), (cleanup tr1).2)
  | out => out
  end.

Section startup.
Context `{!World, !GoFmt}.

(** [mysql.Open]. *)
Definition mysql_Open (dsn : string) : M T unit :=
  wrapErr "sql.Open" (ask (sql_Open dsn));;
  act (Acquire RDatabase);;
  or_cleanup "ping" (ask sql_Ping) (act (Release RDatabase)).

Definition Migrate : M T unit :=
  wrapErr "goose set dialect" (ask goose_SetDialect);;
  wrapErr "goose up" (ask goose_Up).

(** The database, if any, and its cleanup. *)
Definition openMaybeMySQL (dsn : string) : M T (bool * M T unit) :=
  if bool_decide (dsn = "") then mret (false, mret tt)
  else
    wrapErr "mysql open" (mysql_Open dsn);;
    let cleanup := act (Release RDatabase) in
    or_cleanup "mysql migrate" Migrate cleanup;;
    mret (true, cleanup).

(** What [openLeaderboard] and [openIdempotencyStore] share: a client that
    answers a ping. *)
Definition open_redis (client : resource) (addr : string) : M T (backend * M T unit) :=
  if bool_decide (addr = "") then mret (InMemory, mret tt)
  else
    act (Acquire client);;
    or_cleanup ("redis ping " +:+ addr) (ask (redis_Ping client addr)) (act (Release client));;
    mret (RedisBacked, act (Release client)).

Definition openLeaderboard (addr : string) : M T (backend * M T unit) := open_redis RBoardClient addr.

Definition openIdempotencyStore (addr : string) : M T (backend * M T unit) :=
  open_redis RIdemClient addr.

Definition buildRepos (db : bool) : backend := if db then MySQLBacked else InMemory.
Definition buildBattleRepo (db : bool) : backend := if db then MySQLBacked else InMemory.

(** [rateLimiter.StartSweeper] and [rateLimiter.Stop]: its goroutine. *)
Definition start_sweeper : M T unit := act (Acquire RSweeper).
Definition stop_sweeper : M T unit := act (Release RSweeper).

(** From the listener to the end. *)
Definition serve_and_stop (cfg : Config) (w : Wiring) : M T unit :=
  act (Listen w);;
  match ListenAndServe w with
  | Stopped err =>
      if errors_Is err http_ErrServerClosed then mret tt
      else fail (Errorf_w "listen and serve" err)
  | Signalled =>
      act Draining;;
      act (Sleep (5 * Second));;
      act (Shutdown (ShutdownTimeout cfg));;
      wrapErr "shutdown" (ask (srv_Shutdown (ShutdownTimeout cfg)))
  end.

(** [run], from its last part to the whole: each definition is the rest of the
    function under the cleanups deferred so far. *)
Definition run_with_idem (cfg : Config) (db : bool) (leaderboard : backend)
    (authIssuer : option Issuer) (authValidator : option Validator) (idempStore : backend)
    : M T unit :=
  start_sweeper;;
  defer stop_sweeper (
    serve_and_stop cfg {|
      wi_addr := Config.Listen cfg;
      wi_repos := buildRepos db;
      wi_battle_repo := buildBattleRepo db;
      wi_board := leaderboard;
      wi_idem := idempStore;
      wi_idem_ttl := IdempotencyTTL cfg;
      wi_applier := Battle_Build (BattleImpl cfg);
      wi_issuer := authIssuer;
      wi_validator := authValidator;
      wi_rps := RateLimitRPS cfg;
      wi_burst := RateLimitBurst cfg;
      wi_timeout := RequestTimeout cfg;
      wi_logger := server_logger cfg |}).

Definition run_with_board (cfg : Config) (db : bool) (leaderboard : backend) : M T unit :=
  '(authIssuer, authValidator) ← wrapErr "auth" (lift (buildAuth (AuthSecret cfg) (AuthTokenTTL cfg)));
  '(idempStore, idempCleanup) ← wrapErr "idempotency" (openIdempotencyStore (RedisAddr cfg));
  defer idempCleanup (run_with_idem cfg db leaderboard authIssuer authValidator idempStore).

Definition run_with_db (cfg : Config) (db : bool) : M T unit :=
  '(leaderboard, redisCleanup) ← wrapErr "open redis" (openLeaderboard (RedisAddr cfg));
  defer redisCleanup (run_with_board cfg db leaderboard).

Definition run : M T unit :=
  cfg ← wrapErr "config" (lift (Load Getenv));
  act (Acquire RSignals);;
  defer (act (Release RSignals)) (
    '(db, cleanup) ← wrapErr "open db" (openMaybeMySQL (MySQLDSN cfg));
    defer cleanup (run_with_db cfg db)).
End startup.

(** ** Resources are held like a stack *)

(** The resources held after a trace, innermost first; a release of another than
    the innermost is an error. *)
Fixpoint held (tr : list action) (st : list resource) : option (list resource) :=
  match tr with
  | [] => Some st
  | Acquire r :: tr' => held tr' (r :: st)
  | Release r :: tr' =>
      match st with
      | r' :: st' => if decide (r' = r) then held tr' st' else None
      | [] => None
      end
  | _ :: tr' => held tr' st
  end.

Definition is_listen (a : action) : bool := match a with Listen _ => true | _ => false end.

Section traces.
Context `{!World, !GoFmt}.

(** What a computation adds to the trace keeps every resource as it was. *)
Definition balanced {A} (m : M T A) : Prop :=
  ∀ tr, ∃ t, (m tr).2 = tr ++ t ∧ (∀ st, held t st = Some st) ∧ no_panic (m tr).1.

(** On success it leaves a cleanup that undoes what it acquired; on failure nothing
    is held. *)
Definition opens {A} (m : M T (A * M T unit)) : Prop :=
  ∀ tr, ∃ t, (m tr).2 = tr ++ t ∧ no_panic (m tr).1 ∧
    match (m tr).1 with
    | Ok (_, cleanup) => ∃ rs cs, (∀ st, held t st = Some (rs ++ st)) ∧
        (∀ tr', cleanup tr' = (Ok tt, tr' ++ cs)) ∧ (∀ st, held cs (rs ++ st) = Some st)
    | _ => ∀ st, held t st = Some st
    end.

Lemma held_app t1 t2 st : held (t1 ++ t2) st = (held t1 st ≫= held t2).
Proof.
  revert st. induction t1 as [|[r|r|w| |d|d] t1 IH]; intros st; cbn; try done.
  destruct st as [|r' st']; [done|]. by case_decide.
Qed.

Lemma balanced_ret {A} (a : A) : balanced (mret a).
Proof. intros tr. exists []. by rewrite app_nil_r. Qed.

Lemma balanced_ask o : balanced (ask o).
Proof. destruct o; intros tr; exists []; by rewrite app_nil_r. Qed.

Lemma balanced_lift {A} (r : result A) : no_panic r → balanced (lift r).
Proof. intros Hr tr. exists []. by rewrite app_nil_r. Qed.

Lemma balanced_act a : (∀ st, held [a] st = Some st) → balanced (act a).
Proof. intros Ha tr. by exists [a]. Qed.

Lemma balanced_fail {A} e : balanced (fail e : M T A).
Proof. intros tr. exists []. by rewrite app_nil_r. Qed.

Lemma balanced_wrap {A} prefix (m : M T A) : balanced m → balanced (wrapErr prefix m).
Proof.
  intros Hm tr. destruct (Hm tr) as (t & E & Hb & Hp). exists t. unfold wrapErr.
  by destruct (m tr) as [[] tr'].
Qed.

Lemma balanced_bind {A B} (m : M T A) (f : A → M T B) :
  balanced m → (∀ a, balanced (f a)) → balanced (m ≫= f).
Proof.
  intros Hm Hf tr. destruct (Hm tr) as (t & E & Hb & Hp). rewrite M_bind_eq.
  destruct (m tr) as [[a|e|w] tr']; simpl in E, Hp; subst; [|by exists t|done].
  destruct (Hf a (tr ++ t)) as (t' & E' & Hb' & Hp'). exists (t ++ t').
  rewrite E', app_assoc. split; [done|]. split; [|done]. intros st.
  rewrite held_app, Hb. simpl. apply Hb'.
Qed.

Lemma opens_wrap {A} prefix (m : M T (A * M T unit)) : opens m → opens (wrapErr prefix m).
Proof.
  intros Hm tr. destruct (Hm tr) as (t & E & Hp & Hc). exists t. unfold wrapErr.
  by destruct (m tr) as [[[a c]|e|w] tr'].
Qed.

(** The rest of a function under a deferred cleanup. *)
Lemma balanced_defer {A B} (m : M T (A * M T unit)) (rest : A → M T B) :
  opens m → (∀ a, balanced (rest a)) → balanced ('(a, c) ← m; defer c (rest a)).
Proof.
  intros Hm Hrest tr. destruct (Hm tr) as (t & E & Hp & Hc). rewrite M_bind_eq.
  destruct (m tr) as [[[a c]|e|w] tr']; simpl in E, Hp, Hc; subst; [|by exists t|done].
  destruct Hc as (rs & cs & Ht & Hcl & Hcs). unfold defer.
  destruct (Hrest a (tr ++ t)) as (t' & E' & Hb' & Hp').
  destruct (rest a (tr ++ t)) as [r tr1]. simpl in E', Hp'. subst. rewrite Hcl.
  exists (t ++ t' ++ cs). simpl. rewrite !app_assoc. split; [done|]. split; [|done].
  intros st. rewrite <- app_assoc, held_app, Ht. simpl. rewrite held_app, Hb'. simpl. apply Hcs.
Qed.

Lemma balanced_acquire {A} r (rest : M T A) :
  balanced rest → balanced (act (Acquire r);; defer (act (Release r)) rest).
Proof.
  intros Hrest tr. rewrite M_bind_eq. simpl. unfold defer.
  destruct (Hrest (tr ++ [Acquire r])) as (t & E & Hb & Hp).
  destruct (rest (tr ++ [Acquire r])) as [res tr1]. simpl in E, Hp. subst.
  exists (Acquire r :: t ++ [Release r]). simpl. rewrite <- !app_assoc. simpl. split; [done|].
  split; [|done]. intros st. rewrite held_app, Hb. simpl. by rewrite decide_True.
Qed.

Lemma opens_nothing {A} (a : A) : opens (mret (a, mret tt)).
Proof.
  intros tr. exists []. rewrite app_nil_r. split; [done|]. split; [done|].
  exists [], []. split; [done|]. split; [|done]. intros tr'. by rewrite app_nil_r.
Qed.

(** A cleanup that releases what was just acquired. *)
Lemma opened {A} (a : A) r tr (m : M T (A * M T unit)) :
  m tr = (Ok (a, act (Release r)), tr ++ [Acquire r]) →
  ∃ t, (m tr).2 = tr ++ t ∧ no_panic (m tr).1 ∧
    match (m tr).1 with
    | Ok (_, cleanup) => ∃ rs cs, (∀ st, held t st = Some (rs ++ st)) ∧
        (∀ tr', cleanup tr' = (Ok tt, tr' ++ cs)) ∧ (∀ st, held cs (rs ++ st) = Some st)
    | _ => ∀ st, held t st = Some st
    end.
Proof.
  intros ->. exists [Acquire r]. split; [done|]. split; [done|]. exists [r], [Release r].
  split; [done|]. split; [done|]. intros st. simpl. by rewrite decide_True.
Qed.

(** A failure with a cleanup, or before anything was acquired. *)
Lemma not_opened {A} e t tr (m : M T (A * M T unit)) :
  m tr = (Err e, tr ++ t) → (∀ st, held t st = Some st) →
  ∃ t, (m tr).2 = tr ++ t ∧ no_panic (m tr).1 ∧
    match (m tr).1 with
    | Ok (_, cleanup) => ∃ rs cs, (∀ st, held t st = Some (rs ++ st)) ∧
        (∀ tr', cleanup tr' = (Ok tt, tr' ++ cs)) ∧ (∀ st, held cs (rs ++ st) = Some st)
    | _ => ∀ st, held t st = Some st
    end.
Proof. intros -> Ht. by exists t. Qed.

Lemma held_pair r st : held [Acquire r; Release r] st = Some st.
Proof. simpl. by rewrite decide_True. Qed.

Lemma opens_redis client addr : opens (open_redis client addr).
Proof.
  unfold open_redis. case_bool_decide; [apply opens_nothing|]. intros tr.
  destruct (redis_Ping client addr) as [e|] eqn:E.
  - eapply (not_opened _ [Acquire client; Release client]); [|intros st; apply held_pair].
    rewrite M_bind_eq. simpl. rewrite M_bind_eq. unfold or_cleanup. simpl.
    by rewrite <- app_assoc.
  - apply (opened RedisBacked client). rewrite M_bind_eq. simpl. rewrite M_bind_eq. done.
Qed.

Lemma opens_mysql dsn : opens (openMaybeMySQL dsn).
Proof.
  unfold openMaybeMySQL. case_bool_decide; [apply opens_nothing|]. intros tr.
  destruct (sql_Open dsn) as [e|] eqn:Eo; [|destruct sql_Ping as [e|] eqn:Ep;
    [|destruct goose_SetDialect as [e|] eqn:Ed; [|destruct goose_Up as [e|] eqn:Eu]]].
  5: apply (opened true RDatabase).
  1: eapply (not_opened _ []); [|done].
  2-4: eapply (not_opened _ [Acquire RDatabase; Release RDatabase]); [|intros st; apply held_pair].
  all: unfold mysql_Open, Migrate, or_cleanup, wrapErr, ask, act, fail; rewrite ?M_bind_eq, ?Eo;
    cbn; rewrite ?M_bind_eq; cbn; rewrite ?Ep; cbn; rewrite ?Ed; cbn; rewrite ?M_bind_eq; cbn;
    rewrite ?Eu; cbn; by rewrite <- ?app_assoc, ?app_nil_r.
Qed.
End traces.

(** ** The whole run *)

(** The choice of backends the settings ask for. *)
Definition chosen (address : string) (external : backend) : backend :=
  if bool_decide (address = "") then InMemory else external.

Definition wiring_of (cfg : Config) (issuer : option Issuer) (validator : option Validator) : Wiring := {|
  wi_addr := Config.Listen cfg;
  wi_repos := chosen (MySQLDSN cfg) MySQLBacked;
  wi_battle_repo := chosen (MySQLDSN cfg) MySQLBacked;
  wi_board := chosen (RedisAddr cfg) RedisBacked;
  wi_idem := chosen (RedisAddr cfg) RedisBacked;
  wi_idem_ttl := IdempotencyTTL cfg;
  wi_applier := Battle_Build (BattleImpl cfg);
  wi_issuer := issuer;
  wi_validator := validator;
  wi_rps := RateLimitRPS cfg;
  wi_burst := RateLimitBurst cfg;
  wi_timeout := RequestTimeout cfg;
  wi_logger := server_logger cfg |}.

Definition when (address : string) (r : resource) : list resource :=
  if bool_decide (address = "") then [] else [r].

(** What a listening server holds, innermost first. *)
Definition resources_of (cfg : Config) : list resource :=
  RSweeper :: when (RedisAddr cfg) RIdemClient ++ when (RedisAddr cfg) RBoardClient ++
  when (MySQLDSN cfg) RDatabase ++ [RSignals].

Section runs.
Context `{!World, !GoFmt}.

(** What happens after listening, and its outcome. *)
Definition ending (cfg : Config) (w : Wiring) : list action :=
  match ListenAndServe w with
  | Stopped _ => []
  | Signalled => [Draining; Sleep (5 * Second); Shutdown (ShutdownTimeout cfg)]
  end.

Definition outcome_of (cfg : Config) (w : Wiring) : result unit :=
  match ListenAndServe w with
  | Stopped e =>
      if errors_Is e http_ErrServerClosed then Ok tt else Err (Errorf_w "listen and serve" e)
  | Signalled =>
      match srv_Shutdown (ShutdownTimeout cfg) with
      | None => Ok tt
      | Some e => Err (Errorf_w "shutdown" e)
      end
  end.

Definition no_listen (tr : list action) : Prop := Forall (λ a, is_listen a = false) tr.

(** An opener that succeeds exactly this way, or fails before listening. *)
Definition opens_as {A} (m : M T (A * M T unit)) (a : A) (rs : list resource) : Prop :=
  ∀ tr, (∃ c, m tr = (Ok (a, c), tr ++ (Acquire <$> rs)) ∧ ∀ tr', c tr' = (Ok tt, tr' ++ (Release <$> rs))) ∨
  ∃ e t, m tr = (Err e, tr ++ t) ∧ no_listen t.

Lemma openMaybeMySQL_as dsn :
  opens_as (openMaybeMySQL dsn) (negb (bool_decide (dsn = ""))) (when dsn RDatabase).
Proof.
  intros tr. unfold openMaybeMySQL, when. case_bool_decide.
  { left. exists (mret tt). rewrite app_nil_r. split; [done|]. intros tr'. by rewrite app_nil_r. }
  destruct (sql_Open dsn) as [e|] eqn:Eo; [|destruct sql_Ping as [e|] eqn:Ep;
    [|destruct goose_SetDialect as [e|] eqn:Ed; [|destruct goose_Up as [e|] eqn:Eu]]].
  5: left; exists (act (Release RDatabase)); split; [|done].
  1: right; eexists _, []; split; [|constructor].
  2-4: right; eexists _, [Acquire RDatabase; Release RDatabase]; split; [|by repeat constructor].
  all: unfold mysql_Open, Migrate, or_cleanup, wrapErr, ask, act, fail; rewrite ?M_bind_eq, ?Eo;
    cbn; rewrite ?M_bind_eq; cbn; rewrite ?Ep; cbn; rewrite ?Ed; cbn; rewrite ?M_bind_eq; cbn;
    rewrite ?Eu; cbn; by rewrite <- ?app_assoc, ?app_nil_r.
Qed.

Lemma open_redis_as client addr :
  opens_as (open_redis client addr) (chosen addr RedisBacked) (when addr client).
Proof.
  intros tr. unfold open_redis, when, chosen. case_bool_decide.
  { left. exists (mret tt). rewrite app_nil_r. split; [done|]. intros tr'. by rewrite app_nil_r. }
  destruct (redis_Ping client addr) as [e|].
  - right. eexists _, [Acquire client; Release client]. split; [|by repeat constructor].
    rewrite M_bind_eq. simpl. rewrite M_bind_eq. unfold or_cleanup. simpl. by rewrite <- app_assoc.
  - left. exists (act (Release client)). split; [|done]. rewrite M_bind_eq. simpl. rewrite M_bind_eq. done.
Qed.

Lemma no_listen_acts rs : no_listen (Acquire <$> rs) ∧ no_listen (Release <$> rs).
Proof. unfold no_listen. split; apply Forall_fmap, Forall_true; intros r; reflexivity. Qed.

(** A step that opens, in a function whose rest runs under its cleanup: how the
    rest goes from here, or a failure before listening. *)
Lemma opened_rest {A B} (m : M T (A * M T unit)) a rs prefix (rest : A → M T B) tr :
  opens_as m a rs →
  (∃ res tr1, rest a (tr ++ (Acquire <$> rs)) = (res, tr1) ∧
     ('(a, c) ← wrapErr prefix m; defer c (rest a)) tr = (res, tr1 ++ (Release <$> rs))) ∨
  ∃ e t, ('(a, c) ← wrapErr prefix m; defer c (rest a)) tr = (Err e, tr ++ t) ∧ no_listen t.
Proof.
  intros Hm. rewrite M_bind_eq. unfold wrapErr.
  destruct (Hm tr) as [(c & -> & Hc)|(e & t & -> & Ht)].
  - left. unfold defer. destruct (rest a _) as [res tr1]. exists res, tr1. by rewrite Hc.
  - right. by eexists _, t.
Qed.

Lemma serve_and_stop_run cfg w tr :
  serve_and_stop cfg w tr = (outcome_of cfg w, tr ++ Listen w :: ending cfg w).
Proof.
  unfold serve_and_stop, outcome_of, ending. rewrite M_bind_eq. cbn.
  destruct (ListenAndServe w) as [|e].
  - do 3 (rewrite M_bind_eq; cbn [act fst snd]). unfold wrapErr, ask. rewrite <- !app_assoc.
    by destruct (srv_Shutdown _).
  - by destruct (errors_Is e http_ErrServerClosed).
Qed.

Lemma Load_no_panic env : no_panic (Load env).
Proof.
  unfold Load. pose proof (validate_spec (load_env env)) as Hv. case_decide; [by rewrite Hv|].
  by destruct Hv as [e ->].
Qed.

Lemma buildAuth_no_panic secret ttl : no_panic (buildAuth secret ttl).
Proof. unfold buildAuth, NewIssuer. by repeat case_match; simplify_eq. Qed.

(** How a part of [run] goes: it fails before listening, or it listens once and
    releases [rs], what it acquired, in reverse. *)
Definition goes (cfg : Config) (m : M T unit) (rs : list resource) : Prop :=
  ∀ tr, (∃ e t, m tr = (Err e, tr ++ t) ∧ no_listen t) ∨
  ∃ issuer validator, buildAuth (AuthSecret cfg) (AuthTokenTTL cfg) = Ok (issuer, validator) ∧
    let w := wiring_of cfg issuer validator in
    m tr = (outcome_of cfg w, tr ++ (Acquire <$> reverse rs) ++ Listen w :: ending cfg w ++ (Release <$> rs)).

(** Around a part that goes: an opener and its deferred cleanup. *)
Lemma goes_opened {A} cfg prefix (m : M T (A * M T unit)) a rs rs' (rest : A → M T unit) :
  opens_as m a rs' → goes cfg (rest a) rs → (length rs' <= 1)%nat →
  goes cfg ('(a, c) ← wrapErr prefix m; defer c (rest a)) (rs ++ rs').
Proof.
  intros Hm Hrest Hlen tr.
  destruct (opened_rest m a rs' prefix rest tr Hm) as [(res & tr1 & E & ->)|(e & t & -> & Ht)];
    [|left; by exists e, t].
  destruct (no_listen_acts rs') as [Ha Hr].
  assert (reverse rs' = rs') as Hrev by (destruct rs' as [|r [|]]; [done|done|simpl in Hlen; lia]).
  destruct (Hrest (tr ++ (Acquire <$> rs'))) as [(e & t & E' & Ht)|(i & v & Hauth & E')];
    rewrite E' in E; injection E as <- <-.
  - left. exists e, ((Acquire <$> rs') ++ t ++ (Release <$> rs')). rewrite !app_assoc. split; [done|].
    by repeat apply Forall_app_2.
  - right. exists i, v. split; [done|]. cbn zeta. rewrite reverse_app, Hrev, !fmap_app.
    rewrite <- !app_assoc. cbn [app]. by rewrite <- !app_assoc.
Qed.

Lemma goes_idem cfg issuer validator :
  buildAuth (AuthSecret cfg) (AuthTokenTTL cfg) = Ok (issuer, validator) →
  goes cfg (run_with_idem cfg (negb (bool_decide (MySQLDSN cfg = ""))) (chosen (RedisAddr cfg) RedisBacked)
    issuer validator (chosen (RedisAddr cfg) RedisBacked)) [RSweeper].
Proof.
  intros Hauth tr. right. exists issuer, validator. split; [done|]. unfold run_with_idem.
  rewrite M_bind_eq. unfold start_sweeper. cbn [act]. unfold defer. rewrite serve_and_stop_run.
  set (w := Build_Wiring _ _ _ _ _ _ _ _ _ _ _ _ _).
  assert (w = wiring_of cfg issuer validator) as ->.
  { unfold w, wiring_of, buildRepos, buildBattleRepo, chosen. by destruct (bool_decide (MySQLDSN cfg = "")). }
  cbn. rewrite <- !app_assoc. cbn. by rewrite <- ?app_assoc.
Qed.

Lemma length_when address r : (length (when address r) <= 1)%nat.
Proof. unfold when. case_bool_decide; simpl; lia. Qed.

Lemma goes_board cfg :
  goes cfg (run_with_board cfg (negb (bool_decide (MySQLDSN cfg = ""))) (chosen (RedisAddr cfg) RedisBacked))
    (RSweeper :: when (RedisAddr cfg) RIdemClient).
Proof.
  unfold run_with_board. pose proof (buildAuth_no_panic (AuthSecret cfg) (AuthTokenTTL cfg)) as Hp.
  destruct (buildAuth (AuthSecret cfg) (AuthTokenTTL cfg)) as [[i v]|e|w] eqn:Hauth; [| |done].
  - intros tr. rewrite M_bind_eq. cbn [wrapErr lift].
    apply (goes_opened cfg "idempotency" (openIdempotencyStore (RedisAddr cfg)) _ [RSweeper] _
      (run_with_idem cfg _ _ i v) (open_redis_as RIdemClient _) (goes_idem cfg i v Hauth) (length_when _ _)).
  - intros tr. left. rewrite M_bind_eq. eexists _, []. rewrite app_nil_r. split; [done|constructor].
Qed.

(** C28. Startup and shutdown. A run either fails before it listens, or it listens
    exactly once: with settings that passed validation, wired as they say, after
    every connection they ask for has been opened; when a signal arrives the
    readiness gate is closed before the server is shut down, within the
    configured time; and everything that was opened is released, last opened
    first. *)
Theorem run_spec :
  let '(res, tr) := run [] in
  (∃ e, res = Err e ∧ no_listen tr) ∨
  ∃ cfg issuer validator, Load Getenv = Ok cfg ∧
    buildAuth (AuthSecret cfg) (AuthTokenTTL cfg) = Ok (issuer, validator) ∧
    let w := wiring_of cfg issuer validator in
    res = outcome_of cfg w ∧
    tr = (Acquire <$> reverse (resources_of cfg)) ++ Listen w :: ending cfg w ++
         (Release <$> resources_of cfg).
Proof.
  unfold run. rewrite M_bind_eq. unfold wrapErr at 1, lift at 1.
  pose proof (Load_no_panic Getenv) as Hp. destruct (Load Getenv) as [cfg|e|w] eqn:Hload; [| |done].
  2:{ left. eexists. split; [done|constructor]. }
  rewrite M_bind_eq. cbn [act app]. unfold defer at 1.
  pose proof (goes_opened cfg "open redis" (openLeaderboard (RedisAddr cfg)) _ _ _ (run_with_board cfg _)
    (open_redis_as RBoardClient _) (goes_board cfg) (length_when _ _)) as Hdb.
  pose proof (goes_opened cfg "open db" (openMaybeMySQL (MySQLDSN cfg)) _ _ _ (run_with_db cfg)
    (openMaybeMySQL_as _) Hdb (length_when _ _)) as Hall.
  destruct (Hall [Acquire RSignals]) as [(e & t & -> & Ht)|(i & v & Hauth & ->)].
  - left. exists e. split; [done|]. repeat apply Forall_app_2; by repeat constructor.
  - right. exists cfg, i, v. split; [done|]. split; [done|]. cbn zeta. split; [done|].
    unfold resources_of. rewrite !app_comm_cons, !app_assoc, !reverse_app, !fmap_app.
    cbn [act snd reverse fmap list_fmap app]. rewrite <- !app_assoc. cbn [app]. by rewrite <- ?app_assoc.
Qed.

Lemma balanced_serve cfg w : balanced (serve_and_stop cfg w).
Proof.
  unfold serve_and_stop. apply balanced_bind; [by apply balanced_act|intros _].
  destruct (ListenAndServe w) as [|e].
  - do 3 (apply balanced_bind; [by apply balanced_act|intros _]). apply balanced_wrap, balanced_ask.
  - destruct (errors_Is e http_ErrServerClosed); [apply balanced_ret|apply balanced_fail].
Qed.

Lemma balanced_board cfg db board : balanced (run_with_board cfg db board).
Proof.
  unfold run_with_board. apply balanced_bind; [apply balanced_wrap, balanced_lift, buildAuth_no_panic|].
  intros [i v]. apply (balanced_defer _ (run_with_idem cfg db board i v)); [apply opens_wrap, opens_redis|].
  intros idem. apply balanced_acquire, balanced_serve.
Qed.

(** C29. Nothing leaks. However the settings, the drivers, the migrations, the pings
    and the listener answer, also when startup fails half way, every connection
    and goroutine that was opened is released exactly once, none before those
    opened after it, and the run does not panic. *)
Theorem run_releases : held (run []).2 [] = Some [] ∧ no_panic (run []).1.
Proof.
  assert (balanced run) as Hb.
  { unfold run. apply balanced_bind; [apply balanced_wrap, balanced_lift, Load_no_panic|].
    intros cfg. apply balanced_acquire.
    apply (balanced_defer _ (run_with_db cfg)); [apply opens_wrap, opens_mysql|]. intros db.
    apply (balanced_defer _ (run_with_board cfg db)); [apply opens_wrap, opens_redis|].
    intros board. apply balanced_board. }
  destruct (Hb []) as (t & -> & Ht & Hp). split; [apply Ht|done].
Qed.
End runs.

(** ** Concrete runs *)

Definition plain_fmt : GoFmt :=
  {| fmt_q s := s; fmt_float _ := "float" |}.

(** All is well until a signal; with the migration failing if [broken]. *)
Definition demo_world (env : string → string) (broken : bool) : World := {|
  Getenv := env;
  sql_Open _ := None;
  sql_Ping := None;
  goose_SetDialect := None;
  goose_Up := if broken then Some (ErrorsNew "goose.Err" "migration failed") else None;
  redis_Ping _ _ := None;
  ListenAndServe _ := Signalled;
  srv_Shutdown _ := None |}.

Definition demo_env : string → string :=
  env_of [("MYSQL_DSN", "root@tcp(db)/stagesync"); ("REDIS_ADDR", "redis:6379"); ("SHUTDOWN_TIMEOUT", "20")].

(** A listening server is left out of the comparison. *)
Definition shape (tr : list action) : list action := filter (λ a, is_listen a = false) tr.

Example demo_run_trace :
  shape (@run (demo_world demo_env false) plain_fmt []).2 =
  [Acquire RSignals; Acquire RDatabase; Acquire RBoardClient; Acquire RIdemClient; Acquire RSweeper;
   Draining; Sleep (5 * Second); Shutdown (20 * Second);
   Release RSweeper; Release RIdemClient; Release RBoardClient; Release RDatabase; Release RSignals].
Proof. vm_compute. reflexivity. Qed.

Example demo_broken_trace :
  (@run (demo_world demo_env true) plain_fmt []).2 =
  [Acquire RSignals; Acquire RDatabase; Release RDatabase; Release RSignals].
Proof. vm_compute. reflexivity. Qed.
