(* ===== verification/Server.v ===== *)
(** * The server: routes, chains and services together

    Models how [run] of [cmd/server/main.go] wires the handlers (their [Mount]
    methods) to the services behind the middleware chains. The router
    [go-chi/chi] is an interface with its documented meaning. A request is served
    from its parse to its response; the services' state changes only by calls of
    the services, and the invariants of all components hold after any requests.

    The requests are served one after the other; [ServerThreads] adds the WebSocket route and
    divides all of it into steps that interleave. The profiler is left out. The battle handler works on any applier ([ApplierOps]); the
    invariants are those of the naive one, which [QueueServer] compares with the
    queued one. *)

From S2P Require Import GoLang Strconv Auth Http AppError Decode RateLimit Idempotency Middleware.
From S2P Require Import Gacha GachaService Ranking Event EventService Profile Battle.
From S2P Require Import Endpoint EventEndpoint Room Lifecycle Observe Prometheus.
#[local] Open Scope Z_scope.

(** ** The router *)

(** The segments of a path or a pattern: what is between the slashes. *)
Fixpoint segments_from (cur : string) (s : string) : list string :=
  match s with
  | "" => [cur]
  | String c s' =>
      if bool_decide (c = "/"%char) then cur :: segments_from "" s'
      else segments_from (cur +:+ String c "") s'
  end.
Definition segments (s : string) : list string := segments_from "" s.

(** The name in a segment [{name}] of a pattern. *)
Definition param_name (seg : string) : option string :=
  match seg with
  | String "{" rest =>
      match String.index 0 "}" rest with
      | Some n => if bool_decide (n + 1 = String.length rest)%nat then Some (String.substring 0 n rest) else None
      | None => None
      end
  | _ => None
  end.

(** A parameter takes one segment that is not empty. *)
Fixpoint match_segments (pat path : list string) (params : gmap string string)
    : option (gmap string string) :=
  match pat, path with
  | [], [] => Some params
  | p :: pat', s :: path' =>
      match param_name p with
      | Some name =>
          if bool_decide (s = "") then None else match_segments pat' path' (<[name := s]> params)
      | None => if bool_decide (p = s) then match_segments pat' path' params else None
      end
  | _, _ => None
  end.

Definition match_path (pattern path : string) : option (gmap string string) :=
  match_segments (segments pattern) (segments path) ∅.

(** [find_route] chooses among routes, each a method and a pattern; [no_route] is the
    answer when there is none. *)
Class Router := {
  find_route : list (string * string) → string → string → option (nat * gmap string string);
  no_route : Request → list wcmd }.

Class RouterLaws `{!Router} := {
  route_found : ∀ rs m p i params, find_route rs m p = Some (i, params) →
    ∃ pattern, rs !! i = Some (m, pattern) ∧ match_path pattern p = Some params;
  route_none : ∀ rs m p, find_route rs m p = None →
    Forall (λ '(m', pattern), m' = m → match_path pattern p = None) rs }.

(** ** Routes *)

Inductive endpoint :=
  | MetricsGet | HealthLive | HealthReady | PromScrape | Login | RankingTop | RankingAround
  | ProfileGet | ProfileCreate
  | EventCreate | EventListCurrent | EventGet | EventAddScore | EventGetScore | EventGetRewards
  | OptimizeSet | BattleDamage | GachaRoll | GachaHistory | GachaPity.

(** The [Mount] methods, in the order [run] calls them. *)
Definition MetricsHandler_Mount := [("GET", "/api/metrics", MetricsGet)].
Definition HealthHandler_Mount :=
  [("GET", "/health/live", HealthLive); ("GET", "/health/ready", HealthReady)].
Definition promHandler_Mount := (λ mp, (mp, PromScrape)) <$> PrometheusHandler_Mount.
Definition AuthHandler_Mount := [("POST", "/api/auth/login", Login)].
Definition RankingHandler_Mount :=
  [("GET", "/api/ranking/{eventId}/top", RankingTop);
   ("GET", "/api/ranking/{eventId}/me/{playerId}", RankingAround)].
Definition ProfileHandler_Mount :=
  [("GET", "/api/profile/{id}", ProfileGet); ("POST", "/api/profile", ProfileCreate)].
Definition EventHandler_Mount :=
  [("POST", "/api/event", EventCreate); ("GET", "/api/event/current", EventListCurrent);
   ("GET", "/api/event/{id}", EventGet); ("POST", "/api/event/{id}/score", EventAddScore);
   ("GET", "/api/event/{id}/score/{playerId}", EventGetScore);
   ("GET", "/api/event/{id}/rewards/{playerId}", EventGetRewards)].
Definition OptimizeHandler_Mount := [("POST", "/api/optimize", OptimizeSet)].
Definition BattleHandler_Mount := [("POST", "/api/battle/damage", BattleDamage)].
Definition GachaHandler_Mount :=
  [("POST", "/api/gacha/roll", GachaRoll); ("GET", "/api/gacha/history/{playerId}", GachaHistory);
   ("GET", "/api/gacha/pity/{playerId}/{poolId}", GachaPity)].

Definition public_routes : list (string * string * endpoint) :=
  MetricsHandler_Mount ++ HealthHandler_Mount ++ promHandler_Mount ++ AuthHandler_Mount ++ RankingHandler_Mount ++
  ProfileHandler_Mount ++ EventHandler_Mount ++ OptimizeHandler_Mount ++ BattleHandler_Mount.

Definition protected_routes : list (string * string * endpoint) := GachaHandler_Mount.

(** Every route, and whether it requires a token. *)
Definition routes : list (string * string * (endpoint * bool)) :=
  ((λ '(mp, e), (mp, (e, false))) <$> public_routes) ++ ((λ '(mp, e), (mp, (e, true))) <$> protected_routes).

Definition with_params (r : Request) (params : gmap string string) : Request :=
  {| Method := Method r; URL_Path := URL_Path r; URLParams := params; Query := Query r;
     ReqHeader := ReqHeader r; RemoteAddr := RemoteAddr r; ReqBody := ReqBody r;
     ctx_claims := ctx_claims r; ctx_logger := ctx_logger r |}.

(** ** The services *)

Section services.
Context {PR GR ER L BR F G U : Type}.

(** What the services and handlers keep between requests. *)
Record Services := {
  sv_profile : PR;
  sv_gacha : GR * (G * U);
  sv_event : ER * L;
  sv_battle : BR;
  sv_optimize : Optimize;
  sv_readiness : Readiness;
  sv_room : Room F }.

Definition set_profile x w := {| sv_profile := x; sv_gacha := sv_gacha w; sv_event := sv_event w;
  sv_battle := sv_battle w; sv_optimize := sv_optimize w; sv_readiness := sv_readiness w; sv_room := sv_room w |}.
Definition set_gacha x w := {| sv_profile := sv_profile w; sv_gacha := x; sv_event := sv_event w;
  sv_battle := sv_battle w; sv_optimize := sv_optimize w; sv_readiness := sv_readiness w; sv_room := sv_room w |}.
Definition set_event x w := {| sv_profile := sv_profile w; sv_gacha := sv_gacha w; sv_event := x;
  sv_battle := sv_battle w; sv_optimize := sv_optimize w; sv_readiness := sv_readiness w; sv_room := sv_room w |}.
Definition set_battle x w := {| sv_profile := sv_profile w; sv_gacha := sv_gacha w; sv_event := sv_event w;
  sv_battle := x; sv_optimize := sv_optimize w; sv_readiness := sv_readiness w; sv_room := sv_room w |}.
Definition set_optimize x w := {| sv_profile := sv_profile w; sv_gacha := sv_gacha w; sv_event := sv_event w;
  sv_battle := sv_battle w; sv_optimize := x; sv_readiness := sv_readiness w; sv_room := sv_room w |}.

End services.
Arguments Services : clear implicits.

(** Where the handlers find what they work on in the state [W] of the server:
    [run] gives every handler its service, and services may share a store. *)
Class Stores (W PR GR ER L BR F G U : Type) := {
  st_profile : W → PR; put_profile : PR → W → W;
  st_gacha : W → GR * (G * U); put_gacha : GR * (G * U) → W → W;
  st_event : W → ER * L; put_event : ER * L → W → W;
  st_battle : W → BR; put_battle : BR → W → W;
  st_optimize : W → Optimize; put_optimize : Optimize → W → W;
  st_readiness : W → Readiness;
  st_room : W → Room F }.

(** Storing what is there changes nothing. *)
Class StoresLaws `{!Stores W PR GR ER L BR F G U} := {
  put_st_profile : ∀ w, put_profile (st_profile w) w = w;
  put_st_gacha : ∀ w, put_gacha (st_gacha w) w = w;
  put_st_event : ∀ w, put_event (st_event w) w = w;
  put_st_battle : ∀ w, put_battle (st_battle w) w = w;
  put_st_optimize : ∀ w, put_optimize (st_optimize w) w = w }.

(** Each service with a store of its own. *)
#[export] Instance services_stores {PR GR ER L BR F G U} :
    Stores (Services PR GR ER L BR F G U) PR GR ER L BR F G U := {|
  st_profile := sv_profile; put_profile := set_profile;
  st_gacha := sv_gacha; put_gacha := set_gacha;
  st_event := sv_event; put_event := set_event;
  st_battle := sv_battle; put_battle := set_battle;
  st_optimize := sv_optimize; put_optimize := set_optimize;
  st_readiness := sv_readiness; st_room := sv_room |}.

#[export] Instance services_laws {PR GR ER L BR F G U} :
  StoresLaws (W:=Services PR GR ER L BR F G U).
Proof. by split; intros []. Qed.

Section server.
Context {W PR GR ER L BR B I F G U : Type} `{!Stores W PR GR ER L BR F G U}.
Context `{!ProfileRepository PR, !GachaRepository GR, !EventRepository ER, !RankingStore L,
  !ApplierOps BR, !TokenBucket B, !IdemStore body I}.
Context `{!GoJson, !Vldtr, !JwtLibrary, !Router} {R : Type → Type} `{!PromClient R}.
Context (IntN : RandIntN G) (NewV7 : M U string) (GetPool : string → result Pool).
Context (issuer : option Issuer) (validator : option Validator) (prom : PrometheusHandler (R:=R) (F:=F)) (battleImpl : string).

(** The readings of the clock during one request, whether its context is done, and
    what the histogram holds when it comes. *)
Record readings := {
  rd_chain : request_clock; rd_now : time; rd_now' : time; rd_ctx : option error;
  rd_observations : list observation }.

(** A handler on a part of the state. *)
Definition zoom {S} (get : W → S) (set : S → W → W) (h : Handler S) : Handler W := λ r w,
  let '(cmds, why, s') := h r (get w) in (cmds, why, set s' w).

(** [eventsvc.WithLeaderboard(leaderboard)]: the leaderboard that is also ranked. *)
Definition eventService : EventService L :=
  NewEventService [WithLeaderboard (IncrBy : LeaderboardWriter L)].

Definition on_profile : Handler PR → Handler W := zoom st_profile put_profile.
Definition on_gacha : Handler (GR * (G * U)) → Handler W := zoom st_gacha put_gacha.
Definition on_event : Handler (ER * L) → Handler W := zoom st_event put_event.
Definition on_battle : Handler BR → Handler W := zoom st_battle put_battle.
Definition on_optimize : Handler Optimize → Handler W := zoom st_optimize put_optimize.

(** The handler of an endpoint on its service. *)
Definition handler_of (e : endpoint) (rd : readings) : Handler W :=
  let now := rd_now rd in
  let now' := rd_now' rd in
  match e with
  | MetricsGet => zoom (λ w, (st_room w, st_optimize w)) (λ _ w, w) MetricsHandler_Get
  | HealthLive => HealthHandler_Live
  | HealthReady => zoom (λ w, Some (st_readiness w)) (λ _ w, w) HealthHandler_Ready
  | PromScrape =>
      zoom (λ w, {| sc_room := st_room w; sc_optimize := st_optimize w; sc_observations := rd_observations rd |})
        (λ _ w, w) (PrometheusHandler_ServeHTTP prom)
  | Login => AuthHandler_Login issuer now
  | RankingTop => on_event (RankingHandler_Top (λ ev n, on_snd (RankingService_Top ev n)))
  | RankingAround => on_event (RankingHandler_Around (λ ev p n, on_snd (RankingService_Around ev p n)))
  | ProfileGet => on_profile (ProfileHandler_Get ProfileService_GetProfile)
  | ProfileCreate => on_profile (ProfileHandler_Create (λ id name, ProfileService_CreateProfile id name now))
  | EventCreate => on_event (EventHandler_Create (λ inp, on_fst (EventService_Create inp now)) now')
  | EventListCurrent => on_event (EventHandler_ListCurrent (on_fst (EventService_ListCurrent now)) now')
  | EventGet => on_event (EventHandler_Get (λ id, on_fst (EventService_Get id now)))
  | EventAddScore => on_event (EventHandler_AddScore (λ ev p d, EventService_AddScore eventService ev p d now now'))
  | EventGetScore => on_event (EventHandler_GetScore (λ ev p, on_fst (EventService_GetScore ev p)))
  | EventGetRewards => on_event (EventHandler_GetRewards (λ ev p, on_fst (EventService_GetRewards ev p now now')))
  | OptimizeSet => on_optimize OptimizeHandler_ServeHTTP
  | BattleDamage => on_battle (BattleHandler_ApplyDamage battleImpl (λ p d, Apply (rd_ctx rd) p d))
  | GachaRoll => on_gacha (GachaHandler_Roll (GachaService_Roll IntN NewV7 GetPool now))
  | GachaHistory => on_gacha (GachaHandler_History GachaService_ListHistory)
  | GachaPity => on_gacha (GachaHandler_Pity GachaService_GetPity)
  end.

(** A request through the router and the chain of its group. *)
Definition server (rd : readings) : Handler (option (Limiter B) * (I * W)) := λ r w,
  match find_route routes.*1 (Method r) (URL_Path r) with
  | Some (i, params) =>
      match routes !! i with
      | Some (_, (e, protected)) =>
          let chain := if protected : bool then protected_chain validator (rd_chain rd)
                       else public_chain (rd_chain rd) in
          chain (handler_of e rd) (with_params r params) w
      | None => (no_route r, None, w)
      end
  | None => (no_route r, None, w)
  end.

(** Requests served one after the other. *)
Fixpoint serve_requests (reqs : list (readings * Request)) (w : option (Limiter B) * (I * W))
    : list (option Response) * (option (Limiter B) * (I * W)) :=
  match reqs with
  | [] => ([], w)
  | (rd, r) :: reqs' =>
      let '(resp, w1) := serve (server rd) r w in
      let '(resps, w2) := serve_requests reqs' w1 in (resp :: resps, w2)
  end.

(** ** The calls of the services *)

Inductive service_op :=
  | SProfile (o : profile_op)
  | SEvent (o : event_op)
  | STop (ev : string) (n : Z)
  | SAround (ev p : string) (radius : Z)
  | SRoll (now : time) (p q : string) (n : Z)
  | SHistory (p : string) (limit : Z)
  | SPity (p q : string)
  | SHit (ctx : option error) (p : string) (damage : Z)
  | SOptimize (on : bool).

(** The state after a call. *)
Definition apply_op (o : service_op) (w : W) : W :=
  match o with
  | SProfile o => put_profile (profile_exec o (st_profile w)).2 w
  | SEvent o => put_event (exec eventService o (st_event w)).2 w
  | STop ev n => put_event (on_snd (RankingService_Top ev n) (st_event w)).2 w
  | SAround ev p n => put_event (on_snd (RankingService_Around ev p n) (st_event w)).2 w
  | SRoll now p q n => put_gacha (GachaService_Roll IntN NewV7 GetPool now p q n (st_gacha w)).2 w
  | SHistory p n => put_gacha (GachaService_ListHistory p n (st_gacha w)).2 w
  | SPity p q => put_gacha (GachaService_GetPity p q (st_gacha w)).2 w
  | SHit ctx p d => put_battle (Apply ctx p d (st_battle w)).2 w
  | SOptimize on => put_optimize (Optimize_Set on (st_optimize w)) w
  end.

Definition apply_ops (ops : list service_op) (w : W) : W :=
  foldl (λ w o, apply_op o w) w ops.

(** A body that decodes to a request which passes the validation, and what the
    request says. *)
Definition valid_body {T} (decode : json → option T) (fields : T → list vfield) (r : Request)
    (says : T → Prop) : Prop :=
  ∃ q, DecodeBody decode r = Ok q ∧ all_tags_ok (fields q) ∧ says q.

(** The call an endpoint makes: what its path, query and body ask for. *)
Definition calls_of (e : endpoint) (rd : readings) (r : Request) (o : service_op) : Prop :=
  match e, o with
  | ProfileGet, SProfile (PGet id) => id = URLParam r "id"
  | ProfileCreate, SProfile (PCreate id name now) =>
      now = rd_now rd ∧
      valid_body decode_createReq createReq_fields r (λ q, id = cr_ID q ∧ name = cr_Name q)
  | EventCreate, SEvent (OpCreate inp now) =>
      now = rd_now rd ∧
      valid_body decode_createEventReq createEventReq_fields r (λ q, inp = createInput_of q)
  | EventListCurrent, SEvent (OpListCurrent now) => now = rd_now rd
  | EventGet, SEvent (OpGet id now) => id = URLParam r "id" ∧ now = rd_now rd
  | EventAddScore, SEvent (OpAddScore ev p delta now now') =>
      ev = URLParam r "id" ∧ now = rd_now rd ∧ now' = rd_now' rd ∧
      valid_body decode_addScoreReq addScoreReq_fields r (λ q, p = as_PlayerID q ∧ delta = as_Delta q)
  | EventGetScore, SEvent (OpGetScore ev p) => ev = URLParam r "id" ∧ p = URLParam r "playerId"
  | EventGetRewards, SEvent (OpGetRewards ev p now now') =>
      ev = URLParam r "id" ∧ p = URLParam r "playerId" ∧ now = rd_now rd ∧ now' = rd_now' rd
  | RankingTop, STop ev n =>
      ev = URLParam r "eventId" ∧ n = parseIntQueryDefault r "n" DefaultTopN
  | RankingAround, SAround ev p radius =>
      ev = URLParam r "eventId" ∧ p = URLParam r "playerId" ∧
      radius = parseIntQueryDefault r "radius" DefaultAroundRadius
  | GachaRoll, SRoll now p q n =>
      now = rd_now rd ∧ 1 <= n <= 10 ∧
      valid_body decode_rollReq rollReq_fields r
        (λ req, p = rr_PlayerID req ∧ q = rr_PoolID req ∧ n = rr_Count req)
  | GachaHistory, SHistory p _ => p = URLParam r "playerId"
  | GachaPity, SPity p q => p = URLParam r "playerId" ∧ q = URLParam r "poolId"
  | BattleDamage, SHit ctx p d =>
      ctx = rd_ctx rd ∧ 1 <= d <= MaxDamagePerRequest ∧
      valid_body decode_damageReq damageReq_fields r (λ q, p = dr_TargetPlayer q ∧ d = dr_Damage q)
  | OptimizeSet, SOptimize on => DecodeBody decode_optimizeReq r = Ok on
  | _, _ => False
  end.
End server.

(** ** What a handler does to its state *)

Section shapes.
Context {S : Type}.

(** The state a handler leaves satisfies [P], or is the one it found. *)
Definition leaves (P : S → Prop) (s : S) (out : outcome S) : Prop := out.2 = s ∨ P out.2.

Lemma leaves_answer P cmds s : leaves P s (answer cmds s).
Proof. by left. Qed.

Lemma leaves_respond {A} P (m : M S A) oe oo s : P (m s).2 → leaves P s (respond m oe oo s).
Proof. intros Hp. right. unfold respond. by destruct (m s) as [[] ?]. Qed.

Lemma leaves_valid `{!Vldtr, !VldtrLaws} P fields (k : S → outcome S) s :
  (all_tags_ok fields → leaves P s (k s)) → leaves P s (with_valid fields k s).
Proof.
  intros Hk. unfold with_valid. pose proof (vldtr_Struct_nil fields) as Hv.
  destruct (vldtr_Struct fields); [by apply Hk, Hv|by left].
Qed.

Lemma leaves_body `{!GoJson} {T} P (dec : json → option T) oe (k : T → S → outcome S) r s :
  (∀ q, DecodeBody dec r = Ok q → leaves P s (k q s)) → leaves P s (with_body dec oe k r s).
Proof. intros Hk. unfold with_body. destruct (DecodeBody dec r); [by apply Hk|by left..]. Qed.
End shapes.

Lemma damageReq_range q : all_tags_ok (damageReq_fields q) → 1 <= dr_Damage q <= MaxDamagePerRequest.
Proof.
  unfold all_tags_ok, damageReq_fields. rewrite !(Forall_cons _ (_ : vfield)). cbn [vf_value vf_tags].
  rewrite int_range_ok. tauto.
Qed.

(** A call on the services with their own stores, by components. *)
Ltac own_stores := cbn [apply_op services_stores st_profile put_profile st_gacha put_gacha st_event put_event
  st_battle put_battle st_optimize put_optimize set_profile set_event set_gacha set_battle set_optimize
  sv_profile sv_gacha sv_event sv_battle sv_optimize].

Create Rewrite HintDb stores.
#[export] Hint Rewrite @put_st_profile @put_st_gacha @put_st_event @put_st_battle @put_st_optimize using apply _ : stores.

Section properties.
Context {W PR GR ER L BR B I F G U : Type} `{!Stores W PR GR ER L BR F G U, !StoresLaws}.
Context `{!ProfileRepository PR, !GachaRepository GR, !EventRepository ER, !RankingStore L,
  !ApplierOps BR, !TokenBucket B, !IdemStore body I}.
Context `{!GoJson, !Vldtr, !VldtrLaws, !JwtLibrary, !Router, !RouterLaws} {R : Type → Type} `{!PromClient R}.
Context (IntN : RandIntN G) (NewV7 : M U string) (GetPool : string → result Pool).
Context (issuer : option Issuer) (validator : option Validator) (prom : PrometheusHandler (R:=R) (F:=F)) (battleImpl : string).

Abbreviation call o w := (apply_op IntN NewV7 GetPool o w) (only parsing).

Lemma zoom_calls {S} (get : W → S) set (h : Handler S) e rd r w :
  set (get w) w = w →
  leaves (λ s', ∃ o, calls_of e rd r o ∧ set s' w = call o w) (get w) (h r (get w)) →
  (zoom get set h r w).2 = w ∨ ∃ o, calls_of e rd r o ∧ (zoom get set h r w).2 = call o w.
Proof.
  intros Hset Hl. unfold zoom. destruct (h r (get w)) as [[cmds why] s']. unfold leaves in Hl.
  cbn [snd] in *. destruct Hl as [->|(o & Ho & E)]; [by left|right]. by exists o.
Qed.

(** Down to the call of the service, through the checks before it. *)
Ltac to_call :=
  apply zoom_calls; [by autorewrite with stores|];
  repeat first [apply leaves_answer | apply leaves_body | apply leaves_valid | intros ? | case_bool_decide |
          progress unfold with_event_player, RankingHandler_Top, RankingHandler_Around, ProfileHandler_Get,
            ProfileHandler_Create, EventHandler_Create, EventHandler_ListCurrent, EventHandler_Get,
            EventHandler_AddScore, EventHandler_GetScore, EventHandler_GetRewards,
            BattleHandler_ApplyDamage, GachaHandler_Roll, GachaHandler_History, GachaHandler_Pity];
  try apply leaves_respond.

(** A handler makes at most one call, of its service, within its limits. *)
Lemma handler_calls e rd r w :
  let out := handler_of IntN NewV7 GetPool issuer prom battleImpl e rd r w in
  out.2 = w ∨ ∃ o, calls_of e rd r o ∧ out.2 = call o w.
Proof.
  intros out. subst out. destruct e; cbn [handler_of].
  - by left.
  - by left.
  - left. unfold zoom. simpl. by destruct (Readiness_Ready _).
  - by left.
  - unfold AuthHandler_Login. left. destruct issuer; [|done].
    match goal with |- ?o.2 = _ => assert (leaves (λ s, s = w) w o) as Hl end; [|by destruct Hl].
    apply leaves_body. intros q _. apply leaves_valid. intros _. by apply leaves_respond.
  - to_call. by eexists (STop _ _).
  - to_call. by eexists (SAround _ _ _).
  - to_call. by eexists (SProfile (PGet _)).
  - to_call. eexists (SProfile (PCreate _ _ _)). split; [|done]. split; [done|]. by exists q.
  - to_call. eexists (SEvent (OpCreate _ _)). split; [|done]. split; [done|]. by exists q.
  - to_call. by eexists (SEvent (OpListCurrent _)).
  - to_call. by eexists (SEvent (OpGet _ _)).
  - to_call. exists (SEvent (OpAddScore (URLParam r "id") (as_PlayerID q) (as_Delta q) (rd_now rd) (rd_now' rd))).
    split; [do 3 (split; [done|]); by exists q|]. simpl. by destruct (EventService_AddScore _ _ _ _ _ _ _).
  - to_call. by eexists (SEvent (OpGetScore _ _)).
  - to_call. by eexists (SEvent (OpGetRewards _ _ _ _)).
  - apply zoom_calls; [by autorewrite with stores|]. apply leaves_body. intros on Hon. right. by exists (SOptimize on).
  - to_call. eexists (SHit _ _ _). split; [|done]. split; [done|].
    split; [by apply damageReq_range|]. by exists q.
  - to_call. eexists (SRoll _ _ _ _). split; [|done]. split; [done|]. split; [|by exists q].
    by match goal with Hv : all_tags_ok _ |- _ => apply rollReq_valid in Hv as (_ & _ & ?) end.
  - to_call; by eexists (SHistory _ _).
  - to_call. by eexists (SPity _ _).
Qed.

(** *** The chains run a handler at most once *)

Lemma RateLimit_state {S} now now' (next : Handler S) r ol s :
  (RateLimit (B := B) now now' next r (ol, s)).2.2 = s ∨
  (RateLimit (B := B) now now' next r (ol, s)).2.2 = (next r s).2.
Proof.
  unfold RateLimit. destruct ol as [l|].
  - destruct (Limiter_Allow _ _ _ l) as [[] l']; [right|by left]. by destruct (next r s) as [[??]?].
  - right. by destruct (next r s) as [[??]?].
Qed.

Lemma Idempotency_state {S} clk (next : Handler S) r (i : I) s :
  (Idempotency true clk next r (i, s)).2.2 = s ∨ (Idempotency true clk next r (i, s)).2.2 = (next r s).2.
Proof.
  unfold Idempotency. destruct (negb true || idem_skips r).
  { right. by destruct (next r s) as [[??]?]. }
  assert (∀ k i', (idem_record clk k next r (i', s)).2.2 = (next r s).2) as Hrec.
  { intros k i'. unfold idem_record. destruct (next r s) as [[cmds why] s1].
    destruct (rec_run rec_init cmds). destruct why; [done|]. by destruct (Idem_Set _ _ _ _ i') as [[] ?]. }
  destruct (Idem_Get _ _ i) as [[[e|]|e|p] i']; [by left|right; apply Hrec..|by left].
Qed.

(** Requests that differ at most in the player of their token. *)
Definition same_question (r' r : Request) : Prop :=
  URLParams r' = URLParams r ∧ ReqBody r' = ReqBody r ∧ Query r' = Query r.

Lemma RequireAuth_state {S} ov now (next : Handler S) r s :
  (RequireAuth ov now next r s).2 = s ∨
  ∃ r', same_question r' r ∧ (RequireAuth ov now next r s).2 = (next r' s).2.
Proof.
  unfold RequireAuth. destruct ov as [v|]; [|right; by exists r].
  destruct (bearerTokenFrom r) as [token|]; [|by left].
  destruct (Validator_Validate v token now) as [c|e|p]; [|by left..].
  right. by exists (InjectClaims r c).
Qed.

Lemma calls_of_same e rd r r' o : same_question r' r → calls_of e rd r' o → calls_of e rd r o.
Proof.
  intros (E1 & E2 & E3). destruct e, o as [[]|[]| | | | | | |]; simpl; try done;
    unfold valid_body, DecodeBody, URLParam, parseIntQueryDefault, Query_Get; by rewrite ?E1, ?E2, ?E3.
Qed.

(** A call that a request may make: of the endpoint its method and path lead to. *)
Definition may_call (rd : readings) (r : Request) (o : service_op) : Prop :=
  ∃ i pattern e protected params, routes !! i = Some ((Method r, pattern), (e, protected)) ∧
    match_path pattern (URL_Path r) = Some params ∧ calls_of e rd (with_params r params) o.

Lemma server_calls rd r (w : option (Limiter B) * (I * W)) :
  let out := server IntN NewV7 GetPool issuer validator prom battleImpl rd r w in
  out.2.2.2 = w.2.2 ∨ ∃ o, may_call rd r o ∧ out.2.2.2 = call o w.2.2.
Proof.
  intros out. subst out. unfold server.
  destruct (find_route _ _ _) as [[i params]|] eqn:Hfound; [|by left].
  apply route_found in Hfound as (pattern & Hi & Hm). rewrite list_lookup_fmap in Hi.
  destruct (routes !! i) as [[[m pat] [e protected]]|] eqn:Hr; [|by left].
  simpl in Hi. injection Hi as -> ->. destruct w as [ol [iw s]]. cbn [snd].
  set (h := handler_of _ _ _ _ _ _ e rd). set (r' := with_params r params).
  assert (∀ r1, same_question r1 r' →
    (h r1 s).2 = s ∨ ∃ o, may_call rd r o ∧ (h r1 s).2 = call o s) as Hh.
  { intros r1 E. destruct (handler_calls e rd r1 s) as [?|(o & Ho & E')]; [by left|right].
    exists o. split; [|done]. exists i, pattern, e, protected, params. split_and!; [done|done|].
    by eapply calls_of_same. }
  assert (∀ next : Handler W, ((next r' s).2 = s ∨ ∃ o, may_call rd r o ∧ (next r' s).2 = call o s) →
    let out := public_chain (rd_chain rd) next r' (ol, (iw, s)) in
    out.2.2.2 = s ∨ ∃ o, may_call rd r o ∧ out.2.2.2 = call o s) as Hpublic.
  { intros next Hn. unfold public_chain.
    destruct (RateLimit_state (at_limit (rd_chain rd)) (at_bucket (rd_chain rd))
      (Idempotency true (at_idem (rd_chain rd)) next) r' ol (iw, s)) as [E|E]; cbv zeta; rewrite E; [by left|].
    by destruct (Idempotency_state (at_idem (rd_chain rd)) next r' iw s) as [->| ->]; [left|]. }
  destruct protected; [|by apply Hpublic, Hh].
  apply (Hpublic (RequireAuth validator (at_auth (rd_chain rd)) h)).
  destruct (RequireAuth_state validator (at_auth (rd_chain rd)) h r' s) as [?|(r1 & E & ->)]; [by left|].
  by apply Hh.
Qed.

Lemma serve_state {S} (h : Handler S) r s : (serve h r s).2 = (h r s).2.
Proof. unfold serve. by destruct (h r s) as [[? []] ?]. Qed.

(** C8. The server is its services. Whatever is asked of the server, through the
    router, the rate limiter, the idempotency store, the token check and the
    handlers: the services change only by calls of their operations, at most one
    for each request, the one its method and path lead to, with the arguments its path, query and
    validated body ask for, at its reading of the clock, in the order of the
    requests. *)
Theorem server_refines_services (reqs : list (readings * Request)) (w : option (Limiter B) * (I * W)) :
  ∃ calls : list (option service_op),
    Forall2 (λ '(rd, r) oc, ∀ o, oc = Some o → may_call rd r o) reqs calls ∧
    (serve_requests IntN NewV7 GetPool issuer validator prom battleImpl reqs w).2.2.2 =
      apply_ops IntN NewV7 GetPool (omap id calls) w.2.2.
Proof.
  revert w. induction reqs as [|[rd r] reqs IH]; intros w; [by exists []|].
  cbn [serve_requests].
  pose proof (serve_state (server IntN NewV7 GetPool issuer validator prom battleImpl rd) r w) as Hserve.
  destruct (serve _ r w) as [resp w1]. cbn [snd] in Hserve. subst w1.
  destruct (IH (server IntN NewV7 GetPool issuer validator prom battleImpl rd r w).2) as (calls & Hall & E).
  destruct (serve_requests _ _ _ _ _ _ _ reqs _) as [resps w2]. cbn [snd] in *.
  destruct (server_calls rd r w) as [Hq|(o & Ho & Hq)]; rewrite E, Hq.
  - exists (None :: calls). split; [by constructor|done].
  - exists (Some o :: calls). split; [constructor; [by intros o' [= <-]|done]|done].
Qed.

(** What every call keeps, the server keeps. *)
Lemma serve_requests_ind (P : W → Prop) (reqs : list (readings * Request)) (w : option (Limiter B) * (I * W)) :
  (∀ rd r o s, may_call rd r o → P s → P (call o s)) → P w.2.2 →
  P (serve_requests IntN NewV7 GetPool issuer validator prom battleImpl reqs w).2.2.2.
Proof.
  intros Hstep. revert w. induction reqs as [|[rd r] reqs IH]; intros w Hw; [done|]. cbn [serve_requests].
  pose proof (server_calls rd r w) as Hcalls. cbv zeta in Hcalls.
  pose proof (serve_state (server IntN NewV7 GetPool issuer validator prom battleImpl rd) r w) as Hserve.
  destruct (serve _ r _) as [resp w1]. cbn [snd] in Hserve. subst w1.
  destruct (server _ _ _ _ _ _ _ rd r w) as [out w1]. cbn [snd] in *. specialize (IH w1).
  destruct (serve_requests _ _ _ _ _ _ _ reqs w1) as [resps w2]. cbn [snd] in *. apply IH.
  destruct Hcalls as [->|(o & Ho & ->)]; [done|by eapply Hstep].
Qed.
End properties.

(** ** The invariants of the in-memory server *)

(** Path parameters hold no slash. *)
Lemma segments_from_clean cur s :
  has_char "/" cur = false → Forall (λ seg, has_char "/" seg = false) (segments_from cur s).
Proof.
  revert cur. induction s as [|c s IH]; intros cur Hcur; simpl; [by constructor|].
  case_bool_decide as Hc; [constructor; [done|by apply IH]|]. apply IH.
  rewrite has_char_app, Hcur. simpl. rewrite bool_decide_eq_false_2; [done|congruence].
Qed.

Lemma match_segments_clean pat path params params' :
  match_segments pat path params = Some params' →
  Forall (λ seg, has_char "/" seg = false) path →
  map_Forall (λ _ v, has_char "/" v = false) params → map_Forall (λ _ v, has_char "/" v = false) params'.
Proof.
  revert path params. induction pat as [|p pat IH]; intros [|s path] params; simpl; try done.
  { by intros [= <-]. }
  intros Hm [Hs Hpath]%Forall_cons Hparams. destruct (param_name p) as [name|].
  - case_bool_decide; [done|]. apply (IH _ _ Hm Hpath). by apply map_Forall_insert_2.
  - case_bool_decide; [|done]. by apply (IH _ _ Hm Hpath).
Qed.

Lemma match_path_clean pattern path params name :
  match_path pattern path = Some params → has_char "/" (default "" (params !! name)) = false.
Proof.
  intros Hm. apply match_segments_clean in Hm; [|by apply segments_from_clean|apply map_Forall_empty].
  destruct (params !! name) as [v|] eqn:E; [|done]. by apply (Hm name).
Qed.

Section inmem.
Context {F G U : Type} `{!GoRuntime}.
Context (IntN : RandIntN G) (NewV7 : M U string).
Abbreviation Sv := (Services ProfileRepo GachaRepo EventRepo Leaderboard BattleRepo F G U).
Abbreviation registry := (StaticPoolRegistry_GetPool NewStaticPoolRegistry).

(** The services at start. *)
Definition fresh (gu : G * U) : Sv := {|
  sv_profile := NewProfileRepo;
  sv_gacha := (NewGachaRepo, gu);
  sv_event := (NewEventRepo, NewLeaderboard);
  sv_battle := NewBattleRepo;
  sv_optimize := {| opt_on := false |};
  sv_readiness := NewReadiness;
  sv_room := NewRoom |}.

Definition services_inv (w : Sv) : Prop :=
  gacha_reachable IntN NewV7 registry (sv_gacha w) ∧
  in_step (sv_event w).1 (sv_event w).2 ∧
  ∀ p, 0 <= hp_of (sv_battle w) p <= DefaultInitialHP.

Lemma fresh_inv gu : services_inv (fresh gu).
Proof.
  split_and!.
  - apply gacha_init; [done|]. intros p q. done.
  - intros ev p _. unfold points_of, event_scores. cbn. by rewrite !lookup_empty.
  - intros p. unfold hp_of. simpl. rewrite lookup_empty. simpl. unfold DefaultInitialHP. lia.
Qed.

Lemma Top_state ev n (l : Leaderboard) : (RankingService_Top ev n l).2 = l.
Proof.
  unfold RankingService_Top. destruct (MaxTopN <? _); [done|]. unfold wrapErr. simpl.
  unfold Leaderboard_Top. by repeat case_match.
Qed.

Lemma Around_state ev p n (l : Leaderboard) : (RankingService_Around ev p n l).2 = l.
Proof.
  unfold RankingService_Around. destruct (MaxAroundRadius <? _); [done|]. unfold pass_NotRanked. simpl.
  assert (∀ n, (Leaderboard_Around ev p n l).2 = l) as Hl.
  { intros n'. unfold Leaderboard_Around. by repeat case_match. }
  specialize (Hl (if n <? 0 then DefaultAroundRadius else n)).
  destruct (Leaderboard_Around _ _ _ l) as [[] l']; simpl in *; by repeat case_match.
Qed.

Lemma call_inv `{!GoJson} rd r o w :
  may_call rd r o → services_inv w → services_inv (apply_op IntN NewV7 registry o w).
Proof.
  intros (i & pat & e & b & params & _ & Hm & Hc) (Hg & He & Hb).
  destruct o as [o|o|ev n|ev p n|now p q n|p n|p q|ctx p d|on]; unfold services_inv; own_stores.
  - done.
  - split_and!; [done| |done]. destruct (sv_event w) as [er l].
    assert (op_clean o) as Ho.
    { destruct e, o; simpl in Hc; try done. destruct Hc as [-> _]. simpl. unfold URLParam. simpl.
      by eapply match_path_clean. }
    destruct (exec_wired o er l Ho He) as (acc & r1 & E & Hin & _).
    change (eventService (L:=Leaderboard)) with wired. rewrite E. exact Hin.
  - destruct (sv_event w) as [er l]. unfold on_snd. pose proof (Top_state ev n l) as El.
    destruct (RankingService_Top ev n l). simpl in El. by subst.
  - destruct (sv_event w) as [er l]. unfold on_snd. pose proof (Around_state ev p n l) as El.
    destruct (RankingService_Around ev p n l). simpl in El. by subst.
  - split_and!; [|done|done]. by apply gacha_roll.
  - split_and!; [|done|done]. by apply gacha_list.
  - split_and!; [|done|done]. by apply gacha_get.
  - split_and!; [done|done|]. intros p'.
    assert (1 <= d <= MaxDamagePerRequest) as Hd by (destruct e; try done; apply Hc).
    pose proof (Hb p') as Hp'. unfold Apply, V1Naive_Applier, V1Naive_Apply.
    rewrite (proj2 (damage_refused_false d)) by done.
    pose proof (hp_of_hit ctx p d (sv_battle w) p') as Hh. unfold wrapErr, ApplyDamageNaive.
    cbn [inmem_BattleRepoOps]. unfold BattleRepo_ApplyDamageNaive in *. cbn [snd] in *.
    rewrite Hh by (unfold DefaultInitialHP, int64_half in *; lia). case_decide; lia.
  - done.
Qed.

Context {B I : Type} `{!TokenBucket B, !IdemStore body I}.
Context `{!GoJson, !Vldtr, !VldtrLaws, !JwtLibrary, !Router, !RouterLaws} {R : Type → Type} `{!PromClient R}.
Context (issuer : option Issuer) (validator : option Validator) (prom : PrometheusHandler (R:=R) (F:=F)) (battleImpl : string).

(** C2. The invariants of the whole server. From a start with empty in-memory stores,
    after any requests in any order, with any headers, bodies, tokens, clock
    readings and rate limits, and also after handlers that panicked: every
    player's points in an event are the score the leaderboard ranks; every
    counter is the number of rolls since the last SSR and no ceiling was missed;
    and hit points are between zero and the initial ones. *)
Theorem server_invariant (reqs : list (readings * Request)) (ol : option (Limiter B)) (i : I) (gu : G * U)
    (HIntN : IntN_in_range IntN) :
  let w := (serve_requests IntN NewV7 registry issuer validator prom battleImpl reqs (ol, (i, fresh gu))).2.2.2 in
  (∀ ev p, has_char "/" ev = false →
     points_of (sv_event w).1 ev p = default 0 (event_scores (sv_event w).2 ev !! p)) ∧
  (∀ p, pity_of (sv_gacha w).1 p DemoPoolID = drought (history id p DemoPoolID (gr_rolls (sv_gacha w).1)) ∧
     ceiling_ok 80 (history id p DemoPoolID (gr_rolls (sv_gacha w).1))) ∧
  (∀ p, 0 <= hp_of (sv_battle w) p <= DefaultInitialHP).
Proof.
  assert (services_inv (serve_requests IntN NewV7 registry issuer validator prom battleImpl reqs
    (ol, (i, fresh gu))).2.2.2) as (Hg & He & Hb).
  { apply (serve_requests_ind IntN NewV7 registry issuer validator prom battleImpl services_inv); [intros; by eapply call_inv|apply fresh_inv]. }
  cbv zeta. split; [exact He|]. split; [|exact Hb]. intros p.
  pose proof (reachable_pity_inv IntN NewV7 registry _ HIntN demo_registry_inmem Hg) as Hinv.
  destruct (Hinv p DemoPoolID demo_pool) as (Hpity & Hceil & _); [done|]. by split.
Qed.
End inmem.

(** ** A router, and concrete requests *)

Fixpoint first_match (i : nat) (rs : list (string * string)) (m p : string)
    : option (nat * gmap string string) :=
  match rs with
  | [] => None
  | (m', pattern) :: rs' =>
      if bool_decide (m' = m) then
        match match_path pattern p with
        | Some params => Some (i, params)
        | None => first_match (Datatypes.S i) rs' m p
        end
      else first_match (Datatypes.S i) rs' m p
  end.

Definition first_router : Router :=
  {| find_route := first_match 0; no_route _ := [WriteHeader 404] |}.

Lemma first_match_spec k rs m p :
  match first_match k rs m p with
  | Some (i, params) => ∃ j pattern, i = (k + j)%nat ∧ rs !! j = Some (m, pattern) ∧
      match_path pattern p = Some params
  | None => Forall (λ '(m', pattern), m' = m → match_path pattern p = None) rs
  end.
Proof.
  revert k. induction rs as [|[m' pattern] rs IH]; intros k; simpl; [constructor|].
  specialize (IH (Datatypes.S k)). case_bool_decide as Hm.
  - subst m'. destruct (match_path pattern p) as [params|] eqn:E.
    + exists 0%nat, pattern. split_and!; [lia|done|done].
    + destruct (first_match _ rs m p) as [[i params]|]; [|by constructor].
      destruct IH as (j & pat & -> & Hj & Hp). exists (Datatypes.S j), pat. split_and!; [lia|done|done].
  - destruct (first_match _ rs m p) as [[i params]|]; [|by constructor].
    destruct IH as (j & pat & -> & Hj & Hp). exists (Datatypes.S j), pat. split_and!; [lia|done|done].
Qed.

Definition first_router_laws : @RouterLaws first_router.
Proof.
  split; intros rs m p; [intros i params Hf|intros Hf];
    pose proof (first_match_spec 0 rs m p) as Hs; simpl in Hf; rewrite Hf in Hs; [|done].
  destruct Hs as (j & pattern & -> & Hj & Hp). by exists pattern.
Qed.

Definition request (method path : string) (body : json) : Request := {|
  Method := method; URL_Path := path; URLParams := ∅; Query := ∅; ReqHeader := ∅;
  RemoteAddr := "10.0.0.7:5000"; ReqBody := Ok body; ctx_claims := None; ctx_logger := None |}.

Definition readings_at (t : time) : readings :=
  {| rd_chain := at_time t; rd_now := t; rd_now' := t; rd_ctx := None; rd_observations := [] |}.

Definition demo_GoJson : GoJson :=
  {| parse_time s := Some (Z.of_nat (String.length s) * 10); unmarshal_error _ := "json" |}.

(** An event from 10 to 1000, two scores, a roll, a hit, and the ranking. *)
Definition demo_reqs : list (readings * Request) :=
  [(readings_at 5, request "POST" "/api/event"
      (JObj [("id", JString "e1"); ("name", JString "cup"); ("start_at", JString "x");
             ("end_at", JString (String.concat "" (repeat "xxxxxxxxxx" 10)))]));
   (readings_at 20, request "POST" "/api/event/e1/score" (JObj [("player", JString "miku"); ("delta", JNum 70)]));
   (readings_at 30, request "POST" "/api/event/e1/score" (JObj [("player", JString "miku"); ("delta", JNum 5)]));
   (readings_at 40, request "POST" "/api/gacha/roll"
      (JObj [("player", JString "miku"); ("pool", JString "demo"); ("count", JNum 3)]));
   (readings_at 50, request "POST" "/api/battle/damage"
      (JObj [("target_player", JString "boss"); ("damage", JNum 2500)]));
   (readings_at 60, request "GET" "/api/ranking/e1/top" JNull);
   (readings_at 70, request "GET" "/api/nothing" JNull)].

Definition demo_prom : PrometheusHandler (R:=plain_registry) (F:=unit) :=
  {| ph_reg := all_collectors; ph_httpDurH := duration_histogram |}.

Definition demo_served :=
  @serve_requests _ ProfileRepo GachaRepo EventRepo Leaderboard BattleRepo unit (InmemStore body) unit Z Z
    services_stores _ _ _ _ _ open_bucket _ demo_GoJson reference_vldtr toy_jwt first_router plain_registry _
    lcg fixed_ids demo_registry None None demo_prom "naive" demo_reqs (None, (demo_store, fresh (42, 0))).

Example demo_statuses :
  map (λ resp, match resp with Some x => Some (RespStatus x) | None => None end) demo_served.1 =
  [Some 201; Some 200; Some 200; Some 201; Some 200; Some 200; Some 404].
Proof. vm_compute. reflexivity. Qed.

Lemma server_refines_services_witness :
  ∃ calls : list (option service_op),
    Forall2 (λ '(rd, r) oc, ∀ o, oc = Some o → @may_call demo_GoJson rd r o) demo_reqs calls ∧
    demo_served.2.2.2 =
      apply_ops lcg fixed_ids demo_registry (omap id calls) (fresh (F:=unit) (42, 0)).
Proof.
  exact (@server_refines_services _ ProfileRepo GachaRepo EventRepo Leaderboard BattleRepo unit
    (InmemStore body) unit Z Z services_stores services_laws _ _ _ _ _ open_bucket _ demo_GoJson reference_vldtr reference_vldtr_laws
    toy_jwt first_router first_router_laws plain_registry _ lcg fixed_ids demo_registry None None demo_prom "naive" demo_reqs
    (None, (demo_store, fresh (42, 0)))).
Defined.

Lemma server_invariant_witness :
  default 0 (event_scores (sv_event demo_served.2.2.2).2 "e1" !! "miku") = 75 ∧
  hp_of (sv_battle demo_served.2.2.2) "boss" = 7500 ∧
  points_of (sv_event demo_served.2.2.2).1 "e1" "miku" =
    default 0 (event_scores (sv_event demo_served.2.2.2).2 "e1" !! "miku").
Proof.
  split; [vm_compute; reflexivity|]. split; [vm_compute; reflexivity|].
  destruct (@server_invariant unit Z Z reference_runtime lcg fixed_ids unit (InmemStore body) open_bucket _
    demo_GoJson reference_vldtr reference_vldtr_laws toy_jwt first_router first_router_laws plain_registry _ None None demo_prom "naive"
    demo_reqs None demo_store (42, 0) lcg_in_range) as (Hpoints & _ & _).
  exact (Hpoints "e1" "miku" eq_refl).
Defined.
