(* ===== verification/WellTyped.v ===== *)
(** * Well-typed stores

    What the server keeps is well formed: records are filed under their own
    identifiers, refer to events and cards that exist, hold texts of the lengths and
    numbers of the ranges their columns and Go types have. The operations of
    the services keep it, given requests that passed the validation. *)

From S2P Require Import GoLang Strconv Auth Http AppError Decode RateLimit Idempotency Middleware.
From S2P Require Import Gacha GachaService Ranking Event EventService Profile Battle.
From S2P Require Import Endpoint EventEndpoint Room Lifecycle Observe Prometheus Server.
#[local] Open Scope Z_scope.

(** ** Types of the stores *)

Definition profile_typed (id : string) (p : Profile) : Prop :=
  Profile_ID p = id ∧ text_ok 64 id ∧ text_ok 128 (Profile_Name p).

Definition event_typed (id : string) (e : Event) : Prop :=
  Event_ID e = id ∧ text_ok 64 id ∧ text_ok 128 (Event_Name e) ∧ StartAt e < EndAt e.

Definition tier_typed (id : string) (t : RewardTier) : Prop :=
  Tier_EventID t = id ∧ 1 <= Tier_No t <= 100 ∧ 0 <= MinPoints t ∧ text_ok 128 (RewardName t).

(** A score is filed under its event and player; the event exists. *)
Definition score_typed (events : gmap string Event) (k : string) (sc : EventScore) : Prop :=
  k = scoreKey (Score_EventID sc) (Score_PlayerID sc) ∧ is_Some (events !! Score_EventID sc) ∧
  text_ok 64 (Score_PlayerID sc) ∧ in_int64 (Points sc).

Definition repo_typed (r : EventRepo) : Prop :=
  map_Forall event_typed (er_events r) ∧
  (∀ id, Forall (tier_typed id) (tiers_of r id) ∧ (tiers_of r id ≠ [] → is_Some (er_events r !! id))) ∧
  map_Forall (score_typed (er_events r)) (er_scores r).

(** Ranked scores are those of events that exist. *)
Definition board_typed (events : gmap string Event) (l : Leaderboard) : Prop :=
  ∀ ev p s, event_scores l ev !! p = Some s → is_Some (events !! ev) ∧ text_ok 64 p ∧ in_int64 s.

(** A roll shows a card of the pool with its rarity. *)
Definition roll_typed (r : Roll) : Prop :=
  text_ok 64 (Roll_PlayerID r) ∧ Roll_PoolID r = DemoPoolID ∧
  ∃ c, c ∈ Cards demo_pool ∧ Roll_CardID r = Card_ID c ∧ Roll_Rarity r = Card_Rarity c.

(** A counter is below the ceiling of the pool. *)
Definition gacha_typed (r : GachaRepo) : Prop :=
  Forall roll_typed (gr_rolls r) ∧
  map_Forall (λ k n, (∃ p, text_ok 64 p ∧ k = pityKey p DemoPoolID) ∧ 0 <= n < 80) (gr_pity r).

Definition battle_typed (r : BattleRepo) : Prop :=
  map_Forall (λ p hp, text_ok 64 p ∧ 0 <= hp <= DefaultInitialHP) (hpByPlayer r).

(** ** Operations keep the types *)

Section components.
Context `{!GoRuntime}.

Lemma profile_typed_exec o (r : ProfileRepo) :
  (∀ id name now, o = PCreate id name now → text_ok 64 id ∧ text_ok 128 name) →
  map_Forall profile_typed (pr_items r) → map_Forall profile_typed (pr_items (profile_exec o r).2).
Proof.
  intros Ho Hr id p Hp. rewrite profile_exec_state in Hp.
  destruct (pr_items r !! id) as [p0|] eqn:E; [simplify_eq; by apply Hr|].
  destruct o as [id' name now|id']; [|done]. unfold creations in Hp. simpl in Hp.
  case_decide; simplify_eq/=. by destruct (Ho id name now eq_refl).
Qed.

Lemma repo_typed_create inp now (r : EventRepo) :
  text_ok 64 (In_ID inp) → text_ok 128 (In_Name inp) →
  Forall (λ t, tier_typed (In_ID inp) (tier_for (In_ID inp) t)) (In_Rewards inp) →
  repo_typed r → repo_typed (EventService_Create inp now r).2 ∧
  (∀ id, is_Some (er_events r !! id) → is_Some (er_events (EventService_Create inp now r).2 !! id)).
Proof.
  intros Hid Hname Htiers (He & Ht & Hs). pose proof (Create_run inp now r) as Hrun.
  destruct (decide (In_StartAt inp < In_EndAt inp)) as [Hw|]; [|by rewrite Hrun].
  destruct (er_events r !! In_ID inp) as [e|] eqn:Hnew; [by rewrite Hrun|].
  destruct Hrun as (r' & -> & He' & Hs' & Ht' & Hother). cbn [snd]. unfold repo_typed. rewrite He', Hs'.
  assert (∀ id, is_Some (er_events r !! id) → is_Some (<[In_ID inp := event_of inp now]> (er_events r) !! id)) as Hgrow.
  { intros id Hi. destruct (decide (id = In_ID inp)) as [->|Hne].
    - rewrite lookup_insert_eq. by eexists.
    - by rewrite lookup_insert_ne. }
  split; [|exact Hgrow]. split; [|split].
  - apply map_Forall_insert_2; [done|exact He].
  - intros id. destruct (decide (id = In_ID inp)) as [->|Hne].
    + rewrite Ht', lookup_insert_eq. split; [|by eexists]. apply Forall_app. split; [apply Ht|by apply Forall_fmap].
    + rewrite Hother by done. destruct (Ht id) as [H1 H2]. split; [done|]. intros Hn. by apply Hgrow, H2.
  - intros k sc Hk. destruct (Hs k sc Hk) as (H1 & H2 & H3). split; [done|]. split; [by apply Hgrow|done].
Qed.

Lemma repo_typed_score ev p d now (r : EventRepo) :
  delta_ok d → is_Some (er_events r !! ev) → text_ok 64 p →
  repo_typed r → repo_typed (EventRepo_AddScore ev p d now r).2.
Proof.
  intros Hd Hev Hp (He & Ht & Hs). split; [done|]. split; [done|].
  unfold EventRepo_AddScore. cbn [snd er_scores er_events]. apply map_Forall_insert_2; [|exact Hs].
  destruct (er_scores r !! scoreKey ev p) as [sc|] eqn:Hsc.
  - destruct (Hs _ _ Hsc) as (H1 & H2 & H3 & _). split_and!; try done. apply int_add_range.
  - split_and!; try done. unfold delta_ok, maxScoreDelta in Hd. cbn [Points]. int_range.
Qed.

Lemma board_typed_incr events ev p d (l : Leaderboard) :
  is_Some (events !! ev) → text_ok 64 p →
  board_typed events l → board_typed events (Leaderboard_IncrBy ev p d l).2.
Proof.
  intros Hev Hp Hl ev' p' s Hs. rewrite IncrBy_score in Hs.
  destruct (decide (ev = ev' ∧ p = p')) as [[-> ->]|]; [|by apply Hl].
  injection Hs as <-. split; [done|]. split; [done|]. apply int_add_range.
Qed.

(** The event service with the in-memory leaderboard. *)
Definition events_typed (w : EventRepo * Leaderboard) : Prop :=
  repo_typed w.1 ∧ board_typed (er_events w.1) w.2.

Definition event_op_typed (o : event_op) : Prop :=
  match o with
  | OpCreate inp _ => text_ok 64 (In_ID inp) ∧ text_ok 128 (In_Name inp) ∧
      Forall (λ t, tier_typed (In_ID inp) (tier_for (In_ID inp) t)) (In_Rewards inp)
  | OpAddScore _ p _ _ _ => text_ok 64 p
  | _ => True
  end.

Lemma events_typed_exec o r l :
  event_op_typed o → events_typed (r, l) → events_typed (exec wired o (r, l)).2.
Proof.
  intros Ho [Hr Hl]. cbn [fst snd] in Hr, Hl. destruct o as [inp now|id now|now|ev p d now now'|ev p|ev p n1 n2].
  - destruct Ho as (H1 & H2 & H3). destruct (repo_typed_create inp now r H1 H2 H3 Hr) as [Hr' Hgrow].
    cbn [exec]. unfold on_fst. destruct (EventService_Create inp now r) as [res r']. cbn [snd] in *.
    split; [done|]. intros ev p s Hs. cbn [snd] in Hs. destruct (Hl ev p s Hs) as (He & Hrest).
    split; [by apply Hgrow|done].
  - cbn [exec]. unfold on_fst, EventService_Get. rewrite M_bind_eq, GetEvent_run.
    by destruct (er_events r !! id).
  - done.
  - cbn [exec]. rewrite AddScore_run. destruct (decide (delta_ok d)) as [Hd|]; [|done].
    destruct (er_events r !! ev) as [e|] eqn:He; [|done].
    destruct (decide _); [|done].
    change (events_typed ((EventRepo_AddScore ev p d now' r).2, (Leaderboard_IncrBy ev p d l).2)).
    split; [apply repo_typed_score; [done|by eexists|done|done]|].
    apply board_typed_incr; [by eexists|done|done].
  - cbn [exec]. unfold on_fst, EventService_GetScore. rewrite M_bind_eq, GetEvent_run.
    by destruct (er_events r !! ev).
  - cbn [exec]. unfold on_fst, EventService_GetRewards. rewrite M_bind_eq, GetEvent_run.
    by destruct (er_events r !! ev).
Qed.

Lemma battle_typed_hit ctx p d (r : BattleRepo) :
  text_ok 64 p → 1 <= d <= MaxDamagePerRequest →
  battle_typed r → battle_typed (V1Naive_Apply ctx p d r).2.
Proof.
  intros Hp Hd Hr. unfold V1Naive_Apply. rewrite (proj2 (damage_refused_false d)) by done.
  unfold wrapErr, ApplyDamageNaive. cbn [inmem_BattleRepoOps]. unfold BattleRepo_ApplyDamageNaive. cbn [snd].
  apply map_Forall_insert_2; [|exact Hr]. split; [done|].
  assert (0 <= default DefaultInitialHP (hpByPlayer r !! p) <= DefaultInitialHP) as Hhp.
  { destruct (hpByPlayer r !! p) as [hp|] eqn:E; [by apply (Hr p hp E)|]. unfold DefaultInitialHP. simpl. lia. }
  unfold MaxDamagePerRequest, DefaultInitialHP in *.
  rewrite int_sub_small by int_range. destruct (Z.ltb_spec (default 10000 (hpByPlayer r !! p) - d) 0); lia.
Qed.
End components.

Section gacha.
Context {G U : Type} (IntN : RandIntN G) (NewV7 : M U string).
Abbreviation registry := (StaticPoolRegistry_GetPool NewStaticPoolRegistry).

Lemma demo_pool_only q pool : registry q = Ok pool → q = DemoPoolID ∧ pool = demo_pool.
Proof. exact (demo_registry_pool q pool). Qed.

Lemma gacha_typed_roll now p q n (r : GachaRepo) (gu : G * U) :
  IntN_in_range IntN → pity_inv registry r → text_ok 64 p →
  gacha_typed r → gacha_typed (GachaService_Roll IntN NewV7 registry now p q n (r, gu)).2.1.
Proof.
  intros HIntN Hinv Hp [Hr Hk]. unfold GachaService_Roll.
  destruct ((n <? 1) || (10 <? n)); [by split|].
  rewrite M_bind_eq, wrapErr_lift. destruct (registry q) as [pool|e|x] eqn:Hpool; [|by split..].
  destruct (demo_pool_only q pool Hpool) as [-> ->].
  case_bool_decide; [by split|]. rewrite M_bind_eq. cbn [on_fst wrapErr GetPity inmem_GachaRepository GachaRepo_GetPity].
  destruct (Hinv p DemoPoolID demo_pool Hpool) as (Hpity & Hceil & Hlt).
  change (pity_of r p DemoPoolID) with (default 0 (gr_pity r !! pityKey p DemoPoolID)) in Hpity.
  rewrite M_bind_eq. unfold on_snd. rewrite Hpity.
  destruct (roll_loop _ _ _ _ _ _ _ _ _ gu) as [res gu'] eqn:Hloop.
  destruct res as [[rolls pity']|e|x]; [|by split..].
  destruct (roll_loop_spec IntN NewV7 HIntN (λ r, r) _ demo_pool p DemoPoolID now _ [] gu rolls pity' gu'
    (λ r, conj eq_refl eq_refl) demo_pool_ok Hceil Hlt Hloop) as (new & -> & _ & Hnew & -> & _ & Hlt').
  cbn. split; cbn [gr_rolls gr_pity].
  - apply Forall_app. split; [done|]. eapply Forall_impl; [exact Hnew|].
    intros x ([Hxp Hxq] & _ & c & Hc & _ & Hid & Hrar). split; [by rewrite Hxp|]. split; [done|]. by exists c.
  - apply map_Forall_insert_2; [|exact Hk]. split; [by exists p|].
    split; [apply drought_nonneg|exact Hlt'].
Qed.
End gacha.

(** ** The server *)

Section server.
Context {F G U : Type} `{!GoRuntime} (IntN : RandIntN G) (NewV7 : M U string).
Abbreviation Sv := (Services ProfileRepo GachaRepo EventRepo Leaderboard BattleRepo F G U).
Abbreviation registry := (StaticPoolRegistry_GetPool NewStaticPoolRegistry).

Definition services_typed (w : Sv) : Prop :=
  map_Forall profile_typed (pr_items (sv_profile w)) ∧
  gacha_typed (sv_gacha w).1 ∧
  events_typed (sv_event w) ∧
  battle_typed (sv_battle w).

Lemma fresh_typed gu : services_typed (fresh gu).
Proof.
  split_and!; try apply map_Forall_empty.
  - split; [constructor|apply map_Forall_empty].
  - split; [|intros ev p s Hs; unfold event_scores in Hs; cbn in Hs; by rewrite !lookup_empty in Hs].
    split; [apply map_Forall_empty|]. split; [|apply map_Forall_empty].
    intros id. unfold tiers_of. cbn. rewrite lookup_empty. by split.
Qed.

Lemma text_tags_ok name v tags fs :
  all_tags_ok ({| vf_name := name; vf_value := v; vf_tags := tags |} :: fs) ↔
  Forall (λ t, tag_ok v t = true) tags ∧ all_tags_ok fs.
Proof. exact (Forall_cons (λ f, Forall (λ t, tag_ok (vf_value f) t = true) (vf_tags f)) _ fs). Qed.

(** What the tags of the requests that are stored say. *)
Lemma createReq_ok q : all_tags_ok (createReq_fields q) → text_ok 64 (cr_ID q) ∧ text_ok 128 (cr_Name q).
Proof. unfold createReq_fields, id_tags, name_tags. rewrite !text_tags_ok, !string_tags_ok. tauto. Qed.

Lemma damageReq_ok q : all_tags_ok (damageReq_fields q) → text_ok 64 (dr_TargetPlayer q).
Proof. unfold damageReq_fields, id_tags. rewrite !text_tags_ok, !string_tags_ok. tauto. Qed.

Lemma createEventReq_ok q :
  all_tags_ok (createEventReq_fields q) →
  text_ok 64 (ce_ID q) ∧ text_ok 128 (ce_Name q) ∧
  Forall (λ t, tier_typed (ce_ID q) (tier_for (ce_ID q) t)) (In_Rewards (createInput_of q)).
Proof.
  unfold createEventReq_fields, id_tags, name_tags. rewrite <- !app_comm_cons, app_nil_l, !text_tags_ok, !string_tags_ok.
  intros (H1 & H2 & _ & _ & Hts). split; [done|]. split; [done|]. cbn [createInput_of In_Rewards].
  apply Forall_fmap. induction (ce_Rewards q) as [|t ts IH]; [constructor|].
  cbn [mbind list_bind] in Hts. unfold all_tags_ok in Hts. rewrite Forall_app in Hts.
  destruct Hts as [Ht Hts]. constructor; [|by apply IH].
  fold (all_tags_ok (rewardTierReq_fields t)) in Ht. unfold rewardTierReq_fields, name_tags in Ht.
  rewrite !text_tags_ok, !string_tags_ok, int_range_ok, Forall_singleton in Ht. cbn [tag_ok] in Ht.
  destruct Ht as (Ha & Hb & Hc & _). cbn [compose tier_for tier_typed]. split_and!; simpl; done || lia.
Qed.

Lemma call_typed `{!GoJson} rd r o (w : Sv) :
  IntN_in_range IntN → may_call rd r o →
  services_inv IntN NewV7 w → services_typed w → services_typed (apply_op IntN NewV7 registry o w).
Proof.
  intros HIntN (i & pat & e & b & params & _ & _ & Hc) (Hg & _ & _) (H1 & H2 & H3 & H4).
  destruct o as [o|o|ev n|ev p n|now p q n|p n|p q|ctx p d|on]; unfold services_typed; own_stores.
  - split_and!; try done. apply profile_typed_exec; [|done]. intros id name now ->.
    destruct e; simpl in Hc; try done. destruct Hc as (_ & q & _ & Hok & -> & ->). by apply createReq_ok.
  - split_and!; try done; [|by destruct H3..]. 
    destruct (sv_event w) as [er l]. apply events_typed_exec; [|done].
    destruct e, o; simpl in Hc; try done; simpl.
    + destruct Hc as (_ & q & _ & Hok & ->). by apply createEventReq_ok.
    + destruct Hc as (_ & _ & _ & q & _ & Hok & -> & _). by apply addScoreReq_valid.
  - split_and!; try done. destruct (sv_event w) as [er l]. unfold on_snd.
    pose proof (Top_state ev n l) as El. destruct (RankingService_Top ev n l). simpl in El. by subst.
  - split_and!; try done. destruct (sv_event w) as [er l]. unfold on_snd.
    pose proof (Around_state ev p n l) as El. destruct (RankingService_Around ev p n l). simpl in El. by subst.
  - split_and!; try done. destruct e; simpl in Hc; try done.
    destruct Hc as (_ & _ & req & _ & Hok & -> & _ & _).
    pose proof (reachable_pity_inv IntN NewV7 registry _ HIntN demo_registry_inmem Hg) as Hinv.
    destruct (sv_gacha w) as [gr gu]. apply gacha_typed_roll; [done|done| |done].
    by apply rollReq_valid in Hok as [? _].
  - split_and!; try done. destruct (sv_gacha w) as [gr gu]. by rewrite ListHistory_state.
  - split_and!; try done. destruct (sv_gacha w) as [gr gu]. by rewrite GetPity_call_state.
  - split_and!; try done. destruct e; simpl in Hc; try done.
    destruct Hc as (_ & Hd & q & _ & Hok & -> & _). apply battle_typed_hit; [|done|done]. by apply damageReq_ok.
  - done.
Qed.

Context {B I : Type} `{!TokenBucket B, !IdemStore body I}.
Context `{!GoJson, !Vldtr, !VldtrLaws, !JwtLibrary, !Router, !RouterLaws} {R : Type → Type} `{!PromClient R}.
Context (issuer : option Issuer) (validator : option Validator) (prom : PrometheusHandler (R:=R) (F:=F)) (battleImpl : string).

(** C18. Whatever requests a server that started empty has answered, its stores
    are well typed: every profile and event is filed under its own identifier,
    of at most 64 characters, and every window ends after it starts; reward
    tiers, scores and ranked players belong to an event that exists, the tiers
    numbered 1 to 100 with a threshold that is not negative; points and scores
    are 64-bit integers; every roll shows a card of the demo pool with that card's
    rarity; every pity counter belongs to a player and is below the ceiling;
    and hit points are between zero and the initial ones. *)
Theorem server_well_typed (reqs : list (readings * Request)) (ol : option (Limiter B)) (i : I) (gu : G * U)
    (HIntN : IntN_in_range IntN) :
  services_typed (serve_requests IntN NewV7 registry issuer validator prom battleImpl reqs (ol, (i, fresh gu))).2.2.2.
Proof.
  assert (∀ w, services_inv IntN NewV7 w → services_typed w →
    services_inv IntN NewV7
      (serve_requests IntN NewV7 registry issuer validator prom battleImpl reqs (ol, (i, w))).2.2.2 ∧
    services_typed
      (serve_requests IntN NewV7 registry issuer validator prom battleImpl reqs (ol, (i, w))).2.2.2) as Hrun.
  { intros w Hw1 Hw2. apply (serve_requests_ind IntN NewV7 registry issuer validator prom battleImpl
      (λ s, services_inv IntN NewV7 s ∧ services_typed s)); [|done].
    intros rd r o s Ho [Hi Ht]. split; [by eapply call_inv|by eapply call_typed]. }
  by apply Hrun; [apply fresh_inv|apply fresh_typed].
Qed.
End server.

(** ** The demonstration run *)

(** After the requests of [demo_reqs], the one event is a well-typed one and
    every card rolled is a card of the pool. *)
Lemma server_well_typed_witness :
  (∃ e, er_events (sv_event demo_served.2.2.2).1 !! "e1" = Some e ∧ event_typed "e1" e) ∧
  length (gr_rolls (sv_gacha demo_served.2.2.2).1) = 3%nat ∧
  Forall roll_typed (gr_rolls (sv_gacha demo_served.2.2.2).1).
Proof.
  destruct (@server_well_typed unit Z Z reference_runtime lcg fixed_ids unit (InmemStore body) open_bucket _
    demo_GoJson reference_vldtr reference_vldtr_laws toy_jwt first_router first_router_laws plain_registry _ None None demo_prom "naive"
    demo_reqs None demo_store (42, 0) lcg_in_range) as (_ & [Hrolls _] & [[Hev _] _] & _).
  split; [|split; [vm_compute; reflexivity|exact Hrolls]].
  assert (∃ e, er_events (sv_event demo_served.2.2.2).1 !! "e1" = Some e) as [e He].
  { eexists. vm_compute. reflexivity. }
  exists e. split; [exact He|apply (Hev "e1" e He)].
Defined.
