(* ===== verification/Stack.v ===== *)
(** * The whole stack of middlewares

    The complete chain of [run] in [cmd/server/main.go], outermost first: request
    logger, request metrics, recoverer, and behind them the server of [Server]
    with its router, rate limit, idempotency and token check. The histogram that
    the middleware fills is the one that [/metrics] reads. *)

From S2P Require Import GoLang Strconv Auth Http AppError Decode RateLimit Idempotency Middleware.
From S2P Require Import Gacha GachaService Ranking Event EventService Profile Battle.
From S2P Require Import Endpoint EventEndpoint Room Lifecycle Config Observe Prometheus Server.
#[local] Open Scope Z_scope.

(** A request with the readings of the clock by the logger and the metrics, and
    those behind them. *)
Record arrival := {
  ar_logged : time; ar_observed : time; ar_observed' : time; ar_logged' : time;
  ar_readings : readings;
  ar_request : Request }.

(** The readings when the histogram holds [obs]. *)
Definition with_observations (obs : list observation) (rd : readings) : readings := {|
  rd_chain := rd_chain rd; rd_now := rd_now rd; rd_now' := rd_now' rd; rd_ctx := rd_ctx rd;
  rd_observations := obs |}.

(** [RoutePattern]: "the routing pattern string for the particular request". *)
Class RoutePatternLaws `{!ChiMiddleware, !Router} := {
  RoutePattern_routed : ∀ r, RoutePattern r =
    match find_route routes.*1 (Method r) (URL_Path r) with
    | Some (i, _) => default "" (snd <$> routes.*1 !! i)
    | None => ""
    end }.

Section stack.
Context {W PR GR ER L BR B I F G U : Type} `{!Stores W PR GR ER L BR F G U, !StoresLaws}.
Context `{!ProfileRepository PR, !GachaRepository GR, !EventRepository ER, !RankingStore L,
  !ApplierOps BR, !TokenBucket B, !IdemStore body I}.
Context `{!GoJson, !Vldtr, !VldtrLaws, !JwtLibrary, !Router, !RouterLaws} {R : Type → Type} `{!PromClient R}.
Context `{!ChiMiddleware, !ChiLaws, !RoutePatternLaws}.
Context (IntN : RandIntN G) (NewV7 : M U string) (GetPool : string → result Pool).
Context (issuer : option Issuer) (validator : option Validator) (prom : PrometheusHandler (R:=R) (F:=F)) (battleImpl : string).
Context (cfg : Config).
Abbreviation base := (server_logger cfg).

Abbreviation inner := (server IntN NewV7 GetPool issuer validator prom battleImpl).
Abbreviation state := (option (Limiter B) * (I * W))%type.

Definition stack (a : arrival) (w : list log_line * (list observation * state))
    : outcome (list log_line * (list observation * state)) :=
  observed base (ar_logged a) (ar_observed a) (ar_observed' a) (ar_logged' a)
    (inner (with_observations w.2.1 (ar_readings a))) (ar_request a) w.

(** Requests one after the other: what each of them is answered. *)
Fixpoint stack_all (reqs : list arrival) (w : list log_line * (list observation * state))
    : list (list wcmd * option string) * (list log_line * (list observation * state)) :=
  match reqs with
  | [] => ([], w)
  | a :: reqs' =>
      let '(out, w1) := stack a w in
      let '(outs, w2) := stack_all reqs' w1 in (out :: outs, w2)
  end.

(** The label of the route that a request takes. *)
Definition route_label (r : Request) : string :=
  match find_route routes.*1 (Method r) (URL_Path r) with
  | Some (i, _) => default "(unknown)" (snd <$> routes.*1 !! i)
  | None => "(unknown)"
  end.

(** The line and the observation of a request, given how it ended. *)
Definition accounted (a : arrival) (out : list wcmd * option string)
    (report : log_line * option observation) : Prop :=
  let '(line, oo) := report in
  ll_attrs line = lg_attrs (request_logger base (ar_request a)) ∧
  match out.2 with
  | None => ∃ o, oo = Some o ∧ ob_method o = Method (ar_request a) ∧ ob_path o = route_label (ar_request a) ∧
      ob_status o = Itoa (ll_status line) ∧
      ∀ status, sent_status out.1 = Some status → ll_status line = status ∧ RespStatus (render out.1) = status
  | Some p => p = http_ErrAbortHandler ∧ oo = None
  end.

Lemma routes_labelled i mp : routes.*1 !! i = Some mp → mp.2 ≠ "".
Proof.
  intros Hi%list_elem_of_lookup_2.
  assert (Forall (λ mp : string * string, mp.2 ≠ "") routes.*1) as Hall by (repeat constructor; done).
  by rewrite Forall_forall in Hall; apply Hall.
Qed.

Lemma pattern_label r :
  (if bool_decide (RoutePattern r = "") then "(unknown)" else RoutePattern r) = route_label r.
Proof.
  rewrite RoutePattern_routed. unfold route_label. destruct (find_route _ _ _) as [[i params]|]; [|done].
  destruct (routes.*1 !! i) as [mp|] eqn:Hi; [|done]. simpl.
  rewrite bool_decide_eq_false_2; [done|by eapply routes_labelled].
Qed.

Lemma may_call_logged rd r o obs : may_call (with_observations obs rd) (logged base r) o → may_call rd r o.
Proof.
  intros (i & pat & e & b & params & Hi & Hm & Hc). exists i, pat, e, b, params. split; [done|]. split; [done|].
  eapply (calls_of_same _ _ (with_params r params)) in Hc; [|done]. by destruct e.
Qed.

(** One request: its line, its observation, and what the server did. *)
Lemma stack_step a logs obs (s : state) :
  ∃ out line oo s', stack a (logs, (obs, s)) = (out, (logs ++ written base LevelInfo [line], (obs ++ option_list oo, s'))) ∧
    accounted a out (line, oo) ∧
    (s'.2.2 = s.2.2 ∨ ∃ o, may_call (ar_readings a) (ar_request a) o ∧ s'.2.2 = apply_op IntN NewV7 GetPool o s.2.2).
Proof.
  unfold stack. cbn [fst snd]. set (h := inner _). set (r := ar_request a).
  assert ((h (logged base r) s).2.2.2 = s.2.2 ∨
    ∃ o, may_call (ar_readings a) r o ∧ (h (logged base r) s).2.2.2 = apply_op IntN NewV7 GetPool o s.2.2) as Hcalls.
  { destruct (server_calls IntN NewV7 GetPool issuer validator prom battleImpl
      (with_observations obs (ar_readings a)) (logged base r) s) as [?|(o & Ho & E)]; [by left|right].
    exists o. split; [by eapply may_call_logged|done]. }
  destruct (decide ((h (logged base r) s).1.2 = Some http_ErrAbortHandler)) as [Habort|Hno].
  - unfold observed, RequestLogger, RequestMetrics. fold (logged base r). rewrite (Recoverer_abort _ h _ s Habort).
    destruct (h (logged base r) s) as [[cmds why] s']. cbn [fst snd] in *. subst why.
    do 2 eexists. exists None, s'. cbn [option_list]. rewrite app_nil_r. by split_and!.
  - destruct (observed_step base (ar_logged a) (ar_observed a) (ar_observed' a) (ar_logged' a) h r logs obs s Hno)
      as (line & o & out & E & Hout & _ & _ & Hst & Ho & Hattrs & _ & Hm & _).
    exists out, line, (Some o). eexists. split; [exact E|]. split; [|exact Hcalls].
    split; [done|]. rewrite Hout. exists o. split; [done|]. split; [done|]. split; [|split; [done|]].
    + assert (ob_path o = route_label (logged base r)) as ->; [|done]. rewrite <- pattern_label.
      unfold observed, RequestLogger, RequestMetrics in E. fold (logged base r) in E.
      destruct (Recoverer h (logged base r) s) as [[cmds []] s']; injection E as _ _ Ho1 _.
      * by apply (f_equal length) in Ho1; rewrite length_app in Ho1; simpl in Ho1; lia.
      * apply app_inj_tail in Ho1 as [_ <-]. done.
    + intros status Hs. rewrite <- (Hst status Hs). cut (RespStatus (render out.1) = status); [done|].
      unfold render, response_of, sent_status in *. destruct (w_sent _) as [[c hd]|]; [|done]. by injection Hs.
Qed.

(** The requests, one after the other. *)
Lemma stack_all_run (reqs : list arrival) (logs : list log_line) (obs : list observation) (s : state) :
  let '(outs, (logs', (obs', s'))) := stack_all reqs (logs, (obs, s)) in
  ∃ (reports : list (log_line * option observation)) (calls : list (option service_op)),
    logs' = logs ++ written base LevelInfo reports.*1 ∧ obs' = obs ++ omap snd reports ∧ Forall3 accounted reqs outs reports ∧
    Forall2 (λ a oc, ∀ o, oc = Some o → may_call (ar_readings a) (ar_request a) o) reqs calls ∧
    s'.2.2 = apply_ops IntN NewV7 GetPool (omap id calls) s.2.2.
Proof.
  revert logs obs s. induction reqs as [|a reqs IH]; intros logs obs s.
  { exists [], []. rewrite fmap_nil, written_nil, !app_nil_r. split_and!; constructor. }
  cbn [stack_all]. destruct (stack_step a logs obs s) as (out & line & oo & s1 & -> & Hacc & Hcall).
  specialize (IH (logs ++ written base LevelInfo [line]) (obs ++ option_list oo) s1).
  destruct (stack_all reqs _) as [outs [logs' [obs' s']]].
  destruct IH as (reports & calls & -> & -> & Hall & Hcalls & ->).
  assert (∃ oc, (∀ o, oc = Some o → may_call (ar_readings a) (ar_request a) o) ∧
    s1.2.2 = apply_ops IntN NewV7 GetPool (omap id [oc]) s.2.2) as (oc & Hoc & ->).
  { destruct Hcall as [->|(o & Ho & ->)]; [by exists None|]. exists (Some o). split; [by intros o' [= <-]|done]. }
  exists ((line, oo) :: reports), (oc :: calls). rewrite <- !app_assoc. split_and!.
  - by rewrite (written_app base LevelInfo [line] reports.*1 : written base LevelInfo ((line, oo) :: reports).*1 = _).
  - by destruct oo.
  - by constructor.
  - by constructor.
  - by destruct oc.
Qed.

(** C10. The whole stack. Whatever the requests, in whatever state: each adds exactly one
    line to the access log, with its method and path (none at all when the server is
    configured to log only warnings or errors), and, unless it was aborted,
    exactly one observation to the histogram, in their order, with its method, the
    pattern of the route it took ([(unknown)] for none) and the status of the
    line, which is the one the client gets; no panic but the one that aborts a
    request leaves the stack. Behind the middlewares the services change only by
    the calls the requests may make, at most one for each, in their order. *)
Theorem stack_serves (reqs : list arrival) (logs : list log_line) (obs : list observation) (s : state) :
  let '(outs, (logs', (obs', s'))) := stack_all reqs (logs, (obs, s)) in
  ∃ (reports : list (log_line * option observation)) (calls : list (option service_op)),
    logs' = logs ++ (if bool_decide (LogLevel cfg ∈ ["warn"; "error"]) then [] else reports.*1) ∧ obs' = obs ++ omap snd reports ∧ Forall3 accounted reqs outs reports ∧
    Forall2 (λ a oc, ∀ o, oc = Some o → may_call (ar_readings a) (ar_request a) o) reqs calls ∧
    s'.2.2 = apply_ops IntN NewV7 GetPool (omap id calls) s.2.2.
Proof.
  pose proof (stack_all_run reqs logs obs s) as Hrun. destruct (stack_all reqs _) as [outs [logs' [obs' s']]].
  destruct Hrun as (reports & calls & Hlogs & Hrun). exists reports, calls. by rewrite <- server_logger_writes.
Qed.
End stack.

(** ** A run *)

Definition routed_chi : ChiMiddleware := {|
  GetReqID _ := "host/1";
  RoutePattern r :=
    match @find_route first_router routes.*1 (Method r) (URL_Path r) with
    | Some (i, _) => default "" (snd <$> routes.*1 !! i)
    | None => ""
    end;
  ww_Status := @ww_Status plain_chi;
  ww_BytesWritten := @ww_BytesWritten plain_chi;
  Recoverer := @Recoverer plain_chi |}.

Definition routed_chi_laws : @ChiLaws routed_chi.
Proof. split; apply plain_chi_laws. Defined.

Definition demo_arrivals : list arrival :=
  (λ '(rd, r), {| ar_logged := 0; ar_observed := 1; ar_observed' := 2; ar_logged' := 3;
                  ar_readings := rd; ar_request := r |})
    <$> demo_reqs ++ [(readings_at 80, request "GET" "/metrics" JNull)].

Definition demo_cfg : Config := load_env (λ _, "").

Definition demo_stack :=
  @stack_all _ ProfileRepo GachaRepo EventRepo Leaderboard BattleRepo unit (InmemStore body) unit Z Z
    services_stores _ _ _ _ _ open_bucket _ demo_GoJson reference_vldtr toy_jwt first_router plain_registry _
    routed_chi lcg fixed_ids demo_registry None None demo_prom "naive" demo_cfg
    demo_arrivals ([], ([], (None, (demo_store, fresh (42, 0))))).

Lemma stack_serves_witness :
  (label_values <$> demo_stack.2.2.1) !! 1%nat = Some ["POST"; "/api/event/{id}/score"; "200"] ∧
  (label_values <$> demo_stack.2.2.1) !! 6%nat = Some ["GET"; "(unknown)"; "404"] ∧
  ∃ reports : list (log_line * option observation),
    demo_stack.2.1 = reports.*1 ∧ Forall3 (@accounted first_router routed_chi demo_cfg) demo_arrivals demo_stack.1 reports.
Proof.
  split; [vm_compute; reflexivity|]. split; [vm_compute; reflexivity|].
  pose proof (@stack_serves _ ProfileRepo GachaRepo EventRepo Leaderboard BattleRepo unit (InmemStore body) unit Z Z
    services_stores services_laws _ _ _ _ _ open_bucket _ demo_GoJson reference_vldtr reference_vldtr_laws toy_jwt
    first_router first_router_laws plain_registry _ routed_chi routed_chi_laws
    (Build_RoutePatternLaws routed_chi first_router (λ r, eq_refl)) lcg fixed_ids demo_registry None None demo_prom
    "naive" demo_cfg demo_arrivals [] [] (None, (demo_store, fresh (42, 0)))) as H.
  change (stack_all _ _ _ _ _ _ _ _ demo_arrivals _) with demo_stack in H.
  destruct demo_stack as [outs [logs [obs s]]]. destruct H as (reports & calls & H1 & _ & H3 & _).
  exists reports. split; [exact H1|exact H3].
Defined.
