(* ===== verification/SqlServer.v ===== *)
(** * The server on MySQL

    With [MYSQL_DSN] set, [buildRepos] and [buildBattleRepo] of
    [cmd/server/main.go] give every service a repository on one database, and the
    server of [Server] runs on it. Statements, commits and replies may fail at any
    time. What the services guarantee on MySQL one by one holds for the server as
    a whole, since no service writes the tables of another. *)

From S2P Require Import GoLang Strconv Auth Http AppError Decode RateLimit Idempotency Middleware.
From S2P Require Import Gacha GachaService Ranking Event EventService Profile Battle.
From S2P Require Import Endpoint EventEndpoint Room Lifecycle Observe Prometheus.
From S2P Require Import Sql SqlGacha SqlEvent SqlProfile SqlBattle Server.
#[local] Open Scope Z_scope.

(** ** One database for all repositories *)

Section deployed.
Context {D L F G U : Type}.

(** What the server keeps: the database, the sources of randomness, the
    leaderboard, the flags and the room. *)
Record Deployed := {
  dp_db : D;
  dp_rand : G * U;
  dp_board : L;
  dp_optimize : Optimize;
  dp_readiness : Readiness;
  dp_room : Room F }.

Definition set_db d w := {| dp_db := d; dp_rand := dp_rand w; dp_board := dp_board w;
  dp_optimize := dp_optimize w; dp_readiness := dp_readiness w; dp_room := dp_room w |}.
Definition set_db_rand (x : D * (G * U)) w := {| dp_db := x.1; dp_rand := x.2; dp_board := dp_board w;
  dp_optimize := dp_optimize w; dp_readiness := dp_readiness w; dp_room := dp_room w |}.
Definition set_db_board (x : D * L) w := {| dp_db := x.1; dp_rand := dp_rand w; dp_board := x.2;
  dp_optimize := dp_optimize w; dp_readiness := dp_readiness w; dp_room := dp_room w |}.
Definition set_flag o w := {| dp_db := dp_db w; dp_rand := dp_rand w; dp_board := dp_board w;
  dp_optimize := o; dp_readiness := dp_readiness w; dp_room := dp_room w |}.

#[export] Instance deployed_stores : Stores Deployed D D D L D F G U := {|
  st_profile := dp_db; put_profile := set_db;
  st_gacha w := (dp_db w, dp_rand w); put_gacha := set_db_rand;
  st_event w := (dp_db w, dp_board w); put_event := set_db_board;
  st_battle := dp_db; put_battle := set_db;
  st_optimize := dp_optimize; put_optimize := set_flag;
  st_readiness := dp_readiness; st_room := dp_room |}.

#[export] Instance deployed_laws : StoresLaws (W:=Deployed).
Proof. by split; intros []. Qed.
End deployed.
Arguments Deployed : clear implicits.

(** A call on the database, by components. *)
Ltac on_db := cbn [apply_op deployed_stores st_profile put_profile st_gacha put_gacha st_event put_event
  st_battle put_battle st_optimize put_optimize set_db set_db_rand set_db_board set_flag
  dp_db dp_rand dp_board dp_optimize fst snd].

(** ** What a call leaves alone in the database *)

Section frames.
Context {D Tx X : Type} `{!MySQL D Tx, !MySQLLaws D Tx}.
(** A part of the tables. *)
Context (f : Tables → X).

(** The statement does not write the part. *)
Definition spares (s : stmt) : Prop :=
  ∀ now T T', stmt_effect collate as_timestamp now s T = Applied T' → f T' = f T.

Lemma fixes_exec s : spares s → fixes (λ d : D, f (tables d)) (ExecContext s).
Proof.
  intros Hs d. destruct (ExecContext s d) as [[?|e|w] d'] eqn:E; apply db_exec in E; simpl; [| |done].
  - destruct E as [now E]. by eapply Hs.
  - case_decide; [by destruct E as [-> _]|]. destruct E as [->|[now E]]; [done|by eapply Hs].
Qed.

Lemma fixes_query {R} (q : query R) : fixes (λ d : D, f (tables d)) (QueryContext q).
Proof. intros d. destruct (QueryContext q d) as [r d'] eqn:E. apply db_query in E as [Ht _]. simpl. by rewrite Ht. Qed.

Lemma fixes_queryRow {R} (q : query R) : fixes (λ d : D, f (tables d)) (QueryRowContext q).
Proof. unfold QueryRowContext. apply fixes_bind; [apply fixes_query|]. by intros [|? ?]. Qed.

(** The same in a transaction, whose view counts only if the body succeeds. *)
Definition tx_fixes {A} (m : M Tx A) : Prop := ∀ tx a tx', m tx = (Ok a, tx') → f (view tx') = f (view tx).

Lemma tx_fixes_ret {A} (a : A) : tx_fixes (mret a).
Proof. by intros tx ? ? [= _ <-]. Qed.

Lemma tx_fixes_bind {A B} (m : M Tx A) (k : A → M Tx B) :
  tx_fixes m → (∀ a, tx_fixes (k a)) → tx_fixes (m ≫= k).
Proof. intros Hm Hk tx b tx' (a & tx1 & H1 & H2)%M_bind_Ok_inv. rewrite (Hk a _ _ _ H2). by eapply Hm. Qed.

Lemma tx_fixes_wrapErr {A} prefix (m : M Tx A) : tx_fixes m → tx_fixes (wrapErr prefix m).
Proof. intros Hm tx a tx' H%wrapErr_Ok_inv. by eapply Hm. Qed.

Lemma tx_fixes_exec s : spares s → tx_fixes (ExecContext s).
Proof. intros Hs tx a tx' [_ [now E]]%tx_exec. by eapply Hs. Qed.

Lemma fixes_InTx {A} (body : M Tx A) : tx_call body → tx_fixes body → fixes (λ d : D, f (tables d)) (InTx body).
Proof.
  intros Hc Hb d. destruct (InTx body d) as [r d'] eqn:E.
  cbn [snd]. apply InTx_inv in E as [[-> _]|(tx & a & tx' & Hv & Hbody & -> & _)]; [done| |done].
  rewrite (Hb _ _ _ Hbody). by rewrite Hv.
Qed.
End frames.
#[export] Hint Resolve fixes_exec fixes_query fixes_queryRow tx_fixes_ret tx_fixes_bind tx_fixes_wrapErr
  tx_fixes_exec fixes_InTx : go.

(** ** Services write their own tables only *)

Ltac spares := intros; intros ? ? ?; cbn [stmt_effect]; unfold put; repeat case_match; intros ?; by simplify_eq.

Section services.
Context {D Tx X : Type} `{!MySQL D Tx, !MySQLLaws D Tx} (f : Tables → X).
Abbreviation part := (λ d : D, f (tables d)).

Lemma profile_fixes o :
  (∀ id name at_, spares f (createProfile id name at_)) → fixes part (profile_exec (S:=D) o).
Proof.
  intros Hs. destruct o as [id name now|id]; simpl.
  - unfold ProfileService_CreateProfile. apply fixes_bind; [apply fixes_wrapErr|auto with go].
    intros d. pose proof (fixes_exec f _ (Hs id name now) d) as E. simpl.
    unfold SqlProfileRepo_Create, Queries_CreateProfile. simpl.
    destruct (ExecContext _ d) as [[]]; simpl in *; by repeat case_bool_decide.
  - unfold ProfileService_GetProfile. apply fixes_wrapErr. intros d.
    pose proof (fixes_queryRow f (getProfile id) d) as E. simpl.
    unfold SqlProfileRepo_Get, Queries_GetProfile.
    destruct (QueryRowContext _ d) as [[]]; simpl in *; by repeat case_match.
Qed.

Lemma battle_fixes ctx p d :
  (∀ p n, spares f (insertHP p n)) → (∀ n p, spares f (updateHP n p)) →
  fixes part (V1Naive_Apply (R:=D) ctx p d).
Proof.
  intros Hi Hu. unfold V1Naive_Apply. destruct (damage_refused d); [auto with go|].
  apply fixes_wrapErr. simpl. unfold SqlBattleRepo_ApplyDamageNaive. destruct ctx; [auto with go|].
  apply fixes_InTx.
  - apply tx_call_bind; [apply tx_call_lock|]. intros hp. eauto with go.
  - apply tx_fixes_bind; [|eauto with go]. intros tx hp tx'. unfold lock_or_insert, QueryRowContext.
    rewrite M_bind_eq. destruct (QueryContext _ tx) as [[rows|err|w] tx1] eqn:E; apply tx_query in E as [_ Hr];
      [| |done]; [|by rewrite Hr].
    destruct Hr as [Hv _]. destruct rows as [|row rows]; [|intros [= _ <-]; by rewrite Hv].
    unfold fail. rewrite errors_Is_refl. intros ([] & tx2 & Hx%wrapErr_Ok_inv & [= _ <-])%M_bind_Ok_inv.
    rewrite <- Hv. by eapply (tx_fixes_exec f _ (Hi p DefaultInitialHP)).
Qed.

Section gacha.
Context {G U : Type} (IntN : RandIntN G) (NewV7 : M U string) (GetPool : string → result Pool).
Abbreviation part1 := (λ w : D * (G * U), f (tables w.1)).

Lemma GetPity_fixes p q : fixes part (GetPity (S:=D) p q).
Proof. intros d. simpl. destruct (SqlGachaRepo_GetPity p q d) as [r d'] eqn:E.
  apply SqlGetPity_inv in E as [Ht _]. simpl. by rewrite Ht. Qed.

Lemma roll_fixes now p q n :
  (∀ a b c d e g h, spares f (insertRoll a b c d e g h)) → (∀ a b c, spares f (upsertPity a b c)) →
  fixes part1 (GachaService_Roll IntN NewV7 GetPool now p q n).
Proof.
  intros Hr Hp. unfold GachaService_Roll. destruct (_ || _); [auto with go|].
  apply fixes_bind; [auto with go|]. intros pool. case_bool_decide; [auto with go|].
  apply fixes_bind; [apply (fixes_on_fst part), fixes_wrapErr, GetPity_fixes|]. intros pity.
  apply fixes_bind; [apply (fixes_on_snd part)|]. intros [rolls pity'].
  apply fixes_bind; [apply (fixes_on_fst part), fixes_wrapErr, fixes_InTx|auto with go].
  - apply tx_call_bind; [apply tx_call_insert_rolls|]. intros []. unfold Queries_UpsertPity. eauto with go.
  - apply tx_fixes_bind; [|unfold Queries_UpsertPity; auto with go].
    induction rolls as [|r rolls IH]; [apply tx_fixes_ret|]. cbn [insert_rolls]. unfold Queries_InsertRoll.
    eauto with go.
Qed.

Lemma history_fixes p n : fixes part1 (GachaService_ListHistory (S:=D) p n).
Proof.
  unfold GachaService_ListHistory. apply (fixes_on_fst part), fixes_wrapErr. intros d. simpl.
  destruct (SqlGachaRepo_ListRollsByPlayer p _ d) as [r d'] eqn:E. apply SqlListRolls_inv in E as [Ht _].
  simpl. by rewrite Ht.
Qed.

Lemma pity_fixes p q : fixes part1 (GachaService_GetPity (S:=D) p q).
Proof. unfold GachaService_GetPity. apply (fixes_on_fst part), fixes_wrapErr, GetPity_fixes. Qed.
End gacha.

Section events.
Context {L : Type} (svc : EventService L).
Abbreviation part1 := (λ w : D * L, f (tables w.1)).

Lemma GetEvent_fixes id : fixes part (GetEvent (S:=D) id).
Proof. intros d. simpl. destruct (SqlEventRepo_GetEvent id d) as [r d'] eqn:E.
  apply SqlGetEvent_inv in E as [Ht _]. simpl. by rewrite Ht. Qed.

Lemma GetScore_fixes ev p : fixes part (GetScore (S:=D) ev p).
Proof. intros d. simpl. destruct (SqlEventRepo_GetScore ev p d) as [r d'] eqn:E.
  apply SqlGetScore_inv in E as [Ht _]. simpl. by rewrite Ht. Qed.

Lemma event_fixes o :
  (∀ a b c d, spares f (createEvent a b c d)) → (∀ a b c d, spares f (insertRewardTier a b c d)) →
  (∀ a b c, spares f (addEventScore a b c)) → fixes part1 (λ w, ((Ok tt : result unit), (exec svc o w).2)).
Proof.
  intros Hc Ht Ha.
  assert (∀ A (m : M D A), fixes part m → ∀ w : D * L, f (tables (on_fst m w).2.1) = f (tables w.1)) as Hfst.
  { intros A m Hm. exact (fixes_on_fst part m Hm). }
  intros w. destruct o as [inp now|id now|now|ev p d now now'|ev p|ev p n1 n2]; cbn [exec snd].
  - apply Hfst. unfold EventService_Create. destruct (negb _); [auto with go|].
    apply fixes_bind; [apply fixes_wrapErr|].
    + intros d. pose proof (fixes_exec f _ (Hc (In_ID inp) (In_Name inp) (In_StartAt inp) (In_EndAt inp)) d) as E.
      simpl. unfold SqlEventRepo_CreateEvent, Queries_CreateEvent. simpl.
      destruct (ExecContext _ d) as [[]]; simpl in *; by repeat case_bool_decide.
    + intros _. apply fixes_bind; [|auto with go].
      induction (In_Rewards inp) as [|t ts IH]; [done|]. cbn [insert_tiers].
      apply fixes_bind; [apply fixes_wrapErr|done]. simpl. unfold SqlEventRepo_InsertRewardTier, Queries_InsertRewardTier.
      auto with go.
  - apply Hfst. unfold EventService_Get. eauto using GetEvent_fixes with go.
  - apply Hfst. unfold EventService_ListCurrent. simpl. unfold SqlEventRepo_ListCurrentEvents, Queries_ListCurrentEvents.
    eauto with go.
  - assert (fixes part1 (EventService_AddScore (S:=D) svc ev p d now now')) as Hadd.
    { unfold EventService_AddScore. destruct (_ || _); [auto with go|].
      apply fixes_bind; [apply (fixes_on_fst part), fixes_wrapErr, GetEvent_fixes|]. intros e.
      case_bool_decide; [auto with go|].
      apply fixes_bind; [apply (fixes_on_fst part); simpl; unfold SqlEventRepo_AddScore, Queries_AddEventScore; auto with go|].
      intros _. apply fixes_bind; [apply (fixes_on_fst part), fixes_wrapErr, GetScore_fixes|]. intros sc.
      apply fixes_bind; [apply (fixes_on_snd part)|auto with go]. }
    specialize (Hadd w). by destruct (EventService_AddScore _ _ _ _ _ _ w).
  - apply Hfst. unfold EventService_GetScore. eauto using GetEvent_fixes, GetScore_fixes with go.
  - apply Hfst. unfold EventService_GetRewards. apply fixes_bind; [apply fixes_wrapErr, GetEvent_fixes|]. intros e.
    apply fixes_bind; [|intros ts; eauto using GetScore_fixes with go].
    simpl. unfold SqlEventRepo_ListRewardTiers, Queries_ListRewardTiers. eauto with go.
Qed.
End events.
End services.

(** ** The invariants of the database *)

Section invariants.
Context {D Tx F G U : Type} `{!GoRuntime, !MySQL D Tx, !MySQLLaws D Tx}.
Context (IntN : RandIntN G) (NewV7 : M U string).
Abbreviation registry := (StaticPoolRegistry_GetPool NewStaticPoolRegistry).
Abbreviation Dp := (Deployed D Leaderboard F G U).

(** The committed rolls of a player on the demo pool, and its committed counter. *)
Definition sql_rolls (d : D) (p : string) : list Roll :=
  history collate p DemoPoolID (to_roll <$> t_gacha_rolls (tables d)).
Definition sql_pity (d : D) (p : string) : Z := counter_in p DemoPoolID (t_gacha_pity (tables d)).

(** Committed counters count the committed rolls since the last SSR and no
    ceiling was missed; points are sums that did not overflow; hit points are
    between zero and the initial ones. *)
Definition db_ok (d : D) : Prop :=
  (∀ p, sql_pity d p = drought (sql_rolls d p) ∧ ceiling_ok 80 (sql_rolls d p) ∧ drought (sql_rolls d p) < 80) ∧
  (∀ ev p, 0 <= sql_points d ev p < int64_half) ∧
  ∀ p, 0 <= hp_in (tables d) p <= DefaultInitialHP.

(** What is ranked was accepted since the start and is committed. *)
Definition board_ok (d : D) (l : Leaderboard) : Prop :=
  ∃ accs, l = apply_incrs accs NewLeaderboard ∧ ∀ ev p, 0 <= delta_of ev p accs <= sql_points d ev p.

Definition deployed_ok (w : Dp) : Prop := db_ok (dp_db w) ∧ board_ok (dp_db w) (dp_board w).

(** The server at its start, on a database that holds what it holds. *)
Definition boot (d : D) (gu : G * U) : Dp := {|
  dp_db := d; dp_rand := gu; dp_board := NewLeaderboard; dp_optimize := {| opt_on := false |};
  dp_readiness := NewReadiness; dp_room := NewRoom |}.

Lemma db_ok_pity d : db_ok d → pity_inv registry d.
Proof.
  intros [Hp _] p q pool [-> ->]%demo_registry_pool. exact (Hp p).
Qed.

Lemma no_rows_ok d : tables d = no_rows → db_ok d.
Proof.
  intros Hd. unfold db_ok, sql_pity, sql_rolls, sql_points, hp_in. rewrite Hd. split_and!.
  - intros p. split_and!; [done|apply ceiling_ok_nil|done].
  - intros ev p. simpl. unfold int64_half. lia.
  - intros p. simpl. unfold DefaultInitialHP. lia.
Qed.

(** A call that leaves two of the three parts alone. *)
Lemma deployed_ok_keeps (w w' : Dp) :
  t_gacha_rolls (tables (dp_db w')) = t_gacha_rolls (tables (dp_db w)) →
  t_gacha_pity (tables (dp_db w')) = t_gacha_pity (tables (dp_db w)) →
  t_event_scores (tables (dp_db w')) = t_event_scores (tables (dp_db w)) →
  (∀ p, 0 <= hp_in (tables (dp_db w')) p <= DefaultInitialHP) →
  dp_board w' = dp_board w → deployed_ok w → deployed_ok w'.
Proof.
  unfold deployed_ok, db_ok, board_ok, sql_pity, sql_rolls, sql_points.
  intros -> -> -> Hhp -> [(H1 & H2 & _) H3]. done.
Qed.

Lemma deployed_event o (w : Dp) :
  deployed_ok w → deployed_ok (apply_op IntN NewV7 registry (SEvent o) w).
Proof.
  intros [(Hp & Hpts & Hhp) Hb]. destruct w as [d gu l opt rdy room]. cbn [dp_db dp_board] in *.
  pose proof (λ X f H1 H2 H3, event_fixes (X:=X) f eventService o H1 H2 H3 (d, l)) as E. cbn [fst snd] in E.
  destruct (Sql_exec_all [o] d l Hpts) as (acc & app & d' & Hex & Hs & _ & Hok & Hpts').
  cbn [exec_all] in Hex. change wired with (eventService (L:=Leaderboard)) in Hex.
  on_db. destruct (exec eventService o (d, l)) as [acc0 [d1 l1]]. cbn [fst snd] in *. rewrite app_nil_r in Hex.
  injection Hex as -> -> ->. split; [split_and!|].
  - intros p. unfold sql_pity, sql_rolls. on_db.
    rewrite (E _ t_gacha_rolls), (E _ t_gacha_pity) by spares. apply Hp.
  - on_db. intros ev p. by apply Hpts'.
  - intros p. unfold hp_in. on_db. rewrite (E _ t_player_hp) by spares. apply Hhp.
  - destruct Hb as (accs & -> & Hb). exists (accs ++ acc). on_db. split; [by rewrite apply_incrs_app|].
    intros ev p. destruct (Hpts' ev p) as [-> ?]. pose proof (delta_of_le ev p acc app Hs Hok).
    specialize (Hb ev p). rewrite delta_of_app. lia.
Qed.

Lemma deployed_roll now p q n (w : Dp) :
  IntN_in_range IntN → deployed_ok w → deployed_ok (apply_op IntN NewV7 registry (SRoll now p q n) w).
Proof.
  intros HIntN Hw. pose proof (db_ok_pity _ (proj1 Hw)) as Hpity.
  assert (registry_ok (S:=D) registry) as Hreg by (apply demo_registry_ok; by vm_compute).
  destruct Hw as [(_ & Hpts & Hhp) (accs & Hl & Hb)].
  destruct w as [d [g u] l opt rdy room]. cbn [dp_db dp_board] in *. subst l.
  pose proof (λ X f H1 H2, roll_fixes (X:=X) f IntN NewV7 registry now p q n H1 H2 (d, (g, u))) as E.
  cbn [fst] in E. on_db. destruct (GachaService_Roll _ _ _ _ _ _ _ _) as [r [d' gu']] eqn:Hroll.
  destruct (pity_inv_roll IntN NewV7 registry _ _ _ _ _ _ _ _ _ HIntN Hreg Hpity Hroll) as [Hinv _].
  cbn [fst snd] in *. split; [split_and!|].
  - intros p'. exact (Hinv p' DemoPoolID demo_pool eq_refl).
  - intros ev p'. unfold sql_points. on_db. rewrite (E _ t_event_scores) by spares. apply Hpts.
  - intros p'. unfold hp_in. on_db. rewrite (E _ t_player_hp) by spares. apply Hhp.
  - exists accs. on_db. split; [done|].
    intros ev p'. unfold sql_points. rewrite (E _ t_event_scores) by spares. apply Hb.
Qed.

(** Every call keeps the invariants. *)
Lemma deployed_call o (w : Dp) :
  IntN_in_range IntN → deployed_ok w → deployed_ok (apply_op IntN NewV7 registry o w).
Proof.
  intros HIntN Hw. pose proof Hw as [(_ & _ & Hhp) _].
  assert (∀ w' : Dp, (∀ X (f : Tables → X), (∀ a b c, spares f (createProfile a b c)) →
      f (tables (dp_db w')) = f (tables (dp_db w))) → dp_board w' = dp_board w → deployed_ok w') as Hkeeps.
  { intros w' E Eb. refine (deployed_ok_keeps w w' _ _ _ _ Eb Hw); [apply E; spares..|].
    intros p. unfold hp_in. rewrite (E _ t_player_hp) by spares. apply Hhp. }
  destruct o as [o|o|ev n|ev p n|now p q n|p n|p q|ctx p δ|on];
    [|by apply deployed_event| | |by apply deployed_roll|..]; destruct w as [d [g u] l opt rdy room].
  - apply Hkeeps; on_db; [intros X f Hf; exact (profile_fixes f o Hf d)|done].
  - on_db. pose proof (Top_state ev n l) as El. unfold on_snd. destruct (RankingService_Top ev n l).
    simpl in El. by subst.
  - on_db. pose proof (Around_state ev p n l) as El. unfold on_snd. destruct (RankingService_Around ev p n l).
    simpl in El. by subst.
  - apply Hkeeps; on_db; [intros X f _; exact (history_fixes f p n (d, (g, u)))|done].
  - apply Hkeeps; on_db; [intros X f _; exact (pity_fixes f p q (d, (g, u)))|done].
  - pose proof (λ X f H1 H2, battle_fixes (X:=X) f ctx p δ H1 H2 d) as E. cbv beta in E. cbn [dp_db] in Hhp.
    pose proof (surjective_pairing (V1Naive_Apply ctx p δ d)) as Hrun.
    apply V1Naive_sql in Hrun as (app & _ & Hv & Hq).
    2:{ intros q. specialize (Hhp q). unfold int32_half, DefaultInitialHP in *. lia. }
    refine (deployed_ok_keeps _ _ _ _ _ _ _ Hw); on_db; [apply E; spares..| |done].
    intros q. on_db. rewrite Hq. pose proof (collated_damage_nonneg q app Hv). specialize (Hhp q). lia.
  - done.
Qed.

Context {B I : Type} `{!TokenBucket B, !IdemStore body I}.
Context `{!GoJson, !Vldtr, !VldtrLaws, !JwtLibrary, !Router, !RouterLaws} {R : Type → Type} `{!PromClient R}.
Context (issuer : option Issuer) (validator : option Validator) (prom : PrometheusHandler (R:=R) (F:=F)) (battleImpl : string).

(** C5. The invariants of the server on MySQL, kept from one start to the next.
    Start the server on a database whose content is as it should be, such as a
    migrated one without rows or the one an earlier run left when it ended, and
    serve any requests, with statements refused and replies lost at any time, and
    handlers that panic: then the content is again as it should be. Every
    player's committed counter is the number of its committed rolls since the last SSR,
    no ceiling was missed, points have not overflowed, and hit points are between
    zero and the initial ones. The leaderboard, empty at the start, ranks no
    player higher than the points that are committed. *)
Theorem sql_server_invariant (reqs : list (readings * Request)) (ol : option (Limiter B)) (i : I)
    (d : D) (gu : G * U) (HIntN : IntN_in_range IntN) (Hd : db_ok d) :
  let w := (serve_requests IntN NewV7 registry issuer validator prom battleImpl reqs (ol, (i, boot d gu))).2.2.2 in
  db_ok (dp_db w) ∧
  ∀ ev p, 0 <= default 0 (event_scores (dp_board w) ev !! p) <= sql_points (dp_db w) ev p.
Proof.
  assert (deployed_ok (serve_requests IntN NewV7 registry issuer validator prom battleImpl reqs
    (ol, (i, boot d gu))).2.2.2) as [Hok (accs & Hb & Hle)].
  { apply (serve_requests_ind IntN NewV7 registry issuer validator prom battleImpl deployed_ok).
    - intros rd r o w _ Hw. by apply deployed_call.
    - split; [done|]. exists []. split; [done|]. intros ev p. destruct Hd as (_ & Hd & _). specialize (Hd ev p).
      unfold delta_of. simpl in *. lia. }
  cbv zeta. split; [exact Hok|]. intros ev p. rewrite Hb, board_score. specialize (Hle ev p).
  destruct Hok as (_ & Hpts & _). specialize (Hpts ev p). rewrite int64_wrap_small; [done|int_range].
Qed.
End invariants.

(** ** A run *)

(** Times in whole seconds. *)
Definition second_GoJson : GoJson :=
  {| parse_time s := Some (Z.of_nat (String.length s) * 10 * Second); unmarshal_error _ := "json" |}.

Definition sql_demo_reqs : list (readings * Request) :=
  (λ '(rd, r), (readings_at (rd_now rd * Second), r)) <$> demo_reqs.

(** The reply to the second score is lost: it is committed, not ranked, and
    answered with an error. *)
Definition sql_demo_db : RefDB :=
  {| ref_tables := no_rows; ref_faults := [NoFault; NoFault; LostReply] |}.

Definition sql_served :=
  @serve_requests (Deployed RefDB Leaderboard unit Z Z) RefDB RefDB RefDB Leaderboard RefDB unit (InmemStore body)
    unit Z Z deployed_stores _ _ _ _ _ open_bucket _ second_GoJson reference_vldtr toy_jwt first_router plain_registry _
    lcg counting_ids demo_registry None None demo_prom "naive" sql_demo_reqs (None, (demo_store, boot sql_demo_db (42, 0))).

Example sql_statuses :
  map (λ resp, match resp with Some x => Some (RespStatus x) | None => None end) sql_served.1 =
  [Some 201; Some 200; Some 500; Some 201; Some 200; Some 200; Some 404].
Proof. vm_compute. reflexivity. Qed.

Lemma sql_server_invariant_witness :
  sql_points (dp_db sql_served.2.2.2) "e1" "miku" = 75 ∧
  default 0 (event_scores (dp_board sql_served.2.2.2) "e1" !! "miku") = 70 ∧
  db_ok (dp_db sql_served.2.2.2).
Proof.
  split; [vm_compute; reflexivity|]. split; [vm_compute; reflexivity|].
  exact (proj1 (@sql_server_invariant RefDB (Tables * Tables) unit Z Z reference_runtime _ _ lcg counting_ids
    unit (InmemStore body) open_bucket _ second_GoJson reference_vldtr reference_vldtr_laws toy_jwt first_router
    first_router_laws plain_registry _ None None demo_prom "naive" sql_demo_reqs None demo_store sql_demo_db (42, 0) lcg_in_range
    (no_rows_ok sql_demo_db eq_refl))).
Defined.
