(* ===== verification/QueueServer.v ===== *)
(** * The server with the queued battle applier

    [BATTLE_IMPL=queue] gives the battle handler a [V2UserQueue] ([Build] of
    [internal/service/battle/service.go], called by [run] of
    [cmd/server/main.go]). For requests one after the other whose contexts are not
    done the server answers as it does with the naive applier, but for the name of the
    implementation that an answer to a hit carries. *)

From S2P Require Import GoLang Strconv Auth Http AppError Decode RateLimit Idempotency Middleware.
From S2P Require Import Gacha GachaService Ranking Event EventService Profile Battle BattleQueue QueueApply.
From S2P Require Import Endpoint EventEndpoint Room Lifecycle Observe Prometheus Server.
#[local] Open Scope Z_scope.

(** ** Answers that differ in the label *)

(** The answer to a hit names the implementation ([ImplLabel] of
    [internal/endpoint/battle.go]); the idempotency store keeps answers. *)
Section labels.
Context (impl impl' : string).

Inductive same_json : json → json → Prop :=
  | same_plain j : same_json j j
  | same_damage player hp : same_json (damageResp player hp impl) (damageResp player hp impl').

Definition same_body : body → body → Prop := Forall2 same_json.

Inductive same_cmd : wcmd → wcmd → Prop :=
  | same_any c : same_cmd c c
  | same_write b b' : same_body b b' → same_cmd (Write b) (Write b').

Definition same_sent (o o' : list wcmd * option string) : Prop := Forall2 same_cmd o.1 o'.1 ∧ o.2 = o'.2.

Definition same_response (x y : Response) : Prop :=
  RespStatus x = RespStatus y ∧ RespHeader x = RespHeader y ∧ same_body (RespBody x) (RespBody y).

Definition same_entry (e e' : IdemEntry body) : Prop :=
  IdemStatus e = IdemStatus e' ∧ same_body (IdemBody e) (IdemBody e').

#[export] Instance same_json_refl : Reflexive same_json := same_plain.
#[export] Instance same_body_refl : Reflexive same_body.
Proof. unfold same_body. apply _. Qed.
#[export] Instance same_cmd_refl : Reflexive same_cmd := same_any.
#[export] Instance same_sent_refl : Reflexive same_sent.
Proof. intros o. by split. Qed.

(** The recorder and the writer keep bodies without looking at them. *)
Definition same_recorded (w w' : recordedWriter) : Prop :=
  rec_status w = rec_status w' ∧ rec_wrote w = rec_wrote w' ∧ same_body (rec_body w) (rec_body w').

Lemma rec_step_same w w' c c' :
  same_recorded w w' → same_cmd c c' →
  same_recorded (rec_step w c).1 (rec_step w' c').1 ∧ Forall2 same_cmd (rec_step w c).2 (rec_step w' c').2.
Proof.
  intros Hww. pose proof Hww as (Hs & Hw & Hb). intros [[name value|code|b]|b b' Hbb]; unfold rec_step, rec_WriteHeader;
    rewrite <- ?Hw.
  - split; [done|]. by constructor.
  - destruct (rec_wrote w); cbn; (split; [first [done|by split_and!]|by repeat constructor]).
  - destruct (rec_wrote w) eqn:E; cbn; (split; [|reflexivity]);
      (split; [done|split; [cbn; congruence|by apply Forall2_app]]).
  - assert (Forall2 same_cmd [Write b] [Write b']) by (constructor; [by apply same_write|constructor]).
    destruct (rec_wrote w) eqn:E; cbn; (split; [|by try (constructor; [reflexivity|])]);
      (split; [done|split; [cbn; congruence|by apply Forall2_app]]).
Qed.

Lemma rec_run_same w w' cmds cmds' :
  same_recorded w w' → Forall2 same_cmd cmds cmds' →
  same_recorded (rec_run w cmds).1 (rec_run w' cmds').1 ∧ Forall2 same_cmd (rec_run w cmds).2 (rec_run w' cmds').2.
Proof.
  intros Hw Hc. revert w w' Hw. induction Hc as [|c c' cmds cmds' Hc _ IH]; intros w w' Hw; [done|]. cbn [rec_run].
  destruct (rec_step_same w w' c c' Hw Hc) as [Hw1 Hout].
  destruct (rec_step w c) as [w1 out], (rec_step w' c') as [w1' out']. cbn [fst snd] in *.
  destruct (IH w1 w1' Hw1) as [Hw2 Houts].
  destruct (rec_run w1 cmds) as [w2 outs], (rec_run w1' cmds') as [w2' outs']. cbn [fst snd] in *.
  split; [done|by apply Forall2_app].
Qed.

Definition same_writer (w w' : writer) : Prop :=
  w_header w = w_header w' ∧ w_sent w = w_sent w' ∧ same_body (w_body w) (w_body w').

Lemma w_WriteHeader_same w w' code : same_writer w w' → same_writer (w_WriteHeader w code) (w_WriteHeader w' code).
Proof.
  intros (Hh & Hs & Hb). unfold w_WriteHeader. rewrite <- Hs, <- Hh. destruct (w_sent w) eqn:E; [by split_and!; congruence|].
  destruct (_ && _); by split_and!; simpl; congruence.
Qed.

Lemma w_step_same w w' c c' : same_writer w w' → same_cmd c c' → same_writer (w_step w c) (w_step w' c').
Proof.
  assert (∀ w w' b b', same_writer w w' → same_body b b' → same_writer (w_step w (Write b)) (w_step w' (Write b'))) as Hwrite.
  { clear w w' c c'. intros w w' b b' Hw Hb. cbn [w_step].
    assert (same_writer (match w_sent w with None => w_WriteHeader w 200 | Some _ => w end)
      (match w_sent w' with None => w_WriteHeader w' 200 | Some _ => w' end)) as (Hh & Hs & Hbody).
    { pose proof Hw as (_ & <- & _). destruct (w_sent w); [done|by apply w_WriteHeader_same]. }
    destruct (match w_sent w with None => _ | Some _ => _ end) as [h1 s1 b1].
    destruct (match w_sent w' with None => _ | Some _ => _ end) as [h2 s2 b2]. cbn in *. subst h2 s2.
    destruct s1 as [[status hd]|]; [|done]. destruct (bodyAllowed status); [|done].
    split; [done|]. split; [done|by apply Forall2_app]. }
  intros Hw [[name value|code|b]|b b' Hb]; [|by apply w_WriteHeader_same|by apply Hwrite..].
  destruct Hw as (Hh & Hs & Hb). split; [by cbn; rewrite Hh|by split].
Qed.

Lemma render_same cmds cmds' : Forall2 same_cmd cmds cmds' → same_response (render cmds) (render cmds').
Proof.
  intros Hc. unfold render.
  assert (same_writer (foldl w_step w_init cmds) (foldl w_step w_init cmds')) as (Hh & Hs & Hb).
  { assert (same_writer w_init w_init) as Hw by done. revert Hw. generalize w_init at 1 3. generalize w_init.
    induction Hc as [|c c' cmds cmds' Hc _ IH]; intros w' w Hw; [done|]. by apply IH, w_step_same. }
  unfold response_of. rewrite <- Hs, <- Hh. destruct (default _ _) as [status h]. by split_and!.
Qed.
End labels.

(** A store that keeps bodies without looking at them, as far as a relation on its states
    can tell. *)
Class SameStore {I} `{!IdemStore body I} (impl impl' : string) (RI : I → I → Prop) : Prop := {
  same_Get : ∀ k t i i', RI i i' → RI (Idem_Get k t i).2 (Idem_Get k t i').2 ∧
    match (Idem_Get k t i).1, (Idem_Get k t i').1 with
    | Ok e, Ok e' => option_Forall2 (same_entry impl impl') e e'
    | Err _, Err _ => True
    | Panic w, Panic w' => w = w'
    | _, _ => False
    end;
  same_Set : ∀ k e e' t1 t2 i i', same_entry impl impl' e e' → RI i i' →
    (Idem_Set k e t1 t2 i).1 = (Idem_Set k e' t1 t2 i').1 ∧
    RI (Idem_Set k e t1 t2 i).2 (Idem_Set k e' t1 t2 i').2 }.

(** The in-memory store: the same keys and times, and entries that differ in the label. *)
Definition same_inmem (impl impl' : string) (i i' : InmemStore body) : Prop :=
  im_ttl i = im_ttl i' ∧
  ∀ k, option_Forall2 (λ e e', expiresAt e = expiresAt e' ∧ same_entry impl impl' (im_entry e) (im_entry e'))
         (im_entries i !! k) (im_entries i' !! k).

#[export] Instance same_inmem_store impl impl' : SameStore impl impl' (same_inmem impl impl').
Proof.
  split.
  - intros k t i i' [Ht He]. cbn. unfold InmemStore_Get. pose proof (He k) as Hk.
    destruct Hk as [e e' [Hx Hee]|]; [|split; [by split|constructor]]. rewrite <- Hx.
    destruct (After t (expiresAt e)); [|split; [by split|by constructor]]. split; [|constructor].
    split; [done|]. intros k'. cbn. destruct (decide (k' = k)) as [->|].
    + rewrite !lookup_delete_eq. constructor.
    + by rewrite !lookup_delete_ne.
  - intros k e e' t1 t2 i i' Hee [Ht He]. cbn. unfold InmemStore_Set. pose proof (He k) as Hk.
    assert (∀ k', option_Forall2 (λ e e', expiresAt e = expiresAt e' ∧ same_entry impl impl' (im_entry e) (im_entry e'))
      (<[k := {| im_entry := e; expiresAt := t2 + im_ttl i |}]> (im_entries i) !! k')
      (<[k := {| im_entry := e'; expiresAt := t2 + im_ttl i' |}]> (im_entries i') !! k')) as Hins.
    { intros k'. destruct (decide (k' = k)) as [->|].
      - rewrite !lookup_insert_eq. constructor. by rewrite Ht.
      - by rewrite !lookup_insert_ne. }
    destruct Hk as [x x' [Hx _]|]; [|done]. rewrite <- Hx. by destruct (Before t1 (expiresAt x)).
Qed.

(** ** Handlers that differ in the label *)

(** From related states the same is sent, up to the label, and the states stay related. *)
Section middlewares.
Context (impl impl' : string).
Context {S T B I : Type} `{!TokenBucket B, !IdemStore body I, !JwtLibrary} (RI : I → I → Prop)
  `{!SameStore impl impl' RI} (Rel : S → T → Prop).
Implicit Types (h : Handler S) (k : Handler T).

Definition same_answers {S T} (Rel : S → T → Prop) (o : outcome S) (o' : outcome T) : Prop :=
  same_sent impl impl' o.1 o'.1 ∧ Rel o.2 o'.2.

Definition simulates {S T} (Rel : S → T → Prop) (h : Handler S) (k : Handler T) : Prop :=
  ∀ r s t, Rel s t → same_answers Rel (h r s) (k r t).

Definition both {X S T} (RX : X → X → Prop) (Rel : S → T → Prop) (s : X * S) (t : X * T) : Prop :=
  RX s.1 t.1 ∧ Rel s.2 t.2.

Lemma simulates_RequireAuth ov now h k :
  simulates Rel h k → simulates Rel (RequireAuth ov now h) (RequireAuth ov now k).
Proof.
  intros Hs r s t Hst. unfold RequireAuth. destruct ov as [v|]; [|by apply Hs].
  destruct (bearerTokenFrom r) as [token|]; [|by split].
  destruct (Validator_Validate v token now); [by apply Hs|by split..].
Qed.

Lemma simulates_idem_record clk scoped h k :
  simulates Rel h k → simulates (both RI Rel) (idem_record (I:=I) clk scoped h) (idem_record clk scoped k).
Proof.
  intros Hs r [i s] [i' t] [Hi Hst]. cbn [fst snd] in *. unfold idem_record.
  pose proof (Hs r s t Hst) as [[Hc E] Hst'].
  destruct (h r s) as [[cmds why] s'], (k r t) as [[cmds' why'] t']. cbn [fst snd] in *. subst why'.
  destruct (rec_run_same impl impl' rec_init rec_init cmds cmds' ltac:(done) Hc) as [(Hstatus & _ & Hb) Hout].
  destruct (rec_run rec_init cmds) as [rw out], (rec_run rec_init cmds') as [rw' out']. cbn [fst snd] in *.
  destruct why as [p|]; [by split|].
  destruct (same_Set scoped {| IdemStatus := rec_status rw; IdemBody := rec_body rw |}
    {| IdemStatus := rec_status rw'; IdemBody := rec_body rw' |} (at_set1 clk) (at_set2 clk) i i') as [Hr Hi']; [by split|done|].
  destruct (Idem_Set _ _ _ _ i) as [res i1], (Idem_Set _ _ _ _ i') as [res' i1']. cbn [fst snd] in *. subst res'.
  by destruct res.
Qed.

Lemma simulates_Idempotency enabled clk h k :
  simulates Rel h k → simulates (both RI Rel) (Idempotency (I:=I) enabled clk h) (Idempotency enabled clk k).
Proof.
  intros Hs r [i s] [i' t] [Hi Hst]. cbn [fst snd] in *. unfold Idempotency.
  destruct (negb enabled || idem_skips r).
  { pose proof (Hs r s t Hst) as [? ?]. by destruct (h r s) as [[cmds why] s'], (k r t) as [[cmds' why'] t']. }
  set (scoped := scopedIdempotencyKey _ _). destruct (same_Get scoped (at_get clk) i i' Hi) as [Hi' Hr].
  destruct (Idem_Get _ _ i) as [res i1], (Idem_Get _ _ i') as [res' i1']. cbn [fst snd] in *.
  pose proof (simulates_idem_record clk scoped h k Hs r (i1, s) (i1', t) (conj Hi' Hst)) as Hrec.
  destruct res as [e|e|w], res' as [e'|e'|w']; try done; [|by subst].
  destruct Hr as [e e' [He Hb]|]; [|done]. split; [|done]. split; [|done]. unfold replay_cmds. cbn [fst].
  rewrite He. by repeat constructor.
Qed.

Lemma simulates_RateLimit now now' h k :
  simulates Rel h k → simulates (both eq Rel) (RateLimit (B:=B) now now' h) (RateLimit now now' k).
Proof.
  intros Hs r [ol s] [ol' t] [Hl Hst]. cbn [fst snd] in *. subst ol'. unfold RateLimit.
  pose proof (Hs r s t Hst) as [E Hst'].
  destruct (h r s) as [[cmds why] s'], (k r t) as [[cmds' why'] t']. cbn [fst snd] in *.
  destruct ol as [l|]; [|done]. by destruct (Limiter_Allow _ _ _ l) as [[] l'].
Qed.
End middlewares.

(** ** The battle handler *)

Section battle.
Context (impl impl' : string) `{!GoJson, !Vldtr} {S T : Type} (Rel : S → T → Prop).

(** Two appliers that answer the same, up to how an error of the repository is
    worded. *)
Definition same_hits (m : M S Z) (m' : M T Z) : Prop := ∀ s t, Rel s t →
  Rel (m s).2 (m' t).2 ∧
  match (m s).1, (m' t).1 with
  | Ok hp, Ok hp' => hp = hp'
  | Err e, Err e' => errors_Is e battle_ErrInvalidDamage = errors_Is e' battle_ErrInvalidDamage
  | Panic w, Panic w' => w = w'
  | _, _ => False
  end.

(** The wording does not reach the client, the label does. *)
Lemma simulates_ApplyDamage (apply : string → Z → M S Z) (apply' : string → Z → M T Z) :
  (∀ p d, same_hits (apply p d) (apply' p d)) →
  simulates impl impl' Rel (BattleHandler_ApplyDamage impl apply) (BattleHandler_ApplyDamage impl' apply').
Proof.
  intros Ha r s t Hst. unfold BattleHandler_ApplyDamage, with_body, with_valid, answer, respond.
  destruct (DecodeBody decode_damageReq r) as [q|e|w]; [|by split..].
  destruct (vldtr_Struct (damageReq_fields q)); [|by split].
  destruct (Ha (dr_TargetPlayer q) (dr_Damage q) s t Hst) as [Hst' Hr].
  destruct (apply _ _ s) as [[hp|e|w] s'], (apply' _ _ t) as [[hp'|e'|w'] t']; cbn [fst snd] in *;
    try done; split; try done; cbn [fst snd].
  - rewrite Hr. split; [|done]. cbn. repeat constructor.
  - rewrite Hr. by destruct (errors_Is e' battle_ErrInvalidDamage).
  - by rewrite Hr.
Qed.
End battle.

(** ** The two servers *)

Section servers.
Context {PR GR ER L BR B I F G U : Type}.
Context `{!ProfileRepository PR, !GachaRepository GR, !EventRepository ER, !RankingStore L,
  !BattleRepoOps BR, !TokenBucket B, !IdemStore body I}.
Context `{!GoJson, !Vldtr, !JwtLibrary, !Router} {R : Type → Type} `{!PromClient R}.
Context (IntN : RandIntN G) (NewV7 : M U string) (GetPool : string → result Pool).
Context (issuer : option Issuer) (validator : option Validator) (prom : PrometheusHandler (R:=R) (F:=F)) (impl impl' : string)
  (RI : I → I → Prop) `{!SameStore impl impl' RI}.

Abbreviation Naive := (Services PR GR ER L BR F G U).
Abbreviation Queue := (Services PR GR ER L (Queued BR) F G U).

(** The queue is idle, the goroutines are scheduled in any way from now on, and
    everything else is the same. *)
Definition behind_queue (v : Queue) (w : Naive) : Prop :=
  idle (service (sv_battle v)) ∧ Forall (Forall internal) (plans (sv_battle v)) ∧
  repo (service (sv_battle v)) = sv_battle w ∧
  sv_profile v = sv_profile w ∧ sv_gacha v = sv_gacha w ∧ sv_event v = sv_event w ∧
  sv_optimize v = sv_optimize w ∧ sv_readiness v = sv_readiness w ∧ sv_room v = sv_room w.

Lemma simulates_zoom {S} (get : Queue → S) set (get' : Naive → S) set' (h : Handler S) :
  (∀ v w, behind_queue v w → get v = get' w ∧ ∀ x, behind_queue (set x v) (set' x w)) →
  simulates impl impl' behind_queue (zoom get set h) (zoom get' set' h).
Proof.
  intros Hz r v w Hvw. destruct (Hz v w Hvw) as [Hg Hs]. unfold zoom. rewrite Hg.
  destruct (h r (get' w)) as [[cmds why] s']. split; [done|apply Hs].
Qed.

Lemma next_plan (ps : list (list label)) :
  Forall (Forall internal) ps → Forall internal (default [] (head ps)) ∧ Forall (Forall internal) (tail ps).
Proof. intros [|]; by split. Qed.

Lemma behind_queue_hits p d (Hrepo : ∀ ctx p d (r : BR), no_panic (ApplyDamageNaive ctx p d r).1) :
  same_hits (λ (a : Queued BR) r, idle (service a) ∧ Forall (Forall internal) (plans a) ∧ repo (service a) = r)
    (Apply None p d) (Apply None p d).
Proof.
  intros [ps q] r (Hq & Hps & <-). cbn [service plans] in *. unfold Apply, V2UserQueue_Applier, V1Naive_Applier.
  cbn [service plans].
  destruct (next_plan ps Hps) as [Hp Hps'].
  pose proof (V2_alone q (default [] (head ps)) p d Hq Hp) as Halone.
  destruct (V2UserQueue_Apply _ None p d q) as [res q'].
  destruct Halone as (Hq' & Hr & Hres); [by apply Hrepo|].
  cbn [fst snd service plans]. split; [by split_and!|].
  rewrite Hres. destruct res as [hp|e|w]; [done| |done]. destruct (damage_refused d); [done|].
  unfold battle_ErrInvalidDamage. by rewrite errors_Is_Errorf_w.
Qed.

Context (Hrepo : ∀ ctx p d (r : BR), no_panic (ApplyDamageNaive ctx p d r).1).

Lemma simulates_handler e rd :
  rd_ctx rd = None →
  simulates impl impl' behind_queue (handler_of IntN NewV7 GetPool issuer prom impl e rd)
    (handler_of IntN NewV7 GetPool issuer prom impl' e rd).
Proof.
  intros Hctx.
  destruct e; cbn [handler_of]; unfold on_event, on_profile, on_gacha, on_optimize, on_battle.
  all: try (apply simulates_zoom; intros v w (H1' & H2' & H3' & H4 & H5 & H6 & H7 & H8 & H9);
    split; [cbn; by rewrite ?H4, ?H5, ?H6, ?H7, ?H8, ?H9|intros x; by split_and!]).
  - by intros r v w Hvw.
  - intros r v w Hvw. unfold AuthHandler_Login, with_body, with_valid, answer, respond, lift.
    destruct issuer as [iss|]; [|done]. destruct (DecodeBody _ r) as [q|e|x]; [|done..].
    destruct (vldtr_Struct _); [|done]. by destruct (Issuer_Issue _ _ _).
  - intros r v w (Hq & Hps & Hr & Hrest). rewrite Hctx. unfold zoom.
    destruct (simulates_ApplyDamage impl impl' _ _ _ (λ p d, behind_queue_hits p d Hrepo) r (sv_battle v) (sv_battle w))
      as [E Hb]; [exact (conj Hq (conj Hps Hr))|].
    cbn [st_battle put_battle services_stores].
    destruct (BattleHandler_ApplyDamage _ _ r (sv_battle v)) as [[cmds why] b],
      (BattleHandler_ApplyDamage _ _ r (sv_battle w)) as [[cmds' why'] b'].
    cbn [fst snd] in *. split; [done|]. destruct Hb as (Hq' & Hps' & Hr').
    exact (conj Hq' (conj Hps' (conj Hr' Hrest))).
Qed.

Lemma simulates_server rd :
  rd_ctx rd = None →
  simulates impl impl' (both eq (both RI behind_queue))
    (server (B:=B) (I:=I) IntN NewV7 GetPool issuer validator prom impl rd)
    (server IntN NewV7 GetPool issuer validator prom impl' rd).
Proof.
  intros Hctx r v w Hvw. unfold server.
  destruct (find_route _ _ _) as [[i params]|]; [|done].
  destruct (routes !! i) as [[_ [e protected]]|]; [|done].
  pose proof (simulates_handler e rd Hctx) as Hh.
  destruct protected; unfold public_chain, protected_chain;
    (apply simulates_RateLimit; [|done]); apply simulates_Idempotency; try apply simulates_RequireAuth; done.
Qed.

(** C11. Of the implementation of the battle service only its name can be observed. Serve any
    requests, one after the other and none with a context that is done, on a server with
    the queued applier and on one with the naive applier, each with its own label, from
    states that agree and an idle queue: whatever the goroutines of the queue do in
    between, every response has the same status, headers and body, except that where one
    body is the answer to a hit with the one label the other is the answer with the same
    player and hit points and the other label (also when it is replayed from the
    idempotency store); and the states agree again, the queue idle. The repository is one
    that does not panic, the idempotency store one that keeps bodies without looking at
    them ([SameStore]), as the one in memory does. *)
Theorem queue_server_is_naive (reqs : list (readings * Request)) (v : option (Limiter B) * (I * Queue))
    (w : option (Limiter B) * (I * Naive))
    (Hctx : Forall (λ rr, rd_ctx rr.1 = None) reqs) (Hvw : both eq (both RI behind_queue) v w) :
  let '(answers, v') := serve_requests IntN NewV7 GetPool issuer validator prom impl reqs v in
  let '(answers', w') := serve_requests IntN NewV7 GetPool issuer validator prom impl' reqs w in
  Forall2 (option_Forall2 (same_response impl impl')) answers answers' ∧ both eq (both RI behind_queue) v' w'.
Proof.
  revert v w Hvw. induction Hctx as [|[rd r] reqs Hrd _ IH]; intros v w Hvw; [done|]. cbn [serve_requests].
  destruct (simulates_server rd Hrd r v w Hvw) as [[Hc E] Hvw'].
  unfold serve. destruct (server _ _ _ _ _ _ _ rd r v) as [[cmds why] v1], (server _ _ _ _ _ _ _ rd r w) as [[cmds' why'] w1].
  cbn [fst snd] in *. subst why'. specialize (IH v1 w1 Hvw').
  destruct why;
    destruct (serve_requests _ _ _ _ _ _ _ reqs v1) as [resps v2], (serve_requests _ _ _ _ _ _ _ reqs w1) as [resps' w2];
    destruct IH as [Hall ?]; (split; [|done]); (constructor; [|done]); constructor. by apply render_same.
Qed.
End servers.

(** ** A run *)

(** The services at start, with the steps of the goroutines during the first two
    hits: some before the call has entered, then those of the worker up to the
    reply; the rest as it comes. *)
Definition fresh_queue {F G U} (gu : G * U)
    : Services ProfileRepo GachaRepo EventRepo Leaderboard (Queued BattleRepo) F G U := {|
  sv_profile := sv_profile (fresh (F:=F) gu);
  sv_gacha := (NewGachaRepo, gu);
  sv_event := (NewEventRepo, NewLeaderboard);
  sv_battle := {| plans := [[LRecv 0; LEnter 0; LSend 0; LRecv 0; LRepo 0; LReply 0]; [LRepo 0; LEnter 1; LTake 1]];
                  service := NewV2UserQueue NewBattleRepo |};
  sv_optimize := {| opt_on := false |};
  sv_readiness := NewReadiness;
  sv_room := NewRoom |}.

Lemma fresh_behind {F G U} (gu : G * U) : behind_queue (fresh_queue (F:=F) gu) (fresh gu).
Proof. split; [apply idle_start|]. split; [by repeat constructor|]. by split_and!. Qed.

Definition demo_hit (target : string) (damage : Z) : readings * Request :=
  (readings_at 90, request "POST" "/api/battle/damage"
     (JObj [("target_player", JString target); ("damage", JNum damage)])).

Definition hit_reqs : list (readings * Request) :=
  demo_reqs ++ [demo_hit "boss" 300; demo_hit "boss" 0; demo_hit "imp" 100000].

Lemma demo_store_same : same_inmem "queue" "naive" demo_store demo_store.
Proof. split; [done|]. intros k. cbn. rewrite lookup_empty. constructor. Qed.

Definition demo_queue_server :=
  @serve_requests _ ProfileRepo GachaRepo EventRepo Leaderboard (Queued BattleRepo) unit (InmemStore body) unit Z Z
    services_stores _ _ _ _ _ open_bucket _ demo_GoJson reference_vldtr toy_jwt first_router plain_registry _
    lcg fixed_ids demo_registry None None demo_prom "queue" hit_reqs (None, (demo_store, fresh_queue (42, 0))).

Definition demo_naive_server :=
  @serve_requests _ ProfileRepo GachaRepo EventRepo Leaderboard BattleRepo unit (InmemStore body) unit Z Z
    services_stores _ _ _ _ _ open_bucket _ demo_GoJson reference_vldtr toy_jwt first_router plain_registry _
    lcg fixed_ids demo_registry None None demo_prom "naive" hit_reqs (None, (demo_store, fresh (42, 0))).

Lemma queue_server_is_naive_witness :
  Forall2 (option_Forall2 (same_response "queue" "naive")) demo_queue_server.1 demo_naive_server.1 ∧
  (RespBody <$> (demo_queue_server.1 ≫= option_list)) !! 7%nat = Some [damageResp "boss" 7200 "queue"] ∧
  (RespBody <$> (demo_naive_server.1 ≫= option_list)) !! 7%nat = Some [damageResp "boss" 7200 "naive"] ∧
  hp_of (repo (service (sv_battle demo_queue_server.2.2.2))) "boss" = 7200.
Proof.
  pose proof (@queue_server_is_naive ProfileRepo GachaRepo EventRepo Leaderboard BattleRepo unit (InmemStore body)
    unit Z Z _ _ _ _ _ open_bucket _ demo_GoJson reference_vldtr toy_jwt first_router plain_registry _
    lcg fixed_ids demo_registry None None demo_prom "queue" "naive" (same_inmem "queue" "naive") _ (λ _ _ _ _, I) hit_reqs
    (None, (demo_store, fresh_queue (42, 0))) (None, (demo_store, fresh (42, 0)))
    ltac:(repeat constructor) (conj eq_refl (conj demo_store_same (fresh_behind _)))) as H.
  change (serve_requests _ _ _ _ _ _ _ hit_reqs (None, (demo_store, fresh_queue _))) with demo_queue_server in H.
  change (serve_requests _ _ _ _ _ _ _ hit_reqs (None, (demo_store, fresh _))) with demo_naive_server in H.
  assert (Hfacts : (RespBody <$> (demo_queue_server.1 ≫= option_list)) !! 7%nat = Some [damageResp "boss" 7200 "queue"] ∧
    (RespBody <$> (demo_naive_server.1 ≫= option_list)) !! 7%nat = Some [damageResp "boss" 7200 "naive"] ∧
    hp_of (repo (service (sv_battle demo_queue_server.2.2.2))) "boss" = 7200)
    by (split; [vm_compute; reflexivity|split; vm_compute; reflexivity]).
  destruct demo_queue_server as [answers v'], demo_naive_server as [answers' w']. destruct H as [E _].
  split; [exact E|exact Hfacts].
Defined.
