(* ===== verification/ServerThreads.v ===== *)
(** * The server's requests as sequences of steps

    Every method of the services that calls its stores more than once, the handlers, the
    middlewares and the routes of [Server], and the WebSocket handler, and the ticks of the limiter's sweeper, as the
    sequences of atomic steps ([Threads]) they are when other requests run in between: a
    step is one call of a store, of the generator or of a flag, each of which holds its
    lock (or is a single atomic operation). Run alone, each is what the other files
    model. *)

From S2P Require Import GoLang Threads Strconv Auth Http AppError Decode RateLimit Idempotency Middleware.
From S2P Require Import Gacha GachaService Ranking Event EventService Profile Battle.
From S2P Require Import Endpoint EventEndpoint Room Lifecycle Observe Prometheus Server.
#[local] Open Scope Z_scope.

(** ** Services *)

Section profile.
Context {S : Type} `{!ProfileRepository S}.

Definition GetProfile_steps (id : string) : P S Profile := p_wrapErr "repo get" (atomic (Profile_Get id)).

Definition CreateProfile_steps (id name : string) (now : time) : P S Profile :=
  let p := {| Profile_ID := id; Profile_Name := name; Profile_CreatedAt := now |} in
  p_wrapErr "repo create" (atomic (Profile_Create p));;
  mret p.
End profile.

Section gacha.
Context {S : Type} `{!GachaRepository S} {G U : Type}.
Context (IntN : RandIntN G) (NewV7 : M U string) (GetPool : string → result Pool).
Abbreviation world := (S * (G * U))%type.

(** The loop of [Roll]: the draw of a card calls the generator at most once, the
    identifier comes from another source. *)
Fixpoint roll_loop_steps (n : nat) (pool : Pool) (playerID poolID : string) (now : time)
    (pity : Z) (rolls : list Roll) : P (G * U) (list Roll * Z) :=
  match n with
  | O => mret (rolls, pity)
  | Datatypes.S n' =>
      '(card, isPity, pity') ← on_part fst_lens
        (Step (λ g, let '(card, isPity, pity', g') := roll_card IntN pool pity g in
                    (Ok (card, isPity, pity'), g')) Done);
      id ← on_part snd_lens (p_wrapErr "uuid.NewV7" (atomic NewV7));
      roll_loop_steps n' pool playerID poolID now pity'
        (rolls ++ [{| Roll_ID := id; Roll_PlayerID := playerID; Roll_PoolID := poolID;
                      Roll_CardID := Card_ID card; Roll_Rarity := Card_Rarity card;
                      Roll_IsPity := isPity; Roll_PulledAt := now |}])
  end.

Definition Roll_steps (now : time) (playerID poolID : string) (count : Z) : P world (list Roll) :=
  if (count <? 1) || (10 <? count) then p_fail gacha_ErrInvalidCount
  else
    pool ← p_wrapErr "pools.GetPool" (p_lift (GetPool poolID));
    if bool_decide (Cards pool = []) then p_fail gacha_ErrEmptyPool
    else
      pity ← on_part fst_lens (p_wrapErr "repo.GetPity" (atomic (GetPity playerID poolID)));
      '(rolls, pity') ← on_part snd_lens (roll_loop_steps (Z.to_nat count) pool playerID poolID now pity []);
      _ ← on_part fst_lens (p_wrapErr "repo.InsertRollsAndUpdatePity"
                              (atomic (InsertRollsAndUpdatePity rolls playerID poolID pity')));
      mret rolls.

Definition ListHistory_steps (playerID : string) (limit : Z) : P world (list Roll) :=
  let limit := if limit <? 1 then 10 else limit in
  let limit := if 100 <? limit then 100 else limit in
  on_part fst_lens (p_wrapErr "repo.ListRollsByPlayer" (atomic (ListRollsByPlayer playerID limit))).

Definition GetPity_steps (playerID poolID : string) : P world Z :=
  on_part fst_lens (p_wrapErr "repo.GetPity" (atomic (GetPity playerID poolID))).
End gacha.

Section event.
Context {S L : Type} `{!EventRepository S, !RankingStore L}.

Fixpoint insert_tiers_steps (id : string) (tiers : list RewardTier) : P S unit :=
  match tiers with
  | [] => mret tt
  | t :: tiers' =>
      p_wrapErr "repo.InsertRewardTier" (atomic (InsertRewardTier (tier_for id t)));;
      insert_tiers_steps id tiers'
  end.

Definition Create_steps (inp : CreateInput) (now : time) : P S Event :=
  if negb (Before (In_StartAt inp) (In_EndAt inp)) then p_fail event_ErrInvalidWindow
  else
    let e := {| Event_ID := In_ID inp; Event_Name := In_Name inp;
                StartAt := In_StartAt inp; EndAt := In_EndAt inp;
                Event_CreatedAt := now |} in
    p_wrapErr "repo.CreateEvent" (atomic (CreateEvent e));;
    insert_tiers_steps (In_ID inp) (In_Rewards inp);;
    mret e.

Definition Get_steps (id : string) (now : time) : P S (Event * Status) :=
  e ← p_wrapErr "repo.GetEvent" (atomic (GetEvent id));
  mret (e, StatusAt e now).

Definition ListCurrent_steps (now : time) : P S (list Event) :=
  p_wrapErr "repo.ListCurrentEvents" (atomic (ListCurrentEvents now)).

Definition mirror_steps (svc : EventService L) (eventID playerID : string) (delta : Z) : P L unit :=
  match leaderboard svc with
  | None => Done (Ok tt)
  | Some incrBy =>
      and_then (atomic (incrBy eventID playerID delta))
        (λ r, match r with Panic w => Done (Panic w) | _ => Done (Ok tt) end)
  end.

Definition AddScore_steps (svc : EventService L) (eventID playerID : string) (delta : Z) (now now' : time)
    : P (S * L) EventScore :=
  if (delta <=? 0) || (maxScoreDelta <? delta) then p_fail event_ErrInvalidDelta
  else
    e ← on_part fst_lens (p_wrapErr "repo.GetEvent" (atomic (GetEvent eventID)));
    if bool_decide (StatusAt e now ≠ StatusOngoing) then p_fail event_ErrNotOngoing
    else
      on_part fst_lens (p_wrapErr "repo.AddScore" (atomic (AddScore eventID playerID delta now')));;
      sc ← on_part fst_lens (p_wrapErr "repo.GetScore" (atomic (GetScore eventID playerID)));
      on_part snd_lens (mirror_steps svc eventID playerID delta);;
      mret sc.

Definition GetScore_steps (eventID playerID : string) : P S EventScore :=
  p_wrapErr "repo.GetEvent" (atomic (GetEvent eventID));;
  p_wrapErr "repo.GetScore" (atomic (GetScore eventID playerID)).

Definition GetRewards_steps (eventID playerID : string) (now1 now2 : time) : P S RewardsView :=
  e ← p_wrapErr "repo.GetEvent" (atomic (GetEvent eventID));
  tiers ← p_wrapErr "repo.ListRewardTiers" (atomic (ListRewardTiers eventID));
  sc ← p_wrapErr "repo.GetScore" (atomic (GetScore eventID playerID));
  mret {| View_Status := StatusAt e now1;
          View_Points := Points sc;
          View_Tiers := tiers;
          View_Eligible := EligibleRewards tiers (Points sc);
          View_Claimable := bool_decide (StatusAt e now2 = StatusEnded) |}.
End event.

Section ranking.
Context {L : Type} `{!RankingStore L}.

Definition Top_steps (eventID : string) (n : Z) : P L (list Entry) :=
  let n := if n <=? 0 then DefaultTopN else n in
  if MaxTopN <? n then p_fail ranking_ErrInvalidLimit
  else p_wrapErr "store.Top" (atomic (Top eventID n)).

Definition Around_steps (eventID playerID : string) (radius : Z) : P L (list Entry) :=
  let radius := if radius <? 0 then DefaultAroundRadius else radius in
  if MaxAroundRadius <? radius then p_fail ranking_ErrInvalidLimit
  else
    and_then (atomic (Around eventID playerID radius))
      (λ r, Done match r with
                 | Err e => if errors_Is e ranking_ErrPlayerNotRanked then Err e
                            else Err (Errorf_w "store.Around" e)
                 | _ => r
                 end).
End ranking.

(** The naive applier. *)
Definition V1Naive_steps {R} `{!BattleRepoOps R} (ctx : option error) (playerID : string) (damage : Z) : P R Z :=
  if damage_refused damage then p_fail battle_ErrInvalidDamage
  else p_wrapErr "apply damage naive" (atomic (ApplyDamageNaive ctx playerID damage)).

(** A connection to the room, from its first frame to its end. *)
Section socket.
Context {F : Type}.

Definition ws_end_steps (playerID : string) : prog (Room F) () :=
  if bool_decide (playerID ≠ "") then Step (λ r, (tt, Remove playerID r)) Done else Done tt.

Fixpoint ws_reads_steps (deadline : option Z) (arrivals : list (Z * frame F)) (playerID : string)
    : prog (Room F) () :=
  match arrivals with
  | [] => ws_end_steps playerID
  | (t, f) :: arrivals' =>
      if in_time deadline t then
        match f with
        | MoveFrame m => Step (λ r, (tt, ApplyMove m r)) (λ _, ws_reads_steps deadline arrivals' (GetPlayerId m))
        | _ => ws_reads_steps deadline arrivals' playerID
        end
      else ws_end_steps playerID
  end.

Definition WSHandler_steps (accepted : result ()) (deadline : option Z) (arrivals : list (Z * frame F))
    : prog (Room F) () :=
  match accepted with
  | Ok _ => ws_reads_steps deadline arrivals ""
  | _ => Done tt
  end.
End socket.

(** ** Handlers *)

(** What a handler writes and whether it panics, after its steps. *)
Definition HProg (W : Type) : Type := Request → prog W (list wcmd * option string).

(** A handler that takes a method of a service. *)
Definition method_handler (A B : Type) : Type := ∀ S : Type, (A → M S B) → Handler S.

(** The handler with the steps of the method in the place of the method. A first run
    shows what it calls the method with, if it does; a second one what it makes of
    the answer. *)
Definition with_steps {W A B} (h : method_handler A B) (method : A → P W B) : HProg W := λ r,
  match h (option A) (λ a _, (Panic "", Some a)) r None with
  | (out, None) => Done out
  | (_, Some a) => and_then (method a) (λ res, Done (h unit (λ _ _, (res, tt)) r tt).1)
  end.

(** A handler that needs nothing of the state, and one that makes a single access. *)
Definition stateless {W} (h : Handler unit) : HProg W := λ r, Done (h r tt).1.
Definition single_step {W} (h : Handler W) : HProg W := λ r, Step (h r) Done.

Definition on_part_h {W S} (l : lens W S) (h : HProg S) : HProg W := λ r, on_part l (h r).

Section server.
Context {PR GR ER L R B I F G U : Type}.
Context `{!ProfileRepository PR, !GachaRepository GR, !EventRepository ER, !RankingStore L,
  !BattleRepoOps R, !TokenBucket B, !IdemStore body I}.
Context `{!GoJson, !Vldtr, !JwtLibrary, !Router} {K : Type → Type} `{!PromClient K}.
Context (IntN : RandIntN G) (NewV7 : M U string) (GetPool : string → result Pool).
Context (issuer : option Issuer) (validator : option Validator) (prom : PrometheusHandler (R:=K) (F:=F))
  (battleImpl : string).
Abbreviation Sv := (Services PR GR ER L R F G U).

Definition set_room (x : Room F) (w : Sv) : Sv := {| sv_profile := sv_profile w; sv_gacha := sv_gacha w;
  sv_event := sv_event w; sv_battle := sv_battle w; sv_optimize := sv_optimize w;
  sv_readiness := sv_readiness w; sv_room := x |}.

Definition profile_lens : lens Sv PR := {| view := sv_profile; update := set_profile |}.
Definition gacha_lens : lens Sv (GR * (G * U)) := {| view := sv_gacha; update := set_gacha |}.
Definition event_lens : lens Sv (ER * L) := {| view := sv_event; update := set_event |}.
Definition battle_lens : lens Sv R := {| view := sv_battle; update := set_battle |}.
Definition optimize_lens : lens Sv Optimize := {| view := sv_optimize; update := set_optimize |}.
Definition room_lens : lens Sv (Room F) := {| view := sv_room; update := set_room |}.

(** The size of the room and the toggle are read one after the other; a scrape collects its
    gauges in no fixed order, of which this is one. *)
Definition MetricsHandler_steps : HProg Sv := λ r,
  Step (λ w, (sv_room w, w)) (λ rm, Step (λ w, (sv_optimize w, w)) (λ o,
    Done (MetricsHandler_Get r (rm, o)).1)).

Definition PrometheusHandler_steps (observations : list observation) : HProg Sv := λ r,
  Step (λ w, (sv_room w, w)) (λ rm, Step (λ w, (sv_optimize w, w)) (λ o,
    Done (PrometheusHandler_ServeHTTP prom r
            {| sc_room := rm; sc_optimize := o; sc_observations := observations |}).1)).

Definition HealthHandler_Ready_steps : HProg Sv := λ r,
  Step (λ w, (sv_readiness w, w)) (λ st, Done (HealthHandler_Ready r (Some st)).1).

(** What each endpoint calls, and the steps of it. *)
Definition handler_steps (e : endpoint) (rd : readings) : HProg Sv :=
  let now := rd_now rd in
  let now' := rd_now' rd in
  match e with
  | MetricsGet => MetricsHandler_steps
  | HealthLive => stateless HealthHandler_Live
  | HealthReady => HealthHandler_Ready_steps
  | PromScrape => PrometheusHandler_steps (rd_observations rd)
  | Login => stateless (AuthHandler_Login issuer now)
  | RankingTop => on_part_h event_lens
      (with_steps (λ S f, RankingHandler_Top (λ ev n, f (ev, n))) (λ '(ev, n), on_part snd_lens (Top_steps ev n)))
  | RankingAround => on_part_h event_lens
      (with_steps (λ S f, RankingHandler_Around (λ ev p n, f (ev, p, n)))
         (λ '(ev, p, n), on_part snd_lens (Around_steps ev p n)))
  | ProfileGet => on_part_h profile_lens (with_steps (λ S, ProfileHandler_Get) GetProfile_steps)
  | ProfileCreate => on_part_h profile_lens
      (with_steps (λ S f, ProfileHandler_Create (λ id name, f (id, name)))
         (λ '(id, name), CreateProfile_steps id name now))
  | EventCreate => on_part_h event_lens
      (with_steps (λ S f, EventHandler_Create f now') (λ inp, on_part fst_lens (Create_steps inp now)))
  | EventListCurrent => on_part_h event_lens
      (with_steps (λ S f, EventHandler_ListCurrent (f tt) now') (λ _, on_part fst_lens (ListCurrent_steps now)))
  | EventGet => on_part_h event_lens
      (with_steps (λ S, EventHandler_Get) (λ id, on_part fst_lens (Get_steps id now)))
  | EventAddScore => on_part_h event_lens
      (with_steps (λ S f, EventHandler_AddScore (λ ev p d, f (ev, p, d)))
         (λ '(ev, p, d), AddScore_steps eventService ev p d now now'))
  | EventGetScore => on_part_h event_lens
      (with_steps (λ S f, EventHandler_GetScore (λ ev p, f (ev, p)))
         (λ '(ev, p), on_part fst_lens (GetScore_steps ev p)))
  | EventGetRewards => on_part_h event_lens
      (with_steps (λ S f, EventHandler_GetRewards (λ ev p, f (ev, p)))
         (λ '(ev, p), on_part fst_lens (GetRewards_steps ev p now now')))
  | OptimizeSet => on_part_h optimize_lens (single_step OptimizeHandler_ServeHTTP)
  | BattleDamage => on_part_h battle_lens
      (with_steps (λ S f, BattleHandler_ApplyDamage battleImpl (λ p d, f (p, d)))
         (λ '(p, d), V1Naive_steps (rd_ctx rd) p d))
  | GachaRoll => on_part_h gacha_lens
      (with_steps (λ S f, GachaHandler_Roll (λ p q n, f (p, q, n)))
         (λ '(p, q, n), Roll_steps IntN NewV7 GetPool now p q n))
  | GachaHistory => on_part_h gacha_lens
      (with_steps (λ S f, GachaHandler_History (λ p n, f (p, n))) (λ '(p, n), ListHistory_steps p n))
  | GachaPity => on_part_h gacha_lens
      (with_steps (λ S f, GachaHandler_Pity (λ p q, f (p, q))) (λ '(p, q), GetPity_steps p q))
  end.

(** ** Middlewares *)

(** [Allow] finds or makes the bucket under the limiter's lock, and asks it afterwards, under
    the lock of its own. A bucket that a sweep has dropped in between is asked as it was
    found. *)
Definition with_bucket (identity : string) (bk : bucket B) (l : Limiter B) : Limiter B :=
  {| buckets := <[identity := bk]> (buckets l); rps := rps l; burst := burst l; idleTTL := idleTTL l |}.

Definition find_bucket (identity : string) (now : time) (l : Limiter B) : option B * Limiter B :=
  if unlimited l then (None, l)
  else
    let b := default (NewLimiter (rps l) (burst l)) (bk_l <$> buckets l !! identity) in
    (Some b, with_bucket identity {| bk_l := b; lastSeen := now |} l).

Definition ask_bucket (identity : string) (found : B) (now' : time) (l : Limiter B) : bool * Limiter B :=
  match buckets l !! identity with
  | Some bk =>
      let '(ok, b') := Bucket_Allow (bk_l bk) now' in
      (ok, with_bucket identity {| bk_l := b'; lastSeen := lastSeen bk |} l)
  | None => ((Bucket_Allow found now').1, l)
  end.

Definition Allow_steps (identity : string) (now now' : time) : prog (Limiter B) bool :=
  Step (find_bucket identity now) (λ found,
    match found with
    | None => Done true
    | Some b => Step (ask_bucket identity b now') Done
    end).

(** The same for the limiter that may be [nil]. *)
Definition if_any {X} (nil : X) (act : Limiter B → X * Limiter B) (ol : option (Limiter B)) : X * option (Limiter B) :=
  match ol with
  | None => (nil, None)
  | Some l => let '(x, l') := act l in (x, Some l')
  end.

Fixpoint when_any {A} (nil : A) (t : prog (Limiter B) A) : prog (option (Limiter B)) A :=
  match t with
  | Done a => Done a
  | @Step _ _ X act k => Step (if_any None (λ l, let '(x, l') := act l in (Some x, l')))
                           (λ ox, match ox with Some x => when_any nil (k x) | None => Done nil end)
  end.

Definition RateLimit_steps {S} (now now' : time) (next : HProg S) : HProg (option (Limiter B) * S) := λ r,
  and_then (on_part fst_lens (when_any true (Allow_steps (identityOf r) now now')))
    (λ ok, if ok : bool then on_part snd_lens (next r) else Done (too_many_requests, None)).

Definition idem_record_steps {S} (clk : idem_clock) (scoped : string) (next : HProg S) : HProg (I * S) := λ r,
  and_then (on_part snd_lens (next r)) (λ '(cmds, why),
    let '(w, out) := rec_run rec_init cmds in
    match why with
    | Some p => Done (out, Some p)
    | None =>
        let e := {| IdemStatus := rec_status w; IdemBody := rec_body w |} in
        and_then (on_part fst_lens (atomic (Idem_Set scoped e (at_set1 clk) (at_set2 clk))))
          (λ res, match res with Panic p => Done (out, Some p) | _ => Done (out, None) end)
    end).

Definition Idempotency_steps {S} (enabled : bool) (clk : idem_clock) (next : HProg S) : HProg (I * S) := λ r,
  if negb enabled || idem_skips r then on_part snd_lens (next r)
  else
    let scoped := scopedIdempotencyKey r (Header_Get r "Idempotency-Key") in
    and_then (on_part fst_lens (atomic (Idem_Get scoped (at_get clk))))
      (λ found, match found with
                | Panic p => Done ([], Some p)
                | Ok (Some entry) => Done (replay_cmds entry, None)
                | _ => idem_record_steps clk scoped next r
                end).

Definition RequireAuth_steps {S} (now : time) (next : HProg S) : HProg S := λ r,
  match validator with
  | None => next r
  | Some v =>
      match bearerTokenFrom r with
      | None => Done (writeUnauthorized "missing or malformed Authorization header", None)
      | Some token =>
          match Validator_Validate v token now with
          | Panic p => Done ([], Some p)
          | Err _ => Done (writeUnauthorized "invalid or expired token", None)
          | Ok claims => next (InjectClaims r claims)
          end
      end
  end.

Definition public_steps {S} (clk : request_clock) (next : HProg S) : HProg (option (Limiter B) * (I * S)) :=
  RateLimit_steps (at_limit clk) (at_bucket clk) (Idempotency_steps true (at_idem clk) next).

Definition protected_steps {S} (clk : request_clock) (next : HProg S) : HProg (option (Limiter B) * (I * S)) :=
  public_steps clk (RequireAuth_steps (at_auth clk) next).

(** ** The server *)

Definition server_steps (rd : readings) : HProg (option (Limiter B) * (I * Sv)) := λ r,
  match find_route routes.*1 (Method r) (URL_Path r) with
  | Some (i, params) =>
      match routes !! i with
      | Some (_, (e, protected)) =>
          let chain := if protected : bool then protected_steps (rd_chain rd) else public_steps (rd_chain rd) in
          chain (handler_steps e rd) (with_params r params)
      | None => Done (no_route r, None)
      end
  | None => Done (no_route r, None)
  end.

(** A request for the WebSocket route: whether the connection is accepted and what that
    writes, the deadline of the request's context, the frames and their times. *)
Record socket := {
  so_request : Request; so_accepted : result (); so_written : list wcmd;
  so_deadline : option Z; so_frames : list (Z * frame F) }.

Definition WSHandler_Mount : list (string * string) := [("GET", "/ws/room")].

(** The handler as one of [Server]. *)
Definition WSHandler (so : socket) : Handler (Room F) := λ _ rm,
  (so_written so, None, WSHandler_ServeHTTP (so_accepted so) (so_deadline so) (so_frames so) rm).

Definition socket_handler (rd : readings) (so : socket) : Handler (option (Limiter B) * (I * Sv)) := λ r w,
  match find_route WSHandler_Mount (Method r) (URL_Path r) with
  | Some (_, params) =>
      public_chain (rd_chain rd) (zoom sv_room set_room (WSHandler so)) (with_params r params) w
  | None => (no_route r, None, w)
  end.

Definition socket_steps (rd : readings) (so : socket) : HProg (option (Limiter B) * (I * Sv)) := λ r,
  match find_route WSHandler_Mount (Method r) (URL_Path r) with
  | Some (_, params) =>
      public_steps (rd_chain rd)
        (on_part_h room_lens (λ _, and_then (WSHandler_steps (so_accepted so) (so_deadline so) (so_frames so))
                                     (λ _, Done (so_written so, None)))) (with_params r params)
  | None => Done (no_route r, None)
  end.

(** What a goroutine of the server does next: it serves a request or a connection, the sweeper
    takes a tick, and the one that runs [run] closes the readiness gate. *)
Inductive arrival :=
  | ARequest (rd : readings) (r : Request)
  | ASocket (rd : readings) (so : socket)
  | ATick (now : time)
  | ADraining.

Definition sweep_tick (now : time) : prog (option (Limiter B)) (list wcmd * option string) :=
  Step (λ ol, (([], None), (λ l, (Limiter_Sweep now l).2) <$> ol)) Done.

Definition drain_step : prog Sv (list wcmd * option string) :=
  Step (λ w, (([], None), {| sv_profile := sv_profile w; sv_gacha := sv_gacha w; sv_event := sv_event w;
                             sv_battle := sv_battle w; sv_optimize := sv_optimize w;
                             sv_readiness := SetDraining (sv_readiness w); sv_room := sv_room w |})) Done.

Definition serve_steps (a : arrival) : prog (option (Limiter B) * (I * Sv)) (list wcmd * option string) :=
  match a with
  | ARequest rd r => server_steps rd r
  | ASocket rd so => socket_steps rd so (so_request so)
  | ATick now => on_part fst_lens (sweep_tick now)
  | ADraining => on_part snd_lens (on_part snd_lens drain_step)
  end.

(** The same without other requests in between. *)
Definition serve_alone (a : arrival) : option (Limiter B) * (I * Sv) → outcome (option (Limiter B) * (I * Sv)) :=
  match a with
  | ARequest rd r => server IntN NewV7 GetPool issuer validator prom battleImpl rd r
  | ASocket rd so => socket_handler rd so (so_request so)
  | _ => run_alone (serve_steps a)
  end.
End server.

(** ** A handler calls its service at most once *)

(** The request was answered, and not with an error. *)
Definition success (out : list wcmd * option string) : Prop :=
  out.2 = None ∧ RespStatus (render out.1) < 300.

Lemma WriteJSON_fails e : ¬ success (WriteJSON e, None).
Proof.
  intros [_ Hs]. cbn [fst] in Hs. destruct (WriteJSON_spec e) as (a & E & _). rewrite E in Hs. cbn in Hs.
  destruct (StatusOf_cases a) as [Ha|[Ha|[Ha|Ha]]]; lia.
Qed.

Lemma panic_fails cmds w : ¬ success (cmds, Some w).
Proof. by intros [? _]. Qed.

Lemma writeJSON_succeeds v : success (writeJSON v, None).
Proof. split; [done|]. cbn [fst]. by rewrite render_writeJSON. Qed.

Lemma created_succeeds v : success (created v, None).
Proof. split; [done|]. cbn [fst]. by rewrite render_created. Qed.

Lemma okay_succeeds v : success (okay v, None).
Proof. by split. Qed.
#[export] Hint Resolve WriteJSON_fails panic_fails writeJSON_succeeds created_succeeds okay_succeeds : threads.

Section calls.
Context {A B : Type}.

(** Either the method is not called, the state is left alone and the answer is an error,
    or it is called once, with an argument that is [good], and what is written depends
    on its answer and is an error exactly when its answer is one. *)
Definition calls_once (good : A → Prop) (c : ∀ S : Type, (A → M S B) → S → outcome S) : Prop :=
  (∃ out, ¬ success out ∧ ∀ S f s, c S f s = (out, s)) ∨
  (∃ a k, good a ∧ (∀ res : result B, success (k res) ↔ is_Ok res = true) ∧
     ∀ S f s, c S f s = let '(res, s') := f a s in (k res, s')).

Context (good : A → Prop).

Lemma co_answer e : calls_once good (λ S f, answer (WriteJSON e)).
Proof. left. eexists. split; [|done]. apply WriteJSON_fails. Qed.

Lemma co_respond a oe oo :
  (∀ e, ¬ success (oe e, None)) → (∀ b, success (oo b, None)) → good a →
  calls_once good (λ S f, respond (f a) oe oo).
Proof.
  intros Hoe Hoo Ha. right.
  exists a, (λ res : result B, match res with Ok b => (oo b, None) | Err e => (oe e, None) | Panic w => ([], Some w) end).
  split; [done|]. split.
  - intros [b|e|w]; split; try done; intros Hs; [by destruct (Hoe e)|by destruct (panic_fails [] w)].
  - intros S f s. unfold respond. by destruct (f a s) as [[] ?].
Qed.

Lemma co_body `{!GoJson} {T} (dec : json → option T) oe (k : ∀ S : Type, (A → M S B) → T → S → outcome S) r :
  (∀ e, ¬ success (oe e, None)) →
  (∀ q, DecodeBody dec r = Ok q → calls_once good (λ S f, k S f q)) →
  calls_once good (λ S f, with_body dec oe (k S f) r).
Proof.
  intros Hoe Hk. unfold with_body.
  destruct (DecodeBody dec r) as [q|e|x]; [by apply Hk|left; eexists; (split; [|done])..]; [apply Hoe|apply panic_fails].
Qed.

Lemma co_valid `{!Vldtr, !VldtrLaws} fields (k : ∀ S : Type, (A → M S B) → S → outcome S) :
  (all_tags_ok fields → calls_once good k) → calls_once good (λ S f, with_valid fields (k S f)).
Proof.
  intros Hk. unfold with_valid. pose proof (vldtr_Struct_nil fields) as Hv.
  destruct (vldtr_Struct fields); [by apply Hk, Hv|left; eexists; (split; [|done])]. apply WriteJSON_fails.
Qed.
End calls.

(** The answers of a handler are errors, or are not. *)
Ltac answers := intros; unfold event_create_error, event_score_error, event_read_error, gacha_roll_error;
  repeat case_match; solve [auto with threads].

(** Down to the call, through the checks before it. *)
Ltac to_call := cbv beta zeta; repeat first [
  apply co_answer | apply co_body; [answers|intros ? ?] | apply co_valid; [assumption|intros ?] | case_bool_decide |
  apply co_respond; [answers|answers|] |
  progress unfold with_event_player, RankingHandler_Top, RankingHandler_Around, ProfileHandler_Get,
    ProfileHandler_Create, EventHandler_Create, EventHandler_ListCurrent, EventHandler_Get,
    EventHandler_AddScore, EventHandler_GetScore, EventHandler_GetRewards,
    BattleHandler_ApplyDamage, GachaHandler_Roll, GachaHandler_History, GachaHandler_Pity ].

Section once.
Context `{!GoJson, !Vldtr, !VldtrLaws} (rd : readings) (r : Request).

Lemma Top_once : calls_once (λ '(ev, n), calls_of RankingTop rd r (STop ev n))
  (λ S f, RankingHandler_Top (λ ev n, f (ev, n)) r).
Proof. to_call. by split. Qed.

Lemma Around_once : calls_once (λ '(ev, p, n), calls_of RankingAround rd r (SAround ev p n))
  (λ S f, RankingHandler_Around (λ ev p n, f (ev, p, n)) r).
Proof. to_call. by split. Qed.

Lemma GetProfile_once : calls_once (λ id, calls_of ProfileGet rd r (SProfile (PGet id)))
  (λ S f, ProfileHandler_Get f r).
Proof. to_call. done. Qed.

Lemma CreateProfile_once :
  calls_once (λ '(id, name), calls_of ProfileCreate rd r (SProfile (PCreate id name (rd_now rd))))
    (λ S f, ProfileHandler_Create (λ id name, f (id, name)) r).
Proof. to_call. split; [done|]. by exists q. Qed.

Lemma Create_once now' : calls_once (λ inp, calls_of EventCreate rd r (SEvent (OpCreate inp (rd_now rd))))
  (λ S f, EventHandler_Create f now' r).
Proof. to_call. split; [done|]. by exists q. Qed.

Lemma ListCurrent_once now' :
  calls_once (λ _ : (), calls_of EventListCurrent rd r (SEvent (OpListCurrent (rd_now rd))))
    (λ S f, EventHandler_ListCurrent (f tt) now' r).
Proof. to_call. done. Qed.

Lemma Get_once : calls_once (λ id, calls_of EventGet rd r (SEvent (OpGet id (rd_now rd))))
  (λ S f, EventHandler_Get f r).
Proof. to_call. done. Qed.

Lemma AddScore_once :
  calls_once (λ '(ev, p, d), calls_of EventAddScore rd r (SEvent (OpAddScore ev p d (rd_now rd) (rd_now' rd))))
    (λ S f, EventHandler_AddScore (λ ev p d, f (ev, p, d)) r).
Proof. to_call. do 3 (split; [done|]). by exists q. Qed.

Lemma GetScore_once : calls_once (λ '(ev, p), calls_of EventGetScore rd r (SEvent (OpGetScore ev p)))
  (λ S f, EventHandler_GetScore (λ ev p, f (ev, p)) r).
Proof. to_call. done. Qed.

Lemma GetRewards_once :
  calls_once (λ '(ev, p), calls_of EventGetRewards rd r (SEvent (OpGetRewards ev p (rd_now rd) (rd_now' rd))))
    (λ S f, EventHandler_GetRewards (λ ev p, f (ev, p)) r).
Proof. to_call. done. Qed.

Lemma ApplyDamage_once impl : calls_once (λ '(p, d), calls_of BattleDamage rd r (SHit (rd_ctx rd) p d))
  (λ S f, BattleHandler_ApplyDamage impl (λ p d, f (p, d)) r).
Proof. to_call. split; [done|]. split; [by apply damageReq_range|]. by exists q. Qed.

Lemma Roll_once : calls_once (λ '(p, q, n), calls_of GachaRoll rd r (SRoll (rd_now rd) p q n))
  (λ S f, GachaHandler_Roll (λ p q n, f (p, q, n)) r).
Proof.
  to_call. split; [done|]. split; [|by exists q].
  by match goal with Hv : all_tags_ok _ |- _ => apply rollReq_valid in Hv as (_ & _ & ?) end.
Qed.

Lemma History_once : calls_once (λ '(p, n), calls_of GachaHistory rd r (SHistory p n))
  (λ S f, GachaHandler_History (λ p n, f (p, n)) r).
Proof. to_call; done. Qed.

Lemma Pity_once : calls_once (λ '(p, q), calls_of GachaPity rd r (SPity p q))
  (λ S f, GachaHandler_Pity (λ p q, f (p, q)) r).
Proof. to_call. done. Qed.
End once.
#[export] Hint Resolve Top_once Around_once GetProfile_once CreateProfile_once Create_once ListCurrent_once
  Get_once AddScore_once GetScore_once GetRewards_once ApplyDamage_once Roll_once History_once Pity_once : threads.

(** ** Alone, the steps are the methods *)

(** Calls put together from calls whose behaviour is known. *)
Ltac behave := repeat first [
  match goal with |- ∀ _, _ => intros ? end | solve [auto with threads] | apply behaves_if | apply behaves_wrapErr |
  apply behaves_bind | apply behaves_fst | apply behaves_snd ].

Section methods.

Lemma GetProfile_behaves {S} `{!ProfileRepository S} id :
  behaves (GetProfile_steps id) (ProfileService_GetProfile id).
Proof. unfold GetProfile_steps, ProfileService_GetProfile. behave. Qed.

Lemma CreateProfile_behaves {S} `{!ProfileRepository S} id name now :
  behaves (CreateProfile_steps id name now) (ProfileService_CreateProfile id name now).
Proof. unfold CreateProfile_steps, ProfileService_CreateProfile. behave. Qed.

Section gacha.
Context {S : Type} `{!GachaRepository S} {G U : Type}.
Context (IntN : RandIntN G) (NewV7 : M U string) (GetPool : string → result Pool).

Lemma roll_loop_behaves n pool p q now pity rolls :
  behaves (roll_loop_steps IntN NewV7 n pool p q now pity rolls)
    (roll_loop IntN NewV7 n pool p q now pity rolls).
Proof.
  revert pity rolls. induction n as [|n IH]; intros pity rolls; cbn [roll_loop_steps roll_loop]; [done|].
  intros [g u]. cbn. unfold part_act. cbn.
  destruct (roll_card IntN pool pity g) as [[[card isPity] pity'] g']. cbn.
  unfold wrapErr. destruct (NewV7 u) as [[id|e|x] u']; [|done..]. apply IH.
Qed.

Lemma Roll_behaves now p q n :
  behaves (Roll_steps (S:=S) IntN NewV7 GetPool now p q n) (GachaService_Roll IntN NewV7 GetPool now p q n).
Proof.
  unfold Roll_steps, GachaService_Roll. apply behaves_if; [apply behaves_fail|].
  apply behaves_bind; [behave|intros pool]. case_bool_decide; [apply behaves_fail|].
  apply behaves_bind; [behave|intros pity].
  apply behaves_bind; [apply behaves_snd, roll_loop_behaves|intros [rolls pity']]. behave.
Qed.

Lemma ListHistory_behaves p n :
  behaves (ListHistory_steps (S:=S) (G:=G) (U:=U) p n) (GachaService_ListHistory p n).
Proof. unfold ListHistory_steps, GachaService_ListHistory. behave. Qed.

Lemma GetPity_behaves p q : behaves (GetPity_steps (S:=S) (G:=G) (U:=U) p q) (GachaService_GetPity p q).
Proof. unfold GetPity_steps, GachaService_GetPity. behave. Qed.
End gacha.

Section event.
Context {S L : Type} `{!EventRepository S, !RankingStore L}.

Lemma insert_tiers_behaves id tiers : behaves (insert_tiers_steps (S:=S) id tiers) (insert_tiers id tiers).
Proof. induction tiers as [|t tiers IH]; cbn [insert_tiers_steps insert_tiers]; behave. Qed.

Lemma Create_behaves inp now : behaves (Create_steps (S:=S) inp now) (EventService_Create inp now).
Proof.
  unfold Create_steps, EventService_Create. apply behaves_if; [apply behaves_fail|].
  apply behaves_bind; [behave|intros _]. apply behaves_bind; [apply insert_tiers_behaves|intros _]. behave.
Qed.

Lemma Get_behaves id now : behaves (Get_steps (S:=S) id now) (EventService_Get id now).
Proof. unfold Get_steps, EventService_Get. behave. Qed.

Lemma ListCurrent_behaves now : behaves (ListCurrent_steps (S:=S) now) (EventService_ListCurrent now).
Proof. unfold ListCurrent_steps, EventService_ListCurrent. behave. Qed.

Lemma mirror_behaves (svc : EventService L) ev p d : behaves (mirror_steps svc ev p d) (mirror svc ev p d).
Proof.
  intros l. unfold mirror_steps, mirror. destruct (leaderboard svc) as [f|]; [|done].
  rewrite run_alone_and_then, behaves_atomic. by destruct (f ev p d l) as [[] ?].
Qed.

Lemma AddScore_behaves (svc : EventService L) ev p d now now' :
  behaves (AddScore_steps (S:=S) svc ev p d now now') (EventService_AddScore svc ev p d now now').
Proof.
  unfold AddScore_steps, EventService_AddScore. apply behaves_if; [apply behaves_fail|].
  apply behaves_bind; [behave|intros e]. apply behaves_if; [apply behaves_fail|].
  apply behaves_bind; [behave|intros _]. apply behaves_bind; [behave|intros sc].
  apply behaves_bind; [apply behaves_snd, mirror_behaves|intros _; apply behaves_ret].
Qed.

Lemma GetScore_behaves ev p : behaves (GetScore_steps (S:=S) ev p) (EventService_GetScore ev p).
Proof. unfold GetScore_steps, EventService_GetScore. behave. Qed.

Lemma GetRewards_behaves ev p now now' :
  behaves (GetRewards_steps (S:=S) ev p now now') (EventService_GetRewards ev p now now').
Proof. unfold GetRewards_steps, EventService_GetRewards. behave. Qed.

Lemma Top_behaves ev n : behaves (Top_steps (L:=L) ev n) (RankingService_Top ev n).
Proof. unfold Top_steps, RankingService_Top. behave. Qed.

Lemma Around_behaves ev p n : behaves (Around_steps (L:=L) ev p n) (RankingService_Around ev p n).
Proof.
  unfold Around_steps, RankingService_Around. apply behaves_if; [apply behaves_fail|].
  intros l. rewrite run_alone_and_then, behaves_atomic. unfold pass_NotRanked.
  destruct (Around _ _ _ l) as [[a|e|x] l']; try done. simpl. by destruct (errors_Is e _).
Qed.
End event.

Lemma V1Naive_behaves {R} `{!BattleRepoOps R} ctx p d : behaves (V1Naive_steps (R:=R) ctx p d) (Apply ctx p d).
Proof. unfold V1Naive_steps, Apply, V1Naive_Applier, V1Naive_Apply. behave. Qed.

Section room.
Context {F : Type}.

Lemma ws_end_behaves p : behaves (ws_end_steps (F:=F) p) (λ r, (tt, ws_end p r)).
Proof. intros r. unfold ws_end_steps, ws_end. by destruct (bool_decide (p ≠ "")). Qed.

Lemma ws_reads_behaves deadline frames p :
  behaves (ws_reads_steps (F:=F) deadline frames p) (λ r, (tt, ws_reads deadline frames p r)).
Proof.
  revert p. induction frames as [|[t f] frames IH]; intros p r; cbn [ws_reads_steps ws_reads].
  { apply ws_end_behaves. }
  destruct (in_time deadline t); [|apply ws_end_behaves]. destruct f as [| | |m]; apply IH.
Qed.

Lemma WSHandler_behaves accepted deadline frames :
  behaves (WSHandler_steps (F:=F) accepted deadline frames)
    (λ r, (tt, WSHandler_ServeHTTP accepted deadline frames r)).
Proof. intros r. destruct accepted; [apply ws_reads_behaves|done..]. Qed.
End room.
End methods.
#[export] Hint Resolve GetProfile_behaves CreateProfile_behaves Roll_behaves ListHistory_behaves GetPity_behaves
  Create_behaves Get_behaves ListCurrent_behaves AddScore_behaves GetScore_behaves GetRewards_behaves
  Top_behaves Around_behaves V1Naive_behaves : threads.

(** *** Handlers *)

Lemma with_steps_behaves {A B W} good (h : method_handler A B) (method : A → P W B) (m : A → M W B) r :
  calls_once good (λ S f, h S f r) → (∀ a, behaves (method a) (m a)) →
  behaves (with_steps h method r) (h W m r).
Proof.
  intros Hh Hm w. unfold with_steps. destruct Hh as [(out & _ & E)|(a & k & _ & _ & E)]; rewrite !E; [done|].
  rewrite run_alone_and_then, Hm. destruct (m a w) as [res w1]. simpl. by rewrite E.
Qed.

Lemma on_part_zoom {W S} (l : lens W S) `{!LensLaws l} (h : HProg S) (h' : Handler S) r :
  behaves (h r) (h' r) → behaves (on_part_h l h r) (zoom (view l) (update l) h' r).
Proof.
  intros Hh w. unfold on_part_h. rewrite run_alone_on_part, Hh by done. unfold zoom.
  by destruct (h' r (view l w)) as [[cmds why] s].
Qed.

Lemma single_step_behaves {W} (h : Handler W) r : behaves (single_step h r) (h r).
Proof. intros w. unfold single_step. simpl. by destruct (h r w). Qed.

Section server.
Context {PR GR ER L R B I F G U : Type}.
Context `{!ProfileRepository PR, !GachaRepository GR, !EventRepository ER, !RankingStore L,
  !BattleRepoOps R, !TokenBucket B, !IdemStore body I}.
Context `{!GoJson, !Vldtr, !VldtrLaws, !JwtLibrary, !Router} {K : Type → Type} `{!PromClient K}.
Context (IntN : RandIntN G) (NewV7 : M U string) (GetPool : string → result Pool).
Context (issuer : option Issuer) (validator : option Validator) (prom : PrometheusHandler (R:=K) (F:=F))
  (battleImpl : string).
Abbreviation Sv := (Services PR GR ER L R F G U).

#[export] Instance profile_lens_laws : LensLaws (profile_lens : lens Sv PR).
Proof. split; by try intros []. Qed.
#[export] Instance gacha_lens_laws : LensLaws (gacha_lens : lens Sv (GR * (G * U))).
Proof. split; by try intros []. Qed.
#[export] Instance event_lens_laws : LensLaws (event_lens : lens Sv (ER * L)).
Proof. split; by try intros []. Qed.
#[export] Instance battle_lens_laws : LensLaws (battle_lens : lens Sv R).
Proof. split; by try intros []. Qed.
#[export] Instance optimize_lens_laws : LensLaws (optimize_lens : lens Sv Optimize).
Proof. split; by try intros []. Qed.
#[export] Instance room_lens_laws : LensLaws (room_lens : lens Sv (Room F)).
Proof. split; by try intros []. Qed.

(** A handler on its part of the services, by its call. *)
Ltac by_call H m := apply on_part_zoom; [apply _|];
  lazymatch goal with |- behaves (with_steps ?h ?method ?r) _ => apply (with_steps_behaves _ h method m r H) end;
  repeat match goal with
  | |- ∀ _, _ => intros ?
  | x : _ * _ |- _ => destruct x
  | |- behaves (on_part fst_lens _) _ => apply behaves_fst
  | |- behaves (on_part snd_lens _) _ => apply behaves_snd
  end; auto with threads.

Lemma handler_steps_behaves e rd r :
  behaves (handler_steps (PR:=PR) (ER:=ER) IntN NewV7 GetPool issuer prom battleImpl e rd r)
    (handler_of IntN NewV7 GetPool issuer prom battleImpl e rd r).
Proof.
  destruct e; cbn [handler_steps handler_of].
  - done.
  - done.
  - intros w. unfold HealthHandler_Ready_steps, zoom. simpl. by destruct (Readiness_Ready _).
  - done.
  - intros w. unfold stateless. simpl. unfold AuthHandler_Login. destruct issuer as [i|]; [|done].
    unfold with_body. destruct (DecodeBody decode_loginReq r) as [q|err|x]; [|done..].
    unfold with_valid. destruct (vldtr_Struct _); [|done]. unfold respond, lift.
    by destruct (Issuer_Issue i _ _) as [[token exp]|err|x].
  - by_call (Top_once rd r) (λ '(ev, n), on_snd (S:=ER) (T:=L) (RankingService_Top ev n)).
  - by_call (Around_once rd r) (λ '(ev, p, n), on_snd (S:=ER) (T:=L) (RankingService_Around ev p n)).
  - by_call (GetProfile_once rd r) (ProfileService_GetProfile (S:=PR)).
  - by_call (CreateProfile_once rd r) (λ '(id, name), ProfileService_CreateProfile (S:=PR) id name (rd_now rd)).
  - by_call (Create_once rd r (rd_now' rd)) (λ inp, on_fst (S:=ER) (T:=L) (EventService_Create inp (rd_now rd))).
  - by_call (ListCurrent_once rd r (rd_now' rd)) (λ _ : (), on_fst (S:=ER) (T:=L) (EventService_ListCurrent (rd_now rd))).
  - by_call (Get_once rd r) (λ id, on_fst (S:=ER) (T:=L) (EventService_Get id (rd_now rd))).
  - by_call (AddScore_once rd r) (λ '(ev, p, d), EventService_AddScore (S:=ER) (L:=L) eventService ev p d (rd_now rd) (rd_now' rd)).
  - by_call (GetScore_once rd r) (λ '(ev, p), on_fst (S:=ER) (T:=L) (EventService_GetScore ev p)).
  - by_call (GetRewards_once rd r) (λ '(ev, p), on_fst (S:=ER) (T:=L) (EventService_GetRewards ev p (rd_now rd) (rd_now' rd))).
  - apply on_part_zoom; [apply _|apply single_step_behaves].
  - by_call (ApplyDamage_once rd r battleImpl) (λ '(p, d), Apply (A:=R) (rd_ctx rd) p d).
  - by_call (Roll_once rd r) (λ '(p, q, n), GachaService_Roll (S:=GR) IntN NewV7 GetPool (rd_now rd) p q n).
  - by_call (History_once rd r) (λ '(p, n), GachaService_ListHistory (S:=GR) (G:=G) (U:=U) p n).
  - by_call (Pity_once rd r) (λ '(p, q), GachaService_GetPity (S:=GR) (G:=G) (U:=U) p q).
Qed.

(** *** Middlewares *)

Lemma when_any_behaves {A} (nil : A) (t : prog (Limiter B) A) :
  finished t = false → behaves (when_any nil t) (if_any nil (run_alone t)).
Proof.
  intros Ht [l|]; [clear Ht|by destruct t]. revert l. induction t as [a|X act k IH]; intros l; [done|].
  cbn. destruct (act l) as [x l']. apply IH.
Qed.

Lemma Allow_behaves identity now now' : behaves (Allow_steps (B:=B) identity now now') (Limiter_Allow identity now now').
Proof.
  intros l. unfold Allow_steps, Limiter_Allow, find_bucket. cbn [run_alone].
  destruct (unlimited l); [done|]. cbn [run_alone]. unfold ask_bucket. cbn [with_bucket buckets].
  rewrite lookup_insert_eq. cbn [bk_l lastSeen]. destruct (Bucket_Allow _ now') as [ok b'].
  unfold with_bucket. cbn [buckets rps burst idleTTL run_alone]. by rewrite insert_insert_eq.
Qed.

Lemma RateLimit_behaves {S} now now' (next : HProg S) (next' : Handler S) r :
  behaves (next r) (next' r) →
  behaves (RateLimit_steps (B:=B) now now' next r) (RateLimit now now' next' r).
Proof.
  intros Hn [ol s]. unfold RateLimit_steps, RateLimit.
  rewrite run_alone_and_then, run_alone_on_part by apply _. rewrite when_any_behaves by done. cbn [view fst_lens fst update snd].
  assert (∀ ol, run_alone (on_part snd_lens (next r)) (ol, s) =
    let '(cmds, why, s') := next' r s in (cmds, why, (ol : option (Limiter B), s'))) as E.
  { intros ol'. rewrite run_alone_on_part by apply _. cbn [view snd_lens snd]. rewrite Hn.
    by destruct (next' r s) as [[cmds why] s']. }
  destruct ol as [l|]; cbn [if_any]; [|apply E]. rewrite Allow_behaves.
  destruct (Limiter_Allow _ _ _ l) as [[] l']; [apply E|done].
Qed.

Lemma idem_record_behaves {S} clk scoped (next : HProg S) (next' : Handler S) r :
  behaves (next r) (next' r) →
  behaves (idem_record_steps (I:=I) clk scoped next r) (idem_record clk scoped next' r).
Proof.
  intros Hn [i s]. unfold idem_record_steps, idem_record.
  rewrite run_alone_and_then, run_alone_on_part by apply _. cbn [view snd_lens snd]. rewrite Hn.
  destruct (next' r s) as [[cmds why] s']. destruct (rec_run rec_init cmds) as [w out].
  destruct why as [p|]; [done|]. rewrite run_alone_and_then, run_alone_on_part by apply _.
  cbn [view fst_lens fst update snd_lens]. rewrite behaves_atomic. by destruct (Idem_Set _ _ _ _ i) as [[] i'].
Qed.

Lemma Idempotency_behaves {S} enabled clk (next : HProg S) (next' : Handler S) r :
  behaves (next r) (next' r) →
  behaves (Idempotency_steps (I:=I) enabled clk next r) (Idempotency enabled clk next' r).
Proof.
  intros Hn [i s]. unfold Idempotency_steps, Idempotency. destruct (negb enabled || idem_skips r).
  { rewrite run_alone_on_part by apply _. cbn [view snd_lens snd]. rewrite Hn.
    by destruct (next' r s) as [[cmds why] s']. }
  rewrite run_alone_and_then, run_alone_on_part by apply _. cbn [view fst_lens fst]. rewrite behaves_atomic.
  destruct (Idem_Get _ _ i) as [[[e|]|e|p] i']; [done|by apply idem_record_behaves..|done].
Qed.

Lemma RequireAuth_behaves {S} now (next : HProg S) (next' : Handler S) r :
  (∀ r, behaves (next r) (next' r)) →
  behaves (RequireAuth_steps validator now next r) (RequireAuth validator now next' r).
Proof.
  intros Hn s. unfold RequireAuth_steps, RequireAuth. destruct validator as [v|]; [|apply Hn].
  destruct (bearerTokenFrom r) as [token|]; [|done].
  destruct (Validator_Validate v token now); [apply Hn|done..].
Qed.

Lemma public_behaves {S} clk (next : HProg S) (next' : Handler S) r :
  behaves (next r) (next' r) →
  behaves (public_steps (B:=B) (I:=I) clk next r) (public_chain clk next' r).
Proof. intros Hn. by apply RateLimit_behaves, Idempotency_behaves. Qed.

(** Served alone, every request and connection is what [Server] says. *)
Lemma serve_steps_behaves (a : arrival (F:=F)) :
  behaves (serve_steps (B:=B) (I:=I) (PR:=PR) (ER:=ER) IntN NewV7 GetPool issuer validator prom battleImpl a)
    (serve_alone IntN NewV7 GetPool issuer validator prom battleImpl a).
Proof.
  destruct a as [rd r|rd so|now|]; cbn [serve_steps serve_alone]; [| |done..].
  - unfold server_steps, server. intros w. destruct (find_route _ _ _) as [[i params]|]; [|done].
    destruct (routes !! i) as [[mp [e protected]]|]; [|done].
    pose proof (handler_steps_behaves e rd) as Hh.
    destruct protected; apply public_behaves; [by apply RequireAuth_behaves|apply Hh].
  - unfold socket_steps, socket_handler. intros w. destruct (find_route _ _ _) as [[i params]|]; [|done].
    apply public_behaves. apply (on_part_zoom room_lens). intros rm.
    rewrite run_alone_and_then, WSHandler_behaves. done.
Qed.

Abbreviation steps := (serve_steps (B:=B) (I:=I) (PR:=PR) (GR:=GR) (ER:=ER) (L:=L) (R:=R) IntN NewV7 GetPool issuer
  validator prom battleImpl).
Abbreviation alone := (serve_alone (B:=B) (I:=I) (PR:=PR) (GR:=GR) (ER:=ER) (L:=L) (R:=R) IntN NewV7 GetPool issuer
  validator prom battleImpl).

(** Requests and connections one after the other. *)
Fixpoint serve_in_order (qs : list (arrival (F:=F))) (w : option (Limiter B) * (I * Sv))
    : list (list wcmd * option string) * (option (Limiter B) * (I * Sv)) :=
  match qs with
  | [] => ([], w)
  | q :: qs' =>
      let '(out, w1) := alone q w in
      let '(outs, w2) := serve_in_order qs' w1 in (out :: outs, w2)
  end.

Lemma run_in_order_serves qs w : run_in_order steps qs w = serve_in_order qs w.
Proof.
  revert w. induction qs as [|q qs IH]; intros w; cbn [run_in_order serve_in_order]; [done|].
  rewrite serve_steps_behaves. destruct (alone q w) as [out w1]. by rewrite IH.
Qed.

(** The steps are the server's. A request or a connection none of whose steps is
    separated from the others by a step of another one answers and changes the state
    exactly as the handlers, middlewares and services of the sequential server do; and
    goroutines that happen to run one after the other are one of the schedules: the
    pool ends with every call finished, with the answers and the state of the
    requests served in order, which for REST requests are those of
    [serve_requests]. *)
Theorem steps_refine_server (qs : list (arrival (F:=F))) (w : option (Limiter B) * (I * Sv)) :
  (∀ a w, run_alone (steps a) w = alone a w) ∧
  (∃ es, omap turn_of es = qs ∧
     pool_run steps es {| pl_state := w; pl_calls := [] |} =
     let '(outs, w') := serve_in_order qs w in
     Some {| pl_state := w'; pl_calls := zip qs (Done <$> outs) |}) ∧
  ∀ reqs : list (readings * Request),
    (serve_in_order (uncurry ARequest <$> reqs) w).2 =
    (serve_requests IntN NewV7 GetPool issuer validator prom battleImpl reqs w).2.
Proof.
  split; [apply serve_steps_behaves|]. split.
  - destruct (in_order_is_a_schedule steps qs w []) as (es & Hes & Hrun). exists es. split; [done|].
    by rewrite Hrun, run_in_order_serves.
  - intros reqs. revert w. induction reqs as [|[rd r] reqs IH]; intros w; [done|].
    cbn [serve_in_order serve_requests fmap list_fmap uncurry]. unfold serve. cbn [serve_alone].
    destruct (server _ _ _ _ _ _ _ rd r w) as [[cmds why] w1]. specialize (IH w1).
    destruct (serve_in_order _ w1) as [outs w2]. cbn [snd] in IH. subst w2.
    destruct why; by destruct (serve_requests _ _ _ _ _ _ _ reqs w1).
Qed.
End server.

(** ** Concrete connections and requests *)

Definition demo_socket : socket (F:=()) := {|
  so_request := request "GET" "/ws/room" JNull; so_accepted := Ok tt; so_written := [];
  so_deadline := Some 100;
  so_frames := [(10, MoveFrame {| GetPlayerId := "miku"; GetX := (); GetY := () |}); (120, NonBinary)] |}.

Definition demo_arrivals : list (arrival (F:=())) :=
  (uncurry ARequest <$> demo_reqs) ++ [ASocket (readings_at 80) demo_socket].

Definition demo_steps :=
  @serve_steps ProfileRepo GachaRepo EventRepo Leaderboard BattleRepo unit (InmemStore body) unit Z Z
    _ _ _ _ _ open_bucket _ demo_GoJson reference_vldtr toy_jwt first_router plain_registry _
    lcg fixed_ids demo_registry None None demo_prom "naive".

Lemma steps_refine_server_witness :
  (∃ es, omap turn_of es = demo_arrivals ∧
     quiet <$> pool_run demo_steps es {| pl_state := (None, (demo_store, fresh (42, 0))); pl_calls := [] |} =
       Some true) ∧
  (run_alone (demo_steps (ASocket (readings_at 80) demo_socket)) (None, (demo_store, fresh (42, 0)))).1 = ([], None).
Proof.
  destruct (@steps_refine_server ProfileRepo GachaRepo EventRepo Leaderboard BattleRepo unit (InmemStore body) unit Z Z
    _ _ _ _ _ open_bucket _ demo_GoJson reference_vldtr reference_vldtr_laws toy_jwt first_router plain_registry _
    lcg fixed_ids demo_registry None None demo_prom "naive" demo_arrivals (None, (demo_store, fresh (42, 0))))
    as (Halone & (es & Hes & Hrun) & _).
  split; [exists es; split; [exact Hes|]|].
  - unfold demo_steps. rewrite Hrun. vm_compute. reflexivity.
  - unfold demo_steps. rewrite Halone. vm_compute. reflexivity.
Defined.
