(* ===== verification/ServerConcurrent.v ===== *)
(** * The server while its requests interleave

    The in-memory server when requests and connections are served by goroutines whose
    steps ([ServerThreads]) interleave in any way, with each other and with the sweeper
    of the rate limiter. The rule of [Threads] gives every
    call what it has done so far and what it still has to do: an increment of the
    leaderboard for points already recorded, a player to remove from the room.
    The invariant relates the stores to what all calls together have done and owe, so
    that at every moment the stores are well typed, hold exactly what the requests have put
    there, each once, and agree with each other up to what is owed. *)

From S2P Require Import GoLang Threads Strconv Auth Http AppError Decode RateLimit Idempotency Middleware.
From S2P Require Import Gacha GachaService Ranking Event EventService Profile Battle.
From S2P Require Import Endpoint EventEndpoint Room Lifecycle Observe Prometheus Server WellTyped ServerThreads.
#[local] Open Scope Z_scope.

(** ** What a call has done and owes *)

(** An increment the leaderboard has still to get; a member of the room that the connection
    has to remove; points recorded, a hit that landed, a profile, an event and rolls
    that were stored. *)
Inductive mark :=
  | Owes (ev p : string) (delta : Z)
  | Shows (p : string)
  | Scored (ev p : string) (delta : Z)
  | Dealt (p : string) (damage : Z)
  | Registered (x : Profile)
  | Opened (e : Event)
  | Rolled (rolls : list Roll).

Definition owed_of : list mark → list (string * string * Z) :=
  omap (λ m, match m with Owes ev p d => Some (ev, p, d) | _ => None end).
Definition shown_of : list mark → list string := omap (λ m, match m with Shows p => Some p | _ => None end).
Definition scored_of : list mark → list (string * string * Z) :=
  omap (λ m, match m with Scored ev p d => Some (ev, p, d) | _ => None end).
Definition dealt_of : list mark → list (string * Z) :=
  omap (λ m, match m with Dealt p d => Some (p, d) | _ => None end).
Definition registered_of : list mark → list Profile :=
  omap (λ m, match m with Registered x => Some x | _ => None end).
Definition opened_of : list mark → list Event := omap (λ m, match m with Opened e => Some e | _ => None end).
Definition rolled_of : list mark → list (list Roll) :=
  omap (λ m, match m with Rolled rolls => Some rolls | _ => None end).

(** Nothing is left to do. *)
Definition settled (ds : list mark) : Prop := owed_of ds = [] ∧ shown_of ds = [].

Definition nothing (ds : list mark) : Prop := ds = [].

(** The part of the server a mark is about. *)
Inductive part := EventPart | ProfilePart | GachaPart | BattlePart | RoomPart.

Definition part_of (m : mark) : part :=
  match m with
  | Owes _ _ _ | Scored _ _ _ | Opened _ => EventPart
  | Registered _ => ProfilePart
  | Rolled _ => GachaPart
  | Dealt _ _ => BattlePart
  | Shows _ => RoomPart
  end.

Definition only (k : part) (ds : list mark) : Prop := Forall (λ m, part_of m = k) ds.

(** ** Invariants of the parts *)

Definition anything {W} (w w' : W) : Prop := True.

#[export] Instance anything_preorder {W} : PreOrder (@anything W).
Proof. by split. Qed.

Definition no_inv {W} (w : W) (ds : list mark) : Prop := True.

(** Events stay. *)
Definition events_grow (w w' : EventRepo * Leaderboard) : Prop :=
  ∀ id, is_Some (er_events w.1 !! id) → is_Some (er_events w'.1 !! id).

(** The events are those that were opened; the points are those scored, and the ranked
    scores with what is still owed to them. *)
Definition events_inv (w : EventRepo * Leaderboard) (ds : list mark) : Prop :=
  events_typed w ∧
  map_to_list (er_events w.1) ≡ₚ (λ e, (Event_ID e, e)) <$> opened_of ds ∧
  (∀ ev p, has_char "/" ev = false →
     points_of w.1 ev p = int64_wrap (delta_of ev p (scored_of ds)) ∧
     points_of w.1 ev p = int64_wrap (default 0 (event_scores w.2 ev !! p) + delta_of ev p (owed_of ds))).

Definition profiles_inv (r : ProfileRepo) (ds : list mark) : Prop :=
  map_Forall profile_typed (pr_items r) ∧
  map_to_list (pr_items r) ≡ₚ (λ x, (Profile_ID x, x)) <$> registered_of ds.

Definition rolls_inv {X} (w : GachaRepo * X) (ds : list mark) : Prop :=
  gacha_typed w.1 ∧ gr_rolls w.1 ≡ₚ concat (rolled_of ds).

Definition hits_inv (r : BattleRepo) (ds : list mark) : Prop :=
  battle_typed r ∧ ∀ p, hp_of r p = Z.max 0 (DefaultInitialHP - damage_to p (dealt_of ds)).

(** Nobody is shown but by an open connection. *)
Definition room_inv {F} (rm : Room F) (ds : list mark) : Prop :=
  ∀ p, is_Some (members rm !! p) → p ∈ shown_of ds.

Lemma concat_perm {A} (l l' : list (list A)) : l ≡ₚ l' → concat l ≡ₚ concat l'.
Proof.
  induction 1 as [|x l l' _ IH|x y l|l l' l'' _ IH1 _ IH2]; simpl; [done|by rewrite IH|solve_Permutation|by etrans].
Qed.

#[export] Instance events_shared : Shared events_inv events_grow.
Proof.
  split; [split; [by intros ??|]|].
  - intros w1 w2 w3 H12 H23 id Hid. by apply H23, H12.
  - intros w ds ds' Hp (Ht & Ho & Hl). split; [done|]. unfold opened_of, scored_of, owed_of in *.
    split; [by rewrite Ho, Hp|]. intros ev p Hev. destruct (Hl ev p Hev) as [H1 H2].
    split; [rewrite H1|rewrite H2]; f_equal; [|f_equal]; apply delta_of_perm; by rewrite Hp.
Qed.

#[export] Instance profiles_shared : Shared profiles_inv anything.
Proof.
  split; [apply _|]. intros r ds ds' Hp [Ht Hr]. split; [done|]. unfold registered_of in *. by rewrite Hr, Hp.
Qed.
#[export] Instance rolls_shared {X} : Shared (@rolls_inv X) anything.
Proof.
  split; [apply _|]. intros w ds ds' Hp [Ht Hr]. split; [done|]. rewrite Hr. apply concat_perm.
  unfold rolled_of. by rewrite Hp.
Qed.
#[export] Instance hits_shared : Shared hits_inv anything.
Proof.
  split; [apply _|]. intros r ds ds' Hp [Ht Hh]. split; [done|]. intros p. rewrite Hh.
  do 2 f_equal. apply damage_to_perm. unfold dealt_of. by rewrite Hp.
Qed.
#[export] Instance room_shared {F} : Shared (@room_inv F) anything.
Proof.
  split; [apply _|]. intros w ds ds' Hp Hw p Hm. unfold shown_of. rewrite <- Hp. by apply Hw.
Qed.
#[export] Instance no_inv_shared {W} : Shared (@no_inv W) anything.
Proof. by split; [apply _|]. Qed.

(** The call has settled what it owed, and has done something exactly when its outcome is
    a value. *)
Definition done_if_Ok {A W} (res : result A) (ds : list mark) (w : W) : Prop :=
  settled ds ∧ (ds ≠ [] ↔ is_Ok res = true).

(** ** The event service *)

Section events.
Context `{!GoRuntime}.
Implicit Types (w : EventRepo * Leaderboard).

Lemma delta_cons ev p d l ev' p' :
  delta_of ev' p' ((ev, p, d) :: l) = (if decide (ev = ev' ∧ p = p') then d else 0) + delta_of ev' p' l.
Proof. unfold delta_of. cbn [foldr]. repeat case_decide; (lia || tauto). Qed.

(** Solves an equation of wrapped sums by cases on the player. *)
Ltac by_player := repeat case_decide; try tauto; simpl; unfold int_add; rewrite ?int64_wrap_add_l; f_equal; lia.

(** The write of a score is owed to the leaderboard. *)
Lemma events_inv_write ev p d now w ds :
  delta_ok d → has_char "/" ev = false → text_ok 64 p → is_Some (er_events w.1 !! ev) →
  events_inv w ds →
  events_inv ((EventRepo_AddScore ev p d now w.1).2, w.2) (Owes ev p d :: Scored ev p d :: ds).
Proof.
  intros Hd Hev Hp He ([Hr Hb] & Ho & Hl). split; [split; [by apply repo_typed_score|done]|]. split; [exact Ho|].
  intros ev' p' Hev'. destruct (Hl ev' p' Hev') as [H1 H2]. cbn [fst snd].
  rewrite points_of_AddScore by done.
  change (scored_of (Owes ev p d :: Scored ev p d :: ds)) with ((ev, p, d) :: scored_of ds).
  change (owed_of (Owes ev p d :: Scored ev p d :: ds)) with ((ev, p, d) :: owed_of ds).
  rewrite !delta_cons. split; [rewrite H1|rewrite H2]; by_player.
Qed.

(** The increment of the leaderboard pays. *)
Lemma events_inv_mirror ev p d w ds :
  is_Some (er_events w.1 !! ev) → text_ok 64 p → events_inv w (Owes ev p d :: ds) →
  events_inv (w.1, (Leaderboard_IncrBy ev p d w.2).2) ds.
Proof.
  intros He Hp ([Hr Hb] & Ho & Hl). split; [split; [done|by apply board_typed_incr]|]. split; [exact Ho|].
  intros ev' p' Hev'. destruct (Hl ev' p' Hev') as [H1 H2]. split; [exact H1|]. cbn [fst snd].
  change (owed_of (Owes ev p d :: ds)) with ((ev, p, d) :: owed_of ds) in H2.
  rewrite IncrBy_score, H2, delta_cons. by_player.
Qed.

(** What a call that posts a score may have done. *)
Definition scoring ev p d (own : list mark → Prop) : Prop :=
  own [] ∧ own [Owes ev p d; Scored ev p d] ∧ own [Scored ev p d].

Lemma AddScore_keeps own ev p d now now' w :
  scoring ev p d own → has_char "/" ev = false → text_ok 64 p →
  keeps events_inv events_grow own (AddScore_steps wired ev p d now now') [] w done_if_Ok.
Proof.
  intros (Hown0 & Hown1 & Hown2) Hev Hp. unfold AddScore_steps.
  destruct ((d <=? 0) || (maxScoreDelta <? d)) eqn:Hd; [done|].
  assert (delta_ok d) as Hdok by (unfold delta_ok; apply orb_false_iff in Hd; lia).
  intros [r1 l1] rest1 _ Hinv1. cbn.
  exists []. split; [done|]. split; [by intros id|]. split; [done|].
  unfold EventRepo_GetEvent. destruct (er_events r1 !! ev) as [e|] eqn:He; [|done].
  cbn. destruct (bool_decide (StatusAt e now ≠ StatusOngoing)); [done|].
  intros [r2 l2] rest2 Hg2 Hinv2. assert (is_Some (er_events r2 !! ev)) as He2 by (apply (Hg2 ev); by eexists).
  exists [Owes ev p d; Scored ev p d]. split; [done|]. split; [by intros id|].
  split; [by apply (events_inv_write ev p d now' (r2, l2))|].
  intros [r3 l3] rest3 Hg3 Hinv3. exists [Owes ev p d; Scored ev p d].
  split; [done|]. split; [by intros id|]. split; [done|].
  intros [r4 l4] rest4 Hg4 Hinv4. exists [Scored ev p d]. split; [done|]. split; [by intros id|].
  split; [|done]. apply (events_inv_mirror ev p d (r4, l4)); [|done|done]. by apply (Hg4 ev), (Hg3 ev).
Qed.

(** A new event. *)
Lemma events_inv_create e r l ds :
  event_typed (Event_ID e) e → er_events r !! Event_ID e = None → events_inv (r, l) ds →
  events_inv ({| er_events := <[Event_ID e := e]> (er_events r); er_scores := er_scores r;
                 er_rewards := er_rewards r |}, l) (Opened e :: ds).
Proof.
  intros He Hnew ([(Hev & Ht & Hs) Hb] & Ho & Hl).
  assert (∀ id, is_Some (er_events r !! id) → is_Some (<[Event_ID e := e]> (er_events r) !! id)) as Hgrow.
  { intros id Hi. rewrite lookup_insert_is_Some. destruct (decide (Event_ID e = id)); auto. }
  split; [split; [split; [|split]|]|split; [|exact Hl]]; cbn [fst snd er_events] in *.
  - by apply map_Forall_insert_2.
  - intros id. destruct (Ht id) as [H1 H2]. split; [done|]. intros Hn. by apply Hgrow, H2.
  - intros k sc Hk. destruct (Hs k sc Hk) as (H1 & H2 & H3). split; [done|]. split; [by apply Hgrow|done].
  - intros ev p sc Hsc. destruct (Hb ev p sc Hsc) as (H1 & H2). split; [by apply Hgrow|done].
  - rewrite map_to_list_insert by done. cbn. by rewrite Ho.
Qed.

(** A tier of an event that exists. *)
Lemma events_inv_tier t r l ds :
  tier_typed (Tier_EventID t) t → is_Some (er_events r !! Tier_EventID t) → events_inv (r, l) ds →
  events_inv ((EventRepo_InsertRewardTier t r).2, l) ds.
Proof.
  intros Ht He ([(Hev & Hts & Hs) Hb] & Ho & Hl). split; [|by split]. split; [|done]. split; [done|]. split; [|done].
  intros id. unfold tiers_of. cbn [fst snd EventRepo_InsertRewardTier er_rewards er_events].
  destruct (decide (id = Tier_EventID t)) as [->|Hne].
  - rewrite lookup_insert_eq. cbn [default]. split; [|done]. apply Forall_app. split; [apply Hts|by apply Forall_singleton].
  - rewrite lookup_insert_ne by done. apply Hts.
Qed.

Lemma insert_tiers_keeps {A} own id tiers ds w (f : result () → prog EventRepo A) post :
  own ds → Forall (λ t, tier_typed id (tier_for id t)) tiers → is_Some (er_events w.1 !! id) →
  (∀ w, keeps events_inv events_grow own (on_part fst_lens (f (Ok tt))) ds w post) →
  keeps events_inv events_grow own (on_part fst_lens (and_then (insert_tiers_steps id tiers) f)) ds w post.
Proof.
  intros Hds Ht He Hf. revert w He. induction Ht as [|t tiers Ht _ IH]; intros w He; [apply Hf|].
  cbn. intros [r1 l1] rest Hg Hinv. exists ds.
  assert (is_Some (er_events r1 !! id)) as He1 by (by apply (Hg id)).
  split; [done|]. split; [by intros id'|]. split; [|by apply IH].
  by apply (events_inv_tier (tier_for id t) r1 l1).
Qed.

Lemma Create_keeps own inp now w :
  own [] → own [Opened (event_of inp now)] → event_op_typed (OpCreate inp now) →
  keeps events_inv events_grow own (on_part fst_lens (Create_steps inp now)) [] w done_if_Ok.
Proof.
  intros Hown0 Hown1 (Hid & Hname & Ht). unfold Create_steps.
  destruct (negb (Before (In_StartAt inp) (In_EndAt inp))) eqn:Hwin; [done|].
  apply negb_false_iff, Z.ltb_lt in Hwin. cbn. intros [r1 l1] rest Hg Hinv. unfold part_act. cbn.
  unfold EventRepo_CreateEvent. cbn [Event_ID]. destruct (er_events r1 !! In_ID inp) as [e|] eqn:Hnew.
  { exists []. by split_and!. }
  cbn. exists [Opened (event_of inp now)]. split; [done|]. split; [|split].
  - intros id Hi. cbn. rewrite lookup_insert_is_Some. destruct (decide (In_ID inp = id)); auto.
  - by apply (events_inv_create (event_of inp now)).
  - apply insert_tiers_keeps; [done|done| |done]. cbn. rewrite lookup_insert_eq. by eexists.
Qed.
End events.

(** ** Calls that read *)

Section reading.
Context `{!GoRuntime}.

Lemma event_reads id ev p now now' :
  reads_only (Get_steps (S:=EventRepo) id now) ∧ reads_only (ListCurrent_steps (S:=EventRepo) now) ∧
  reads_only (GetScore_steps (S:=EventRepo) ev p) ∧ reads_only (GetRewards_steps (S:=EventRepo) ev p now now').
Proof.
  unfold Get_steps, ListCurrent_steps, GetScore_steps, GetRewards_steps.
  repeat first [apply reads_only_bind | apply reads_only_wrapErr | apply reads_only_atomic | split | intros ?]; done.
Qed.

Lemma board_reads ev p n :
  reads_only (Top_steps (L:=Leaderboard) ev n) ∧ reads_only (Around_steps (L:=Leaderboard) ev p n).
Proof.
  split; apply reads_only_if; [done| |done|]; (split; [|done]); intros l; simpl;
    unfold Leaderboard_Top, Leaderboard_Around; by repeat case_match.
Qed.

Lemma profile_reads id : reads_only (GetProfile_steps (S:=ProfileRepo) id).
Proof. by apply reads_only_wrapErr, reads_only_atomic. Qed.

Lemma gacha_reads {G U : Type} p q n :
  reads_only (ListHistory_steps (S:=GachaRepo) (G:=G) (U:=U) p n) ∧
  reads_only (GetPity_steps (S:=GachaRepo) (G:=G) (U:=U) p q).
Proof.
  split; apply reads_only_on_part; try apply _; apply reads_only_wrapErr, reads_only_atomic; [|done].
  apply ListRollsByPlayer_inmem.
Qed.
End reading.

(** ** The other services *)

Lemma CreateProfile_keeps own id name now r :
  own [] → own [Registered {| Profile_ID := id; Profile_Name := name; Profile_CreatedAt := now |}] →
  text_ok 64 id → text_ok 128 name →
  keeps profiles_inv anything own (CreateProfile_steps id name now) [] r done_if_Ok.
Proof.
  intros Hown0 Hown1 Hid Hname. cbn. intros r1 rest _ [Ht Hr]. unfold ProfileRepo_Create. cbn [Profile_ID].
  destruct (pr_items r1 !! id) as [x|] eqn:Hnew; [exists []; by split_and!|].
  eexists. split; [exact Hown1|]. split; [done|]. split; [|done]. split; cbn [pr_items].
  - by apply map_Forall_insert_2.
  - rewrite map_to_list_insert by done. cbn. by rewrite Hr.
Qed.

Lemma V1Naive_keeps own ctx p d r :
  own [] → own [Dealt p d] → text_ok 64 p → 1 <= d <= MaxDamagePerRequest →
  keeps hits_inv anything own (V1Naive_steps ctx p d) [] r done_if_Ok.
Proof.
  intros Hown0 Hown1 Hp Hd. unfold V1Naive_steps. rewrite (proj2 (damage_refused_false d)) by done.
  cbn. intros r1 rest _ [Ht Hh]. exists [Dealt p d]. split; [done|]. split; [done|]. split; [|done]. split.
  - pose proof (battle_typed_hit ctx p d r1 Hp Hd Ht) as Hhit. unfold V1Naive_Apply in Hhit.
    by rewrite (proj2 (damage_refused_false d)) in Hhit by done.
  - intros q.
    assert (0 <= hp_of r1 q < int64_half) as Hq.
    { unfold hp_of. destruct (hpByPlayer r1 !! q) as [hp|] eqn:E; simpl; [|unfold DefaultInitialHP; int_range].
      destruct (Ht q hp E) as [_ ?]. unfold DefaultInitialHP in *. int_range. }
    pose proof (hp_of_hit ctx p d r1 q Hq Hd) as Hhit. etrans; [exact Hhit|].
    change (dealt_of ([Dealt p d] ++ rest)) with ((p, d) :: dealt_of rest). unfold damage_to. cbn [foldr].
    fold (damage_to q (dealt_of rest)). rewrite (Hh q). change ([] ++ rest) with rest.
    repeat case_decide; try tauto; lia.
Qed.

Section room.
Context {F : Type}.

(** The players a connection moves, in order: its frames up to the deadline, if it is
    accepted. *)
Fixpoint frames_in_time (deadline : option Z) (arrivals : list (Z * frame F)) : list (frame F) :=
  match arrivals with
  | [] => []
  | (t, f) :: arrivals' => if in_time deadline t then f :: frames_in_time deadline arrivals' else []
  end.

Definition ids_of (frames : list (frame F)) : list string := GetPlayerId <$> omap frame_move frames.

Definition moved_ids (so : socket (F:=F)) : list string :=
  match so_accepted so with
  | Ok _ => ids_of (frames_in_time (so_deadline so) (so_frames so))
  | _ => []
  end.

(** The players that are still there when the loop is over: all but the one it moved last, and
    the empty text. *)
Definition stays (ids : list string) (p : string) : Prop := p ∈ ids ∧ (p = "" ∨ last ids ≠ Some p).

Definition left_behind (so : socket (F:=F)) (p : string) : Prop := stays (moved_ids so) p.

(** Of the players shown only such are left. *)
Definition stay_only (ids : list string) (ds : list mark) : Prop := ∀ p, p ∈ shown_of ds → stays ids p.

(** The connection has shown some of these players, and nothing else. *)
Definition shows (ids : list string) (ds : list mark) : Prop :=
  only RoomPart ds ∧ ∀ p, p ∈ shown_of ds → p ∈ ids.

Lemma shows_nothing ids : shows ids [].
Proof. split; [constructor|]. by intros p ?%elem_of_nil. Qed.

Lemma shown_of_app ds ds' : shown_of (ds ++ ds') = shown_of ds ++ shown_of ds'.
Proof. apply omap_app. Qed.

Lemma shows_move ids id ds : shows ids ds → shows (ids ++ [id]) (Shows id :: ds).
Proof.
  intros [Hp Hids]. split; [by constructor|]. intros p [->|Hin]%elem_of_cons; apply elem_of_app.
  - right. by apply list_elem_of_singleton.
  - left. by apply Hids.
Qed.

Lemma shows_more ids ids' ds : shows ids ds → shows (ids ++ ids') ds.
Proof. intros [Hp Hids]. split; [done|]. intros p Hin. apply elem_of_app. left. by apply Hids. Qed.

(** *** The steps of a connection *)

Lemma shown_of_shows ps : shown_of (Shows <$> ps) = ps.
Proof. induction ps as [|p ps IH]; [done|]. change (p :: shown_of (Shows <$> ps) = p :: ps). by rewrite IH. Qed.

(** The end removes the player moved last, whoever else shows it. *)
Lemma ws_end_keeps ids ds (rm : Room F) :
  shows ids ds →
  keeps room_inv anything (shows ids) (ws_end_steps (default "" (last ids))) ds rm (λ _ ds _, stay_only ids ds).
Proof.
  intros [Hpart Hids]. unfold ws_end_steps. case_bool_decide as Hq.
  - intros rm1 rest _ Hinv. set (q := default "" (last ids)) in *.
    exists (Shows <$> filter (λ p, p ≠ q) (shown_of ds)). split.
    { split; [by apply Forall_fmap, Forall_true|]. intros p. rewrite shown_of_shows. intros [_ Hin]%list_elem_of_filter.
      by apply Hids. }
    split; [done|]. split.
    + intros p Hp. cbn in Hp. apply lookup_delete_is_Some in Hp as [Hne Hm]. specialize (Hinv p Hm).
      rewrite shown_of_app, elem_of_app in Hinv |- *. rewrite shown_of_shows, list_elem_of_filter.
      destruct Hinv; [by left|by right].
    + intros p. rewrite shown_of_shows. intros [Hne Hin]%list_elem_of_filter. split; [by apply Hids|].
      right. intros E. apply Hne. subst q. by rewrite E.
  - intros p Hin. split; [by apply Hids|]. destruct (decide (p = "")) as [|Hp]; [by left|right].
    intros E. apply Hp. by rewrite E in Hq.
Qed.

(** A move. *)
Lemma room_inv_move (m : Move F) (rm : Room F) ds rest :
  room_inv rm (ds ++ rest) → room_inv (ApplyMove m rm) ((Shows (GetPlayerId m) :: ds) ++ rest).
Proof.
  intros Hinv p Hp. change (p ∈ GetPlayerId m :: shown_of (ds ++ rest)). cbn in Hp.
  apply lookup_insert_is_Some in Hp as [->|[_ Hm]]; [by left|right; exact (Hinv p Hm)].
Qed.

Lemma ws_reads_keeps deadline frames ids ds (rm : Room F) :
  shows ids ds →
  let all := ids ++ ids_of (frames_in_time deadline frames) in
  keeps room_inv anything (shows all) (ws_reads_steps deadline frames (default "" (last ids))) ds rm
    (λ _ ds _, stay_only all ds).
Proof.
  revert ids ds rm. induction frames as [|[t f] frames IH]; intros ids ds rm Hds all; subst all;
    cbn [frames_in_time ws_reads_steps].
  { rewrite app_nil_r. by apply ws_end_keeps. }
  destruct (in_time deadline t); [|rewrite app_nil_r; by apply ws_end_keeps].
  destruct f as [| | |m]; try by apply IH. set (rest := ids_of (frames_in_time deadline frames)).
  change (ids_of _) with (GetPlayerId m :: rest). rewrite cons_middle, app_assoc.
  intros rm1 others _ Hinv. exists (Shows (GetPlayerId m) :: ds). pose proof (shows_move _ (GetPlayerId m) _ Hds) as Hds'.
  split; [by apply shows_more|]. split; [done|]. split; [by apply room_inv_move|].
  specialize (IH (ids ++ [GetPlayerId m]) _ (ApplyMove m rm1) Hds'). by rewrite last_snoc in IH.
Qed.

Lemma WSHandler_keeps so (rm : Room F) :
  keeps room_inv anything (shows (moved_ids so)) (WSHandler_steps (so_accepted so) (so_deadline so) (so_frames so)) [] rm
    (λ _ ds _, stay_only (moved_ids so) ds).
Proof.
  unfold WSHandler_steps, moved_ids. destruct (so_accepted so); [|by intros p ?%elem_of_nil..].
  apply (ws_reads_keeps (so_deadline so) (so_frames so) []), shows_nothing.
Qed.
End room.

Section gacha.
Context {G U : Type} (IntN : RandIntN G) (NewV7 : M U string) (HIntN : IntN_in_range IntN).
Abbreviation registry := (StaticPoolRegistry_GetPool NewStaticPoolRegistry).

#[export] Instance sources_part : PartOf snd_lens (@rolls_inv (G * U)) anything no_inv anything nothing.
Proof. split; [apply _|done|done|]. by intros w s d d' rest -> -> Hinv _ _. Qed.

Lemma recorded_typed p now r : text_ok 64 p → recorded demo_pool p DemoPoolID now r → roll_typed r.
Proof.
  intros Hp ([Hrp Hrq] & _ & c & Hc & _ & Hid & Hrar). split; [by rewrite Hrp|]. split; [done|]. by exists c.
Qed.

(** The rolls that were drawn, and the counter after them. *)
Definition drawn (n : nat) (p : string) (now : time) (res : result (list Roll * Z)) : Prop :=
  ∀ rolls pity, res = Ok (rolls, pity) →
    length rolls = n ∧ Forall (recorded demo_pool p DemoPoolID now) rolls ∧ 0 <= pity < 80.

Lemma roll_loop_keeps n p now pity rolls gu :
  Forall (recorded demo_pool p DemoPoolID now) rolls → 0 <= pity < 80 →
  keeps no_inv anything nothing (roll_loop_steps IntN NewV7 n demo_pool p DemoPoolID now pity rolls) [] gu
    (λ res ds _, nothing ds ∧ drawn (length rolls + n) p now res).
Proof.
  revert pity rolls gu. induction n as [|n IH]; intros pity rolls gu Hr Hpity.
  { split; [done|]. rewrite Nat.add_0_r. by intros ?? [= <- <-]. }
  cbn. intros [g u] rest _ _. unfold part_act. cbn.
  destruct (roll_card_spec IntN HIntN demo_pool pity g demo_pool_ok) as
    (card & isPity & g' & Hcard & Hin & Hpos & Hflag & Hssr); [done|].
  rewrite Hcard. exists []. split; [done|]. split; [done|]. split; [done|].
  intros [g2 u2] rest2 _ _. cbn. destruct (NewV7 u2) as [[id|e|x] u3]; exists []; (split; [done|]);
    (split; [done|]); (split; [done|]); [|split; [done|by intros ??]..].
  match goal with |- keeps _ _ _ (roll_loop_steps _ _ _ _ _ _ _ _ ?rolls') _ _ _ =>
    replace (length rolls + Datatypes.S n)%nat with (length rolls' + n)%nat by (rewrite length_app; simpl; lia) end.
  apply IH.
  - apply Forall_app. split; [done|]. apply Forall_singleton. split; [done|]. split; [done|]. by exists card.
  - change (PityThreshold demo_pool) with 80 in Hflag. case_decide; [lia|].
    destruct (decide (pity + 1 = 80)) as [He|]; [|lia]. by apply Hflag, Hssr in He.
Qed.

(** The rolls a call may store. *)
Definition rolled_for (now : time) (p q : string) (n : Z) (rolls : list Roll) : Prop :=
  Z.of_nat (length rolls) = n ∧ Forall (recorded demo_pool p q now) rolls.

Lemma Roll_keeps own now p q n w :
  own [] → (∀ rolls, rolled_for now p q n rolls → own [Rolled rolls]) → text_ok 64 p →
  keeps rolls_inv anything own (Roll_steps IntN NewV7 registry now p q n) [] w done_if_Ok.
Proof.
  intros Hown0 Hown1 Hp. unfold Roll_steps. destruct ((n <? 1) || (10 <? n)) eqn:Hn; [done|].
  destruct (registry q) as [pool|e|x] eqn:Hpool; [|done..].
  destruct (demo_pool_only q pool Hpool) as [-> ->]. cbn [p_wrapErr p_lift mbind P_bind and_then].
  case_bool_decide; [done|]. cbn. intros [r1 gu1] rest _ Hinv. exists []. split; [done|]. split; [done|].
  split; [done|]. eapply (keeps_and_then _ _ own _ _ _ _ (λ res ds _, nothing ds ∧ drawn (Z.to_nat n) p now res)).
  - apply (keeps_own _ _ nothing); [by intros ds ->|].
    apply (keeps_on_part snd_lens rolls_inv anything no_inv anything nothing _ _ _
      (λ res ds _, nothing ds ∧ drawn (Z.to_nat n) p now res)); [done|done|].
    apply (roll_loop_keeps (Z.to_nat n) p now _ []); [constructor|].
    cbn [fst]. destruct (gr_pity r1 !! pityKey p DemoPoolID) as [k|] eqn:Hk; [|simpl; lia].
    destruct Hinv as [[_ Hpity] _]. by destruct (Hpity _ _ Hk).
  - intros [[rolls pity]|e|x] ds w2 [-> Hdrawn]; [|done..]. cbn. intros [r3 gu3] rest3 _ [[Hr3 Hk3] Hall].
    destruct (Hdrawn rolls pity eq_refl) as (Hlen & Hrolls & Hpity). exists [Rolled rolls].
    split; [|split; [done|split; [|done]]].
    + apply Hown1. split; [lia|done].
    + split; [split|]; cbn in *.
      * apply Forall_app. split; [done|]. eapply Forall_impl; [exact Hrolls|]. intros r. by apply recorded_typed.
      * apply map_Forall_insert_2; [|done]. split; [by exists p|done].
      * by rewrite Hall, (Permutation_app_comm _ rolls).
Qed.
End gacha.

(** ** Handlers and middlewares *)

(** A request that has settled what it owed, and has done something exactly when its answer is
    a success. *)
Definition answered {W} (out : list wcmd * option string) (ds : list mark) (w : W) : Prop :=
  settled ds ∧ (ds ≠ [] ↔ success out).

Lemma answered_nothing {W} out (w : W) : ¬ success out → answered out [] w.
Proof. intros Hout. split; [done|]. by split. Qed.

Lemma too_many_fails : ¬ success (too_many_requests, None).
Proof. by intros [_ ?]. Qed.

Lemma unauthorized_fails msg : ¬ success (writeUnauthorized msg, None).
Proof. by intros [_ ?]. Qed.

Section rules.
Context {W : Type} (Inv : W → list mark → Prop) (grows : W → W → Prop) `{!Shared Inv grows} (own : list mark → Prop).
Context (own_nothing : own []).
Context (post : list wcmd * option string → list mark → Prop).

Abbreviation after post := (λ out ds _, post out ds) (only parsing).
Abbreviation good next r := (∀ w, keeps Inv grows own (next r) [] w (after post)) (only parsing).
Abbreviation beside_keeps t w post := (keeps (beside Inv) (beside_grows grows) own t [] w (after post)) (only parsing).

Lemma with_steps_keeps {A B} good (h : method_handler A B) (method : A → P W B) r :
  calls_once good (λ S f, h S f r) →
  (∀ a, good a → ∀ w, keeps Inv grows own (method a) [] w done_if_Ok) →
  ∀ w, keeps Inv grows own (with_steps h method r) [] w answered.
Proof.
  intros Hh Hm w. unfold with_steps. destruct Hh as [(out & Hout & E)|(a & k & Ha & Hk & E)]; rewrite !E.
  - by apply answered_nothing.
  - eapply keeps_and_then; [by apply Hm|]. intros res ds w' [Hds Hres]. split; [done|].
    rewrite E. cbn [fst]. by rewrite Hk.
Qed.

Lemma with_steps_reads {A B} (h : method_handler A B) (method : A → P W B) r :
  (∀ a, reads_only (method a)) → reads_only (with_steps h method r).
Proof.
  intros Hm. unfold with_steps. destruct (h _ _ r None) as [out [a|]]; [|done].
  by apply reads_only_and_then.
Qed.

Lemma on_part_keeps {S} (l : lens W S) InvS growsS (h : HProg S) r `{!PartOf l Inv grows InvS growsS own} :
  (∀ s, keeps InvS growsS own (h r) [] s (after post)) → good (on_part_h l h) r.
Proof.
  intros Hh w. by apply (keeps_on_part l Inv grows InvS growsS own _ _ _ (after post)).
Qed.

Lemma beside_part_keeps {X} (t : prog W (list wcmd * option string)) (w : X * W) :
  (∀ w, keeps Inv grows own t [] w (after post)) → beside_keeps (on_part snd_lens t) w post.
Proof. intros Ht. by apply (keeps_on_part snd_lens _ _ Inv grows own _ _ _ (after post)). Qed.

Lemma RateLimit_keeps {B} `{!TokenBucket B} now now' (next : HProg W) r (w : option (Limiter B) * W) :
  post (too_many_requests, None) [] → good next r → beside_keeps (RateLimit_steps now now' next r) w post.
Proof.
  intros Hlim Hn. apply keeps_beside_first; [apply _|done|]. intros [] w'; [by apply beside_part_keeps|done].
Qed.

(** What is known of a request whose answer may be that of an earlier one. *)
Context (weak : list mark → Prop) (weak_nothing : weak []) (post_weak : ∀ out ds, post out ds → weak ds).

Lemma idem_record_keeps {I} `{!IdemStore body I} clk scoped (next : HProg W) r (w : I * W) :
  good next r → beside_keeps (idem_record_steps clk scoped next r) w (λ _, weak).
Proof.
  intros Hn. unfold idem_record_steps.
  eapply (keeps_and_then _ _ _ _ _ _ _ (λ out ds _, post out ds ∧ own ds)).
  { apply keeps_owned; [done|]. by apply beside_part_keeps. }
  intros [cmds why] ds w' [Hpost Hds]. apply post_weak in Hpost. destruct (rec_run rec_init cmds) as [rw out].
  destruct why as [x|]; [done|]. apply keeps_beside; [apply _|done|]. by intros [] ?.
Qed.

Lemma Idempotency_keeps {I} `{!IdemStore body I} clk (next : HProg W) r (w : I * W) :
  good next r →
  beside_keeps (Idempotency_steps true clk next r) w (λ out ds, if idem_skips r then post out ds else weak ds).
Proof.
  intros Hn. unfold Idempotency_steps. cbn [negb orb]. destruct (idem_skips r); [by apply beside_part_keeps|].
  apply keeps_beside; [apply _|done|]. intros [[e|]|e|x] w'; [done|by apply idem_record_keeps..|done].
Qed.

Lemma RequireAuth_keeps `{!JwtLibrary} validator now (next : HProg W) r :
  (∀ out, ¬ success out → post out []) →
  (∀ r', same_question r' r → good next r') → good (RequireAuth_steps validator now next) r.
Proof.
  intros Hrefuse Hn w. unfold RequireAuth_steps. destruct validator as [v|]; [|by apply Hn].
  destruct (bearerTokenFrom r) as [token|]; [|apply Hrefuse, unauthorized_fails].
  destruct (Validator_Validate v token now); [by apply Hn|apply Hrefuse, unauthorized_fails|apply Hrefuse, panic_fails].
Qed.
End rules.

Lemma public_keeps {W} (Inv : W → list mark → Prop) grows `{!Shared Inv grows} own post weak {B I}
    `{!TokenBucket B, !IdemStore body I} clk (next : HProg W) r (w : option (Limiter B) * (I * W)) :
  own [] → (∀ out, ¬ success out → post out []) → weak [] → (∀ out ds, post out ds → weak ds) →
  (∀ w, keeps Inv grows own (next r) [] w (λ out ds _, post out ds)) →
  keeps (beside (beside Inv)) (beside_grows (beside_grows grows)) own (public_steps clk next r) [] w
    (λ out ds _, if idem_skips r then post out ds else weak ds).
Proof.
  intros Hown Hrefuse Hweak Hpost Hn. apply (RateLimit_keeps (beside Inv) (beside_grows grows) own Hown
    (λ out ds, if idem_skips r then post out ds else weak ds)).
  - destruct (idem_skips r); [apply Hrefuse, too_many_fails|done].
  - intros w'. by apply Idempotency_keeps.
Qed.

(** ** The parts together *)

Section frames.
Context (k : part) (d d' rest : list mark) (Hd : only k d) (Hd' : only k d').

Lemma omap_only {A} (g : mark → option A) k' ds :
  (∀ m a, g m = Some a → part_of m = k') → k ≠ k' → only k ds → omap g ds = [].
Proof.
  intros Hg Hne. induction 1 as [|m ds Hm _ IH]; [done|]. cbn. destruct (g m) as [a|] eqn:E; [|done].
  apply Hg in E. congruence.
Qed.

(** Marks about other parts make no difference. *)
Lemma omap_frame {A} (g : mark → option A) k' :
  (∀ m a, g m = Some a → part_of m = k') → k ≠ k' → omap g (d ++ rest) = omap g (d' ++ rest).
Proof. intros Hg Hne. rewrite !omap_app. by rewrite (omap_only g k' d), (omap_only g k' d'). Qed.

Ltac frame k' := intros Hne; unfold events_inv, profiles_inv, rolls_inv, hits_inv, room_inv,
  owed_of, shown_of, scored_of, dealt_of, registered_of, opened_of, rolled_of;
  rewrite !(omap_frame _ k'); [done|first [done|by intros [] ? ?]..].

Lemma events_frame w : k ≠ EventPart → events_inv w (d ++ rest) → events_inv w (d' ++ rest).
Proof. frame EventPart. Qed.
Lemma profiles_frame r : k ≠ ProfilePart → profiles_inv r (d ++ rest) → profiles_inv r (d' ++ rest).
Proof. frame ProfilePart. Qed.
Lemma rolls_frame {X} (w : GachaRepo * X) : k ≠ GachaPart → rolls_inv w (d ++ rest) → rolls_inv w (d' ++ rest).
Proof. frame GachaPart. Qed.
Lemma hits_frame r : k ≠ BattlePart → hits_inv r (d ++ rest) → hits_inv r (d' ++ rest).
Proof. frame BattlePart. Qed.
Lemma room_frame {F} (rm : Room F) : k ≠ RoomPart → room_inv rm (d ++ rest) → room_inv rm (d' ++ rest).
Proof. frame RoomPart. Qed.
End frames.

Section server.
Context {F G U : Type} `{!GoRuntime} (IntN : RandIntN G) (NewV7 : M U string).
Abbreviation Sv := (Services ProfileRepo GachaRepo EventRepo Leaderboard BattleRepo F G U).

Definition server_inv (w : Sv) (ds : list mark) : Prop :=
  profiles_inv (sv_profile w) ds ∧ rolls_inv (sv_gacha w) ds ∧ events_inv (sv_event w) ds ∧
  hits_inv (sv_battle w) ds ∧ room_inv (sv_room w) ds.

Definition server_grow (w w' : Sv) : Prop := events_grow (sv_event w) (sv_event w').

#[export] Instance server_shared : Shared server_inv server_grow.
Proof.
  split.
  - split; [by intros ??|]. intros w1 w2 w3. unfold server_grow. by etrans.
  - intros w ds ds' Hp (H1 & H2 & H3 & H4 & H5).
    split; [exact (Inv_perm (grows:=anything) _ _ _ Hp H1)|].
    split; [exact (Inv_perm (grows:=anything) _ _ _ Hp H2)|].
    split; [exact (Inv_perm (grows:=events_grow) _ _ _ Hp H3)|].
    split; [exact (Inv_perm (grows:=anything) _ _ _ Hp H4)|exact (Inv_perm (grows:=anything) _ _ _ Hp H5)].
Qed.

(** A part of the server, whose calls leave marks about it only. *)
Ltac part_instance k :=
  intros Hown; split; [apply _|done|unfold server_inv; tauto|];
  intros w s d d' rest Hd%Hown Hd'%Hown (H1 & H2 & H3 & H4 & H5) Hg Hs; split; [|try (by intros id); exact Hg];
  (split; [first [exact Hs|by apply (profiles_frame k d d')]|]);
  (split; [first [exact Hs|by apply (rolls_frame k d d')]|]);
  (split; [first [exact Hs|by apply (events_frame k d d')]|]);
  split; [first [exact Hs|by apply (hits_frame k d d')]|first [exact Hs|by apply (room_frame k d d')]].

Lemma profile_part own : (∀ ds, own ds → only ProfilePart ds) →
  PartOf profile_lens server_inv server_grow profiles_inv anything own.
Proof. part_instance ProfilePart. Qed.
Lemma gacha_part own : (∀ ds, own ds → only GachaPart ds) →
  PartOf gacha_lens server_inv server_grow rolls_inv anything own.
Proof. part_instance GachaPart. Qed.
Lemma event_part own : (∀ ds, own ds → only EventPart ds) →
  PartOf event_lens server_inv server_grow events_inv events_grow own.
Proof. part_instance EventPart. Qed.
Lemma battle_part own : (∀ ds, own ds → only BattlePart ds) →
  PartOf battle_lens server_inv server_grow hits_inv anything own.
Proof. part_instance BattlePart. Qed.
Lemma room_part own : (∀ ds, own ds → only RoomPart ds) →
  PartOf room_lens server_inv server_grow room_inv anything own.
Proof. part_instance RoomPart. Qed.

#[export] Instance optimize_part : PartOf optimize_lens server_inv server_grow no_inv anything nothing.
Proof.
  split; [apply _|done|done|]. intros w s d d' rest -> -> (H1 & H2 & H3 & H4 & H5) _ Hs.
  split; [exact (conj H1 (conj H2 (conj H3 (conj H4 H5))))|by intros id].
Qed.

Context {B I : Type} `{!TokenBucket B, !IdemStore body I}.
Context `{!GoJson, !Vldtr, !VldtrLaws, !JwtLibrary, !Router, !RouterLaws} {K : Type → Type} `{!PromClient K}.
Context (issuer : option Issuer) (validator : option Validator) (prom : PrometheusHandler (R:=K) (F:=F))
  (battleImpl : string).
Abbreviation registry := (StaticPoolRegistry_GetPool NewStaticPoolRegistry).
Context (HIntN : IntN_in_range IntN).
Abbreviation steps_of := (handler_steps IntN NewV7 registry issuer prom battleImpl).

(** What is left of an operation of the services while and after it runs. *)
Definition trace_of (o : service_op) (ds : list mark) : Prop :=
  match o with
  | SEvent (OpAddScore ev p d _ _) => ds = [Owes ev p d; Scored ev p d] ∨ ds = [Scored ev p d]
  | SEvent (OpCreate inp now) => ds = [Opened (event_of inp now)]
  | SProfile (PCreate id name now) =>
      ds = [Registered {| Profile_ID := id; Profile_Name := name; Profile_CreatedAt := now |}]
  | SHit _ p d => ds = [Dealt p d]
  | SRoll now p q n => ∃ rolls, ds = [Rolled rolls] ∧ rolled_for now p q n rolls
  | _ => False
  end.

(** What a handler may have done and owe: the operation it was asked for. *)
Definition handler_owes (e : endpoint) (rd : readings) (r : Request) (ds : list mark) : Prop :=
  ds = [] ∨ ∃ o, calls_of e rd r o ∧ trace_of o ds.

Lemma handler_owes_call e rd r o ds : calls_of e rd r o → trace_of o ds → handler_owes e rd r ds.
Proof. intros Hc Ht. right. by exists o. Qed.

(** The endpoints that store what a request asks for. *)
Definition records (e : endpoint) : bool :=
  match e with ProfileCreate | EventCreate | EventAddScore | BattleDamage | GachaRoll => true | _ => false end.

Definition records_part (e : endpoint) : part :=
  match e with
  | ProfileCreate => ProfilePart
  | GachaRoll => GachaPart
  | BattleDamage => BattlePart
  | _ => EventPart
  end.

Lemma handler_owes_only e rd r ds : records e = true → handler_owes e rd r ds → only (records_part e) ds.
Proof.
  intros He [->|(o & Hc & Ht)]; [constructor|].
  destruct e; try discriminate He; destruct o as [[]|[]| | | | | | |]; simpl in Hc, Ht; try done;
    [subst|subst|destruct Ht as [->| ->]|subst|destruct Ht as (rolls & -> & _)]; repeat constructor.
Qed.

(** The rest read, or set the toggle. *)
Definition queries (e : endpoint) : bool :=
  match e with OptimizeSet => false | _ => negb (records e) end.

Lemma query_reads e rd r : queries e = true → reads_only (steps_of e rd r : prog Sv _).
Proof.
  assert (∀ {A C S : Type} (l : lens Sv S) (h : method_handler A C) method,
    LensLaws l → (∀ a, reads_only (method a)) → reads_only (on_part_h l (with_steps h method) r)) as Hquery.
  { intros A C S l h method Hl Hm. by apply reads_only_on_part, with_steps_reads. }
  destruct e; intros Hw; try discriminate Hw; try (by repeat split); apply Hquery; try apply _.
  - intros [ev n]. apply reads_only_on_part; [apply _|apply (board_reads ev "" n)].
  - intros [[ev p] n]. apply reads_only_on_part; [apply _|apply (board_reads ev p n)].
  - apply profile_reads.
  - intros _. apply reads_only_on_part; [apply _|apply (event_reads "" "" "" (rd_now rd) 0)].
  - intros id. apply reads_only_on_part; [apply _|apply (event_reads id "" "" (rd_now rd) 0)].
  - intros [ev p]. apply reads_only_on_part; [apply _|apply (event_reads "" ev p 0 0)].
  - intros [ev p]. apply reads_only_on_part; [apply _|apply (event_reads "" ev p (rd_now rd) (rd_now' rd))].
  - intros [p n]. apply (gacha_reads p "" n).
  - intros [p q]. apply (gacha_reads p q 0).
Qed.

(** A handler that records, by its method. *)
Lemma recorder_keeps {A C S} e rd (l : lens Sv S) InvS growsS `{!Shared InvS growsS} good (h : method_handler A C) method r w :
  PartOf l server_inv server_grow InvS growsS (handler_owes e rd r) →
  calls_once good (λ S f, h S f r) →
  (∀ a w, good a → keeps InvS growsS (handler_owes e rd r) (method a) [] w done_if_Ok) →
  keeps server_inv server_grow (handler_owes e rd r) (on_part_h l (with_steps h method) r) [] w answered.
Proof.
  intros Hpart Hh Hm.
  apply (on_part_keeps _ _ _ (or_introl eq_refl) (λ out ds, answered out ds tt) l InvS growsS); [exact Hpart|].
  intros s. apply (with_steps_keeps InvS growsS _ good h method r Hh). intros a Ha w'. by apply Hm.
Qed.

Lemma record_keeps e rd r w :
  records e = true → has_char "/" (URLParam r "id") = false →
  keeps server_inv server_grow (handler_owes e rd r) (steps_of e rd r) [] w answered.
Proof.
  intros He Hid. pose proof (λ ds, handler_owes_only e rd r ds He) as Honly.
  assert (handler_owes e rd r []) as Hnone by by left.
  destruct e; try discriminate He; cbn [handler_steps].
  - apply (recorder_keeps _ _ _ _ _ _ _ _ _ _ (profile_part _ Honly) (CreateProfile_once rd r)).
    intros [id name] w' Hc. pose proof Hc as (_ & q & _ & Hok & E1 & E2). apply createReq_ok in Hok as [? ?].
    apply CreateProfile_keeps; [done|by eapply handler_owes_call|by subst..].
  - apply (recorder_keeps _ _ _ _ _ _ _ _ _ _ (event_part _ Honly) (Create_once rd r (rd_now' rd))).
    intros inp w' Hc. pose proof Hc as (_ & q & _ & Hok & E).
    apply Create_keeps; [done|by eapply handler_owes_call|]. subst inp. by apply createEventReq_ok.
  - apply (recorder_keeps _ _ _ _ _ _ _ _ _ _ (event_part _ Honly) (AddScore_once rd r)).
    intros [[ev p] d] w' Hc. pose proof Hc as (E & _ & _ & q & _ & Hok & E1 & _).
    apply AddScore_keeps; [|by subst|subst; by apply addScoreReq_valid in Hok as [? _]].
    split; [done|]. split; (eapply handler_owes_call; [exact Hc|]); [by left|by right].
  - apply (recorder_keeps _ _ _ _ _ _ _ _ _ _ (battle_part _ Honly) (ApplyDamage_once rd r battleImpl)).
    intros [p d] w' Hc. pose proof Hc as (_ & Hd & q & _ & Hok & E & _).
    apply V1Naive_keeps; [done|by eapply handler_owes_call|subst; by apply damageReq_ok|done].
  - apply (recorder_keeps _ _ _ _ _ _ _ _ _ _ (gacha_part _ Honly) (Roll_once rd r)).
    intros [[p q] n] w' Hc. pose proof Hc as (_ & _ & req & _ & Hok & E & _ & _).
    apply Roll_keeps; [done|done| |subst; by apply rollReq_valid in Hok as [? _]].
    intros rolls Hrolls. eapply handler_owes_call; [exact Hc|]. by exists rolls.
Qed.
(** A handler at its end. *)
Definition handler_ends (e : endpoint) (out : list wcmd * option string) (ds : list mark) : Prop :=
  settled ds ∧ (records e = true → (ds ≠ [] ↔ success out)).

Lemma handler_keeps e rd r w :
  has_char "/" (URLParam r "id") = false →
  keeps server_inv server_grow (handler_owes e rd r) (steps_of e rd r) [] w (λ out ds _, handler_ends e out ds).
Proof.
  intros Hid. destruct (records e) eqn:He.
  { eapply keeps_impl; [|by apply record_keeps]. by intros out ds w' [? ?]. }
  assert (∀ out, handler_ends e out []) as Hend by (intros out; split; [done|by rewrite He]).
  destruct (queries e) eqn:Hq.
  { apply (keeps_reads server_inv server_grow); [by left|done|by apply query_reads]. }
  destruct e; try discriminate Hq; try discriminate He. apply (keeps_own _ _ nothing); [by intros ds ->; left|].
  apply (on_part_keeps _ _ nothing eq_refl (handler_ends OptimizeSet) optimize_lens no_inv anything); [apply _|].
  intros s s1 rest _ _. destruct (OptimizeHandler_ServeHTTP r s1) as [out s2]. exists [].
  split; [done|]. split; [done|]. split; [done|apply Hend].
Qed.

(** *** Requests and connections *)

Definition endpoint_of (r : Request) : option endpoint :=
  '(i, _) ← find_route routes.*1 (Method r) (URL_Path r);
  '(_, (e, _)) ← routes !! i;
  Some e.

(** What a request or a connection may have done and owe between two of its steps: the
    operation its method, path and body ask for; the players the connection moves. *)
Definition may_owe (a : arrival (F:=F)) (ds : list mark) : Prop :=
  ds = [] ∨
  match a with
  | ARequest rd r => ∃ o, may_call rd r o ∧ trace_of o ds
  | ASocket rd so => shows (moved_ids so) ds
  | _ => False
  end.

(** At its end a request owes nothing; and one to an endpoint that records, unless it carries an
    idempotency key, was answered with a success exactly when it has done something. A
    connection has left behind what it did not remove. *)
Definition has_ended (a : arrival (F:=F)) (out : list wcmd * option string) (ds : list mark) : Prop :=
  owed_of ds = [] ∧
  match a with
  | ARequest rd r => shown_of ds = [] ∧
      (idem_skips r = true → ∀ e, endpoint_of r = Some e → records e = true → (ds ≠ [] ↔ success out))
  | ASocket _ so => stay_only (moved_ids so) ds
  | _ => ds = []
  end.

(** Every connection moves one player, who has a name. *)
Definition one_player (a : arrival (F:=F)) : Prop :=
  match a with
  | ASocket _ so => ∃ p, p ≠ "" ∧ Forall (λ id, id = p) (moved_ids so)
  | _ => True
  end.

Lemma one_player_leaves rd so p : one_player (ASocket rd so) → ¬ left_behind so p.
Proof.
  intros (q & Hq & Hall) [Hin Hlast]. rewrite Forall_forall in Hall. pose proof (Hall p Hin) as ->.
  destruct Hlast as [?|Hlast]; [done|]. destruct (moved_ids so) as [|id ids _] using rev_ind; [by apply elem_of_nil in Hin|].
  rewrite last_snoc in Hlast. apply Hlast. f_equal. apply Hall, elem_of_app. right. by apply list_elem_of_singleton.
Qed.

(** What is shown is shown by a connection: one that is open and has moved it, or one that
    has left it behind. *)
Definition shown_by (calls : list (arrival (F:=F) * prog (option (Limiter B) * (I * Sv)) (list wcmd * option string)))
    (p : string) : Prop :=
  ∃ rd so t, (ASocket rd so, t) ∈ calls ∧ p ∈ moved_ids so ∧ (finished t = true → left_behind so p).

Lemma request_shows_nothing rd r ds : may_owe (ARequest rd r) ds → shown_of ds = [].
Proof.
  intros [->|(o & _ & Ht)]; [done|]. destruct o as [[]|[]| | | | | | |]; simpl in Ht; try done;
    first [by subst|by destruct Ht as [->| ->]|by destruct Ht as (rolls & -> & _)].
Qed.

Lemma accounts_shown calls marks p :
  Forall2 (accounts may_owe has_ended) calls marks → p ∈ shown_of (concat marks) → shown_by calls p.
Proof.
  induction 1 as [|[a t] ds calls marks [Hown Hend] _ IH]; [by intros ?%elem_of_nil|].
  cbn [concat]. rewrite shown_of_app, elem_of_app. cbn [fst snd] in Hown, Hend. intros [Hin|Hin].
  - destruct a as [rd r|rd so|now|].
    + apply request_shows_nothing in Hown. rewrite Hown in Hin. by apply elem_of_nil in Hin.
    + exists rd, so, t. split; [by left|]. split.
      * destruct Hown as [->|[_ Hids]]; [by apply elem_of_nil in Hin|by apply Hids].
      * intros Ht. destruct t as [out|]; [|done]. by apply (Hend out eq_refl).
    + destruct Hown as [->|[]]. by apply elem_of_nil in Hin.
    + destruct Hown as [->|[]]. by apply elem_of_nil in Hin.
  - destruct (IH Hin) as (rd & so & t' & Hc & Hp). exists rd, so, t'. split; [by right|done].
Qed.

Abbreviation whole_inv := (beside (X:=option (Limiter B)) (beside (X:=I) server_inv)).
Abbreviation whole_grow := (beside_grows (X:=option (Limiter B)) (beside_grows (X:=I) server_grow)).
Abbreviation steps := (serve_steps (B:=B) (I:=I) IntN NewV7 registry issuer validator prom battleImpl).

Lemma request_keeps rd r w :
  keeps whole_inv whole_grow (may_owe (ARequest rd r)) (steps (ARequest rd r)) [] w (ends has_ended (ARequest rd r)).
Proof.
  set (own := may_owe (ARequest rd r)). assert (own []) as Hnone by by left.
  cbn [serve_steps]. unfold server_steps, ends, has_ended, endpoint_of.
  destruct (find_route _ _ _) as [[i params]|] eqn:Hfound; [|by split; [|split; [|intros _ e [=]]]].
  apply route_found in Hfound as (pattern & Hi & Hm). rewrite list_lookup_fmap in Hi.
  destruct (routes !! i) as [[[m pat] [e protected]]|] eqn:Hr; [|done].
  simpl in Hi. injection Hi as -> ->. set (r' := with_params r params).
  apply (keeps_impl _ _ _ _ _ _ (λ out ds _, if idem_skips r' then handler_ends e out ds else settled ds)).
  { intros out ds w'. change (idem_skips r') with (idem_skips r).
    destruct (idem_skips r); [intros [[Hs Hs'] Ho]|by intros [??]].
    split; [done|]. split; [done|]. intros _ e'. cbn [mbind option_bind]. rewrite Hr. by intros [= <-]. }
  assert (∀ r1 w, same_question r1 r' →
    keeps server_inv server_grow own (steps_of e rd r1) [] w (λ out ds _, handler_ends e out ds)) as Hh.
  { intros r1 w1 E. eapply (keeps_own _ _ (handler_owes e rd r1)); [|apply handler_keeps].
    - intros ds [->|(o & Hc & Ht)]; [by left|]. right. exists o. split; [|done].
      exists i, pattern, e, protected, params. split_and!; [done|done|]. by eapply calls_of_same.
    - unfold URLParam. destruct E as [-> _]. by eapply match_path_clean. }
  assert (∀ out, ¬ success out → handler_ends e out []) as Hrefuse by by intros out Hout; split; [|intros _; split].
  destruct protected; apply (public_keeps server_inv server_grow own (handler_ends e) settled); try done;
    try (by intros out ds []); intros w1; [|by apply Hh].
  apply RequireAuth_keeps; [done|]. intros r1 E w2. by apply Hh.
Qed.

Lemma socket_keeps rd so w :
  keeps whole_inv whole_grow (may_owe (ASocket rd so)) (steps (ASocket rd so)) [] w (ends has_ended (ASocket rd so)).
Proof.
  cbn [serve_steps]. unfold socket_steps.
  destruct (find_route _ _ _) as [[i params]|]; [|by split; [|intros p ?%elem_of_nil]].
  apply (keeps_own _ _ (shows (moved_ids so))); [by right|]. set (r' := with_params _ _).
  set (post := λ ds, owed_of ds = [] ∧ stay_only (moved_ids so) ds).
  assert (post []) as Hnone by by split; [|intros p ?%elem_of_nil].
  apply (keeps_impl _ _ _ _ _ _ (λ _ ds _, if idem_skips r' then post ds else post ds)).
  { intros out ds w'. by destruct (idem_skips r'). }
  apply (public_keeps server_inv server_grow _ (λ _, post) post); try done; [apply shows_nothing|]. intros w1.
  apply (on_part_keeps _ _ _ (shows_nothing _) (λ _, post) room_lens room_inv anything).
  { apply room_part. by intros ds [? _]. }
  intros rm. eapply keeps_and_then.
  { apply keeps_owned; [apply shows_nothing|apply WSHandler_keeps]. }
  intros _ ds w2 [Hstay [Honly _]]. split; [|exact Hstay]. by apply (omap_only RoomPart _ EventPart); [intros [] ? [=]| |].
Qed.

(** Ticks and the readiness gate touch none of it. *)
Lemma tick_keeps now w :
  keeps whole_inv whole_grow (may_owe (ATick now)) (steps (ATick now)) [] w (ends has_ended (ATick now)).
Proof. apply keeps_beside; [apply _|by left|done]. Qed.

Lemma draining_keeps w :
  keeps whole_inv whole_grow (may_owe ADraining) (steps ADraining) [] w (ends has_ended ADraining).
Proof.
  intros w1 rest _ Hinv. exists []. split; [by left|]. split; [by intros id|]. by split.
Qed.

Lemma owed_concat (marks : list (list mark)) : Forall (λ ds, owed_of ds = []) marks → owed_of (concat marks) = [].
Proof.
  induction 1 as [|ds marks Ho _ IH]; [done|]. unfold owed_of in *. simpl. by rewrite omap_app, Ho, IH.
Qed.

(** The invariant and the account of every call, from a server that starts empty. *)
Lemma server_accounts (es : list (pool_event (arrival (F:=F)))) (c : pool arrival _ (list wcmd * option string))
    (ol : option (Limiter B)) (i : I) (gu : G * U) :
  pool_run steps es {| pl_state := (ol, (i, fresh gu)); pl_calls := [] |} = Some c →
  ∃ marks, server_inv (pl_state c).2.2 (concat marks) ∧ Forall2 (accounts may_owe has_ended) (pl_calls c) marks.
Proof.
  intros Hrun. set (c0 := Build_pool (ol, (i, fresh gu)) []) in Hrun.
  assert (pool_inv whole_inv whole_grow may_owe has_ended c0 []) as Hinit.
  { split; [|constructor]. destruct (fresh_typed (F:=F) gu) as (Ht1 & Ht2 & Ht3 & Ht4).
    split; [|split; [|split; [|split]]].
    - split; [exact Ht1|done].
    - split; [exact Ht2|done].
    - split; [exact Ht3|]. split; [done|]. intros ev p _. unfold points_of, event_scores. cbn.
      by rewrite !lookup_empty.
    - split; [exact Ht4|]. intros p. unfold hp_of. cbn. by rewrite lookup_empty.
    - intros p Hp. cbn in Hp. rewrite lookup_empty in Hp. by destruct Hp. }
  destruct (pool_inv_run whole_inv whole_grow steps may_owe has_ended (λ _, True) es c0 c []) as [marks Hinv];
    [| |done|done|].
  { intros [rd r|rd so|now|] w Ha; (split; [by left|]);
      [apply request_keeps|apply socket_keeps|apply tick_keeps|apply draining_keeps]. }
  { apply Forall_true. by intros []. }
  exists marks. split; [apply Hinv|]. by eapply pool_inv_accounts.
Qed.

(** C3. The server under concurrency. Requests and WebSocket connections arrive at any
    moments at a server that started empty, and the steps of their goroutines
    interleave in any way, also with the ticks of the limiter's sweeper and with the
    moment at which the server starts draining. At every moment all stores
    are well typed; the points of every player in every event are, in 64-bit arithmetic,
    the score the leaderboard ranks plus what is owed to it, where only score requests under
    way owe anything, each at most the one increment that its path and body ask for;
    and a player is shown in the room only if a connection has moved it that is still open,
    or one that ended and left it behind, because it moved another player last or the
    player is the empty text. So whenever nothing is under way points and ranked scores
    are equal, and if every connection has moved one player, with a name, the room is empty. *)
Theorem concurrent_server (es : list (pool_event (arrival (F:=F)))) (c : pool arrival _ (list wcmd * option string))
    (ol : option (Limiter B)) (i : I) (gu : G * U)
    (Hrun : pool_run steps es {| pl_state := (ol, (i, fresh gu)); pl_calls := [] |} = Some c) :
  let w := (pl_state c).2.2 in
  services_typed w ∧
  (∃ marks : list (list mark), Forall2 (accounts may_owe has_ended) (pl_calls c) marks ∧
    ∀ ev p, has_char "/" ev = false →
      points_of (sv_event w).1 ev p =
      int64_wrap (default 0 (event_scores (sv_event w).2 ev !! p) + delta_of ev p (owed_of (concat marks)))) ∧
  (∀ p, is_Some (members (sv_room w) !! p) → shown_by (pl_calls c) p) ∧
  (quiet c = true →
     (∀ ev p, has_char "/" ev = false →
        points_of (sv_event w).1 ev p = default 0 (event_scores (sv_event w).2 ev !! p)) ∧
     (Forall (λ at', one_player at'.1) (pl_calls c) → members (sv_room w) = ∅)).
Proof.
  destruct (server_accounts es c ol i gu Hrun) as (marks & Hinv & Hacc). cbv zeta.
  destruct Hinv as ([Ht1 _] & [Ht2 _] & (Ht3 & _ & Hled) & [Ht4 _] & Hroom).
  assert (∀ p, is_Some (members (sv_room (pl_state c).2.2) !! p) → shown_by (pl_calls c) p) as Hshown.
  { intros p Hp. by eapply accounts_shown, Hroom. }
  split; [exact (conj Ht1 (conj Ht2 (conj Ht3 Ht4)))|]. split.
  { exists marks. split; [done|]. intros ev p Hev. apply (Hled ev p Hev). }
  split; [done|]. intros Hq. split.
  - intros ev p Hev. assert (owed_of (concat marks) = []) as Howed.
    { apply owed_concat. eapply (accounts_quiet may_owe has_ended); [by intros a out ds []|done|done]. }
    destruct (Hled ev p Hev) as [_ ->]. rewrite Howed. cbn. rewrite Z.add_0_r.
    apply int64_wrap_small. destruct Ht3 as [_ Hboard].
    destruct (event_scores _ ev !! p) as [s|] eqn:Hs; [|simpl; int_range].
    by destruct (Hboard ev p s Hs) as (_ & _ & ?).
  - intros Hone. apply map_empty. intros p. apply eq_None_not_Some. intros Hp.
    destruct (Hshown p Hp) as (rd & so & t & Hc & _ & Hleft). rewrite Forall_forall in Hone.
    apply (one_player_leaves rd so p); [exact (Hone _ Hc)|]. apply Hleft.
    unfold quiet in Hq. rewrite forallb_forall in Hq. exact (Hq _ (proj1 (list_elem_of_In _ _) Hc)).
Qed.

(** C4. Every request counts, once. However the steps of the goroutines interleave, the
    stores hold exactly what the requests so far have put there: there is an account of
    what each request has done, at most the one operation that its method, path and validated
    body ask for, such that the stored profiles and events are those registered and opened,
    one for each identifier, the rolls are those rolled, the points of a player are the sum
    of the deltas scored and the hit points the initial ones less the damage dealt, never
    below zero. A request without an idempotency key that was answered with a success
    has done its operation, one that was answered with an error has left nothing,
    and what a request that ended has done is complete. *)
Theorem concurrent_accounts (es : list (pool_event (arrival (F:=F)))) (c : pool arrival _ (list wcmd * option string))
    (ol : option (Limiter B)) (i : I) (gu : G * U)
    (Hrun : pool_run steps es {| pl_state := (ol, (i, fresh gu)); pl_calls := [] |} = Some c) :
  let w := (pl_state c).2.2 in
  ∃ marks : list (list mark), Forall2 (accounts may_owe has_ended) (pl_calls c) marks ∧
    let all := concat marks in
    map_to_list (pr_items (sv_profile w)) ≡ₚ (λ x, (Profile_ID x, x)) <$> registered_of all ∧
    map_to_list (er_events (sv_event w).1) ≡ₚ (λ e, (Event_ID e, e)) <$> opened_of all ∧
    gr_rolls (sv_gacha w).1 ≡ₚ concat (rolled_of all) ∧
    (∀ ev p, has_char "/" ev = false →
       points_of (sv_event w).1 ev p = int64_wrap (delta_of ev p (scored_of all))) ∧
    (∀ p, hp_of (sv_battle w) p = Z.max 0 (DefaultInitialHP - damage_to p (dealt_of all))).
Proof.
  destruct (server_accounts es c ol i gu Hrun) as (marks & Hinv & Hacc).
  destruct Hinv as ([_ Hp] & [_ Hr] & (_ & Ho & Hled) & [_ Hh] & _).
  exists marks. split; [done|]. split; [done|]. split; [done|]. split; [done|]. split; [|done].
  intros ev p Hev. apply (Hled ev p Hev).
Qed.

(** Every request is answered: no schedule of the goroutines goes on forever, and as long
    as some request is under way one of them can take its next step. *)
Theorem requests_end (c : pool (arrival (F:=F)) (option (Limiter B) * (I * Sv)) (list wcmd * option string)) :
  Acc (takes_turn steps) c ∧ (quiet c = false → ∃ c', takes_turn steps c' c).
Proof.
  split; [apply takes_turn_wf|]. unfold quiet. intros Hq. apply not_true_iff_false in Hq.
  rewrite forallb_forall in Hq.
  assert (¬ Forall (λ qt, finished qt.2 = true) (pl_calls c)) as Hn.
  { rewrite Forall_forall. intros Hf. apply Hq. intros qt Hin. by apply Hf, list_elem_of_In. }
  apply not_Forall_Exists, Exists_exists in Hn as ([q t] & Hin & Ht); [|intros ?; apply _].
  apply list_elem_of_lookup_1 in Hin as [i Hi]. apply not_true_iff_false in Ht.
  destruct (proj2 (turn_free steps c i q t Hi) Ht) as [c' Hc']. by exists c', i.
Qed.
End server.

(** ** A run *)

Definition score_of (player : string) (delta : Z) : arrival (F:=()) :=
  ARequest (readings_at 20) (request "POST" "/api/event/e1/score"
    (JObj [("player", JString player); ("delta", JNum delta)])).

(** An event; two scores whose writes come before the first is mirrored; a player who is
    in the room meanwhile. *)
Definition demo_overlap : list (pool_event (arrival (F:=()))) :=
  ((λ dr, Arrives (uncurry ARequest dr)) <$> take 1 demo_reqs) ++
  [Turn 0; Turn 0; Arrives (score_of "miku" 70); Arrives (score_of "miku" 5); Arrives (ASocket (readings_at 25) demo_socket);
   Turn 1; Turn 2; Turn 2; Turn 1; Turn 1; Turn 3; Turn 2; Turn 2; Turn 1; Turn 1; Turn 3].

Definition demo_rest : list (pool_event (arrival (F:=()))) := [Turn 2; Arrives (ATick 40); Arrives ADraining; Turn 4; Turn 5; Turn 3].

Definition demo_pool_start : pool (arrival (F:=())) (option (Limiter unit) * (InmemStore body *
    Services ProfileRepo GachaRepo EventRepo Leaderboard BattleRepo unit Z Z)) (list wcmd * option string) :=
  {| pl_state := (None, (demo_store, fresh (42, 0))); pl_calls := [] |}.

Definition overlap_summary (es : list (pool_event (arrival (F:=())))) : option (Z * Z * nat * bool) :=
  c ← pool_run demo_steps es demo_pool_start;
  let w := (pl_state c).2.2 in
  Some (points_of (sv_event w).1 "e1" "miku", default 0 (event_scores (sv_event w).2 "e1" !! "miku"),
        size (members (sv_room w)), quiet c).

Example demo_overlap_summary :
  (overlap_summary demo_overlap, overlap_summary (demo_overlap ++ demo_rest)) =
  (Some (75, 70, 1%nat, false), Some (75, 75, 0%nat, true)).
Proof. vm_compute. reflexivity. Qed.

Lemma demo_one_player c :
  pool_run demo_steps (demo_overlap ++ demo_rest) demo_pool_start = Some c →
  Forall (λ at', one_player at'.1) (pl_calls c).
Proof.
  intros Hrun%pool_run_calls. 
  assert (Forall one_player (pl_calls c).*1) as Hall; [rewrite Hrun|exact (proj1 (Forall_fmap _ _ _) Hall)].
  assert (one_player (ASocket (readings_at 25) demo_socket)) as Hs
    by (exists "miku"; split; [done|]; repeat constructor).
  cbn. repeat (constructor; [first [exact I|exact Hs]|]). constructor.
Qed.

Lemma concurrent_server_witness :
  match pool_run demo_steps (demo_overlap ++ demo_rest) demo_pool_start with
  | Some c =>
      let w := (pl_state c).2.2 in
      members (sv_room w) = ∅ ∧
      points_of (sv_event w).1 "e1" "miku" = default 0 (event_scores (sv_event w).2 "e1" !! "miku") ∧
      points_of (sv_event w).1 "e1" "miku" = 75
  | None => False
  end.
Proof.
  assert (Hfacts : (c ← pool_run demo_steps (demo_overlap ++ demo_rest) demo_pool_start;
    Some (quiet c, points_of (sv_event (pl_state c).2.2).1 "e1" "miku")) = Some (true, 75))
    by (vm_compute; reflexivity).
  destruct (pool_run demo_steps _ demo_pool_start) as [c|] eqn:Hrun; [|discriminate Hfacts].
  injection Hfacts as Hquiet Hpoints.
  destruct (@concurrent_server unit Z Z reference_runtime lcg fixed_ids unit (InmemStore body) open_bucket _
    demo_GoJson reference_vldtr reference_vldtr_laws toy_jwt first_router first_router_laws plain_registry _ None None
    demo_prom "naive" lcg_in_range _ c None demo_store (42, 0) Hrun) as (_ & _ & _ & Hq).
  destruct (Hq Hquiet) as [Hagree Hroom].
  split; [exact (Hroom (demo_one_player c Hrun))|]. split; [exact (Hagree "e1" "miku" eq_refl)|exact Hpoints].
Defined.

Lemma concurrent_accounts_witness :
  match pool_run demo_steps (demo_overlap ++ demo_rest) demo_pool_start with
  | Some c => ∃ marks : list (list mark), length marks = length (pl_calls c) ∧
      int64_wrap (delta_of "e1" "miku" (scored_of (concat marks))) = 75 ∧
      ∃ e, opened_of (concat marks) = [e] ∧ Event_ID e = "e1"
  | None => False
  end.
Proof.
  assert (Hfacts : (c ← pool_run demo_steps (demo_overlap ++ demo_rest) demo_pool_start;
    Some (points_of (sv_event (pl_state c).2.2).1 "e1" "miku",
          (map_to_list (er_events (sv_event (pl_state c).2.2).1)).*1)) = Some (75, ["e1"]))
    by (vm_compute; reflexivity).
  destruct (pool_run demo_steps _ demo_pool_start) as [c|] eqn:Hrun; [|discriminate Hfacts].
  injection Hfacts as Hpoints Hevents.
  destruct (@concurrent_accounts unit Z Z reference_runtime lcg fixed_ids unit (InmemStore body) open_bucket _
    demo_GoJson reference_vldtr reference_vldtr_laws toy_jwt first_router first_router_laws plain_registry _ None None
    demo_prom "naive" lcg_in_range _ c None demo_store (42, 0) Hrun)
    as (marks & Hacc & _ & Ho & _ & Hp & _).
  exists marks. split; [symmetry; exact (Forall2_length _ _ _ Hacc)|]. split; [rewrite <- Hp, Hpoints; reflexivity|].
  apply (fmap_Permutation fst) in Ho. rewrite Hevents in Ho.
  symmetry in Ho. apply Permutation_singleton_r in Ho.
  destruct (opened_of (concat marks)) as [|e [|e' l]]; try discriminate Ho. exists e. split; [reflexivity|].
  simpl in Ho. congruence.
Defined.
